(* ===== verification/_CoqProject ===== *)
-Q . S2P
Prelude.v
RustStr.v
Topic.v
Model.v
Codec.v
Effects.v
Election.v
Cache.v
CacheSpec.v
Store.v
Db.v
DbInv.v
DbSpec.v
DbAdmin.v
DbConfig.v
DbQuery.v
DbQuerySpec.v
DbOpen.v
DbOpenSpec.v
Writer.v
WriterSpec.v
WriterRun.v
Subscribers.v
Auth.v
AuthSpec.v
Delivery.v
DeliverySpec.v
Session.v
SessionSpec.v
Observe.v
Service.v
ServiceSpec.v
Http.v
Console.v
HttpSpec.v
Restart.v
Net.v
Transport.v
NetSpec.v
Config.v
Bodies.v
Routes.v
RoutesSpec.v
Lifecycle.v
LifecycleSpec.v
