(* ===== verification/Prelude.v ===== *)
(** * cangling-broker: a verification library for the message broker

    The broker (src/src, Rust) stores published messages in sixteen SQLite shards and
    hands them to subscribers, over gRPC, MQTT and HTTP.  This library translates it
    into executable definitions and proves what makes it correct.

    ** The parts and how they interact

    A publish comes in through a gRPC handler (main.rs), an MQTT session
    (mqtt/session.rs, on packets of mqtt/codec.rs) or an HTTP handler (status.rs).  All
    of them call [ingest] (delivery.rs): messages of ephemeral topics go straight to the
    live subscribers (subscribers.rs), the others through the queue writer (writer.rs),
    whose workers commit them in batches to the queue database (db.rs).  A subscriber's
    loop (delivery.rs) claims messages under leases, sends them, waits for the
    acknowledgements and confirms them through the writer, or reports a failure; the
    webhook dispatcher (main.rs) does the same for registered HTTP consumers.  The
    retention task purges.  Elections (election.rs), the cache and the locks (cache.rs)
    are services beside the queue.  [main] (main.rs) opens the database, starts the
    writer and the listeners, and at the end drains the writer and closes the database.

    ** The files

    - [Prelude]: results, the tactics, and generic lemmas.  [RustStr]: the parts of
      Rust's [str], UTF-8 and integer formatting in use.  [Effects]: the monad of the
      server code.  A computation threads the state of its component and a counter; the
      clock, fresh identifiers, storage faults and unspecified orders are functions of
      that counter (class [Oracle]), so a theorem about every oracle is a theorem about
      every behaviour of these.  [Keeps R m] says that a program only makes steps of the
      preorder [R].
    - [Topic] (topic.rs), [Model] (model.rs), [Codec] (mqtt/codec.rs and the read loops
      of mqtt/session.rs).
    - [Election] (election.rs); [Cache] and [CacheSpec] (cache.rs).
    - [Store]: the schema and the SQL statements of db.rs, as functions on finite maps.
      [Db]: the operations of [Database]; [DbQuery]: its pages, snapshots and [close];
      [DbOpen]: [connect] with both migrations.  [DbInv], [DbSpec], [DbAdmin],
      [DbConfig], [DbQuerySpec], [DbOpenSpec]: their theorems.
    - [Writer] (writer.rs), [WriterSpec] (admission), [WriterRun] (the workers).
    - [Subscribers] (subscribers.rs); [Delivery] and [DeliverySpec] (delivery.rs).
    - [Auth] and [AuthSpec] (auth.rs, web_auth.rs, config.rs); [Observe] (metrics.rs,
      grpc_conn.rs, password_policy.rs).
    - [Session] and [SessionSpec] (mqtt/session.rs and the registry of mqtt/mod.rs).
    - [Net] and [NetSpec]: the addresses of std::net, parsed and printed, and the peer of
      a WebSocket (mqtt/mod.rs).  [Transport]: the TCP listener, and connections that
      join a read loop and a session (mqtt/mod.rs, [run_tcp] and [run_ws]).
    - [Service] and [ServiceSpec] (main.rs: the gRPC handlers, the dispatcher, the
      retention task).
    - [Http] and [Console] (status.rs: handlers and views), [HttpSpec]; [Bodies] (its
      requests and responses); [Routes] (the table of routes, the guards and the answer
      to a request), [RoutesSpec].
    - [Config] (config.rs and logging.rs): the settings and what is derived from them.
    - [Lifecycle] (main.rs: [main]; the statistics task of writer.rs), [LifecycleSpec];
      [Restart]: a worker and the database over a restart.

    A SQL statement, and a section under one lock, is one atomic step.  Every statement
    may be refused by the storage; a transaction that fails is rolled back.  A panic is
    an error value that unwinds.  A task that runs beside others (a subscriber's loop, a
    session) is the sequence of its turns, with the steps of others between them.

    ** What the theorems show

    - The queue: an invariant of all sequences of operations, the life of a message,
      what publishing stores, that a claim takes the oldest, that a lease alone gives
      power over a message, acknowledgement once, back-off, visibility time-outs, exact
      statistics ([DbInv], [DbSpec], [DbAdmin], [DbQuerySpec]).
    - Durability: a worker commits all it was given once the storage recovers, an HTTP
      publish is answered only when it is committed ([WriterRun], [HttpSpec]); the
      shutdown of the process terminates with every channel drained, and the next
      process has every accepted publish and recognises its idempotency key
      ([DbOpenSpec], [Restart], [LifecycleSpec]).
    - Delivery: confirmed by all subscribers or tried again, nothing kept by one that
      leaves, the fan-out of ephemeral messages, the outcome of a webhook, what
      retention spares ([DeliverySpec], [ServiceSpec]).
    - The wire: encoding and decoding are inverse, packets arrive whole however the
      bytes are split, decoded packets are well-formed, packet identifiers are fresh,
      the handshake, and a session over TCP or WebSocket is the session on its packets
      ([Codec], [SessionSpec], [Transport]); the peer recorded for a WebSocket is the
      canonical text of an address ([NetSpec]).
    - Elections, locks and the cache: fencing terms, exclusion, eviction by use.
    - Access: tokens, administrator sessions, and that no route of the whole HTTP
      service manages anything without credentials ([AuthSpec], [HttpSpec],
      [RoutesSpec]).
    - Defects: a resubscription loses its registration to the end of the old session
      ([resubscribe_race]), overlapping operations leave a stale topic configuration
      ([DbConfig.topic_config_race]), an interrupted consumer migration is never resumed
      ([consumer_migration_stuck]).

    ** Bounds and fuel

    Integers are [Z] with the bounds of their width written out where the code depends
    on them.  Loops that are not structural have fuel: ten rounds for the length bytes
    of a packet and twenty for the digits of a number cover 64 bits; the loops of the
    codec, of the eviction and of the recent keys take the length of what they consume,
    and lemmas show that more fuel changes nothing.  The retries of [Writer.persist] are
    unbounded in the code; running out of fuel is an explicit result, and
    [writer_persists] proves that it does not happen once the storage recovers within
    the fuel; [shutdown_completes] proves the same of the whole process.  The digits of
    an address have ten rounds, enough for 32 bits.

    ** What is assumed

    chrono, serde_json, argon2, the regular expressions and the random generator are
    parameters; what is used of them are the laws of the classes [ChronoLaws],
    [SerdeLaws], [PasswordLaws], [UuidLaws] and [OrderLaws], each with a concrete
    instance on which the theorems are evaluated.  How axum matches a request to the
    routes the source builds is the class [Axum] with [AxumLaws], and how it decodes a
    body a parameter; what the tasks of [main] do between start and end is a parameter
    too.  At the shutdown the workers of the sixteen shards are run one after the other;
    this is one schedule of theirs, in which each still meets every fault of the storage.

    ** Not modelled

    Sockets and framing below the byte stream (reading and writing in grpc_conn.rs, the
    servers of axum and tonic), signals and the parsing of the command line, the writing
    and rotation of log files, PRAGMAs and indexes, the texts that only go to the log,
    and the dashboard page apart from its base tag.  Their content is the libraries'
    own.  The benchmark and the tests of the repository are not part of the program, and
    the clients in Python and Java use the broker from outside. *)

From Stdlib Require Export ZArith Lia Ascii String.
From stdpp Require Export sorting numbers option base list strings gmap.

#[global] Open Scope Z_scope.

(** * Results: Rust's [Result<T, E>] and the [?] operator *)

Inductive result (E A : Type) : Type :=
  | Ok (a : A)
  | Err (e : E).
Arguments Ok {E A} a.
Arguments Err {E A} e.

#[export] Instance result_ret {E} : MRet (result E) := λ A a, Ok a.
#[export] Instance result_bind {E} : MBind (result E) := λ A B f m,
  match m with Ok a => f a | Err e => Err e end.
#[export] Instance result_fmap {E} : FMap (result E) := λ A B f m,
  match m with Ok a => Ok (f a) | Err e => Err e end.

(** [Option::ok_or]. *)
Definition ok_or {E A} (e : E) (o : option A) : result E A :=
  match o with Some a => Ok a | None => Err e end.

(** [Result::map_err]. *)
Definition map_err {E F A} (f : E → F) (m : result E A) : result F A :=
  match m with Ok a => Ok a | Err e => Err (f e) end.

(** [Result::ok]. *)
Definition ok {E A} (m : result E A) : option A :=
  match m with Ok a => Some a | Err _ => None end.

Lemma bind_Ok {E A B} (f : A → result E B) (m : result E A) b :
  (m ≫= f) = Ok b ↔ ∃ a, m = Ok a ∧ f a = Ok b.
Proof.
  destruct m as [a|e]; simpl; split; try done; eauto.
  - intros (a' & [= <-] & H). done.
  - by intros (a' & [=] & _).
Qed.

(** * Machine integers, kept as [Z] with their ranges *)

Abbreviation u8 := Z (only parsing).
Abbreviation u16 := Z (only parsing).
Abbreviation u64 := Z (only parsing).
Abbreviation i64 := Z (only parsing).
Abbreviation usize := Z (only parsing).

Definition U8_MAX : Z := 255.
Definition U16_MAX : Z := 65535.
Definition U64_MAX : Z := 2 ^ 64 - 1.
Definition I64_MAX : Z := 2 ^ 63 - 1.
Definition I64_MIN : Z := - 2 ^ 63.

Definition is_u8 (z : Z) : Prop := 0 <= z <= U8_MAX.
Definition is_u16 (z : Z) : Prop := 0 <= z <= U16_MAX.
Definition is_u64 (z : Z) : Prop := 0 <= z <= U64_MAX.
Definition is_i64 (z : Z) : Prop := I64_MIN <= z <= I64_MAX.

#[export] Instance is_u8_dec z : Decision (is_u8 z).
Proof. unfold is_u8. apply _. Defined.
#[export] Instance is_u16_dec z : Decision (is_u16 z).
Proof. unfold is_u16. apply _. Defined.
#[export] Instance is_i64_dec z : Decision (is_i64 z).
Proof. unfold is_i64. apply _. Defined.

Definition wrap_u64 (z : Z) : Z := z mod 2 ^ 64.
Definition wrap_i64 (z : Z) : Z := (z + 2 ^ 63) mod 2 ^ 64 - 2 ^ 63.
Definition clamp_i64 (z : Z) : Z := Z.max I64_MIN (Z.min I64_MAX z).

(** [i64::saturating_add], [i64::saturating_sub] and [i64::saturating_mul]. *)
Definition saturating_add (a b : Z) : Z := clamp_i64 (a + b).
Definition saturating_sub (a b : Z) : Z := clamp_i64 (a - b).
Definition saturating_mul (a b : Z) : Z := clamp_i64 (a * b).

(** [Ord::clamp]. *)
Definition clampZ (lo hi z : Z) : Z := Z.max lo (Z.min hi z).

Lemma clamp_i64_id z : is_i64 z → clamp_i64 z = z.
Proof. unfold is_i64, clamp_i64, I64_MIN, I64_MAX. lia. Qed.

Lemma wrap_i64_id z : is_i64 z → wrap_i64 z = z.
Proof.
  unfold is_i64, wrap_i64, I64_MIN, I64_MAX. intros H.
  rewrite Z.mod_small; lia.
Qed.

(** * Proof automation shared by the components *)

Create HintDb broker.

(** Split a hypothesis or goal on the [match] and [if] it is stuck on, and
    clean up the equations that come out. *)
Ltac crush_matches :=
  repeat (simplify_eq/=; case_match; simplify_eq/=); try done.

(** Decide a goal about boolean comparisons by moving it to [Z] or [nat]. *)
Ltac bool_lia :=
  repeat match goal with
  | H : (_ && _) = true |- _ => apply andb_prop in H as [? ?]
  | H : negb _ = true |- _ => apply negb_true_iff in H
  | H : negb _ = false |- _ => apply negb_false_iff in H
  end; lia.

(** * Lists *)

Section lists.
Context {A : Type}.

(** The number of elements a boolean test selects. *)
Definition countb (p : A → bool) (l : list A) : nat := length (List.filter p l).

Lemma countb_app p (l k : list A) : countb p (l ++ k) = (countb p l + countb p k)%nat.
Proof. unfold countb. by rewrite List.filter_app, length_app. Qed.

Lemma countb_le p (l : list A) : (countb p l <= length l)%nat.
Proof. unfold countb. induction l; simpl; [lia|]. destruct (p a); simpl; lia. Qed.

Lemma Forall_List_filter (P : A → Prop) p (l : list A) :
  Forall P l → Forall P (List.filter p l).
Proof.
  rewrite !List.Forall_forall. intros H x [Hx _]%List.filter_In. by apply H.
Qed.

Lemma NoDup_map_List_filter {B} (f : A → B) p (l : list A) :
  NoDup (map f l) → NoDup (map f (List.filter p l)).
Proof.
  induction l as [|x l IH]; simpl; [done|].
  intros [Hx Hl]%NoDup_cons. case_match; simpl; [|by apply IH].
  apply NoDup_cons. split; [|by apply IH].
  rewrite list_elem_of_In, List.in_map_iff in *. intros (y & Hy & [Hin _]%List.filter_In).
  apply Hx. by exists y.
Qed.

Lemma map_id_on (f : A → A) (l : list A) : (∀ x, x ∈ l → f x = x) → map f l = l.
Proof.
  induction l as [|x l IH]; simpl; intros H; [done|].
  rewrite H by set_solver. f_equal. apply IH. set_solver.
Qed.
End lists.

Lemma foldl_ext {A B} (f g : B → A → B) b l : (∀ b a, f b a = g b a) → foldl f b l = foldl g b l.
Proof. intros Hfg. revert b. induction l as [|a l IH]; intros b; simpl; [done|]. by rewrite Hfg, IH. Qed.

Lemma filter_bool {A} (f : A → bool) (l : list A) : List.filter f l = filter (λ x, f x = true) l.
Proof.
  induction l as [|x l IH]; [done|]. simpl. rewrite filter_cons, IH. case_decide as Hd; [by rewrite Hd|].
  by destruct (f x).
Qed.

Lemma filter_all {A} (P : A → Prop) `{!∀ x, Decision (P x)} (l : list A) :
  Forall P l → filter P l = l.
Proof. induction 1; [done|]. rewrite filter_cons_True by done. by f_equal. Qed.

Lemma length_remove_dups_le {A} `{!EqDecision A} (l : list A) :
  (length (remove_dups l) <= length l)%nat.
Proof. induction l as [|x l IH]; simpl; [done|]. case_decide; simpl; lia. Qed.

(** * Bit operations as arithmetic *)

(** A decidable fact about every value below a literal bound, by evaluation. *)
Lemma below_decide (n : nat) (P : Z → Prop) `{∀ z, Decision (P z)} z :
  forallb (λ z, bool_decide (P z)) (map Z.of_nat (seq 0 n)) = true →
  0 <= z < Z.of_nat n → P z.
Proof.
  rewrite forallb_forall. intros HP Hz. apply (bool_decide_eq_true (P z)), HP, List.in_map_iff.
  exists (Z.to_nat z). rewrite List.in_seq. lia.
Qed.

(** A value below [2^k] fills the low bits of a multiple of [2^k]. *)
Lemma lor_low k a b : 0 <= k → 0 <= b < 2 ^ k → Z.lor (a * 2 ^ k) b = a * 2 ^ k + b.
Proof.
  intros Hk Hb.
  assert (Z.land (a * 2 ^ k) b = 0) as Hl.
  { apply Z.bits_inj'. intros n Hn. rewrite Z.land_spec, Z.bits_0.
    destruct (decide (n < k)).
    - by rewrite Z.mul_pow2_bits_low.
    - rewrite <-(Z.mod_small b (2 ^ k)) by done.
      rewrite Z.mod_pow2_bits_high by lia. apply andb_false_r. }
  by rewrite <-Z.lxor_lor, <-Z.add_nocarry_lxor.
Qed.

Lemma land_low k a : 0 <= k → Z.land a (Z.ones k) = a mod 2 ^ k.
Proof. apply Z.land_ones. Qed.
