(* ===== verification/RustStr.v ===== *)
(** The parts of Rust's [str], [String], [Vec<u8>] and integer formatting that
    the broker uses.

    A Rust [String] is a [string], one [ascii] per byte of its UTF-8 encoding;
    a [Vec<u8>] or [&[u8]] is a [list Z] whose elements are bytes.  Every
    function below works on bytes, as Rust's own do; [trim] removes the
    characters of Unicode's White_Space class by their UTF-8 sequences. *)

From S2P Require Import Prelude.

#[global] Open Scope string_scope.
#[global] Open Scope list_scope.
#[global] Open Scope Z_scope.
#[global] Arguments String.append : simpl nomatch.

(** * Bytes and strings *)

Definition byte_of (c : ascii) : Z := Z.of_N (N_of_ascii c).
Definition char_of (b : Z) : ascii := ascii_of_N (Z.to_N b).

Fixpoint as_bytes (s : string) : list Z :=
  match s with
  | EmptyString => []
  | String c s => byte_of c :: as_bytes s
  end.

Fixpoint of_bytes (l : list Z) : string :=
  match l with
  | [] => EmptyString
  | b :: l => String (char_of b) (of_bytes l)
  end.

(** [str::len]: the number of bytes. *)
Definition len (s : string) : Z := Z.of_nat (String.length s).

Lemma byte_of_range c : is_u8 (byte_of c).
Proof.
  unfold is_u8, U8_MAX, byte_of. pose proof (N_ascii_bounded c). lia.
Qed.

Lemma char_of_byte_of c : char_of (byte_of c) = c.
Proof. unfold char_of, byte_of. by rewrite N2Z.id, ascii_N_embedding. Qed.

Lemma byte_of_char_of b : is_u8 b → byte_of (char_of b) = b.
Proof.
  unfold is_u8, U8_MAX, char_of, byte_of. intros H.
  rewrite N_ascii_embedding; lia.
Qed.

Lemma byte_of_inj c d : byte_of c = byte_of d → c = d.
Proof. intros H. by rewrite <-(char_of_byte_of c), H, char_of_byte_of. Qed.

Lemma of_bytes_as_bytes s : of_bytes (as_bytes s) = s.
Proof. induction s; simpl; [done|]. by rewrite char_of_byte_of, IHs. Qed.

Lemma as_bytes_of_bytes l : Forall is_u8 l → as_bytes (of_bytes l) = l.
Proof.
  induction 1; simpl; [done|]. by rewrite byte_of_char_of, IHForall.
Qed.

Lemma as_bytes_u8 s : Forall is_u8 (as_bytes s).
Proof. induction s; simpl; constructor; auto using byte_of_range. Qed.

Lemma length_as_bytes s : length (as_bytes s) = String.length s.
Proof. induction s as [|c s IH]; simpl; [done|]. by rewrite IH. Qed.

Lemma as_bytes_inj s t : as_bytes s = as_bytes t → s = t.
Proof. intros H. by rewrite <-(of_bytes_as_bytes s), H, of_bytes_as_bytes. Qed.

Lemma as_bytes_app s t : as_bytes (s +:+ t) = (as_bytes s ++ as_bytes t)%list.
Proof. induction s as [|c s IH]; simpl; [done|]. by rewrite IH. Qed.

#[export] Hint Resolve byte_of_range as_bytes_u8 : broker.

(** * [str::split] on a character *)

Fixpoint split (c : ascii) (s : string) : list string :=
  match s with
  | EmptyString => [""]
  | String a s =>
      if decide (a = c) then "" :: split c s
      else match split c s with
           | p :: ps => String a p :: ps
           | [] => [String a ""]
           end
  end.

Fixpoint join (c : ascii) (ps : list string) : string :=
  match ps with
  | [] => ""
  | [p] => p
  | p :: ps => p +:+ String c (join c ps)
  end.

(** [str::contains] on a character. *)
Fixpoint contains (c : ascii) (s : string) : bool :=
  match s with
  | EmptyString => false
  | String a s => bool_decide (a = c) || contains c s
  end.

Lemma split_not_nil c s : split c s ≠ [].
Proof. destruct s; simpl; [done|]. case_decide; [done|]. by destruct (split c s). Qed.

Lemma join_split c s : join c (split c s) = s.
Proof.
  induction s as [|a s IH]; simpl; [done|].
  pose proof (split_not_nil c s). case_decide as Ha.
  - subst. destruct (split c s); [done|]. simpl in *. by rewrite IH.
  - destruct (split c s) as [|p [|q ps]]; simpl in *; by rewrite <-IH.
Qed.

Lemma split_inj c s t : split c s = split c t → s = t.
Proof. intros H. by rewrite <-(join_split c s), H, join_split. Qed.

Lemma split_no_sep c s p : p ∈ split c s → contains c p = false.
Proof.
  revert p; induction s as [|a s IH]; simpl; intros p.
  - rewrite list_elem_of_singleton. by intros ->.
  - case_decide as Ha.
    + rewrite elem_of_cons. intros [->|?]; auto.
    + destruct (split c s) as [|q qs] eqn:Hs.
      * rewrite list_elem_of_singleton. intros ->. simpl.
        rewrite bool_decide_false by done. done.
      * rewrite elem_of_cons. intros [->|?].
        -- simpl. rewrite bool_decide_false by done. apply IH. set_solver.
        -- apply IH. set_solver.
Qed.

Lemma split_contains c d s p :
  p ∈ split c s → contains d s = false → contains d p = false.
Proof.
  revert p; induction s as [|a s IH]; simpl; intros p.
  - rewrite list_elem_of_singleton. by intros ->.
  - intros Hp [Ha Hs]%orb_false_iff. case_decide as Hac.
    + apply elem_of_cons in Hp as [->|?]; auto.
    + destruct (split c s) as [|q qs] eqn:Hq.
      * apply list_elem_of_singleton in Hp as ->. simpl. by rewrite Ha.
      * apply elem_of_cons in Hp as [->|?].
        -- simpl. rewrite Ha. apply IH; set_solver.
        -- apply IH; set_solver.
Qed.

Lemma split_app_sep c p s :
  contains c p = false → split c (p +:+ String c s) = p :: split c s.
Proof.
  induction p as [|a p IH]; simpl.
  - by rewrite decide_True.
  - intros [Ha Hp]%orb_false_iff. apply bool_decide_eq_false in Ha.
    rewrite decide_False, IH by done. done.
Qed.

Lemma split_none c p : contains c p = false → split c p = [p].
Proof.
  induction p as [|a p IH]; simpl; [done|].
  intros [Ha Hp]%orb_false_iff. apply bool_decide_eq_false in Ha.
  by rewrite decide_False, IH.
Qed.

Lemma split_join c ps :
  ps ≠ [] → Forall (λ p, contains c p = false) ps → split c (join c ps) = ps.
Proof.
  intros Hne Hps. induction Hps as [|p ps Hp Hps IH]; [done|].
  destruct ps as [|q qs]; simpl.
  - by apply split_none.
  - rewrite split_app_sep by done. f_equal. by apply IH.
Qed.

(** * Prefixes and suffixes *)

Fixpoint strip_prefix (p s : string) : option string :=
  match p, s with
  | EmptyString, _ => Some s
  | String a p, String b s => if decide (a = b) then strip_prefix p s else None
  | String _ _, EmptyString => None
  end.

Definition starts_with (p s : string) : bool := bool_decide (is_Some (strip_prefix p s)).

Fixpoint strip_suffix (p s : string) : option string :=
  if decide (s = p) then Some ""
  else match s with
       | EmptyString => None
       | String a s => String a <$> strip_suffix p s
       end.

Lemma strip_prefix_Some p s r : strip_prefix p s = Some r ↔ s = p +:+ r.
Proof.
  revert s; induction p as [|a p IH]; simpl; intros s.
  - split; [by intros [= ->]|by intros ->].
  - destruct s as [|b s]; simpl; [done|].
    case_decide; subst; [rewrite IH|]; split; try done; [by intros ->| |]; by intros [=].
Qed.

Lemma starts_with_true p s : starts_with p s = true ↔ ∃ r, s = p +:+ r.
Proof.
  unfold starts_with. rewrite bool_decide_eq_true. unfold is_Some.
  by setoid_rewrite strip_prefix_Some.
Qed.

Lemma string_app_assoc (s t u : string) : (s +:+ t) +:+ u = s +:+ (t +:+ u).
Proof. induction s as [|a s IH]; simpl; [done|]. by rewrite IH. Qed.

Lemma string_app_nil_r (s : string) : s +:+ "" = s.
Proof. induction s as [|a s IH]; simpl; [done|]. by rewrite IH. Qed.

Lemma string_app_length_r (s p : string) : (String.length p <= String.length (s +:+ p))%nat.
Proof. induction s; simpl; lia. Qed.

Lemma strip_suffix_Some p s r : strip_suffix p s = Some r ↔ s = r +:+ p.
Proof.
  revert r; induction s as [|a s IH]; intros r; simpl; case_decide as Hp.
  - subst. split; [by intros [= <-]|]. by destruct r.
  - split; [done|]. by destruct r.
  - subst. split; [by intros [= <-]|]. intros H. f_equal. destruct r as [|b r]; [done|].
    pose proof (string_app_length_r r (String a s)) as Hl.
    injection H as <- Hs. rewrite <-Hs in Hl. simpl in Hl. lia.
  - rewrite fmap_Some. split.
    + intros (r' & Hr & ->). apply IH in Hr. simpl. by f_equal.
    + destruct r as [|b r]; simpl; [by intros <-|]. intros [= -> ->].
      exists r. split; [by apply IH|done].
Qed.

(** * [str::trim]

    The White_Space characters of Unicode, by their UTF-8 bytes: U+0009 to
    U+000D and U+0020; U+0085 and U+00A0; U+1680, U+2000 to U+200A, U+2028,
    U+2029, U+202F, U+205F and U+3000.  On valid UTF-8 a lead byte occurs only
    at the start of a character, so matching the byte sequences at either end
    removes whole characters. *)

Definition ws1 (a : ascii) : bool :=
  let x := byte_of a in ((9 <=? x) && (x <=? 13)) || (x =? 32).

Definition ws2 (a b : ascii) : bool :=
  (byte_of a =? 194) && ((byte_of b =? 133) || (byte_of b =? 160)).

Definition ws3 (a b c : ascii) : bool :=
  let x := byte_of a in let y := byte_of b in let z := byte_of c in
  ((x =? 225) && (y =? 154) && (z =? 128))
  || ((x =? 226) && (y =? 128)
      && (((128 <=? z) && (z <=? 138)) || (z =? 168) || (z =? 169) || (z =? 175)))
  || ((x =? 226) && (y =? 129) && (z =? 159))
  || ((x =? 227) && (y =? 128) && (z =? 128)).

Fixpoint trim_with (w2 : ascii → ascii → bool) (w3 : ascii → ascii → ascii → bool)
    (s : string) : string :=
  match s with
  | EmptyString => EmptyString
  | String a s1 =>
      if ws1 a then trim_with w2 w3 s1
      else match s1 with
           | EmptyString => s
           | String b s2 =>
               if w2 a b then trim_with w2 w3 s2
               else match s2 with
                    | EmptyString => s
                    | String c s3 => if w3 a b c then trim_with w2 w3 s3 else s
                    end
           end
  end.

Fixpoint srev_app (s acc : string) : string :=
  match s with
  | EmptyString => acc
  | String a s => srev_app s (String a acc)
  end.
Definition srev (s : string) : string := srev_app s "".

Definition trim_start (s : string) : string := trim_with ws2 ws3 s.
Definition trim_end (s : string) : string :=
  srev (trim_with (λ a b, ws2 b a) (λ a b c, ws3 c b a) (srev s)).
Definition trim (s : string) : string := trim_end (trim_start s).

Definition is_empty (s : string) : bool := bool_decide (s = "").

(** [str::trim_matches(c)] and [str::trim_end_matches(c)] for a character. *)
Fixpoint trim_start_matches (c : ascii) (s : string) : string :=
  match s with
  | String a s' => if decide (a = c) then trim_start_matches c s' else s
  | EmptyString => EmptyString
  end.
Definition trim_end_matches (c : ascii) (s : string) : string :=
  srev (trim_start_matches c (srev s)).
Definition trim_matches (c : ascii) (s : string) : string :=
  trim_end_matches c (trim_start_matches c s).

Lemma srev_app_spec s acc : srev_app s acc = srev s +:+ acc.
Proof.
  unfold srev. revert acc. induction s as [|a s IH]; intros acc; simpl; [done|].
  rewrite IH, (IH (String a "")), string_app_assoc. done.
Qed.

Lemma srev_snoc s a : srev (s +:+ String a "") = String a (srev s).
Proof.
  induction s as [|b s IH]; [done|]. unfold srev. simpl.
  by rewrite !srev_app_spec, IH.
Qed.

Lemma srev_srev s : srev (srev s) = s.
Proof.
  induction s as [|a s IH]; [done|].
  unfold srev at 2. simpl. by rewrite srev_app_spec, srev_snoc, IH.
Qed.

(** Whether a string begins with a white-space character. *)
Definition starts_ws (w2 : ascii → ascii → bool) (w3 : ascii → ascii → ascii → bool)
    (s : string) : bool :=
  match s with
  | EmptyString => false
  | String a s1 =>
      ws1 a || match s1 with
               | EmptyString => false
               | String b s2 =>
                   w2 a b || match s2 with
                             | EmptyString => false
                             | String c _ => w3 a b c
                             end
               end
  end.

Lemma starts_ws_app w2 w3 s t :
  starts_ws w2 w3 (s +:+ t) = false → starts_ws w2 w3 s = false.
Proof.
  destruct s as [|a [|b [|c s]]]; simpl; [done| | |done];
    rewrite ?orb_false_iff; intuition.
Qed.

(** One step of [trim_with]: it stops, or drops a nonempty prefix. *)
Lemma trim_with_step w2 w3 s :
  (starts_ws w2 w3 s = false ∧ trim_with w2 w3 s = s) ∨
  (∃ p r, s = p +:+ r ∧ p ≠ "" ∧ trim_with w2 w3 s = trim_with w2 w3 r).
Proof.
  destruct s as [|a s1]; [by left|]. cbn [trim_with starts_ws].
  destruct (ws1 a); cbn [orb]; [right; by exists (String a ""), s1|].
  destruct s1 as [|b s2]; [by left|].
  destruct (w2 a b); cbn [orb]; [right; by exists (String a (String b "")), s2|].
  destruct s2 as [|c s3]; [by left|].
  destruct (w3 a b c); [right; by exists (String a (String b (String c ""))), s3|by left].
Qed.

Lemma trim_with_spec w2 w3 s :
  starts_ws w2 w3 (trim_with w2 w3 s) = false ∧ ∃ p, s = p +:+ trim_with w2 w3 s.
Proof.
  remember (String.length s) as n eqn:Hn. revert s Hn.
  induction n as [n IH] using lt_wf_ind. intros s ->.
  destruct (trim_with_step w2 w3 s) as [[Hs ->]|(p & r & -> & Hp & ->)].
  - split; [done|]. by exists "".
  - destruct (IH (String.length r)) with r as [Hs [q Hq]]; [|done|].
    + destruct p as [|a p]; [done|]. simpl. pose proof (string_app_length_r p r). lia.
    + split; [done|]. exists (p +:+ q). rewrite string_app_assoc. by f_equal.
Qed.

Lemma trim_with_fixed w2 w3 s : starts_ws w2 w3 s = false → trim_with w2 w3 s = s.
Proof.
  destruct s as [|a s1]; [done|]. cbn [trim_with starts_ws].
  intros [-> H1]%orb_false_iff. destruct s1 as [|b s2]; [done|].
  apply orb_false_iff in H1 as [-> H2]. destruct s2; [done|]. by rewrite H2.
Qed.

Lemma srev_string_app s t : srev (s +:+ t) = srev t +:+ srev s.
Proof.
  induction s as [|a s IH]; simpl.
  - by rewrite string_app_nil_r.
  - unfold srev at 1 3. simpl. rewrite !srev_app_spec, IH. by rewrite string_app_assoc.
Qed.

(** A trimmed string is a fixed point of [trim]. *)
Lemma trim_idem s : trim (trim s) = trim s.
Proof.
  unfold trim at 1. unfold trim_start.
  set (w2 := λ a b, ws2 b a). set (w3 := λ a b c, ws3 c b a).
  destruct (trim_with_spec w2 w3 (srev (trim_start s))) as [He [p Hp]].
  apply (f_equal srev) in Hp. rewrite srev_srev, srev_string_app in Hp.
  assert (starts_ws ws2 ws3 (trim s) = false) as Hs.
  { apply starts_ws_app with (srev p). unfold trim, trim_end. fold w2 w3. rewrite <-Hp.
    unfold trim_start. by destruct (trim_with_spec ws2 ws3 s). }
  rewrite (trim_with_fixed _ _ _ Hs). unfold trim_end. fold w2 w3.
  unfold trim at 2. unfold trim_end. fold w2 w3. f_equal.
  unfold trim, trim_end. fold w2 w3. rewrite srev_srev. by apply trim_with_fixed.
Qed.

(** * ASCII case, UTF-8 validity, decimal numbers *)

Definition lower_char (c : ascii) : ascii :=
  let x := byte_of c in if (65 <=? x) && (x <=? 90) then char_of (x + 32) else c.

Fixpoint to_ascii_lowercase (s : string) : string :=
  match s with
  | EmptyString => EmptyString
  | String c s => String (lower_char c) (to_ascii_lowercase s)
  end.

Definition in_range (lo hi b : Z) : bool := (lo <=? b) && (b <=? hi).

(** [std::str::from_utf8] accepts exactly the well-formed byte sequences of
    the Unicode standard (table 3-7). *)
Fixpoint utf8_valid (l : list Z) : bool :=
  match l with
  | [] => true
  | a :: r =>
      if in_range 0 127 a then utf8_valid r
      else match r with
      | b :: r1 =>
          if in_range 194 223 a then in_range 128 191 b && utf8_valid r1
          else match r1 with
          | c :: r2 =>
              if a =? 224 then in_range 160 191 b && in_range 128 191 c && utf8_valid r2
              else if a =? 237 then in_range 128 159 b && in_range 128 191 c && utf8_valid r2
              else if in_range 225 239 a
                   then in_range 128 191 b && in_range 128 191 c && utf8_valid r2
              else match r2 with
              | d :: r3 =>
                  (if a =? 240 then in_range 144 191 b
                   else if a =? 244 then in_range 128 143 b
                   else in_range 241 243 a && in_range 128 191 b)
                  && in_range 128 191 c && in_range 128 191 d && utf8_valid r3
              | [] => false
              end
          | [] => false
          end
      | [] => false
      end
  end.

(** [String::from_utf8(bytes).ok()]. *)
Definition from_utf8 (l : list Z) : option string :=
  if utf8_valid l then Some (of_bytes l) else None.

(** The invariant of Rust's [String]: its bytes are valid UTF-8. *)
Definition is_utf8 (s : string) : Prop := utf8_valid (as_bytes s) = true.

Lemma from_utf8_as_bytes s : is_utf8 s → from_utf8 (as_bytes s) = Some s.
Proof. unfold is_utf8, from_utf8. intros ->. by rewrite of_bytes_as_bytes. Qed.

(** [str::is_char_boundary] on the bytes of a string. *)
Definition is_char_boundary (l : list Z) (n : nat) : bool :=
  bool_decide (n = 0%nat) || bool_decide (n = length l) ||
  match l !! n with
  | Some b => negb (in_range 128 191 b)
  | None => false
  end.

(** Decimal digits. *)
Definition digit_char (d : Z) : ascii := char_of (48 + d).
Definition char_digit (c : ascii) : option Z :=
  let x := byte_of c in if in_range 48 57 x then Some (x - 48) else None.

(** [u64::to_string]: fuel 20 covers every 64-bit value. *)
Fixpoint print_nat (fuel : nat) (n : Z) : string :=
  match fuel with
  | O => ""
  | S fuel =>
      if n <? 10 then String (digit_char n) ""
      else print_nat fuel (n / 10) +:+ String (digit_char (n mod 10)) ""
  end.

(** [i64::to_string]. *)
Definition print_i64 (n : Z) : string :=
  if n <? 0 then "-" +:+ print_nat 20 (- n) else print_nat 20 n.

Fixpoint parse_digits (acc : Z) (s : string) : option Z :=
  match s with
  | EmptyString => Some acc
  | String c s => d ← char_digit c; parse_digits (acc * 10 + d) s
  end.

(** The value of a nonempty run of digits; [None] when there is none. *)
Definition parse_magnitude (s : string) : option Z :=
  if is_empty s then None else parse_digits 0 s.

(** [str::parse::<i64>().ok()]: an optional sign, at least one digit, in range. *)
Definition parse_i64_str (s : string) : option Z :=
  v ← match s with
      | String "-" s => Z.opp <$> parse_magnitude s
      | String "+" s => parse_magnitude s
      | _ => parse_magnitude s
      end;
  if decide (is_i64 v) then Some v else None.

(** [str::parse::<usize>().ok()]: a sign other than [+] is refused. *)
Definition parse_usize (s : string) : option Z :=
  v ← match s with
      | String "+" s => parse_magnitude s
      | _ => parse_magnitude s
      end;
  if decide (v <= U64_MAX) then Some v else None.

(** [format!("{n:02}")] for a number below one hundred. *)
Definition pad2 (n : Z) : string :=
  String (digit_char (n / 10)) (String (digit_char (n mod 10)) "").

(** * The byte order of strings: [str]'s [Ord] and SQLite's BINARY collation *)

Fixpoint str_leb (s t : string) : bool :=
  match s, t with
  | EmptyString, _ => true
  | String _ _, EmptyString => false
  | String a s, String b t =>
      (byte_of a <? byte_of b) || ((byte_of a =? byte_of b) && str_leb s t)
  end.

Definition str_ltb (s t : string) : bool := negb (str_leb t s).

Definition str_le (s t : string) : Prop := str_leb s t = true.

#[export] Instance str_le_dec s t : Decision (str_le s t).
Proof. unfold str_le. apply _. Defined.

Lemma str_leb_refl s : str_leb s s = true.
Proof.
  induction s as [|a s IH]; simpl; [done|]. by rewrite Z.eqb_refl, IH, orb_true_r.
Qed.

Lemma str_leb_total s t : str_leb s t = true ∨ str_leb t s = true.
Proof.
  revert t. induction s as [|a s IH]; intros [|b t]; simpl; [auto..|].
  destruct (Z.ltb_spec (byte_of a) (byte_of b)); [auto|].
  destruct (Z.ltb_spec (byte_of b) (byte_of a)); [auto|].
  assert (byte_of a = byte_of b) as -> by lia. rewrite Z.eqb_refl. simpl. apply IH.
Qed.

Lemma str_leb_trans s t u : str_leb s t = true → str_leb t u = true → str_leb s u = true.
Proof.
  revert t u. induction s as [|a s IH]; intros [|b t] [|c u]; simpl; [done..|].
  rewrite !orb_true_iff, !andb_true_iff, !Z.ltb_lt, !Z.eqb_eq.
  intros [?|[? ?]] [?|[? ?]]; [left; lia..|right; split; [lia|eauto]].
Qed.

Lemma str_leb_antisym s t : str_leb s t = true → str_leb t s = true → s = t.
Proof.
  revert t. induction s as [|a s IH]; intros [|b t]; simpl; [done..|].
  rewrite !orb_true_iff, !andb_true_iff, !Z.ltb_lt, !Z.eqb_eq.
  intros [?|[Hb Hs]] [?|[? Ht]]; try lia. f_equal; [by apply byte_of_inj|by apply IH].
Qed.

#[export] Instance str_le_total : Total str_le := str_leb_total.
#[export] Instance str_le_trans : Transitive str_le := str_leb_trans.
#[export] Instance str_le_refl : Reflexive str_le := str_leb_refl.

Lemma str_ltb_leb s t : str_ltb s t = true → str_leb s t = true.
Proof.
  unfold str_ltb. rewrite negb_true_iff. destruct (str_leb_total s t); congruence.
Qed.

(** A number in a fixed number of digits. *)
Fixpoint dec_fixed (k : nat) (z : Z) : string :=
  match k with
  | O => ""
  | S k => String (digit_char (z / 10 ^ Z.of_nat k)) (dec_fixed k (z mod 10 ^ Z.of_nat k))
  end.

Lemma digit_char_byte d : 0 <= d < 10 → byte_of (digit_char d) = 48 + d.
Proof. intros Hd. apply byte_of_char_of. unfold is_u8, U8_MAX. lia. Qed.

Lemma char_digit_char d : 0 <= d < 10 → char_digit (digit_char d) = Some d.
Proof.
  intros Hd. unfold char_digit. rewrite digit_char_byte by done.
  unfold in_range. rewrite !(proj2 (Z.leb_le _ _)) by lia. simpl. f_equal. lia.
Qed.

(** Fixed-width decimals are ordered as the numbers are. *)
Lemma dec_fixed_leb k a b :
  0 <= a < 10 ^ Z.of_nat k → 0 <= b < 10 ^ Z.of_nat k →
  str_leb (dec_fixed k a) (dec_fixed k b) = (a <=? b).
Proof.
  revert a b. induction k as [|k IH]; intros a b Ha Hb.
  { change (10 ^ Z.of_nat 0) with 1 in *. simpl. symmetry. apply Z.leb_le. lia. }
  rewrite Nat2Z.inj_succ, Z.pow_succ_r in Ha, Hb by lia. cbn [dec_fixed str_leb].
  set (p := 10 ^ Z.of_nat k) in *. assert (0 < p) by (apply Z.pow_pos_nonneg; lia).
  pose proof (Z.mod_pos_bound a p ltac:(lia)). pose proof (Z.mod_pos_bound b p ltac:(lia)).
  pose proof (Z.div_mod a p ltac:(lia)). pose proof (Z.div_mod b p ltac:(lia)).
  assert (0 <= a / p < 10) by (split; [apply Z.div_pos; lia|apply Z.div_lt_upper_bound; lia]).
  assert (0 <= b / p < 10) by (split; [apply Z.div_pos; lia|apply Z.div_lt_upper_bound; lia]).
  rewrite !digit_char_byte, IH by done.
  destruct (Z.ltb_spec (48 + a / p) (48 + b / p)); simpl.
  { symmetry. apply Z.leb_le. nia. }
  destruct (Z.eqb_spec (48 + a / p) (48 + b / p)) as [He|He]; simpl.
  - assert (a / p = b / p) as E by lia. rewrite E in *.
    destruct (Z.leb_spec (a mod p) (b mod p)); symmetry; [apply Z.leb_le|apply Z.leb_gt]; lia.
  - symmetry. apply Z.leb_gt. nia.
Qed.

Lemma parse_dec_fixed k a acc :
  0 <= a < 10 ^ Z.of_nat k →
  parse_digits acc (dec_fixed k a) = Some (acc * 10 ^ Z.of_nat k + a).
Proof.
  revert a acc. induction k as [|k IH]; intros a acc Ha.
  { change (10 ^ Z.of_nat 0) with 1 in *. simpl. f_equal. lia. }
  rewrite Nat2Z.inj_succ, Z.pow_succ_r in * by lia. cbn [dec_fixed parse_digits].
  set (p := 10 ^ Z.of_nat k) in *. assert (0 < p) by (apply Z.pow_pos_nonneg; lia).
  pose proof (Z.mod_pos_bound a p ltac:(lia)). pose proof (Z.div_mod a p ltac:(lia)).
  assert (0 <= a / p < 10) by (split; [apply Z.div_pos; lia|apply Z.div_lt_upper_bound; lia]).
  rewrite char_digit_char by done. simpl. rewrite IH by done. f_equal. lia.
Qed.

(** * Printing and parsing numbers *)

(** Strings of printable ASCII characters without spaces. *)
Fixpoint all_visible (s : string) : bool :=
  match s with
  | EmptyString => true
  | String c s => in_range 33 126 (byte_of c) && all_visible s
  end.

Lemma all_visible_app s t : all_visible (s +:+ t) = all_visible s && all_visible t.
Proof. induction s as [|c s IH]; simpl; [done|]. by rewrite IH, andb_assoc. Qed.

Lemma all_visible_srev s : all_visible (srev s) = all_visible s.
Proof.
  induction s as [|c s IH]; [done|]. unfold srev. simpl.
  rewrite srev_app_spec, all_visible_app, IH. simpl. by rewrite andb_true_r, andb_comm.
Qed.

Lemma all_visible_utf8 s : all_visible s = true → is_utf8 s.
Proof.
  unfold is_utf8. induction s as [|c s IH]; [done|]. cbn [all_visible as_bytes utf8_valid].
  unfold in_range. rewrite !andb_true_iff, !Z.leb_le. intros [Hc Hs].
  rewrite !(proj2 (Z.leb_le _ _)) by lia. by apply IH.
Qed.

Lemma all_visible_trim s : all_visible s = true → trim s = s.
Proof.
  assert (∀ t w2 w3, (∀ a b, w2 a b = true → 126 < Z.max (byte_of a) (byte_of b)) →
    (∀ a b c, w3 a b c = true → 126 < Z.max (byte_of a) (Z.max (byte_of b) (byte_of c))) →
    all_visible t = true → starts_ws w2 w3 t = false) as Hws.
  { intros t w2 w3 H2 H3. destruct t as [|a [|b [|c t]]]; cbn [all_visible starts_ws]; [done|..];
      unfold in_range, ws1; rewrite !andb_true_iff, !Z.leb_le; intros Hv;
      (apply orb_false_iff; split; [destruct (Z.leb_spec 9 (byte_of a)), (Z.leb_spec (byte_of a) 13),
        (Z.eqb_spec (byte_of a) 32); simpl; lia || done|]); try done;
      (apply orb_false_iff; split; [destruct (w2 a b) eqn:E; [apply H2 in E; lia|done]|]); try done.
    destruct (w3 a b c) eqn:E; [apply H3 in E; lia|done]. }
  intros Hv. unfold trim, trim_start, trim_end.
  assert (∀ a b, ws2 a b = true → 126 < Z.max (byte_of a) (byte_of b)) as H2.
  { intros a b. unfold ws2. rewrite !andb_true_iff, Z.eqb_eq. lia. }
  assert (∀ a b c, ws3 a b c = true → 126 < Z.max (byte_of a) (Z.max (byte_of b) (byte_of c))) as H3.
  { intros a b c. unfold ws3. rewrite !orb_true_iff, !andb_true_iff, !Z.eqb_eq. lia. }
  rewrite (trim_with_fixed ws2 ws3 s) by (by apply Hws).
  rewrite trim_with_fixed, srev_srev; [done|]. apply Hws; [| |by rewrite all_visible_srev].
  - intros a b E%H2. lia.
  - intros a b c E%H3. lia.
Qed.

Lemma digit_visible d : 0 <= d < 10 → in_range 33 126 (byte_of (digit_char d)) = true.
Proof. intros Hd. rewrite digit_char_byte by done. unfold in_range. by rewrite !(proj2 (Z.leb_le _ _)) by lia. Qed.

Lemma parse_digits_app acc s t :
  parse_digits acc (s +:+ t) = acc ← parse_digits acc s; parse_digits acc t.
Proof.
  revert acc. induction s as [|c s IH]; intros acc; [done|]. simpl.
  destruct (char_digit c); simpl; [apply IH|done].
Qed.

Lemma print_nat_spec fuel n :
  0 <= n < 10 ^ Z.of_nat fuel → (0 < fuel)%nat →
  parse_digits 0 (print_nat fuel n) = Some n ∧ print_nat fuel n ≠ "" ∧
  all_visible (print_nat fuel n) = true ∧
  ∃ d s, 0 <= d < 10 ∧ print_nat fuel n = String (digit_char d) s.
Proof.
  revert n. induction fuel as [|fuel IH]; intros n Hn Hf; [lia|]. cbn [print_nat].
  destruct (Z.ltb_spec n 10) as [Hlt|Hge].
  - cbn [parse_digits all_visible]. rewrite char_digit_char, digit_visible by lia.
    split_and!; [done..|]. exists n, "". by split; [lia|].
  - rewrite Nat2Z.inj_succ, Z.pow_succ_r in Hn by lia.
    pose proof (Z.mod_pos_bound n 10 ltac:(lia)). pose proof (Z.div_mod n 10 ltac:(lia)).
    assert (fuel ≠ 0%nat) by (intros ->; change (10 ^ Z.of_nat 0) with 1 in Hn; lia).
    destruct (IH (n / 10)) as (Hp & Hne & Hv & d & s & Hd & Hs); [lia|lia|].
    rewrite parse_digits_app, Hp, all_visible_app, Hv. simpl.
    rewrite char_digit_char, digit_visible by lia. simpl. split_and!; [f_equal; lia| |done|].
    + by rewrite Hs.
    + exists d. rewrite Hs. by eexists.
Qed.

Lemma digit_not_sign d c : 0 <= d < 10 → byte_of c < 48 → digit_char d ≠ c.
Proof. intros Hd Hc <-. rewrite digit_char_byte in Hc by done. lia. Qed.

Lemma print_i64_visible n : is_i64 n → all_visible (print_i64 n) = true.
Proof.
  unfold is_i64, I64_MIN, I64_MAX, print_i64. intros Hn. destruct (Z.ltb_spec n 0).
  - cbn [String.append all_visible]. by destruct (print_nat_spec 20 (- n)) as (_ & _ & -> & _); [lia..|].
  - by destruct (print_nat_spec 20 n) as (_ & _ & -> & _); [lia..|].
Qed.

(** A printed number parses back. *)
Lemma parse_print_i64 n : is_i64 n → parse_i64_str (print_i64 n) = Some n.
Proof.
  intros Hn. assert (I64_MIN <= n <= I64_MAX) as Hr by exact Hn. unfold I64_MIN, I64_MAX in Hr.
  unfold print_i64. destruct (Z.ltb_spec n 0).
  - destruct (print_nat_spec 20 (- n)) as (Hp & Hne & _ & _); [lia..|].
    unfold parse_i64_str. cbn [String.append]. unfold parse_magnitude, is_empty.
    rewrite bool_decide_false, Hp by done. cbn [fmap option_fmap option_map mbind option_bind].
    rewrite Z.opp_involutive. by rewrite decide_True.
  - destruct (print_nat_spec 20 n) as (Hp & Hne & _ & d & s & Hd & Hs); [lia..|].
    assert (parse_magnitude (print_nat 20 n) = Some n) as Hm.
    { unfold parse_magnitude, is_empty. by rewrite bool_decide_false. }
    unfold parse_i64_str. rewrite Hs in *.
    pose proof (digit_not_sign d "-" Hd ltac:(done)). pose proof (digit_not_sign d "+" Hd ltac:(done)).
    assert ((match String (digit_char d) s with
      | String "-" s => Z.opp <$> parse_magnitude s
      | String "+" s => parse_magnitude s
      | _ => parse_magnitude (String (digit_char d) s)
      end) = Some n) as ->; [|cbn [mbind option_bind]; by rewrite decide_True].
    destruct (digit_char d) as [[] [] [] [] [] [] [] []]; done.
Qed.
