(* ===== verification/Topic.v ===== *)
(** MQTT 3.1.1 topic filters: src/src/topic.rs.

    [filter_matches] and the two validators are translated with the source's
    loops as recursions over the remaining levels; [level_match] is the
    matching relation of the MQTT standard, which the loop is proved to decide.
    The client components use the section on exact filters: a filter without
    wildcards matches its own text and nothing else. *)

From S2P Require Import Prelude RustStr.

Module Topic.

Definition slash : ascii := "/"%char.
Definition plus : ascii := "+"%char.
Definition hash : ascii := "#"%char.
Definition dollar : ascii := "$"%char.
Definition nul : ascii := "000"%char.

(** [wildcard_at_root]. *)
Definition wildcard_at_root (filter : string) : bool :=
  bool_decide (filter = "#") || bool_decide (filter = "+")
  || starts_with "+/" filter || starts_with "#" filter.

(** The [while] loop of [filter_matches]: [filters] and [topics] are the levels
    from [fi] and [ti] on, so [fi + 1 == filters.len()] is an empty tail. *)
Fixpoint match_levels (filters topics : list string) : bool :=
  match filters with
  | [] => bool_decide (topics = [])
  | f :: fs =>
      if decide (f = "#") then bool_decide (fs = [])
      else match topics with
           | [] => false
           | t :: ts =>
               if bool_decide (f ≠ "+") && bool_decide (f ≠ t) then false
               else match_levels fs ts
           end
  end.

(** [filter_matches]. *)
Definition filter_matches (filter topic : string) : bool :=
  if is_empty filter || is_empty topic then false
  else if starts_with "$" topic && wildcard_at_root filter then false
  else match_levels (split slash filter) (split slash topic).

(** [is_valid_publish_topic]. *)
Definition is_valid_publish_topic (topic : string) : bool :=
  negb (is_empty topic) && negb (contains nul topic)
  && negb (contains plus topic) && negb (contains hash topic).

(** The [for] loop of [is_valid_subscribe_filter] over the remaining parts. *)
Fixpoint valid_parts (parts : list string) : bool :=
  match parts with
  | [] => true
  | part :: rest =>
      if decide (part = "#") then bool_decide (rest = [])
      else if decide (part = "+") then valid_parts rest
      else if contains hash part || contains plus part then false
      else valid_parts rest
  end.

(** [is_valid_subscribe_filter]. *)
Definition is_valid_subscribe_filter (filter : string) : bool :=
  if is_empty filter || contains nul filter then false
  else valid_parts (split slash filter).

(** [is_wildcard_filter]. *)
Definition is_wildcard_filter (filter : string) : bool :=
  contains plus filter || contains hash filter.

(** [multi_level_prefix]. *)
Definition multi_level_prefix (filter : string) : option string :=
  if decide (filter = "#") then Some ""
  else prefix ← strip_suffix "/#" filter;
       if negb (is_empty prefix) && negb (is_wildcard_filter prefix)
          && is_valid_subscribe_filter filter
       then Some prefix else None.

(** * The matching relation of the standard *)

(** [level_match fs ts]: the topic levels [ts] match the filter levels [fs].
    [#] takes any number of levels, none included, and only as the last level;
    [+] takes exactly one; any other level takes itself. *)
Inductive level_match : list string → list string → Prop :=
  | lm_end : level_match [] []
  | lm_hash ts : level_match ["#"] ts
  | lm_plus fs t ts : level_match fs ts → level_match ("+" :: fs) (t :: ts)
  | lm_literal f fs ts :
      f ≠ "#" → f ≠ "+" → level_match fs ts → level_match (f :: fs) (f :: ts).

(** Topics whose first level starts with [$] are hidden from filters whose
    first level is a wildcard. *)
Definition hidden (filter topic : string) : Prop :=
  (∃ r, topic = "$" +:+ r) ∧
  (filter = "+" ∨ (∃ r, filter = "+/" +:+ r) ∨ (∃ r, filter = "#" +:+ r)).

Lemma match_levels_spec fs ts : match_levels fs ts = true ↔ level_match fs ts.
Proof.
  revert ts; induction fs as [|f fs IH]; intros ts; simpl.
  - rewrite bool_decide_eq_true. split; [by intros ->; constructor|by inversion 1].
  - case_decide as Hf.
    + rewrite bool_decide_eq_true. subst. split; [by intros ->; constructor|].
      by inversion 1.
    + destruct ts as [|t ts]; [split; [done|by inversion 1]|].
      case_match eqn:Hc; [|rewrite IH].
      * apply andb_prop in Hc as [?%bool_decide_eq_true ?%bool_decide_eq_true].
        split; [done|]. by inversion 1.
      * split.
        -- intros Hm. apply andb_false_iff in Hc as [Hc|Hc];
             apply bool_decide_eq_false, dec_stable in Hc; subst.
           ++ by constructor.
           ++ destruct (decide (t = "+")) as [->|]; by constructor.
        -- inversion 1; subst; done.
Qed.

Lemma wildcard_at_root_spec filter :
  wildcard_at_root filter = true ↔
  filter = "+" ∨ (∃ r, filter = "+/" +:+ r) ∨ (∃ r, filter = "#" +:+ r).
Proof.
  unfold wildcard_at_root. rewrite !orb_true_iff, !bool_decide_eq_true, !starts_with_true.
  split; [|tauto]. intros [[[->|?]|?]|?]; eauto.
Qed.

Lemma filter_matches_true filter topic :
  filter_matches filter topic = true ↔
  filter ≠ "" ∧ topic ≠ "" ∧ ¬ hidden filter topic ∧
  level_match (split slash filter) (split slash topic).
Proof.
  unfold filter_matches, is_empty, hidden.
  rewrite <-wildcard_at_root_spec, <-(starts_with_true "$" topic).
  rewrite <-match_levels_spec.
  case_match eqn:He.
  { apply orb_true_iff in He as [?%bool_decide_eq_true|?%bool_decide_eq_true]; naive_solver. }
  apply orb_false_iff in He as [?%bool_decide_eq_false ?%bool_decide_eq_false].
  case_match eqn:Hd.
  { apply andb_prop in Hd. naive_solver. }
  apply andb_false_iff in Hd. destruct Hd as [-> | ->]; naive_solver.
Qed.

(** * Filters without wildcards are exact *)

Lemma match_levels_literal fs ts :
  "#" ∉ fs → "+" ∉ fs → match_levels fs ts = bool_decide (fs = ts).
Proof.
  revert ts; induction fs as [|f fs IH]; intros ts Hh Hp; simpl.
  { apply bool_decide_ext. split; congruence. }
  rewrite decide_False by set_solver. destruct ts as [|t ts].
  { by rewrite bool_decide_false. }
  rewrite bool_decide_true by set_solver. simpl.
  destruct (decide (f = t)) as [->|Hne].
  - rewrite bool_decide_false by naive_solver. rewrite IH by set_solver.
    apply bool_decide_ext. split; congruence.
  - rewrite bool_decide_true by done. rewrite bool_decide_false by congruence. done.
Qed.

Lemma contains_plus_level f : is_wildcard_filter f = false →
  "+" ∉ split slash f ∧ "#" ∉ split slash f.
Proof.
  intros [Hp Hh]%orb_false_iff.
  split; intros Hin; [pose proof (split_contains _ plus _ _ Hin Hp)
                     |pose proof (split_contains _ hash _ _ Hin Hh)]; done.
Qed.

Lemma starts_with_contains c r s p :
  starts_with (String c p) s = true → r = c → contains r s = true.
Proof.
  intros [q ->]%starts_with_true ->. simpl. by rewrite bool_decide_true.
Qed.

Lemma not_wildcard_root f : is_wildcard_filter f = false → wildcard_at_root f = false.
Proof.
  intros [Hp Hh]%orb_false_iff. apply not_true_is_false.
  intros [->|[[r ->]|[r ->]]]%wildcard_at_root_spec; done.
Qed.

(** A filter without [+] and [#] selects exactly the topic it spells. *)
Lemma filter_matches_exact f t :
  is_wildcard_filter f = false →
  filter_matches f t = bool_decide (f = t ∧ f ≠ "").
Proof.
  intros Hw. unfold filter_matches, is_empty.
  rewrite (not_wildcard_root f Hw), andb_false_r.
  destruct (contains_plus_level f Hw) as [Hp Hh].
  destruct (decide (f = "")) as [->|Hf].
  { rewrite (bool_decide_true ("" = "")) by done. simpl.
    symmetry. apply bool_decide_eq_false. naive_solver. }
  rewrite (bool_decide_false (f = "")) by done. simpl.
  destruct (decide (t = "")) as [->|Ht].
  { rewrite (bool_decide_true ("" = "")) by done.
    symmetry. apply bool_decide_eq_false. naive_solver. }
  rewrite bool_decide_false, match_levels_literal by done.
  apply bool_decide_ext. split; [|naive_solver].
  intros Heq. split; [by apply (split_inj slash)|done].
Qed.

Lemma publish_topic_not_wildcard t :
  is_valid_publish_topic t = true → is_wildcard_filter t = false ∧ t ≠ "".
Proof.
  unfold is_valid_publish_topic, is_wildcard_filter, is_empty.
  rewrite !andb_true_iff, !negb_true_iff, bool_decide_eq_false, orb_false_iff. tauto.
Qed.

(** * Valid subscription filters *)

(** The standard's rule: every level is [+], or the last level and [#], or
    contains neither character. *)
Inductive valid_levels : list string → Prop :=
  | vl_nil : valid_levels []
  | vl_hash : valid_levels ["#"]
  | vl_plus ps : valid_levels ps → valid_levels ("+" :: ps)
  | vl_plain p ps :
      contains hash p = false → contains plus p = false →
      valid_levels ps → valid_levels (p :: ps).

Lemma valid_parts_spec ps : valid_parts ps = true ↔ valid_levels ps.
Proof.
  induction ps as [|p ps IH]; simpl.
  - split; [constructor|done].
  - case_decide as Hh; [|case_decide as Hp]; subst.
    + rewrite bool_decide_eq_true. split; [intros ->; constructor|].
      inversion 1; subst; done.
    + rewrite IH. split; [by constructor|]. inversion 1; subst; done.
    + destruct (contains hash p) eqn:Eh; simpl.
      { split; [done|]. inversion 1; subst; congruence. }
      destruct (contains plus p) eqn:Ep; simpl.
      { split; [done|]. inversion 1; subst; congruence. }
      rewrite IH. split; [by constructor|]. inversion 1; subst; done.
Qed.

Lemma valid_levels_app_hash ps :
  Forall (λ p, contains hash p = false ∧ contains plus p = false) ps →
  valid_levels (ps ++ ["#"]).
Proof. induction 1; simpl; [constructor|]. apply vl_plain; naive_solver. Qed.

(** * Multi-level filters are prefix tests *)

Lemma level_match_prefix ps ts :
  "#" ∉ ps → "+" ∉ ps → level_match (ps ++ ["#"]) ts ↔ ∃ rs, ts = ps ++ rs.
Proof.
  revert ts; induction ps as [|p ps IH]; intros ts Hh Hp; simpl.
  - split; [eauto|]. intros _. constructor.
  - split.
    + inversion 1; subst; [by destruct ps|set_solver|].
      match goal with H : level_match (ps ++ _) _ |- _ =>
        apply IH in H as [rs ->]; [by exists rs|set_solver..] end.
    + intros [rs ->]. apply lm_literal; [set_solver..|]. apply IH; [set_solver..|eauto].
Qed.

Lemma split_slash_hash p : split slash (p +:+ "/#") = split slash p ++ ["#"].
Proof.
  induction p as [|a p IH]; simpl; [done|].
  rewrite IH. case_decide; [done|].
  pose proof (split_not_nil slash p). by destruct (split slash p).
Qed.

Lemma split_app_slash p r : split slash (p +:+ String slash r) = split slash p ++ split slash r.
Proof.
  induction p as [|a p IH]; simpl; [done|].
  rewrite IH. case_decide; [done|].
  pose proof (split_not_nil slash p). by destruct (split slash p).
Qed.

(** The levels of [p] are a prefix of the levels of [t] exactly when [t] is [p]
    or continues it after a slash. *)
Lemma split_prefix p t :
  (∃ rs, split slash t = split slash p ++ rs) ↔ t = p ∨ ∃ r, t = p +:+ String slash r.
Proof.
  split.
  - intros [rs Hrs]. destruct rs as [|r rs].
    { left. rewrite app_nil_r in Hrs. by apply (split_inj slash). }
    right. exists (join slash (r :: rs)).
    apply (split_inj slash). rewrite Hrs, split_app_slash. f_equal. symmetry.
    apply split_join; [done|]. apply Forall_forall. intros x Hx.
    apply (split_no_sep slash t). rewrite Hrs. set_solver.
  - intros [->|[r ->]]; [exists []; by rewrite app_nil_r|].
    eexists. apply split_app_slash.
Qed.

Lemma multi_level_prefix_Some f p :
  multi_level_prefix f = Some p →
  (f = "#" ∧ p = "") ∨
  (f = p +:+ "/#" ∧ p ≠ "" ∧ is_wildcard_filter p = false).
Proof.
  unfold multi_level_prefix. case_decide as Hf; [naive_solver|].
  intros (q & Hq%strip_suffix_Some & H)%bind_Some. right.
  case_match eqn:Hc; [|done]. injection H as <-.
  rewrite !andb_true_iff, !negb_true_iff in Hc. unfold is_empty in Hc.
  rewrite bool_decide_eq_false in Hc. naive_solver.
Qed.

Lemma not_hidden_prefix p s t :
  p ≠ "" → is_wildcard_filter p = false → ¬ hidden (p +:+ s) t.
Proof.
  intros Hp [Hpl Hha]%orb_false_iff [_ Hroot]. destruct p as [|a p]; [done|].
  simpl in *. apply orb_false_iff in Hpl as [Hpl%bool_decide_eq_false _].
  apply orb_false_iff in Hha as [Hha%bool_decide_eq_false _].
  destruct Hroot as [H|[[r H]|[r H]]]; simpl in H; by injection H.
Qed.

(** * Properties *)

(** C33: [filter_matches] decides the MQTT 3.1.1 matching relation: for
    non-empty strings, it holds exactly when the topic's levels match the
    filter's levels and the topic is not a [$]-topic hidden from a filter that
    starts with a wildcard.  The loop returns a verdict for every input. *)
Theorem filter_matches_correct filter topic :
  (filter_matches filter topic = true ↔
   filter ≠ "" ∧ topic ≠ "" ∧ ¬ hidden filter topic ∧
   level_match (split slash filter) (split slash topic)).
Proof. apply filter_matches_true. Qed.

(** A topic that the broker accepts for publishing is an exact filter: used
    as a filter it matches itself and no other topic, so a subscription without
    wildcards receives exactly the topic it names. *)
Theorem publish_topic_exact t t' :
  is_valid_publish_topic t = true → (filter_matches t t' = true ↔ t = t').
Proof.
  intros [Hw Hne]%publish_topic_not_wildcard.
  rewrite filter_matches_exact, bool_decide_eq_true by done. naive_solver.
Qed.

Lemma publish_topic_exact_witness :
  filter_matches "sensor/temp" "sensor/temp" = true ↔ "sensor/temp" = "sensor/temp".
Proof. apply publish_topic_exact. reflexivity. Defined.

(** A trailing-[#] filter is a prefix test.  When [multi_level_prefix] gives
    the prefix [p], the filter matches a topic exactly when [p] is empty and the
    topic is not a [$]-topic, or the topic is [p] itself or continues [p] after
    a slash. *)
Theorem multi_level_prefix_matches f p t :
  multi_level_prefix f = Some p →
  (filter_matches f t = true ↔
   t ≠ "" ∧ ((p = "" ∧ ¬ ∃ r, t = "$" +:+ r) ∨
             (p ≠ "" ∧ (t = p ∨ ∃ r, t = p +:+ String slash r)))).
Proof.
  intros [[-> ->]|(-> & Hp & Hw)]%multi_level_prefix_Some; rewrite filter_matches_true.
  - assert (hidden "#" t ↔ ∃ r, t = "$" +:+ r) as ->.
    { unfold hidden. split; [naive_solver|]. intros ?. split; [done|]. right. right. by exists "". }
    split; [naive_solver|]. intros (? & [[_ ?]|[? _]]); [|done].
    repeat split; [done..|]. constructor.
  - destruct (contains_plus_level p Hw). rewrite split_slash_hash, level_match_prefix by done.
    rewrite split_prefix. pose proof (not_hidden_prefix p "/#" t Hp Hw).
    split; [naive_solver|]. intros (? & [[? _]|[_ ?]]); [done|].
    repeat split; [by destruct p|done..].
Qed.

Lemma multi_level_prefix_matches_witness :
  filter_matches "a/b/#" "a/b" = true ↔
  "a/b" ≠ "" ∧ (("a/b" = "" ∧ ¬ ∃ r, "a/b" = "$" +:+ r) ∨
    ("a/b" ≠ "" ∧ ("a/b" = "a/b" ∨ ∃ r, "a/b" = "a/b" +:+ String slash r))).
Proof. apply multi_level_prefix_matches. reflexivity. Defined.

(** [is_valid_subscribe_filter] accepts exactly the non-empty, NUL-free
    filters whose levels follow the standard: [#] only alone and last, [+] only
    alone; and a valid filter without wildcards is a valid publish topic. *)
Theorem valid_subscribe_filter_correct f :
  (is_valid_subscribe_filter f = true ↔
   f ≠ "" ∧ contains nul f = false ∧ valid_levels (split slash f)) ∧
  is_valid_publish_topic f =
    is_valid_subscribe_filter f && negb (is_wildcard_filter f).
Proof.
  unfold is_valid_subscribe_filter, is_valid_publish_topic, is_wildcard_filter, is_empty.
  split.
  - case_match eqn:He.
    + apply orb_true_iff in He as [?%bool_decide_eq_true|?]; [naive_solver|].
      split; [done|]. intros (_ & ? & _). congruence.
    + apply orb_false_iff in He as [?%bool_decide_eq_false ?].
      rewrite valid_parts_spec. naive_solver.
  - destruct (bool_decide (f = "")), (contains nul f); simpl; [done..|].
    destruct (contains plus f) eqn:Hp, (contains hash f) eqn:Hh; simpl;
      rewrite ?andb_false_r, ?andb_true_r; [done..|]. symmetry. apply valid_parts_spec.
    assert (∀ q, q ∈ split slash f → contains plus q = false ∧ contains hash q = false) as Hq
      by eauto using split_contains.
    induction (split slash f) as [|q qs IH]; [constructor|].
    destruct (Hq q) as [? ?]; [set_solver|]. apply vl_plain; [done..|]. apply IH. set_solver.
Qed.

End Topic.
