(* ===== verification/Model.v ===== *)
(** The domain model: src/src/model.rs.

    Delivery and persistence modes with their textual forms, topic
    configurations, claimed messages and the downstream JSON body with its
    base64 fallback (also src/src/status.rs, [encode_base64]). *)

From S2P Require Import Prelude RustStr.

Module Model.

(** [serde_json::Value]; a number keeps its text. *)
Inductive Json : Type :=
  | JNull
  | JBool (b : bool)
  | JNumber (text : string)
  | JString (s : string)
  | JArray (items : list Json)
  | JObject (fields : list (string * Json)).

(** [ClaimedMessage]. *)
Record ClaimedMessage := {
  cm_id : string;
  cm_topic : string;
  cm_payload : list Z;
  cm_attributes : Json;
  cm_created_at : string;
  cm_lease : string;
  cm_attempts : Z
}.

(** [DeliveryMode]. *)
Inductive DeliveryMode := Single | Broadcast.
(** [PersistenceMode]. *)
Inductive PersistenceMode := Persistent | Ephemeral.

#[export] Instance DeliveryMode_eq_dec : EqDecision DeliveryMode.
Proof. solve_decision. Defined.
#[export] Instance PersistenceMode_eq_dec : EqDecision PersistenceMode.
Proof. solve_decision. Defined.

(** [DeliveryMode::as_str]. *)
Definition delivery_as_str (m : DeliveryMode) : string :=
  match m with Single => "single" | Broadcast => "broadcast" end.

(** [DeliveryMode::parse]. *)
Definition delivery_parse (value : string) : option DeliveryMode :=
  let v := to_ascii_lowercase (trim value) in
  if decide (v ∈ ["single"; "queue"; "competing"]) then Some Single
  else if decide (v ∈ ["broadcast"; "fanout"; "pubsub"]) then Some Broadcast
  else None.

(** [DeliveryMode::from_stored]. *)
Definition delivery_from_stored (value : string) : DeliveryMode :=
  default Broadcast (delivery_parse value).

(** [PersistenceMode::as_str]. *)
Definition persistence_as_str (m : PersistenceMode) : string :=
  match m with Persistent => "persistent" | Ephemeral => "ephemeral" end.

(** [PersistenceMode::parse]. *)
Definition persistence_parse (value : string) : option PersistenceMode :=
  let v := to_ascii_lowercase (trim value) in
  if decide (v ∈ [""; "persistent"; "durable"; "store"]) then Some Persistent
  else if decide (v ∈ ["ephemeral"; "transient"; "none"; "drop"]) then Some Ephemeral
  else None.

(** [PersistenceMode::from_stored]. *)
Definition persistence_from_stored (value : string) : PersistenceMode :=
  let trimmed := trim value in
  if is_empty trimmed then Ephemeral
  else default Ephemeral (persistence_parse trimmed).

(** [TopicConfig]. *)
Record TopicConfig := {
  tc_topic : string;
  tc_delivery : DeliveryMode;
  tc_persistence : PersistenceMode
}.

(** [TopicConfig::implicit]. *)
Definition implicit (topic : string) : TopicConfig :=
  {| tc_topic := topic; tc_delivery := Broadcast; tc_persistence := Ephemeral |}.

(** * Base64 *)

Definition TABLE : string :=
  "ABCDEFGHIJKLMNOPQRSTUVWXYZabcdefghijklmnopqrstuvwxyz0123456789+/".

(** [TABLE[i] as char]; the index is always below 64. *)
Definition table_at (i : Z) : ascii :=
  default "="%char (String.get (Z.to_nat i) TABLE).

(** [<[u8]>::chunks(3)]. *)
Fixpoint chunks3 (l : list Z) : list (list Z) :=
  match l with
  | a :: b :: c :: r => [a; b; c] :: chunks3 r
  | [] => []
  | l => [l]
  end.

(** The body of the loop of [base64_encode] on one chunk. *)
Definition encode_chunk (chunk : list Z) : string :=
  let n := Z.lor (Z.lor (Z.shiftl (default 0 (chunk !! 0%nat)) 16)
                        (Z.shiftl (default 0 (chunk !! 1%nat)) 8))
                 (default 0 (chunk !! 2%nat)) in
  String (table_at (Z.land (Z.shiftr n 18) 63))
  (String (table_at (Z.land (Z.shiftr n 12) 63))
  (String (if (1 <? length chunk)%nat then table_at (Z.land (Z.shiftr n 6) 63) else "="%char)
  (String (if (2 <? length chunk)%nat then table_at (Z.land n 63) else "="%char) ""))).

(** [base64_encode]. *)
Definition base64_encode (bytes : list Z) : string :=
  foldr (λ chunk out, encode_chunk chunk +:+ out) "" (chunks3 bytes).

(** [DownstreamMessage]. *)
Record DownstreamMessage := {
  dm_id : string;
  dm_topic : string;
  dm_payload : string;
  dm_payload_encoding : string;
  dm_attributes : Json;
  dm_created_at : string
}.

(** [ClaimedMessage::to_downstream]. *)
Definition to_downstream (m : ClaimedMessage) : DownstreamMessage :=
  let '(payload, encoding) :=
    match from_utf8 (cm_payload m) with
    | Some text => (text, "utf-8")
    | None => (base64_encode (cm_payload m), "base64")
    end in
  {| dm_id := cm_id m; dm_topic := cm_topic m; dm_payload := payload;
     dm_payload_encoding := encoding; dm_attributes := cm_attributes m;
     dm_created_at := cm_created_at m |}.

(** * A reference decoder (RFC 4648, section 4) *)

Fixpoint index_of (c : ascii) (s : string) : option Z :=
  match s with
  | EmptyString => None
  | String a s => if decide (a = c) then Some 0 else Z.succ <$> index_of c s
  end.

Definition sextet (c : ascii) : option Z := index_of c TABLE.

(** One group of four characters; [=] pads a group of one or two bytes. *)
Definition decode_group (a b c d : ascii) : option (list Z) :=
  x ← sextet a; y ← sextet b;
  if decide (c = "="%char) then Some [x * 4 + y / 16]
  else z ← sextet c;
       if decide (d = "="%char) then Some [x * 4 + y / 16; (y mod 16) * 16 + z / 4]
       else w ← sextet d;
            Some [x * 4 + y / 16; (y mod 16) * 16 + z / 4; (z mod 4) * 64 + w].

Fixpoint base64_decode (s : string) : option (list Z) :=
  match s with
  | EmptyString => Some []
  | String a (String b (String c (String d s))) =>
      group ← decode_group a b c d; rest ← base64_decode s; Some (group ++ rest)
  | _ => None
  end.

(** * Lemmas *)

Lemma delivery_stored m : delivery_from_stored (delivery_as_str m) = m.
Proof. by destruct m; vm_compute. Qed.

Lemma persistence_stored m : persistence_from_stored (persistence_as_str m) = m.
Proof. by destruct m; vm_compute. Qed.

Lemma sextet_table i : 0 <= i < 64 → sextet (table_at i) = Some i ∧ table_at i ≠ "="%char.
Proof.
  intros Hi. apply (below_decide 64 (λ i, sextet (table_at i) = Some i ∧
    table_at i ≠ "="%char)); [by vm_compute|lia].
Qed.

Lemma pack3 a b c :
  is_u8 a → is_u8 b → is_u8 c →
  Z.lor (Z.lor (Z.shiftl a 16) (Z.shiftl b 8)) c = (a * 256 + b) * 256 + c.
Proof.
  unfold is_u8, U8_MAX. intros Ha Hb Hc. rewrite !Z.shiftl_mul_pow2 by lia.
  assert (Z.lor (a * 2 ^ 16) (b * 2 ^ 8) = (a * 256 + b) * 2 ^ 8) as ->.
  { replace (b * 2 ^ 8) with (b * 256) by lia. rewrite lor_low by lia. lia. }
  rewrite lor_low by lia. lia.
Qed.

Lemma sextet_of n k : 0 <= k →
  0 <= Z.land (Z.shiftr n k) 63 < 64 ∧ Z.land (Z.shiftr n k) 63 = (n / 2 ^ k) mod 64.
Proof.
  intros Hk. change 63 with (Z.ones 6).
  rewrite land_low, Z.shiftr_div_pow2 by lia.
  change (2 ^ 6) with 64. split; [|done]. apply Z.mod_pos_bound. lia.
Qed.

(** The four sextets of a 24-bit group determine its bytes. *)
Lemma chunk_sextets a b c :
  is_u8 a → is_u8 b → is_u8 c →
  let n := (a * 256 + b) * 256 + c in
  let x := (n / 2 ^ 18) mod 64 in let y := (n / 2 ^ 12) mod 64 in
  let z := (n / 2 ^ 6) mod 64 in let w := (n / 2 ^ 0) mod 64 in
  x * 4 + y / 16 = a ∧ (y mod 16) * 16 + z / 4 = b ∧ (z mod 4) * 64 + w = c.
Proof.
  unfold is_u8, U8_MAX. intros Ha Hb Hc. simpl.
  change (2 ^ 18) with 262144; change (2 ^ 12) with 4096; change (2 ^ 6) with 64;
    change (2 ^ 0) with 1.
  Z.to_euclidean_division_equations. lia.
Qed.

Lemma is_u8_0 : is_u8 0.
Proof. unfold is_u8, U8_MAX. lia. Qed.

(** Decoding one encoded chunk gives its bytes back. *)
Lemma decode_encode_chunk chunk s :
  Forall is_u8 chunk → (1 <= length chunk <= 3)%nat →
  base64_decode (encode_chunk chunk +:+ s) = (λ r, chunk ++ r) <$> base64_decode s.
Proof.
  intros Hu Hlen. unfold encode_chunk.
  set (n := Z.lor _ _).
  destruct (sextet_of n 18 ltac:(lia)) as [R0 E0], (sextet_of n 12 ltac:(lia)) as [R1 E1],
    (sextet_of n 6 ltac:(lia)) as [R2 E2], (sextet_of n 0 ltac:(lia)) as [R3 E3].
  rewrite Z.shiftr_0_r in R3, E3.
  apply sextet_table in R0 as [T0 _], R1 as [T1 _], R2 as [T2 N2], R3 as [T3 N3].
  cbn [String.append base64_decode]. unfold decode_group. rewrite T0, T1.
  destruct chunk as [|a [|b [|c [|]]]]; simpl in Hlen; try lia;
    repeat match goal with H : Forall _ (_ :: _) |- _ => apply Forall_cons in H as [? ?] end;
    cbn [length Nat.ltb Nat.leb lookup list_lookup default mbind option_bind].
  - assert (n = (a * 256 + 0) * 256 + 0) as Hn by (apply pack3; auto using is_u8_0).
    rewrite decide_True by done. destruct (chunk_sextets a 0 0) as (Ha & _ & _); auto using is_u8_0.
    rewrite <-Hn, <-E0, <-E1 in Ha. rewrite Ha. by destruct (base64_decode s).
  - assert (n = (a * 256 + b) * 256 + 0) as Hn by (apply pack3; auto using is_u8_0).
    rewrite decide_False, T2 by done. cbn [mbind option_bind]. rewrite decide_True by done.
    destruct (chunk_sextets a b 0) as (Ha & Hb & _); auto using is_u8_0.
    rewrite <-Hn, <-E0, <-E1 in Ha. rewrite <-Hn, <-E1, <-E2 in Hb.
    rewrite Ha, Hb. by destruct (base64_decode s).
  - assert (n = (a * 256 + b) * 256 + c) as Hn by (apply pack3; auto using is_u8_0).
    rewrite decide_False, T2 by done. cbn [mbind option_bind].
    rewrite decide_False, T3 by done. cbn [mbind option_bind].
    destruct (chunk_sextets a b c) as (Ha & Hb & Hc); auto using is_u8_0.
    rewrite <-Hn, <-E0, <-E1 in Ha. rewrite <-Hn, <-E1, <-E2 in Hb.
    rewrite <-Hn, <-E2, <-E3 in Hc.
    rewrite Ha, Hb, Hc. by destruct (base64_decode s).
Qed.

(** Induction three bytes at a time. *)
Lemma chunks3_ind (P : list Z → Prop) :
  P [] → (∀ a, P [a]) → (∀ a b, P [a; b]) →
  (∀ a b c l, P l → P (a :: b :: c :: l)) → ∀ l, P l.
Proof.
  intros H0 H1 H2 H3. fix IH 1. intros [|a [|b [|c l]]]; [apply H0|apply H1|apply H2|]. apply H3, IH.
Qed.

Lemma base64_decode_encode bytes :
  Forall is_u8 bytes → base64_decode (base64_encode bytes) = Some bytes.
Proof.
  induction bytes as [|a|a b|a b c l IH] using chunks3_ind; intros Hu; [done|..];
    unfold base64_encode; cbn [chunks3 foldr].
  - rewrite decode_encode_chunk; [done|done|simpl; lia].
  - rewrite decode_encode_chunk; [done|done|simpl; lia].
  - fold (base64_encode l).
    apply Forall_cons in Hu as [Ha [Hb [Hc Hl]%Forall_cons]%Forall_cons].
    rewrite decode_encode_chunk; [|by rewrite !Forall_cons, Forall_nil|simpl; lia].
    by rewrite IH.
Qed.

Lemma base64_encode_length bytes :
  len (base64_encode bytes) = 4 * ((Z.of_nat (length bytes) + 2) / 3).
Proof.
  induction bytes as [|a|a b|a b c l IH] using chunks3_ind; [done..|].
  unfold base64_encode in *. cbn [chunks3 foldr length].
  unfold len in *. unfold encode_chunk at 1. cbn [String.append String.length].
  rewrite !Nat2Z.inj_succ, IH.
  replace (Z.succ (Z.succ (Z.succ (Z.of_nat (length l)))) + 2)
    with (1 * 3 + (Z.of_nat (length l) + 2)) by lia.
  rewrite Z.div_add_l by lia. lia.
Qed.

(** * Properties *)

(** [base64_encode] is standard base64: the RFC 4648 decoder gives the bytes
    back, and the output has four characters per started group of three. *)
Theorem base64_roundtrip bytes :
  Forall is_u8 bytes →
  base64_decode (base64_encode bytes) = Some bytes ∧
  len (base64_encode bytes) = 4 * ((Z.of_nat (length bytes) + 2) / 3).
Proof. intros H. split; [by apply base64_decode_encode|apply base64_encode_length]. Qed.

Lemma base64_roundtrip_witness :
  base64_decode (base64_encode [255; 0; 254; 17]) = Some [255; 0; 254; 17] ∧
  len (base64_encode [255; 0; 254; 17]) = 4 * ((Z.of_nat (length [255; 0; 254; 17]) + 2) / 3).
Proof.
  apply base64_roundtrip. repeat constructor; unfold is_u8, U8_MAX; lia.
Defined.

(** The bytes a receiver of a downstream message reconstructs. *)
Definition downstream_bytes (d : DownstreamMessage) : option (list Z) :=
  if decide (dm_payload_encoding d = "utf-8") then Some (as_bytes (dm_payload d))
  else base64_decode (dm_payload d).

(** [to_downstream] loses nothing: the receiver recovers the payload's bytes
    from the text and its declared encoding, and the text encoding is used
    exactly for payloads that are valid UTF-8. *)
Theorem to_downstream_lossless m :
  Forall is_u8 (cm_payload m) →
  downstream_bytes (to_downstream m) = Some (cm_payload m) ∧
  (dm_payload_encoding (to_downstream m) = "utf-8" ↔ utf8_valid (cm_payload m) = true) ∧
  dm_id (to_downstream m) = cm_id m ∧ dm_topic (to_downstream m) = cm_topic m ∧
  dm_attributes (to_downstream m) = cm_attributes m ∧
  dm_created_at (to_downstream m) = cm_created_at m.
Proof.
  intros Hu. unfold to_downstream, from_utf8, downstream_bytes.
  destruct (utf8_valid (cm_payload m)) eqn:Hv; simpl.
  - split; [by rewrite as_bytes_of_bytes|]. by repeat split.
  - split; [by apply base64_decode_encode|]. by repeat split.
Qed.

Lemma to_downstream_lossless_witness :
  let m := {| cm_id := "s03-x"; cm_topic := "jobs"; cm_payload := [104; 105; 255];
              cm_attributes := JNull; cm_created_at := "t"; cm_lease := "l"; cm_attempts := 1 |} in
  downstream_bytes (to_downstream m) = Some (cm_payload m) ∧
  (dm_payload_encoding (to_downstream m) = "utf-8" ↔ utf8_valid (cm_payload m) = true) ∧
  dm_id (to_downstream m) = cm_id m ∧ dm_topic (to_downstream m) = cm_topic m ∧
  dm_attributes (to_downstream m) = cm_attributes m ∧
  dm_created_at (to_downstream m) = cm_created_at m.
Proof.
  intros m. apply to_downstream_lossless. repeat constructor; unfold is_u8, U8_MAX; lia.
Defined.

(** The modes' textual forms round-trip: what [as_str] writes to the
    [topic_stats] table, [from_stored] reads back, and [parse] accepts it; an
    unreadable value is read as the implicit mode of an unconfigured topic. *)
Theorem modes_roundtrip d p topic v :
  delivery_parse (delivery_as_str d) = Some d ∧
  persistence_parse (persistence_as_str p) = Some p ∧
  delivery_from_stored (delivery_as_str d) = d ∧
  persistence_from_stored (persistence_as_str p) = p ∧
  (delivery_parse v = None → delivery_from_stored v = tc_delivery (implicit topic)) ∧
  (persistence_parse v = None ∨ trim v = "" →
   persistence_from_stored v = tc_persistence (implicit topic)).
Proof.
  split; [by destruct d; vm_compute|]. split; [by destruct p; vm_compute|].
  split; [apply delivery_stored|]. split; [apply persistence_stored|].
  split; [unfold delivery_from_stored; by intros ->|].
  unfold persistence_from_stored, is_empty. intros [H|H]; [|by rewrite H].
  case_match; [done|]. unfold persistence_parse in *. rewrite trim_idem. by rewrite H.
Qed.

End Model.
