(* ===== verification/Codec.v ===== *)
(** The MQTT 3.1.1 wire format: src/src/mqtt/codec.rs, and the two read loops of
    src/src/mqtt/session.rs that reassemble packets from a byte stream.

    Buffers are lists of bytes; a cursor [&mut usize] is a [nat] threaded
    through the readers; every failure is a [CodecError] value.  A [usize] has
    64 bits. *)

From S2P Require Import Prelude RustStr.

Module Codec.

(** * Data *)

Definition MAX_PACKET_SIZE : Z := 1024 * 1024.
Definition CONNACK_ACCEPT : Z := 0.
Definition CONNACK_PROTOCOL : Z := 1.
Definition CONNACK_IDENTIFIER : Z := 2.
Definition CONNACK_BAD_AUTH : Z := 4.
Definition CONNACK_NOT_AUTHORIZED : Z := 5.
Definition SUBACK_FAILURE : Z := 128.

(** [Connect]. *)
Record Connect := {
  protocol_level : Z;
  clean_session : bool;
  keep_alive : Z;
  client_id : string;
  username : option string;
  password : option (list Z)
}.

(** [Connect::protocol_version]. *)
Definition protocol_version (c : Connect) : string :=
  if protocol_level c =? 3 then "3.1"
  else if protocol_level c =? 4 then "3.1.1"
  else "".

(** [ConnAck]. *)
Record ConnAck := { session_present : bool; code : Z }.

(** [Publish]. *)
Record Publish := {
  dup : bool;
  pub_qos : Z;
  retain : bool;
  pub_topic : string;
  pub_packet_id : option Z;
  pub_payload : list Z
}.

(** [SubscribeFilter]. *)
Record SubscribeFilter := { sf_topic : string; sf_qos : Z }.
(** [Subscribe]. *)
Record Subscribe := { sub_packet_id : Z; sub_filters : list SubscribeFilter }.
(** [SubAck]. *)
Record SubAck := { suback_packet_id : Z; codes : list Z }.
(** [Unsubscribe]. *)
Record Unsubscribe := { unsub_packet_id : Z; unsub_filters : list string }.

(** [Packet]. *)
Inductive Packet :=
  | PConnect (c : Connect)
  | PConnAck (a : ConnAck)
  | PPublish (p : Publish)
  | PPubAck (packet_id : Z)
  | PPubRec (packet_id : Z)
  | PPubRel (packet_id : Z)
  | PPubComp (packet_id : Z)
  | PSubscribe (s : Subscribe)
  | PSubAck (a : SubAck)
  | PUnsubscribe (u : Unsubscribe)
  | PUnsubAck (packet_id : Z)
  | PPingReq
  | PPingResp
  | PDisconnect.

(** [CodecError]. *)
Inductive CodecError := Malformed (reason : string) | TooLarge.

Abbreviation res := (result CodecError) (only parsing).

(** * Encoding *)

(** [u16_bytes], that is [u16::to_be_bytes]. *)
Definition u16_bytes (value : Z) : list Z := [Z.shiftr value 8; Z.land value 255].

(** [u16::from_be_bytes]. *)
Definition from_be_bytes (a b : Z) : Z := Z.lor (Z.shiftl a 8) b.

(** The [while] loop of [encode_remaining_length]; ten rounds cover 64 bits. *)
Fixpoint encode_len_loop (fuel : nat) (len : Z) : list Z :=
  match fuel with
  | O => []
  | S fuel =>
      if len <=? 0 then []
      else let byte := len mod 128 in
           let len := len / 128 in
           let byte := if 0 <? len then Z.lor byte 128 else byte in
           byte :: encode_len_loop fuel len
  end.

(** [encode_remaining_length]. *)
Definition encode_remaining_length (len : Z) : list Z :=
  if len =? 0 then [0] else encode_len_loop 10 len.

(** [wrap]. *)
Definition wrap (packet_type flags : Z) (payload : list Z) : list Z :=
  [Z.lor (Z.shiftl packet_type 4) (Z.land flags 15)]
  ++ encode_remaining_length (Z.of_nat (length payload)) ++ payload.

(** [push_mqtt_bytes]: what it appends to the buffer. *)
Definition push_mqtt_bytes (value : list Z) : list Z :=
  let len := if Z.of_nat (length value) <=? U16_MAX
             then Z.of_nat (length value) else U16_MAX in
  u16_bytes len ++ take (Z.to_nat len) value.

(** [push_mqtt_string]. *)
Definition push_mqtt_string (value : string) : list Z := push_mqtt_bytes (as_bytes value).

(** [encode_connect]. *)
Definition encode_connect (c : Connect) : list Z :=
  let body := if protocol_level c =? 3 then push_mqtt_string "MQIsdp" ++ [3]
              else push_mqtt_string "MQTT" ++ [4] in
  let flags := 0 in
  let flags := if clean_session c then Z.lor flags 2 else flags in
  let flags := if username c is Some _ then Z.lor flags 128 else flags in
  let flags := if password c is Some _ then Z.lor flags 64 else flags in
  let body := body ++ [flags] ++ u16_bytes (keep_alive c) ++ push_mqtt_string (client_id c) in
  let body := match username c with Some u => body ++ push_mqtt_string u | None => body end in
  let body := match password c with Some p => body ++ push_mqtt_bytes p | None => body end in
  wrap 1 0 body.

(** [encode_publish]. *)
Definition encode_publish (p : Publish) : list Z :=
  let qos := Z.min (pub_qos p) 2 in
  let flags := 0 in
  let flags := if dup p then Z.lor flags 8 else flags in
  let flags := Z.lor flags (Z.shiftl qos 1) in
  let flags := if retain p then Z.lor flags 1 else flags in
  let body := push_mqtt_string (pub_topic p) in
  let body := if 0 <? qos then body ++ u16_bytes (default 1 (pub_packet_id p)) else body in
  wrap 3 flags (body ++ pub_payload p).

(** [encode_subscribe]. *)
Definition encode_subscribe (s : Subscribe) : list Z :=
  wrap 8 2 (foldl (λ body f, body ++ push_mqtt_string (sf_topic f) ++ [Z.min (sf_qos f) 2])
                  (u16_bytes (sub_packet_id s)) (sub_filters s)).

(** [encode_unsubscribe]. *)
Definition encode_unsubscribe (u : Unsubscribe) : list Z :=
  wrap 10 2 (foldl (λ body f, body ++ push_mqtt_string f)
                   (u16_bytes (unsub_packet_id u)) (unsub_filters u)).

(** [encode]. *)
Definition encode (packet : Packet) : list Z :=
  match packet with
  | PConnect c => encode_connect c
  | PConnAck a => wrap 2 0 [if session_present a then 1 else 0; code a]
  | PPublish p => encode_publish p
  | PPubAck id => wrap 4 0 (u16_bytes id)
  | PPubRec id => wrap 5 0 (u16_bytes id)
  | PPubRel id => wrap 6 2 (u16_bytes id)
  | PPubComp id => wrap 7 0 (u16_bytes id)
  | PSubscribe s => encode_subscribe s
  | PSubAck a => wrap 9 0 (u16_bytes (suback_packet_id a) ++ codes a)
  | PUnsubscribe u => encode_unsubscribe u
  | PUnsubAck id => wrap 11 0 (u16_bytes id)
  | PPingReq => wrap 12 0 []
  | PPingResp => wrap 13 0 []
  | PDisconnect => wrap 14 0 []
  end.

(** * Decoding *)

(** [usize::checked_mul]. *)
Definition checked_mul (a b : Z) : option Z :=
  if a * b <=? U64_MAX then Some (a * b) else None.

(** The [for] loop of [decode_remaining_length]. *)
Fixpoint decode_len_loop (index : Z) (value multiplier : Z) (buf : list Z)
    : res (option (Z * Z)) :=
  match buf with
  | [] => Ok None
  | byte :: buf =>
      if 4 <=? index then Err (Malformed "remaining length")
      else let value := value + Z.land byte 127 * multiplier in
           if Z.land byte 128 =? 0 then Ok (Some (value, index + 1 + 1))
           else multiplier ← ok_or (Malformed "remaining length") (checked_mul multiplier 128);
                decode_len_loop (index + 1) value multiplier buf
  end.

(** [decode_remaining_length]. *)
Definition decode_remaining_length (buf : list Z) : res (option (Z * Z)) :=
  decode_len_loop 0 0 1 buf.

(** [require_packet_id]. *)
Definition require_packet_id (payload : list Z) : res Z :=
  match payload with
  | [a; b] => Ok (from_be_bytes a b)
  | _ => Err (Malformed "packet id")
  end.

(** [read_u8]: the byte and the advanced cursor. *)
Definition read_u8 (data : list Z) (offset : nat) : res (Z * nat) :=
  value ← ok_or (Malformed "truncated") (data !! offset);
  Ok (value, offset + 1)%nat.

(** [read_u16]. *)
Definition read_u16 (data : list Z) (offset : nat) : res (Z * nat) :=
  if (length data <? offset + 2)%nat then Err (Malformed "truncated u16")
  else match data !! offset, data !! (offset + 1)%nat with
       | Some a, Some b => Ok (from_be_bytes a b, offset + 2)%nat
       | _, _ => Err (Malformed "truncated u16")
       end.

(** [read_mqtt_bytes]. *)
Definition read_mqtt_bytes (data : list Z) (offset : nat) : res (list Z * nat) :=
  '(len, offset) ← read_u16 data offset;
  let len := Z.to_nat len in
  if (length data <? offset + len)%nat then Err (Malformed "truncated bytes")
  else Ok (take len (drop offset data), offset + len)%nat.

(** [read_mqtt_string]. *)
Definition read_mqtt_string (data : list Z) (offset : nat) : res (string * nat) :=
  '(bytes, offset) ← read_mqtt_bytes data offset;
  text ← ok_or (Malformed "utf-8") (from_utf8 bytes);
  Ok (text, offset).

(** [decode_connect]. *)
Definition decode_connect (payload : list Z) : res Connect :=
  '(protocol, offset) ← read_mqtt_string payload 0;
  '(level, offset) ← read_u8 payload offset;
  if negb (bool_decide (protocol = "MQTT" ∧ level = 4)
           || bool_decide (protocol = "MQIsdp" ∧ level = 3))
  then Err (Malformed "unsupported protocol")
  else
  '(flags, offset) ← read_u8 payload offset;
  if negb (Z.land flags 1 =? 0) then Err (Malformed "CONNECT reserved flag")
  else
  '(keep_alive, offset) ← read_u16 payload offset;
  '(client_id, offset) ← read_mqtt_string payload offset;
  offset ← (if negb (Z.land flags 4 =? 0)
            then '(_, offset) ← read_mqtt_string payload offset;
                 '(_, offset) ← read_mqtt_bytes payload offset;
                 Ok offset
            else Ok offset);
  '(username, offset) ← (if negb (Z.land flags 128 =? 0)
                         then '(u, offset) ← read_mqtt_string payload offset;
                              Ok (Some u, offset)
                         else Ok (None, offset));
  '(password, offset) ← (if negb (Z.land flags 64 =? 0)
                         then '(p, offset) ← read_mqtt_bytes payload offset;
                              Ok (Some p, offset)
                         else Ok (None, offset));
  Ok {| protocol_level := level; clean_session := negb (Z.land flags 2 =? 0);
        keep_alive := keep_alive; client_id := client_id;
        username := username; password := password |}.

(** [decode_publish]. *)
Definition decode_publish (flags : Z) (payload : list Z) : res Publish :=
  let qos := Z.land (Z.shiftr flags 1) 3 in
  if 2 <? qos then Err (Malformed "PUBLISH QoS")
  else
  '(topic, offset) ← read_mqtt_string payload 0;
  '(packet_id, offset) ← (if 0 <? qos
                          then '(id, offset) ← read_u16 payload offset;
                               Ok (Some id, offset)
                          else Ok (None, offset));
  Ok {| dup := negb (Z.land flags 8 =? 0); pub_qos := qos;
        retain := negb (Z.land flags 1 =? 0); pub_topic := topic;
        pub_packet_id := packet_id; pub_payload := drop offset payload |}.

(** The [while] loop of [decode_subscribe] from a cursor on.  Every round
    advances the cursor, so the payload's length bounds the number of rounds;
    [decode_filters_unfold] shows that the bound is never what stops it. *)
Fixpoint decode_filters (fuel : nat) (payload : list Z) (offset : nat)
    : res (list SubscribeFilter) :=
  match fuel with
  | O => Ok []
  | S fuel =>
      if (offset <? length payload)%nat then
        '(topic, offset) ← read_mqtt_string payload offset;
        '(qos, offset) ← read_u8 payload offset;
        if 2 <? qos then Err (Malformed "SUBSCRIBE QoS")
        else rest ← decode_filters fuel payload offset;
             Ok ({| sf_topic := topic; sf_qos := qos |} :: rest)
      else Ok []
  end.

(** [decode_subscribe]. *)
Definition decode_subscribe (payload : list Z) : res Subscribe :=
  if (length payload <? 2)%nat then Err (Malformed "SUBSCRIBE")
  else
  '(packet_id, offset) ← read_u16 payload 0;
  filters ← decode_filters (length payload) payload offset;
  if bool_decide (length filters = 0%nat) then Err (Malformed "SUBSCRIBE has no filters")
  else Ok {| sub_packet_id := packet_id; sub_filters := filters |}.

(** The [while] loop of [decode_unsubscribe]. *)
Fixpoint decode_topics (fuel : nat) (payload : list Z) (offset : nat) : res (list string) :=
  match fuel with
  | O => Ok []
  | S fuel =>
      if (offset <? length payload)%nat then
        '(topic, offset) ← read_mqtt_string payload offset;
        rest ← decode_topics fuel payload offset;
        Ok (topic :: rest)
      else Ok []
  end.

(** [decode_unsubscribe]. *)
Definition decode_unsubscribe (payload : list Z) : res Unsubscribe :=
  if (length payload <? 2)%nat then Err (Malformed "UNSUBSCRIBE")
  else
  '(packet_id, offset) ← read_u16 payload 0;
  filters ← decode_topics (length payload) payload offset;
  if bool_decide (length filters = 0%nat) then Err (Malformed "UNSUBSCRIBE has no filters")
  else Ok {| unsub_packet_id := packet_id; unsub_filters := filters |}.

(** [decode_payload]. *)
Definition decode_payload (packet_type flags : Z) (payload : list Z) : res Packet :=
  if packet_type =? 1 then
    if negb (flags =? 0) then Err (Malformed "CONNECT flags")
    else PConnect <$> decode_connect payload
  else if packet_type =? 2 then
    match payload with
    | [a; b] => Ok (PConnAck {| session_present := negb (Z.land a 1 =? 0); code := b |})
    | _ => Err (Malformed "CONNACK length")
    end
  else if packet_type =? 3 then PPublish <$> decode_publish flags payload
  else if packet_type =? 4 then PPubAck <$> require_packet_id payload
  else if packet_type =? 5 then PPubRec <$> require_packet_id payload
  else if packet_type =? 6 then
    if negb (flags =? 2) then Err (Malformed "PUBREL flags")
    else PPubRel <$> require_packet_id payload
  else if packet_type =? 7 then PPubComp <$> require_packet_id payload
  else if packet_type =? 8 then
    if negb (flags =? 2) then Err (Malformed "SUBSCRIBE flags")
    else PSubscribe <$> decode_subscribe payload
  else if packet_type =? 9 then
    match payload with
    | a :: b :: codes =>
        Ok (PSubAck {| suback_packet_id := from_be_bytes a b; codes := codes |})
    | _ => Err (Malformed "SUBACK")
    end
  else if packet_type =? 10 then
    if negb (flags =? 2) then Err (Malformed "UNSUBSCRIBE flags")
    else PUnsubscribe <$> decode_unsubscribe payload
  else if packet_type =? 11 then PUnsubAck <$> require_packet_id payload
  else if packet_type =? 12 then
    match payload with [] => Ok PPingReq | _ => Err (Malformed "PINGREQ") end
  else if packet_type =? 13 then
    match payload with [] => Ok PPingResp | _ => Err (Malformed "PINGRESP") end
  else if packet_type =? 14 then
    match payload with [] => Ok PDisconnect | _ => Err (Malformed "DISCONNECT") end
  else Err (Malformed "unknown packet type").

(** [decode_one]: the result and the buffer it leaves.  The packet's bytes are
    drained before its payload is decoded, so a malformed payload is consumed. *)
Definition decode_one (buf : list Z) : res (option Packet) * list Z :=
  match buf with
  | [] => (Ok None, buf)
  | first :: tail =>
      match decode_remaining_length tail with
      | Err e => (Err e, buf)
      | Ok None => (Ok None, buf)
      | Ok (Some (remaining, header_len)) =>
          if MAX_PACKET_SIZE <? remaining then (Err TooLarge, buf)
          else
          let total := Z.to_nat (header_len + remaining) in
          if (length buf <? total)%nat then (Ok None, buf)
          else
          let packet_type := Z.shiftr first 4 in
          let flags := Z.land first 15 in
          let payload := drop (Z.to_nat header_len) (take total buf) in
          (Some <$> decode_payload packet_type flags payload, drop total buf)
      end
  end.

(** * The read loops of a session *)

(** One result of [reader.read]: bytes, or the end of the stream ([Ok(0)] or an
    error). *)
Inductive ReadEvent := Data (bytes : list Z) | Eof.

(** One item of the WebSocket stream. *)
Inductive WsEvent :=
  | WsBinary (data : list Z)
  | WsText (text : string)
  | WsPing
  | WsPong
  | WsEnd.

(** The rounds of a read loop between two reads: decode and send while packets
    are complete.  [accepts i] says whether the [i]-th [tx.send] finds the
    session still receiving.  The result is the packets sent and the buffer to
    read into, or [None] when the loop ended.  A round consumes bytes, so the
    buffer's length bounds their number. *)
Fixpoint drain (fuel : nat) (accepts : nat → bool) (sent : nat) (buf : list Z)
    : list Packet * option (list Z) :=
  match fuel with
  | O => ([], Some buf)
  | S fuel =>
      match decode_one buf with
      | (Ok (Some packet), buf) =>
          if accepts sent
          then let '(packets, rest) := drain fuel accepts (S sent) buf in
               (packet :: packets, rest)
          else ([], None)
      | (Ok None, buf) =>
          if MAX_PACKET_SIZE + 5 <? Z.of_nat (length buf) then ([], None)
          else ([], Some buf)
      | (Err _, _) => ([], None)
      end
  end.

(** [tcp_read_loop]: the packets handed to the session. *)
Fixpoint tcp_read_loop (accepts : nat → bool) (sent : nat) (buf : list Z)
    (events : list ReadEvent) : list Packet :=
  let '(packets, rest) := drain (S (length buf)) accepts sent buf in
  packets ++
  match rest, events with
  | Some buf, Data bytes :: events =>
      tcp_read_loop accepts (sent + length packets)%nat (buf ++ bytes) events
  | _, _ => []
  end.

(** [ws_read_loop]. *)
Fixpoint ws_read_loop (accepts : nat → bool) (sent : nat) (buf : list Z)
    (events : list WsEvent) : list Packet :=
  let '(packets, rest) := drain (S (length buf)) accepts sent buf in
  let sent := (sent + length packets)%nat in
  packets ++
  match rest, events with
  | Some buf, WsBinary data :: events => ws_read_loop accepts sent (buf ++ data) events
  | Some buf, WsText text :: events => ws_read_loop accepts sent (buf ++ as_bytes text) events
  | Some buf, (WsPing | WsPong) :: events => ws_read_loop accepts sent buf events
  | _, _ => []
  end.

(** * Lemmas: integers and lengths on the wire *)

Lemma from_be_u16 a b : is_u8 a → is_u8 b → from_be_bytes a b = a * 256 + b.
Proof.
  unfold is_u8, U8_MAX, from_be_bytes. intros Ha Hb.
  rewrite Z.shiftl_mul_pow2 by lia. rewrite lor_low by lia. lia.
Qed.

Lemma u16_bytes_eq v : u16_bytes v = [v / 256; v mod 256].
Proof.
  unfold u16_bytes. change 255 with (Z.ones 8).
  by rewrite land_low, Z.shiftr_div_pow2 by lia.
Qed.

Lemma u16_bytes_u8 v : is_u16 v → Forall is_u8 (u16_bytes v).
Proof.
  unfold is_u16, U16_MAX. intros Hv. rewrite u16_bytes_eq.
  repeat constructor; unfold U8_MAX; Z.to_euclidean_division_equations; lia.
Qed.

Lemma from_be_u16_bytes v :
  is_u16 v → from_be_bytes (v / 256) (v mod 256) = v.
Proof.
  unfold is_u16, U16_MAX. intros Hv. rewrite from_be_u16.
  - Z.to_euclidean_division_equations; lia.
  - unfold is_u8, U8_MAX. Z.to_euclidean_division_equations; lia.
  - unfold is_u8, U8_MAX. Z.to_euclidean_division_equations; lia.
Qed.

(** The continuation bit of a length byte. *)
Lemma len_byte_bits x : 0 <= x < 128 →
  Z.land x 127 = x ∧ Z.land x 128 = 0 ∧
  Z.land (Z.lor x 128) 127 = x ∧ Z.land (Z.lor x 128) 128 = 128 ∧ is_u8 (Z.lor x 128).
Proof.
  intros Hx. apply (below_decide 128 (λ x, Z.land x 127 = x ∧ Z.land x 128 = 0 ∧
    Z.land (Z.lor x 128) 127 = x ∧ Z.land (Z.lor x 128) 128 = 128 ∧ is_u8 (Z.lor x 128)));
    [by vm_compute|lia].
Qed.

(** Decoding what the length encoder wrote: [value] grows by the length times
    the current multiplier. *)
Lemma decode_encode_len_loop fuel n index value m rest :
  0 < n → n < 128 ^ Z.of_nat fuel → 0 <= index → n < 128 ^ (4 - index) →
  0 < m → m * 128 ^ (4 - index) <= 2 ^ 28 →
  decode_len_loop index value m (encode_len_loop fuel n ++ rest) =
  Ok (Some (value + n * m,
            index + Z.of_nat (length (encode_len_loop fuel n)) + 1)).
Proof.
  revert n index value m. induction fuel as [|fuel IH]; intros n index value m Hn Hf Hi H4 Hm Hb.
  { simpl in Hf. lia. }
  assert (index < 4).
  { destruct (decide (index < 4)); [done|]. destruct (decide (index = 4)) as [->|].
    - simpl in H4. lia.
    - rewrite Z.pow_neg_r in H4; lia. }
  cbn [encode_len_loop]. rewrite (proj2 (Z.leb_gt n 0)) by lia.
  pose proof (Z.mod_pos_bound n 128 ltac:(lia)) as Hr.
  destruct (len_byte_bits (n mod 128) Hr) as (B1 & B2 & B3 & B4 & _).
  pose proof (Z.div_mod n 128 ltac:(lia)) as Hdm.
  cbn [app decode_len_loop]. rewrite (proj2 (Z.leb_gt 4 index)) by lia.
  destruct (Z.ltb_spec 0 (n / 128)) as [Hq|Hq]; cbn [app decode_len_loop length].
  - rewrite B3, B4. change (128 =? 0) with false. cbv iota.
    assert (128 ^ (4 - index) = 128 * 128 ^ (4 - (index + 1))) as Hpow.
    { rewrite <-Z.pow_succ_r by lia. f_equal. lia. }
    assert (128 ^ (4 - (index + 1)) > 0) by (apply Z.lt_gt, Z.pow_pos_nonneg; lia).
    rewrite Nat2Z.inj_succ, Z.pow_succ_r in Hf by lia.
    unfold checked_mul, U64_MAX. rewrite (proj2 (Z.leb_le _ _)) by nia. simpl.
    rewrite IH; [|nia|nia|lia|nia|lia|nia]. f_equal. f_equal. f_equal; nia.
  - assert (n / 128 = 0) as H0 by (pose proof (Z.div_pos n 128); lia).
    assert (n mod 128 = n) by lia.
    rewrite B1, B2. change (0 =? 0) with true. cbv iota.
    assert (encode_len_loop fuel (n / 128) = []) as ->.
    { rewrite H0. by destruct fuel. }
    cbn [length]. f_equal. f_equal. f_equal; lia.
Qed.

Lemma decode_encode_remaining_length n rest :
  0 <= n < 128 ^ 4 →
  decode_remaining_length (encode_remaining_length n ++ rest) =
  Ok (Some (n, Z.of_nat (length (encode_remaining_length n)) + 1)).
Proof.
  intros Hn. unfold decode_remaining_length, encode_remaining_length.
  destruct (Z.eqb_spec n 0) as [->|]; [done|].
  rewrite decode_encode_len_loop by (simpl; lia). f_equal. f_equal. f_equal; lia.
Qed.

(** * Lemmas: the cursor readers

    [drop offset data] is what is left to read; each lemma says what a reader
    returns when the rest starts with what the matching writer wrote. *)

Lemma read_u8_at data o b post :
  drop o data = b :: post →
  read_u8 data o = Ok (b, o + 1)%nat ∧ drop (o + 1) data = post.
Proof.
  intros H. unfold read_u8. split.
  - replace (data !! o) with (Some b); [done|].
    rewrite <-(Nat.add_0_r o), <-lookup_drop, H. done.
  - by rewrite <-drop_drop, H.
Qed.

Lemma read_u16_at data o v post :
  is_u16 v → drop o data = u16_bytes v ++ post →
  read_u16 data o = Ok (v, o + 2)%nat ∧ drop (o + 2) data = post ∧ (o + 2 <= length data)%nat.
Proof.
  intros Hv H. rewrite u16_bytes_eq in H. simpl in H. unfold read_u16.
  assert (length data = o + 2 + length post)%nat as ->.
  { apply (f_equal length) in H. rewrite length_drop in H. simpl in H. lia. }
  rewrite (proj2 (Nat.ltb_ge _ _)) by lia.
  rewrite <-(Nat.add_0_r o) at 1. rewrite <-!lookup_drop, H. simpl.
  split_and!; [by rewrite from_be_u16_bytes|by rewrite <-drop_drop, H|lia].
Qed.

Lemma read_mqtt_bytes_at data o v post :
  Z.of_nat (length v) <= U16_MAX → drop o data = push_mqtt_bytes v ++ post →
  ∃ o', read_mqtt_bytes data o = Ok (v, o') ∧ drop o' data = post ∧
        (o + 2 <= o' <= length data)%nat.
Proof.
  unfold push_mqtt_bytes, read_mqtt_bytes. intros Hv H.
  rewrite (proj2 (Z.leb_le _ _)), Nat2Z.id, firstn_all in H by done.
  rewrite <-app_assoc in H. apply read_u16_at in H as (-> & H & Ho); [|unfold is_u16; lia].
  simpl. rewrite Nat2Z.id.
  pose proof (f_equal length H) as Hl. rewrite length_drop, length_app in Hl.
  rewrite (proj2 (Nat.ltb_ge _ _)) by lia. rewrite H, take_app_length.
  eexists. split_and!; [done| |lia|lia]. by rewrite <-drop_drop, H, drop_app_length.
Qed.

(** A Rust [String] that fits the two-byte length prefix. *)
Definition wf_str (s : string) : Prop := is_utf8 s ∧ len s <= U16_MAX.

Lemma read_mqtt_string_at data o v post :
  wf_str v → drop o data = push_mqtt_string v ++ post →
  ∃ o', read_mqtt_string data o = Ok (v, o') ∧ drop o' data = post ∧
        (o + 2 <= o' <= length data)%nat.
Proof.
  unfold read_mqtt_string, push_mqtt_string. intros [Hu Hl] H.
  apply read_mqtt_bytes_at in H as (o' & -> & H & Ho).
  - exists o'. simpl. by rewrite (from_utf8_as_bytes _ Hu).
  - by rewrite length_as_bytes.
Qed.

(** Every string read moves the cursor by at least its length prefix. *)
Lemma read_mqtt_string_advances data o v o' :
  read_mqtt_string data o = Ok (v, o') → (o + 2 <= o' <= length data)%nat.
Proof.
  unfold read_mqtt_string, read_mqtt_bytes, read_u16.
  destruct (Nat.ltb_spec (length data) (o + 2)); simpl; [done|].
  destruct (data !! o); [|done]. destruct (data !! (o + 1)%nat); [|done]. simpl.
  case_match eqn:E; [done|]. apply Nat.ltb_ge in E. simpl.
  destruct (from_utf8 _); simpl; [|done]. intros [= _ <-]. lia.
Qed.

(** The loops of SUBSCRIBE and UNSUBSCRIBE do not depend on their fuel. *)
Lemma decode_filters_unfold fuel payload o :
  (length payload - o <= fuel)%nat →
  decode_filters (S fuel) payload o = decode_filters fuel payload o.
Proof.
  revert o. induction fuel as [|fuel IH]; intros o Hf.
  { cbn [decode_filters]. by rewrite (proj2 (Nat.ltb_ge _ _)) by lia. }
  cbn [decode_filters]. case_match; [|done].
  destruct (read_mqtt_string payload o) as [[t o1]|] eqn:E; [|done]. simpl.
  apply read_mqtt_string_advances in E. unfold read_u8.
  destruct (payload !! o1); [|done]. simpl. case_match; [done|].
  by rewrite <-IH by lia.
Qed.

Lemma decode_topics_unfold fuel payload o :
  (length payload - o <= fuel)%nat →
  decode_topics (S fuel) payload o = decode_topics fuel payload o.
Proof.
  revert o. induction fuel as [|fuel IH]; intros o Hf.
  { cbn [decode_topics]. by rewrite (proj2 (Nat.ltb_ge _ _)) by lia. }
  cbn [decode_topics]. case_match; [|done].
  destruct (read_mqtt_string payload o) as [[t o1]|] eqn:E; [|done]. simpl.
  apply read_mqtt_string_advances in E. by rewrite <-IH by lia.
Qed.

Definition filter_bytes (f : SubscribeFilter) : list Z :=
  push_mqtt_string (sf_topic f) ++ [Z.min (sf_qos f) 2].

Definition wf_filter (f : SubscribeFilter) : Prop :=
  wf_str (sf_topic f) ∧ 0 <= sf_qos f <= 2.

Lemma decode_filters_at fuel payload o fs :
  Forall wf_filter fs → drop o payload = concat (map filter_bytes fs) →
  (length payload - o <= fuel)%nat → (o <= length payload)%nat →
  decode_filters fuel payload o = Ok fs.
Proof.
  intros Hfs. revert fuel o. induction Hfs as [|[t q] fs [Ht Hq] _ IH]; intros fuel o H Hf Ho.
  - apply (f_equal length) in H. rewrite length_drop in H. simpl in H.
    destruct fuel; simpl; [done|]. by rewrite (proj2 (Nat.ltb_ge _ _)) by lia.
  - simpl in H, Ht, Hq. unfold filter_bytes in H at 1. simpl in H. rewrite <-!app_assoc in H.
    apply read_mqtt_string_at in H as (o1 & Hr & H & Ho1); [|done].
    apply read_u8_at in H as [Hr8 H].
    assert (o1 < length payload)%nat.
    { unfold read_u8 in Hr8. destruct (payload !! o1) eqn:E; [|done].
      by eapply lookup_lt_Some. }
    destruct fuel as [|fuel]; [lia|]. simpl.
    rewrite (proj2 (Nat.ltb_lt _ _)) by lia. rewrite Hr. simpl. rewrite Hr8. simpl.
    rewrite Z.min_l by lia. rewrite (proj2 (Z.ltb_ge _ _)) by lia.
    by rewrite (IH fuel (o1 + 1)%nat) by (done || lia).
Qed.

Lemma decode_topics_at fuel payload o fs :
  Forall wf_str fs → drop o payload = concat (map push_mqtt_string fs) →
  (length payload - o <= fuel)%nat → (o <= length payload)%nat →
  decode_topics fuel payload o = Ok fs.
Proof.
  intros Hfs. revert fuel o. induction Hfs as [|t fs Ht _ IH]; intros fuel o H Hf Ho.
  - apply (f_equal length) in H. rewrite length_drop in H. simpl in H.
    destruct fuel; simpl; [done|]. by rewrite (proj2 (Nat.ltb_ge _ _)) by lia.
  - simpl in H. apply read_mqtt_string_at in H as (o1 & Hr & H & Ho1); [|done].
    destruct fuel as [|fuel]; [lia|]. simpl.
    rewrite (proj2 (Nat.ltb_lt _ _)) by lia. rewrite Hr. simpl.
    by rewrite (IH fuel o1) by (done || lia).
Qed.

Lemma foldl_app_concat {A} (g : A → list Z) init l :
  foldl (λ body f, body ++ g f) init l = init ++ concat (map g l).
Proof.
  revert init. induction l as [|x l IH]; intros init; simpl; [by rewrite app_nil_r|].
  by rewrite IH, <-app_assoc.
Qed.

(** * Well-formed packets *)

Definition wf_connect (c : Connect) : Prop :=
  (protocol_level c = 3 ∨ protocol_level c = 4) ∧ is_u16 (keep_alive c) ∧
  wf_str (client_id c) ∧ (∀ u, username c = Some u → wf_str u) ∧
  (∀ p, password c = Some p → Z.of_nat (length p) <= U16_MAX).

Definition wf_publish (p : Publish) : Prop :=
  wf_str (pub_topic p) ∧
  match pub_packet_id p with
  | None => pub_qos p = 0
  | Some id => (pub_qos p = 1 ∨ pub_qos p = 2) ∧ is_u16 id
  end.

(** What MQTT 3.1.1 allows in each packet, and what the broker sends. *)
Definition wf_packet (packet : Packet) : Prop :=
  match packet with
  | PConnect c => wf_connect c
  | PPublish p => wf_publish p
  | PPubAck id | PPubRec id | PPubRel id | PPubComp id | PUnsubAck id => is_u16 id
  | PSubscribe s =>
      is_u16 (sub_packet_id s) ∧ sub_filters s ≠ [] ∧ Forall wf_filter (sub_filters s)
  | PSubAck a => is_u16 (suback_packet_id a)
  | PUnsubscribe u =>
      is_u16 (unsub_packet_id u) ∧ unsub_filters u ≠ [] ∧ Forall wf_str (unsub_filters u)
  | PConnAck _ | PPingReq | PPingResp | PDisconnect => True
  end.

(** * Lemmas: what is decoded is well formed *)

(** The two branches of a computation that begins with a test. *)
Ltac destruct_if H E := match type of H with (if ?b then _ else _) = _ => destruct b eqn:E end.

Lemma read_u8_ok data o v o' : Forall is_u8 data → read_u8 data o = Ok (v, o') → is_u8 v.
Proof.
  intros Hd (x & Hx & [= -> _])%bind_Ok. destruct (data !! o) as [y|] eqn:Hy; [|done].
  injection Hx as ->. by eapply Forall_lookup_1.
Qed.

Lemma from_be_bytes_ok a b : is_u8 a → is_u8 b → is_u16 (from_be_bytes a b).
Proof. intros Ha Hb. rewrite from_be_u16 by done. unfold is_u8, U8_MAX, is_u16, U16_MAX in *. lia. Qed.

Lemma read_u16_ok data o v o' : Forall is_u8 data → read_u16 data o = Ok (v, o') → is_u16 v.
Proof.
  intros Hd. unfold read_u16. case_match; [done|].
  destruct (data !! o) as [a|] eqn:Ha; [|done]. destruct (data !! (o + 1)%nat) as [b|] eqn:Hb; [|done].
  intros [= <- _]. apply from_be_bytes_ok; by eapply Forall_lookup_1.
Qed.

Lemma read_mqtt_bytes_ok data o v o' : Forall is_u8 data → read_mqtt_bytes data o = Ok (v, o') →
  Forall is_u8 v ∧ Z.of_nat (length v) <= U16_MAX.
Proof.
  intros Hd ([n o1] & Hn & Hv)%bind_Ok. apply read_u16_ok in Hn as Hn16; [|done].
  cbn beta iota zeta in Hv. destruct (length data <? _)%nat; [done|]. injection Hv as <- _. split; [by apply Forall_take, Forall_drop|].
  rewrite length_take. unfold is_u16 in Hn16. lia.
Qed.

Lemma read_mqtt_string_ok data o v o' : Forall is_u8 data → read_mqtt_string data o = Ok (v, o') → wf_str v.
Proof.
  intros Hd ([bs o1] & Hb & (text & Ht & [= -> _])%bind_Ok)%bind_Ok.
  apply read_mqtt_bytes_ok in Hb as [Hbs Hl]; [|done]. unfold from_utf8 in Ht.
  destruct (utf8_valid bs) eqn:Hu; [|done]. injection Ht as <-.
  split; [unfold is_utf8; by rewrite as_bytes_of_bytes|].
  unfold len. by rewrite <-length_as_bytes, as_bytes_of_bytes.
Qed.

Lemma decode_filters_ok fuel payload o fs :
  Forall is_u8 payload → decode_filters fuel payload o = Ok fs → Forall wf_filter fs.
Proof.
  intros Hp. revert o fs. induction fuel as [|fuel IH]; intros o fs; cbn [decode_filters]; [by intros [= <-]|].
  case_match; [|by intros [= <-]]. intros ([topic o1] & Ht & Hrest)%bind_Ok.
  apply bind_Ok in Hrest as ([qos o2] & Hq & Hrest). destruct (2 <? qos) eqn:H2; [done|].
  apply bind_Ok in Hrest as (rest & Hr & [= <-]). constructor; [|by eapply IH].
  split; [by eapply read_mqtt_string_ok|]. apply read_u8_ok in Hq; [|done].
  unfold is_u8 in Hq. apply Z.ltb_ge in H2. simpl. lia.
Qed.

Lemma decode_topics_ok fuel payload o fs :
  Forall is_u8 payload → decode_topics fuel payload o = Ok fs → Forall wf_str fs.
Proof.
  intros Hp. revert o fs. induction fuel as [|fuel IH]; intros o fs; cbn [decode_topics]; [by intros [= <-]|].
  case_match; [|by intros [= <-]]. intros ([topic o1] & Ht & (rest & Hr & [= <-])%bind_Ok)%bind_Ok.
  constructor; [by eapply read_mqtt_string_ok|by eapply IH].
Qed.

Lemma decode_connect_ok payload c : Forall is_u8 payload → decode_connect payload = Ok c → wf_connect c.
Proof.
  intros Hp ([protocol o1] & _ & ([level o2] & _ & Hc)%bind_Ok)%bind_Ok.
  destruct_if Hc Hlevel; [done|]. apply negb_false_iff, orb_true_iff in Hlevel.
  rewrite !bool_decide_eq_true in Hlevel. apply bind_Ok in Hc as ([flags o3] & _ & Hc).
  destruct_if Hc Hreserved; [done|]. apply bind_Ok in Hc as ([ka o4] & Hka & ([cid o5] & Hcid & Hc)%bind_Ok).
  apply bind_Ok in Hc as (o6 & _ & ([user o7] & Hu & ([pass o8] & Hpw & [= <-])%bind_Ok)%bind_Ok).
  split; [naive_solver|]. split; [by eapply read_u16_ok|]. split; [by eapply read_mqtt_string_ok|].
  split; cbn [username password].
  - intros u ->. destruct_if Hu Hflag; [|done]. apply bind_Ok in Hu as ([u' o] & Hu & [= -> _]).
    by eapply read_mqtt_string_ok.
  - intros p ->. destruct_if Hpw Hflag; [|done]. apply bind_Ok in Hpw as ([p' o] & Hpw & [= -> _]).
    by eapply read_mqtt_bytes_ok.
Qed.

Lemma decode_publish_ok flags payload p :
  Forall is_u8 payload → decode_publish flags payload = Ok p → wf_publish p.
Proof.
  intros Hp. unfold decode_publish. set (qos := Z.land _ _).
  assert (0 <= qos) as Hq by (apply Z.land_nonneg; lia). destruct (2 <? qos) eqn:H2; [done|].
  apply Z.ltb_ge in H2. intros ([topic o1] & Ht & ([id o2] & Hid & [= <-])%bind_Ok)%bind_Ok.
  split; [by eapply read_mqtt_string_ok|]. cbn [pub_packet_id pub_qos].
  destruct (0 <? qos) eqn:H0; [|injection Hid as <- _; apply Z.ltb_ge in H0; lia].
  apply Z.ltb_lt in H0. apply bind_Ok in Hid as ([v o] & Hv & [= <- _]).
  split; [lia|]. by eapply read_u16_ok.
Qed.

Lemma require_packet_id_ok payload id : Forall is_u8 payload → require_packet_id payload = Ok id → is_u16 id.
Proof.
  intros Hp. destruct payload as [|a [|b [|]]]; try done. intros [= <-].
  rewrite !Forall_cons in Hp. destruct Hp as (? & ? & _). by apply from_be_bytes_ok.
Qed.

Lemma decode_subscribe_ok payload s :
  Forall is_u8 payload → decode_subscribe payload = Ok s → wf_packet (PSubscribe s).
Proof.
  intros Hp. unfold decode_subscribe. case_match; [done|].
  intros ([id o] & Hid & (fs & Hfs & Hs)%bind_Ok)%bind_Ok. case_bool_decide as Hne; [done|].
  injection Hs as <-. cbn. split; [by eapply read_u16_ok|]. split; [by intros ->|by eapply decode_filters_ok].
Qed.

Lemma decode_unsubscribe_ok payload u :
  Forall is_u8 payload → decode_unsubscribe payload = Ok u → wf_packet (PUnsubscribe u).
Proof.
  intros Hp. unfold decode_unsubscribe. case_match; [done|].
  intros ([id o] & Hid & (fs & Hfs & Hs)%bind_Ok)%bind_Ok. case_bool_decide as Hne; [done|].
  injection Hs as <-. cbn. split; [by eapply read_u16_ok|]. split; [by intros ->|by eapply decode_topics_ok].
Qed.

Lemma fmap_Ok {E A B} (f : A → B) (r : result E A) b : f <$> r = Ok b → ∃ a, r = Ok a ∧ b = f a.
Proof. destruct r as [a|e]; [|done]. intros [= <-]. by exists a. Qed.

Lemma decode_payload_ok packet_type flags payload p :
  Forall is_u8 payload → decode_payload packet_type flags payload = Ok p → wf_packet p.
Proof.
  intros Hp. unfold decode_payload. repeat case_match; try done; intros Hd;
    lazymatch type of Hd with
    | _ <$> _ = _ => apply fmap_Ok in Hd as (x & Hd & ->)
    | _ => injection Hd as <-
    end; try done.
  all: try first [by eapply decode_connect_ok | by eapply decode_publish_ok | by eapply require_packet_id_ok
    | by eapply decode_subscribe_ok | by eapply decode_unsubscribe_ok].
  rewrite !Forall_cons in Hp. destruct Hp as (? & ? & _). by apply from_be_bytes_ok.
Qed.

(** * Lemmas: each payload decodes to the packet it was made from *)

Lemma require_packet_id_bytes id : is_u16 id → require_packet_id (u16_bytes id) = Ok id.
Proof. intros H. rewrite u16_bytes_eq. simpl. by rewrite from_be_u16_bytes. Qed.

Lemma decode_connect_body (c : Connect) :
  wf_connect c → ∃ body, encode_connect c = wrap 1 0 body ∧ decode_connect body = Ok c.
Proof.
  destruct c as [lvl clean ka cid user pass]. intros (Hl & Hka & Hcid & Huser & Hpass).
  simpl in Hl, Hka, Hcid, Huser, Hpass.
  eexists. split; [reflexivity|]. cbn [protocol_level clean_session keep_alive client_id username password].
  match goal with |- decode_connect ?b = _ => set (body := b) end.
  set (proto := if lvl =? 3 then "MQIsdp" else "MQTT").
  set (flags := Z.lor (Z.lor (if clean then 2 else 0) (if user is Some _ then 128 else 0))
                      (if pass is Some _ then 64 else 0)).
  assert (drop 0 body = push_mqtt_string proto ++ lvl :: flags :: u16_bytes ka ++
     push_mqtt_string cid ++ (if user is Some u then push_mqtt_string u else []) ++
     (if pass is Some p then push_mqtt_bytes p else [])) as H.
  { subst body proto flags. rewrite drop_0.
    destruct Hl as [-> | ->], clean, user, pass; simpl; by rewrite <-?app_assoc, ?app_nil_r. }
  assert (Z.land flags 1 = 0 ∧ Z.land flags 4 = 0 ∧ (Z.land flags 2 =? 0) = negb clean ∧
    (Z.land flags 128 =? 0) = (if user is Some _ then false else true) ∧
    (Z.land flags 64 =? 0) = (if pass is Some _ then false else true))
    as (F1 & F4 & F2 & F128 & F64).
  { subst flags. by destruct clean, user, pass. }
  clearbody body flags. unfold decode_connect.
  apply read_mqtt_string_at in H as (o1 & -> & H & _).
  2:{ subst proto. by destruct (lvl =? 3). }
  simpl. apply read_u8_at in H as [-> H]. simpl.
  assert (bool_decide (proto = "MQTT" ∧ lvl = 4) || bool_decide (proto = "MQIsdp" ∧ lvl = 3)
          = true) as ->.
  { subst proto. by destruct Hl as [-> | ->]. }
  simpl. apply read_u8_at in H as [-> H]. simpl. rewrite F1. simpl.
  apply read_u16_at in H as (-> & H & _); [|done]. simpl.
  apply read_mqtt_string_at in H as (o2 & -> & H & _); [|done]. simpl.
  rewrite F4. simpl. rewrite F128, F64, F2.
  destruct user as [u|]; simpl in *.
  - apply read_mqtt_string_at in H as (o3 & -> & H & _); [|by apply Huser]. simpl.
    destruct pass as [p|]; simpl in *; [|by rewrite negb_involutive].
    rewrite <-(app_nil_r (push_mqtt_bytes p)) in H.
    apply read_mqtt_bytes_at in H as (o4 & -> & H & _); [|by apply Hpass]. simpl.
    by rewrite negb_involutive.
  - destruct pass as [p|]; simpl in *; [|by rewrite negb_involutive].
    rewrite <-(app_nil_r (push_mqtt_bytes p)) in H.
    apply read_mqtt_bytes_at in H as (o4 & -> & H & _); [|by apply Hpass]. simpl.
    by rewrite negb_involutive.
Qed.

Lemma decode_publish_body (p : Publish) :
  wf_publish p →
  ∃ flags body, encode_publish p = wrap 3 flags body ∧ 0 <= flags < 16 ∧
                decode_publish flags body = Ok p.
Proof.
  destruct p as [d q r topic id payload]. intros [Ht Hid]. simpl in Ht, Hid.
  do 2 eexists. split; [reflexivity|]. cbn [dup pub_qos retain pub_topic pub_packet_id pub_payload].
  match goal with |- context [decode_publish ?f ?b] => set (flags := f); set (body := b) end.
  assert (0 <= q <= 2 ∧ (0 <? q) = (if id is Some _ then true else false)) as [Hq Hq0].
  { destruct id as [i|]; [|by subst]. destruct Hid as [[-> | ->] _]; split; (lia || done). }
  assert (0 <= flags < 16 ∧ Z.land (Z.shiftr flags 1) 3 = q ∧
          (Z.land flags 8 =? 0) = negb d ∧ (Z.land flags 1 =? 0) = negb r) as (Hf & Fq & Fd & Fr).
  { subst flags. assert (q = 0 ∨ q = 1 ∨ q = 2) as [-> | [-> | ->]] by lia;
      destruct d, r; vm_compute; split_and!; done. }
  split; [done|]. unfold decode_publish. rewrite Fq, Fd, Fr, !negb_involutive, Hq0.
  rewrite (proj2 (Z.ltb_ge _ _)) by lia.
  assert (drop 0 body = push_mqtt_string topic ++
     (if id is Some i then u16_bytes i else []) ++ payload) as H.
  { subst body. rewrite drop_0, Z.min_l, Hq0 by lia. destruct id; simpl; by rewrite <-?app_assoc. }
  clearbody flags body.
  apply read_mqtt_string_at in H as (o1 & -> & H & _); [|done]. simpl.
  destruct id as [i|]; simpl in *; [|by rewrite H].
  apply read_u16_at in H as (-> & H & _); [|naive_solver]. simpl. by rewrite H.
Qed.

Lemma decode_subscribe_body s :
  wf_packet (PSubscribe s) →
  ∃ body, encode_subscribe s = wrap 8 2 body ∧ decode_subscribe body = Ok s.
Proof.
  destruct s as [id fs]. intros (Hid & Hne & Hfs). simpl in *.
  eexists. split; [reflexivity|]. simpl. rewrite (foldl_app_concat filter_bytes).
  set (body := u16_bytes id ++ _). unfold decode_subscribe.
  destruct (read_u16_at body 0 id (concat (map filter_bytes fs))) as (-> & H & Ho); [done..|].
  clearbody body. rewrite (proj2 (Nat.ltb_ge _ _)) by lia. simpl.
  rewrite (decode_filters_at _ _ _ fs) by (done || lia). simpl.
  rewrite bool_decide_eq_false_2; [done|]. by destruct fs.
Qed.

Lemma decode_unsubscribe_body u :
  wf_packet (PUnsubscribe u) →
  ∃ body, encode_unsubscribe u = wrap 10 2 body ∧ decode_unsubscribe body = Ok u.
Proof.
  destruct u as [id fs]. intros (Hid & Hne & Hfs). simpl in *.
  eexists. split; [reflexivity|]. simpl. rewrite (foldl_app_concat push_mqtt_string).
  set (body := u16_bytes id ++ _). unfold decode_unsubscribe.
  destruct (read_u16_at body 0 id (concat (map push_mqtt_string fs))) as (-> & H & Ho); [done..|].
  clearbody body. rewrite (proj2 (Nat.ltb_ge _ _)) by lia. simpl.
  rewrite (decode_topics_at _ _ _ fs) by (done || lia). simpl.
  rewrite bool_decide_eq_false_2; [done|]. by destruct fs.
Qed.

(** * Lemmas: framing *)

(** Every well-formed packet is a frame whose payload decodes to it. *)
Lemma encode_frame p :
  wf_packet p →
  ∃ t f body, encode p = wrap t f body ∧ 0 <= t < 16 ∧ 0 <= f < 16 ∧
              decode_payload t f body = Ok p.
Proof.
  destruct p as [c|a|pb|id|id|id|id|s|a|u|id| | |]; cbn [wf_packet encode]; intros H.
  - apply decode_connect_body in H as (body & -> & H). exists 1, 0, body. unfold decode_payload. by rewrite H.
  - exists 2, 0. eexists. split; [reflexivity|]. unfold decode_payload. by destruct a as [[] ?].
  - apply decode_publish_body in H as (f & body & -> & Hf & H). exists 3, f, body. unfold decode_payload.
    rewrite H. done.
  - exists 4, 0. eexists. split; [reflexivity|]. unfold decode_payload. by rewrite require_packet_id_bytes.
  - exists 5, 0. eexists. split; [reflexivity|]. unfold decode_payload. by rewrite require_packet_id_bytes.
  - exists 6, 2. eexists. split; [reflexivity|]. unfold decode_payload. by rewrite require_packet_id_bytes.
  - exists 7, 0. eexists. split; [reflexivity|]. unfold decode_payload. by rewrite require_packet_id_bytes.
  - apply decode_subscribe_body in H as (body & -> & H). exists 8, 2, body. unfold decode_payload. by rewrite H.
  - exists 9, 0. eexists. split; [reflexivity|]. rewrite u16_bytes_eq.
    unfold decode_payload; simpl. rewrite from_be_u16_bytes by done. by destruct a.
  - apply decode_unsubscribe_body in H as (body & -> & H). exists 10, 2, body. unfold decode_payload. by rewrite H.
  - exists 11, 0. eexists. split; [reflexivity|]. unfold decode_payload. by rewrite require_packet_id_bytes.
  - by exists 12, 0, [].
  - by exists 13, 0, [].
  - by exists 14, 0, [].
Qed.

(** The first byte holds the type and the flags. *)
Lemma first_byte t f : 0 <= t < 16 → 0 <= f < 16 →
  Z.shiftr (Z.lor (Z.shiftl t 4) (Z.land f 15)) 4 = t ∧
  Z.land (Z.lor (Z.shiftl t 4) (Z.land f 15)) 15 = f.
Proof.
  intros Ht Hf. change 15 with (Z.ones 4).
  rewrite land_low, Z.mod_small, Z.shiftl_mul_pow2, lor_low, land_low, Z.shiftr_div_pow2 by lia.
  change (2 ^ 4) with 16. Z.to_euclidean_division_equations; lia.
Qed.

Lemma encode_len_loop_pos fuel n : 0 < n → (0 < fuel)%nat → encode_len_loop fuel n ≠ [].
Proof. destruct fuel; simpl; [lia|]. intros H _. by rewrite (proj2 (Z.leb_gt _ _)) by lia. Qed.

Lemma encode_remaining_length_pos n : 0 <= n → (0 < length (encode_remaining_length n))%nat.
Proof.
  intros Hn. unfold encode_remaining_length. destruct (Z.eqb_spec n 0); simpl; [lia|].
  by rewrite (proj2 (Z.leb_gt _ _)) by lia; simpl; lia.
Qed.

(** A length over [MAX_PACKET_SIZE] takes at least three bytes. *)
Lemma encode_remaining_length_three n :
  128 * 128 <= n → (3 <= length (encode_remaining_length n))%nat.
Proof.
  intros Hn. unfold encode_remaining_length. rewrite (proj2 (Z.eqb_neq _ _)) by lia.
  cbn [encode_len_loop].
  assert (128 <= n / 128) by (Z.to_euclidean_division_equations; lia).
  assert (1 <= n / 128 / 128) by (Z.to_euclidean_division_equations; lia).
  rewrite !(proj2 (Z.leb_gt n 0)), !(proj2 (Z.leb_gt (n / 128) 0)),
    !(proj2 (Z.leb_gt (n / 128 / 128) 0)) by lia.
  simpl. lia.
Qed.

Lemma decode_one_frame t f body rest :
  0 <= t < 16 → 0 <= f < 16 → Z.of_nat (length body) <= MAX_PACKET_SIZE →
  decode_one (wrap t f body ++ rest) = (Some <$> decode_payload t f body, rest).
Proof.
  intros Ht Hf Hb. unfold wrap, decode_one. rewrite <-!app_assoc. cbn [app].
  assert (0 <= Z.of_nat (length body) < 128 ^ 4) as Hn by (unfold MAX_PACKET_SIZE in Hb; lia).
  rewrite decode_encode_remaining_length by done.
  set (rl := encode_remaining_length _) in *.
  rewrite (proj2 (Z.ltb_ge _ _)) by lia.
  replace (Z.to_nat (Z.of_nat (length rl) + 1 + Z.of_nat (length body)))
    with (length (Z.lor (Z.shiftl t 4) (Z.land f 15) :: rl ++ body)) by (simpl; rewrite length_app; lia).
  replace (Z.to_nat (Z.of_nat (length rl) + 1)) with (length (Z.lor (Z.shiftl t 4) (Z.land f 15) :: rl))
    by (simpl; lia).
  rewrite (proj2 (Nat.ltb_ge _ _)) by (simpl; rewrite !length_app; lia).
  rewrite (app_assoc rl), (app_comm_cons (rl ++ body)), take_app_length, drop_app_length.
  rewrite app_comm_cons, drop_app_length. by destruct (first_byte t f Ht Hf) as [-> ->].
Qed.

(** A frame of at most [MAX_PACKET_SIZE + 4] bytes has a payload of at most
    [MAX_PACKET_SIZE]. *)
Lemma wrap_length t f body :
  Z.of_nat (length (wrap t f body)) <= MAX_PACKET_SIZE + 4 →
  Z.of_nat (length body) <= MAX_PACKET_SIZE.
Proof.
  unfold wrap. simpl. rewrite length_app. unfold MAX_PACKET_SIZE.
  destruct (decide (Z.of_nat (length body) <= 128 * 128)); [lia|].
  pose proof (encode_remaining_length_three (Z.of_nat (length body))). lia.
Qed.

(** What a decoded length says about its bytes. *)
Lemma decode_len_loop_bound index value m buf r h :
  0 <= index → 0 <= m → 0 <= value → decode_len_loop index value m buf = Ok (Some (r, h)) →
  index + 2 <= h <= 5 ∧ h - 1 - index <= Z.of_nat (length buf) ∧ 0 <= r.
Proof.
  revert index value m. induction buf as [|b buf IH]; intros index value m Hi Hm Hv; simpl; [done|].
  destruct (Z.leb_spec 4 index); [done|].
  assert (0 <= Z.land b 127) by (apply Z.land_nonneg; lia).
  case_match.
  - intros [= <- <-]. split_and!; nia.
  - unfold checked_mul. case_match; simpl; [|done].
    intros H3%IH; lia || nia.
Qed.

(** Appending bytes does not change a decoded length or a length error. *)
Lemma decode_len_loop_app index value m buf more :
  decode_len_loop index value m buf ≠ Ok None →
  decode_len_loop index value m (buf ++ more) = decode_len_loop index value m buf.
Proof.
  revert index value m. induction buf as [|b buf IH]; intros index value m; simpl; [done|].
  case_match; [done|]. case_match; [done|]. unfold checked_mul. case_match; simpl; [|done].
  apply IH.
Qed.

(** An undecided length has at most four bytes. *)
Lemma decode_len_loop_None index value m buf :
  index <= 4 → decode_len_loop index value m buf = Ok None → Z.of_nat (length buf) <= 4 - index.
Proof.
  revert index value m. induction buf as [|b buf IH]; intros index value m Hi; simpl; [lia|].
  destruct (Z.leb_spec 4 index); [done|]. case_match; [done|].
  unfold checked_mul. case_match; simpl; [|done]. intros H3%IH; lia.
Qed.

Lemma decode_one_None buf rest :
  decode_one buf = (Ok None, rest) →
  rest = buf ∧ Z.of_nat (length buf) <= MAX_PACKET_SIZE + 4.
Proof.
  destruct buf as [|first tail]; simpl; [by intros [= <-]; split; [|unfold MAX_PACKET_SIZE; lia]|].
  destruct (decode_remaining_length tail) as [[[r h]|]|e] eqn:E; [| |done].
  - apply decode_len_loop_bound in E as (Hh & _ & Hr); [|lia..].
    destruct (Z.ltb_spec MAX_PACKET_SIZE r); [done|].
    destruct (Nat.ltb_spec (S (length tail)) (Z.to_nat (h + r))).
    + intros [= <-]. split; [done|]. simpl. lia.
    + by destruct (decode_payload _ _ _).
  - apply decode_len_loop_None in E; [|lia]. intros [= <-].
    split; [done|]. simpl. unfold MAX_PACKET_SIZE. lia.
Qed.

Lemma decode_one_Some buf p rest :
  decode_one buf = (Ok (Some p), rest) → (length rest < length buf)%nat.
Proof.
  destruct buf as [|first tail]; simpl; [done|].
  destruct (decode_remaining_length tail) as [[[r h]|]|e] eqn:E; [|done..].
  apply decode_len_loop_bound in E as (Hh & _ & Hr); [|lia..].
  case_match; [done|]. case_match; [done|].
  intros [= _ <-]. rewrite length_drop. simpl. lia.
Qed.

Lemma decode_one_app buf more r rest :
  decode_one buf = (r, rest) → r ≠ Ok None → decode_one (buf ++ more) = (r, rest ++ more).
Proof.
  intros H Hr. destruct buf as [|first tail]; simpl in *; [by simplify_eq|].
  unfold decode_remaining_length in *.
  destruct (decode_len_loop 0 0 1 tail) as [o|e] eqn:E.
  2:{ simplify_eq. by rewrite decode_len_loop_app, E by (by rewrite E). }
  destruct o as [[n h]|]; [|by simplify_eq].
  rewrite decode_len_loop_app, E by (by rewrite E).
  apply decode_len_loop_bound in E as (Hh & _ & Hn); [|lia..].
  destruct (Z.ltb_spec MAX_PACKET_SIZE n); [by simplify_eq|].
  destruct (Nat.ltb_spec (S (length tail)) (Z.to_nat (h + n))) as [|Hl]; [by simplify_eq|].
  rewrite (proj2 (Nat.ltb_ge _ _)) by (rewrite length_app; lia).
  rewrite app_comm_cons, take_app_le, drop_app_le by (simpl; lia). by simplify_eq.
Qed.

(** * Lemmas: the read loops *)

(** The rounds on a buffer, with enough fuel. *)
Definition rounds (accepts : nat → bool) (sent : nat) (buf : list Z) :=
  drain (S (length buf)) accepts sent buf.

Lemma drain_fuel accepts fuel sent buf :
  (length buf < fuel)%nat → drain fuel accepts sent buf = rounds accepts sent buf.
Proof.
  unfold rounds. generalize (Nat.lt_succ_diag_r (length buf)). generalize (S (length buf)).
  intros k. revert fuel sent buf. induction k as [|k IH]; intros fuel sent buf Hk Hf; [lia|].
  destruct fuel as [|fuel]; [lia|]. cbn [drain].
  destruct (decode_one buf) as [[[p|]|e] rest] eqn:E; [|done..].
  apply decode_one_Some in E. by rewrite (IH fuel) by lia.
Qed.

(** One round; the guard on the buffer's length never ends the loop. *)
Lemma rounds_step accepts sent buf :
  rounds accepts sent buf =
  match decode_one buf with
  | (Ok (Some p), rest) =>
      if accepts sent
      then let '(ps, r) := rounds accepts (S sent) rest in (p :: ps, r)
      else ([], None)
  | (Ok None, _) => ([], Some buf)
  | (Err _, _) => ([], None)
  end.
Proof.
  unfold rounds at 1. cbn [drain].
  destruct (decode_one buf) as [[[p|]|e] rest] eqn:E; [| |done].
  - apply decode_one_Some in E. by rewrite drain_fuel by lia.
  - apply decode_one_None in E as [-> E]. by rewrite (proj2 (Z.ltb_ge _ _)) by lia.
Qed.

(** Bytes that arrive later continue the rounds where they stopped. *)
Lemma rounds_app accepts sent buf more :
  rounds accepts sent (buf ++ more) =
  let '(ps, r) := rounds accepts sent buf in
  match r with
  | None => (ps, None)
  | Some rest =>
      let '(qs, r) := rounds accepts (sent + length ps) (rest ++ more) in (ps ++ qs, r)
  end.
Proof.
  remember (length buf) as n eqn:Hn. revert sent buf Hn.
  induction (lt_wf n) as [n _ IH]; intros sent buf ->.
  rewrite (rounds_step _ _ buf).
  destruct (decode_one buf) as [[[p|]|e] rest] eqn:E.
  - rewrite rounds_step, (decode_one_app _ _ _ _ E) by done.
    apply decode_one_Some in E. destruct (accepts sent); [|done].
    rewrite (IH (length rest)) by (done || lia).
    destruct (rounds accepts (S sent) rest) as [ps [r|]]; [|done].
    cbn [length]. rewrite Nat.add_succ_r. simpl. by destruct (rounds accepts _ _).
  - rewrite Nat.add_0_r. by destruct (rounds accepts sent _).
  - by rewrite rounds_step, (decode_one_app _ _ _ _ E) by done.
Qed.

(** The bytes a stream carries before it ends. *)
Fixpoint stream_bytes (events : list ReadEvent) : list Z :=
  match events with Data bytes :: events => bytes ++ stream_bytes events | _ => [] end.

Fixpoint ws_bytes (events : list WsEvent) : list Z :=
  match events with
  | WsBinary data :: events => data ++ ws_bytes events
  | WsText text :: events => as_bytes text ++ ws_bytes events
  | (WsPing | WsPong) :: events => ws_bytes events
  | _ => []
  end.

(** What is left after the rounds holds no further packet. *)
Lemma rounds_rest accepts sent buf ps rest :
  rounds accepts sent buf = (ps, Some rest) →
  (rounds accepts (sent + length ps) (rest ++ [])).1 = [].
Proof.
  intros H. pose proof (rounds_app accepts sent buf []) as Happ.
  rewrite app_nil_r, H in Happ. cbv beta iota zeta in Happ.
  destruct (rounds accepts _ (rest ++ [])) as [qs r]. simpl.
  apply (f_equal (length ∘ fst)) in Happ. simpl in Happ. rewrite length_app in Happ.
  destruct qs; [done|]. simpl in Happ. lia.
Qed.

Lemma tcp_read_loop_rounds accepts sent buf events :
  tcp_read_loop accepts sent buf events = (rounds accepts sent (buf ++ stream_bytes events)).1.
Proof.
  revert sent buf. induction events as [|[bytes|] events IH]; intros sent buf;
    rewrite rounds_app; cbn [tcp_read_loop stream_bytes]; fold (rounds accepts sent buf);
    destruct (rounds accepts sent buf) as [ps [rest|]] eqn:E; rewrite ?app_nil_r; try done.
  - apply rounds_rest in E. rewrite app_nil_r in E. destruct (rounds accepts _ rest).
    simpl in *. subst. by rewrite app_nil_r.
  - rewrite IH, <-app_assoc. by destruct (rounds accepts _ (rest ++ _)).
  - apply rounds_rest in E. rewrite app_nil_r in E. destruct (rounds accepts _ rest).
    simpl in *. subst. by rewrite app_nil_r.
Qed.

Lemma ws_read_loop_rounds accepts sent buf events :
  ws_read_loop accepts sent buf events = (rounds accepts sent (buf ++ ws_bytes events)).1.
Proof.
  revert sent buf. induction events as [|[data|text| | |] events IH]; intros sent buf;
    rewrite rounds_app; cbn [ws_read_loop ws_bytes]; fold (rounds accepts sent buf);
    destruct (rounds accepts sent buf) as [ps [rest|]] eqn:E; rewrite ?app_nil_r; try done.
  - apply rounds_rest in E. rewrite app_nil_r in E. destruct (rounds accepts _ rest).
    simpl in *. subst. by rewrite app_nil_r.
  - rewrite IH, <-app_assoc. by destruct (rounds accepts _ (rest ++ _)).
  - rewrite IH, <-app_assoc. by destruct (rounds accepts _ (rest ++ _)).
  - rewrite IH. by destruct (rounds accepts _ (rest ++ _)).
  - rewrite IH. by destruct (rounds accepts _ (rest ++ _)).
  - apply rounds_rest in E. rewrite app_nil_r in E. destruct (rounds accepts _ rest).
    simpl in *. subst. by rewrite app_nil_r.
Qed.

(** A packet a peer may send: well formed and within the size limit. *)
Definition sendable (p : Packet) : Prop :=
  wf_packet p ∧ Z.of_nat (length (encode p)) <= MAX_PACKET_SIZE + 4.

Lemma decode_one_encode p rest :
  sendable p → decode_one (encode p ++ rest) = (Ok (Some p), rest).
Proof.
  intros [Hwf Hl]. apply encode_frame in Hwf as (t & f & body & He & Ht & Hf & Hd).
  rewrite He in *. apply wrap_length in Hl. by rewrite decode_one_frame, Hd.
Qed.

Lemma rounds_encode sent ps :
  Forall sendable ps → rounds (λ _, true) sent (concat (map encode ps)) = (ps, Some []).
Proof.
  intros H. revert sent. induction H as [|p ps Hp _ IH]; intros sent; [done|].
  simpl. by rewrite rounds_step, decode_one_encode, IH.
Qed.

(** * Properties *)

(** C17: Encoding and decoding are inverse: from a buffer that starts with an
    encoded well-formed packet of at most [MAX_PACKET_SIZE] payload bytes,
    [decode_one] returns that packet and leaves the bytes after it. *)
Theorem decode_encode_roundtrip p rest :
  wf_packet p → Z.of_nat (length (encode p)) <= MAX_PACKET_SIZE + 4 →
  decode_one (encode p ++ rest) = (Ok (Some p), rest).
Proof. intros. by apply decode_one_encode. Qed.

Lemma decode_encode_roundtrip_witness :
  decode_one (encode (PPublish {| dup := false; pub_qos := 1; retain := false;
    pub_topic := "a/b"; pub_packet_id := Some 300; pub_payload := [1; 2; 3] |}) ++ [192; 0])
  = (Ok (Some (PPublish {| dup := false; pub_qos := 1; retain := false;
    pub_topic := "a/b"; pub_packet_id := Some 300; pub_payload := [1; 2; 3] |})), [192; 0]).
Proof.
  apply decode_encode_roundtrip; [|by vm_compute].
  split; [by split; vm_compute|]. split; [by left|]. by vm_compute.
Defined.



(** [decode_one] frames a byte stream correctly whatever the bytes are.
    When it asks for more bytes it leaves the buffer as it was, and the buffer is
    at most [MAX_PACKET_SIZE + 4] long, so the read loops' own length guard never
    fires; a decoded packet consumes at least one byte, and it, or an error, does
    not depend on the bytes that arrive later. *)
Theorem decode_one_framing buf more :
  match decode_one buf with
  | (Ok None, rest) => rest = buf ∧ Z.of_nat (length buf) <= MAX_PACKET_SIZE + 4
  | (Ok (Some p), rest) =>
      (length rest < length buf)%nat ∧ decode_one (buf ++ more) = (Ok (Some p), rest ++ more)
  | (Err e, rest) => decode_one (buf ++ more) = (Err e, rest ++ more)
  end.
Proof.
  destruct (decode_one buf) as [[[p|]|e] rest] eqn:E.
  - split; [by eapply decode_one_Some|by apply decode_one_app].
  - by apply decode_one_None.
  - by apply decode_one_app.
Qed.

(** A frame whose payload exceeds [MAX_PACKET_SIZE] (and whose length still
    fits the four length bytes) is refused as [TooLarge] as soon as its header
    is in the buffer, whatever its type and before its payload arrives. *)
Theorem oversized_frame_refused first n rest :
  MAX_PACKET_SIZE < n → n < 128 ^ 4 →
  decode_one (first :: encode_remaining_length n ++ rest) =
  (Err TooLarge, first :: encode_remaining_length n ++ rest).
Proof.
  intros Hn H4. unfold decode_one.
  rewrite decode_encode_remaining_length by (unfold MAX_PACKET_SIZE in Hn; lia).
  by rewrite (proj2 (Z.ltb_lt _ _)) by lia.
Qed.

Lemma oversized_frame_refused_witness :
  decode_one (48 :: encode_remaining_length 2000000 ++ []) =
  (Err TooLarge, 48 :: encode_remaining_length 2000000 ++ []).
Proof. by apply oversized_frame_refused; vm_compute. Defined.

(** The packets a connection hands to its session depend only on the bytes
    received, not on how reads split them, for TCP and for WebSocket (binary and
    text frames concatenated, pings and pongs ignored); this includes streams
    with malformed packets and sessions that stop receiving. *)
Theorem read_loops_chunking accepts events ws_events :
  stream_bytes events = ws_bytes ws_events →
  tcp_read_loop accepts 0 [] events = tcp_read_loop accepts 0 [] [Data (stream_bytes events)] ∧
  ws_read_loop accepts 0 [] ws_events = tcp_read_loop accepts 0 [] events.
Proof.
  intros H. rewrite ws_read_loop_rounds, !tcp_read_loop_rounds. simpl.
  by rewrite app_nil_r, H.
Qed.

Lemma read_loops_chunking_witness :
  tcp_read_loop (λ _, true) 0 [] [Data [192]; Data [0; 192; 0]; Eof] =
  tcp_read_loop (λ _, true) 0 [] [Data [192; 0; 192; 0]] ∧
  ws_read_loop (λ _, true) 0 [] [WsBinary [192; 0]; WsPing; WsBinary [192; 0]] =
  tcp_read_loop (λ _, true) 0 [] [Data [192]; Data [0; 192; 0]; Eof].
Proof.
  by apply (read_loops_chunking (λ _, true) [Data [192]; Data [0; 192; 0]; Eof]
              [WsBinary [192; 0]; WsPing; WsBinary [192; 0]]).
Defined.

(** End to end over the wire: when a peer sends well-formed packets within
    the size limit, the session receives exactly those packets in order, however
    the transport splits the bytes. *)
Theorem wire_delivers_packets ps events :
  Forall sendable ps → stream_bytes events = concat (map encode ps) →
  tcp_read_loop (λ _, true) 0 [] events = ps.
Proof. intros Hps H. by rewrite tcp_read_loop_rounds, H, app_nil_l, rounds_encode. Qed.

Lemma wire_delivers_packets_witness :
  tcp_read_loop (λ _, true) 0 [] [Data [64]; Data [2; 1]; Data [44; 192; 0]; Eof] =
  [PPubAck 300; PPingReq].
Proof.
  apply wire_delivers_packets; [|by vm_compute].
  repeat constructor; try done; by vm_compute.
Defined.

End Codec.
