(* ===== verification/Effects.v ===== *)
(** The effects of the server code: a state monad with errors in which clock
    readings, fresh identifiers, storage faults and unspecified orders come from
    an oracle, and the interfaces of the libraries that code calls (chrono,
    serde_json).

    A computation runs in a [World]: the state of the component and the number
    of questions already put to the oracle.  SQL statements are functions of the
    state that may be refused by the storage; in-memory updates under a lock are
    functions of the state that are not.  [Keeps R m] says that [m] relates the
    state before to the state after by [R], whatever the oracle answers, and is
    compositional for preorders. *)

From stdpp Require Import pretty.
From S2P Require Import Prelude RustStr.

(** * The outside world *)

(** What the program asks of its environment, question by question. *)
Class Oracle := {
  (** [Utc::now()] and [SystemTime::now()], in nanoseconds since the epoch. *)
  clock : nat → Z;
  (** [Uuid::new_v4().to_string()]. *)
  uuid : nat → string;
  (** Whether the storage refuses a statement, and its message. *)
  fault : nat → option string;
  (** The order in which a [HashMap] is iterated, or in which rows come out of a
      query without [ORDER BY]. *)
  any_order : ∀ {A : Type}, nat → list A → list A
}.

(** An unspecified order is some order of the same elements. *)
Class OrderLaws `{Oracle} : Prop := {
  any_order_perm : ∀ A n (l : list A), any_order n l ≡ₚ l
}.

(** Version-4 identifiers do not repeat. *)
Class UuidLaws `{Oracle} : Prop := {
  uuid_inj : Inj (=) (=) uuid
}.

(** chrono's part of the code. *)
Class Chrono := {
  (** [DateTime::to_rfc3339]. *)
  to_rfc3339 : Z → string;
  (** [DateTime::parse_from_rfc3339(_).ok()], as nanoseconds. *)
  parse_from_rfc3339 : string → option Z;
  (** [format("%Y-%m-%dT%H:%M:00Z")]. *)
  format_minute : Z → string;
  (** [chrono::Duration::from_std(_).ok()]. *)
  duration_from_std : Z → option Z;
  (** [DateTime + Duration]; [None] stands for its overflow panic. *)
  add_duration : Z → Z → option Z;
  (** [chrono::Duration::seconds], as nanoseconds; [None] stands for its panic. *)
  duration_seconds : Z → option Z;
  (** [DateTime::from_timestamp_millis], as nanoseconds. *)
  from_timestamp_millis : Z → option Z
}.

(** The last instant of year 9999, the last one RFC 3339 can write. *)
Definition TIME_END : Z := 253402300800 * 10 ^ 9.

Definition time_ok (t : Z) : Prop := 0 <= t < TIME_END.

#[export] Instance time_ok_dec t : Decision (time_ok t).
Proof. unfold time_ok. apply _. Defined.

(** RFC 3339 text in UTC is ordered as time is, and parses back; sums of
    representable instants do not overflow; a number of seconds is a duration
    when its milliseconds fit an [i64]. *)
Class ChronoLaws `{Chrono} : Prop := {
  rfc3339_order a b :
    time_ok a → time_ok b → str_leb (to_rfc3339 a) (to_rfc3339 b) = (a <=? b);
  rfc3339_parse a : time_ok a → parse_from_rfc3339 (to_rfc3339 a) = Some a;
  add_duration_sum t d t' : add_duration t d = Some t' → t' = t + d;
  add_duration_ok t d : time_ok t → time_ok (t + d) → add_duration t d = Some (t + d);
  duration_seconds_spec s :
    duration_seconds s = if Z.abs s <=? I64_MAX / 1000 then Some (s * 10 ^ 9) else None
}.

Lemma rfc3339_ltb `{ChronoLaws} a b :
  time_ok a → time_ok b → str_ltb (to_rfc3339 a) (to_rfc3339 b) = (a <? b).
Proof.
  intros. unfold str_ltb. rewrite rfc3339_order by done.
  rewrite Z.ltb_antisym. done.
Qed.

(** * The monad *)

(** [anyhow::Error], [sqlx::Error] and panics, by their message. *)
Inductive Error := Failure (message : string) | Panicked (message : string).

(** [tonic::Status], by code; [Aborted] is a handler that panicked, whose call
    ends without an answer. *)
Inductive Status :=
  | InvalidArgument (message : string)
  | Unauthenticated (message : string)
  | Internal (message : string)
  | Aborted (message : string).

(** [map_err(|error| f(error))]: panics are not errors and pass through. *)
Definition status_of (f : string → Status) (e : Error) : Status :=
  match e with
  | Failure message => f message
  | Panicked message => Aborted message
  end.

Record World (St : Type) := mkWorld { st : St; tick : nat }.
Arguments mkWorld {St} _ _.
Arguments st {St} _.
Arguments tick {St} _.

(** A computation that fails with an [E]. *)
Definition M (E St A : Type) : Type := World St → result E A * World St.

#[export] Instance M_ret {E St} : MRet (M E St) := λ A a w, (Ok a, w).
#[export] Instance M_bind {E St} : MBind (M E St) := λ A B f m w,
  match m w with
  | (Ok a, w) => f a w
  | (Err e, w) => (Err e, w)
  end.
#[export] Instance M_fmap {E St} : FMap (M E St) := λ A B f m w,
  match m w with
  | (Ok a, w) => (Ok (f a), w)
  | (Err e, w) => (Err e, w)
  end.

(** An early failure: [bail!], the [Err] branch of [?] and [panic!]. *)
Definition fail {E St A} (e : E) : M E St A := λ w, (Err e, w).

Definition lift {E St A} (r : result E A) : M E St A := λ w, (r, w).

(** [m.map_err(f)]. *)
Definition map_err_with {E F St A} (f : E → F) (m : M E St A) : M F St A :=
  λ w, let '(r, w) := m w in (map_err f r, w).

(** [m] with its error as a value: [if let Err(e) = m], [let _ = m]; a panic
    still unwinds. *)
Definition attempt {St A} (m : M Error St A) : M Error St (result Error A) := λ w,
  match m w with
  | (Err (Panicked message), w) => (Err (Panicked message), w)
  | (r, w) => (Ok r, w)
  end.

(** An in-memory update under a lock. *)
Definition mem {E St A} (f : St → A * St) : M E St A :=
  λ w, let '(a, s) := f (st w) in (Ok a, mkWorld s (tick w)).

(** A computation on a part of the state. *)
Definition zoom {E St Sub A} (get : St → Sub) (put : Sub → St → St) (m : M E Sub A) : M E St A :=
  λ w, let '(r, w') := m (mkWorld (get (st w)) (tick w)) in
       (r, mkWorld (put (st w') (st w)) (tick w')).

Section effects.
Context `{Oracle}.

(** [Utc::now()]. *)
Definition now {E St} : M E St Z := λ w, (Ok (clock (tick w)), mkWorld (st w) (S (tick w))).

(** [Utc::now().to_rfc3339()]. *)
Definition rfc_now `{Chrono} {E St} : M E St string := to_rfc3339 <$> now.

(** [DateTime + Duration], which panics on overflow. *)
Definition add_time `{Chrono} {St} (t d : Z) : M Error St Z :=
  if add_duration t d is Some t' then mret t'
  else fail (Panicked "`DateTime + TimeDelta` overflowed").

(** [Duration::seconds(secs)], which panics out of its range. *)
Definition seconds `{Chrono} {St} (secs : Z) : M Error St Z :=
  if duration_seconds secs is Some d then mret d
  else fail (Panicked "TimeDelta::seconds out of bounds").

(** [Uuid::new_v4().to_string()]. *)
Definition new_uuid {E St} : M E St string := λ w, (Ok (uuid (tick w)), mkWorld (st w) (S (tick w))).

(** A list in an unspecified order. *)
Definition unordered {E St A} (l : list A) : M E St (list A) :=
  λ w, (Ok (any_order (tick w) l), mkWorld (st w) (S (tick w))).

(** One SQL statement; it may depend on an unspecified row order. *)
Definition stmt_at {St A} (f : nat → St → A * St) : M Error St A := λ w,
  match fault (tick w) with
  | Some message => (Err (Failure message), mkWorld (st w) (S (tick w)))
  | None => let '(a, s) := f (tick w) (st w) in (Ok a, mkWorld s (S (tick w)))
  end.

Definition stmt {St A} (f : St → A * St) : M Error St A := stmt_at (λ _, f).

(** A SQL query: a statement that does not write. *)
Definition query {St A} (f : St → A) : M Error St A := stmt (λ s, (f s, s)).

(** [begin], a body and [commit]; when any of them fails the transaction is
    rolled back: [restore s0 s1] is [s1] with the transaction's database as it
    was in [s0]. *)
Definition transaction {St A} (restore : St → St → St) (body : M Error St A) : M Error St A := λ w,
  match query (λ _, ()) w with
  | (Err e, w1) => (Err e, w1)
  | (Ok _, w1) =>
      match body w1 with
      | (Err e, w2) => (Err e, mkWorld (restore (st w1) (st w2)) (tick w2))
      | (Ok a, w2) =>
          match query (λ _, ()) w2 with
          | (Err e, w3) => (Err e, mkWorld (restore (st w1) (st w3)) (tick w3))
          | (Ok _, w3) => (Ok a, w3)
          end
      end
  end.

End effects.

(** [for x in l { f(x)?; }]. *)
Fixpoint for_each {E St A} (l : list A) (f : A → M E St ()) : M E St () :=
  match l with
  | [] => mret ()
  | x :: l => _ ← f x; for_each l f
  end.

(** [for x in l] with an accumulator. *)
Fixpoint fold_each {E St A B} (l : list A) (acc : B) (f : B → A → M E St B) : M E St B :=
  match l with
  | [] => mret acc
  | x :: l => acc ← f acc x; fold_each l acc f
  end.

(** * What a computation does to the state *)

Definition Keeps {E St A} (R : relation St) (m : M E St A) : Prop :=
  ∀ w, R (st w) (st (m w).2).

Create HintDb keeps.

Section keeps.
Context {E St : Type} (R : relation St) `{!PreOrder R}.

Lemma keeps_ret {A} (a : A) : Keeps (E:=E) R (mret a).
Proof. intros w. simpl. reflexivity. Qed.

Lemma keeps_fail {A} e : Keeps R (fail (E:=E) (A:=A) e).
Proof. intros w. simpl. reflexivity. Qed.

Lemma keeps_lift {A} (r : result E A) : Keeps R (lift r).
Proof. intros w. simpl. reflexivity. Qed.

Lemma keeps_bind {A B} (m : M E St A) (f : A → M E St B) :
  Keeps R m → (∀ a, Keeps R (f a)) → Keeps R (m ≫= f).
Proof.
  intros Hm Hf w. specialize (Hm w). unfold mbind, M_bind.
  destruct (m w) as [[a|e] w1]; simpl in *; [|done]. etrans; [done|apply Hf].
Qed.

(** The same with what is known of the intermediate result. *)
Lemma keeps_bind_post {A B} (P : A → Prop) (m : M E St A) (f : A → M E St B) :
  (∀ w a w', m w = (Ok a, w') → P a) → Keeps R m → (∀ a, P a → Keeps R (f a)) →
  Keeps R (m ≫= f).
Proof.
  intros HP Hm Hf w. specialize (Hm w). unfold mbind, M_bind.
  destruct (m w) as [[a|e] w1] eqn:Em; simpl in *; [|done].
  etrans; [done|]. eapply Hf, HP, Em.
Qed.

Lemma keeps_fmap {A B} (f : A → B) (m : M E St A) : Keeps R m → Keeps R (f <$> m).
Proof.
  intros Hm w. specialize (Hm w). unfold fmap, M_fmap.
  by destruct (m w) as [[a|e] w1]; simpl in *.
Qed.

Lemma keeps_attempt {A} (m : M Error St A) : Keeps R m → Keeps R (attempt m).
Proof. intros Hm w. specialize (Hm w). unfold attempt. by destruct (m w) as [[a|[]] w']. Qed.

Lemma keeps_map_err {F A} (f : F → E) (m : M F St A) : Keeps R m → Keeps R (map_err_with f m).
Proof. intros Hm w. specialize (Hm w). unfold map_err_with. by destruct (m w). Qed.

Lemma keeps_mem {A} (f : St → A * St) : (∀ s, R s (f s).2) → Keeps (E:=E) R (mem f).
Proof. intros Hf w. specialize (Hf (st w)). unfold mem. by destruct (f (st w)). Qed.

Lemma keeps_now `{Oracle} : Keeps (E:=E) R now.
Proof. intros w. simpl. reflexivity. Qed.

Lemma keeps_rfc_now `{Oracle, Chrono} : Keeps (E:=E) R rfc_now.
Proof. intros w. simpl. reflexivity. Qed.

Lemma keeps_new_uuid `{Oracle} : Keeps (E:=E) R new_uuid.
Proof. intros w. simpl. reflexivity. Qed.

Lemma keeps_unordered `{Oracle} {A} (l : list A) : Keeps (E:=E) R (unordered l).
Proof. intros w. simpl. reflexivity. Qed.

Lemma keeps_stmt_at `{Oracle} {A} (f : nat → St → A * St) :
  (∀ n s, R s (f n s).2) → Keeps R (stmt_at f).
Proof.
  intros Hf w. unfold stmt_at. destruct (fault (tick w)); simpl; [reflexivity|].
  specialize (Hf (tick w) (st w)). by destruct (f (tick w) (st w)).
Qed.

Lemma keeps_stmt `{Oracle} {A} (f : St → A * St) : (∀ s, R s (f s).2) → Keeps R (stmt f).
Proof. intros Hf. apply keeps_stmt_at. by intros. Qed.

Lemma keeps_query `{Oracle} {A} (f : St → A) : Keeps R (query f).
Proof. apply keeps_stmt. intros s. simpl. reflexivity. Qed.

Lemma keeps_add_time `{Chrono} t d : Keeps R (add_time t d).
Proof. unfold add_time. destruct (add_duration t d); intros w; simpl; reflexivity. Qed.

Lemma keeps_seconds `{Chrono} secs : Keeps R (seconds secs).
Proof. unfold seconds. destruct (duration_seconds secs); intros w; simpl; reflexivity. Qed.

Lemma keeps_for_each {A} (l : list A) (f : A → M E St ()) :
  (∀ a, a ∈ l → Keeps R (f a)) → Keeps R (for_each l f).
Proof.
  induction l as [|x l IH]; intros Hf; simpl; [apply keeps_ret|].
  apply keeps_bind; [apply Hf; left|]. intros _. apply IH. intros a Ha. apply Hf. by right.
Qed.

Lemma keeps_fold_each {A B} (l : list A) (acc : B) (f : B → A → M E St B) :
  (∀ acc a, a ∈ l → Keeps R (f acc a)) → Keeps R (fold_each l acc f).
Proof.
  revert acc. induction l as [|x l IH]; intros acc Hf; simpl; [apply keeps_ret|].
  apply keeps_bind; [apply Hf; left|]. intros b. apply IH. intros c a Ha. apply Hf. by right.
Qed.

(** A transaction keeps [R] when its body does and [R] survives the rollback. *)
Lemma keeps_transaction `{Oracle} {A} restore (body : M Error St A) :
  (∀ s s', R s s' → R s (restore s s')) → Keeps R body → Keeps R (transaction restore body).
Proof.
  intros Hr Hb w. unfold transaction, query, stmt, stmt_at.
  destruct (fault (tick w)); simpl; [reflexivity|].
  pose proof (Hb (mkWorld (st w) (S (tick w)))) as Hb1.
  destruct (body _) as [[a|e] w2]; simpl in *; [|by apply Hr].
  destruct (fault (tick w2)); simpl; [by apply Hr|done].
Qed.

End keeps.

(** Reduces [Keeps R m] for a program [m] to the statements it is made of. *)
Ltac keeps_step :=
  lazymatch goal with
  | |- Keeps _ (mret _) => apply keeps_ret; apply _
  | |- Keeps _ (fail _) => apply keeps_fail; apply _
  | |- Keeps _ (lift _) => apply keeps_lift; apply _
  | |- Keeps _ (_ ≫= _) => apply keeps_bind; [apply _| |intros ?]
  | |- Keeps _ (_ <$> _) => apply keeps_fmap
  | |- Keeps _ (attempt _) => apply keeps_attempt
  | |- Keeps _ (map_err_with _ _) => apply keeps_map_err
  | |- Keeps _ now => apply keeps_now; apply _
  | |- Keeps _ rfc_now => apply keeps_rfc_now; apply _
  | |- Keeps _ (add_time _ _) => apply keeps_add_time; apply _
  | |- Keeps _ (seconds _) => apply keeps_seconds; apply _
  | |- Keeps _ new_uuid => apply keeps_new_uuid; apply _
  | |- Keeps _ (unordered _) => apply keeps_unordered; apply _
  | |- Keeps _ (query _) => apply keeps_query; apply _
  | |- Keeps _ (stmt_at _) => apply keeps_stmt_at; [apply _|intros ? ?]
  | |- Keeps _ (stmt _) => apply keeps_stmt; [apply _|intros ?]
  | |- Keeps _ (mem _) => apply keeps_mem; intros ?
  | |- Keeps _ (for_each _ _) => apply keeps_for_each; [apply _|intros ? ?]
  | |- Keeps _ (fold_each _ _ _) => apply keeps_fold_each; [apply _|intros ? ? ?]
  | |- Keeps _ (match ?x with _ => _ end) => destruct x eqn:?
  end.

Ltac keeps_go := repeat keeps_step.

(** * Computations that cannot panic *)

Definition NoPanic {St A} (m : M Error St A) : Prop := ∀ w message, (m w).1 ≠ Err (Panicked message).

Section no_panic.
Context `{Oracle} {St : Type}.

Lemma no_panic_bind {A B} (m : M Error St A) (f : A → M Error St B) :
  NoPanic m → (∀ a, NoPanic (f a)) → NoPanic (m ≫= f).
Proof.
  intros Hm Hf w message. specialize (Hm w message). unfold mbind, M_bind.
  destruct (m w) as [[a|e] w']; [apply Hf|naive_solver].
Qed.

Lemma no_panic_stmt_at {A} (f : nat → St → A * St) : NoPanic (stmt_at f).
Proof. intros w message. unfold stmt_at. by destruct (fault (tick w)); [|destruct (f _ _)]. Qed.

Lemma no_panic_for_each {A} (l : list A) (f : A → M Error St ()) :
  (∀ a, NoPanic (f a)) → NoPanic (for_each l f).
Proof. intros Hf. induction l as [|x l IH]; simpl; [by intros w|by apply no_panic_bind]. Qed.

Lemma no_panic_fold_each {A B} (l : list A) (acc : B) (f : B → A → M Error St B) :
  (∀ acc a, NoPanic (f acc a)) → NoPanic (fold_each l acc f).
Proof.
  intros Hf. revert acc. induction l as [|x l IH]; intros acc; simpl; [by intros w|by apply no_panic_bind].
Qed.

Lemma no_panic_transaction {A} restore (body : M Error St A) :
  NoPanic body → NoPanic (transaction restore body).
Proof.
  intros Hb w message. unfold transaction, query, stmt, stmt_at. destruct (fault (tick w)); [done|].
  specialize (Hb (mkWorld (st w) (S (tick w))) message). cbn [fst].
  destruct (body _) as [[a|e] w']; [|naive_solver]. by destruct (fault (tick w')).
Qed.

Lemma no_panic_ret {A} (a : A) : NoPanic (St:=St) (mret a).
Proof. by intros w. Qed.

Lemma no_panic_failure {A} message : NoPanic (St:=St) (A:=A) (fail (Failure message)).
Proof. by intros w. Qed.

Lemma no_panic_now : NoPanic (St:=St) now.
Proof. by intros w. Qed.

Lemma no_panic_unordered {A} (l : list A) : NoPanic (St:=St) (unordered l).
Proof. by intros w. Qed.

Lemma no_panic_mem {A} (f : St → A * St) : NoPanic (mem f).
Proof. intros w message. unfold mem. by destruct (f (st w)). Qed.

Lemma no_panic_rfc_now `{Chrono} : NoPanic (St:=St) rfc_now.
Proof. by intros w. Qed.

End no_panic.

(** Proves [NoPanic m] for a program [m] after its definitions are unfolded. *)
Ltac no_panic_step :=
  lazymatch goal with
  | |- NoPanic (mret _) => apply no_panic_ret
  | |- NoPanic (fail (Failure _)) => apply no_panic_failure
  | |- NoPanic rfc_now => apply no_panic_rfc_now
  | |- NoPanic now => apply no_panic_now
  | |- NoPanic (unordered _) => apply no_panic_unordered
  | |- NoPanic (mem _) => apply no_panic_mem
  | |- NoPanic (_ ≫= _) => apply no_panic_bind; [|intros ?]
  | |- NoPanic (stmt_at _) => apply no_panic_stmt_at
  | |- NoPanic (stmt _) => apply no_panic_stmt_at
  | |- NoPanic (query _) => apply no_panic_stmt_at
  | |- NoPanic (transaction _ _) => apply no_panic_transaction
  | |- NoPanic (for_each _ _) => apply no_panic_for_each; intros ?
  | |- NoPanic (fold_each _ _ _) => apply no_panic_fold_each; intros ? ?
  | |- NoPanic (match ?x with _ => _ end) => destruct x eqn:?
  end.

Ltac no_panic_go := repeat no_panic_step.

(** * The questions a computation puts to the oracle *)

(** A computation only moves on in the sequence of questions. *)
Definition Ticks {E St A} (m : M E St A) : Prop := ∀ w, (tick w <= tick (m w).2)%nat.

Section ticks.
Context {E St : Type}.

Lemma ticks_ret {A} (a : A) : Ticks (E:=E) (St:=St) (mret a).
Proof. intros w. simpl. lia. Qed.
Lemma ticks_fail {A} e : Ticks (E:=E) (St:=St) (A:=A) (fail e).
Proof. intros w. simpl. lia. Qed.
Lemma ticks_lift {A} (r : result E A) : Ticks (St:=St) (lift r).
Proof. intros w. simpl. lia. Qed.
Lemma ticks_bind {A B} (m : M E St A) (f : A → M E St B) :
  Ticks m → (∀ a, Ticks (f a)) → Ticks (m ≫= f).
Proof.
  intros Hm Hf w. specialize (Hm w). unfold mbind, M_bind.
  destruct (m w) as [[a|e] w1]; simpl in *; [|done]. etrans; [done|apply Hf].
Qed.
Lemma ticks_fmap {A B} (f : A → B) (m : M E St A) : Ticks m → Ticks (f <$> m).
Proof.
  intros Hm w. specialize (Hm w). unfold fmap, M_fmap. by destruct (m w) as [[a|e] w1]; simpl in *.
Qed.
Lemma ticks_attempt {A} (m : M Error St A) : Ticks m → Ticks (attempt m).
Proof. intros Hm w. specialize (Hm w). unfold attempt. by destruct (m w) as [[a|[]] w']. Qed.
Lemma ticks_map_err {F A} (f : F → E) (m : M F St A) : Ticks m → Ticks (map_err_with f m).
Proof. intros Hm w. specialize (Hm w). unfold map_err_with. by destruct (m w). Qed.
Lemma ticks_mem {A} (f : St → A * St) : Ticks (E:=E) (mem f).
Proof. intros w. unfold mem. destruct (f (st w)). simpl. lia. Qed.
Lemma ticks_for_each {A} (l : list A) (f : A → M E St ()) :
  (∀ a, Ticks (f a)) → Ticks (for_each l f).
Proof.
  intros Hf. induction l as [|x l IH]; simpl; [apply ticks_ret|]. by apply ticks_bind.
Qed.
Lemma ticks_fold_each {A B} (l : list A) (acc : B) (f : B → A → M E St B) :
  (∀ acc a, Ticks (f acc a)) → Ticks (fold_each l acc f).
Proof.
  intros Hf. revert acc. induction l as [|x l IH]; intros acc; simpl; [apply ticks_ret|].
  by apply ticks_bind.
Qed.

Context `{Oracle}.

Lemma ticks_now : Ticks (E:=E) (St:=St) now.
Proof. intros w. simpl. lia. Qed.
Lemma ticks_new_uuid : Ticks (E:=E) (St:=St) new_uuid.
Proof. intros w. simpl. lia. Qed.
Lemma ticks_unordered {A} (l : list A) : Ticks (E:=E) (St:=St) (unordered l).
Proof. intros w. simpl. lia. Qed.
Lemma ticks_stmt_at {A} (f : nat → St → A * St) : Ticks (stmt_at f).
Proof. intros w. unfold stmt_at. destruct (fault (tick w)); [|destruct (f _ _)]; simpl; lia. Qed.
Lemma ticks_stmt {A} (f : St → A * St) : Ticks (stmt f).
Proof. apply ticks_stmt_at. Qed.
Lemma ticks_query {A} (f : St → A) : Ticks (query f).
Proof. apply ticks_stmt. Qed.
Lemma ticks_transaction {A} restore (body : M Error St A) :
  Ticks body → Ticks (transaction restore body).
Proof.
  intros Hb w. unfold transaction, query, stmt, stmt_at.
  destruct (fault (tick w)); simpl; [lia|].
  specialize (Hb (mkWorld (st w) (S (tick w)))). simpl in Hb.
  destruct (body _) as [[a|e] w2]; simpl in *; [|lia]. destruct (fault (tick w2)); simpl; lia.
Qed.

End ticks.

Ltac ticks_step :=
  lazymatch goal with
  | |- Ticks (mret _) => apply ticks_ret
  | |- Ticks (fail _) => apply ticks_fail
  | |- Ticks (lift _) => apply ticks_lift
  | |- Ticks (_ ≫= _) => apply ticks_bind; [|intros ?]
  | |- Ticks (_ <$> _) => apply ticks_fmap
  | |- Ticks (attempt _) => apply ticks_attempt
  | |- Ticks (map_err_with _ _) => apply ticks_map_err
  | |- Ticks (mem _) => apply ticks_mem
  | |- Ticks now => apply ticks_now
  | |- Ticks new_uuid => apply ticks_new_uuid
  | |- Ticks (unordered _) => apply ticks_unordered
  | |- Ticks (stmt_at _) => apply ticks_stmt_at
  | |- Ticks (stmt _) => apply ticks_stmt
  | |- Ticks (query _) => apply ticks_query
  | |- Ticks (transaction _ _) => apply ticks_transaction
  | |- Ticks (for_each _ _) => apply ticks_for_each; intros ?
  | |- Ticks (fold_each _ _ _) => apply ticks_fold_each; intros ? ?
  | |- Ticks (match ?x with _ => _ end) => destruct x eqn:?
  end.

(** Proves [Ticks m] for a program [m] after its definitions are unfolded. *)
Ltac ticks_go := repeat ticks_step.

(** * Running a computation symbolically *)

Section run.
Context {E St : Type}.
Implicit Type w : World St.

Lemma run_bind {A B} (m : M E St A) (f : A → M E St B) w :
  (m ≫= f) w = match m w with (Ok a, w) => f a w | (Err e, w) => (Err e, w) end.
Proof. done. Qed.
Lemma run_fmap {A B} (m : M E St A) (f : A → B) w :
  (f <$> m) w = match m w with (Ok a, w) => (Ok (f a), w) | (Err e, w) => (Err e, w) end.
Proof. done. Qed.
Lemma run_ret {A} (a : A) w : (mret a : M E St A) w = (Ok a, w).
Proof. done. Qed.
Lemma run_fail {A} e w : (fail e : M E St A) w = (Err e, w).
Proof. done. Qed.
Lemma run_lift {A} (r : result E A) w : lift r w = (r, w).
Proof. done. Qed.
Lemma run_attempt {A} (m : M Error St A) w :
  attempt m w = match m w with
                | (Err (Panicked message), w) => (Err (Panicked message), w)
                | (r, w) => (Ok r, w)
                end.
Proof. done. Qed.
Lemma run_map_err {F A} (f : F → E) (m : M F St A) w :
  map_err_with f m w = let '(r, w) := m w in (map_err f r, w).
Proof. done. Qed.
Lemma run_mem {A} (f : St → A * St) w :
  (mem f : M E St A) w = let '(a, s) := f (st w) in (Ok a, mkWorld s (tick w)).
Proof. done. Qed.

Context `{Oracle}.

Lemma run_now w : (now : M E St Z) w = (Ok (clock (tick w)), mkWorld (st w) (S (tick w))).
Proof. done. Qed.
Lemma run_new_uuid w :
  (new_uuid : M E St string) w = (Ok (uuid (tick w)), mkWorld (st w) (S (tick w))).
Proof. done. Qed.
Lemma run_unordered {A} (l : list A) w :
  (unordered l : M E St _) w = (Ok (any_order (tick w) l), mkWorld (st w) (S (tick w))).
Proof. done. Qed.
Lemma run_stmt {A} (f : St → A * St) w :
  stmt f w = match fault (tick w) with
             | Some message => (Err (Failure message), mkWorld (st w) (S (tick w)))
             | None => let '(a, s) := f (st w) in (Ok a, mkWorld s (S (tick w)))
             end.
Proof. done. Qed.
Lemma run_stmt_at {A} (f : nat → St → A * St) w :
  stmt_at f w = match fault (tick w) with
                | Some message => (Err (Failure message), mkWorld (st w) (S (tick w)))
                | None => let '(a, s) := f (tick w) (st w) in (Ok a, mkWorld s (S (tick w)))
                end.
Proof. done. Qed.
Lemma run_query {A} (f : St → A) w :
  query f w = match fault (tick w) with
              | Some message => (Err (Failure message), mkWorld (st w) (S (tick w)))
              | None => (Ok (f (st w)), mkWorld (st w) (S (tick w)))
              end.
Proof. done. Qed.

End run.

Create Rewrite HintDb run.

#[export] Hint Rewrite @run_bind @run_fmap @run_ret @run_fail @run_lift @run_attempt
  @run_map_err @run_mem @run_now @run_new_uuid @run_unordered @run_stmt @run_stmt_at @run_query : run.

(** Evaluates the head of a computation as far as the oracle's answers are known. *)
Ltac run := repeat (progress (autorewrite with run; cbn [st tick])).

(** * A concrete environment, for evaluating the model

    The clock advances by one second per question, identifiers are numbered,
    nothing fails and orders are as given. *)

Definition demo_start : Z := 1700000000 * 10 ^ 9.

#[local] Instance demo_oracle : Oracle := {
  clock n := demo_start + Z.of_nat n * 10 ^ 9;
  uuid n := pretty n;
  fault _ := None;
  any_order A _ l := l
}.

Lemma demo_order : OrderLaws.
Proof. constructor. by intros. Qed.

(** The same with a clock that stands still. *)
Definition still_oracle : Oracle := {|
  clock n := demo_start + 3600 * 10 ^ 9;
  uuid n := pretty n;
  fault _ := None;
  any_order A _ l := l
|}.

Lemma still_order : OrderLaws (H := still_oracle).
Proof. constructor. by intros. Qed.

Lemma demo_uuid : UuidLaws.
Proof. constructor. simpl. apply _. Qed.

(** Timestamps as fixed-width decimals, which are ordered as RFC 3339 is. *)
#[local] Instance demo_chrono : Chrono := {
  to_rfc3339 t := dec_fixed 21 t;
  parse_from_rfc3339 s := if (String.length s =? 21)%nat then parse_digits 0 s else None;
  format_minute t := dec_fixed 21 (t / (60 * 10 ^ 9));
  duration_from_std d := if d <=? I64_MAX * 10 ^ 6 then Some d else None;
  add_duration t d := if decide (time_ok (t + d)) then Some (t + d) else None;
  duration_seconds s := if Z.abs s <=? I64_MAX / 1000 then Some (s * 10 ^ 9) else None;
  from_timestamp_millis t := if decide (time_ok (t * 10 ^ 6)) then Some (t * 10 ^ 6) else None
}.

Lemma dec_fixed_length k z : String.length (dec_fixed k z) = k.
Proof. revert z. induction k; intros; simpl; [done|]. by rewrite IHk. Qed.

Lemma demo_chrono_laws : ChronoLaws.
Proof.
  assert (∀ t, time_ok t → 0 <= t < 10 ^ Z.of_nat 21) as Hok.
  { intros t [? Ht]. split; [done|]. etrans; [done|]. by vm_compute. }
  constructor.
  - intros a b Ha Hb. unfold to_rfc3339, demo_chrono. apply dec_fixed_leb; by apply Hok.
  - intros a Ha. unfold to_rfc3339, parse_from_rfc3339, demo_chrono.
    rewrite dec_fixed_length, Nat.eqb_refl, parse_dec_fixed by by apply Hok. done.
  - intros t d t'. unfold add_duration, demo_chrono. case_decide; naive_solver.
  - intros t d _ Ht. unfold add_duration, demo_chrono. by rewrite decide_True.
  - done.
Qed.
