(* ===== verification/Election.v ===== *)
(** Leader election with fencing terms: src/src/election.rs.

    The table [sys_election] is a finite map from election keys to rows; each
    SQL statement is one atomic function of it, so the theorems about sequences
    of requests hold for any interleaving of the statements of concurrent
    clients. *)

From S2P Require Import Prelude RustStr Effects.

Module Election.

(** * Data *)

(** A row of [sys_election]; the key is the map's. *)
Record Row := {
  row_leader : string;
  row_term : Z;
  row_lease : string;
  row_expire : Z;
  row_update : string
}.

Abbreviation Table := (gmap string Row).

(** [LeaderLease]. *)
Record LeaderLease := {
  election : string;
  leader_id : string;
  term : Z;
  lease_id : string;
  expire_at_ms : Z
}.

(** [ElectionLeader] of the protocol. *)
Record ElectionLeader := {
  el_election : string;
  el_leader_id : string;
  el_term : Z;
  el_lease_id : string;
  el_expire_at : string;
  el_remaining_ttl_ms : Z
}.

(** [hydrate]. *)
Definition hydrate (key : string) (row : Row) : LeaderLease :=
  {| election := key; leader_id := row_leader row; term := wrap_u64 (row_term row);
     lease_id := row_lease row; expire_at_ms := row_expire row |}.

(** * SQL statements *)

(** The upsert of [campaign]: insert term one, or take over an expired row. *)
Definition campaign_sql (key candidate lease update : string) (expires now : Z) (t : Table)
    : option LeaderLease * Table :=
  let write term :=
    let row := {| row_leader := candidate; row_term := term; row_lease := lease;
                  row_expire := expires; row_update := update |} in
    (Some (hydrate key row), <[key := row]> t) in
  match t !! key with
  | None => write 1
  | Some old => if row_expire old <=? now then write (row_term old + 1) else (None, t)
  end.

(** The rows the [WHERE] clause of [renew] and [resign] selects. *)
Definition holds (leader : string) (term : Z) (lease : string) (now : Z) (row : Row) : bool :=
  bool_decide (row_leader row = leader) && (row_term row =? term) &&
  bool_decide (row_lease row = lease) && (now <? row_expire row).

Definition set_expire (expires : Z) (update : string) (row : Row) : Row :=
  {| row_leader := row_leader row; row_term := row_term row; row_lease := row_lease row;
     row_expire := expires; row_update := update |}.

(** The [UPDATE] of [renew] and [resign], with the updated row. *)
Definition update_sql (key leader : string) (term : Z) (lease update : string) (expires now : Z)
    (t : Table) : option LeaderLease * Table :=
  match t !! key with
  | Some row =>
      if holds leader term lease now row
      then let row := set_expire expires update row in
           (Some (hydrate key row), <[key := row]> t)
      else (None, t)
  | None => (None, t)
  end.

(** * The store *)

Section store.
Context `{Oracle, Chrono}.

Abbreviation ME := (M Error Table).

(** [now_millis]. *)
Definition now_millis {E St} : M E St Z := (λ t, t / 10 ^ 6) <$> now.

(** [timestamp]. *)
Definition timestamp (millis : Z) : string :=
  to_rfc3339 (default 0 (from_timestamp_millis millis)).

(** [LeaderLease::active]. *)
Definition active {E St} (l : LeaderLease) : M E St bool :=
  now ← now_millis; mret (now <? expire_at_ms l).

(** [LeaderLease::to_proto]. *)
Definition to_proto {E St} (l : LeaderLease) : M E St ElectionLeader :=
  now ← now_millis;
  mret {| el_election := election l; el_leader_id := leader_id l; el_term := term l;
          el_lease_id := lease_id l; el_expire_at := timestamp (expire_at_ms l);
          el_remaining_ttl_ms := Z.max (saturating_sub (expire_at_ms l) now) 0 |}.

(** [ElectionStore::get]. *)
Definition get (key : string) : ME (option LeaderLease) :=
  query (λ t, hydrate key <$> t !! key).

(** [ElectionStore::campaign]. *)
Definition campaign (key candidate : string) (ttl_seconds : Z) : ME (bool * LeaderLease) :=
  now ← now_millis;
  let expires := saturating_add now (saturating_mul ttl_seconds 1000) in
  lease ← new_uuid;
  row ← stmt (campaign_sql key candidate lease (timestamp now) expires now);
  leader ← match row with
           | Some leader => mret leader
           | None =>
               found ← get key;
               match found with
               | Some leader => mret leader
               | None => fail (Failure "election disappeared during campaign")
               end
           end;
  is_active ← active leader;
  mret (is_active && bool_decide (leader_id leader = candidate), leader).

(** [i64::try_from] of a [u64]. *)
Definition term_i64 (term : Z) : ME Z :=
  if term <=? I64_MAX then mret term
  else fail (Failure "out of range integral type conversion attempted").

(** [ElectionStore::renew]. *)
Definition renew (key leader : string) (term : Z) (lease : string) (ttl_seconds : Z)
    : ME (option LeaderLease) :=
  term ← term_i64 term;
  now ← now_millis;
  let expires := saturating_add now (saturating_mul ttl_seconds 1000) in
  stmt (update_sql key leader term lease (timestamp now) expires now).

(** [ElectionStore::resign]. *)
Definition resign (key leader : string) (term : Z) (lease : string) : ME bool :=
  term ← term_i64 term;
  now ← now_millis;
  row ← stmt (update_sql key leader term lease (timestamp now) now now);
  mret (bool_decide (is_Some row)).

(** * The gRPC service *)

Abbreviation MS := (M Status Table).

(** [required]. *)
Definition required {St} (value name : string) : M Status St string :=
  let value := trim value in
  if is_empty value then fail (InvalidArgument (name +:+ " is required")) else mret value.

(** [validate_ttl]. *)
Definition validate_ttl {St} (ttl : Z) : M Status St () :=
  if (1 <=? ttl) && (ttl <=? 3600) then mret ()
  else fail (InvalidArgument "ttl_seconds must be between 1 and 3600").

(** [internal]. *)
Definition internal (operation : string) (_ : Error) : Status :=
  Internal ("election " +:+ operation +:+ " failed").

(** [ElectionService::campaign]. *)
Definition svc_campaign (key candidate : string) (ttl : Z) : MS (bool * ElectionLeader) :=
  key ← required key "election";
  candidate ← required candidate "candidate_id";
  _ ← validate_ttl ttl;
  '(won, leader) ← map_err_with (internal "campaign") (campaign key candidate ttl);
  leader ← to_proto leader;
  mret (won, leader).

(** [leader.map(|leader| leader.to_proto())]. *)
Definition proto_opt {E St} (l : option LeaderLease) : M E St (option ElectionLeader) :=
  match l with
  | Some l => Some <$> to_proto l
  | None => mret None
  end.

(** [ElectionService::renew]. *)
Definition svc_renew (key leader : string) (term : Z) (lease : string) (ttl : Z)
    : MS (bool * option ElectionLeader) :=
  key ← required key "election";
  leader ← required leader "leader_id";
  lease ← required lease "lease_id";
  if term =? 0 then fail (InvalidArgument "term must be > 0") else
  _ ← validate_ttl ttl;
  renewed ← map_err_with (internal "renew") (renew key leader term lease ttl);
  body ← proto_opt renewed;
  mret (bool_decide (is_Some renewed), body).

(** [ElectionService::resign]. *)
Definition svc_resign (key leader : string) (term : Z) (lease : string) : MS bool :=
  key ← required key "election";
  leader ← required leader "leader_id";
  lease ← required lease "lease_id";
  if term =? 0 then fail (InvalidArgument "term must be > 0") else
  map_err_with (internal "resign") (resign key leader term lease).

(** [ElectionService::get_leader]: found, active, leader. *)
Definition svc_get_leader (key : string) : MS (bool * bool * option ElectionLeader) :=
  key ← required key "election";
  leader ← map_err_with (internal "get") (get key);
  is_active ← match leader with Some l => active l | None => mret false end;
  body ← proto_opt leader;
  mret (bool_decide (is_Some leader), is_active, body).

(** * Sequences of requests *)

Inductive Request :=
  | Campaign (key candidate : string) (ttl : Z)
  | Renew (key leader : string) (term : Z) (lease : string) (ttl : Z)
  | Resign (key leader : string) (term : Z) (lease : string)
  | GetLeader (key : string).

(** The server answers each request; an error answer changes nothing further. *)
Definition serve (r : Request) (w : World Table) : World Table :=
  match r with
  | Campaign key candidate ttl => (svc_campaign key candidate ttl w).2
  | Renew key leader term lease ttl => (svc_renew key leader term lease ttl w).2
  | Resign key leader term lease => (svc_resign key leader term lease w).2
  | GetLeader key => (svc_get_leader key w).2
  end.

Definition serve_all (rs : list Request) (w : World Table) : World Table :=
  foldl (λ w r, serve r w) w rs.

End store.

(** * Fencing as a relation between tables *)

(** How one row may evolve: it is never deleted, and either the same leader
    still holds the same term, or the term has grown. *)
Definition row_advances (o o' : option Row) : Prop :=
  match o, o' with
  | None, None => True
  | None, Some r => 1 <= row_term r
  | Some r, Some r' =>
      row_term r < row_term r' ∨
      (row_term r = row_term r' ∧ row_leader r = row_leader r' ∧ row_lease r = row_lease r')
  | Some _, None => False
  end.

Definition advances (t t' : Table) : Prop := ∀ key, row_advances (t !! key) (t' !! key).

#[export] Instance advances_preorder : PreOrder advances.
Proof.
  split.
  - intros t key. destruct (t !! key); simpl; auto.
  - intros t1 t2 t3 H12 H23 key. specialize (H12 key). specialize (H23 key).
    unfold row_advances in *. destruct (t1 !! key), (t2 !! key), (t3 !! key); try done.
    + destruct_or!; destruct_and?; (left; lia) || (right; split_and!; congruence).
    + destruct_or!; destruct_and?; lia.
Qed.

(** * Lemmas *)

Lemma campaign_sql_advances key cand lease upd expires now t :
  advances t (campaign_sql key cand lease upd expires now t).2.
Proof.
  unfold campaign_sql. destruct (t !! key) as [old|] eqn:Hk; [case_match|]; simpl;
    [| reflexivity |]; intros k; destruct (decide (k = key)) as [->|];
    rewrite ?lookup_insert_eq, ?lookup_insert_ne, ?Hk by done; simpl; try lia; apply advances_preorder.
Qed.

Lemma update_sql_advances key leader term lease upd expires now t :
  advances t (update_sql key leader term lease upd expires now t).2.
Proof.
  unfold update_sql. destruct (t !! key) as [row|] eqn:Hk; [case_match|]; simpl; try reflexivity.
  intros k. destruct (decide (k = key)) as [->|];
    rewrite ?lookup_insert_eq, ?lookup_insert_ne, ?Hk by done; simpl; [auto|apply advances_preorder].
Qed.

Section store_lemmas.
Context `{Oracle, Chrono}.

Lemma run_now_millis {E St} (w : World St) :
  (now_millis : M E St Z) w = (Ok (clock (tick w) / 10 ^ 6), mkWorld (st w) (S (tick w))).
Proof. done. Qed.

#[local] Hint Rewrite @run_now_millis : run.

Lemma keeps_now_millis {E St} R `{!PreOrder R} : Keeps (E:=E) (St:=St) R now_millis.
Proof. unfold now_millis. keeps_go. Qed.

Lemma keeps_active {E St} R `{!PreOrder R} l : Keeps (E:=E) (St:=St) R (active l).
Proof. unfold active. keeps_go. by apply keeps_now_millis. Qed.

Lemma keeps_to_proto {E St} R `{!PreOrder R} l : Keeps (E:=E) (St:=St) R (to_proto l).
Proof. unfold to_proto. keeps_go. by apply keeps_now_millis. Qed.

Lemma keeps_proto_opt {E St} R `{!PreOrder R} l : Keeps (E:=E) (St:=St) R (proto_opt l).
Proof. unfold proto_opt. keeps_go. by apply keeps_to_proto. Qed.

Lemma keeps_required {St} R `{!PreOrder R} v n : Keeps (St:=St) R (required v n).
Proof. unfold required. keeps_go. Qed.

Lemma keeps_validate_ttl {St} R `{!PreOrder R} ttl : Keeps (St:=St) R (validate_ttl ttl).
Proof. unfold validate_ttl. keeps_go. Qed.

Lemma keeps_get R `{!PreOrder R} key : Keeps R (get key).
Proof. unfold get. keeps_go. Qed.

Lemma keeps_term_i64 R `{!PreOrder R} term : Keeps R (term_i64 term).
Proof. unfold term_i64. keeps_go. Qed.

#[local] Hint Resolve keeps_now_millis keeps_active keeps_to_proto keeps_proto_opt
  keeps_required keeps_validate_ttl keeps_get keeps_term_i64 advances_preorder : keeps.

Lemma campaign_advances key cand ttl : Keeps advances (campaign key cand ttl).
Proof. unfold campaign. keeps_go; auto using campaign_sql_advances with keeps. Qed.

Lemma renew_advances key leader term lease ttl :
  Keeps advances (renew key leader term lease ttl).
Proof. unfold renew. keeps_go; auto using update_sql_advances with keeps. Qed.

Lemma resign_advances key leader term lease : Keeps advances (resign key leader term lease).
Proof. unfold resign. keeps_go; auto using update_sql_advances with keeps. Qed.

Lemma serve_advances r w : advances (st w) (st (serve r w)).
Proof.
  destruct r; simpl; revert w.
  - fold (Keeps advances (svc_campaign key candidate ttl)). unfold svc_campaign.
    keeps_go; auto using campaign_advances with keeps.
  - fold (Keeps advances (svc_renew key leader term0 lease ttl)). unfold svc_renew.
    keeps_go; auto using renew_advances with keeps.
  - fold (Keeps advances (svc_resign key leader term0 lease)). unfold svc_resign.
    keeps_go; auto using resign_advances with keeps.
  - fold (Keeps advances (svc_get_leader key)). unfold svc_get_leader.
    keeps_go; auto with keeps.
Qed.

Lemma serve_all_advances rs w : advances (st w) (st (serve_all rs w)).
Proof.
  unfold serve_all. revert w. induction rs as [|r rs IH]; intros w; simpl; [reflexivity|].
  etrans; [apply serve_advances|apply IH].
Qed.

(** What a campaign does, and what it answers. *)
Lemma campaign_cases key cand ttl w :
  let ms := clock (tick w) / 10 ^ 6 in
  let '(r, w') := campaign key cand ttl w in
  (tick w < tick w')%nat ∧
  match r with
  | Err e => st w' = st w ∧ ∃ n m, fault n = Some m ∧ e = Failure m
  | Ok (won, l) =>
      (∃ old, st w !! key = Some old ∧ ms < row_expire old ∧ st w' = st w ∧
              l = hydrate key old ∧ (won = true → row_leader old = cand)) ∨
      (∃ row, st w' = <[key := row]> (st w) ∧ l = hydrate key row ∧
              (∀ old, st w !! key = Some old → row_expire old <= ms) ∧
              row_leader row = cand ∧ row_lease row = uuid (S (tick w)) ∧
              row_term row = (if st w !! key is Some old then row_term old + 1 else 1) ∧
              row_expire row = saturating_add ms (saturating_mul ttl 1000) ∧
              won = (clock (S (S (S (tick w)))) / 10 ^ 6 <? row_expire row))
  end.
Proof.
  destruct w as [t n]. unfold campaign, get, active. run. cbv zeta.
  destruct (fault (S (S n))) as [m|] eqn:F; run; [split; [lia|by eauto]|].
  unfold campaign_sql. destruct (t !! key) as [old|] eqn:Hk.
  - destruct (Z.leb_spec (row_expire old) (clock n / 10 ^ 6)); run.
    + split; [lia|]. right. eexists. split_and!; try done; [naive_solver|].
      rewrite bool_decide_eq_true_2 by done. by rewrite andb_true_r.
    + destruct (fault (S (S (S n)))) eqn:F3; run; [split; [lia|by eauto]|].
      rewrite Hk. cbn [fmap option_fmap option_map]. run.
      split; [lia|]. left. exists old. split_and!; try done.
      intros [_ ?%bool_decide_eq_true]%andb_prop. done.
  - run. split; [lia|]. right. eexists. split_and!; try done.
    rewrite bool_decide_eq_true_2 by done. by rewrite andb_true_r.
Qed.

(** The service reads the clock first, and moves on by at least one question. *)
Lemma svc_campaign_cases key cand ttl w :
  let '(r, w') := svc_campaign key cand ttl w in
  w' = w ∨ ((tick w < tick w')%nat ∧ st w' = st (campaign (trim key) (trim cand) ttl w).2).
Proof.
  unfold svc_campaign, required, validate_ttl. cbv zeta.
  destruct (is_empty (trim key)); run; [auto|]. destruct (is_empty (trim cand)); run; [auto|].
  destruct ((1 <=? ttl) && (ttl <=? 3600)); run; [|auto].
  pose proof (campaign_cases (trim key) (trim cand) ttl w) as Hc.
  destruct (campaign (trim key) (trim cand) ttl w) as [[[won l]|e] w1]; destruct Hc as [Ht _];
    unfold to_proto; run; simpl; right; split; (done || lia).
Qed.

(** Whether a request renews or resigns exactly this lease. *)
Definition concerns (key : string) (row : Row) (r : Request) : bool :=
  match r with
  | Renew k l t i _ | Resign k l t i =>
      bool_decide (trim k = key) && bool_decide (trim l = row_leader row) &&
      (t =? row_term row) && bool_decide (trim i = row_lease row)
  | _ => false
  end.

Lemma update_sql_other key key' leader tm lease upd expires ms t row :
  t !! key = Some row →
  (bool_decide (key' = key) && bool_decide (leader = row_leader row) &&
   (tm =? row_term row) && bool_decide (lease = row_lease row)) = false →
  (update_sql key' leader tm lease upd expires ms t).2 !! key = Some row.
Proof.
  intros Hk Hc. unfold update_sql. destruct (decide (key' = key)) as [->|Hne].
  - rewrite Hk. unfold holds. rewrite (bool_decide_eq_true_2 (key = key)) in Hc by done.
    rewrite Z.eqb_sym in Hc. simpl in Hc.
    destruct (bool_decide (row_leader row = leader)) eqn:E1; [|done].
    destruct (row_term row =? tm); [|done].
    destruct (bool_decide (row_lease row = lease)) eqn:E2; [|done].
    apply bool_decide_eq_true in E1, E2. subst. by rewrite !bool_decide_eq_true_2 in Hc.
  - destruct (t !! key'); [case_match|]; simpl; rewrite ?lookup_insert_ne; done.
Qed.

Lemma campaign_protects key row k c ttl w :
  st w !! key = Some row → clock (tick w) / 10 ^ 6 < row_expire row →
  st (campaign k c ttl w).2 !! key = Some row.
Proof.
  intros Hk Hclk. pose proof (campaign_cases k c ttl w) as Hcc. cbv zeta in Hcc.
  destruct (campaign k c ttl w) as [[[won l]|e] w']; simpl; destruct Hcc as [_ Hcc].
  - destruct Hcc as [(old & _ & _ & -> & _)|(new & -> & _ & Hold & _)]; [done|].
    destruct (decide (k = key)) as [->|]; [|by rewrite lookup_insert_ne].
    specialize (Hold row Hk). lia.
  - by destruct Hcc as [-> _].
Qed.

(** Renewing and resigning change the table at most by their [UPDATE]. *)
Lemma svc_update_cases k l tm i w :
  let updated w' :=
    (tick w <= tick w')%nat ∧
    (st w' = st w ∨ ∃ upd ex ms,
       st w' = (update_sql (trim k) (trim l) tm (trim i) upd ex ms (st w)).2) in
  (∀ ttl, updated (svc_renew k l tm i ttl w).2) ∧ updated (svc_resign k l tm i w).2.
Proof.
  cbv zeta. split; [intros ttl|].
  - unfold svc_renew, required, validate_ttl, renew, term_i64, proto_opt, to_proto. cbv zeta.
    destruct (is_empty (trim k)); run; [by auto|]. destruct (is_empty (trim l)); run; [by auto|].
    destruct (is_empty (trim i)); run; [by auto|]. destruct (tm =? 0); run; [by auto|].
    destruct ((1 <=? ttl) && (ttl <=? 3600)); run; [|by auto].
    destruct (tm <=? I64_MAX); run; [|by auto]. destruct (fault _); run; [simpl; auto with lia|].
    destruct (update_sql _ _ _ _ _ _ _ _) as [[?|] t'] eqn:E; run; simpl; (split; [lia|]);
      right; do 3 eexists; by rewrite E.
  - unfold svc_resign, required, resign, term_i64. cbv zeta.
    destruct (is_empty (trim k)); run; [by auto|]. destruct (is_empty (trim l)); run; [by auto|].
    destruct (is_empty (trim i)); run; [by auto|]. destruct (tm =? 0); run; [by auto|].
    destruct (tm <=? I64_MAX); run; [|by auto]. destruct (fault _); run; [simpl; auto with lia|].
    destruct (update_sql _ _ _ _ _ _ _ _) as [? t'] eqn:E; run; simpl; (split; [lia|]).
    right; do 3 eexists; by rewrite E.
Qed.

(** One request leaves a lease alone that is active when the clock is read and
    that the request does not name. *)
Lemma serve_protects key row r w :
  st w !! key = Some row → concerns key row r = false →
  ((tick w < tick (serve r w))%nat → clock (tick w) / 10 ^ 6 < row_expire row) →
  st (serve r w) !! key = Some row ∧ (tick w <= tick (serve r w))%nat.
Proof.
  intros Hk Hc Hclk. destruct r as [k c ttl|k l tm i ttl|k l tm i|k]; cbn [serve] in *.
  - pose proof (svc_campaign_cases k c ttl w) as Hs. destruct (svc_campaign k c ttl w) as [r w'].
    simpl in *. destruct Hs as [->|[Ht ->]]; [done|]. specialize (Hclk Ht). split; [|lia].
    by apply campaign_protects.
  - destruct (svc_update_cases k l tm i w) as [Hs _]. specialize (Hs ttl).
    destruct Hs as [? [->|(upd & ex & ms & ->)]]; [done|].
    split; [by apply update_sql_other|done].
  - destruct (svc_update_cases k l tm i w) as [_ [? [->|(upd & ex & ms & ->)]]]; [done|].
    split; [by apply update_sql_other|done].
  - unfold svc_get_leader, required, get, proto_opt, active, to_proto. cbv zeta.
    case_match; run; [by auto|]. destruct (fault _); run; [simpl; auto with lia|].
    destruct (st w !! trim k); simpl; run; simpl; auto with lia.
Qed.

Lemma serve_all_ticks rs w : (tick w <= tick (serve_all rs w))%nat.
Proof.
  assert (∀ r w, (tick w <= tick (serve r w))%nat) as Hr.
  { clear. intros r. destruct r as [k c ttl|k l tm i ttl|k l tm i|k]; cbn [serve].
    - change (Ticks (svc_campaign k c ttl)).
      unfold svc_campaign, required, validate_ttl, campaign, get, active, to_proto, now_millis.
      ticks_go.
    - change (Ticks (svc_renew k l tm i ttl)).
      unfold svc_renew, required, validate_ttl, renew, term_i64, proto_opt, to_proto, now_millis.
      ticks_go.
    - change (Ticks (svc_resign k l tm i)).
      unfold svc_resign, required, resign, term_i64, now_millis. ticks_go.
    - change (Ticks (svc_get_leader k)).
      unfold svc_get_leader, required, get, proto_opt, active, to_proto, now_millis. ticks_go. }
  unfold serve_all. revert w. induction rs as [|r rs IH]; intros w; simpl; [done|].
  etrans; [apply (Hr r)|apply IH].
Qed.

Lemma serve_all_protects key row rs w :
  st w !! key = Some row → Forall (λ r, concerns key row r = false) rs →
  (∀ n, (tick w <= n < tick (serve_all rs w))%nat → clock n / 10 ^ 6 < row_expire row) →
  st (serve_all rs w) !! key = Some row.
Proof.
  intros Hk Hrs. revert w Hk. induction Hrs as [|r rs Hr _ IH]; intros w Hk Hclk; [done|].
  cbn [serve_all foldl] in *. fold (serve_all rs (serve r w)) in *.
  pose proof (serve_all_ticks rs (serve r w)).
  destruct (serve_protects key row r w) as [Hk' ?]; [done..| |].
  - intros Ht. apply Hclk. lia.
  - apply IH; [done|]. intros n Hn. apply Hclk. lia.
Qed.

End store_lemmas.

#[export] Hint Rewrite @run_now_millis : run.

(** * Properties *)

Section properties.
Context `{Oracle, Chrono}.

(** C4: Fencing: over any sequence of requests, whatever the clock, the
    identifiers and the storage do, an election is never forgotten, its term
    never decreases, and as long as the term is the same so are the leader and
    the lease: two leaders never share a term. *)
Theorem fencing_terms rs w key row :
  st w !! key = Some row →
  ∃ row', st (serve_all rs w) !! key = Some row' ∧ row_term row <= row_term row' ∧
          (row_term row' = row_term row →
           row_leader row' = row_leader row ∧ row_lease row' = row_lease row).
Proof.
  intros Hk. pose proof (serve_all_advances rs w key) as Ha. rewrite Hk in Ha. simpl in Ha.
  destruct (st (serve_all rs w) !! key) as [row'|]; [|done]. exists row'.
  destruct Ha as [?|(? & ? & ?)]; split_and!; try done; lia.
Qed.


(** A campaign either meets an active lease, which it returns unchanged and
    wins only as its leader, or takes the election with a fresh lease and the
    next term (one for a new election); a storage fault changes nothing, and the
    error [election disappeared] is never returned. *)
Theorem campaign_correct key cand ttl w :
  let ms := clock (tick w) / 10 ^ 6 in
  let '(r, w') := campaign key cand ttl w in
  match r with
  | Err e => st w' = st w ∧ ∃ n m, fault n = Some m ∧ e = Failure m
  | Ok (won, l) =>
      (∃ old, st w !! key = Some old ∧ ms < row_expire old ∧ st w' = st w ∧
              l = hydrate key old ∧ (won = true → row_leader old = cand)) ∨
      (∃ row, st w' = <[key := row]> (st w) ∧ l = hydrate key row ∧
              (∀ old, st w !! key = Some old → row_expire old <= ms) ∧
              row_leader row = cand ∧ row_lease row = uuid (S (tick w)) ∧
              row_term row = (if st w !! key is Some old then row_term old + 1 else 1) ∧
              row_expire row = saturating_add ms (saturating_mul ttl 1000) ∧
              won = (clock (S (S (S (tick w)))) / 10 ^ 6 <? row_expire row))
  end.
Proof.
  pose proof (campaign_cases key cand ttl w) as Hc. cbv zeta in *.
  destruct (campaign key cand ttl w) as [r w']. apply Hc.
Qed.

(** Renewal succeeds exactly for the leader, term and lease of a row that
    is still active, and then changes nothing but the expiry; in every other
    case, an expired lease included, the table is unchanged. *)
Theorem renew_exact key leader tm lease ttl w :
  tm <= I64_MAX → fault (S (tick w)) = None →
  let ms := clock (tick w) / 10 ^ 6 in
  let '(r, w') := renew key leader tm lease ttl w in
  match st w !! key with
  | Some row =>
      if holds leader tm lease ms row
      then let row' := set_expire (saturating_add ms (saturating_mul ttl 1000))
                         (timestamp ms) row in
           r = Ok (Some (hydrate key row')) ∧ st w' = <[key := row']> (st w)
      else r = Ok None ∧ st w' = st w
  | None => r = Ok None ∧ st w' = st w
  end.
Proof.
  intros Ht Hf. cbv zeta. unfold renew, term_i64. rewrite (proj2 (Z.leb_le _ _)) by done. run.
  rewrite Hf. unfold update_sql. destruct (st w !! key) as [row|]; [|done].
  by destruct (holds leader tm lease _ row).
Qed.

End properties.

(** A table with one election held until ten seconds after the demonstration
    clock's start. *)
Definition demo_row : Row :=
  {| row_leader := "map-0"; row_term := 3; row_lease := "l"; 
     row_expire := demo_start / 10 ^ 6 + 10000; row_update := "" |}.

Definition demo_world : World Table := mkWorld {[ "map" := demo_row ]} 0.

Lemma fencing_terms_witness :
  ∃ row', st (serve_all (H := demo_oracle) (H0 := demo_chrono)
                [Campaign "map" "b" 5; Resign "map" "map-0" 3 "l"; Campaign "map" "b" 5]
                demo_world) !! "map" = Some row' ∧ 3 <= row_term row' ∧
          (row_term row' = 3 → row_leader row' = "map-0" ∧ row_lease row' = "l").
Proof. by apply (fencing_terms (H := demo_oracle) (H0 := demo_chrono) _ demo_world "map" demo_row). Defined.


Lemma renew_exact_witness :
  (renew (H := demo_oracle) (H0 := demo_chrono) "map" "map-0" 3 "l" 5 demo_world).1 =
  Ok (Some {| election := "map"; leader_id := "map-0"; term := 3; lease_id := "l";
              expire_at_ms := demo_start / 10 ^ 6 + 5000 |}).
Proof.
  pose proof (renew_exact (H := demo_oracle) (H0 := demo_chrono) "map" "map-0" 3 "l" 5 demo_world
    ltac:(by vm_compute) ltac:(done)) as Hr.
  revert Hr. destruct (renew _ _ _ _ _ demo_world) as [r w']. vm_compute. by intros [-> _].
Defined.

End Election.
