(* ===== verification/Cache.v ===== *)
(** The cache and lock service: src/src/cache.rs.

    [CacheStore] is a map behind a mutex: each operation runs its body on the
    map while it holds the lock, and a panic in the body poisons the mutex, after
    which every operation panics.  [LockStore] is the table [sys_lock], one
    atomic statement at a time. *)

From S2P Require Import Prelude RustStr Effects.

Module Cache.

(** * Data *)

(** [CacheEntry]; times in nanoseconds. *)
Record CacheEntry := {
  e_value : list Z;
  e_type : string;
  e_expire : option Z;
  e_accessed : Z
}.

Abbreviation Entries := (gmap string CacheEntry).

(** [CacheStore], with the state of its mutex. *)
Record CacheStore := mkStore { inner : Entries; poisoned : bool; max_entries : nat }.

(** A row of [sys_lock]. *)
Record LockRow := { l_owner : string; l_expire : string; l_create : string }.

Abbreviation Locks := (gmap string LockRow).

Definition TYPE_STRING : string := "string".
Definition TYPE_LONG : string := "long".

(** [normalize_value_type]. *)
Definition normalize_value_type (value_type : string) : string :=
  let value_type := trim value_type in
  if is_empty value_type then TYPE_STRING else value_type.

(** [CacheEntry::is_expired]. *)
Definition entry_expired (now : Z) (e : CacheEntry) : bool :=
  if e_expire e is Some deadline then deadline <=? now else false.

(** [parse_i64]. *)
Definition parse_i64 (bytes : list Z) : option Z :=
  s ← from_utf8 bytes; parse_i64_str (trim s).

(** [CacheStore::new]. *)
Definition cache_new (max : nat) : CacheStore := mkStore ∅ false (Nat.max max 1).

(** [Iterator::min_by_key]: the first element with the least key. *)
Fixpoint min_from {A} (f : A → Z) (best : A) (l : list A) : A :=
  match l with
  | [] => best
  | x :: l => min_from f (if f x <? f best then x else best) l
  end.

Definition min_by_key {A} (f : A → Z) (l : list A) : option A :=
  match l with
  | [] => None
  | x :: l => Some (min_from f x l)
  end.

(** [map.retain(|_, entry| !entry.is_expired(now))]. *)
Definition retain_live (now : Z) (m : Entries) : Entries :=
  filter (λ '(_, e), entry_expired now e = false) m.

(** [Duration::num_seconds]: rounds towards zero. *)
Definition num_seconds (d : Z) : Z := Z.quot d (10 ^ 9).

Definition entry_le (a b : string * list Z * string * Z) : Prop := str_le a.1.1.1 b.1.1.1.
#[export] Instance entry_le_dec : RelDecision entry_le.
Proof. unfold entry_le. intros a b. apply _. Defined.

Definition lock_le (a b : string * LockRow) : Prop := str_le a.1 b.1.
#[export] Instance lock_le_dec : RelDecision lock_le.
Proof. unfold lock_le. intros a b. apply _. Defined.

Section store.
Context `{Oracle, Chrono}.

(** Whether the build checks integer overflow (debug) or wraps (release). *)
Context (overflow_checks : bool).

Abbreviation MC := (M Error Entries).
Abbreviation MS := (M Error CacheStore).

(** [expire_at_utc]. *)
Definition expire_at_utc {St} (ttl_secs : Z) : M Error St (option Z) :=
  if ttl_secs <=? 0 then mret None
  else
  now ← now;
  d ← seconds ttl_secs;
  Some <$> add_time now d.

(** [CacheEntry::new]. *)
Definition new_entry {St} (value : list Z) (value_type : string) (expire_at : option Z)
    : M Error St CacheEntry :=
  now ← now;
  mret {| e_value := value; e_type := value_type; e_expire := expire_at; e_accessed := now |}.

(** [self.lock()] and the body run until the guard is dropped: a panic of the
    body poisons the mutex. *)
Definition locked {A} (body : nat → MC A) : MS A := λ w,
  if poisoned (st w) then (Err (Panicked "cache lock poisoned"), w)
  else
  let max := max_entries (st w) in
  let '(r, w') := body max (mkWorld (inner (st w)) (tick w)) in
  (r, mkWorld (mkStore (st w') (if r is Err (Panicked _) then true else false) max) (tick w')).

(** The loop that evicts the least recently used entries; each round removes
    one, so the number of entries bounds the rounds. *)
Fixpoint evict_loop (fuel max : nat) : MC () :=
  match fuel with
  | O => mret ()
  | S fuel =>
      map ← mem (λ m, (m, m));
      if (size map <=? max)%nat then mret ()
      else
      order ← unordered (map_to_list map);
      match min_by_key (λ '(_, e), e_accessed e) order with
      | None => mret ()
      | Some (lru, _) => _ ← mem (λ m, ((), delete lru m)); evict_loop fuel max
      end
  end.

(** The part of [CacheStore::set] under the lock. *)
Definition set_body (key : string) (entry : CacheEntry) (max : nat) : MC () :=
  map ← mem (λ m, let m := <[key := entry]> m in (m, m));
  if (size map <=? max)%nat then mret ()
  else
  now ← now;
  rest ← mem (λ m, let m := retain_live now m in (m, m));
  evict_loop (size rest) max.

(** [CacheStore::set]. *)
Definition set (key : string) (value : list Z) (value_type : string) (ttl_secs : Z) : MS () :=
  expire ← expire_at_utc ttl_secs;
  entry ← new_entry value (normalize_value_type value_type) expire;
  locked (set_body key entry).

(** [map.get(key).is_some_and(|entry| entry.is_expired(now))]. *)
Definition key_expired (key : string) (now : Z) (m : Entries) : bool :=
  if m !! key is Some e then entry_expired now e else false.

(** [CacheStore::get]. *)
Definition get (key : string) : MS (option (list Z * string)) :=
  locked (λ _,
    now ← now;
    mem (λ m,
      if key_expired key now m then (None, delete key m)
      else match m !! key with
           | None => (None, m)
           | Some e =>
               (Some (e_value e, e_type e),
                <[key := {| e_value := e_value e; e_type := e_type e; e_expire := e_expire e;
                            e_accessed := now |}]> m)
           end)).

(** [CacheStore::delete]. *)
Definition cache_delete (key : string) : MS bool :=
  locked (λ _, mem (λ m, (bool_decide (is_Some (m !! key)), delete key m))).

(** [current + delta]. *)
Definition add_i64 {St} (a b : Z) : M Error St Z :=
  if decide (is_i64 (a + b)) then mret (a + b)
  else if overflow_checks then fail (Panicked "attempt to add with overflow")
  else mret (wrap_i64 (a + b)).

(** [CacheStore::incr]. *)
Definition incr (key : string) (delta ttl_secs : Z) : MS Z :=
  locked (λ _,
    now ← now;
    slot ← mem (λ m, let m := if key_expired key now m then delete key m else m in (m !! key, m));
    match slot with
    | Some e =>
        current ← lift (ok_or (Failure ("cache value is not a number for key " +:+ key))
                          (parse_i64 (e_value e)));
        next ← add_i64 current delta;
        _ ← mem (λ m, ((), <[key := {| e_value := as_bytes (print_i64 next); e_type := TYPE_LONG;
                                       e_expire := e_expire e; e_accessed := now |}]> m));
        mret next
    | None =>
        expire ← expire_at_utc ttl_secs;
        entry ← new_entry (as_bytes (print_i64 delta)) TYPE_LONG expire;
        _ ← mem (λ m, ((), <[key := entry]> m));
        mret delta
    end).

(** [CacheStore::expire]. *)
Definition expire (key : string) (ttl_secs : Z) : MS bool :=
  locked (λ _,
    now ← now;
    gone ← mem (λ m, (key_expired key now m, if key_expired key now m then delete key m else m));
    if gone : bool then mret false
    else
    slot ← mem (λ m, (m !! key, m));
    match slot with
    | None => mret false
    | Some e =>
        deadline ← expire_at_utc ttl_secs;
        _ ← mem (λ m, ((), <[key := {| e_value := e_value e; e_type := e_type e;
                                       e_expire := deadline; e_accessed := e_accessed e |}]> m));
        mret true
    end).

(** [CacheStore::ttl]. *)
Definition ttl (key : string) : MS Z :=
  locked (λ _,
    slot ← mem (λ m, (m !! key, m));
    match slot with
    | None => mret (-2)
    | Some e =>
        match e_expire e with
        | None => mret (-1)
        | Some deadline =>
            first ← now;
            if deadline <=? first then _ ← mem (λ m, ((), delete key m)); mret (-2)
            else
            second ← now;
            mret (Z.max (num_seconds (deadline - second)) 0)
        end
    end).

(** [CacheStore::exists]. *)
Definition cache_exists (key : string) : MS bool :=
  seconds_left ← ttl key; mret (negb (seconds_left =? -2)).

(** [CacheStore::purge_expired]. *)
Definition cache_purge_expired : MS Z :=
  locked (λ _,
    now ← now;
    mem (λ m, let rest := retain_live now m in
              (Z.of_nat (size m) - Z.of_nat (size rest), rest))).

(** [CacheStore::entries]. *)
Definition entries : MS (list (string * list Z * string * Z)) :=
  locked (λ _,
    now ← now;
    live ← mem (λ m, let m := retain_live now m in (m, m));
    rows ← unordered (map_to_list live);
    mret (merge_sort entry_le (map (λ '(key, e),
      (key, e_value e, e_type e,
       if e_expire e is Some deadline then Z.max (num_seconds (deadline - now)) 0 else -1)) rows))).

(** * Locks *)

Abbreviation ML := (M Error Locks).

(** [LockStore::acquire]. *)
Definition lock_acquire (lock_key owner : string) (ttl_secs : Z) : ML bool :=
  now1 ← rfc_now;
  _ ← stmt (λ t, ((), if t !! lock_key is Some r
                      then if str_leb (l_expire r) now1 then delete lock_key t else t
                      else t));
  now ← now;
  d ← seconds ttl_secs;
  until ← add_time now d;
  created ← rfc_now;
  stmt (λ t, match t !! lock_key with
             | Some _ => (false, t)
             | None => (true, <[lock_key := {| l_owner := owner; l_expire := to_rfc3339 until;
                                               l_create := created |}]> t)
             end).

(** The row of a lock held by [owner]. *)
Definition held_by (owner lock_key : string) (t : Locks) : option LockRow :=
  r ← t !! lock_key; if bool_decide (l_owner r = owner) then Some r else None.

(** [LockStore::renew]. *)
Definition lock_renew (lock_key owner : string) (ttl_secs : Z) : ML bool :=
  now ← now;
  d ← seconds ttl_secs;
  until ← add_time now d;
  stmt (λ t, match held_by owner lock_key t with
             | Some r => (true, <[lock_key := {| l_owner := l_owner r; l_expire := to_rfc3339 until;
                                                 l_create := l_create r |}]> t)
             | None => (false, t)
             end).

(** [LockStore::release]. *)
Definition lock_release (lock_key owner : string) : ML bool :=
  stmt (λ t, if held_by owner lock_key t is Some _ then (true, delete lock_key t) else (false, t)).

(** [is_expired] on a stored time. *)
Definition text_expired (value : string) : ML bool :=
  match parse_from_rfc3339 value with
  | Some deadline => now ← now; mret (deadline <=? now)
  | None => mret true
  end.

(** [LockStore::is_locked]. *)
Definition lock_is_locked (lock_key : string) : ML bool :=
  row ← query (λ t, t !! lock_key);
  match row with
  | None => mret false
  | Some r => negb <$> text_expired (l_expire r)
  end.

(** [LockStore::purge_expired]. *)
Definition lock_purge_expired : ML Z :=
  now ← rfc_now;
  stmt (λ t, (Z.of_nat (size (filter (λ '(_, r), str_leb (l_expire r) now = true) t)),
              filter (λ '(_, r), str_leb (l_expire r) now = false) t)).

(** [LockStore::list]. *)
Definition lock_list : ML (list (string * LockRow)) :=
  now ← rfc_now;
  _ ← stmt (λ t, ((), filter (λ '(_, r), str_leb (l_expire r) now = false) t));
  query (λ t, merge_sort lock_le (map_to_list t)).

(** * The gRPC service *)

(** [CacheService]. *)
Record CacheService := mkService { cache : CacheStore; lock : Locks }.

Abbreviation MV := (M Status CacheService).

(** A call of one of the two stores, with its errors as a status. *)
Definition on_cache {A} (f : string → Status) (m : MS A) : MV A :=
  map_err_with (status_of f) (zoom cache (λ c s, mkService c (lock s)) m).
Definition on_lock {A} (f : string → Status) (m : ML A) : MV A :=
  map_err_with (status_of f) (zoom lock (λ l s, mkService (cache s) l) m).

(** [require_key]. *)
Definition require_key (value : string) : MV string :=
  let value := trim value in
  if is_empty value then fail (InvalidArgument "key is required") else mret value.

(** The owner check of the lock handlers. *)
Definition require_owner (value : string) : MV string :=
  let value := trim value in
  if is_empty value then fail (InvalidArgument "owner is required") else mret value.

(** The ttl check of the lock handlers. *)
Definition require_ttl (ttl_seconds : Z) : MV () :=
  if ttl_seconds <=? 0 then fail (InvalidArgument "ttl_seconds must be > 0") else mret ().

(** [CacheService::set]. *)
Definition grpc_set (key : string) (value : list Z) (value_type : string) (ttl_seconds : Z)
    : MV bool :=
  key ← require_key key;
  _ ← on_cache (λ _, Internal "cache set failed") (set key value value_type ttl_seconds);
  mret true.

(** [CacheService::get]. *)
Definition grpc_get (key : string) : MV (bool * list Z * string) :=
  key ← require_key key;
  entry ← on_cache (λ _, Internal "cache get failed") (get key);
  mret (match entry with
        | Some (value, value_type) => (true, value, value_type)
        | None => (false, [], "")
        end).

(** [CacheService::delete]. *)
Definition grpc_delete (key : string) : MV bool :=
  key ← require_key key;
  on_cache (λ _, Internal "cache delete failed") (cache_delete key).

(** [CacheService::incr]. *)
Definition grpc_incr (key : string) (delta ttl_seconds : Z) : MV Z :=
  key ← require_key key;
  on_cache (λ error, InvalidArgument ("cache incr failed: " +:+ error)) (incr key delta ttl_seconds).

(** [CacheService::expire]. *)
Definition grpc_expire (key : string) (ttl_seconds : Z) : MV bool :=
  key ← require_key key;
  on_cache (λ _, Internal "cache expire failed") (expire key ttl_seconds).

(** [CacheService::ttl]. *)
Definition grpc_ttl (key : string) : MV Z :=
  key ← require_key key;
  on_cache (λ _, Internal "cache ttl failed") (ttl key).

(** [CacheService::acquire_lock]. *)
Definition acquire_lock (lock_key owner : string) (ttl_seconds : Z) : MV bool :=
  lock_key ← require_key lock_key;
  owner ← require_owner owner;
  _ ← require_ttl ttl_seconds;
  on_lock (λ _, Internal "lock acquire failed") (lock_acquire lock_key owner ttl_seconds).

(** [CacheService::renew_lock]. *)
Definition renew_lock (lock_key owner : string) (ttl_seconds : Z) : MV bool :=
  lock_key ← require_key lock_key;
  owner ← require_owner owner;
  _ ← require_ttl ttl_seconds;
  on_lock (λ _, Internal "lock renew failed") (lock_renew lock_key owner ttl_seconds).

(** [CacheService::release_lock]. *)
Definition release_lock (lock_key owner : string) : MV bool :=
  lock_key ← require_key lock_key;
  owner ← require_owner owner;
  on_lock (λ _, Internal "lock release failed") (lock_release lock_key owner).

(** [CacheService::is_locked]. *)
Definition grpc_is_locked (lock_key : string) : MV bool :=
  lock_key ← require_key lock_key;
  on_lock (λ _, Internal "lock is_locked failed") (lock_is_locked lock_key).

End store.

End Cache.
