(* ===== verification/CacheSpec.v ===== *)
(** What the cache and the locks of [Cache] promise: eviction in order of use,
    reading one's own writes, counters, times to live, and exclusion by locks
    (src/src/cache.rs). *)

From S2P Require Import Prelude RustStr Effects Cache.
Import Cache.

Module CacheSpec.

(** * The least recently used entry *)

Lemma min_from_spec {A} (f : A → Z) best l :
  min_from f best l ∈ best :: l ∧ f (min_from f best l) <= f best ∧
  ∀ y, y ∈ l → f (min_from f best l) <= f y.
Proof.
  revert best. induction l as [|x l IH]; intros best; simpl; [split; [left|split; [done|]]; set_solver|].
  destruct (Z.ltb_spec (f x) (f best)); destruct (IH (if f x <? f best then x else best)) as (Hin & Hb & Hl);
    destruct (Z.ltb_spec (f x) (f best)); try lia; (split; [set_solver|split; [lia|]]);
    intros y [->|Hy]%elem_of_cons; auto; lia.
Qed.

Lemma min_by_key_spec {A} (f : A → Z) l :
  l ≠ [] → ∃ x, min_by_key f l = Some x ∧ x ∈ l ∧ ∀ y, y ∈ l → f x <= f y.
Proof.
  destruct l as [|x l]; [done|]. intros _. destruct (min_from_spec f x l) as (Hin & Hx & Hl).
  eexists. split; [done|]. split; [done|]. intros y [->|Hy]%elem_of_cons; auto.
Qed.

(** Every entry of [m] missing in [m'] was used no later than those left. *)
Definition evicts_oldest (m m' : Entries) : Prop :=
  m' ⊆ m ∧
  ∀ k e k' e', m !! k = Some e → m' !! k = None → m' !! k' = Some e' → e_accessed e <= e_accessed e'.

Lemma evicts_oldest_refl m : evicts_oldest m m.
Proof. split; [done|]. intros k e k' e' Hk Hn _. congruence. Qed.

Section spec.
Context `{Oracle, Chrono} `{!OrderLaws}.
Context (overflow_checks : bool).

Lemma evict_loop_spec fuel max (w : World Entries) :
  (size (st w) <= fuel + max)%nat →
  ∃ w', evict_loop fuel max w = (Ok (), w') ∧ (size (st w') <= max)%nat ∧
    evicts_oldest (st w) (st w') ∧ (st w' = st w ∨ size (st w') = max).
Proof.
  revert w. induction fuel as [|fuel IH]; intros w Hsize; cbn [evict_loop].
  { exists w. split; [done|]. split; [lia|]. split; [apply evicts_oldest_refl|by left]. }
  run. destruct (Nat.leb_spec (size (st w)) max) as [Hle|Hgt].
  { run. exists w. destruct w. split; [done|]. split; [done|]. split; [apply evicts_oldest_refl|by left]. }
  run. set (order := any_order (tick w) (map_to_list (st w))).
  assert (∀ k e, (k, e) ∈ order ↔ st w !! k = Some e) as Horder.
  { intros k e. unfold order. rewrite any_order_perm. apply elem_of_map_to_list. }
  destruct (min_by_key_spec (λ '(_, e), e_accessed e) order) as ([lru e0] & -> & Hin & Hmin).
  { intros Hnil. assert (length order = size (st w)) as Hlen.
    { unfold order. by rewrite any_order_perm, length_map_to_list. }
    rewrite Hnil in Hlen. simpl in Hlen. lia. }
  apply Horder in Hin. run.
  set (w1 := mkWorld (delete lru (st w)) (S (tick w))).
  assert (size (st w) = S (size (st w1))) as Hdel.
  { unfold w1. cbn [st]. rewrite map_size_delete_Some by (by eexists).
    assert (size (st w) ≠ 0%nat); [|lia]. lia. }
  destruct (IH w1) as (w' & -> & Hmax & [Hsub Hold] & Hexact); [lia|].
  exists w'. split; [done|]. split; [done|]. split.
  - split; [etrans; [done|apply delete_subseteq]|]. intros k e k' e' Hk Hk' He'.
    destruct (decide (k = lru)) as [->|Hne].
    + rewrite Hin in Hk. injection Hk as <-.
      apply (Hmin (k', e')), Horder. pose proof (lookup_weaken _ _ _ _ He' Hsub) as Hl.
      unfold w1 in Hl. cbn [st] in Hl.
      by apply lookup_delete_Some in Hl as [_ ?].
    + apply (Hold k e k' e'); [|done..]. unfold w1. cbn [st]. by rewrite lookup_delete_ne.
  - right. destruct Hexact as [Heq|]; [|done]. rewrite Heq in *. lia.
Qed.

(** * Writing *)

(** The effect of storing [entry] under [key] when the clock then reads [now]:
    nothing is evicted while the cache has room; otherwise the expired entries
    go first, and then as many of the least recently used as needed. *)
Definition stores (key : string) (entry : CacheEntry) (now : Z) (s s' : CacheStore) : Prop :=
  let m := <[key := entry]> (inner s) in
  let live := retain_live now m in
  poisoned s' = false ∧ max_entries s' = max_entries s ∧
  (size (inner s') <= max_entries s)%nat ∧
  ((size m <= max_entries s)%nat → inner s' = m) ∧
  ((max_entries s < size m)%nat →
    evicts_oldest live (inner s') ∧ (inner s' = live ∨ size (inner s') = max_entries s)).

Lemma run_locked {A} (body : nat → M Error Entries A) w :
  poisoned (st w) = false →
  locked body w =
    let '(r, w') := body (max_entries (st w)) (mkWorld (inner (st w)) (tick w)) in
    (r, mkWorld (mkStore (st w') (if r is Err (Panicked _) then true else false)
                         (max_entries (st w))) (tick w')).
Proof. intros Hp. unfold locked. by rewrite Hp. Qed.

Lemma ticks_evict_loop fuel max : Ticks (evict_loop fuel max).
Proof. induction fuel; simpl; ticks_go; done. Qed.

Lemma set_body_spec key entry (s : CacheStore) n :
  poisoned s = false →
  ∃ w', locked (set_body key entry) (mkWorld s n) = (Ok (), w') ∧ (n <= tick w')%nat ∧
    ((max_entries s < size (<[key := entry]> (inner s)))%nat → (n < tick w')%nat) ∧
    stores key entry (clock n) s (st w').
Proof.
  intros Hp. rewrite run_locked by done. unfold set_body, stores. run.
  set (m := <[key := entry]> (inner s)). cbn [max_entries].
  destruct (Nat.leb_spec (size m) (max_entries s)) as [Hle|Hgt]; run.
  { eexists. split; [done|]. cbn [st tick inner]. split; [done|]. split; [lia|].
    do 4 (split; [done|]). lia. }
  destruct (evict_loop_spec (size (retain_live (clock n) m)) (max_entries s)
    (mkWorld (retain_live (clock n) m) (S n))) as (w' & Hrun & Hmax & Hev & Hex); [cbn [st]; lia|].
  pose proof (ticks_evict_loop (size (retain_live (clock n) m)) (max_entries s)
    (mkWorld (retain_live (clock n) m) (S n))) as Ht. rewrite Hrun in Ht |- *.
  eexists. split; [done|]. cbn [st snd tick] in *. split; [lia|]. split; [lia|].
  do 3 (split; [done|]). split; [|done]. lia.
Qed.

Lemma expire_at_utc_cases {St} ttl (w : World St) :
  st (expire_at_utc ttl w).2 = st w ∧
  match (expire_at_utc ttl w).1 with Ok _ => True | Err e => ∃ message, e = Panicked message end.
Proof.
  unfold expire_at_utc, seconds, add_time. destruct (ttl <=? 0); run; [done|].
  destruct (duration_seconds ttl) as [d|]; run; [|naive_solver].
  destruct (add_duration (clock (tick w)) d); run; naive_solver.
Qed.

Lemma ticks_expire_at_utc {St} ttl : Ticks (St:=St) (expire_at_utc ttl).
Proof. unfold expire_at_utc, seconds, add_time. ticks_go. Qed.

(** What [get] returns for an entry that is there. *)
Lemma get_hit key e w :
  poisoned (st w) = false → inner (st w) !! key = Some e → entry_expired (clock (tick w)) e = false →
  (get key w).1 = Ok (Some (e_value e, e_type e)).
Proof.
  intros Hp He Hx. unfold get. rewrite run_locked by done. run. unfold key_expired.
  rewrite He, Hx. by run.
Qed.

(** A stored entry that is not expired and newer than all others is not evicted. *)
Lemma stores_kept key entry at_ s s' :
  stores key entry at_ s s' → (1 <= max_entries s)%nat →
  ((max_entries s < size (<[key := entry]> (inner s)))%nat → entry_expired at_ entry = false) →
  (∀ k e, inner s !! k = Some e → e_accessed e < e_accessed entry) →
  inner s' !! key = Some entry.
Proof.
  intros (_ & _ & _ & Hroom & Hfull) Hmax Hexp Hnew. set (m := <[key := entry]> (inner s)) in *.
  destruct (decide (size m <= max_entries s)%nat) as [Hle|Hgt].
  { rewrite Hroom by done. unfold m. by rewrite lookup_insert_eq. }
  destruct Hfull as [[Hsub Hold] Hsize]; [lia|]. specialize (Hexp ltac:(lia)).
  assert (retain_live at_ m !! key = Some entry) as Hlive.
  { apply map_lookup_filter_Some. unfold m. by rewrite lookup_insert_eq. }
  destruct (inner s' !! key) as [e|] eqn:Hk.
  { pose proof (lookup_weaken _ _ _ _ Hk Hsub). congruence. }
  assert (inner s' = ∅) as Hempty.
  { apply map_empty. intros k. destruct (inner s' !! k) as [e|] eqn:He; [|done]. exfalso.
    specialize (Hold _ _ _ _ Hlive Hk He). pose proof (lookup_weaken _ _ _ _ He Hsub) as Hm.
    apply map_lookup_filter_Some in Hm as [Hm _]. unfold m in Hm.
    apply lookup_insert_Some in Hm as [[-> <-]|[_ Hm]]; [congruence|].
    specialize (Hnew _ _ Hm). lia. }
  rewrite Hempty in Hsize, Hk. destruct Hsize as [Heq|Hsize].
  - rewrite <-Heq in Hlive. done.
  - rewrite map_size_empty in Hsize. lia.
Qed.

End spec.

Section properties.
Context `{Oracle, Chrono} `{!OrderLaws}.


(** Reading one's own write: when the clock has moved on since every earlier
    access and the time to live has not run out, [get] after [set] returns the
    value and its normalized type, however full the cache was. *)
Theorem get_after_set key value value_type ttl_secs w w1 :
  poisoned (st w) = false → (1 <= max_entries (st w))%nat →
  set key value value_type ttl_secs w = (Ok (), w1) →
  (∀ n k e, (tick w <= n)%nat → inner (st w) !! k = Some e → e_accessed e < clock n) →
  (∀ n deadline, (tick w <= n <= tick w1)%nat →
     (expire_at_utc ttl_secs w).1 = Ok (Some deadline) → clock n < deadline) →
  (get key w1).1 = Ok (Some (value, normalize_value_type value_type)).
Proof.
  intros Hp Hmax Hset Hnew Hlive. unfold set in Hset. rewrite run_bind in Hset.
  destruct (expire_at_utc_cases ttl_secs w) as [Hst Hr].
  destruct (expire_at_utc ttl_secs w) as [[deadline|e] w2] eqn:Hexp; [|done]. cbn [fst snd] in *.
  assert (tick w <= tick w2)%nat as Ht.
  { pose proof (ticks_expire_at_utc ttl_secs w) as Ht. by rewrite Hexp in Ht. }
  unfold new_entry in Hset. rewrite run_bind in Hset. revert Hset. run. rewrite Hst. intros Hset.
  set (entry := {| e_value := value |}) in Hset.
  destruct (set_body_spec key entry (st w) (S (tick w2)) Hp) as (w' & Hrun & Ht1 & Ht2 & Hs).
  rewrite Hrun in Hset. injection Hset as ->.
  assert (∀ n, (tick w <= n <= tick w1)%nat → entry_expired (clock n) entry = false) as Hfresh.
  { intros n Hn. unfold entry_expired. cbn [e_expire entry]. destruct deadline as [d|]; [|done].
    specialize (Hlive n d Hn eq_refl). lia. }
  apply (get_hit key entry); [apply Hs| |apply Hfresh; lia].
  eapply stores_kept; [done|done| |].
  - intros Hgt. apply Hfresh. specialize (Ht2 Hgt). lia.
  - intros k e He. apply (Hnew (tick w2) k e); [done|done].
Qed.

(** * Counters *)

Fixpoint partial_sums (acc : Z) (l : list Z) : list Z :=
  match l with
  | [] => []
  | x :: l => (acc + x) :: partial_sums (acc + x) l
  end.

Context (overflow_checks : bool).

(** The answers to successive increments of one key. *)
Definition incr_all (key : string) (ttl_secs : Z) (deltas : list Z) : M Error CacheStore (list Z) :=
  fold_each deltas [] (λ acc delta,
    v ← incr overflow_checks key delta ttl_secs; mret (acc ++ [v])).

(** A key that counts: absent at zero, or holding a number without expiry. *)
Definition counts (key : string) (n : Z) (s : CacheStore) : Prop :=
  poisoned s = false ∧
  match inner s !! key with
  | None => n = 0
  | Some e => e_value e = as_bytes (print_i64 n) ∧ e_type e = TYPE_LONG ∧ e_expire e = None
  end.

Lemma parse_i64_print n : is_i64 n → parse_i64 (as_bytes (print_i64 n)) = Some n.
Proof.
  intros Hn. pose proof (print_i64_visible n Hn) as Hv. unfold parse_i64.
  rewrite from_utf8_as_bytes by (by apply all_visible_utf8). simpl.
  by rewrite all_visible_trim, parse_print_i64.
Qed.

Lemma incr_step key n delta ttl_secs w :
  counts key n (st w) → is_i64 n → is_i64 (n + delta) → ttl_secs <= 0 →
  ∃ w', incr overflow_checks key delta ttl_secs w = (Ok (n + delta), w') ∧
    counts key (n + delta) (st w') ∧ is_Some (inner (st w') !! key).
Proof.
  intros [Hp Hk] Hn Hsum Httl. unfold incr. rewrite run_locked by done. run.
  unfold key_expired. destruct (inner (st w) !! key) as [e|] eqn:He.
  - destruct Hk as (Hv & Ht & Hx). unfold entry_expired. rewrite Hx, He, Hv, parse_i64_print by done.
    cbn [ok_or]. run. unfold add_i64. rewrite decide_True by done. run.
    eexists. split; [done|]. split; [split; [done|]|]; cbn [st inner]; rewrite lookup_insert_eq; by eauto.
  - rewrite He. subst n. run. unfold expire_at_utc. rewrite (proj2 (Z.leb_le _ _)) by done. run.
    unfold new_entry. run. eexists. split; [done|].
    split; [split; [done|]|]; cbn [st inner]; rewrite lookup_insert_eq; by eauto.
Qed.

Lemma incr_all_run key ttl_secs deltas n acc w :
  counts key n (st w) → is_i64 n → Forall is_i64 (partial_sums n deltas) → ttl_secs <= 0 →
  ∃ w', fold_each deltas acc (λ acc delta,
      v ← incr overflow_checks key delta ttl_secs; mret (acc ++ [v])) w =
      (Ok (acc ++ partial_sums n deltas), w') ∧
    counts key (foldl Z.add n deltas) (st w') ∧
    (is_Some (inner (st w) !! key) ∨ deltas ≠ [] → is_Some (inner (st w') !! key)).
Proof.
  revert n acc w. induction deltas as [|d deltas IH]; intros n acc w Hc Hn Hs Ht.
  { exists w. rewrite app_nil_r. split; [done|]. split; [done|]. naive_solver. }
  cbn [partial_sums] in Hs. inv Hs. cbn [fold_each]. rewrite !run_bind.
  destruct (incr_step key n d ttl_secs w) as (w1 & -> & Hc1 & Hk1); [done..|]. run.
  destruct (IH (n + d) (acc ++ [n + d]) w1) as (w' & -> & Hc' & Hk'); [done..|].
  exists w'. rewrite <-app_assoc. split; [done|]. split; [done|]. intros _.
  apply Hk'. by left.
Qed.

(** Counters: successive increments of a fresh key, whose partial sums fit
    an [i64], answer exactly the partial sums, and the key then reads as the
    decimal text of their total. *)
Theorem incr_counts key ttl_secs deltas w :
  poisoned (st w) = false → inner (st w) !! key = None → ttl_secs <= 0 → deltas ≠ [] →
  Forall is_i64 (partial_sums 0 deltas) →
  ∃ w', incr_all key ttl_secs deltas w = (Ok (partial_sums 0 deltas), w') ∧
    (get key w').1 = Ok (Some (as_bytes (print_i64 (foldl Z.add 0 deltas)), TYPE_LONG)).
Proof.
  intros Hp Hk Ht Hne Hs.
  destruct (incr_all_run key ttl_secs deltas 0 [] w) as (w' & Hrun & [Hp' Hc] & Hsome).
  { split; [done|]. by rewrite Hk. } { done. } { done. } { done. }
  destruct Hsome as [e He]; [by right|]. rewrite He in Hc. destruct Hc as (Hv & Hty & Hx).
  exists w'. split; [done|]. rewrite <-Hv, <-Hty. apply get_hit; [done..|].
  unfold entry_expired. by rewrite Hx.
Qed.

(** The capacity does not hold for counters: [incr] of a new key in a full
    cache leaves one entry more than the capacity. *)
Theorem incr_exceeds_capacity key delta w :
  poisoned (st w) = false → inner (st w) !! key = None →
  size (inner (st w)) = max_entries (st w) →
  size (inner (st (incr overflow_checks key delta 0 w).2)) = S (max_entries (st w)).
Proof.
  intros Hp Hk Hsize. unfold incr. rewrite run_locked by done. run. unfold key_expired.
  rewrite Hk. rewrite Hk. run. unfold expire_at_utc. cbn [Z.leb Z.compare]. run. unfold new_entry. run.
  cbn [snd st inner]. by rewrite map_size_insert_None, Hsize.
Qed.

(** * A poisoned mutex *)

Inductive CacheOp :=
  | CSet (key : string) (value : list Z) (value_type : string) (ttl_secs : Z)
  | CGet (key : string)
  | CDelete (key : string)
  | CIncr (key : string) (delta ttl_secs : Z)
  | CExpire (key : string) (ttl_secs : Z)
  | CTtl (key : string)
  | CExists (key : string)
  | CPurge
  | CEntries.

Definition outcome {A} (x : result Error A * World CacheStore) : bool * World CacheStore :=
  (if x.1 is Err (Panicked _) then true else false, x.2).

(** Runs an operation: whether it panicked, and the world after it. *)
Definition cache_exec (op : CacheOp) (w : World CacheStore) : bool * World CacheStore :=
  match op with
  | CSet key value value_type ttl_secs => outcome (set key value value_type ttl_secs w)
  | CGet key => outcome (get key w)
  | CDelete key => outcome (cache_delete key w)
  | CIncr key delta ttl_secs => outcome (incr overflow_checks key delta ttl_secs w)
  | CExpire key ttl_secs => outcome (expire key ttl_secs w)
  | CTtl key => outcome (ttl key w)
  | CExists key => outcome (cache_exists key w)
  | CPurge => outcome (cache_purge_expired w)
  | CEntries => outcome (entries w)
  end.

Definition cache_exec_all (ops : list CacheOp) (w : World CacheStore) : list bool * World CacheStore :=
  foldl (λ '(rs, w) op, let '(r, w) := cache_exec op w in (rs ++ [r], w)) ([], w) ops.

Lemma locked_poisoned {A} (body : nat → M Error Entries A) w :
  poisoned (st w) = true → locked body w = (Err (Panicked "cache lock poisoned"), w).
Proof. intros Hp. unfold locked. by rewrite Hp. Qed.

Lemma cache_exec_poisoned op w :
  poisoned (st w) = true → (cache_exec op w).1 = true ∧ st (cache_exec op w).2 = st w.
Proof.
  intros Hp. destruct op; cbn [cache_exec];
    try (unfold get, cache_delete, incr, expire, ttl, cache_exists, cache_purge_expired, entries;
         rewrite ?run_bind, locked_poisoned by done; done).
  - unfold set. rewrite run_bind. destruct (expire_at_utc_cases ttl_secs w) as [Hst Hr].
    destruct (expire_at_utc ttl_secs w) as [[d|e] w1]; cbn [fst snd] in *; [|by destruct Hr as [? ->]].
    unfold new_entry. rewrite run_bind. run. rewrite locked_poisoned by (cbn [st]; congruence). done.
  - unfold cache_exists, ttl. rewrite run_bind, locked_poisoned by done. done.
Qed.

Lemma cache_exec_all_poisoned ops w rs :
  poisoned (st w) = true → Forall (eq true) rs →
  Forall (eq true) (foldl (λ '(rs, w) op, let '(r, w) := cache_exec op w in (rs ++ [r], w)) (rs, w) ops).1.
Proof.
  revert w rs. induction ops as [|op ops IH]; intros w rs Hp Hrs; [done|]. cbn [foldl].
  destruct (cache_exec_poisoned op w Hp) as [Hr Hw]. destruct (cache_exec op w) as [r w1].
  cbn [fst snd] in *. subst r. apply IH; [congruence|]. apply Forall_app. by split; [|constructor].
Qed.

Context `{!ChronoLaws}.

(** One request can disable the cache: setting the expiry of an existing key
    to more seconds than a duration can hold panics while the lock is held, and
    from then on every operation panics. *)
Theorem expire_poisons key ttl_secs e w ops :
  poisoned (st w) = false → inner (st w) !! key = Some e →
  entry_expired (clock (tick w)) e = false → I64_MAX / 1000 < ttl_secs →
  let '(r, w') := cache_exec (CExpire key ttl_secs) w in
  r = true ∧ Forall (eq true) (cache_exec_all ops w').1.
Proof.
  intros Hp He Hx Httl. cbn [cache_exec]. unfold expire. rewrite run_locked by done. run.
  unfold key_expired. rewrite He, Hx. run. rewrite He. unfold expire_at_utc, seconds.
  assert (0 < I64_MAX / 1000) by done.
  rewrite (proj2 (Z.leb_gt ttl_secs 0)) by lia. rewrite duration_seconds_spec.
  rewrite (proj2 (Z.leb_gt (Z.abs ttl_secs) _)) by lia. run. cbn [outcome fst snd]. split; [done|].
  by apply cache_exec_all_poisoned.
Qed.

End properties.

(** * Locks *)

Section locks.
Context `{Oracle, Chrono}.

Inductive LockOp :=
  | LAcquire (key owner : string) (ttl_secs : Z)
  | LRenew (key owner : string) (ttl_secs : Z)
  | LRelease (key owner : string)
  | LIsLocked (key : string)
  | LPurge
  | LList.

(** Whether an operation acts for [owner] on the lock it holds. *)
Definition acts_for (key owner : string) (op : LockOp) : bool :=
  match op with
  | LRenew k o _ | LRelease k o => bool_decide (k = key ∧ o = owner)
  | _ => false
  end.

(** Runs an operation: whether it was answered yes, and the world after it. *)
Definition lock_exec (op : LockOp) (w : World Locks) : bool * World Locks :=
  let yes (x : result Error bool * World Locks) := (if x.1 is Ok b then b else false, x.2) in
  match op with
  | LAcquire key owner ttl_secs => yes (lock_acquire key owner ttl_secs w)
  | LRenew key owner ttl_secs => yes (lock_renew key owner ttl_secs w)
  | LRelease key owner => yes (lock_release key owner w)
  | LIsLocked key => yes (lock_is_locked key w)
  | LPurge => (false, (lock_purge_expired w).2)
  | LList => (false, (lock_list w).2)
  end.

Fixpoint lock_exec_all (ops : list LockOp) (w : World Locks) : list (LockOp * bool) * World Locks :=
  match ops with
  | [] => ([], w)
  | op :: ops =>
      let '(r, w) := lock_exec op w in
      let '(rs, w) := lock_exec_all ops w in
      ((op, r) :: rs, w)
  end.

Lemma lock_exec_ticks op w : (tick w <= tick (lock_exec op w).2)%nat.
Proof.
  revert w. destruct op; cbn [lock_exec snd];
    lazymatch goal with |- ∀ w, (tick w <= tick (?m w).2)%nat => change (Ticks m) end;
    unfold lock_acquire, lock_renew, lock_release, lock_is_locked, text_expired,
      lock_purge_expired, lock_list, rfc_now, seconds, add_time; ticks_go.
Qed.

Lemma lock_exec_all_ticks ops w : (tick w <= tick (lock_exec_all ops w).2)%nat.
Proof.
  revert w. induction ops as [|op ops IH]; intros w; [done|]. cbn [lock_exec_all].
  pose proof (lock_exec_ticks op w) as Ht. destruct (lock_exec op w) as [r w1].
  specialize (IH w1). destruct (lock_exec_all ops w1) as [rs w2]. cbn [snd] in *. lia.
Qed.

Context `{!ChronoLaws}.

(** The stored expiry of a lease that lasts beyond a reading of the clock. *)
Lemma not_expired until n :
  time_ok until → time_ok (clock n) → clock n < until →
  str_leb (to_rfc3339 until) (to_rfc3339 (clock n)) = false.
Proof. intros Hu Hn Hlt. rewrite rfc3339_order by done. by apply Z.leb_gt. Qed.

(** A live lock survives an operation of anybody else, and nobody acquires it. *)
Lemma lock_exec_protects op key row until w :
  st w !! key = Some row → l_expire row = to_rfc3339 until → time_ok until →
  time_ok (clock (tick w)) → clock (tick w) < until → acts_for key (l_owner row) op = false →
  st (lock_exec op w).2 !! key = Some row ∧
  ((lock_exec op w).1 = true → ∀ o ttl, op ≠ LAcquire key o ttl).
Proof.
  intros Hrow Hexp Hu Hn Hlt Hop. pose proof (not_expired until (tick w) Hu Hn Hlt) as Hlive.
  rewrite <-Hexp in Hlive. destruct op as [k o ttl|k o ttl|k o|k| |]; cbn [lock_exec acts_for] in *.
  - unfold lock_acquire, rfc_now, seconds, add_time. run. destruct (fault _); run; [done|].
    set (t1 := match st w !! k with Some _ => _ | None => _ end).
    assert (t1 !! key = Some row) as Ht1.
    { unfold t1. clear t1. destruct (st w !! k) as [r|] eqn:Hk; [|done]. case_match eqn:Hle; [|done].
      rewrite lookup_delete_ne; [done|]. intros ->. congruence. }
    destruct (duration_seconds ttl); run; [|done]. destruct (add_duration _ _); run; [|done].
    destruct (fault _); run; [done|]. destruct (t1 !! k) as [r|] eqn:Hk; cbn [fst snd st]; [done|].
    assert (k ≠ key) by congruence. split; [by rewrite lookup_insert_ne|naive_solver].
  - apply bool_decide_eq_false in Hop. unfold lock_renew, seconds, add_time, held_by. run. destruct (duration_seconds ttl); run; [|done].
    destruct (add_duration _ _); run; [|done]. destruct (fault _); run; [done|].
    destruct (st w !! k) as [r|] eqn:Hk; simpl; [|done]. case_bool_decide as Ho; simpl; [|done].
    split; [|done]. rewrite lookup_insert_ne; [done|]. intros ->.
    apply Hop. split; congruence.
  - apply bool_decide_eq_false in Hop. unfold lock_release, held_by. run. destruct (fault _); run; [done|].
    destruct (st w !! k) as [r|] eqn:Hk; simpl; [|done]. case_bool_decide as Ho; simpl; [|done].
    split; [|done]. rewrite lookup_delete_ne; [done|]. intros ->.
    apply Hop. split; congruence.
  - unfold lock_is_locked, text_expired. run. destruct (fault _); run; [done|].
    destruct (st w !! k); run; [|done]. destruct (parse_from_rfc3339 _); run; done.
  - unfold lock_purge_expired, rfc_now. run. destruct (fault _); run; [done|]. split; [|done].
    by apply map_lookup_filter_Some.
  - unfold lock_list, rfc_now. run. destruct (fault _); run; [done|]. destruct (fault _); run;
      (split; [|done]); by apply map_lookup_filter_Some.
Qed.

(** C35: Locks exclude: from the moment a lock is held until its lease ends, over
    every sequence of requests in which its owner neither renews nor releases
    it, whatever the storage refuses, the lock keeps its owner and lease and
    nobody, the owner included, acquires it again. *)
Theorem lock_excludes ops key row until w :
  st w !! key = Some row → l_expire row = to_rfc3339 until → time_ok until →
  Forall (λ op, acts_for key (l_owner row) op = false) ops →
  (∀ n, (tick w <= n <= tick (lock_exec_all ops w).2)%nat → time_ok (clock n) ∧ clock n < until) →
  st (lock_exec_all ops w).2 !! key = Some row ∧
  ∀ o ttl, (LAcquire key o ttl, true) ∉ (lock_exec_all ops w).1.
Proof.
  intros Hrow Hexp Hu Hops. revert w Hrow. induction Hops as [|op ops Hop Hops IH]; intros w Hrow Hclock.
  { split; [done|]. intros o ttl. apply not_elem_of_nil. }
  cbn [lock_exec_all] in *. pose proof (lock_exec_ticks op w) as Ht1.
  destruct (lock_exec_protects op key row until w) as [Hrow1 Hacq]; try done.
  1,2: apply Hclock; destruct (lock_exec op w) as [r w1]; pose proof (lock_exec_all_ticks ops w1) as Ht2;
    destruct (lock_exec_all ops w1); cbn [snd] in *; lia.
  destruct (lock_exec op w) as [r w1]. cbn [fst snd] in *. specialize (IH w1 Hrow1).
  destruct (lock_exec_all ops w1) as [rs w2]. cbn [fst snd] in *.
  destruct IH as [IH1 IH2]; [intros n Hn; apply Hclock; lia|]. split; [done|].
  intros o ttl [[= <- <-]|Hin]%elem_of_cons; [by apply (Hacq eq_refl o ttl)|by apply (IH2 o ttl)].
Qed.

(** A dead holder never blocks: when no statement fails, a lock that is free
    or whose lease has ended is acquired by whoever asks, for a time to live
    that fits the calendar, and is then theirs until that time has passed. *)
Theorem lock_takeover key owner ttl_secs w :
  (∀ n, fault n = None) → time_ok (clock (tick w)) → time_ok (clock (S (S (tick w)))) →
  0 < ttl_secs → time_ok (clock (S (S (tick w))) + ttl_secs * 10 ^ 9) →
  (∀ row, st w !! key = Some row → ∃ until, l_expire row = to_rfc3339 until ∧ time_ok until ∧
     until <= clock (tick w)) →
  ∃ w' row, lock_acquire key owner ttl_secs w = (Ok true, w') ∧ st w' !! key = Some row ∧
    l_owner row = owner ∧ l_expire row = to_rfc3339 (clock (S (S (tick w))) + ttl_secs * 10 ^ 9).
Proof.
  intros Hf Hn Hn2 Hpos Hfits Hdead. unfold lock_acquire, rfc_now, seconds, add_time. run.
  rewrite !Hf. run. set (t1 := match st w !! key with Some _ => _ | None => _ end).
  assert (t1 !! key = None) as Ht1.
  { unfold t1. clear t1. destruct (st w !! key) as [r|] eqn:Hk; [|done].
    destruct (Hdead r eq_refl) as (until & He & Hu & Hle).
    rewrite He, rfc3339_order, (proj2 (Z.leb_le _ _)) by done. apply lookup_delete_eq. }
  rewrite duration_seconds_spec, (proj2 (Z.leb_le _ _)); last first.
  { destruct Hfits as [_ Hfits]. destruct Hn2 as [H0n _].
    assert (I64_MAX / 1000 = 9223372036854775) as -> by done.
    assert (TIME_END = 253402300800000000000) as HE by done. rewrite HE in Hfits. lia. }
  run. rewrite add_duration_ok by done. run. rewrite Hf, Ht1. do 2 eexists. split; [done|].
  cbn [st]. rewrite lookup_insert_eq. by split_and!.
Qed.

End locks.

(** * The properties in the demonstration environment *)

(** A cache of two entries, both in use. *)
Definition demo_entry (text : string) (at_ : Z) : CacheEntry :=
  {| e_value := as_bytes text; e_type := "string"; e_expire := None; e_accessed := demo_start + at_ |}.

Definition demo_store : CacheStore :=
  mkStore {[ "a" := demo_entry "1" 0; "b" := demo_entry "2" 1 ]} false 2.

Definition demo_cache : World CacheStore := mkWorld demo_store 5.


Lemma get_after_set_witness :
  (get (H := demo_oracle) "c" (set (H := demo_oracle) (H0 := demo_chrono) "c" [51] " " 60
    demo_cache).2).1 = Ok (Some ([51], "string")).
Proof.
  apply (get_after_set (H := demo_oracle) (H0 := demo_chrono) (H1 := demo_order)
    "c" [51] " " 60 demo_cache); [done|by vm_compute; lia|by vm_compute| |].
  - intros n k e Hn Hk. unfold clock, demo_oracle. simpl in Hn.
    unfold demo_cache, demo_store in Hk. cbn [st inner] in Hk.
    apply lookup_insert_Some in Hk as [[<- <-]|[_ Hk]];
      [|apply lookup_singleton_Some in Hk as [<- <-]]; cbn [e_accessed demo_entry]; lia.
  - intros n d [_ Hn] Hd. assert (n <= 20)%nat as Hb.
    { etrans; [exact Hn|]. apply Nat.leb_le. by vm_compute. }
    clear Hn. vm_compute in Hd. injection Hd as <-. unfold clock, demo_oracle.
    assert (demo_start = 1700000000000000000) as -> by done. lia.
Defined.

Lemma incr_counts_witness :
  ∃ w', incr_all (H := demo_oracle) (H0 := demo_chrono) true "n" 0 [5; -2; 39] demo_cache =
      (Ok [5; 3; 42], w') ∧
    (get (H := demo_oracle) "n" w').1 = Ok (Some (as_bytes "42", "long")).
Proof.
  apply (incr_counts (H := demo_oracle) (H0 := demo_chrono) true "n" 0 [5; -2; 39] demo_cache);
    [done|by vm_compute|done|done|]. by repeat constructor.
Defined.

Lemma incr_exceeds_capacity_witness :
  size (inner (st (incr (H := demo_oracle) (H0 := demo_chrono) true "n" 1 0 demo_cache).2)) = 3%nat.
Proof.
  apply (incr_exceeds_capacity (H := demo_oracle) (H0 := demo_chrono) true "n" 1 demo_cache);
    by vm_compute.
Defined.

Lemma expire_poisons_witness :
  let '(r, w') := cache_exec (H := demo_oracle) (H0 := demo_chrono) true
                    (CExpire "a" 9223372036854776) demo_cache in
  r = true ∧ Forall (eq true) (cache_exec_all (H := demo_oracle) (H0 := demo_chrono) true
                                 [CGet "a"; CSet "z" [] "" 0; CEntries] w').1.
Proof.
  apply (expire_poisons (H := demo_oracle) (H0 := demo_chrono) (H2 := demo_chrono_laws) true "a"
    9223372036854776 (demo_entry "1" 0)); by vm_compute.
Defined.

Definition demo_lock : LockRow :=
  {| l_owner := "job-1"; l_expire := to_rfc3339 (Chrono := demo_chrono) (demo_start + 30 * 10 ^ 9);
     l_create := "" |}.

Definition demo_locks : World Locks := mkWorld {[ "nightly" := demo_lock ]} 0.

Definition demo_requests : list LockOp :=
  [LAcquire "nightly" "job-2" 60; LRelease "nightly" "job-2"; LPurge; LList].

Lemma lock_excludes_witness :
  let out := lock_exec_all (H := demo_oracle) (H0 := demo_chrono) demo_requests demo_locks in
  st out.2 !! "nightly" = Some demo_lock ∧ ∀ o ttl, (LAcquire "nightly" o ttl, true) ∉ out.1.
Proof.
  apply (lock_excludes (H := demo_oracle) (H0 := demo_chrono) (H1 := demo_chrono_laws)
    demo_requests "nightly" demo_lock (demo_start + 30 * 10 ^ 9)); [done|done|done| |].
  - by repeat constructor.
  - intros n [_ Hn]. assert (n <= 20)%nat as Hb.
    { etrans; [exact Hn|]. apply Nat.leb_le. by vm_compute. }
    clear Hn. unfold time_ok, clock, demo_oracle.
    assert (demo_start = 1700000000000000000) as -> by done.
    assert (TIME_END = 253402300800000000000) as -> by done. lia.
Defined.

Lemma lock_takeover_witness :
  ∃ w' row, lock_acquire (H := demo_oracle) (H0 := demo_chrono) "nightly" "job-2" 60
      (mkWorld (st demo_locks) 40) = (Ok true, w') ∧
    st w' !! "nightly" = Some row ∧ l_owner row = "job-2" ∧
    l_expire row = to_rfc3339 (Chrono := demo_chrono) (clock (Oracle := demo_oracle) 42 + 60 * 10 ^ 9).
Proof.
  apply (lock_takeover (H := demo_oracle) (H0 := demo_chrono) (H1 := demo_chrono_laws)
    "nightly" "job-2" 60 (mkWorld (st demo_locks) 40)); [done|by split; vm_compute..|].
  intros row [= <-]. exists (demo_start + 30 * 10 ^ 9). split; [done|]. by split; vm_compute.
Defined.

End CacheSpec.
