(* ===== verification/Store.v ===== *)
(** The broker's tables and the SQL statements on them: the schema, the message
    identifiers and the sharding of src/src/db.rs.

    A table is a finite map from its primary key to a row.  [SELECT] without
    [ORDER BY] and [RETURNING] yield rows in an unspecified order.  The sixteen
    message databases are a list of tables; the control database (topic
    statistics, consumers, minute trends) and the in-memory caches of [Database]
    are fields of [Db].  Counters are unbounded integers: the code would need
    2^63 messages to overflow them. *)

From S2P Require Import Prelude RustStr Topic Model Effects.
Import Topic Model.

Module Store.

(** * Rows *)

(** The values of [messages.status]. *)
Inductive MessageStatus := Pending | Processing | Delivered | Failed | Dropped.

#[export] Instance MessageStatus_eq_dec : EqDecision MessageStatus.
Proof. solve_decision. Defined.

Definition status_text (s : MessageStatus) : string :=
  match s with
  | Pending => "pending"
  | Processing => "processing"
  | Delivered => "delivered"
  | Failed => "failed"
  | Dropped => "dropped"
  end.

(** A row of [messages]; its [id] is the map's key. *)
Record Message := {
  m_key : option string;
  m_topic : string;
  m_payload : list Z;
  m_attributes : string;
  m_status : MessageStatus;
  m_attempts : Z;
  m_next : string;
  m_error : option string;
  m_created : string;
  m_delivered : option string;
  m_lease : option string
}.

#[export] Instance Message_eq_dec : EqDecision Message.
Proof. solve_decision. Defined.

Abbreviation Table := (gmap string Message).

(** A row of [topic_stats]. *)
Record TopicStat := {
  t_accepted : Z;
  t_duplicates : Z;
  t_delivered : Z;
  t_failed : Z;
  t_dropped : Z;
  t_pending : Z;
  t_processing : Z;
  t_delivery : string;
  t_persistence : string;
  t_last_seen : option string;
  t_configured : bool
}.

(** A row of [consumers]. *)
Record Consumer := {
  c_topic : string;
  c_name : string;
  c_attributes : string;
  c_last_seen : string;
  c_created : string
}.

(** [TopicStatsDelta]. *)
Record TopicStatsDelta := { d_accepted : Z; d_duplicates : Z; d_delivered : Z }.

(** [MessageTrendDelta], also the columns of [message_trend_minute]. *)
Record Trend := { tr_accepted : Z; tr_delivered : Z }.

(** [EnqueueInput]. *)
Record EnqueueInput := {
  in_id : string;
  in_key : option string;
  in_topic : string;
  in_payload : list Z;
  in_attributes : gmap string string
}.

(** [Database]: the control database, the shards and the caches. *)
Record Db := mkDb {
  topic_stats : gmap string TopicStat;
  consumers : gmap string Consumer;
  trend_minute : gmap string Trend;
  topic_cache : gmap string TopicConfig;
  shards : list Table;
  cursor : Z;
  stats_delta : gmap string TopicStatsDelta;
  trend_delta : gmap string Trend
}.

Definition MESSAGE_SHARDS : nat := 16.

Definition set_topic_stats f (s : Db) : Db :=
  mkDb (f (topic_stats s)) (consumers s) (trend_minute s) (topic_cache s) (shards s)
       (cursor s) (stats_delta s) (trend_delta s).
Definition set_consumers f (s : Db) : Db :=
  mkDb (topic_stats s) (f (consumers s)) (trend_minute s) (topic_cache s) (shards s)
       (cursor s) (stats_delta s) (trend_delta s).
Definition set_trend_minute f (s : Db) : Db :=
  mkDb (topic_stats s) (consumers s) (f (trend_minute s)) (topic_cache s) (shards s)
       (cursor s) (stats_delta s) (trend_delta s).
Definition set_topic_cache f (s : Db) : Db :=
  mkDb (topic_stats s) (consumers s) (trend_minute s) (f (topic_cache s)) (shards s)
       (cursor s) (stats_delta s) (trend_delta s).
Definition set_shard (i : nat) (f : Table → Table) (s : Db) : Db :=
  mkDb (topic_stats s) (consumers s) (trend_minute s) (topic_cache s) (alter f i (shards s))
       (cursor s) (stats_delta s) (trend_delta s).
Definition set_cursor f (s : Db) : Db :=
  mkDb (topic_stats s) (consumers s) (trend_minute s) (topic_cache s) (shards s)
       (f (cursor s)) (stats_delta s) (trend_delta s).
Definition set_stats_delta f (s : Db) : Db :=
  mkDb (topic_stats s) (consumers s) (trend_minute s) (topic_cache s) (shards s)
       (cursor s) (f (stats_delta s)) (trend_delta s).
Definition set_trend_delta f (s : Db) : Db :=
  mkDb (topic_stats s) (consumers s) (trend_minute s) (topic_cache s) (shards s)
       (cursor s) (stats_delta s) (f (trend_delta s)).

(** The table of a shard; every index the code uses is below sixteen. *)
Definition shard (i : nat) (s : Db) : Table := shards s !!! i.

(** A fresh database. *)
Definition empty_db : Db := mkDb ∅ ∅ ∅ ∅ (replicate MESSAGE_SHARDS ∅) 0 ∅ ∅.

(** * Sharding and message identifiers *)

(** [topic_shard]: FNV-1a, then the low four bits. *)
Definition topic_shard (topic : string) : nat :=
  let hash := foldl (λ hash byte, wrap_u64 (Z.lxor hash byte * 1099511628211))
                    14695981039346656037 (as_bytes topic) in
  Z.to_nat (Z.land hash 15).

(** [format!("s{shard:02}-{}")]. *)
Definition prefixed_id (shard : nat) (rest : string) : string :=
  "s" +:+ pad2 (Z.of_nat shard) +:+ "-" +:+ rest.

(** [message_id_shard]. *)
Definition message_id_shard (id : string) : option nat :=
  rest ← strip_prefix "s" id;
  digits ← (if is_char_boundary (as_bytes rest) 2 then Some (String.substring 0 2 rest) else None);
  shard ← parse_usize digits;
  if (shard <? Z.of_nat MESSAGE_SHARDS) && bool_decide (as_bytes id !! 3%nat = Some 45)
  then Some (Z.to_nat shard) else None.

(** * SQL on one table *)

(** [UPDATE messages SET .. WHERE p]. *)
Definition update_where (p : string → Message → bool) (f : Message → Message) (t : Table)
    : Table := map_imap (λ id m, Some (if p id m then f m else m)) t.

(** [DELETE FROM messages WHERE p]. *)
Definition delete_where (p : string → Message → bool) (t : Table) : Table :=
  filter (λ '(id, m), p id m = false) t.

(** [SELECT .. FROM messages WHERE p]. *)
Definition select_where (p : string → Message → bool) (t : Table) : list (string * Message) :=
  filter (λ '(id, m), p id m = true) (map_to_list t).

(** [rows_affected] of a statement with this [WHERE] clause. *)
Definition count_where (p : string → Message → bool) (t : Table) : Z :=
  Z.of_nat (length (select_where p t)).

(** [SELECT .. WHERE id = ? AND p]. *)
Definition select_id (id : string) (p : Message → bool) (t : Table) : option Message :=
  m ← t !! id; if p m then Some m else None.

(** [UPDATE .. SET f WHERE id = ? AND p], with the row as it was. *)
Definition update_id (id : string) (p : Message → bool) (f : Message → Message) (t : Table)
    : option Message * Table :=
  match select_id id p t with
  | Some m => (Some m, <[id := f m]> t)
  | None => (None, t)
  end.

(** Whether the UNIQUE constraint on [idempotency_key] forbids a row: NULLs are
    distinct from each other. *)
Definition key_taken (key : option string) (t : Table) : bool :=
  match key with
  | None => false
  | Some _ => existsb (λ '(_, m), bool_decide (m_key m = key)) (map_to_list t)
  end.

(** [INSERT OR IGNORE INTO messages]: whether the row was inserted. *)
Definition insert_or_ignore (id : string) (m : Message) (t : Table) : bool * Table :=
  if bool_decide (is_Some (t !! id)) || key_taken (m_key m) t then (false, t)
  else (true, <[id := m]> t).

(** [SELECT id FROM messages WHERE idempotency_key = ?]. *)
Definition id_of_key (key : string) (t : Table) : option string :=
  fst <$> head (select_where (λ _ m, bool_decide (m_key m = Some key)) t).

(** * The changes to a row *)

Definition is_status (s : MessageStatus) (m : Message) : bool := bool_decide (m_status m = s).

(** [id = ? AND lease = ? AND status = 'processing'], for a given id. *)
Definition leased (lease : string) (m : Message) : bool :=
  bool_decide (m_lease m = Some lease) && is_status Processing m.

Definition ready (now : string) (m : Message) : bool :=
  is_status Pending m && str_leb (m_next m) now.

Definition set_status (s : MessageStatus) (m : Message) : Message :=
  {| m_key := m_key m; m_topic := m_topic m; m_payload := m_payload m;
     m_attributes := m_attributes m; m_status := s; m_attempts := m_attempts m;
     m_next := m_next m; m_error := m_error m; m_created := m_created m;
     m_delivered := m_delivered m; m_lease := None |}.

(** [status = 'pending', lease = NULL]. *)
Definition to_pending : Message → Message := set_status Pending.

(** [status = 'processing', attempts = attempts + 1, lease = ?, next_attempt_at = ?]. *)
Definition to_processing (lease visible : string) (m : Message) : Message :=
  {| m_key := m_key m; m_topic := m_topic m; m_payload := m_payload m;
     m_attributes := m_attributes m; m_status := Processing; m_attempts := m_attempts m + 1;
     m_next := visible; m_error := m_error m; m_created := m_created m;
     m_delivered := m_delivered m; m_lease := Some lease |}.

(** [next_attempt_at = ?]. *)
Definition with_next (next : string) (m : Message) : Message :=
  {| m_key := m_key m; m_topic := m_topic m; m_payload := m_payload m;
     m_attributes := m_attributes m; m_status := m_status m; m_attempts := m_attempts m;
     m_next := next; m_error := m_error m; m_created := m_created m;
     m_delivered := m_delivered m; m_lease := m_lease m |}.

(** [last_error = ?]. *)
Definition with_error (error : option string) (m : Message) : Message :=
  {| m_key := m_key m; m_topic := m_topic m; m_payload := m_payload m;
     m_attributes := m_attributes m; m_status := m_status m; m_attempts := m_attempts m;
     m_next := m_next m; m_error := error; m_created := m_created m;
     m_delivered := m_delivered m; m_lease := m_lease m |}.

(** [status = 'delivered', delivered_at = ?, last_error = NULL, lease = NULL]. *)
Definition to_delivered (now : string) (m : Message) : Message :=
  {| m_key := m_key m; m_topic := m_topic m; m_payload := m_payload m;
     m_attributes := m_attributes m; m_status := Delivered; m_attempts := m_attempts m;
     m_next := m_next m; m_error := None; m_created := m_created m;
     m_delivered := Some now; m_lease := None |}.

(** [status = 'dropped', last_error = ?, lease = NULL]. *)
Definition to_dropped (error : string) (m : Message) : Message :=
  set_status Dropped (with_error (Some error) m).

(** The row [enqueue_batch] inserts; the other columns have their defaults. *)
Definition new_row (item : EnqueueInput) (attributes now : string) : Message :=
  {| m_key := in_key item; m_topic := in_topic item; m_payload := in_payload item;
     m_attributes := attributes; m_status := Pending; m_attempts := 0; m_next := now;
     m_error := None; m_created := now; m_delivered := None; m_lease := None |}.

(** * Lemmas *)

Lemma lookup_update_where p f t id :
  update_where p f t !! id = (λ m, if p id m then f m else m) <$> t !! id.
Proof. unfold update_where. rewrite map_lookup_imap. by destruct (t !! id). Qed.

Lemma lookup_delete_where p t id :
  delete_where p t !! id = m ← t !! id; if p id m then None else Some m.
Proof.
  unfold delete_where. destruct (t !! id) as [m|] eqn:E; simpl.
  - destruct (p id m) eqn:Hp.
    + apply map_lookup_filter_None. right. intros m' Hm'. congruence.
    + apply map_lookup_filter_Some. done.
  - apply map_lookup_filter_None. auto.
Qed.

Lemma elem_of_select_where p t id m :
  (id, m) ∈ select_where p t ↔ t !! id = Some m ∧ p id m = true.
Proof.
  unfold select_where. rewrite list_elem_of_filter, elem_of_map_to_list. naive_solver.
Qed.

Lemma NoDup_select_where p t : NoDup (select_where p t).*1.
Proof.
  apply NoDup_fmap_fst.
  - intros id m m'. rewrite !elem_of_select_where. naive_solver.
  - apply NoDup_filter, NoDup_map_to_list.
Qed.

Lemma select_id_Some id p t m : select_id id p t = Some m ↔ t !! id = Some m ∧ p m = true.
Proof.
  unfold select_id. destruct (t !! id) as [m'|]; simpl; [|split; [done|by intros [? _]]].
  destruct (p m') eqn:E; split; try done.
  - by intros [= ->].
  - by intros [[= ->] _].
  - intros [[= ->] ?]. congruence.
Qed.

Lemma key_taken_true k t : key_taken (Some k) t = true ↔ ∃ id m, t !! id = Some m ∧ m_key m = Some k.
Proof.
  unfold key_taken. rewrite existsb_exists. split.
  - intros ([id m] & Hin & Hk). apply bool_decide_eq_true in Hk.
    apply list_elem_of_In, elem_of_map_to_list in Hin. eauto.
  - intros (id & m & Hm & Hk). exists (id, m). rewrite bool_decide_eq_true.
    split; [by apply list_elem_of_In, elem_of_map_to_list|done].
Qed.

Lemma topic_shard_bound topic : (topic_shard topic < MESSAGE_SHARDS)%nat.
Proof.
  unfold topic_shard, MESSAGE_SHARDS. set (h := foldl _ _ _).
  change 15 with (Z.ones 4). rewrite land_low by lia.
  pose proof (Z.mod_pos_bound h (2 ^ 4) ltac:(lia)). change (2 ^ 4) with 16 in *. lia.
Qed.

Lemma message_id_shard_bound id i : message_id_shard id = Some i → (i < MESSAGE_SHARDS)%nat.
Proof.
  unfold message_id_shard. intros H. destruct (strip_prefix "s" id); simpl in H; [|done].
  case_match; simpl in H; [|done]. destruct (parse_usize _) as [n|]; simpl in H; [|done].
  case_match eqn:Hc; [|done]. simplify_eq. apply andb_prop in Hc as [Hc _].
  apply Z.ltb_lt in Hc. unfold MESSAGE_SHARDS in *. lia.
Qed.

Lemma message_id_shard_prefixed i rest :
  (i < MESSAGE_SHARDS)%nat → message_id_shard (prefixed_id i rest) = Some i.
Proof. intros H. do 16 (destruct i as [|i]; [done|]). unfold MESSAGE_SHARDS in H. lia. Qed.

Lemma shard_set_shard_gen i j f s :
  shard j (set_shard i f s) =
  if decide (i = j ∧ (i < length (shards s))%nat) then f (shard i s) else shard j s.
Proof. apply list_lookup_total_alter. Qed.

Lemma shard_set_shard i j f s :
  (i < length (shards s))%nat →
  shard j (set_shard i f s) = if decide (i = j) then f (shard i s) else shard j s.
Proof. intros Hi. rewrite shard_set_shard_gen. repeat case_decide; tauto. Qed.

End Store.
