(* ===== verification/Db.v ===== *)
(** The operations of the queue database: src/src/db.rs, [Database].

    Every method is a program over [Store.Db] in which each SQL statement is one
    atomic step that the storage may refuse, each lock-protected update of a
    cache is one atomic step, and clock readings, identifiers and unspecified
    row orders come from the oracle. *)

From S2P Require Import Prelude RustStr Topic Model Effects Store.
Import Topic Model Store.

Module Db.

(** serde_json's part of the code: parsing and printing attribute columns. *)
Class Serde := {
  (** [serde_json::from_str::<Value>(_).ok()]. *)
  json_from_str : string → option Json;
  (** [serde_json::to_string(&HashMap<String, String>)]. *)
  attrs_to_json : gmap string string → option string;
  (** [serde_json::from_str::<HashMap<String, String>>(_).ok()]. *)
  attrs_from_json : string → option (gmap string string)
}.

(** Printed attributes parse back, as a value and as a map. *)
Class SerdeLaws `{Serde} : Prop := {
  attrs_json_parse m s : attrs_to_json m = Some s → is_Some (json_from_str s);
  attrs_json_roundtrip m s : attrs_to_json m = Some s → attrs_from_json s = Some m
}.

(** A concrete instance, for evaluating the model: attributes as the binary
    digits of their code. *)
Fixpoint pos_text (p : positive) : string :=
  match p with
  | xH => ""
  | xO p => String "0" (pos_text p)
  | xI p => String "1" (pos_text p)
  end.

Fixpoint text_pos (s : string) : option positive :=
  match s with
  | EmptyString => Some xH
  | String "0" s => xO <$> text_pos s
  | String "1" s => xI <$> text_pos s
  | _ => None
  end.

Lemma text_pos_text p : text_pos (pos_text p) = Some p.
Proof. induction p as [p IH|p IH|]; simpl; [by rewrite IH..|done]. Qed.

#[local] Instance demo_serde : Serde := {
  json_from_str s := Some (JString s);
  attrs_to_json m := Some (pos_text (encode m));
  attrs_from_json s := text_pos s ≫= decode
}.

Lemma demo_serde_laws : SerdeLaws.
Proof.
  split.
  - intros m s _. by eexists.
  - intros m s [= <-]. unfold attrs_from_json, demo_serde.
    rewrite text_pos_text. simpl. apply decode_encode.
Qed.

(** * Orders *)

(** [ORDER BY created_at]. *)
Definition created_le (a b : string * Message) : Prop := str_le (m_created a.2) (m_created b.2).
#[export] Instance created_le_dec : RelDecision created_le.
Proof. unfold created_le. intros a b. apply _. Defined.

(** [ORDER BY created_at DESC, id DESC], also Rust's order on pairs of strings
    reversed. *)
Definition newest_first (a b : string * Message) : Prop :=
  str_ltb (m_created b.2) (m_created a.2) = true ∨
  (m_created a.2 = m_created b.2 ∧ str_le b.1 a.1).
#[export] Instance newest_first_dec : RelDecision newest_first.
Proof. unfold newest_first. intros a b. apply _. Defined.

(** [a.created_at.cmp(&b.created_at).then(a.id.cmp(&b.id))] is not [Greater]. *)
Definition claim_le (a b : ClaimedMessage) : Prop :=
  str_ltb (cm_created_at a) (cm_created_at b) = true ∨
  (cm_created_at a = cm_created_at b ∧ str_le (cm_id a) (cm_id b)).
#[export] Instance claim_le_dec : RelDecision claim_le.
Proof. unfold claim_le. intros a b. apply _. Defined.

(** * Statistics rows *)

(** A [topic_stats] row with every counter zero. *)
Definition blank_stat (delivery persistence : string) (now : string) (configured : bool)
    : TopicStat :=
  {| t_accepted := 0; t_duplicates := 0; t_delivered := 0; t_failed := 0; t_dropped := 0;
     t_pending := 0; t_processing := 0; t_delivery := delivery; t_persistence := persistence;
     t_last_seen := Some now; t_configured := configured |}.

(** [INSERT .. ON CONFLICT(topic) DO UPDATE]. *)
Definition upsert_stat (topic : string) (fresh : TopicStat) (update : TopicStat → TopicStat)
    : Db → Db :=
  set_topic_stats (partial_alter (λ o, Some (if o is Some r then update r else fresh)) topic).

(** Adds to the counters of a row and sets [last_seen_at]. *)
Definition add_counts (accepted duplicates delivered failed dropped : Z) (now : string)
    (r : TopicStat) : TopicStat :=
  {| t_accepted := t_accepted r + accepted; t_duplicates := t_duplicates r + duplicates;
     t_delivered := t_delivered r + delivered; t_failed := t_failed r + failed;
     t_dropped := t_dropped r + dropped; t_pending := t_pending r;
     t_processing := t_processing r; t_delivery := t_delivery r;
     t_persistence := t_persistence r; t_last_seen := Some now;
     t_configured := t_configured r |}.

(** The statement of [bump_topic_stat], [flush_topic_stats] and [bump_dropped]. *)
Definition bump_sql (topic : string) (accepted duplicates delivered failed dropped : Z)
    (now : string) : Db → Db :=
  upsert_stat topic
    (add_counts accepted duplicates delivered failed dropped now
       (blank_stat "broadcast" "ephemeral" now false))
    (add_counts accepted duplicates delivered failed dropped now).

Definition add_delta (a b : TopicStatsDelta) : TopicStatsDelta :=
  {| d_accepted := d_accepted a + d_accepted b; d_duplicates := d_duplicates a + d_duplicates b;
     d_delivered := d_delivered a + d_delivered b |}.

Definition zero_delta : TopicStatsDelta :=
  {| d_accepted := 0; d_duplicates := 0; d_delivered := 0 |}.

Definition add_trend (a b : Trend) : Trend :=
  {| tr_accepted := tr_accepted a + tr_accepted b; tr_delivered := tr_delivered a + tr_delivered b |}.

Definition zero_trend : Trend := {| tr_accepted := 0; tr_delivered := 0 |}.

(** [entry(key).or_default() += delta]. *)
Definition bump_delta (topic : string) (d : TopicStatsDelta) :
    gmap string TopicStatsDelta → gmap string TopicStatsDelta :=
  partial_alter (λ o, Some (add_delta (default zero_delta o) d)) topic.
Definition bump_trend (minute : string) (d : Trend) : gmap string Trend → gmap string Trend :=
  partial_alter (λ o, Some (add_trend (default zero_trend o) d)) minute.

Definition config_of (topic : string) (r : TopicStat) : TopicConfig :=
  {| tc_topic := topic; tc_delivery := delivery_from_stored (t_delivery r);
     tc_persistence := persistence_from_stored (t_persistence r) |}.

Section ops.
Context `{Oracle, Chrono, Serde}.

Abbreviation MD := (M Error Db).

(** A statement, a query and a transaction on one shard. *)
Definition on_shard {A} (i : nat) (f : Table → A * Table) : MD A :=
  stmt (λ s, let '(a, t) := f (shard i s) in (a, set_shard i (λ _, t) s)).
Definition on_shard_at {A} (i : nat) (f : nat → Table → A * Table) : MD A :=
  stmt_at (λ n s, let '(a, t) := f n (shard i s) in (a, set_shard i (λ _, t) s)).
Definition ask_shard {A} (i : nat) (f : Table → A) : MD A := query (λ s, f (shard i s)).
Definition ask_shard_at {A} (i : nat) (f : nat → Table → A) : MD A :=
  stmt_at (λ n s, (f n (shard i s), s)).
Definition shard_tx {A} (i : nat) : MD A → MD A :=
  transaction (λ s0 s1, set_shard i (λ _, shard i s0) s1).

(** A transaction on the control database. *)
Definition control_tx {A} : MD A → MD A :=
  transaction (λ s0 s1, mkDb (topic_stats s0) (consumers s0) (trend_minute s0) (topic_cache s1)
                             (shards s1) (cursor s1) (stats_delta s1) (trend_delta s1)).

(** * Topic configuration *)

(** [topic_config] up to the cache update: the answer, and whether it still has
    to be cached. *)
Definition topic_config_read (topic : string) : MD (TopicConfig * bool) :=
  cached ← mem (λ s, (topic_cache s !! topic, s));
  match cached with
  | Some config => mret (config, false)
  | None =>
      row ← query (λ s, topic_stats s !! topic);
      mret (if row is Some r then config_of topic r else implicit topic, true)
  end.

(** The rest of [topic_config]. *)
Definition topic_config_cache (topic : string) (config : TopicConfig) : MD () :=
  mem (λ s, ((), set_topic_cache (insert topic config) s)).

(** [topic_config]. *)
Definition topic_config (topic : string) : MD TopicConfig :=
  '(config, missed) ← topic_config_read topic;
  if missed : bool
  then _ ← topic_config_cache topic config; mret config
  else mret config.

(** [topic_persistence]. *)
Definition topic_persistence (topic : string) : MD PersistenceMode :=
  tc_persistence <$> topic_config topic.

(** [note_subscribed_topic]. *)
Definition note_subscribed_topic (topic : string) : MD () :=
  let persistence := if contains "#" topic || contains "+" topic
                     then "persistent" else "ephemeral" in
  now ← rfc_now;
  _ ← stmt (λ s, ((), upsert_stat topic (blank_stat "broadcast" persistence now false)
        (λ r, {| t_accepted := t_accepted r; t_duplicates := t_duplicates r;
                 t_delivered := t_delivered r; t_failed := t_failed r; t_dropped := t_dropped r;
                 t_pending := t_pending r; t_processing := t_processing r;
                 t_delivery := t_delivery r;
                 t_persistence := if t_configured r then t_persistence r else persistence;
                 t_last_seen := Some now; t_configured := t_configured r |}) s));
  mem (λ s, ((), set_topic_cache (delete topic) s)).

(** [ephemeral_topics]. *)
Definition ephemeral_topics : MD (list string) :=
  rows ← query (λ s, filter (λ '(_, r), t_persistence r = "ephemeral")
                            (map_to_list (topic_stats s)));
  unordered rows.*1.

(** The statement of [configure_topics]. *)
Definition configure_sql (config : TopicConfig) (now : string) : Db → Db :=
  upsert_stat (tc_topic config)
    (blank_stat (delivery_as_str (tc_delivery config))
       (persistence_as_str (tc_persistence config)) now true)
    (λ r, {| t_accepted := t_accepted r; t_duplicates := t_duplicates r;
             t_delivered := t_delivered r; t_failed := t_failed r; t_dropped := t_dropped r;
             t_pending := t_pending r; t_processing := t_processing r;
             t_delivery := delivery_as_str (tc_delivery config);
             t_persistence := persistence_as_str (tc_persistence config);
             t_last_seen := t_last_seen r; t_configured := true |}).

Definition topic_le (a b : string * TopicStat) : Prop := str_le a.1 b.1.
#[export] Instance topic_le_dec : RelDecision topic_le.
Proof. unfold topic_le. intros a b. apply _. Defined.

(** [list_topic_configs]. *)
Definition list_topic_configs : MD (list TopicConfig) :=
  rows ← query (λ s, merge_sort topic_le (map_to_list (topic_stats s)));
  mret (map (λ '(topic, r), config_of topic r) rows).

(** [configure_topics]. *)
Definition configure_topics (configs : list TopicConfig) : MD (list TopicConfig) :=
  _ ← for_each configs (λ config,
        now ← rfc_now;
        _ ← stmt (λ s, ((), configure_sql config now s));
        topic_config_cache (tc_topic config) config);
  list_topic_configs.

(** * Statistics *)

(** [record_message_trend]. *)
Definition record_message_trend (accepted delivered : Z) : MD () :=
  if (accepted =? 0) && (delivered =? 0) then mret ()
  else
  now ← now;
  mem (λ s, ((), set_trend_delta (bump_trend (format_minute now)
        {| tr_accepted := accepted; tr_delivered := delivered |}) s)).

(** [bump_topic_stat]. *)
Definition bump_topic_stat (topic : string) (accepted duplicates delivered failed : Z) : MD () :=
  now ← rfc_now;
  _ ← stmt (λ s, ((), bump_sql topic accepted duplicates delivered failed 0 now s));
  record_message_trend accepted delivered.

(** [record_topic_stats]. *)
Definition record_topic_stats (topic : string) (delta : TopicStatsDelta) : MD () :=
  _ ← mem (λ s, ((), set_stats_delta (bump_delta topic delta) s));
  record_message_trend (d_accepted delta) (d_delivered delta).

(** [bump_dropped]. *)
Definition bump_dropped (topic : string) (dropped : Z) : MD () :=
  now ← rfc_now;
  stmt (λ s, ((), bump_sql topic 0 0 0 0 dropped now s)).

(** [flush_topic_stats]. *)
Definition flush_topic_stats : MD Z :=
  pending ← mem (λ s, (stats_delta s, set_stats_delta (λ _, ∅) s));
  if decide (pending = ∅) then mret 0
  else
  result ← attempt (control_tx (
    now ← rfc_now;
    rows ← unordered (map_to_list pending);
    for_each rows (λ '(topic, d), stmt (λ s, ((),
      bump_sql topic (d_accepted d) (d_duplicates d) (d_delivered d) 0 0 now s)))));
  match result with
  | Err error =>
      _ ← mem (λ s, ((), set_stats_delta (λ guard,
            union_with (λ a b, Some (add_delta a b)) guard pending) s));
      fail error
  | Ok _ => mret (Z.of_nat (size pending))
  end.

(** [flush_message_trends]. *)
Definition flush_message_trends : MD Z :=
  pending ← mem (λ s, (trend_delta s, set_trend_delta (λ _, ∅) s));
  if decide (pending = ∅) then mret 0
  else
  result ← attempt (control_tx (
    rows ← unordered (map_to_list pending);
    _ ← for_each rows (λ '(minute, d), stmt (λ s, ((),
          set_trend_minute (bump_trend minute d) s)));
    now ← now;
    cutoff ← add_time now (- (7 * 86400 * 10 ^ 9));
    stmt (λ s, ((), set_trend_minute
      (filter (λ '(minute, _), str_ltb minute (format_minute cutoff) = false)) s))));
  match result with
  | Err error =>
      _ ← mem (λ s, ((), set_trend_delta (λ guard,
            union_with (λ a b, Some (add_trend a b)) guard pending) s));
      fail error
  | Ok _ => mret (Z.of_nat (size pending))
  end.

Definition minute_le (a b : string * Trend) : Prop := str_le a.1 b.1.
#[export] Instance minute_le_dec : RelDecision minute_le.
Proof. unfold minute_le. intros a b. apply _. Defined.

(** [message_trends]: the minutes and their counts, in order. *)
Definition message_trends (minutes : Z) : MD (list (string * Trend)) :=
  let minutes := clampZ 10 1440 minutes in
  now ← now;
  cutoff ← add_time now (- ((minutes - 1) * 60 * 10 ^ 9));
  let cutoff := format_minute cutoff in
  stored ← query (λ s, filter (λ '(minute, _), str_leb cutoff minute = true) (trend_minute s));
  pending ← mem (λ s, (trend_delta s, s));
  let recent := filter (λ '(minute, _), str_ltb minute cutoff = false) pending in
  mret (merge_sort minute_le
          (map_to_list (union_with (λ a b, Some (add_trend a b)) stored recent))).

(** * Where a message is *)

(** The loop of [shard_index_for_id]. *)
Fixpoint find_shard (id : string) (indices : list nat) : MD (option nat) :=
  match indices with
  | [] => mret None
  | i :: indices =>
      found ← ask_shard i (λ t, t !! id);
      if found is Some _ then mret (Some i) else find_shard id indices
  end.

(** [shard_index_for_id]. *)
Definition shard_index_for_id (id : string) : MD (option nat) :=
  if message_id_shard id is Some i then mret (Some i)
  else find_shard id (seq 0 MESSAGE_SHARDS).

(** * Publishing *)

(** [new_message_id]. *)
Definition new_message_id {St} (topic : string) : M Error St string :=
  prefixed_id (topic_shard topic) <$> new_uuid.

(** The items of a batch that belong to one shard, with their positions. *)
Definition group {A} (i : nat) (where_ : A → option nat) (items : list A) : list (nat * A) :=
  filter (λ '(_, x), where_ x = Some i) (imap pair items).

Abbreviation Results := (list (option (string * bool))).
Abbreviation Counts := (gmap string (Z * Z)).

(** One round of the loop of [enqueue_batch] inside the shard's transaction. *)
Definition enqueue_one (i : nat) (acc : Results * Counts) (entry : nat * EnqueueInput)
    : MD (Results * Counts) :=
  let '(results, stats) := acc in
  let '(index, item) := entry in
  now ← rfc_now;
  attributes ← (if attrs_to_json (in_attributes item) is Some a then mret a
                else fail (Failure "attributes cannot be serialized"));
  inserted ← on_shard i (insert_or_ignore (in_id item) (new_row item attributes now));
  message_id ← (if inserted : bool then mret (in_id item)
                else match in_key item with
                     | None => fail (Failure "enqueue conflict without idempotency key")
                     | Some key =>
                         found ← ask_shard i (id_of_key key);
                         if found is Some id then mret id
                         else fail (Failure "no rows returned by a query that expected to return at least one row")
                     end);
  let bump '(accepted, duplicates) :=
    if inserted : bool then (accepted + 1, duplicates) else (accepted, duplicates + 1) in
  mret (<[index := Some (message_id, negb inserted)]> results,
        partial_alter (λ o, Some (bump (default (0, 0) o))) (in_topic item) stats).

(** One shard's transaction in [enqueue_batch]. *)
Definition enqueue_shard (items : list EnqueueInput) (acc : Results * Counts) (i : nat)
    : MD (Results * Counts) :=
  match group i (λ item, Some (topic_shard (in_topic item))) items with
  | [] => mret acc
  | entries => shard_tx i (fold_each entries acc (enqueue_one i))
  end.

(** [enqueue_batch]. *)
Definition enqueue_batch (items : list EnqueueInput) : MD (list (string * bool)) :=
  '(results, stats) ← fold_each (seq 0 MESSAGE_SHARDS)
    (replicate (length items) None : Results, ∅ : Counts) (enqueue_shard items);
  rows ← unordered (map_to_list stats);
  _ ← for_each rows (λ '(topic, (accepted, duplicates)), record_topic_stats topic
        {| d_accepted := accepted; d_duplicates := duplicates; d_delivered := 0 |});
  if mapM (M := option) id results is Some results then mret results
  else fail (Panicked "each enqueue has a shard result").

(** [enqueue]. *)
Definition enqueue (key : option string) (topic : string) (payload : list Z)
    (attributes : gmap string string) : MD (string * bool) :=
  id ← new_message_id topic;
  results ← enqueue_batch [{| in_id := id;
    in_key := (if key is Some k then if is_empty k then None else Some k else None);
    in_topic := topic; in_payload := payload; in_attributes := attributes |}];
  if last results is Some r then mret r else fail (Panicked "one enqueue result").

(** * Claiming *)

(** A claimed row with its parsed attributes. *)
Definition hydrate_claim (lease : string) (row : string * Message) : result Error ClaimedMessage :=
  let '(id, m) := row in
  attributes ← ok_or (Failure "attributes are not JSON") (json_from_str (m_attributes m));
  Ok {| cm_id := id; cm_topic := m_topic m; cm_payload := m_payload m;
        cm_attributes := attributes; cm_created_at := m_created m; cm_lease := lease;
        cm_attempts := m_attempts m |}.

(** [TOPIC_CLAIM_BATCH_SQL]. *)
Definition claim_sql (topic lease visible now : string) (limit : nat) (n : nat) (t : Table)
    : list (string * Message) * Table :=
  let candidates := any_order n
    (select_where (λ _ m, ready now m && bool_decide (m_topic m = topic)) t) in
  let chosen := take limit (merge_sort created_le candidates) in
  (any_order n (map (λ '(id, m), (id, to_processing lease visible m)) chosen),
   update_where (λ id m, bool_decide (id ∈ chosen.*1) && is_status Pending m)
     (to_processing lease visible) t).

(** [claim_batch_for_topic]. *)
Definition claim_batch_for_topic (topic : string) (visibility limit : Z)
    : MD (list ClaimedMessage) :=
  now ← now;
  lease ← new_uuid;
  d ← (if duration_from_std visibility is Some d then mret d
       else fail (Failure "source duration value is out of range for the target type"));
  visible ← add_time now d;
  rows ← on_shard_at (topic_shard topic)
    (claim_sql topic lease (to_rfc3339 visible) (to_rfc3339 now) (Z.to_nat (clampZ 1 128 limit)));
  messages ← lift (mapM (hydrate_claim lease) rows);
  mret (merge_sort claim_le messages).

(** The inner loop of [claim_batch_for_filter]. *)
Fixpoint claim_topics (filter : string) (visibility limit : Z) (topics : list string)
    : MD (list ClaimedMessage) :=
  match topics with
  | [] => mret []
  | topic :: topics =>
      if filter_matches filter topic
      then messages ← claim_batch_for_topic topic visibility limit;
           match messages with
           | [] => claim_topics filter visibility limit topics
           | _ => mret messages
           end
      else claim_topics filter visibility limit topics
  end.

(** The topics in the order the inner loop visits them. *)
Definition rotate_topics (start : Z) (topics : list string) : list string :=
  map (λ offset, topics !!! Z.to_nat
         (wrap_u64 (start / Z.of_nat MESSAGE_SHARDS + Z.of_nat offset) mod Z.of_nat (length topics)))
      (seq 0 (length topics)).

(** The outer loop of [claim_batch_for_filter]. *)
Fixpoint claim_shards (filter : string) (visibility limit : Z) (start : Z) (offsets : list nat)
    : MD (list ClaimedMessage) :=
  match offsets with
  | [] => mret []
  | offset :: offsets =>
      let i := Z.to_nat (wrap_u64 (start + Z.of_nat offset) mod Z.of_nat MESSAGE_SHARDS) in
      now ← rfc_now;
      topics ← ask_shard_at i (λ n t, any_order n
        (remove_dups (map (λ '(_, m), m_topic m) (select_where (λ _ m, ready now m) t))));
      messages ← claim_topics filter visibility limit (rotate_topics start topics);
      match messages with
      | [] => claim_shards filter visibility limit start offsets
      | _ => mret messages
      end
  end.

(** [fetch_add(1, Relaxed)]. *)
Definition next_cursor : MD Z := mem (λ s, (cursor s, set_cursor (λ c, wrap_u64 (c + 1)) s)).

(** [claim_batch_for_filter]. *)
Definition claim_batch_for_filter (filter : string) (visibility limit : Z)
    : MD (list ClaimedMessage) :=
  if negb (is_wildcard_filter filter) then claim_batch_for_topic filter visibility limit
  else
  start ← next_cursor;
  claim_shards filter visibility limit start (seq 0 MESSAGE_SHARDS).

(** [finish_claim]. *)
Definition finish_claim (i : nat) (now visibility : Z) (row : option (string * Message))
    : MD (option ClaimedMessage) :=
  match row with
  | None => mret None
  | Some (id, m) =>
      lease ← new_uuid;
      visible ← add_time now (default (30 * 10 ^ 9) (duration_from_std visibility));
      changed ← on_shard i (update_id id (is_status Pending)
                              (to_processing lease (to_rfc3339 visible)));
      match changed with
      | None => mret None
      | Some _ =>
          attributes ← lift (ok_or (Failure "attributes are not JSON")
                               (json_from_str (m_attributes m)));
          mret (Some {| cm_id := id; cm_topic := m_topic m; cm_payload := m_payload m;
                        cm_attributes := attributes; cm_created_at := m_created m;
                        cm_lease := lease; cm_attempts := m_attempts m + 1 |})
      end
  end.

(** The loop of [claim_next_excluding]. *)
Fixpoint claim_excluding (visibility : Z) (skip : list string) (start : Z) (offsets : list nat)
    : MD (option ClaimedMessage) :=
  match offsets with
  | [] => mret None
  | offset :: offsets =>
      let i := Z.to_nat ((start + Z.of_nat offset) mod Z.of_nat MESSAGE_SHARDS) in
      now ← now;
      row ← ask_shard_at i (λ n t, head (merge_sort created_le (any_order n (select_where
        (λ _ m, ready (to_rfc3339 now) m && negb (bool_decide (m_topic m ∈ skip))) t))));
      message ← finish_claim i now visibility row;
      if message is Some m then mret (Some m) else claim_excluding visibility skip start offsets
  end.

(** [claim_next_excluding]. *)
Definition claim_next_excluding (visibility : Z) (skip : list string)
    : MD (option ClaimedMessage) :=
  start ← next_cursor;
  claim_excluding visibility skip (start mod Z.of_nat MESSAGE_SHARDS) (seq 0 MESSAGE_SHARDS).

(** * Completing a claim *)

(** [release]. *)
Definition release (id lease : string) : MD bool :=
  i ← shard_index_for_id id;
  match i with
  | None => mret false
  | Some i =>
      now ← rfc_now;
      row ← on_shard i (update_id id (leased lease) (λ m, to_pending (with_next now m)));
      mret (bool_decide (is_Some row))
  end.

(** [renew_claim]. *)
Definition renew_claim (id lease : string) (visibility : Z) : MD bool :=
  i ← shard_index_for_id id;
  match i with
  | None => mret false
  | Some i =>
      now ← now;
      d ← (if duration_from_std visibility is Some d then mret d
           else fail (Failure "source duration value is out of range for the target type"));
      visible ← add_time now d;
      row ← on_shard i (update_id id (λ m, leased lease m && str_ltb (to_rfc3339 now) (m_next m))
                          (with_next (to_rfc3339 visible)));
      mret (bool_decide (is_Some row))
  end.

(** One round of the loop of [delivered_batch] inside the shard's transaction. *)
Definition deliver_one (i : nat) (now : string) (acc : list bool * gmap string Z)
    (entry : nat * (string * string)) : MD (list bool * gmap string Z) :=
  let '(results, stats) := acc in
  let '(index, (id, lease)) := entry in
  row ← on_shard i (update_id id (leased lease) (to_delivered now));
  match row with
  | Some m => mret (<[index := true]> results,
                    partial_alter (λ o, Some (default 0 o + 1)) (m_topic m) stats)
  | None => mret (results, stats)
  end.

(** One shard's transaction in [delivered_batch]. *)
Definition deliver_shard (located : list (option nat * (string * string))) (now : string)
    (acc : list bool * gmap string Z) (i : nat) : MD (list bool * gmap string Z) :=
  match group i fst located with
  | [] => mret acc
  | entries => shard_tx i (fold_each entries acc
                 (λ acc '(index, (_, entry)), deliver_one i now acc (index, entry)))
  end.

(** [delivered_batch]. *)
Definition delivered_batch (messages : list (string * string)) : MD (list bool) :=
  located ← fold_each messages [] (λ acc '(id, lease),
    i ← shard_index_for_id id; mret (acc ++ [(i, (id, lease))]));
  now ← rfc_now;
  '(results, stats) ← fold_each (seq 0 MESSAGE_SHARDS)
    (replicate (length messages) false, ∅ : gmap string Z) (deliver_shard located now);
  rows ← unordered (map_to_list stats);
  _ ← for_each rows (λ '(topic, delivered), record_topic_stats topic
        {| d_accepted := 0; d_duplicates := 0; d_delivered := delivered |});
  mret results.

(** [delivered]. *)
Definition delivered (id lease : string) : MD bool :=
  results ← delivered_batch [(id, lease)];
  mret (default false (last results)).

(** [2_i64.saturating_pow(attempts.min(8) as u32).min(300)]. *)
Definition backoff (attempts : Z) : Z :=
  let exponent := Z.min attempts 8 mod 2 ^ 32 in
  Z.min (if exponent <? 63 then 2 ^ exponent else I64_MAX) 300.

(** [failed]. *)
Definition failed (id lease error : string) (max_attempts : Z) : MD bool :=
  i ← shard_index_for_id id;
  match i with
  | None => mret false
  | Some i =>
      row ← ask_shard i (select_id id (leased lease));
      match row with
      | None => mret false
      | Some m =>
          let status := if max_attempts <=? m_attempts m then Failed else Pending in
          now ← now;
          next ← add_time now (backoff (m_attempts m) * 10 ^ 9);
          changed ← on_shard i (update_id id (leased lease)
            (λ m, set_status status (with_error (Some error) (with_next (to_rfc3339 next) m))));
          match changed with
          | None => mret false
          | Some _ =>
              _ ← (if decide (status = Failed) then bump_topic_stat (m_topic m) 0 0 0 1
                   else mret ());
              mret true
          end
      end
  end.

(** [drop_claimed]. *)
Definition drop_claimed (id lease error : string) : MD bool :=
  i ← shard_index_for_id id;
  match i with
  | None => mret false
  | Some i =>
      row ← ask_shard i (select_id id (leased lease));
      match row with
      | None => mret false
      | Some m =>
          changed ← on_shard i (update_id id (leased lease) (to_dropped error));
          match changed with
          | None => mret false
          | Some _ => _ ← bump_dropped (m_topic m) 1; mret true
          end
      end
  end.

(** [drop_pending]. *)
Definition drop_pending (topic : string) : MD Z :=
  let p (_ : string) m := bool_decide (m_topic m = topic) && is_status Pending m in
  dropped ← on_shard (topic_shard topic) (λ t,
    (count_where p t, update_where p (to_dropped "no live subscriber") t));
  _ ← (if 0 <? dropped then bump_dropped topic dropped else mret ());
  mret dropped.

(** [accept_dropped]. *)
Definition accept_dropped (topic : string) : MD string :=
  id ← new_uuid;
  _ ← bump_topic_stat topic 1 0 0 0;
  _ ← bump_dropped topic 1;
  mret id.

(** [record_live_fanout]. *)
Definition record_live_fanout (topic : string) : MD () := bump_topic_stat topic 1 0 1 0.

(** One statement on every shard in turn; the sum of the rows affected. *)
Definition every_shard (f : Table → Z * Table) : MD Z :=
  fold_each (seq 0 MESSAGE_SHARDS) 0 (λ affected i,
    n ← on_shard i f; mret (affected + n)).

(** [reclaim_stale]. *)
Definition reclaim_stale : MD Z :=
  now ← rfc_now;
  let p (_ : string) m := is_status Processing m && str_leb (m_next m) now in
  every_shard (λ t, (count_where p t, update_where p to_pending t)).

(** [purge_older_than]. *)
Definition purge_older_than (cutoff : string) : MD Z :=
  let p (_ : string) m := str_ltb (m_created m) cutoff in
  every_shard (λ t, (count_where p t, delete_where p t)).

(** [purge_delivered_older_than]. *)
Definition purge_delivered_older_than (cutoff : string) : MD Z :=
  let p (_ : string) m := is_status Delivered m &&
    (if m_delivered m is Some at_ then str_ltb at_ cutoff else false) in
  every_shard (λ t, (count_where p t, delete_where p t)).

(** Whether [purge_idle_ephemeral] may delete a statistics row. *)
Definition implicit_ephemeral (r : TopicStat) : bool :=
  bool_decide (t_persistence r = "ephemeral") && negb (t_configured r).

(** [purge_idle_ephemeral]. *)
Definition purge_idle_ephemeral (cutoff : string) (keep : list string) : MD Z :=
  _ ← flush_topic_stats;
  rows ← query (λ s, filter (λ '(topic, r), implicit_ephemeral r = true ∧
      (if t_last_seen r is Some at_ then str_ltb at_ cutoff else false) = true ∧
      topic ∉ map (λ '(_, c), c_topic c) (map_to_list (consumers s)))
    (map_to_list (topic_stats s)));
  topics ← unordered rows.*1;
  let stale := filter (λ topic, topic ∉ keep) topics in
  match stale with
  | [] => mret 0
  | _ =>
      deleted ← control_tx (fold_each stale 0 (λ deleted topic,
        _ ← on_shard (topic_shard topic) (λ t,
              ((), delete_where (λ _ m, bool_decide (m_topic m = topic)) t));
        n ← stmt (λ s, match topic_stats s !! topic with
                       | Some r => if implicit_ephemeral r
                                   then (1, set_topic_stats (delete topic) s) else (0, s)
                       | None => (0, s)
                       end);
        mret (deleted + n)));
      _ ← mem (λ s, ((), set_topic_cache (λ c, foldr delete c stale) s));
      mret deleted
  end.

(** * Consumers *)

(** [INSERT INTO consumers]: refused when the key exists. *)
Definition insert_consumer (id : string) (c : Consumer) : MD () :=
  r ← stmt (λ s, if consumers s !! id is Some _
                 then (Err (Failure "UNIQUE constraint failed: consumers.id"), s)
                 else (Ok (), set_consumers (insert id c) s));
  lift r.

(** [register_consumer]. *)
Definition register_consumer (consumer_id : option string) (topic name : string)
    (attributes : gmap string string) : MD string :=
  now ← rfc_now;
  attributes ← (if attrs_to_json attributes is Some a then mret a
                else fail (Failure "attributes cannot be serialized"));
  let row := {| c_topic := topic; c_name := name; c_attributes := attributes;
                c_last_seen := now; c_created := now |} in
  match consumer_id with
  | Some id =>
      if is_empty id then id ← new_uuid; _ ← insert_consumer id row; mret id
      else
      updated ← stmt (λ s, match consumers s !! id with
        | Some c => (true, set_consumers (insert id {| c_topic := topic; c_name := name;
            c_attributes := attributes; c_last_seen := now; c_created := c_created c |}) s)
        | None => (false, s)
        end);
      if updated : bool then mret id else _ ← insert_consumer id row; mret id
  | None => id ← new_uuid; _ ← insert_consumer id row; mret id
  end.

(** [consumer_attribute]. *)
Definition consumer_attribute (id key : string) : MD (option string) :=
  row ← query (λ s, consumers s !! id);
  match row with
  | None => mret None
  | Some c =>
      let value := default ∅ (attrs_from_json (c_attributes c)) !! key in
      mret (if value is Some v then if is_empty v then None else Some v else None)
  end.

(** [touch_consumer]. *)
Definition touch_consumer (id : string) : MD bool :=
  now ← rfc_now;
  stmt (λ s, match consumers s !! id with
             | Some c => (true, set_consumers (insert id {| c_topic := c_topic c;
                 c_name := c_name c; c_attributes := c_attributes c; c_last_seen := now;
                 c_created := c_created c |}) s)
             | None => (false, s)
             end).

(** [unregister_consumer]. *)
Definition unregister_consumer (id : string) : MD bool :=
  stmt (λ s, (bool_decide (is_Some (consumers s !! id)), set_consumers (delete id) s)).

(** [purge_stale_consumers]. *)
Definition purge_stale_consumers (cutoff : string) : MD Z :=
  stmt (λ s,
    let stale := filter (λ '(_, c), str_ltb (c_last_seen c) cutoff = true) (consumers s) in
    (Z.of_nat (size stale),
     set_consumers (filter (λ '(_, c), str_ltb (c_last_seen c) cutoff = false)) s)).

End ops.

End Db.
