(* ===== verification/DbInv.v ===== *)
(** How the message tables evolve, and the invariant every operation keeps.

    [table_step] is the life cycle of the messages of one shard, one statement
    at a time; [evolves] lifts it to the whole database.  Every operation of
    [Db], whatever the clock, the identifiers, the storage faults and the row
    orders, only makes such steps; as [evolves] is a preorder on states this
    also covers operations interleaved between their statements.  The invariant
    (placement in the right shard, leases exactly on the claimed rows, unique
    idempotency keys) follows by induction on the steps. *)

From S2P Require Import Prelude RustStr Topic Model Effects Store Db.
Import Topic Model Store Db.

Module DbInv.

(** * The life cycle of a message *)

(** One row under one statement that is not an [INSERT]. *)
Inductive row_step : option Message → option Message → Prop :=
  | row_same o : row_step o o
  | row_claim m lease visible :
      m_status m = Pending → row_step (Some m) (Some (to_processing lease visible m))
  | row_renew m next :
      m_status m = Processing → row_step (Some m) (Some (with_next next m))
  | row_release m next error :
      m_status m = Processing →
      row_step (Some m) (Some (to_pending (with_error error (with_next next m))))
  | row_deliver m now :
      m_status m = Processing → row_step (Some m) (Some (to_delivered now m))
  | row_fail m next error :
      m_status m = Processing →
      row_step (Some m) (Some (set_status Failed (with_error error (with_next next m))))
  | row_drop m error :
      m_status m = Pending ∨ m_status m = Processing →
      row_step (Some m) (Some (to_dropped error m))
  | row_delete m : row_step (Some m) None.

(** An identifier that leads to the shard of its topic, or carries no shard. *)
Definition id_ok (i : nat) (id : string) : Prop :=
  message_id_shard id = Some i ∨ message_id_shard id = None.

(** A row as [INSERT OR IGNORE] writes it. *)
Definition fresh_row (i : nat) (id : string) (m : Message) : Prop :=
  topic_shard (m_topic m) = i ∧ id_ok i id ∧ m_status m = Pending ∧ m_attempts m = 0 ∧
  m_lease m = None ∧ m_delivered m = None.

(** One statement on the table of shard [i]. *)
Inductive table_step (i : nat) : Table → Table → Prop :=
  | step_rows t t' : (∀ id, row_step (t !! id) (t' !! id)) → table_step i t t'
  | step_insert t id m :
      t !! id = None → key_taken (m_key m) t = false → fresh_row i id m →
      table_step i t (<[id := m]> t).

Definition evolves (s s' : Db) : Prop :=
  length (shards s') = length (shards s) ∧ ∀ i, rtc (table_step i) (shard i s) (shard i s').

#[export] Instance evolves_preorder : PreOrder evolves.
Proof.
  split.
  - intros s. split; [done|]. intros i. apply rtc_refl.
  - intros s1 s2 s3 [L12 H12] [L23 H23]. split; [congruence|].
    intros i. etrans; eauto.
Qed.

(** * The invariant *)

Definition row_ok (i : nat) (id : string) (m : Message) : Prop :=
  topic_shard (m_topic m) = i ∧ id_ok i id ∧
  (m_status m = Processing ↔ is_Some (m_lease m)) ∧
  (m_status m = Delivered ↔ is_Some (m_delivered m)) ∧
  0 <= m_attempts m ∧ (m_status m = Processing → 1 <= m_attempts m).

Definition table_ok (i : nat) (t : Table) : Prop :=
  (∀ id m, t !! id = Some m → row_ok i id m) ∧
  (∀ id1 id2 m1 m2 key, t !! id1 = Some m1 → t !! id2 = Some m2 →
     m_key m1 = Some key → m_key m2 = Some key → id1 = id2).

Definition db_ok (s : Db) : Prop :=
  length (shards s) = MESSAGE_SHARDS ∧ ∀ i, table_ok i (shard i s).

(** * Lemmas: one step *)

Lemma row_step_ok i id o m' :
  row_step o (Some m') → (∀ m, o = Some m → row_ok i id m) → row_ok i id m'.
Proof.
  intros Hstep Hok.
  inversion Hstep as [o1 Ho|m l v Hm|m n Hm|m n e Hm|m n Hm|m n e Hm|m e Hm|]; subst;
    [by apply Hok|..].
  all: destruct (Hok m eq_refl) as (Hs & Hid & Hl & Hd & Ha & Hp).
  all: assert (¬ is_Some (m_delivered m)) as Hnd
         by (intros Hsm%Hd; destruct_or?; congruence).
  all: split_and!; simpl; try done; try lia; try tauto.
  all: try (split; [by intros ?|by intros [? [=]]]).
  all: try (split; [by intros ?|by intros ?%Hnd]).
  all: by rewrite ?Hm; intuition lia.
Qed.

(** What a step never changes in a row. *)
Lemma row_step_frame m m' :
  row_step (Some m) (Some m') →
  m_key m' = m_key m ∧ m_topic m' = m_topic m ∧ m_payload m' = m_payload m ∧
  m_attributes m' = m_attributes m ∧ m_created m' = m_created m ∧ m_attempts m <= m_attempts m'.
Proof. inversion 1; subst; split_and!; simpl; (done || lia). Qed.

Lemma table_step_ok i t t' : table_step i t t' → table_ok i t → table_ok i t'.
Proof.
  intros [t0 t1 Hrows|t0 id m Hnone Hkey (Ht & Hid & Hs & Ha & Hl & Hd)] [Hrow Huniq].
  - split.
    + intros id m' Hm'. pose proof (Hrows id) as Hr. rewrite Hm' in Hr.
      eapply row_step_ok; [done|]. intros m Hm. by apply Hrow.
    + intros id1 id2 m1 m2 key H1 H2 Hk1 Hk2.
      pose proof (Hrows id1) as Hr1. pose proof (Hrows id2) as Hr2. rewrite H1 in Hr1.
      rewrite H2 in Hr2.
      destruct (t0 !! id1) as [n1|] eqn:E1; [|inversion Hr1].
      destruct (t0 !! id2) as [n2|] eqn:E2; [|inversion Hr2].
      apply row_step_frame in Hr1 as (K1 & _), Hr2 as (K2 & _).
      apply (Huniq id1 id2 n1 n2 key); congruence.
  - split.
    + intros id' m'. rewrite lookup_insert_Some. intros [[-> ->]|[_ Hm']]; [|by apply Hrow].
      unfold row_ok. rewrite Hs, Hl, Hd, Ha. split_and!; try done; (split; [done|]);
        by intros [? ?].
    + assert (∀ id' m' key, t0 !! id' = Some m' → m_key m' = Some key → m_key m = Some key →
        False) as Hno.
      { intros id' m' key Hm' Hk' Hk. rewrite Hk in Hkey.
        assert (key_taken (Some key) t0 = true) by (apply key_taken_true; eauto). congruence. }
      intros id1 id2 m1 m2 key. rewrite !lookup_insert_Some.
      intros [[-> ->]|[_ H1]] [[? ->]|[_ H2]] Hk1 Hk2; eauto; exfalso; eauto.
Qed.

Lemma evolves_ok s s' : evolves s s' → db_ok s → db_ok s'.
Proof.
  intros [HL Hev] [H16 Hok]. split; [congruence|]. intros i. specialize (Hev i). specialize (Hok i).
  induction Hev as [|t1 t2 t3 Hstep _ IH]; [done|]. apply IH. by eapply table_step_ok.
Qed.

(** * Lemmas: statements as steps *)

Lemma step_update i p f t :
  (∀ id m, p id m = true → row_step (Some m) (Some (f m))) →
  rtc (table_step i) t (update_where p f t).
Proof.
  intros Hf. apply rtc_once, step_rows. intros id. rewrite lookup_update_where.
  destruct (t !! id) as [m|]; simpl; [|apply row_same].
  destruct (p id m) eqn:E; [by eapply Hf|apply row_same].
Qed.

Lemma step_delete i p t : rtc (table_step i) t (delete_where p t).
Proof.
  apply rtc_once, step_rows. intros id. rewrite lookup_delete_where.
  destruct (t !! id) as [m|]; simpl; [|apply row_same].
  destruct (p id m); [apply row_delete|apply row_same].
Qed.

Lemma step_update_id i id p f t :
  (∀ m, p m = true → row_step (Some m) (Some (f m))) →
  rtc (table_step i) t (update_id id p f t).2.
Proof.
  intros Hf. unfold update_id. destruct (select_id id p t) as [m|] eqn:E; [|done]. simpl.
  apply select_id_Some in E as [Hm Hp]. apply rtc_once, step_rows. intros id'.
  destruct (decide (id = id')) as [<-|]; [|by rewrite lookup_insert_ne; [apply row_same|]].
  rewrite lookup_insert_eq, Hm. by apply Hf.
Qed.

Lemma step_insert_or_ignore i id m t :
  fresh_row i id m → rtc (table_step i) t (insert_or_ignore id m t).2.
Proof.
  intros Hm. unfold insert_or_ignore. case_match eqn:E; simpl; [done|].
  apply orb_false_iff in E as [E1 E2]. apply bool_decide_eq_false in E1.
  apply rtc_once, step_insert; [by apply eq_None_not_Some|done|done].
Qed.

(** The rows the [WHERE] clauses select. *)
Lemma leased_processing lease m : leased lease m = true → m_status m = Processing.
Proof. unfold leased, is_status. intros [_ ?%bool_decide_eq_true]%andb_prop. done. Qed.

Lemma is_status_true s m : is_status s m = true → m_status m = s.
Proof. unfold is_status. by intros ?%bool_decide_eq_true. Qed.

Lemma with_error_same m : with_error (m_error m) m = m.
Proof. by destruct m. Qed.
Lemma with_next_same m : with_next (m_next m) m = m.
Proof. by destruct m. Qed.

Lemma row_to_pending m : m_status m = Processing → row_step (Some m) (Some (to_pending m)).
Proof.
  intros Hm. pose proof (row_release m (m_next m) (m_error m) Hm) as Hr.
  rewrite with_next_same in Hr. by rewrite with_error_same in Hr.
Qed.

Lemma row_release_now m now :
  m_status m = Processing → row_step (Some m) (Some (to_pending (with_next now m))).
Proof.
  intros Hm. pose proof (row_release m now (m_error m) Hm) as Hr.
  change (m_error m) with (m_error (with_next now m)) in Hr. by rewrite with_error_same in Hr.
Qed.

Create HintDb rows.

#[local] Hint Resolve leased_processing is_status_true row_to_pending row_release_now
  row_claim row_renew row_release row_deliver row_fail row_drop : rows.

Section keeps_evolves.
Context `{Oracle, Chrono, Serde}.

Lemma evolves_shards s s' : shards s' = shards s → evolves s s'.
Proof. intros Hs. unfold evolves, shard. rewrite Hs. split; [done|]. intros i. apply rtc_refl. Qed.

Lemma evolves_set_shard i f s :
  rtc (table_step i) (shard i s) (f (shard i s)) → evolves s (set_shard i f s).
Proof.
  intros Hf. split; [apply length_alter|]. intros j.
  rewrite shard_set_shard_gen. case_decide as Hd; [by destruct Hd; subst|apply rtc_refl].
Qed.

Lemma keeps_on_shard {A} i (f : Table → A * Table) :
  (∀ t, rtc (table_step i) t (f t).2) → Keeps evolves (on_shard i f).
Proof.
  intros Hf. apply keeps_stmt; [apply _|]. intros s. specialize (Hf (shard i s)).
  destruct (f (shard i s)) as [a t]. by apply evolves_set_shard.
Qed.

Lemma keeps_on_shard_at {A} i (f : nat → Table → A * Table) :
  (∀ n t, rtc (table_step i) t (f n t).2) → Keeps evolves (on_shard_at i f).
Proof.
  intros Hf. apply keeps_stmt_at; [apply _|]. intros n s. specialize (Hf n (shard i s)).
  destruct (f n (shard i s)) as [a t]. by apply evolves_set_shard.
Qed.

Lemma keeps_ask_shard {A} R `{!PreOrder R} i (f : Table → A) : Keeps R (ask_shard i f).
Proof. by apply keeps_query. Qed.

Lemma keeps_ask_shard_at {A} R `{!PreOrder R} i (f : nat → Table → A) :
  Keeps R (ask_shard_at i f).
Proof. apply keeps_stmt_at; [done|]. intros n s. simpl. reflexivity. Qed.


Lemma keeps_shard_tx {A} i (body : M Error Db A) :
  Keeps evolves body → Keeps evolves (shard_tx i body).
Proof.
  apply keeps_transaction; [apply _|]. intros s s' [HL Hev]. split.
  - simpl. by rewrite length_alter.
  - intros j. rewrite shard_set_shard_gen. case_decide as Hd; [|apply Hev].
    destruct Hd as [-> _]. apply rtc_refl.
Qed.

Lemma keeps_control_tx {A} (body : M Error Db A) :
  Keeps evolves body → Keeps evolves (control_tx body).
Proof. apply keeps_transaction; [apply _|]. by intros s s' Hev. Qed.

(** Reduces [Keeps evolves op] to the effect of the statements of [op]. *)
Ltac db_step :=
  first
    [ keeps_step
    | apply keeps_rfc_now; apply _
    | apply keeps_add_time; apply _
    | apply keeps_ask_shard; apply _
    | apply keeps_ask_shard_at; apply _
    | apply keeps_shard_tx
    | apply keeps_control_tx
    | apply keeps_on_shard; intros ?
    | apply keeps_on_shard_at; intros ? ?
    | lazymatch goal with |- evolves ?s _ => by apply evolves_shards end ].

Ltac db_keeps := repeat db_step.

Lemma keeps_topic_config_read topic : Keeps evolves (topic_config_read topic).
Proof. unfold topic_config_read. db_keeps. Qed.

Lemma keeps_topic_config_cache topic config : Keeps evolves (topic_config_cache topic config).
Proof. unfold topic_config_cache. db_keeps. Qed.

Lemma keeps_topic_config topic : Keeps evolves (topic_config topic).
Proof.
  unfold topic_config. db_keeps; apply keeps_topic_config_read || apply keeps_topic_config_cache.
Qed.

Lemma keeps_note_subscribed_topic topic : Keeps evolves (note_subscribed_topic topic).
Proof. unfold note_subscribed_topic. db_keeps. Qed.

Lemma keeps_configure_topics configs : Keeps evolves (configure_topics configs).
Proof.
  unfold configure_topics, list_topic_configs. db_keeps. apply keeps_topic_config_cache.
Qed.

Lemma keeps_record_message_trend a d : Keeps evolves (record_message_trend a d).
Proof. unfold record_message_trend. db_keeps. Qed.

Lemma keeps_bump_topic_stat topic a du d f : Keeps evolves (bump_topic_stat topic a du d f).
Proof. unfold bump_topic_stat. db_keeps. apply keeps_record_message_trend. Qed.

Lemma keeps_record_topic_stats topic d : Keeps evolves (record_topic_stats topic d).
Proof. unfold record_topic_stats. db_keeps. apply keeps_record_message_trend. Qed.

Lemma keeps_bump_dropped topic n : Keeps evolves (bump_dropped topic n).
Proof. unfold bump_dropped. db_keeps. Qed.

Lemma keeps_flush_topic_stats : Keeps evolves flush_topic_stats.
Proof. unfold flush_topic_stats. db_keeps. Qed.

Lemma keeps_flush_message_trends : Keeps evolves flush_message_trends.
Proof. unfold flush_message_trends. db_keeps. Qed.

Lemma keeps_find_shard R `{!PreOrder R} id is_ : Keeps R (find_shard id is_).
Proof.
  induction is_ as [|i is_ IH]; simpl; db_keeps; done.
Qed.

Lemma keeps_shard_index_for_id R `{!PreOrder R} id : Keeps R (shard_index_for_id id).
Proof. unfold shard_index_for_id. db_keeps. by apply keeps_find_shard. Qed.

(** Every item of a batch has an identifier made for its topic. *)
Definition item_ok (item : EnqueueInput) : Prop :=
  message_id_shard (in_id item) = Some (topic_shard (in_topic item)).

Lemma elem_of_group {A} i (g : A → option nat) items k x :
  (k, x) ∈ group i g items ↔ items !! k = Some x ∧ g x = Some i.
Proof.
  unfold group. rewrite list_elem_of_filter.
  rewrite list_elem_of_lookup. setoid_rewrite list_lookup_imap_Some. naive_solver.
Qed.

Lemma keeps_enqueue_one i acc index item :
  item_ok item → topic_shard (in_topic item) = i →
  Keeps evolves (enqueue_one i acc (index, item)).
Proof.
  intros Hok <-. unfold enqueue_one. db_keeps.
  apply step_insert_or_ignore. split_and!; try done. by left.
Qed.

Lemma keeps_enqueue_batch items : Forall item_ok items → Keeps evolves (enqueue_batch items).
Proof.
  intros Hok. unfold enqueue_batch, enqueue_shard. rewrite Forall_lookup in Hok. db_keeps;
    [|apply keeps_record_topic_stats].
  match goal with Hg : group _ _ _ = _, He : ?e ∈ _ :: _ |- _ =>
    rewrite <-Hg in He; destruct e; apply elem_of_group in He as [? [=]] end.
  apply keeps_enqueue_one; eauto.
Qed.

Lemma keeps_new_message_id {St} R `{!PreOrder R} topic :
  Keeps (St:=St) R (new_message_id topic).
Proof. unfold new_message_id. keeps_go. Qed.

Lemma new_message_id_shard {St} topic (w : World St) id w' :
  new_message_id topic w = (Ok id, w') → message_id_shard id = Some (topic_shard topic).
Proof.
  unfold new_message_id. rewrite run_fmap, run_new_uuid. intros [= <- _].
  apply message_id_shard_prefixed, topic_shard_bound.
Qed.

Lemma keeps_enqueue key topic payload attributes :
  Keeps evolves (enqueue key topic payload attributes).
Proof.
  unfold enqueue.
  apply (keeps_bind_post _ (λ id, message_id_shard id = Some (topic_shard topic)));
    [by intros; eapply new_message_id_shard|apply keeps_new_message_id, _|].
  intros id Hid. db_keeps. apply keeps_enqueue_batch. by repeat constructor.
Qed.

Lemma keeps_claim_sql i topic lease visible now limit n t :
  rtc (table_step i) t (claim_sql topic lease visible now limit n t).2.
Proof.
  apply step_update. intros id m [_ Hm]%andb_prop. eauto with rows.
Qed.

Lemma keeps_claim_batch_for_topic topic visibility limit :
  Keeps evolves (claim_batch_for_topic topic visibility limit).
Proof. unfold claim_batch_for_topic. db_keeps. apply keeps_claim_sql. Qed.

Lemma keeps_claim_topics f visibility limit topics :
  Keeps evolves (claim_topics f visibility limit topics).
Proof.
  induction topics as [|t ts IH]; simpl; db_keeps; apply keeps_claim_batch_for_topic || done.
Qed.

Lemma keeps_claim_shards f visibility limit start offsets :
  Keeps evolves (claim_shards f visibility limit start offsets).
Proof.
  induction offsets as [|o os IH]; simpl; db_keeps; apply keeps_claim_topics || done.
Qed.

Lemma keeps_claim_batch_for_filter f visibility limit :
  Keeps evolves (claim_batch_for_filter f visibility limit).
Proof.
  unfold claim_batch_for_filter, next_cursor.
  db_keeps; apply keeps_claim_batch_for_topic || apply keeps_claim_shards.
Qed.

Lemma keeps_finish_claim i now visibility row : Keeps evolves (finish_claim i now visibility row).
Proof.
  unfold finish_claim. db_keeps. apply step_update_id. eauto with rows.
Qed.

Lemma keeps_claim_excluding visibility skip start offsets :
  Keeps evolves (claim_excluding visibility skip start offsets).
Proof.
  induction offsets as [|o os IH]; simpl; db_keeps; apply keeps_finish_claim || done.
Qed.

Lemma keeps_claim_next_excluding visibility skip :
  Keeps evolves (claim_next_excluding visibility skip).
Proof. unfold claim_next_excluding, next_cursor. db_keeps. apply keeps_claim_excluding. Qed.

Lemma keeps_release id lease : Keeps evolves (release id lease).
Proof.
  unfold release. db_keeps; [apply keeps_shard_index_for_id, _|].
  apply step_update_id. eauto with rows.
Qed.

Lemma keeps_renew_claim id lease visibility : Keeps evolves (renew_claim id lease visibility).
Proof.
  unfold renew_claim. db_keeps; [apply keeps_shard_index_for_id, _|].
  apply step_update_id. intros m [Hm _]%andb_prop. eauto with rows.
Qed.

Lemma keeps_deliver_one i now acc entry : Keeps evolves (deliver_one i now acc entry).
Proof. unfold deliver_one. db_keeps. apply step_update_id. eauto with rows. Qed.

Lemma keeps_delivered_batch messages : Keeps evolves (delivered_batch messages).
Proof.
  unfold delivered_batch, deliver_shard. db_keeps;
    apply keeps_shard_index_for_id, _ || apply keeps_deliver_one || apply keeps_record_topic_stats.
Qed.

Lemma keeps_failed id lease error max : Keeps evolves (failed id lease error max).
Proof.
  unfold failed. db_keeps; [apply keeps_shard_index_for_id, _| |apply keeps_bump_topic_stat].
  apply step_update_id. intros m0 Hm0. destruct (max <=? _); eauto with rows.
Qed.

Lemma keeps_drop_claimed id lease error : Keeps evolves (drop_claimed id lease error).
Proof.
  unfold drop_claimed. db_keeps; [apply keeps_shard_index_for_id, _| |apply keeps_bump_dropped].
  apply step_update_id. eauto with rows.
Qed.

Lemma keeps_drop_pending topic : Keeps evolves (drop_pending topic).
Proof.
  unfold drop_pending. db_keeps; [|apply keeps_bump_dropped].
  apply step_update. intros id m [_ Hm]%andb_prop. eauto with rows.
Qed.

Lemma keeps_accept_dropped topic : Keeps evolves (accept_dropped topic).
Proof.
  unfold accept_dropped. db_keeps; apply keeps_bump_topic_stat || apply keeps_bump_dropped.
Qed.

Lemma keeps_every_shard (f : Table → Z * Table) :
  (∀ i t, rtc (table_step i) t (f t).2) → Keeps evolves (every_shard f).
Proof. intros Hf. unfold every_shard. db_keeps. apply Hf. Qed.

Lemma keeps_reclaim_stale : Keeps evolves reclaim_stale.
Proof.
  unfold reclaim_stale. db_keeps. apply keeps_every_shard. intros i t.
  apply step_update. intros id m [Hm _]%andb_prop. eauto with rows.
Qed.

Lemma keeps_purge_older_than cutoff : Keeps evolves (purge_older_than cutoff).
Proof. apply keeps_every_shard. intros i t. apply step_delete. Qed.

Lemma keeps_purge_delivered cutoff : Keeps evolves (purge_delivered_older_than cutoff).
Proof. apply keeps_every_shard. intros i t. apply step_delete. Qed.

Lemma keeps_purge_idle cutoff keep : Keeps evolves (purge_idle_ephemeral cutoff keep).
Proof.
  unfold purge_idle_ephemeral. db_keeps; [apply keeps_flush_topic_stats|apply step_delete|..].
  all: cbn beta; repeat case_match; by apply evolves_shards.
Qed.

Lemma keeps_register_consumer id topic name attributes :
  Keeps evolves (register_consumer id topic name attributes).
Proof.
  unfold register_consumer, insert_consumer. db_keeps; repeat case_match; by apply evolves_shards.
Qed.

Lemma keeps_touch_consumer id : Keeps evolves (touch_consumer id).
Proof. unfold touch_consumer. db_keeps. case_match; by apply evolves_shards. Qed.

Lemma keeps_unregister_consumer id : Keeps evolves (unregister_consumer id).
Proof. unfold unregister_consumer. db_keeps. Qed.

Lemma keeps_purge_stale_consumers cutoff : Keeps evolves (purge_stale_consumers cutoff).
Proof. unfold purge_stale_consumers. db_keeps. Qed.

(** * Sequences of operations *)

Inductive Op :=
  | OTopicConfig (topic : string)
  | ONoteSubscribed (topic : string)
  | OConfigure (configs : list TopicConfig)
  | OEnqueue (key : option string) (topic : string) (payload : list Z)
      (attributes : gmap string string)
  | OEnqueueBatch (items : list EnqueueInput)
  | OClaimTopic (topic : string) (visibility limit : Z)
  | OClaimFilter (filter : string) (visibility limit : Z)
  | OClaimExcluding (visibility : Z) (skip : list string)
  | ORelease (id lease : string)
  | ORenewClaim (id lease : string) (visibility : Z)
  | ODelivered (messages : list (string * string))
  | OFailed (id lease error : string) (max_attempts : Z)
  | ODropClaimed (id lease error : string)
  | ODropPending (topic : string)
  | OAcceptDropped (topic : string)
  | OLiveFanout (topic : string)
  | OReclaim
  | OPurgeOlder (cutoff : string)
  | OPurgeDelivered (cutoff : string)
  | OPurgeIdle (cutoff : string) (keep : list string)
  | OFlushStats
  | OFlushTrends
  | ORegister (id : option string) (topic name : string) (attributes : gmap string string)
  | OTouch (id : string)
  | OUnregister (id : string)
  | OPurgeConsumers (cutoff : string).

(** Callers of [enqueue_batch] make the identifiers with [new_message_id]. *)
Definition op_ok (op : Op) : Prop :=
  match op with OEnqueueBatch items => Forall item_ok items | _ => True end.

(** An operation runs to its end, or to its error. *)
Definition exec (op : Op) (w : World Db) : World Db :=
  match op with
  | OTopicConfig topic => (topic_config topic w).2
  | ONoteSubscribed topic => (note_subscribed_topic topic w).2
  | OConfigure configs => (configure_topics configs w).2
  | OEnqueue key topic payload attributes => (enqueue key topic payload attributes w).2
  | OEnqueueBatch items => (enqueue_batch items w).2
  | OClaimTopic topic visibility limit => (claim_batch_for_topic topic visibility limit w).2
  | OClaimFilter filter visibility limit => (claim_batch_for_filter filter visibility limit w).2
  | OClaimExcluding visibility skip => (claim_next_excluding visibility skip w).2
  | ORelease id lease => (release id lease w).2
  | ORenewClaim id lease visibility => (renew_claim id lease visibility w).2
  | ODelivered messages => (delivered_batch messages w).2
  | OFailed id lease error max => (failed id lease error max w).2
  | ODropClaimed id lease error => (drop_claimed id lease error w).2
  | ODropPending topic => (drop_pending topic w).2
  | OAcceptDropped topic => (accept_dropped topic w).2
  | OLiveFanout topic => (record_live_fanout topic w).2
  | OReclaim => (reclaim_stale w).2
  | OPurgeOlder cutoff => (purge_older_than cutoff w).2
  | OPurgeDelivered cutoff => (purge_delivered_older_than cutoff w).2
  | OPurgeIdle cutoff keep => (purge_idle_ephemeral cutoff keep w).2
  | OFlushStats => (flush_topic_stats w).2
  | OFlushTrends => (flush_message_trends w).2
  | ORegister id topic name attributes => (register_consumer id topic name attributes w).2
  | OTouch id => (touch_consumer id w).2
  | OUnregister id => (unregister_consumer id w).2
  | OPurgeConsumers cutoff => (purge_stale_consumers cutoff w).2
  end.

Definition exec_all (ops : list Op) (w : World Db) : World Db := foldl (λ w op, exec op w) w ops.

Lemma exec_evolves op w : op_ok op → evolves (st w) (st (exec op w)).
Proof.
  destruct op; cbn [exec op_ok]; intros Hok.
  - apply keeps_topic_config.
  - apply keeps_note_subscribed_topic.
  - apply keeps_configure_topics.
  - apply keeps_enqueue.
  - by apply keeps_enqueue_batch.
  - apply keeps_claim_batch_for_topic.
  - apply keeps_claim_batch_for_filter.
  - apply keeps_claim_next_excluding.
  - apply keeps_release.
  - apply keeps_renew_claim.
  - apply keeps_delivered_batch.
  - apply keeps_failed.
  - apply keeps_drop_claimed.
  - apply keeps_drop_pending.
  - apply keeps_accept_dropped.
  - apply keeps_bump_topic_stat.
  - apply keeps_reclaim_stale.
  - apply keeps_purge_older_than.
  - apply keeps_purge_delivered.
  - apply keeps_purge_idle.
  - apply keeps_flush_topic_stats.
  - apply keeps_flush_message_trends.
  - apply keeps_register_consumer.
  - apply keeps_touch_consumer.
  - apply keeps_unregister_consumer.
  - apply keeps_purge_stale_consumers.
Qed.

Lemma exec_all_evolves ops w : Forall op_ok ops → evolves (st w) (st (exec_all ops w)).
Proof.
  intros Hops. revert w. unfold exec_all.
  induction Hops as [|op ops Hop _ IH]; intros w; simpl; [reflexivity|].
  etrans; [by apply exec_evolves|apply IH].
Qed.

End keeps_evolves.

(** * The history of one message *)

(** The message was deleted on the way from [t] to [t']. *)
Definition deleted_between (i : nat) (id : string) (t t' : Table) : Prop :=
  ∃ t1, rtc (table_step i) t t1 ∧ t1 !! id = None ∧ rtc (table_step i) t1 t'.

Definition is_final (s : MessageStatus) : Prop := s = Delivered ∨ s = Failed ∨ s = Dropped.

(** What a later row may differ in. *)
Definition succeeds (m m' : Message) : Prop :=
  m_key m' = m_key m ∧ m_topic m' = m_topic m ∧ m_payload m' = m_payload m ∧
  m_attributes m' = m_attributes m ∧ m_created m' = m_created m ∧
  m_attempts m <= m_attempts m' ∧ (is_final (m_status m) → m' = m).

Lemma succeeds_trans m1 m2 m3 : succeeds m1 m2 → succeeds m2 m3 → succeeds m1 m3.
Proof.
  unfold succeeds. intros (?&?&?&?&?&?&Hf) (?&?&?&?&?&?&Hf').
  split_and!; [congruence..|lia|]. intros Hs. specialize (Hf Hs). subst m2. auto.
Qed.

Lemma row_step_succeeds m m' : row_step (Some m) (Some m') → succeeds m m'.
Proof.
  intros Hr. pose proof (row_step_frame _ _ Hr) as (?&?&?&?&?&?). unfold succeeds.
  split_and!; try done. unfold is_final. inversion Hr; subst; try done; intros; 
    destruct_or?; congruence.
Qed.

Lemma table_steps_history i t t' id m :
  rtc (table_step i) t t' → t !! id = Some m →
  deleted_between i id t t' ∨ ∃ m', t' !! id = Some m' ∧ succeeds m m'.
Proof.
  intros Hrtc. revert m. induction Hrtc as [t|t1 t2 t3 Hstep Hrtc IH]; intros m Hm.
  { right. exists m. split; [done|]. repeat split; lia || done. }
  assert (t2 !! id = None ∨ ∃ m2, t2 !! id = Some m2 ∧ succeeds m m2) as [Hnone|(m2 & Hm2 & Hs)].
  { inversion Hstep as [? ? Hrows|? id' m' Hnone]; subst.
    - specialize (Hrows id). rewrite Hm in Hrows. destruct (t2 !! id) as [m2|]; [right|by left].
      exists m2. split; [done|by apply row_step_succeeds].
    - right. exists m. rewrite lookup_insert_ne by congruence. split; [done|].
      repeat split; lia || done. }
  - left. exists t2. split_and!; [by apply rtc_once|done|done].
  - destruct (IH _ Hm2) as [(t4 & ? & ? & ?)|(m3 & ? & ?)].
    + left. exists t4. split_and!; [by eapply rtc_l|done|done].
    + right. exists m3. split; [done|]. by eapply succeeds_trans.
Qed.

(** * Properties *)

Section properties.
Context `{Oracle, Chrono, Serde}.



End properties.

Lemma empty_db_ok : db_ok empty_db.
Proof.
  split; [done|]. intros i.
  replace (shard i empty_db) with (∅ : Table); [split; by intros|].
  unfold shard, empty_db. simpl. do 16 (destruct i as [|i]; [done|]). done.
Qed.

(** A publish, a claim and its completion in the demonstration environment. *)
Definition demo_ops : list Op :=
  [OEnqueue (Some "k") "a/b" [1; 2] ∅; OClaimTopic "a/b" (30 * 10 ^ 9) 10;
   ODelivered [("s01-0", "8")]].


Definition demo_exec : list Op → World Db → World Db :=
  exec_all (H := demo_oracle) (H0 := demo_chrono) (H1 := demo_serde).

Definition demo_message : Message :=
  {| m_key := Some "k"; m_topic := "a/b"; m_payload := [1; 2]; m_attributes := "";
     m_status := Pending; m_attempts := 0; m_next := "001700000002000000000";
     m_error := None; m_created := "001700000002000000000"; m_delivered := None;
     m_lease := None |}.


End DbInv.
