(* ===== verification/DbSpec.v ===== *)
(** What the queue operations do: publishing with idempotency keys, claiming,
    lease-guarded completion, recovery of stale claims, purging, statistics and
    the topic cache (src/src/db.rs). *)

From S2P Require Import Prelude RustStr Topic Model Effects Store Db DbInv.
Import Topic Model Store Db DbInv.

Module DbSpec.

(** * Loops with a postcondition *)

(** [Post Q m]: when [m] returns a value, [Q] relates it to the states before
    and after. *)
Definition Post {E St A} (Q : A → St → St → Prop) (m : M E St A) : Prop :=
  ∀ w a w', m w = (Ok a, w') → Q a (st w) (st w').

(** An accumulating loop, by the elements already visited. *)
Lemma fold_each_post {E St A B} (I : list A → B → St → Prop) (l : list A) (f : B → A → M E St B) :
  (∀ done x todo acc w acc' w', l = done ++ x :: todo → I done acc (st w) →
     f acc x w = (Ok acc', w') → I (done ++ [x]) acc' (st w')) →
  ∀ acc w acc' w', I [] acc (st w) → fold_each l acc f w = (Ok acc', w') → I l acc' (st w').
Proof.
  intros Hf. assert (∀ done todo, l = done ++ todo → ∀ acc w acc' w',
    I done acc (st w) → fold_each todo acc f w = (Ok acc', w') → I l acc' (st w')) as Hgen.
  { intros done todo. revert done. induction todo as [|x todo IH]; intros done Hl acc w acc' w' HI.
    - rewrite app_nil_r in Hl. subst done. cbn [fold_each]. rewrite run_ret. by intros [= <- <-].
    - cbn [fold_each]. rewrite run_bind. destruct (f acc x w) as [[acc1|e] w1] eqn:E1; [|done].
      apply (IH (done ++ [x])); [by rewrite <-app_assoc|]. by eapply Hf. }
  intros. by apply (Hgen [] l eq_refl acc w).
Qed.

(** The same for a loop whose rounds all succeed. *)
Lemma fold_each_total {E St A B} (I : list A → B → World St → Prop) (l : list A)
    (f : B → A → M E St B) :
  (∀ done x todo acc w, l = done ++ x :: todo → I done acc w →
     ∃ acc' w', f acc x w = (Ok acc', w') ∧ I (done ++ [x]) acc' w') →
  ∀ acc w, I [] acc w → ∃ acc' w', fold_each l acc f w = (Ok acc', w') ∧ I l acc' w'.
Proof.
  intros Hf. assert (∀ done todo, l = done ++ todo → ∀ acc w, I done acc w →
    ∃ acc' w', fold_each todo acc f w = (Ok acc', w') ∧ I l acc' w') as Hgen.
  { intros done todo. revert done. induction todo as [|x todo IH]; intros done Hl acc w HI.
    - rewrite app_nil_r in Hl. subst done. cbn [fold_each]. rewrite run_ret. eauto.
    - cbn [fold_each]. rewrite run_bind. destruct (Hf done x todo acc w Hl HI) as (acc1 & w1 & -> & HI1).
      apply (IH (done ++ [x])); [by rewrite <-app_assoc|done]. }
  intros. by apply (Hgen [] l eq_refl).
Qed.

(** A loop in which only one element does something. *)
Lemma fold_each_single {E St A B} (l : list A) (k : A) (f : B → A → M E St B) acc w :
  NoDup l → k ∈ l → (∀ x b, x ∈ l → x ≠ k → f b x = mret b) →
  fold_each l acc f w = f acc k w.
Proof.
  intros Hnd. revert acc w. induction Hnd as [|x l Hx _ IH]; intros acc w Hk Hf.
  { by apply elem_of_nil in Hk. }
  assert (∀ acc w, k ∉ l → fold_each l acc f w = (Ok acc, w)) as Hskip.
  { clear -Hf Hx. revert Hf. induction l as [|y l IH]; intros Hf acc w Hk; [done|].
    cbn [fold_each]. rewrite run_bind, (Hf y acc), run_ret; [|set_solver..].
    apply IH; [set_solver| |set_solver]. intros z b Hz Hne. apply Hf; set_solver. }
  cbn [fold_each]. rewrite run_bind. apply elem_of_cons in Hk as [->|Hk].
  - destruct (f acc x w) as [[b|e] w1]; [|done]. by apply Hskip.
  - rewrite (Hf x acc), run_ret; [|set_solver..]. apply IH; [done|]. set_solver.
Qed.

Lemma for_each_total {E St A} (l : list A) (f : A → M E St ()) :
  (∀ x w, ∃ w', f x w = (Ok (), w')) → ∀ w, ∃ w', for_each l f w = (Ok (), w').
Proof.
  intros Hf. induction l as [|x l IH]; intros w; cbn [for_each]; [by exists w|].
  rewrite run_bind. destruct (Hf x w) as [w1 ->]. apply IH.
Qed.

(** * Rows only added *)

Definition grows (s s' : Db) : Prop :=
  length (shards s') = length (shards s) ∧
  ∀ i id m, shard i s !! id = Some m → shard i s' !! id = Some m.

#[export] Instance grows_preorder : PreOrder grows.
Proof.
  split; [by intros s|]. intros s1 s2 s3 [L12 H12] [L23 H23]. split; [congruence|eauto].
Qed.

Lemma grows_shards s s' : shards s' = shards s → grows s s'.
Proof. intros Hs. unfold grows, shard. by rewrite Hs. Qed.

Section spec.
Context `{Oracle, Chrono, Serde}.

Lemma grows_on_shard {A} i (f : Table → A * Table) :
  (∀ t id m, t !! id = Some m → (f t).2 !! id = Some m) → Keeps grows (on_shard i f).
Proof.
  intros Hf. apply keeps_stmt; [apply _|]. intros s. specialize (Hf (shard i s)).
  destruct (f (shard i s)) as [a t]. simpl in *. split; [apply length_alter|].
  intros j id m Hm. rewrite shard_set_shard_gen. case_decide as Hd; [|done].
  destruct Hd; subst. by apply Hf.
Qed.

Lemma grows_shard_tx {A} i (body : M Error Db A) : Keeps grows body → Keeps grows (shard_tx i body).
Proof.
  apply keeps_transaction; [apply _|]. intros s s' [HL Hg]. split.
  - simpl. by rewrite length_alter.
  - intros j id m Hm. rewrite shard_set_shard_gen. case_decide as Hd; [|by apply Hg].
    by destruct Hd; subst.
Qed.

Lemma insert_or_ignore_grows id m t id' m' :
  t !! id' = Some m' → (insert_or_ignore id m t).2 !! id' = Some m'.
Proof.
  intros Hm. unfold insert_or_ignore. case_match eqn:E; simpl; [done|].
  apply orb_false_iff in E as [E%bool_decide_eq_false _].
  rewrite lookup_insert_ne; [done|]. intros ->. apply E. by eexists.
Qed.

Lemma grows_enqueue_one i acc entry : Keeps grows (enqueue_one i acc entry).
Proof.
  destruct entry. unfold enqueue_one. repeat first
    [keeps_step | apply keeps_rfc_now; apply _ | apply keeps_ask_shard; apply _
    | apply grows_on_shard; intros; by apply insert_or_ignore_grows].
Qed.

Lemma grows_record_topic_stats topic d : Keeps grows (record_topic_stats topic d).
Proof.
  unfold record_topic_stats, record_message_trend.
  repeat first [keeps_step | lazymatch goal with |- grows _ _ => by apply grows_shards end].
Qed.

Lemma grows_enqueue_shard items acc i : Keeps grows (enqueue_shard items acc i).
Proof.
  unfold enqueue_shard. keeps_step; [keeps_step|].
  apply grows_shard_tx. keeps_step. apply grows_enqueue_one.
Qed.

(** What a result of [enqueue_batch] promises. *)
Definition stored (s : Db) (item : EnqueueInput) (r : string * bool) : Prop :=
  ∃ m, shard (topic_shard (in_topic item)) s !! r.1 = Some m ∧ m_key m = in_key item ∧
       (if r.2 then is_Some (in_key item)
        else r.1 = in_id item ∧ m_topic m = in_topic item ∧ m_payload m = in_payload item ∧
             attrs_to_json (in_attributes item) = Some (m_attributes m) ∧
             m_status m = Pending ∧ m_attempts m = 0).

Lemma stored_grows s s' item r : grows s s' → stored s item r → stored s' item r.
Proof. intros [_ Hg] (m & Hm & Hr). exists m. split; [by apply Hg|done]. Qed.

Lemma id_of_key_Some key t id :
  id_of_key key t = Some id → ∃ m, t !! id = Some m ∧ m_key m = Some key.
Proof.
  unfold id_of_key. intros Hid. destruct (select_where _ t) as [|[id' m] l] eqn:E; [done|].
  simpl in Hid. simplify_eq.
  assert ((id, m) ∈ select_where (λ _ m, bool_decide (m_key m = Some key)) t) as Hin
    by (rewrite E; left).
  apply elem_of_select_where in Hin as [Hm Hk%bool_decide_eq_true]. eauto.
Qed.

Lemma enqueue_one_post i results stats index item w results' stats' w' :
  topic_shard (in_topic item) = i → (i < length (shards (st w)))%nat →
  enqueue_one i (results, stats) (index, item) w = (Ok (results', stats'), w') →
  ∃ r, results' = <[index := Some r]> results ∧ stored (st w') item r.
Proof.
  intros Hi Hlen. unfold enqueue_one, rfc_now, on_shard, ask_shard. run.
  destruct (attrs_to_json (in_attributes item)) as [js|] eqn:Hjs; run; [|done].
  destruct (fault (S (tick w))); run; [done|].
  destruct (insert_or_ignore _ _ _) as [[] t] eqn:Hins; run.
  - intros [= <- _ <-]. eexists. split; [done|]. unfold insert_or_ignore in Hins.
    case_match; [done|]. simplify_eq. eexists. simpl. rewrite shard_set_shard by done.
    rewrite decide_True by done. rewrite lookup_insert_eq. by split_and!.
  - destruct (in_key item) as [key|] eqn:Hkey; run; [|done].
    destruct (fault (S (S (tick w)))); run; [done|].
    destruct (id_of_key key _) as [id'|] eqn:Hid; run; [|done].
    intros [= <- _ <-]. eexists. split; [done|].
    apply id_of_key_Some in Hid as (m & Hm & Hk). exists m. simpl.
    by rewrite Hi, Hkey.
Qed.

Lemma Keeps_run {E St A} (R : relation St) (m : M E St A) w r w' :
  Keeps R m → m w = (r, w') → R (st w) (st w').
Proof. intros Hm Hw. specialize (Hm w). by rewrite Hw in Hm. Qed.

(** A committed transaction ran its body to the end. *)
Lemma transaction_Ok {A} restore (body : M Error Db A) w a w' :
  transaction restore body w = (Ok a, w') →
  ∃ w1 w2, body w1 = (Ok a, w2) ∧ st w1 = st w ∧ st w2 = st w'.
Proof.
  unfold transaction. rewrite run_query. destruct (fault (tick w)); [done|].
  destruct (body _) as [[a'|e] w2] eqn:Hb; [|done]. rewrite run_query.
  destruct (fault (tick w2)); [done|]. intros [= -> <-]. by eexists _, _.
Qed.

(** Every result a batch has filled in is stored. *)
Definition results_ok (items : list EnqueueInput) (filled : nat → Prop)
    (acc : list (option (string * bool)) * gmap string (Z * Z)) (s : Db) : Prop :=
  length (shards s) = MESSAGE_SHARDS ∧ length acc.1 = length items ∧
  ∀ k item, items !! k = Some item → filled k →
    ∃ r, acc.1 !! k = Some (Some r) ∧ stored s item r.

Lemma enqueue_shard_post items acc i w acc' w' (filled : nat → Prop) :
  (i < MESSAGE_SHARDS)%nat → results_ok items filled acc (st w) →
  enqueue_shard items acc i w = (Ok acc', w') →
  results_ok items (λ k, filled k ∨ ∃ item, items !! k = Some item ∧ topic_shard (in_topic item) = i)
    acc' (st w').
Proof.
  intros Hi Hok. unfold enqueue_shard.
  destruct (group i _ items) as [|e es] eqn:Hg.
  { rewrite run_ret. intros [= <- <-]. destruct Hok as (HL & Hlen & Hok). split_and!; try done.
    intros k item Hk [?|(item' & Hk' & Hs)]; [by apply Hok|]. exfalso.
    assert ((k, item) ∈ group i (λ item, Some (topic_shard (in_topic item))) items) as Hin.
    { apply elem_of_group. split; [done|]. f_equal. congruence. }
    rewrite Hg in Hin. by apply elem_of_nil in Hin. }
  rewrite <-Hg. intros (w1 & w2 & Hrun & Hw1 & <-)%transaction_Ok. rewrite <-Hw1 in Hok.
  set (entries := group i _ items) in *.
  apply (fold_each_post (λ done acc s, results_ok items (λ k, filled k ∨ k ∈ done.*1) acc s))
    in Hrun.
  - destruct Hrun as (HL & Hlen & Hr). split_and!; try done.
    intros k item Hk Hfill. apply Hr; [done|]. destruct Hfill as [?|(item' & Hk' & Hs)]; [by left|].
    right. apply list_elem_of_fmap. exists (k, item'). split; [done|].
    apply elem_of_group. split; [done|by f_equal].
  - intros done [k item] todo [res stats] w3 [res' stats'] w4 Hsplit (HL & Hlen & Hr) Hone.
    assert ((k, item) ∈ entries) as Hin by (rewrite Hsplit; set_solver).
    apply elem_of_group in Hin as [Hk [= Hs]].
    pose proof (Keeps_run _ _ _ _ _ (grows_enqueue_one i (res, stats) (k, item)) Hone) as Hgr.
    apply enqueue_one_post in Hone as (r & -> & Hst); [|done|by rewrite HL].
    split_and!; [by rewrite (proj1 Hgr)|simpl in *; by rewrite length_insert|].
    intros k' item' Hk' Hfill. simpl in *. destruct (decide (k = k')) as [<-|Hne].
    + exists r. rewrite list_lookup_insert_eq by (rewrite Hlen; by eapply lookup_lt_Some).
      by assert (item' = item) as -> by congruence.
    + destruct (Hr k' item' Hk') as (r' & Hr' & Hst').
      { destruct Hfill as [?|Hin]; [by left|]. right. rewrite fmap_app in Hin. set_solver. }
      exists r'. rewrite list_lookup_insert_ne by done. split; [done|]. by eapply stored_grows.
  - destruct Hok as (? & ? & Hok). split_and!; try done. intros k item Hk [?|Hin]; [by apply Hok|].
    by apply elem_of_nil in Hin.
Qed.

Lemma enqueue_shards_post items w acc' w' :
  length (shards (st w)) = MESSAGE_SHARDS →
  fold_each (seq 0 MESSAGE_SHARDS) (replicate (length items) None, ∅) (enqueue_shard items) w
  = (Ok acc', w') →
  results_ok items (λ _, True) acc' (st w').
Proof.
  intros HL Hrun.
  apply (fold_each_post (λ done acc s, results_ok items
    (λ k, ∃ item, items !! k = Some item ∧ topic_shard (in_topic item) ∈ done) acc s)) in Hrun.
  - destruct Hrun as (? & ? & Hr). split_and!; try done. intros k item Hk _. apply Hr; [done|].
    exists item. split; [done|]. apply elem_of_seq. pose proof (topic_shard_bound (in_topic item)). lia.
  - intros done i todo acc w1 acc1 w2 Hsplit Hok Hone.
    assert (i ∈ seq 0 MESSAGE_SHARDS) as Hin by (rewrite Hsplit; set_solver).
    apply elem_of_seq in Hin.
    eapply enqueue_shard_post in Hone as (? & ? & Hr); [|lia|done].
    split_and!; try done. intros k item Hk (item' & Hk' & Hs). apply Hr; [done|].
    simplify_eq. apply elem_of_app in Hs as [Hs|Hs%list_elem_of_singleton]; [left|right]; by exists item.
  - split_and!; [done|simpl; by rewrite length_replicate|]. intros k item _ (? & _ & Hin).
    by apply elem_of_nil in Hin.
Qed.

Lemma mapM_id_filled {A} (l : list (option A)) :
  (∀ k o, l !! k = Some o → is_Some o) →
  ∃ rs, mapM (M:=option) id l = Some rs ∧ length rs = length l ∧
        ∀ k r, l !! k = Some (Some r) → rs !! k = Some r.
Proof.
  induction l as [|o l IH]; intros Hl; [by exists []|].
  destruct (Hl 0%nat o eq_refl) as [a ->].
  destruct IH as (rs & Hrs & Hlen & Hk). { intros k o. apply (Hl (S k)). }
  exists (a :: rs). cbn [mapM]. rewrite Hrs. split_and!; [done|by simpl; rewrite Hlen|].
  intros [|k] r; simpl; [by intros [= ->]|apply Hk].
Qed.

Lemma grows_enqueue_batch items : Keeps grows (enqueue_batch items).
Proof.
  unfold enqueue_batch. repeat keeps_step; apply grows_enqueue_shard || apply grows_record_topic_stats.
Qed.

(** What a batch promises when its loop over the shards succeeded. *)
Lemma enqueue_batch_post items w rs w' :
  length (shards (st w)) = MESSAGE_SHARDS → enqueue_batch items w = (Ok rs, w') →
  length rs = length items ∧
  ∀ k item, items !! k = Some item → ∃ r, rs !! k = Some r ∧ stored (st w') item r.
Proof.
  intros HL. unfold enqueue_batch. rewrite run_bind.
  destruct (fold_each _ _ (enqueue_shard items) w) as [[[res stats]|e] w1] eqn:Hloop; [|done].
  apply enqueue_shards_post in Hloop as (_ & Hlen & Hr); [|done]. simpl in Hlen, Hr.
  rewrite run_bind, run_unordered. cbv beta iota.
  rewrite run_bind. destruct (for_each _ _ _) as [[u|e] w2] eqn:Hfor; [|done].
  assert (grows (st w1) (st w2)) as Hgr.
  { eapply (Keeps_run grows) in Hfor; [exact Hfor|]. keeps_step.
    repeat keeps_step. apply grows_record_topic_stats. }
  destruct (mapM_id_filled res) as (rs' & Hrs' & Hlen' & Hk').
  { intros k o Hk. destruct (items !! k) as [item|] eqn:Hi.
    - destruct (Hr k item Hi I) as (r & Hr' & _). simplify_eq. by eexists.
    - apply lookup_ge_None in Hi. apply lookup_lt_Some in Hk. lia. }
  rewrite Hrs'. rewrite run_ret. intros [= <- <-]. split; [congruence|].
  intros k item Hk. destruct (Hr k item Hk I) as (r & Hr' & Hst). exists r.
  split; [by apply Hk'|]. by eapply stored_grows.
Qed.

(** Without storage faults, from some point on or throughout. *)
Definition calm_from (n : nat) : Prop := ∀ k, (n <= k)%nat → fault k = None.
Definition calm : Prop := ∀ n, fault n = None.

Lemma calm_from_calm n : calm → calm_from n.
Proof. intros Hc k _. apply Hc. Qed.

Lemma transaction_total {A} restore (body : M Error Db A) w a w' :
  calm_from (tick w) → body (mkWorld (st w) (S (tick w))) = (Ok a, w') → (tick w <= tick w')%nat →
  transaction restore body w = (Ok a, mkWorld (st w') (S (tick w'))).
Proof.
  intros Hc Hb Ht. unfold transaction. rewrite run_query, Hc, Hb by lia. by rewrite run_query, Hc by lia.
Qed.

Lemma record_topic_stats_total topic d w : ∃ w', record_topic_stats topic d w = (Ok (), w').
Proof.
  unfold record_topic_stats, record_message_trend. run. case_match; run; eauto.
Qed.

(** The same messages in every shard. *)
Definition same_shards (s s' : Db) : Prop := shards s' = shards s.

#[export] Instance same_shards_preorder : PreOrder same_shards.
Proof. unfold same_shards. split; [done|]. intros s1 s2 s3. congruence. Qed.

Lemma shards_record_topic_stats topic d : Keeps same_shards (record_topic_stats topic d).
Proof. unfold record_topic_stats, record_message_trend. repeat keeps_step; done. Qed.

(** The identifiers of the items not yet visited are unused. *)
Definition unused (items : list EnqueueInput) (left_ : nat → Prop) (s : Db) : Prop :=
  length (shards s) = MESSAGE_SHARDS ∧
  ∀ k item, items !! k = Some item → left_ k →
    shard (topic_shard (in_topic item)) s !! in_id item = None.

Lemma enqueue_one_total i acc k item w :
  calm_from (tick w) → is_Some (attrs_to_json (in_attributes item)) → topic_shard (in_topic item) = i →
  length (shards (st w)) = MESSAGE_SHARDS → shard i (st w) !! in_id item = None →
  ∃ acc' w', enqueue_one i acc (k, item) w = (Ok acc', w') ∧ (tick w <= tick w')%nat ∧
    length (shards (st w')) = MESSAGE_SHARDS ∧
    ∀ j id, id ≠ in_id item → shard j (st w') !! id = shard j (st w) !! id.
Proof.
  intros Hc [js Hjs] Hi HL Hnone. destruct acc as [res stats].
  unfold enqueue_one, rfc_now, on_shard, ask_shard. run. rewrite Hjs. run. rewrite Hc by lia. run.
  unfold insert_or_ignore. rewrite Hnone. rewrite bool_decide_eq_false_2 by (by intros [? ?]).
  cbn [orb]. assert (∀ f, length (shards (set_shard i f (st w))) = MESSAGE_SHARDS) as HL'.
  { intros f. simpl. by rewrite length_alter. }
  destruct (key_taken _ _) eqn:Hk; run.
  - cbn [new_row m_key] in Hk. destruct (in_key item) as [key|] eqn:Hkey; [|done]. run.
    rewrite Hc by lia. run. apply key_taken_true in Hk as (id & m & Hm & Hmk).
    assert (is_Some (id_of_key key (shard i (set_shard i (λ _, shard i (st w)) (st w))))) as [id' ->].
    { rewrite shard_set_shard_gen. rewrite decide_True by (rewrite HL, <-Hi; auto using topic_shard_bound).
      unfold id_of_key. destruct (select_where _ _) as [|? ?] eqn:E; [|by eexists].
      assert ((id, m) ∈ select_where (λ _ m, bool_decide (m_key m = Some key)) (shard i (st w))) as Hin.
      { apply elem_of_select_where. split; [done|by apply bool_decide_eq_true]. }
      rewrite E in Hin. by apply elem_of_nil in Hin. }
    run. do 2 eexists. split_and!; [done|cbn [tick]; lia|apply HL'|]. intros j id0 _. cbn [st].
    rewrite shard_set_shard_gen. case_decide as Hd; [|done]. by destruct Hd; subst.
  - do 2 eexists. split_and!; [done|cbn [tick]; lia|apply HL'|]. intros j id0 Hne. cbn [st].
    rewrite shard_set_shard_gen. case_decide as Hd; [|done]. destruct Hd; subst.
    by rewrite lookup_insert_ne.
Qed.

Lemma enqueue_shard_total items acc i w (left_ : nat → Prop) :
  calm_from (tick w) → Forall (λ item, is_Some (attrs_to_json (in_attributes item))) items →
  NoDup (in_id <$> items) → unused items left_ (st w) →
  (∀ k item, items !! k = Some item → topic_shard (in_topic item) = i → left_ k) →
  ∃ acc' w', enqueue_shard items acc i w = (Ok acc', w') ∧ (tick w <= tick w')%nat ∧
    (∀ j id, id ∉ in_id <$> items → shard j (st w') !! id = shard j (st w) !! id) ∧
    unused items (λ k, left_ k ∧ ∀ item, items !! k = Some item → topic_shard (in_topic item) ≠ i)
      (st w').
Proof.
  intros Hc Hjs Hnd Hun Hleft. unfold enqueue_shard.
  destruct (group i _ items) as [|e es] eqn:Hg.
  { exists acc, w. rewrite run_ret. split; [done|]. split; [done|]. split; [done|].
    destruct Hun as [? Hun]. split; [done|]. intros k item Hk [? _]. by eapply Hun. }
  rewrite <-Hg. set (entries := group i _ items) in *.
  destruct (fold_each_total (λ done (_ : list (option (string * bool)) * gmap string (Z * Z)) w1,
    (tick w <= tick w1)%nat ∧
    (∀ j id, id ∉ in_id <$> items → shard j (st w1) !! id = shard j (st w) !! id) ∧
    unused items (λ k, left_ k ∧ k ∉ done.*1) (st w1)) entries (enqueue_one i)) with
    (acc := acc) (w := mkWorld (st w) (S (tick w))) as (acc' & w' & Hrun & Ht & Hsame & Hun').
  - intros done [k item] todo acc1 w1 Hsplit (Ht & Hsame & HL & Hu).
    assert ((k, item) ∈ entries) as Hin by (rewrite Hsplit; set_solver).
    apply elem_of_group in Hin as [Hk [= Hs]].
    assert (k ∉ done.*1) as Hkd.
    { intros Hin. assert (NoDup entries.*1) as Hnd'.
      { unfold entries, group. apply NoDup_fmap_fst.
        - intros x y y'. rewrite !list_elem_of_filter, !list_elem_of_lookup.
          setoid_rewrite list_lookup_imap_Some. naive_solver.
        - apply NoDup_filter, (NoDup_fmap_1 fst).
          replace (imap pair items).*1 with (seq 0 (length items)); [apply NoDup_seq|].
          apply list_eq. intros j. rewrite list_lookup_fmap, list_lookup_imap.
          destruct (items !! j) eqn:Ej; simpl.
          + apply lookup_lt_Some in Ej. by rewrite lookup_seq_lt.
          + apply lookup_ge_None in Ej. by rewrite lookup_seq_ge. }
      rewrite Hsplit, fmap_app in Hnd'. apply NoDup_app in Hnd' as (_ & Hd & _).
      apply (Hd k Hin). left. }
    destruct (enqueue_one_total i acc1 k item w1) as (acc2 & w2 & -> & Ht2 & HL2 & Hsame2); try done.
    { intros n Hn. apply Hc. lia. }
    { rewrite Forall_lookup in Hjs. by eapply Hjs. }
    { rewrite <-Hs. apply (Hu k); [done|]. split; [by eapply Hleft|done]. }
    do 2 eexists. split; [done|]. split; [lia|]. split.
    { intros j id Hid. rewrite Hsame2; [by apply Hsame|]. intros ->. apply Hid.
      apply list_elem_of_fmap. exists item. split; [done|]. by eapply list_elem_of_lookup_2. }
    split; [done|]. intros k' item' Hk' [Hl' Hd'].
    rewrite Hsame2; [by apply (Hu k'); [|split; [|set_solver]]|].
    intros Hid. apply Hd'. assert (k' = k) as ->; [|set_solver].
    eapply (NoDup_lookup (in_id <$> items)); [done|..]; rewrite list_lookup_fmap.
    + by rewrite Hk'.
    + rewrite Hk. simpl. by rewrite Hid.
  - split; [simpl; lia|]. split; [done|]. destruct Hun as [? Hun]. split; [done|].
    intros k item Hk [? _]. by eapply Hun.
  - do 2 eexists. split; [by apply transaction_total|]. split; [simpl; lia|]. split; [done|].
    destruct Hun' as [? Hun']. split; [done|]. intros k item Hk [Hl Hne]. apply (Hun' k); [done|]. split; [done|].
    intros ([k' item'] & Hk' & Hin)%list_elem_of_fmap. simpl in Hk'. subst k'.
    apply elem_of_group in Hin as [Hk' [= Hs]]. by eapply Hne.
Qed.

(** After its transactions [enqueue_batch] cannot fail. *)
Lemma enqueue_batch_finish items w acc w1 :
  length (shards (st w)) = MESSAGE_SHARDS →
  fold_each (seq 0 MESSAGE_SHARDS) (replicate (length items) None, ∅) (enqueue_shard items) w
    = (Ok acc, w1) →
  ∃ rs w', enqueue_batch items w = (Ok rs, w') ∧ same_shards (st w1) (st w') ∧ (tick w1 <= tick w')%nat.
Proof.
  intros HL Hrun. pose proof Hrun as Hok. apply enqueue_shards_post in Hok as (_ & Hlen & Hr); [|done].
  unfold enqueue_batch. rewrite run_bind, Hrun. destruct acc as [res stats]. simpl in Hlen, Hr.
  rewrite run_bind, run_unordered. cbv beta iota. rewrite run_bind.
  match goal with |- context [for_each ?l ?f ?w0] =>
    assert (same_shards (st w0) (st (for_each l f w0).2)) as Hsh;
    [|assert (tick w0 <= tick (for_each l f w0).2)%nat as Ht] end.
  { apply (keeps_for_each same_shards). intros [topic [a d]] _. apply shards_record_topic_stats. }
  { apply ticks_for_each. intros [topic [a d]]. unfold record_topic_stats, record_message_trend. ticks_go. }
  edestruct (for_each_total (E:=Error) (St:=Db)
    (any_order (tick w1) (map_to_list stats)) (λ '(topic, (accepted, duplicates)),
      record_topic_stats topic
        {| d_accepted := accepted; d_duplicates := duplicates; d_delivered := 0 |}))
    as [w2 Hfor].
  { intros [topic [a d]] w2. apply record_topic_stats_total. }
  rewrite Hfor in Hsh, Ht |- *. cbn [snd st tick] in Hsh, Ht.
  destruct (mapM_id_filled res) as (rs & -> & _).
  - intros k o Hk. destruct (items !! k) as [item|] eqn:Hi.
    + destruct (Hr k item Hi I) as (r & Hr' & _). simplify_eq. by eexists.
    + apply lookup_ge_None in Hi. apply lookup_lt_Some in Hk. lia.
  - run. do 2 eexists. split; [done|]. split; [done|lia].
Qed.

Lemma enqueue_batch_total items w :
  calm_from (tick w) → Forall (λ item, is_Some (attrs_to_json (in_attributes item))) items →
  NoDup (in_id <$> items) → unused items (λ _, True) (st w) →
  ∃ rs w', enqueue_batch items w = (Ok rs, w') ∧
    ∀ j id, id ∉ in_id <$> items → shard j (st w') !! id = shard j (st w) !! id.
Proof.
  intros Hc Hjs Hnd Hun. unfold enqueue_batch.
  destruct (fold_each_total (λ done (_ : list (option (string * bool)) * gmap string (Z * Z)) w1,
    (tick w <= tick w1)%nat ∧
    (∀ j id, id ∉ in_id <$> items → shard j (st w1) !! id = shard j (st w) !! id) ∧
    unused items (λ k, ∀ item, items !! k = Some item → topic_shard (in_topic item) ∉ done) (st w1))
    (seq 0 MESSAGE_SHARDS) (enqueue_shard items)) with
    (acc := (replicate (length items) None : list (option (string * bool)), ∅ : gmap string (Z * Z)))
    (w := w) as (acc' & w1 & Hrun & _ & Hsame & _).
  - intros done i todo acc w1 Hsplit (Ht & Hsame & Hu).
    destruct (enqueue_shard_total items acc i w1 _ ltac:(intros n Hn; apply Hc; lia) Hjs Hnd Hu)
      as (acc2 & w2 & -> & Ht2 & Hsame2 & Hu2).
    + intros k item Hk Hi item' Hk'. simplify_eq. intros Hin.
      assert (NoDup (seq 0 MESSAGE_SHARDS)) as Hn by apply NoDup_seq.
      rewrite Hsplit in Hn. apply NoDup_app in Hn as (_ & Hd & _). apply (Hd _ Hin). left.
    + do 2 eexists. split; [done|]. split; [lia|].
      split; [intros j id Hid; by rewrite Hsame2, Hsame|]. destruct Hu2 as [? Hu2]. split; [done|].
      intros k item Hk Hl. eapply Hu2; [done|]. split; intros item' Hk'; specialize (Hl item' Hk');
        set_solver.
  - split; [done|]. split; [done|]. destruct Hun as [? Hun]. split; [done|].
    intros k item Hk _. by eapply Hun.
  - destruct (enqueue_batch_finish items w acc' w1) as (rs & w' & Hbatch & Hsh & _); [apply Hun|done|].
    exists rs, w'. split; [done|]. intros j id Hid. unfold shard. rewrite Hsh. by apply Hsame.
Qed.

(** * Claiming *)

#[local] Instance created_le_total : Total created_le.
Proof. intros a b. apply str_leb_total. Qed.
#[local] Instance created_le_trans : Transitive created_le.
Proof. intros a b c. apply str_leb_trans. Qed.

#[local] Instance claim_le_total : Total claim_le.
Proof.
  intros a b. unfold claim_le, str_ltb.
  destruct (str_leb (cm_created_at b) (cm_created_at a)) eqn:E1; [|by left; left].
  destruct (str_leb (cm_created_at a) (cm_created_at b)) eqn:E2; [|by right; left].
  assert (cm_created_at a = cm_created_at b) as Heq by by apply str_leb_antisym.
  destruct (str_leb_total (cm_id a) (cm_id b)); [left|right]; right; by split.
Qed.

(** The first [k] of a sorted list are below the others. *)
Lemma take_sorted {A} (R : relation A) `{!Transitive R} k l x :
  Sorted R l → x ∈ l → x ∉ take k l →
  length (take k l) = k ∧ Forall (λ y, R y x) (take k l).
Proof.
  intros Hs Hx Hnot. rewrite <-(take_drop k l) in Hx. apply elem_of_app in Hx as [?|Hx]; [done|].
  split.
  - rewrite length_take. assert (k < length l)%nat; [|lia].
    destruct (decide (k < length l)%nat); [done|]. rewrite drop_ge in Hx by lia.
    by apply elem_of_nil in Hx.
  - apply Sorted_StronglySorted in Hs; [|done]. rewrite <-(take_drop k l) in Hs.
    apply Forall_forall. intros y Hy. by eapply StronglySorted_app_1_elem_of.
Qed.

Lemma mapM_result {E A B} (f : A → result E B) l k :
  mapM f l = Ok k → Forall2 (λ x y, f x = Ok y) l k.
Proof.
  revert k. induction l as [|x l IH]; intros k; simpl; [intros [= <-]; constructor|].
  destruct (f x) as [y|] eqn:Ef; simpl; [|done].
  destruct (mapM f l) as [ys|] eqn:El; simpl; [|done]. intros [= <-]. constructor; auto.
Qed.

Context `{!OrderLaws}.

(** What [TOPIC_CLAIM_BATCH_SQL] does to a table. *)
Lemma claim_sql_spec topic lease visible now limit n t rows t' :
  claim_sql topic lease visible now limit n t = (rows, t') →
  let hit id m := t !! id = Some m ∧ ready now m = true ∧ m_topic m = topic in
  (length rows <= limit)%nat ∧ NoDup rows.*1 ∧
  (∀ id m', (id, m') ∈ rows →
     ∃ m, hit id m ∧ m' = to_processing lease visible m ∧ t' !! id = Some m') ∧
  (∀ id, id ∉ rows.*1 → t' !! id = t !! id) ∧
  (∀ id m, hit id m → id ∉ rows.*1 →
     length rows = limit ∧ ∀ id' m', (id', m') ∈ rows → str_leb (m_created m') (m_created m) = true).
Proof.
  unfold claim_sql. intros [= Hrows Ht'].
  set (sel := select_where _ t) in *. set (srt := merge_sort created_le (any_order n sel)) in *.
  set (chosen := take limit srt) in *.
  assert (srt ≡ₚ sel) as Hperm.
  { unfold srt. by rewrite merge_sort_Permutation, any_order_perm. }
  assert (Sorted created_le srt) as Hsort by (apply (Sorted_merge_sort _)).
  assert (rows ≡ₚ map (λ '(id, m), (id, to_processing lease visible m)) chosen) as Hr.
  { by rewrite <-Hrows, any_order_perm. }
  assert (rows.*1 ≡ₚ chosen.*1) as Hids.
  { rewrite Hr. clear. generalize chosen. intros l. induction l as [|[? ?] ? IH]; [done|].
    simpl. by rewrite IH. }
  assert (∀ id m, (id, m) ∈ chosen → t !! id = Some m ∧ ready now m = true ∧ m_topic m = topic)
    as Hch.
  { intros id m Hin. assert ((id, m) ∈ sel) as Hs.
    { rewrite <-Hperm. by eapply elem_of_sublist; [|apply sublist_take]. }
    apply elem_of_select_where in Hs as [? [? Ht%bool_decide_eq_true]%andb_prop]. done. }
  assert (NoDup chosen.*1) as Hnd.
  { unfold chosen. rewrite fmap_take. eapply sublist_NoDup; [|apply sublist_take].
    rewrite Hperm. apply NoDup_select_where. }
  assert (∀ id m, t !! id = Some m → id ∈ chosen.*1 → (id, m) ∈ chosen) as Hin.
  { intros id m Hm ([id' m'] & Heq & Hin)%list_elem_of_fmap. simpl in Heq. subst id'.
    destruct (Hch _ _ Hin). by assert (m = m') as -> by congruence. }
  cbv zeta. split_and!.
  - rewrite Hr. rewrite length_map. unfold chosen. rewrite length_take. lia.
  - by rewrite Hids.
  - intros id m'. rewrite Hr. rewrite list_elem_of_In, in_map_iff.
    intros ([id0 m] & [= -> <-] & Hm%list_elem_of_In).
    destruct (Hch _ _ Hm) as (Ht & Hrd & Htp). exists m. split_and!; try done.
    rewrite <-Ht', lookup_update_where, Ht. simpl.
    rewrite bool_decide_eq_true_2 by (apply list_elem_of_fmap; by exists (id, m)).
    unfold ready in Hrd. apply andb_prop in Hrd as [-> _]. done.
  - intros id Hnot. rewrite Hids in Hnot. rewrite <-Ht', lookup_update_where.
    destruct (t !! id); [|done]. simpl. by rewrite bool_decide_eq_false_2.
  - intros id m (Hm & Hrd & Htp) Hnot. rewrite Hids in Hnot.
    destruct (take_sorted created_le limit srt (id, m)) as [Hlen Hall]; [done| | |].
    + rewrite Hperm. apply elem_of_select_where. rewrite Hrd, bool_decide_eq_true_2 by done. done.
    + intros Hc. apply Hnot, list_elem_of_fmap. by exists (id, m).
    + fold chosen in Hlen, Hall. rewrite Hr, length_map. split; [done|].
      intros id' m'. rewrite Hr, list_elem_of_In, in_map_iff.
      intros ([id0 m0] & [= -> <-] & Hm0%list_elem_of_In).
      rewrite Forall_forall in Hall. apply (Hall _ Hm0).
Qed.

Lemma hydrate_claim_Ok lease id m x :
  hydrate_claim lease (id, m) = Ok x →
  cm_id x = id ∧ cm_topic x = m_topic m ∧ cm_payload x = m_payload m ∧
  cm_created_at x = m_created m ∧ cm_lease x = lease ∧ cm_attempts x = m_attempts m ∧
  json_from_str (m_attributes m) = Some (cm_attributes x).
Proof.
  unfold hydrate_claim. destruct (json_from_str _) as [j|] eqn:E; simpl; [|done].
  intros [= <-]. done.
Qed.

(** A batch claim at time [now] that took [ms] from table [t], leaving [t']. *)
Definition claimed (topic now lease : string) (limit : Z) (ms : list ClaimedMessage)
    (t t' : Table) : Prop :=
  let available id m := t !! id = Some m ∧ ready now m = true ∧ m_topic m = topic in
  Z.of_nat (length ms) <= clampZ 1 128 limit ∧ Sorted claim_le ms ∧ NoDup (cm_id <$> ms) ∧
  (∀ x, x ∈ ms → ∃ m visible, available (cm_id x) m ∧
     t' !! cm_id x = Some (to_processing lease visible m) ∧
     cm_lease x = lease ∧ cm_topic x = topic ∧ cm_payload x = m_payload m ∧
     cm_created_at x = m_created m ∧ cm_attempts x = m_attempts m + 1 ∧
     json_from_str (m_attributes m) = Some (cm_attributes x)) ∧
  (∀ id, id ∉ cm_id <$> ms → t' !! id = t !! id) ∧
  (∀ id m, available id m → id ∉ cm_id <$> ms →
     Z.of_nat (length ms) = clampZ 1 128 limit ∧
     ∀ x, x ∈ ms → str_leb (cm_created_at x) (m_created m) = true).

Lemma claimed_of_sql topic lease visible now limit n t rows t' ms :
  claim_sql topic lease visible now (Z.to_nat (clampZ 1 128 limit)) n t = (rows, t') →
  mapM (hydrate_claim lease) rows = Ok ms →
  claimed topic now lease limit (merge_sort claim_le ms) t t'.
Proof.
  intros (Hlen & Hnd & Hin & Hout & Hold)%claim_sql_spec Hms%mapM_result.
  assert (length ms = length rows) as Hl by (symmetry; by eapply Forall2_length).
  assert (cm_id <$> ms = rows.*1) as Hids.
  { clear -Hms. induction Hms as [|[id m] x ? ? Hx ? IH]; [done|]. rewrite !fmap_cons, IH. f_equal.
    by apply hydrate_claim_Ok in Hx as [? _]. }
  assert (merge_sort claim_le ms ≡ₚ ms) as Hp by apply merge_sort_Permutation.
  assert (∀ x, x ∈ ms → ∃ m, (cm_id x, m) ∈ rows ∧ hydrate_claim lease (cm_id x, m) = Ok x) as Hrow.
  { intros x Hx. apply list_elem_of_lookup in Hx as [k Hk].
    eapply Forall2_lookup_r in Hms as ([id m] & Hkm & Hh); [|done].
    pose proof (hydrate_claim_Ok _ _ _ _ Hh) as [Hid _]. subst id.
    exists m. split; [by eapply list_elem_of_lookup_2|done]. }
  pose proof (Sorted_merge_sort claim_le ms) as Hsort. set (out := merge_sort claim_le ms) in *.
  assert (length out = length rows) as Hl' by (rewrite <-Hl; by apply Permutation_length).
  assert (cm_id <$> out ≡ₚ rows.*1) as Hids' by (rewrite <-Hids; by apply fmap_Permutation).
  assert (∀ x, x ∈ out → x ∈ ms) as Hmem by (intros x; by rewrite Hp).
  clearbody out. unfold claimed, clampZ in *. cbv zeta in *. rewrite Hl'. split_and!.
  - lia.
  - done.
  - by rewrite Hids'.
  - intros x Hx%Hmem. destruct (Hrow x Hx) as (m' & Hm' & Hh).
    destruct (Hin _ _ Hm') as (m & Hm & -> & Ht'). exists m, visible.
    apply hydrate_claim_Ok in Hh as (_ & -> & -> & -> & -> & -> & ?). simpl in *.
    split_and!; try done; naive_solver.
  - intros id. rewrite Hids'. apply Hout.
  - intros id m Hm. rewrite Hids'. intros Hnot. destruct (Hold id m Hm Hnot) as [Hlim Hle].
    split; [lia|]. intros x Hx%Hmem. destruct (Hrow x Hx) as (m' & Hm' & Hh).
    apply hydrate_claim_Ok in Hh as (_ & _ & _ & -> & _). by eapply Hle.
Qed.

(** A successful claim. *)
Lemma claim_batch_post topic visibility limit w ms w' :
  length (shards (st w)) = MESSAGE_SHARDS →
  claim_batch_for_topic topic visibility limit w = (Ok ms, w') →
  let i := topic_shard topic in
  claimed topic (to_rfc3339 (clock (tick w))) (uuid (S (tick w))) limit ms
    (shard i (st w)) (shard i (st w')) ∧
  (∀ j, j ≠ i → shard j (st w') = shard j (st w)) ∧
  length (shards (st w')) = MESSAGE_SHARDS.
Proof.
  intros HL. unfold claim_batch_for_topic, add_time, on_shard_at. run.
  destruct (duration_from_std visibility) as [d|]; run; [|done].
  destruct (add_duration _ d) as [v|]; run; [|done].
  destruct (fault (S (S (tick w)))); run; [done|].
  destruct (claim_sql _ _ _ _ _ _ _) as [rows t'] eqn:Hsql; run.
  destruct (mapM _ rows) as [ms'|] eqn:Hms; run; [|done]. intros [= <- <-]. cbn [st].
  assert ((topic_shard topic < length (shards (st w)))%nat) as Hi
    by (rewrite HL; apply topic_shard_bound).
  cbv zeta. split_and!.
  - rewrite shard_set_shard, decide_True by done. by eapply claimed_of_sql.
  - intros j Hj. by rewrite shard_set_shard, decide_False by done.
  - simpl. by rewrite length_alter.
Qed.

Lemma claimed_nil topic now lease limit t t' : claimed topic now lease limit [] t t' → t' = t.
Proof. intros (_ & _ & _ & _ & Hout & _). apply map_eq. intros id. apply Hout, not_elem_of_nil. Qed.

Definition same_tables (s s' : Db) : Prop :=
  length (shards s') = length (shards s) ∧ ∀ i, shard i s' = shard i s.

(** Claims cannot fail: no storage faults, times in range, attributes that
    parse. *)
Definition parseable (s : Db) : Prop :=
  ∀ i id m, shard i s !! id = Some m → is_Some (json_from_str (m_attributes m)).

Definition claimable (visibility : Z) (s : Db) : Prop :=
  calm ∧ length (shards s) = MESSAGE_SHARDS ∧ parseable s ∧
  ∃ d, duration_from_std visibility = Some d ∧ ∀ n, is_Some (add_duration (clock n) d).

Lemma claimable_same v s s' : same_tables s s' → claimable v s → claimable v s'.
Proof.
  intros [HL Hs] (Hc & HL' & Hp & Hd). split_and!; try done; [congruence|].
  intros i id m. rewrite Hs. apply Hp.
Qed.

Lemma mapM_result_total {E A B} (f : A → result E B) l :
  (∀ x, x ∈ l → ∃ y, f x = Ok y) → ∃ ys, mapM f l = Ok ys.
Proof.
  induction l as [|x l IH]; intros Hf; simpl; [by exists []|].
  destruct (Hf x ltac:(left)) as [y ->]. simpl.
  destruct IH as [ys ->]; [intros z Hz; apply Hf; by right|]. by eexists.
Qed.

Lemma claim_batch_total topic visibility limit w :
  claimable visibility (st w) →
  ∃ ms w', claim_batch_for_topic topic visibility limit w = (Ok ms, w').
Proof.
  intros (Hc & HL & Hp & d & Hd & Ha). unfold claim_batch_for_topic, add_time, on_shard_at. run.
  rewrite Hd. run. destruct (Ha (tick w)) as [v ->]. run. rewrite Hc. run.
  destruct (claim_sql _ _ _ _ _ _ _) as [rows t'] eqn:Hsql. run.
  apply claim_sql_spec in Hsql as (_ & _ & Hin & _).
  destruct (mapM_result_total (hydrate_claim (uuid (S (tick w)))) rows) as [ms ->]; [|run; eauto].
  intros [id m'] Hm'. destruct (Hin _ _ Hm') as (m & (Hm & _) & -> & _).
  destruct (Hp _ _ _ Hm) as [j Hj]. unfold hydrate_claim. simpl. rewrite Hj. simpl. eauto.
Qed.

Lemma ticks_claim_batch topic visibility limit :
  Ticks (claim_batch_for_topic topic visibility limit).
Proof. unfold claim_batch_for_topic, add_time, on_shard_at. ticks_go. Qed.

(** A message that stays ready from now on. *)
Definition stays_ready (n : nat) (m : Message) : Prop :=
  ∀ k, (n <= k)%nat → ready (to_rfc3339 (clock k)) m = true.

(** Claiming by topic: nothing is found only if nothing of these topics is ready. *)
Lemma claim_topics_spec f visibility limit topics w :
  claimable visibility (st w) →
  ∃ ms w', claim_topics f visibility limit topics w = (Ok ms, w') ∧ (tick w <= tick w')%nat ∧
    (ms = [] → same_tables (st w) (st w') ∧
       ∀ topic id m, topic ∈ topics → filter_matches f topic = true →
         shard (topic_shard topic) (st w) !! id = Some m → m_topic m = topic →
         ¬ stays_ready (tick w) m) ∧
    (∀ x, x ∈ ms → filter_matches f (cm_topic x) = true).
Proof.
  revert w. induction topics as [|topic topics IH]; intros w Hcl; cbn [claim_topics].
  { exists [], w. rewrite run_ret. split_and!; try done; [|set_solver].
    intros _. split; [done|]. intros ? ? ? Hin. by apply elem_of_nil in Hin. }
  destruct (filter_matches f topic) eqn:Hf.
  - rewrite run_bind. destruct (claim_batch_total topic visibility limit w Hcl) as (ms & w1 & Hrun).
    rewrite Hrun. assert (tick w <= tick w1)%nat as Ht1.
    { pose proof (ticks_claim_batch topic visibility limit w) as Ht. by rewrite Hrun in Ht. }
    pose proof Hcl as (_ & HL & _). apply claim_batch_post in Hrun as (Hms & Hoth & HL1); [|done].
    destruct ms as [|x0 ms].
    + assert (same_tables (st w) (st w1)) as Hsame.
      { split; [congruence|]. intros i. destruct (decide (i = topic_shard topic)) as [->|]; [|auto].
        by eapply claimed_nil. }
      destruct (IH w1 (claimable_same _ _ _ Hsame Hcl)) as (ms' & w2 & -> & Ht2 & Hnil & Hmatch).
      do 2 eexists. split_and!; [done|lia| |done]. intros Hms'. destruct (Hnil Hms') as [Hs2 Hnone].
      split. { destruct Hsame as [? Hs1], Hs2 as [? Hs2]. split; [congruence|].
        intros i. by rewrite Hs2. }
      intros topic' id m [->|Hin]%elem_of_cons Hf' Hm Htp Hready.
      * destruct Hms as (_ & _ & _ & _ & _ & Hold). 
        destruct (Hold id m) as [Hlen _]; [|by apply not_elem_of_nil|].
        { split_and!; [done|apply Hready; lia|done]. }
        unfold clampZ in Hlen. simpl in Hlen. lia.
      * destruct Hsame as [_ Hs1]. eapply (Hnone topic' id m); [done|done|by rewrite Hs1|done|].
        intros k Hk. apply Hready. lia.
    + do 2 eexists. rewrite run_ret. split_and!; [done|done|done|].
      intros x Hx. destruct Hms as (_ & _ & _ & Hin & _).
      destruct (Hin x Hx) as (m & v & _ & _ & _ & -> & _). done.
  - destruct (IH w Hcl) as (ms' & w2 & -> & Ht2 & Hnil & Hmatch).
    do 2 eexists. split_and!; [done|done| |done]. intros Hms'. destruct (Hnil Hms') as [Hs2 Hnone].
    split; [done|]. intros topic' id m [->|Hin]%elem_of_cons Hf'; [congruence|eauto].
Qed.

Lemma elem_of_rotate start topics topic :
  0 <= start < 2 ^ 64 → Z.of_nat (length topics) < 2 ^ 60 →
  topic ∈ topics → topic ∈ rotate_topics start topics.
Proof.
  intros Hstart Hlen [k Hk]%list_elem_of_lookup. unfold rotate_topics.
  pose proof (lookup_lt_Some _ _ _ Hk) as Hlt.
  set (len := Z.of_nat (length topics)) in *.
  assert (0 <= start / Z.of_nat MESSAGE_SHARDS < 2 ^ 60) as Ha.
  { unfold MESSAGE_SHARDS. split; [apply Z.div_pos; lia|]. apply Z.div_lt_upper_bound; lia. }
  set (a := start / Z.of_nat MESSAGE_SHARDS) in *.
  pose proof (Z.mod_pos_bound (Z.of_nat k - a) len ltac:(lia)) as Hoff.
  apply list_elem_of_In, in_map_iff. exists (Z.to_nat ((Z.of_nat k - a) mod len)). split.
  - rewrite Z2Nat.id by lia. unfold wrap_u64. rewrite (Z.mod_small (a + _)) by lia.
    rewrite Z.add_mod_idemp_r by lia. replace (a + (Z.of_nat k - a)) with (Z.of_nat k) by lia.
    rewrite Z.mod_small by lia. rewrite Nat2Z.id. by apply list_lookup_total_correct.
  - apply List.in_seq. lia.
Qed.

Lemma claim_shards_spec f visibility limit start offsets w :
  claimable visibility (st w) → db_ok (st w) → 0 <= start < 2 ^ 64 →
  (∀ i, Z.of_nat (size (shard i (st w))) < 2 ^ 60) →
  ∃ ms w', claim_shards f visibility limit start offsets w = (Ok ms, w') ∧
    (ms = [] → ∀ offset id m, offset ∈ offsets →
       shard (Z.to_nat (wrap_u64 (start + Z.of_nat offset) mod Z.of_nat MESSAGE_SHARDS)) (st w)
         !! id = Some m →
       filter_matches f (m_topic m) = true → ¬ stays_ready (tick w) m) ∧
    (∀ x, x ∈ ms → filter_matches f (cm_topic x) = true).
Proof.
  intros Hcl Hok Hstart Hsize. revert w Hcl Hok Hsize.
  induction offsets as [|o os IH]; intros w Hcl Hok Hsize; cbn [claim_shards].
  { exists [], w. rewrite run_ret. split_and!; [done| |set_solver].
    intros _ ? ? ? Hin. by apply elem_of_nil in Hin. }
  set (i := Z.to_nat (wrap_u64 (start + Z.of_nat o) mod Z.of_nat MESSAGE_SHARDS)).
  unfold rfc_now, ask_shard_at. run. rewrite (proj1 Hcl). run.
  set (topics := any_order _ _).
  set (w1 := mkWorld (st w) (S (S (tick w)))).
  destruct (claim_topics_spec f visibility limit (rotate_topics start topics) w1)
    as (ms & w2 & -> & Ht & Hnil & Hmatch); [done|].
  assert (∀ id m, shard i (st w) !! id = Some m → stays_ready (tick w) m →
    m_topic m ∈ rotate_topics start topics) as Htopics.
  { intros id m Hm Hr.
    assert (topics ≡ₚ remove_dups (map (λ '(_, m), m_topic m)
      (select_where (λ _ m, ready (to_rfc3339 (clock (tick w))) m) (shard i (st w))))) as Hp.
    { unfold topics. by rewrite any_order_perm. }
    apply elem_of_rotate; [done| |].
    - rewrite (Permutation_length Hp). specialize (Hsize i). eapply Z.le_lt_trans; [|done].
      apply Nat2Z.inj_le. etrans; [apply length_remove_dups_le|]. rewrite length_map.
      unfold select_where. etrans; [apply length_filter|]. by rewrite length_map_to_list.
    - rewrite Hp, elem_of_remove_dups, list_elem_of_In, in_map_iff. exists (id, m).
      split; [done|]. apply list_elem_of_In, elem_of_select_where. split; [done|]. apply Hr. lia. }
  destruct ms as [|x ms].
  - destruct (Hnil eq_refl) as [Hsame Hnone].
    destruct (IH w2) as (ms & w3 & -> & Hnil' & Hmatch').
    + by eapply claimable_same.
    + destruct Hsame as [HL Hs], Hok as [HL' Hok]. split; [simpl in *; congruence|].
      intros j. rewrite Hs. apply Hok.
    + intros j. destruct Hsame as [_ Hs]. rewrite Hs. apply Hsize.
    + do 2 eexists. split_and!; [done| |done]. intros Hms o' id m [->|Hin]%elem_of_cons Hm Hf Hr.
      * pose proof (proj2 Hok i) as [Hrow _]. destruct (Hrow id m Hm) as (Hsh & _).
        apply (Hnone (m_topic m) id m); [by eapply Htopics|done|by rewrite Hsh|done|].
        intros k Hk. apply Hr. simpl in Hk. lia.
      * eapply (Hnil' Hms o' id m); [done| |done|].
        -- destruct Hsame as [_ Hs]. by rewrite Hs.
        -- intros k Hk. apply Hr. simpl in Ht. lia.
  - do 2 eexists. rewrite run_ret. split_and!; done.
Qed.

(** * Completing a claim *)

(** No message is claimed under any of these (identifier, lease) pairs. *)
Definition unleased (pairs : list (string * string)) (s : Db) : Prop :=
  ∀ id lease i m, (id, lease) ∈ pairs → shard i s !! id = Some m → leased lease m = false.

(** Without such a claim the message tables stay as they are. *)
Definition guarded (pairs : list (string * string)) (s s' : Db) : Prop :=
  unleased pairs s → same_tables s s'.

#[local] Instance guarded_preorder pairs : PreOrder (guarded pairs).
Proof.
  split.
  - intros s _. done.
  - intros s1 s2 s3 H12 H23 Hun. destruct (H12 Hun) as [HL Hs].
    destruct H23 as [HL' Hs'].
    + intros id lease i m Hp. rewrite Hs. by apply Hun.
    + split; [congruence|]. intros i. by rewrite Hs'.
Qed.

Lemma guarded_shards pairs s s' : shards s' = shards s → guarded pairs s s'.
Proof. intros Hs _. unfold same_tables, shard. by rewrite Hs. Qed.

Lemma same_tables_id i s : same_tables s (set_shard i (λ _, shard i s) s).
Proof.
  split; [apply length_alter|]. intros j. rewrite shard_set_shard_gen.
  case_decide as Hd; [by destruct Hd; subst|done].
Qed.

Lemma guarded_update_id pairs i id lease p f :
  (id, lease) ∈ pairs → (∀ m, p m = true → leased lease m = true) →
  Keeps (guarded pairs) (on_shard i (update_id id p f)).
Proof.
  intros Hin Hp. apply keeps_stmt; [apply _|]. intros s Hun. unfold update_id.
  destruct (select_id id p (shard i s)) as [m|] eqn:E; [|apply same_tables_id].
  apply select_id_Some in E as [Hm Hpm]. apply Hp in Hpm.
  specialize (Hun id lease i m Hin Hm). congruence.
Qed.

Ltac guarded_step :=
  first
    [ keeps_step
    | apply keeps_rfc_now; apply _
    | apply keeps_add_time; apply _
    | apply keeps_ask_shard; apply _
    | apply keeps_ask_shard_at; apply _
    | apply keeps_shard_index_for_id; apply _
    | lazymatch goal with |- guarded _ _ _ => by apply guarded_shards end ].

Lemma guarded_bumps pairs topic a du d f n :
  Keeps (guarded pairs) (bump_topic_stat topic a du d f) ∧
  Keeps (guarded pairs) (bump_dropped topic n) ∧
  ∀ delta, Keeps (guarded pairs) (record_topic_stats topic delta).
Proof.
  unfold bump_topic_stat, bump_dropped, record_topic_stats, record_message_trend.
  split_and!; intros; repeat guarded_step.
Qed.

Lemma guarded_shard_tx {A} pairs i (body : M Error Db A) :
  Keeps (guarded pairs) body → Keeps (guarded pairs) (shard_tx i body).
Proof.
  apply keeps_transaction; [apply _|]. intros s s' Hg Hun. destruct (Hg Hun) as [HL Hs].
  split; [simpl; by rewrite length_alter|]. intros j. rewrite shard_set_shard_gen.
  case_decide as Hd; [by destruct Hd; subst|apply Hs].
Qed.

(** The operations that complete or extend a claim. *)
Definition completes (op : Op) : option (list (string * string)) :=
  match op with
  | ORelease id lease | ORenewClaim id lease _ | OFailed id lease _ _ | ODropClaimed id lease _ =>
      Some [(id, lease)]
  | ODelivered pairs => Some pairs
  | _ => None
  end.

Lemma located_pairs pairs w located w' :
  fold_each pairs [] (λ (acc : list (option nat * (string * string))) '(id, lease),
    i ← shard_index_for_id id; mret (acc ++ [(i, (id, lease))])) w = (Ok located, w') →
  located.*2 = pairs.
Proof.
  intros Hrun. revert Hrun.
  apply (fold_each_post (λ done (acc : list (option nat * (string * string))) _, acc.*2 = done)); [|done].
  intros done [id lease] todo acc w1 acc' w2 _ Hacc. rewrite run_bind.
  destruct (shard_index_for_id id w1) as [[i|] w3]; [|done]. rewrite run_ret. intros [= <- _].
  rewrite fmap_app, Hacc. done.
Qed.

Lemma guarded_delivered_batch pairs : Keeps (guarded pairs) (delivered_batch pairs).
Proof.
  unfold delivered_batch.
  apply (keeps_bind_post _ (λ located, located.*2 = pairs));
    [intros; by eapply located_pairs|repeat guarded_step|].
  intros located Hloc. repeat guarded_step; [|apply (guarded_bumps pairs _ 0 0 0 0 0)].
  unfold deliver_shard. guarded_step; [guarded_step|]. apply guarded_shard_tx. guarded_step.
  unfold deliver_one. repeat guarded_step. eapply guarded_update_id; [|done].
  match goal with Hg : group _ _ _ = _, He : _ ∈ _ :: _ |- _ =>
    rewrite <-Hg in He; apply elem_of_group in He as [He _] end.
  subst pairs. apply list_elem_of_fmap. eexists (_, (_, _)).
  split; [done|]. by eapply list_elem_of_lookup_2.
Qed.

Lemma guarded_completes op pairs w :
  completes op = Some pairs → guarded pairs (st w) (st (exec op w)).
Proof.
  destruct op; intros [= <-]; cbn [exec].
  - revert w. change (Keeps (guarded [(id, lease)]) (release id lease)).
    unfold release. repeat guarded_step. by eapply guarded_update_id; [left|].
  - revert w. change (Keeps (guarded [(id, lease)]) (renew_claim id lease visibility)).
    unfold renew_claim. repeat guarded_step. eapply guarded_update_id; [by left|].
    by intros m [? _]%andb_prop.
  - apply guarded_delivered_batch.
  - revert w. change (Keeps (guarded [(id, lease)]) (failed id lease error max_attempts)).
    unfold failed. repeat guarded_step; [by eapply guarded_update_id; [left|]|]. apply (guarded_bumps _ _ 0 0 0 1 0).
  - revert w. change (Keeps (guarded [(id, lease)]) (drop_claimed id lease error)).
    unfold drop_claimed. repeat guarded_step; [by eapply guarded_update_id; [left|]|]. apply (guarded_bumps _ _ 0 0 0 0 1).
Qed.

Lemma update_id_hit id p f t m :
  t !! id = Some m → p m = true → update_id id p f t = (Some m, <[id := f m]> t).
Proof.
  intros Hm Hp. unfold update_id.
  by rewrite (proj2 (select_id_Some id p t m) (conj Hm Hp)).
Qed.

Lemma set_shard_written i t s :
  (i < length (shards s))%nat →
  shard i (set_shard i (λ _, t) s) = t ∧ ∀ j, j ≠ i → shard j (set_shard i (λ _, t) s) = shard j s.
Proof.
  intros Hi. split; [by rewrite shard_set_shard, decide_True|].
  intros j Hj. by rewrite shard_set_shard, decide_False.
Qed.

(** Recording a batch of statistics always succeeds and leaves the tables alone. *)
Lemma record_all_stats {A} (rows : list A) (f : A → M Error Db ()) w :
  (∀ a, ∃ topic d, f a = record_topic_stats topic d) →
  ∃ w', for_each rows f w = (Ok (), w') ∧ shards (st w') = shards (st w).
Proof.
  intros Hf. revert w. induction rows as [|a rows IH]; intros w; cbn [for_each]; [by exists w|].
  rewrite run_bind. destruct (Hf a) as (topic & d & ->).
  unfold record_topic_stats, record_message_trend. run.
  destruct (_ && _); run; edestruct IH as (w' & -> & Hw'); exists w'; (split; [done|]); by rewrite Hw'.
Qed.

(** Acknowledging a claimed message. *)
Lemma delivered_hit id lease i m w :
  calm → message_id_shard id = Some i → length (shards (st w)) = MESSAGE_SHARDS →
  shard i (st w) !! id = Some m → leased lease m = true →
  ∃ w', delivered id lease w = (Ok true, w') ∧
    shard i (st w') = <[id := to_delivered (to_rfc3339 (clock (tick w))) m]> (shard i (st w)) ∧
    ∀ j, j ≠ i → shard j (st w') = shard j (st w).
Proof.
  intros Hc Hid HL Hm Hl. pose proof (message_id_shard_bound _ _ Hid) as Hi.
  unfold delivered. rewrite run_bind. unfold delivered_batch. rewrite run_bind.
  cbn [fold_each]. unfold shard_index_for_id. rewrite Hid. run.
  unfold rfc_now. run.
  rewrite (fold_each_single _ i); [|apply NoDup_seq|apply elem_of_seq; lia|].
  2:{ intros j acc _ Hj. unfold deliver_shard, group. cbn. rewrite decide_False; [done|].
      intros [=]. done. }
  unfold deliver_shard, group. cbn [imap fmap list_fmap app]. 
  rewrite filter_cons_True by done. rewrite filter_nil.
  unfold shard_tx. erewrite transaction_total; [|by apply calm_from_calm| |].
  2:{ cbn [fold_each]. rewrite run_bind. unfold deliver_one, on_shard. run. rewrite Hc.
      rewrite (update_id_hit _ _ _ _ _ Hm Hl). run. done. }
  2:{ cbn [tick]. lia. }
  run. set (rows := any_order _ _). set (w1 := mkWorld _ _).
  edestruct (record_all_stats rows) as (w2 & -> & Hs2).
  { intros [topic d]. by eexists _, _. }
  run. exists w2. split; [done|]. unfold shard in *. rewrite Hs2.
  apply (set_shard_written i _ (st w)). by rewrite HL.
Qed.

(** Reporting the failure of a claimed message. *)
Lemma failed_hit id lease error max i m w next :
  calm → message_id_shard id = Some i → length (shards (st w)) = MESSAGE_SHARDS →
  shard i (st w) !! id = Some m → leased lease m = true → 0 <= m_attempts m →
  add_duration (clock (S (tick w))) (2 ^ Z.min (m_attempts m) 8 * 10 ^ 9) = Some next →
  let '(r, w') := failed id lease error max w in
  r = Ok true ∧
  shard i (st w') = <[id := set_status (if max <=? m_attempts m then Failed else Pending)
    (with_error (Some error) (with_next (to_rfc3339 next) m))]> (shard i (st w)) ∧
  ∀ j, j ≠ i → shard j (st w') = shard j (st w).
Proof.
  intros Hc Hid HL Hm Hl Ha Hadd. pose proof (message_id_shard_bound _ _ Hid) as Hi.
  rewrite <-HL in Hi. unfold failed, shard_index_for_id, ask_shard, add_time, on_shard. rewrite Hid.
  run. rewrite Hc. run. rewrite (proj2 (select_id_Some _ _ _ _) (conj Hm Hl)). run.
  assert (backoff (m_attempts m) = 2 ^ Z.min (m_attempts m) 8) as ->.
  { unfold backoff. rewrite (Z.mod_small (Z.min _ 8)) by lia.
    rewrite (proj2 (Z.ltb_lt _ _)) by lia. apply Z.min_l.
    etrans; [apply (Z.pow_le_mono_r 2 _ 8); lia|done]. }
  rewrite Hadd. run. rewrite Hc. rewrite (update_id_hit _ _ _ _ _ Hm Hl). run.
  destruct (max <=? m_attempts m); run; [|split; [done|]; by apply (set_shard_written i _ (st w))].
  rewrite decide_True by done. unfold bump_topic_stat, rfc_now, record_message_trend. run.
  rewrite Hc. run. cbn [Z.eqb andb]. run.
  split; [done|]. by apply (set_shard_written i _ (st w)).
Qed.

(** Publishing one message. *)
Lemma enqueue_single item w rs w' :
  length (shards (st w)) = MESSAGE_SHARDS → enqueue_batch [item] w = (Ok rs, w') →
  let i := topic_shard (in_topic item) in
  ∃ js now inserted t' id,
    insert_or_ignore (in_id item) (new_row item js now) (shard i (st w)) = (inserted, t') ∧
    shard i (st w') = t' ∧ (∀ j, j ≠ i → shard j (st w') = shard j (st w)) ∧
    rs = [(id, negb inserted)] ∧
    (if inserted then id = in_id item
     else ∃ key, in_key item = Some key ∧ id_of_key key t' = Some id).
Proof.
  intros HL. set (i := topic_shard (in_topic item)).
  assert (i < length (shards (st w)))%nat as Hi by (rewrite HL; apply topic_shard_bound).
  unfold enqueue_batch. rewrite run_bind.
  rewrite (fold_each_single _ i); [|apply NoDup_seq|apply elem_of_seq; rewrite HL in Hi; lia|].
  2:{ intros j acc _ Hj. unfold enqueue_shard, group. cbn. rewrite decide_False; [done|].
      intros [=]. done. }
  unfold enqueue_shard, group. cbn [imap fmap list_fmap app].
  rewrite filter_cons_True by done. rewrite filter_nil.
  destruct (shard_tx i _ w) as [[[res stats]|e] w1] eqn:Htx; [|done].
  apply transaction_Ok in Htx as (w2 & w3 & Hbody & Hw2 & Hw3).
  rewrite run_bind, run_unordered. cbv beta iota. rewrite run_bind.
  edestruct (record_all_stats (any_order (tick w1) (map_to_list stats))) as (w4 & -> & Hs4). { intros [topic [a d]]. by eexists _, _. }
  cbn [st] in Hs4. revert Hbody. cbn [fold_each]. rewrite run_bind.
  unfold enqueue_one, rfc_now, on_shard, ask_shard. run.
  destruct (attrs_to_json _) as [js|]; run; [|done]. destruct (fault _); run; [done|].
  rewrite Hw2. destruct (insert_or_ignore _ _ _) as [ins t'] eqn:Hins; run.
  destruct (set_shard_written i t' (st w) Hi) as [Hwi Hwj].
  assert (∀ s, shards s = shards (set_shard i (λ _, t') (st w)) →
    shard i s = t' ∧ ∀ j, j ≠ i → shard j s = shard j (st w)) as Hfinal.
  { intros s Hs. unfold shard in *. rewrite Hs. by split. }
  destruct ins; run.
  - intros [= <- <- <-]. run. intros [= <- <-].
    destruct (Hfinal (st w4)) as [? ?]; [by rewrite Hs4, <-Hw3|].
    by exists js, (to_rfc3339 (clock (tick w2))), true, t', (in_id item).
  - destruct (in_key item) as [key|]; run; [|done]. destruct (fault _); run; [done|].
    destruct (id_of_key key _) as [id|] eqn:Hid; run; [|done]. intros [= <- <- <-]. run.
    intros [= <- <-]. destruct (Hfinal (st w4)) as [? ?]; [by rewrite Hs4, <-Hw3|].
    rewrite Hwi in Hid. exists js, (to_rfc3339 (clock (tick w2))), false, t', id. split_and!; try done. by exists key.
Qed.

Lemma enqueue_post key topic payload attributes w id dup w' :
  length (shards (st w)) = MESSAGE_SHARDS → key ≠ "" →
  enqueue (Some key) topic payload attributes w = (Ok (id, dup), w') →
  let i := topic_shard topic in
  ∃ m t' new,
    insert_or_ignore new m (shard i (st w)) = (negb dup, t') ∧ m_key m = Some key ∧
    shard i (st w') = t' ∧ (∀ j, j ≠ i → shard j (st w') = shard j (st w)) ∧
    (if dup then id_of_key key t' = Some id else id = new).
Proof.
  intros HL Hkey. unfold enqueue, new_message_id. rewrite run_bind. run.
  unfold is_empty. rewrite bool_decide_eq_false_2 by done.
  match goal with |- context [enqueue_batch [?it] ?w0] => set (item := it); set (w1 := w0) end.
  destruct (enqueue_batch [item] w1) as [[rs|e] w2] eqn:E; [|done].
  apply enqueue_single in E as (js & now & ins & t' & id' & Hins & Hi & Hj & -> & Hid); [|done].
  cbn [last]. rewrite run_ret. intros [= <- <- <-]. rewrite negb_involutive.
  exists (new_row item js now), t', (in_id item). split_and!; try done.
  destruct ins; simpl; [done|]. by destruct Hid as (? & [= <-] & ?).
Qed.

(** * Properties *)

(** C2: A published batch is stored: when [enqueue_batch] returns, each item has
    a result in its place, and the message it names is in the shard of the item's
    topic: a new pending row with the item's identifier, topic, payload and
    attributes, or, for a duplicate, a row that already had its idempotency key;
    no row stored before is lost or changed. *)
Theorem enqueue_batch_stores items w rs w' :
  length (shards (st w)) = MESSAGE_SHARDS → enqueue_batch items w = (Ok rs, w') →
  length rs = length items ∧
  (∀ k item, items !! k = Some item → ∃ r, rs !! k = Some r ∧ stored (st w') item r) ∧
  (∀ i id m, shard i (st w) !! id = Some m → shard i (st w') !! id = Some m).
Proof.
  intros HL Hrun. pose proof (Keeps_run _ _ _ _ _ (grows_enqueue_batch items) Hrun) as [_ Hg].
  apply enqueue_batch_post in Hrun as [? ?]; done.
Qed.

(** Publishing succeeds: without storage faults, with attributes that
    serialize and identifiers that are distinct and unused, [enqueue_batch]
    returns a result for every item, also when idempotency keys repeat; neither
    its error paths nor its [expect] is reached. *)
Theorem enqueue_batch_succeeds items w :
  calm → Forall (λ item, is_Some (attrs_to_json (in_attributes item))) items →
  NoDup (in_id <$> items) → unused items (λ _, True) (st w) →
  ∃ rs w', enqueue_batch items w = (Ok rs, w').
Proof.
  intros Hc Hjs Hnd Hun.
  destruct (enqueue_batch_total items w) as (rs & w' & Hrun & _); eauto using calm_from_calm.
Qed.

(** C14: Publishing with an idempotency key is idempotent: a second publish with
    the same key on the same topic returns the first message's identifier, marks
    it a duplicate and stores nothing. *)
Theorem enqueue_idempotent key topic p1 p2 a1 a2 w id1 dup1 w1 id2 dup2 w2 :
  db_ok (st w) → key ≠ "" →
  enqueue (Some key) topic p1 a1 w = (Ok (id1, dup1), w1) →
  enqueue (Some key) topic p2 a2 w1 = (Ok (id2, dup2), w2) →
  id2 = id1 ∧ dup2 = true ∧ ∀ i, shard i (st w2) = shard i (st w1).
Proof.
  intros Hok Hkey Hrun1 Hrun2. set (i := topic_shard topic).
  pose proof (Keeps_run _ _ _ _ _ (keeps_enqueue _ _ _ _) Hrun1) as Hev.
  pose proof (evolves_ok _ _ Hev Hok) as Hok1.
  apply enqueue_post in Hrun1 as (m1 & t1 & new1 & Hins1 & Hk1 & Ht1 & _ & Hid1); [|apply Hok|done].
  apply enqueue_post in Hrun2 as (m2 & t2 & new2 & Hins2 & Hk2 & Ht2 & Hj2 & Hid2); [|apply Hok1|done].
  fold i in Ht1, Ht2, Hins1, Hins2, Hj2. rewrite Ht1 in Hins2.
  assert (∃ m, t1 !! id1 = Some m ∧ m_key m = Some key) as (m & Hm & Hmk).
  { unfold insert_or_ignore in Hins1. destruct dup1; [by apply id_of_key_Some|].
    simpl in Hins1. destruct (_ || _); [done|]. injection Hins1 as Hins1. exists m1.
    by rewrite <-Hins1, Hid1, lookup_insert_eq. }
  assert (key_taken (Some key) t1 = true) as Htk by (apply key_taken_true; eauto).
  unfold insert_or_ignore in Hins2. rewrite Hk2, Htk, orb_true_r in Hins2.
  destruct dup2; [|done]. injection Hins2 as Hins2. subst t2. split_and!; [|done|].
  - apply id_of_key_Some in Hid2 as (m' & Hm' & Hmk').
    destruct Hok1 as [_ Hok1]. destruct (Hok1 i) as [_ Huniq]. rewrite Ht1 in Huniq. eauto.
  - intros j. destruct (decide (j = i)) as [->|]; [congruence|by apply Hj2].
Qed.

(** C3: A batch claim takes the oldest ready messages: at most the requested
    number (clamped to 1..128), each ready, of the topic, now processing with
    one more attempt under a fresh lease, returned in order of creation; every
    other row is untouched, and a ready message is left behind only when the
    batch is full of messages that are not newer. *)
Theorem claim_takes_oldest topic visibility limit w ms w' :
  length (shards (st w)) = MESSAGE_SHARDS →
  claim_batch_for_topic topic visibility limit w = (Ok ms, w') →
  claimed topic (to_rfc3339 (clock (tick w))) (uuid (S (tick w))) limit ms
    (shard (topic_shard topic) (st w)) (shard (topic_shard topic) (st w')) ∧
  ∀ j, j ≠ topic_shard topic → shard j (st w') = shard j (st w).
Proof. intros HL Hrun. by apply claim_batch_post in Hrun as (? & ? & _). Qed.

(** C13: A wildcard subscription finds what there is: without storage faults,
    when some stored message of a matching topic is ready and stays so, a claim
    for the filter returns at least one message, whatever the cursor, the row
    orders and the other topics; and every message it returns matches. *)
Theorem claim_filter_complete filter visibility limit w i id m :
  is_wildcard_filter filter = true → claimable visibility (st w) → db_ok (st w) →
  0 <= cursor (st w) < 2 ^ 64 → (∀ j, Z.of_nat (size (shard j (st w))) < 2 ^ 60) →
  shard i (st w) !! id = Some m → filter_matches filter (m_topic m) = true →
  stays_ready (tick w) m →
  ∃ ms w', claim_batch_for_filter filter visibility limit w = (Ok ms, w') ∧ ms ≠ [] ∧
    ∀ x, x ∈ ms → filter_matches filter (cm_topic x) = true.
Proof.
  intros Hwild Hcl Hok Hcur Hsize Hm Hf Hr. unfold claim_batch_for_filter, next_cursor.
  rewrite Hwild. cbn [negb]. run. set (w1 := mkWorld _ _).
  destruct (claim_shards_spec filter visibility limit (cursor (st w)) (seq 0 MESSAGE_SHARDS) w1)
    as (ms & w' & -> & Hnil & Hmatch); [done..|].
  exists ms, w'. split_and!; [done| |done]. intros Hms.
  assert (i < MESSAGE_SHARDS)%nat as Hi.
  { destruct Hok as [HL Hok]. destruct (Hok i) as [Hrow _].
    destruct (Hrow id m Hm) as [<- _]. apply topic_shard_bound. }
  set (o := Z.to_nat ((Z.of_nat i - cursor (st w)) mod 16)).
  pose proof (Z.mod_pos_bound (Z.of_nat i - cursor (st w)) 16 ltac:(lia)) as Ho.
  apply (Hnil Hms o id m); [apply elem_of_seq; unfold o, MESSAGE_SHARDS; lia| |done|done].
  replace (Z.to_nat _) with i; [done|]. unfold o, MESSAGE_SHARDS in *. rewrite Z2Nat.id by lia.
  unfold wrap_u64. change (Z.of_nat 16) with 16.
  rewrite Z.mod_mod_divide by by exists (2 ^ 60).
  rewrite Z.add_mod_idemp_r by lia.
  replace (cursor (st w) + (Z.of_nat i - cursor (st w))) with (Z.of_nat i) by lia.
  rewrite Z.mod_small by lia. by rewrite Nat2Z.id.
Qed.

(** C11: A lease is the only key to a claim: an acknowledgement, release,
    renewal, failure report or drop with identifiers and leases under which no
    message is being processed leaves every message as it is, whatever the
    storage and the clock do. *)
Theorem stale_lease_powerless op pairs w :
  completes op = Some pairs → unleased pairs (st w) → same_tables (st w) (st (exec op w)).
Proof. intros Hop. by apply guarded_completes. Qed.

(** C12: An acknowledgement completes its claim exactly once: without storage
    faults, for a message being processed under the lease it returns true and
    marks the message delivered, changing nothing else, and a second
    acknowledgement with the same lease changes nothing. *)
Theorem ack_once id lease i m w :
  calm → db_ok (st w) → message_id_shard id = Some i →
  shard i (st w) !! id = Some m → leased lease m = true →
  ∃ w1, delivered id lease w = (Ok true, w1) ∧
    shard i (st w1) = <[id := to_delivered (to_rfc3339 (clock (tick w))) m]> (shard i (st w)) ∧
    (∀ j, j ≠ i → shard j (st w1) = shard j (st w)) ∧
    same_tables (st w1) (st (delivered id lease w1).2).
Proof.
  intros Hc [HL Hok] Hid Hm Hl.
  destruct (delivered_hit id lease i m w) as (w1 & Hrun & Hi & Hj); [done..|].
  exists w1. split_and!; try done.
  replace (st (delivered id lease w1).2) with (st (exec (ODelivered [(id, lease)]) w1)).
  - apply (guarded_completes _ [(id, lease)]); [done|].
    intros id' lease' j m' [= -> ->]%list_elem_of_singleton.
    destruct (decide (j = i)) as [->|Hne].
    + rewrite Hi, lookup_insert_eq. intros [= <-]. done.
    + rewrite Hj by done. intros Hm'. destruct (proj1 (Hok j) id m' Hm') as (_ & [?|?] & _); congruence.
  - cbn [exec]. unfold delivered. rewrite run_bind.
    destruct (delivered_batch [(id, lease)] w1) as [[rs|e] w2]; by run.
Qed.

(** C16: A failed delivery is retried with exponential backoff or given up: a
    report for a claimed message puts it back to pending, due after
    2^min(attempts, 8) seconds, or to failed when the attempts are used up, and
    records the error; nothing else in the queue changes. *)
Theorem failed_backs_off id lease error max i m w next :
  calm → message_id_shard id = Some i → length (shards (st w)) = MESSAGE_SHARDS →
  shard i (st w) !! id = Some m → leased lease m = true → 0 <= m_attempts m →
  add_duration (clock (S (tick w))) (2 ^ Z.min (m_attempts m) 8 * 10 ^ 9) = Some next →
  let '(r, w') := failed id lease error max w in
  r = Ok true ∧
  shard i (st w') = <[id := set_status (if max <=? m_attempts m then Failed else Pending)
    (with_error (Some error) (with_next (to_rfc3339 next) m))]> (shard i (st w)) ∧
  ∀ j, j ≠ i → shard j (st w') = shard j (st w).
Proof. apply failed_hit. Qed.

End spec.

(** * The properties in the demonstration environment *)

Abbreviation demo_run m := (m demo_oracle demo_chrono demo_serde) (only parsing).

Lemma demo_calm : calm (H := demo_oracle).
Proof. by intros n. Qed.

Definition demo_item (id : string) (key : option string) : EnqueueInput :=
  {| in_id := id; in_key := key; in_topic := "a/b"; in_payload := [1; 2]; in_attributes := ∅ |}.

Definition demo_items : list EnqueueInput :=
  [demo_item "s01-x" (Some "k"); demo_item "s01-y" (Some "k"); demo_item "s01-z" None].

Definition demo0 : World Db := mkWorld empty_db 0.

(** The world after publishing the items, and after claiming them. *)
Definition demo1 : World Db := ((demo_run (@enqueue_batch)) demo_items demo0).2.
Definition demo2 : World Db :=
  ((demo_run (@claim_batch_for_topic)) "a/b" (30 * 10 ^ 9) 10 demo1).2.

Lemma enqueue_batch_stores_witness :
  length [("s01-x", false); ("s01-x", true); ("s01-z", false)] = length demo_items ∧
  (∀ k item, demo_items !! k = Some item →
     ∃ r, [("s01-x", false); ("s01-x", true); ("s01-z", false)] !! k = Some r ∧
          stored (H1 := demo_serde) (st demo1) item r) ∧
  (∀ i id m, shard i (st demo0) !! id = Some m → shard i (st demo1) !! id = Some m).
Proof.
  apply (enqueue_batch_stores (H := demo_oracle) (H0 := demo_chrono) (H1 := demo_serde)
           demo_items demo0 _ demo1 eq_refl).
  by vm_compute.
Defined.

Lemma enqueue_batch_succeeds_witness :
  ∃ rs w', (demo_run (@enqueue_batch)) demo_items demo0 = (Ok rs, w').
Proof.
  apply (enqueue_batch_succeeds (H := demo_oracle) (H0 := demo_chrono) (H1 := demo_serde)
           demo_items demo0 demo_calm).
  - by repeat constructor.
  - by apply (bool_decide_unpack _); vm_compute.
  - split; [done|]. intros k item Hk _. do 3 (destruct k as [|k]; [injection Hk as <-; by vm_compute|]). done.
Defined.

Lemma enqueue_idempotent_witness :
  "s01-0" = "s01-0" ∧ true = true ∧
  let w1 := ((demo_run (@enqueue)) (Some "k") "a/b" [1] ∅ demo0).2 in
  let w2 := ((demo_run (@enqueue)) (Some "k") "a/b" [2] ∅ w1).2 in
  ∀ i, shard i (st w2) = shard i (st w1).
Proof.
  apply (enqueue_idempotent (H := demo_oracle) (H0 := demo_chrono) (H1 := demo_serde)
           "k" "a/b" [1] [2] ∅ ∅ demo0 "s01-0" false _ "s01-0" true);
    [apply empty_db_ok|done|by vm_compute|by vm_compute].
Defined.

Lemma claim_takes_oldest_witness :
  ∃ ms, claimed (H1 := demo_serde) "a/b" (to_rfc3339 (Chrono := demo_chrono)
          (clock (Oracle := demo_oracle) (tick demo1))) (uuid (Oracle := demo_oracle) (S (tick demo1)))
          10 ms (shard 1 (st demo1)) (shard 1 (st demo2)) ∧ length ms = 2%nat.
Proof.
  eexists. split.
  - apply (claim_takes_oldest (H := demo_oracle) (H0 := demo_chrono) (H1 := demo_serde)
             (H2 := demo_order) "a/b" (30 * 10 ^ 9) 10 demo1 _ demo2); by vm_compute.
  - by vm_compute.
Defined.

Lemma demo1_ok : db_ok (st demo1).
Proof.
  apply (evolves_ok empty_db); [|apply empty_db_ok].
  apply (keeps_enqueue_batch (H := demo_oracle) (H0 := demo_chrono) (H1 := demo_serde)
           demo_items ltac:(by repeat constructor) demo0).
Qed.

Lemma demo2_ok : db_ok (st demo2).
Proof.
  apply (evolves_ok (st demo1)); [|apply demo1_ok].
  apply (keeps_claim_batch_for_topic (H := demo_oracle) (H0 := demo_chrono) (H1 := demo_serde)).
Qed.

Lemma claim_filter_complete_witness :
  ∃ ms w', claim_batch_for_filter (H := still_oracle) (H0 := demo_chrono) (H1 := demo_serde)
             "a/#" (30 * 10 ^ 9) 10 (mkWorld (st demo1) 0) = (Ok ms, w') ∧ ms ≠ [] ∧
    ∀ x, x ∈ ms → filter_matches "a/#" (cm_topic x) = true.
Proof.
  apply (claim_filter_complete (H := still_oracle) (H0 := demo_chrono) (H1 := demo_serde)
    (H2 := still_order) "a/#" (30 * 10 ^ 9) 10 (mkWorld (st demo1) 0) 1 "s01-x"
    (default demo_message (shard 1 (st demo1) !! "s01-x"))).
  - by vm_compute.
  - split_and!; [by intros n|by vm_compute|by intros i id m _; eexists|].
    exists (30 * 10 ^ 9). split; [done|]. intros n. vm_compute. by eexists.
  - exact demo1_ok.
  - by vm_compute.
  - intros j. do 16 (destruct j as [|j]; [by vm_compute|]). by vm_compute.
  - by vm_compute.
  - by vm_compute.
  - intros k _. by vm_compute.
Defined.

Lemma stale_lease_powerless_witness :
  same_tables (st demo2) (st ((demo_run (@exec)) (ODelivered [("s01-x", "no lease")]) demo2)).
Proof.
  apply (stale_lease_powerless (H := demo_oracle) (H0 := demo_chrono) (H1 := demo_serde)
           (ODelivered [("s01-x", "no lease")]) [("s01-x", "no lease")] demo2 eq_refl).
  intros id lease i m [= -> ->]%list_elem_of_singleton Hm.
  revert m Hm. do 16 (destruct i as [|i]; [vm_compute; by intros m [= <-]|]). by vm_compute.
Defined.

Definition demo_claimed : Message :=
  default demo_message (shard 1 (st demo2) !! "s01-x").
Definition demo_lease : string := default "" (m_lease demo_claimed).

Lemma ack_once_witness :
  ∃ w1, delivered (H := demo_oracle) (H0 := demo_chrono) "s01-x" demo_lease demo2 = (Ok true, w1) ∧
    shard 1 (st w1) = <["s01-x" := to_delivered (to_rfc3339 (Chrono := demo_chrono)
      (clock (Oracle := demo_oracle) (tick demo2))) demo_claimed]> (shard 1 (st demo2)) ∧
    (∀ j, j ≠ 1%nat → shard j (st w1) = shard j (st demo2)) ∧
    same_tables (st w1) (st (delivered (H := demo_oracle) (H0 := demo_chrono) "s01-x" demo_lease w1).2).
Proof.
  apply (ack_once (H := demo_oracle) (H0 := demo_chrono) (H1 := demo_serde));
    [apply demo_calm|apply demo2_ok|by vm_compute..].
Defined.

Lemma failed_backs_off_witness :
  (failed (H := demo_oracle) (H0 := demo_chrono) "s01-x" demo_lease "boom" 10 demo2).1 = Ok true.
Proof.
  pose proof (failed_backs_off (H := demo_oracle) (H0 := demo_chrono)
    "s01-x" demo_lease "boom" 10 1 demo_claimed demo2
    (clock (Oracle := demo_oracle) (S (tick demo2)) + 2 * 10 ^ 9) demo_calm
    ltac:(by vm_compute) ltac:(by vm_compute) ltac:(by vm_compute) ltac:(by vm_compute)
    ltac:(by vm_compute) ltac:(by vm_compute)) as Hf.
  revert Hf. destruct (failed _ _ _ _ demo2) as [r w']. by intros (-> & _).
Defined.

End DbSpec.
