(* ===== verification/DbAdmin.v ===== *)
(** Maintenance of the queue database: recovery of expired claims, purging,
    and conservation of the statistics across flushes (src/src/db.rs). *)

From S2P Require Import Prelude RustStr Topic Model Effects Store Db DbInv DbSpec.
Import Topic Model Store Db DbInv DbSpec.

Module DbAdmin.

Section admin.
Context `{Oracle, Chrono, Serde}.

(** * Statements on every shard *)

Definition shard_sum (g : Table → Z) (is_ : list nat) (s : Db) : Z :=
  foldr (λ i acc, g (shard i s) + acc) 0 is_.

Lemma shard_sum_app g l k s : shard_sum g (l ++ k) s = shard_sum g l s + shard_sum g k s.
Proof. unfold shard_sum. induction l as [|i l IH]; simpl; lia. Qed.

Lemma shard_beyond i s : length (shards s) = MESSAGE_SHARDS → (MESSAGE_SHARDS <= i)%nat → shard i s = ∅.
Proof.
  intros HL Hi. unfold shard. rewrite list_lookup_total_alt, lookup_ge_None_2 by lia. done.
Qed.

(** Without faults, a statement on every shard changes each table once and
    returns the total. *)
Lemma every_shard_run (f : Table → Z * Table) w :
  calm → length (shards (st w)) = MESSAGE_SHARDS →
  ∃ w', every_shard f w =
      (Ok (shard_sum (λ t, (f t).1) (seq 0 MESSAGE_SHARDS) (st w)), w') ∧
    length (shards (st w')) = MESSAGE_SHARDS ∧
    ∀ i, (i < MESSAGE_SHARDS)%nat → shard i (st w') = (f (shard i (st w))).2.
Proof.
  intros Hc HL. unfold every_shard.
  destruct (fold_each_total (E:=Error) (λ done acc w1, let s := st w1 in
    length (shards s) = MESSAGE_SHARDS ∧ acc = shard_sum (λ t, (f t).1) done (st w) ∧
    ∀ i, shard i s = if decide (i ∈ done) then (f (shard i (st w))).2 else shard i (st w))
    (seq 0 MESSAGE_SHARDS) (λ affected i, n ← on_shard i f; mret (affected + n)))
    with (acc := 0) (w := w) as (acc & w' & -> & HL' & -> & Hs).
  - intros done i todo acc w1 Hsplit (HL1 & -> & Hs1).
    assert (i < MESSAGE_SHARDS)%nat as Hi.
    { assert (i ∈ seq 0 MESSAGE_SHARDS) as Hin by (rewrite Hsplit; set_solver).
      apply elem_of_seq in Hin. lia. }
    assert (i ∉ done) as Hnew.
    { pose proof (NoDup_seq 0 MESSAGE_SHARDS) as Hnd. rewrite Hsplit in Hnd.
      apply NoDup_app in Hnd as (_ & Hd & _). intros Hin. apply (Hd i Hin). left. }
    pose proof (Hs1 i) as Hsi. rewrite decide_False in Hsi by done.
    unfold on_shard. rewrite run_bind. run. rewrite Hc. run.
    destruct (f (shard i (st w1))) as [n t] eqn:Hf. rewrite Hsi in Hf. run.
    do 2 eexists. split; [done|]. split_and!.
    + simpl. by rewrite length_alter.
    + rewrite shard_sum_app. cbn [shard_sum foldr]. rewrite Hf. simpl. lia.
    + intros j. cbn [st]. rewrite shard_set_shard by (by rewrite HL1).
      case_decide as Hij; [subst j|].
      * rewrite decide_True by set_solver. by rewrite Hf.
      * rewrite Hs1. repeat case_decide; set_solver.
  - split_and!; [done..|]. intros i. by rewrite decide_False by apply not_elem_of_nil.
  - exists w'. split_and!; [done..|]. intros i Hi. rewrite Hs, decide_True; [done|].
    apply elem_of_seq. lia.
Qed.

(** * Recovery *)

(** Whether a claim has outlived its visibility at time [now]. *)
Definition expired_claim (now : string) (m : Message) : bool :=
  is_status Processing m && str_leb (m_next m) now.

(** Recovery of stale claims: without storage faults [reclaim_stale] makes
    exactly the claimed messages whose visibility ended pending again, drops
    their leases, touches no other message, and returns how many there were. *)
Lemma reclaim_exact w :
  calm → length (shards (st w)) = MESSAGE_SHARDS →
  let now := to_rfc3339 (clock (tick w)) in
  let p (_ : string) m := expired_claim now m in
  ∃ w', reclaim_stale w = (Ok (shard_sum (count_where p) (seq 0 MESSAGE_SHARDS) (st w)), w') ∧
    ∀ i id, shard i (st w') !! id =
      (λ m, if expired_claim now m then to_pending m else m) <$> shard i (st w) !! id.
Proof.
  intros Hc HL. cbv zeta. unfold reclaim_stale, rfc_now. run.
  set (w1 := mkWorld (st w) (S (tick w))).
  destruct (every_shard_run (λ t, (count_where (λ (_ : string) m,
      is_status Processing m && str_leb (m_next m) (to_rfc3339 (clock (tick w)))) t,
      update_where (λ _ m, is_status Processing m && str_leb (m_next m) (to_rfc3339 (clock (tick w))))
        to_pending t)) w1 Hc HL) as (w' & -> & HL' & Hs).
  exists w'. split; [done|]. intros i id.
  destruct (decide (i < MESSAGE_SHARDS)%nat) as [Hi|Hi].
  - rewrite Hs by done. simpl. by rewrite lookup_update_where.
  - rewrite !shard_beyond by (done || lia). by rewrite lookup_empty.
Qed.

(** C15: The visibility timeout: a message claimed at time [t] for a duration [d]
    and reclaimed at time [t'] is pending again exactly when [t + d <= t'];
    otherwise its lease still stands. *)
Theorem visibility_timeout `{!ChronoLaws} lease m t d w w' r i id :
  calm → length (shards (st w)) = MESSAGE_SHARDS →
  time_ok (t + d) → time_ok (clock (tick w)) →
  shard i (st w) !! id = Some (to_processing lease (to_rfc3339 (t + d)) m) →
  reclaim_stale w = (r, w') →
  shard i (st w') !! id =
    Some (if t + d <=? clock (tick w)
          then to_pending (to_processing lease (to_rfc3339 (t + d)) m)
          else to_processing lease (to_rfc3339 (t + d)) m).
Proof.
  intros Hc HL Ht Hn Hm Hrun. destruct (reclaim_exact w Hc HL) as (w2 & Hrun' & Hs).
  rewrite Hrun in Hrun'. injection Hrun' as -> ->. rewrite Hs, Hm. simpl.
  unfold expired_claim. cbn [is_status to_processing m_status m_next].
  rewrite rfc3339_order by done. done.
Qed.

(** * Statistics across a flush *)

(** What the broker has counted for a topic: the stored row and what is still in
    memory. *)
Definition stored_counts (s : Db) (topic : string) : TopicStatsDelta :=
  if topic_stats s !! topic is Some r
  then {| d_accepted := t_accepted r; d_duplicates := t_duplicates r; d_delivered := t_delivered r |}
  else zero_delta.

Definition counted (s : Db) (topic : string) : TopicStatsDelta :=
  add_delta (stored_counts s topic) (default zero_delta (stats_delta s !! topic)).

Lemma add_delta_assoc a b c : add_delta (add_delta a b) c = add_delta a (add_delta b c).
Proof. unfold add_delta. simpl. f_equal; lia. Qed.
Lemma add_delta_comm a b : add_delta a b = add_delta b a.
Proof. unfold add_delta. f_equal; lia. Qed.
Lemma add_delta_zero_l a : add_delta zero_delta a = a.
Proof. unfold add_delta. by destruct a. Qed.
Lemma add_delta_zero_r a : add_delta a zero_delta = a.
Proof. by rewrite add_delta_comm, add_delta_zero_l. Qed.

Lemma bump_sql_counts topic a du d f dr now s topic' :
  stored_counts (bump_sql topic a du d f dr now s) topic' =
  if decide (topic = topic')
  then add_delta (stored_counts s topic') {| d_accepted := a; d_duplicates := du; d_delivered := d |}
  else stored_counts s topic'.
Proof.
  unfold stored_counts, bump_sql, upsert_stat. cbn [topic_stats set_topic_stats].
  case_decide as Ht; [subst topic'|].
  - rewrite lookup_partial_alter_eq. by destruct (topic_stats s !! topic).
  - by rewrite lookup_partial_alter_ne.
Qed.

(** The sum of the rows of a topic. *)
Definition rows_sum (rows : list (string * TopicStatsDelta)) (topic : string) : TopicStatsDelta :=
  foldr (λ '(t, d) acc, if decide (t = topic) then add_delta d acc else acc) zero_delta rows.

Lemma rows_sum_fresh rows topic : topic ∉ rows.*1 → rows_sum rows topic = zero_delta.
Proof.
  induction rows as [|[t d] rows IH]; [done|]. rewrite fmap_cons. intros Hn. simpl.
  rewrite decide_False by set_solver. apply IH. set_solver.
Qed.

Lemma rows_sum_map rows topic :
  NoDup rows.*1 → rows_sum rows topic = default zero_delta (list_to_map (M := gmap string _) rows !! topic).
Proof.
  induction rows as [|[t d] rows IH]; intros Hnd; [done|]. rewrite fmap_cons in Hnd.
  apply NoDup_cons in Hnd as [Hn Hnd]. simpl. case_decide as Ht.
  - subst topic. rewrite lookup_insert_eq, rows_sum_fresh by done. apply add_delta_zero_r.
  - rewrite lookup_insert_ne by done. by apply IH.
Qed.

(** The body of the flush's transaction. *)
Definition flush_rows (rows : list (string * TopicStatsDelta)) (now : string) : M Error Db () :=
  for_each rows (λ '(topic, d), stmt (λ s, ((),
    bump_sql topic (d_accepted d) (d_duplicates d) (d_delivered d) 0 0 now s))).

Lemma flush_rows_counts rows now w w' :
  flush_rows rows now w = (Ok (), w') →
  stats_delta (st w') = stats_delta (st w) ∧
  ∀ topic, stored_counts (st w') topic = add_delta (stored_counts (st w) topic) (rows_sum rows topic).
Proof.
  unfold flush_rows. revert w. induction rows as [|[t d] rows IH]; intros w; cbn [for_each].
  { rewrite run_ret. intros [= <-]. split; [done|]. intros topic. by rewrite add_delta_zero_r. }
  rewrite run_bind, run_stmt. destruct (fault (tick w)); [done|].
  intros [Hd Hc]%IH. cbn [st] in *. split; [done|]. intros topic.
  rewrite Hc, bump_sql_counts. simpl. case_decide; [|done].
  rewrite add_delta_assoc. by destruct d.
Qed.

(** A rolled-back control transaction restores the statistics. *)
Lemma control_tx_cases {A} (body : M Error Db A) w :
  let '(r, w') := control_tx body w in
  (∃ w1 w2 a, r = Ok a ∧ body w1 = (Ok a, w2) ∧ st w1 = st w ∧ st w' = st w2) ∨
  (∃ e w1, r = Err e ∧ topic_stats (st w') = topic_stats (st w) ∧
     (st w' = st w ∨ stats_delta (st w') = stats_delta (st (body w1).2) ∧ st w1 = st w)).
Proof.
  unfold control_tx, transaction. rewrite run_query. destruct (fault (tick w)).
  { right. exists (Failure s), w. split_and!; auto. }
  set (w1 := mkWorld (st w) (S (tick w))).
  destruct (body w1) as [[a|e] w2] eqn:Hb.
  - rewrite run_query. destruct (fault (tick w2)).
    + right. exists (Failure s), w1. rewrite Hb. split_and!; auto.
    + left. exists w1, w2, a. by split_and!.
  - right. exists e, w1. rewrite Hb. split_and!; auto.
Qed.

Lemma flush_rows_delta rows now : Keeps (λ s s', stats_delta s' = stats_delta s) (flush_rows rows now).
Proof.
  assert (PreOrder (λ s s' : Db, stats_delta s' = stats_delta s)) by (split; congruence).
  unfold flush_rows. repeat keeps_step. done.
Qed.

Context `{!OrderLaws}.

Lemma flush_counts w :
  let '(r, w') := flush_topic_stats w in
  (∀ topic, counted (st w') topic = counted (st w) topic) ∧
  (∀ n, r = Ok n → stats_delta (st w') = ∅).
Proof.
  unfold flush_topic_stats. run. case_decide as Hp.
  { run. split; [|done]. intros topic. unfold counted, stored_counts. simpl. by rewrite Hp. }
  set (pending := stats_delta (st w)) in *.
  set (w1 := mkWorld (set_stats_delta (λ _, ∅) (st w)) (tick w)).
  rewrite run_bind, run_attempt.
  match goal with |- context [control_tx ?b w1] => pose proof (control_tx_cases b w1) as Hcases;
    set (body := b) in * end.
  assert (∀ w0, ∃ w' rows now, rows ≡ₚ map_to_list pending ∧ st w' = st w0 ∧
    body w0 = flush_rows rows now w') as Hbody.
  { intros w0. unfold body, rfc_now. run.
    exists (mkWorld (st w0) (S (S (tick w0)))), (any_order (S (tick w0)) (map_to_list pending)),
      (to_rfc3339 (clock (tick w0))).
    split_and!; [apply any_order_perm|done|done]. }
  assert (NoPanic (control_tx body)) as Hnp.
  { apply no_panic_transaction. intros w0 message. destruct (Hbody w0) as (w' & rows & now & _ & _ & ->).
    apply no_panic_for_each. intros [t d]. apply no_panic_stmt_at. }
  specialize (Hnp w1). clearbody body. destruct (control_tx body w1) as [r w2].
  destruct Hcases as [(w3 & w4 & a & -> & Hrun & Hw3 & Hw4)|(e & w3 & -> & Hts & Hrest)];
    [|destruct e as [e|e]; [|by destruct (Hnp e)]]; run.
  - destruct (Hbody w3) as (w5 & rows & now & Hperm & Hw5 & Hb). rewrite Hb in Hrun. destruct a.
    apply flush_rows_counts in Hrun as [Hd Hc]. rewrite Hw5, Hw3 in Hd, Hc.
    split; [|intros _ _; by rewrite Hw4, Hd]. intros topic. unfold counted.
    rewrite Hw4, Hd, Hc. cbn [st w1 stats_delta set_stats_delta]. rewrite lookup_empty.
    rewrite add_delta_zero_r. f_equal. rewrite rows_sum_map.
    + rewrite (list_to_map_proper rows (map_to_list pending)), list_to_map_to_list; [done|..|done].
      rewrite Hperm. apply NoDup_fst_map_to_list.
    + rewrite Hperm. apply NoDup_fst_map_to_list.
  - assert (stats_delta (st w2) = ∅) as Hd.
    { destruct Hrest as [->|[-> Hw3]]; [done|].
      destruct (Hbody w3) as (w5 & rows & now & _ & Hw5 & ->).
      pose proof (flush_rows_delta rows now w5) as Hk. simpl in Hk. by rewrite Hk, Hw5, Hw3. }
    split; [|done]. intros topic. unfold counted, stored_counts. cbn [topic_stats stats_delta set_stats_delta].
    rewrite Hts, Hd. fold pending. f_equal. rewrite lookup_union_with, lookup_empty.
    by destruct (pending !! topic).
Qed.

(** Without faults a flush succeeds. *)
Lemma flush_total w : calm → ∃ n w', flush_topic_stats w = (Ok n, w').
Proof.
  intros Hc. unfold flush_topic_stats. run. case_decide; [run; eauto|].
  rewrite run_bind, run_attempt. match goal with |- context [control_tx ?b _] => set (body := b) end.
  set (w1 := mkWorld _ (tick w)).
  assert (∀ w0, ∃ w', body w0 = (Ok (), w')) as Hb.
  { intros w0. unfold body, rfc_now. run. apply for_each_total. intros [t d] w2. run. rewrite Hc. run. eauto. }
  destruct (Hb (mkWorld (st w1) (S (tick w1)))) as [w2 Hb2].
  assert (Ticks body) as Ht by (unfold body, rfc_now; ticks_go).
  specialize (Ht (mkWorld (st w1) (S (tick w1)))). rewrite Hb2 in Ht. simpl in Ht.
  unfold control_tx. erewrite transaction_total; [|by apply calm_from_calm|done|simpl; lia]. run. eauto.
Qed.

(** A flush touches neither messages nor consumers nor configurations. *)
Definition stats_only (s s' : Db) : Prop :=
  shards s' = shards s ∧ consumers s' = consumers s ∧ topic_cache s' = topic_cache s.

#[local] Instance stats_only_preorder : PreOrder stats_only.
Proof. split; [by intros s|]. unfold stats_only. intros s1 s2 s3. intuition congruence. Qed.

Lemma flush_stats_only : Keeps stats_only flush_topic_stats.
Proof.
  unfold flush_topic_stats. repeat first [keeps_step | done].
  apply keeps_transaction; [apply _|by intros s s' (?&?&?)|]. repeat first [keeps_step | done].
Qed.

(** C26: Flushing the statistics loses and duplicates nothing: whether
    [flush_topic_stats] commits or fails at any statement, for every topic the
    stored counters plus the counters still in memory are what they were; when
    it succeeds nothing is left in memory. *)
Theorem flush_conserves w :
  let '(r, w') := flush_topic_stats w in
  (∀ topic, counted (st w') topic = counted (st w) topic) ∧
  (∀ n, r = Ok n → stats_delta (st w') = ∅).
Proof. apply flush_counts. Qed.

End admin.

(** When the message of [demo2] was claimed, and the message before. *)
Definition demo_claim_time : Z := clock (Oracle := demo_oracle) (tick demo1).
Definition demo_unclaimed : Message := default demo_message (shard 1 (st demo1) !! "s01-x").

Lemma demo_claimed_row :
  shard 1 (st demo2) !! "s01-x" = Some (to_processing demo_lease
    (to_rfc3339 (Chrono := demo_chrono) (demo_claim_time + 30 * 10 ^ 9)) demo_unclaimed).
Proof. by vm_compute. Qed.

Lemma visibility_timeout_witness :
  let t := demo_claim_time + 30 * 10 ^ 9 in
  let m := to_processing demo_lease (to_rfc3339 (Chrono := demo_chrono) t) demo_unclaimed in
  let '(r, w) := reclaim_stale (H := demo_oracle) (H0 := demo_chrono) (mkWorld (st demo2) 100) in
  shard 1 (st w) !! "s01-x" = Some (if t <=? clock (Oracle := demo_oracle) 100 then to_pending m else m).
Proof.
  assert (length (shards (st demo2)) = MESSAGE_SHARDS) as HL by by vm_compute.
  assert (time_ok (demo_claim_time + 30 * 10 ^ 9)) as Ht by (apply (bool_decide_unpack _); by vm_compute).
  assert (time_ok (clock (Oracle := demo_oracle) 100)) as Hn by (apply (bool_decide_unpack _); by vm_compute).
  cbv zeta. destruct (reclaim_stale _) as [r w] eqn:Hrun.
  exact (visibility_timeout (H := demo_oracle) (H0 := demo_chrono) (H2 := demo_chrono_laws)
    demo_lease demo_unclaimed demo_claim_time (30 * 10 ^ 9) (mkWorld (st demo2) 100) w r
    1 "s01-x" demo_calm HL Ht Hn demo_claimed_row Hrun).
Defined.

Lemma flush_conserves_witness :
  let '(r, w') := flush_topic_stats (H := demo_oracle) (H0 := demo_chrono) demo2 in
  (∀ topic, counted (st w') topic = counted (st demo2) topic) ∧
  (∀ n, r = Ok n → stats_delta (st w') = ∅).
Proof.
  apply (flush_conserves (H := demo_oracle) (H0 := demo_chrono) (H2 := demo_order)).
Defined.

End DbAdmin.
