(* ===== verification/DbConfig.v ===== *)
(** The topic-configuration cache of [Database]: coherent with the stored rows
    after every sequence of operations that do not overlap, and the schedule of
    two overlapping operations that leaves it stale (src/src/db.rs,
    [topic_config]). *)

From S2P Require Import Prelude RustStr Topic Model Effects Store Db DbInv DbSpec.
Import Topic Model Store Db DbInv DbSpec.

Module DbConfig.

(** The configuration the catalog holds for a topic. *)
Definition stored_config (s : Db) (topic : string) : TopicConfig :=
  if topic_stats s !! topic is Some r then config_of topic r else implicit topic.

(** Every cached configuration is the stored one. *)
Definition coherent (s : Db) : Prop :=
  ∀ topic c, topic_cache s !! topic = Some c → c = stored_config s topic.

(** Neither the cache nor any stored configuration changes. *)
Definition config_same (s s' : Db) : Prop :=
  topic_cache s' = topic_cache s ∧ ∀ topic, stored_config s' topic = stored_config s topic.

#[export] Instance config_same_preorder : PreOrder config_same.
Proof.
  split; [by intros s|]. intros s1 s2 s3 [C12 H12] [C23 H23].
  split; [congruence|]. intros topic. by rewrite H23.
Qed.

Lemma config_same_coherent s s' : config_same s s' → coherent s → coherent s'.
Proof. intros [Hc Hs] Hok topic c. rewrite Hc, Hs. apply Hok. Qed.

Lemma config_same_fields s s' :
  topic_cache s' = topic_cache s → topic_stats s' = topic_stats s → config_same s s'.
Proof. intros Hc Ht. split; [done|]. intros topic. unfold stored_config. by rewrite Ht. Qed.

Lemma config_same_bump topic a du d f dr now s : config_same s (bump_sql topic a du d f dr now s).
Proof.
  split; [done|]. intros t. unfold stored_config, bump_sql, upsert_stat.
  cbn [topic_stats set_topic_stats]. destruct (decide (topic = t)) as [->|].
  - rewrite lookup_partial_alter_eq. by destruct (topic_stats s !! t).
  - by rewrite lookup_partial_alter_ne.
Qed.

Section config.
Context `{Oracle, Chrono, Serde}.

Lemma config_on_shard {A} i (f : Table → A * Table) : Keeps config_same (on_shard i f).
Proof.
  apply keeps_stmt; [apply _|]. intros s. destruct (f (shard i s)). by apply config_same_fields.
Qed.

Lemma config_on_shard_at {A} i (f : nat → Table → A * Table) : Keeps config_same (on_shard_at i f).
Proof.
  apply keeps_stmt_at; [apply _|]. intros n s. destruct (f n (shard i s)).
  by apply config_same_fields.
Qed.

Lemma config_shard_tx {A} i (body : M Error Db A) :
  Keeps config_same body → Keeps config_same (shard_tx i body).
Proof. apply keeps_transaction; [apply _|]. by intros s s'. Qed.

Lemma config_control_tx {A} (body : M Error Db A) :
  Keeps config_same body → Keeps config_same (control_tx body).
Proof.
  apply keeps_transaction; [apply _|]. intros s s' [Hc _]. by apply config_same_fields.
Qed.

Ltac config_step :=
  first
    [ keeps_step
    | apply keeps_rfc_now; apply _
    | apply keeps_add_time; apply _
    | apply keeps_ask_shard; apply _
    | apply keeps_ask_shard_at; apply _
    | apply keeps_shard_index_for_id; apply _
    | apply config_shard_tx
    | apply config_control_tx
    | apply config_on_shard
    | apply config_on_shard_at
    | apply config_same_bump
    | lazymatch goal with |- config_same _ _ => by apply config_same_fields end ].

Ltac config_go := repeat config_step.

Lemma config_bump_topic_stat topic a du d f : Keeps config_same (bump_topic_stat topic a du d f).
Proof. unfold bump_topic_stat, record_message_trend. config_go. Qed.

Lemma config_bump_dropped topic n : Keeps config_same (bump_dropped topic n).
Proof. unfold bump_dropped. config_go. Qed.

Lemma config_record_topic_stats topic d : Keeps config_same (record_topic_stats topic d).
Proof. unfold record_topic_stats, record_message_trend. config_go. Qed.

Lemma config_flush_topic_stats : Keeps config_same flush_topic_stats.
Proof. unfold flush_topic_stats. config_go. Qed.

Lemma config_flush_message_trends : Keeps config_same flush_message_trends.
Proof. unfold flush_message_trends. config_go. Qed.

Lemma config_enqueue_batch items : Keeps config_same (enqueue_batch items).
Proof.
  unfold enqueue_batch, enqueue_shard, enqueue_one.
  config_go; apply config_record_topic_stats.
Qed.

Lemma config_claim_topic topic v l : Keeps config_same (claim_batch_for_topic topic v l).
Proof. unfold claim_batch_for_topic. config_go. Qed.

Lemma config_claim_topics f v l topics : Keeps config_same (claim_topics f v l topics).
Proof. induction topics; simpl; config_go; apply config_claim_topic || done. Qed.

Lemma config_claim_shards f v l start os : Keeps config_same (claim_shards f v l start os).
Proof. induction os; simpl; config_go; apply config_claim_topics || done. Qed.

Lemma config_claim_excluding v skip start os : Keeps config_same (claim_excluding v skip start os).
Proof. induction os; simpl; unfold finish_claim; config_go; done. Qed.

(** The operations that do not concern the configuration. *)
Definition config_neutral (op : Op) : bool :=
  match op with
  | OTopicConfig _ | ONoteSubscribed _ | OConfigure _ | OPurgeIdle _ _ => false
  | _ => true
  end.

Lemma config_every_shard (f : Table → Z * Table) : Keeps config_same (every_shard f).
Proof. unfold every_shard. config_go. Qed.

Lemma config_exec op w : config_neutral op = true → config_same (st w) (st (exec op w)).
Proof.
  intros Hop. revert w.
  destruct op; try done; clear Hop; cbn [exec];
    lazymatch goal with |- ∀ w, config_same (st w) (st (?m w).2) => change (Keeps config_same m) end.
  - unfold enqueue, new_message_id. config_go. apply config_enqueue_batch.
  - apply config_enqueue_batch.
  - apply config_claim_topic.
  - unfold claim_batch_for_filter, next_cursor.
    config_go; apply config_claim_topic || apply config_claim_shards.
  - unfold claim_next_excluding, next_cursor. config_go. apply config_claim_excluding.
  - unfold release. config_go.
  - unfold renew_claim. config_go.
  - unfold delivered_batch, deliver_shard, deliver_one. config_go. apply config_record_topic_stats.
  - unfold failed. config_go. apply config_bump_topic_stat.
  - unfold drop_claimed. config_go. apply config_bump_dropped.
  - unfold drop_pending. config_go. apply config_bump_dropped.
  - unfold accept_dropped. config_go; apply config_bump_topic_stat || apply config_bump_dropped.
  - apply config_bump_topic_stat.
  - unfold reclaim_stale. config_go. apply config_every_shard.
  - apply config_every_shard.
  - apply config_every_shard.
  - apply config_flush_topic_stats.
  - apply config_flush_message_trends.
  - unfold register_consumer, insert_consumer. config_go; repeat case_match; by apply config_same_fields.
  - unfold touch_consumer. config_go. case_match; by apply config_same_fields.
  - unfold unregister_consumer. config_go.
  - unfold purge_stale_consumers. config_go.
Qed.

(** * The operations on configurations *)

Lemma topic_config_coherent topic w :
  coherent (st w) →
  coherent (st (topic_config topic w).2) ∧
  ∀ c, (topic_config topic w).1 = Ok c → c = stored_config (st w) topic.
Proof.
  intros Hok. unfold topic_config, topic_config_read, topic_config_cache. run.
  destruct (topic_cache (st w) !! topic) as [c|] eqn:Hc; run.
  { split; [done|]. intros c' [= <-]. by apply Hok. }
  destruct (fault (tick w)); run; [done|]. cbn [fst snd st]. split; [|by intros c [= <-]].
  intros t c. cbn [topic_cache set_topic_cache]. rewrite lookup_insert_Some.
  intros [[-> <-]|[_ Hc']]; [done|by apply Hok].
Qed.

Lemma stored_config_upsert topic fresh update s t :
  stored_config (upsert_stat topic fresh update s) t =
  if decide (topic = t)
  then config_of t (if topic_stats s !! t is Some r then update r else fresh)
  else stored_config s t.
Proof.
  unfold stored_config, upsert_stat. cbn [topic_stats set_topic_stats].
  case_decide as Ht; [subst|by rewrite lookup_partial_alter_ne].
  rewrite lookup_partial_alter_eq. by destruct (topic_stats s !! t).
Qed.

Lemma note_subscribed_coherent topic w :
  coherent (st w) → coherent (st (note_subscribed_topic topic w).2).
Proof.
  intros Hok. unfold note_subscribed_topic, rfc_now. run. destruct (fault _); run; [done|].
  intros t c. cbn [snd st topic_cache set_topic_cache]. rewrite lookup_delete_Some. intros [Hne Hc].
  unfold stored_config. cbn [topic_stats set_topic_cache].
  rewrite (Hok t c) by done. unfold stored_config, upsert_stat. cbn [topic_stats set_topic_stats].
  by rewrite lookup_partial_alter_ne.
Qed.

Lemma configure_coherent configs w :
  coherent (st w) → coherent (st (configure_topics configs w).2).
Proof.
  intros Hok. unfold configure_topics. rewrite run_bind.
  match goal with |- context [for_each configs ?f w] => set (body := f) end.
  assert (coherent (st (for_each configs body w).2)) as Hloop.
  { revert w Hok. induction configs as [|config configs IH]; intros w Hok; cbn [for_each]; [done|].
    rewrite run_bind. unfold body at 1, topic_config_cache, rfc_now. run.
    destruct (fault _); run; [done|]. apply IH. clear IH.
    intros t c. cbn [st topic_cache set_topic_cache]. rewrite lookup_insert_Some.
    assert (∀ s, stored_config (set_topic_cache (insert (tc_topic config) config) s) t =
      stored_config s t) as -> by done.
    unfold configure_sql. rewrite stored_config_upsert.
    intros [[<- <-]|[Hne Hc]].
    - rewrite decide_True by done. destruct config as [topic d p]. unfold config_of.
      cbn [tc_topic tc_delivery tc_persistence].
      by destruct (topic_stats (st w) !! topic);
        cbn [t_delivery t_persistence blank_stat]; rewrite delivery_stored, persistence_stored.
    - rewrite decide_False by done. by apply Hok. }
  destruct (for_each configs body w) as [[u|e] w1]; [|done].
  unfold list_topic_configs. run. destruct (fault _); run; done.
Qed.

(** Only the rows of some topics changed, and the cache did not. *)
Definition config_except (stale : list string) (s s' : Db) : Prop :=
  topic_cache s' = topic_cache s ∧
  ∀ topic, topic ∉ stale → stored_config s' topic = stored_config s topic.

#[local] Instance config_except_preorder stale : PreOrder (config_except stale).
Proof.
  split; [by intros s|]. intros s1 s2 s3 [C12 H12] [C23 H23].
  split; [congruence|]. intros topic Ht. by rewrite H23, H12.
Qed.

Lemma lookup_foldr_delete {A} (m : gmap string A) l k x :
  foldr delete m l !! k = Some x → k ∉ l ∧ m !! k = Some x.
Proof.
  induction l as [|y l IH]; simpl; [by intros ?; split; [apply not_elem_of_nil|]|].
  rewrite lookup_delete_Some. intros [Hne [? ?]%IH]. split; [set_solver|done].
Qed.

(** A control transaction that fails leaves the configurations alone. *)
Lemma config_control_tx_except {A} stale (body : M Error Db A) w :
  Keeps (config_except stale) body →
  let '(r, w') := control_tx body w in
  match r with
  | Ok _ => config_except stale (st w) (st w')
  | Err _ => config_same (st w) (st w')
  end.
Proof.
  intros Hb. unfold control_tx, transaction. rewrite run_query. destruct (fault (tick w)); [done|].
  specialize (Hb (mkWorld (st w) (S (tick w)))).
  destruct (body _) as [[a|e] w2]; cbn [st snd] in *.
  - rewrite run_query. destruct (fault (tick w2)); [|done].
    apply config_same_fields; [apply Hb|done].
  - apply config_same_fields; [apply Hb|done].
Qed.

Lemma purge_idle_coherent cutoff keep w :
  coherent (st w) → coherent (st (purge_idle_ephemeral cutoff keep w).2).
Proof.
  intros Hok. unfold purge_idle_ephemeral. rewrite run_bind.
  pose proof (config_flush_topic_stats w) as Hflush.
  destruct (flush_topic_stats w) as [[n|e] w1]; cbn [snd] in Hflush;
    apply (config_same_coherent _ _ Hflush) in Hok; [|done]. clear Hflush w n.
  run. destruct (fault _); run; [done|].
  set (stale := filter (λ topic, topic ∉ keep) _). clearbody stale.
  destruct stale as [|t0 ts]; run; [done|].
  assert (∃ stale, stale = t0 :: ts) as [stale <-] by eauto.
  match goal with |- context [control_tx ?b ?w0] =>
    assert (Keeps (config_except stale) b) as Hb;
      [|pose proof (config_control_tx_except stale b w0 Hb) as Htx;
        destruct (control_tx b w0) as [r w2]] end.
  { repeat first [keeps_step | progress unfold on_shard]; cbn [snd]; [by split|].
    repeat case_match; try reflexivity.
    split; [done|]. intros topic Ht. unfold stored_config. cbn [snd topic_stats set_topic_stats].
    rewrite lookup_delete_ne; [done|]. set_solver. }
  destruct r as [n|e]; [|by eapply config_same_coherent].
  destruct Htx as [Hcache Hrows]. cbn [st] in Hcache, Hrows.
  run. intros t c. cbn [snd st topic_cache set_topic_cache].
  rewrite Hcache. intros [Ht Hc]%lookup_foldr_delete.
  by rewrite (Hok t c Hc), <- Hrows.
Qed.

(** * Coherence *)

Lemma exec_coherent op w : coherent (st w) → coherent (st (exec op w)).
Proof.
  intros Hok. destruct (config_neutral op) eqn:Hop.
  { eapply config_same_coherent; [by apply config_exec|done]. }
  destruct op; try done; cbn [exec].
  - by apply topic_config_coherent.
  - by apply note_subscribed_coherent.
  - by apply configure_coherent.
  - by apply purge_idle_coherent.
Qed.

Lemma exec_all_coherent ops w : coherent (st w) → coherent (st (exec_all ops w)).
Proof.
  revert w. induction ops as [|op ops IH]; intros w Hok; [done|].
  apply IH. by apply exec_coherent.
Qed.


(** The state after [topic_config] on one task read a topic, [configure_topics] on
    another ran to its end, and the first task then cached what it had read. *)
Definition interleaved (config : TopicConfig) (w : World Db) : World Db :=
  let '(r, w1) := topic_config_read (tc_topic config) w in
  let '(_, w2) := configure_topics [config] w1 in
  match r with
  | Ok (stale, true) => (topic_config_cache (tc_topic config) stale w2).2
  | _ => w2
  end.

(** The cache is not protected across the query: when [configure_topics] runs
    between the query and the cache update of a concurrent [topic_config] on a
    topic unknown so far, the catalog stores the new configuration but every
    later [topic_config] keeps answering the default one. *)
Theorem topic_config_race config n :
  calm → config ≠ implicit (tc_topic config) →
  let w := interleaved config (mkWorld empty_db n) in
  stored_config (st w) (tc_topic config) = config ∧
  (topic_config (tc_topic config) w).1 = Ok (implicit (tc_topic config)).
Proof.
  intros Hc Hne. destruct config as [topic d p]. cbn [tc_topic] in *. cbv zeta.
  unfold interleaved, topic_config_read, configure_topics, list_topic_configs, rfc_now.
  cbn [tc_topic for_each]. run.
  change (topic_cache empty_db) with (∅ : gmap string TopicConfig). rewrite lookup_empty.
  run. rewrite !Hc. cbn [topic_stats empty_db]. rewrite lookup_empty.
  unfold topic_config_cache. run. rewrite !Hc. run. rewrite !Hc. run. cbn [snd st tick]. split.
  - unfold stored_config. cbn [topic_stats set_topic_cache].
    unfold configure_sql, upsert_stat. cbn [topic_stats set_topic_stats tc_topic].
    rewrite lookup_partial_alter_eq. unfold config_of.
    change (topic_stats empty_db) with (∅ : gmap string TopicStat). rewrite lookup_empty.
    cbn [default t_delivery t_persistence blank_stat tc_delivery tc_persistence].
    by rewrite delivery_stored, persistence_stored.
  - unfold topic_config, topic_config_read. run. cbn [topic_cache set_topic_cache].
    by rewrite lookup_insert_eq.
Qed.

End config.


Lemma topic_config_race_witness :
  let config := {| tc_topic := "t"; tc_delivery := Broadcast; tc_persistence := Persistent |} in
  let w := interleaved (H := demo_oracle) (H0 := demo_chrono) config (mkWorld empty_db 0) in
  stored_config (st w) "t" = config ∧
  (topic_config (H := demo_oracle) "t" w).1 = Ok (implicit "t").
Proof.
  apply (topic_config_race (H := demo_oracle) (H0 := demo_chrono)
    {| tc_topic := "t"; tc_delivery := Broadcast; tc_persistence := Persistent |} 0 demo_calm).
  discriminate.
Defined.

End DbConfig.
