(* ===== verification/DbQuery.v ===== *)
(** The queries of the queue database: src/src/db.rs, the message pages and the
    status snapshot of the console, clearing a topic, the keys the writer
    remembers at start-up, and closing the database. *)

From S2P Require Import Prelude RustStr Topic Model Effects Store Db.
Import Topic Model Store Db.

Module DbQuery.

(** * Results *)

(** [StoredMessage]. *)
Record StoredMessage := {
  sm_id : string;
  sm_topic : string;
  sm_payload : list Z;
  sm_attributes : Json;
  sm_status : MessageStatus;
  sm_attempts : Z;
  sm_created_at : string;
  sm_delivered_at : option string;
  sm_last_error : option string
}.

(** [TopicMessagePage]. *)
Record TopicMessagePage := mkPage {
  pg_offset : Z;
  pg_total : Z;
  pg_message : option StoredMessage
}.

(** [ConsumerSnapshot]. *)
Record ConsumerSnapshot := {
  cs_id : string;
  cs_name : string;
  cs_last_seen_at : string;
  cs_live : bool;
  cs_attributes : gmap string string
}.

(** [TopicSnapshot]; [streams] is filled in by the console. *)
Record TopicSnapshot := {
  ts_accepted : Z;
  ts_duplicates : Z;
  ts_pending : Z;
  ts_processing : Z;
  ts_delivered : Z;
  ts_failed : Z;
  ts_delivery : string;
  ts_persistence : string;
  ts_dropped : Z;
  ts_consumers : list ConsumerSnapshot
}.

(** [TopicSnapshot::default()]. *)
Definition default_snapshot : TopicSnapshot :=
  {| ts_accepted := 0; ts_duplicates := 0; ts_pending := 0; ts_processing := 0; ts_delivered := 0;
     ts_failed := 0; ts_delivery := ""; ts_persistence := ""; ts_dropped := 0; ts_consumers := [] |}.

Definition with_depth (pending processing : Z) (t : TopicSnapshot) : TopicSnapshot :=
  {| ts_accepted := ts_accepted t; ts_duplicates := ts_duplicates t; ts_pending := pending;
     ts_processing := processing; ts_delivered := ts_delivered t; ts_failed := ts_failed t;
     ts_delivery := ts_delivery t; ts_persistence := ts_persistence t; ts_dropped := ts_dropped t;
     ts_consumers := ts_consumers t |}.

Definition add_consumer (c : ConsumerSnapshot) (t : TopicSnapshot) : TopicSnapshot :=
  {| ts_accepted := ts_accepted t; ts_duplicates := ts_duplicates t; ts_pending := ts_pending t;
     ts_processing := ts_processing t; ts_delivered := ts_delivered t; ts_failed := ts_failed t;
     ts_delivery := ts_delivery t; ts_persistence := ts_persistence t; ts_dropped := ts_dropped t;
     ts_consumers := ts_consumers t ++ [c] |}.

(** The snapshot of a [topic_stats] row; the depths are read from the shards. *)
Definition snapshot_of (r : TopicStat) : TopicSnapshot :=
  {| ts_accepted := t_accepted r; ts_duplicates := t_duplicates r; ts_pending := 0;
     ts_processing := 0; ts_delivered := t_delivered r; ts_failed := t_failed r;
     ts_delivery := delivery_as_str (delivery_from_stored (t_delivery r));
     ts_persistence := persistence_as_str (persistence_from_stored (t_persistence r));
     ts_dropped := t_dropped r; ts_consumers := [] |}.

(** * Depths *)

(** [QUEUE_DEPTH_SQL]: the pending and claimed messages of each topic that has
    some. *)
Definition depth_rows (t : Table) : gmap string (Z * Z) :=
  foldr (λ '(_, m), match m_status m with
      | Pending => partial_alter (λ o, let '(p, q) := default (0, 0) o in Some (p + 1, q)) (m_topic m)
      | Processing => partial_alter (λ o, let '(p, q) := default (0, 0) o in Some (p, q + 1)) (m_topic m)
      | _ => id
      end) ∅ (map_to_list t).

(** [entry.0 += pending; entry.1 += processing], for all rows of a shard. *)
Definition add_depths (depths rows : gmap string (Z * Z)) : gmap string (Z * Z) :=
  union_with (λ '(p, q) '(p', q'), Some (p + p', q + q')) depths rows.

(** * Orders *)

(** [ORDER BY created_at DESC]. *)
Definition created_ge (a b : string * Message) : Prop := created_le b a.
#[export] Instance created_ge_dec : RelDecision created_ge.
Proof. unfold created_ge. intros a b. apply _. Defined.

Definition consumer_le (a b : string * Consumer) : Prop := str_le (c_created a.2) (c_created b.2).
#[export] Instance consumer_le_dec : RelDecision consumer_le.
Proof. unfold consumer_le. intros a b. apply _. Defined.

Definition snapshot_le (a b : string * TopicSnapshot) : Prop := str_le a.1 b.1.
#[export] Instance snapshot_le_dec : RelDecision snapshot_le.
Proof. unfold snapshot_le. intros a b. apply _. Defined.

(** Whether a message has an idempotency key to remember. *)
Definition keyed (m : Message) : bool := if m_key m is Some k then negb (is_empty k) else false.

Section queries.
Context `{Oracle, Chrono, Serde}.

Abbreviation MD := (M Error Db).

(** [load_queue_depths]. *)
Definition load_queue_depths : MD (gmap string (Z * Z)) :=
  fold_each (seq 0 MESSAGE_SHARDS) ∅ (λ depths i,
    rows ← ask_shard i depth_rows; mret (add_depths depths rows)).

(** [recent_idempotency_keys]. *)
Definition recent_idempotency_keys (limit_per_shard : Z) : MD (list (nat * string * string)) :=
  fold_each (seq 0 MESSAGE_SHARDS) [] (λ entries i,
    rows ← ask_shard_at i (λ n t,
      merge_sort created_le (take (Z.to_nat (Z.min limit_per_shard I64_MAX))
        (merge_sort created_ge (any_order n (select_where (λ _ m, keyed m) t)))));
    mret (entries ++ map (λ '(id, m), (i, default "" (m_key m), id)) rows)).

(** [topic_message_id]. *)
Definition topic_message_id (filter : string) (offset : Z) : MD (Z * option string) :=
  if negb (is_wildcard_filter filter)
  then
    let p (_ : string) m := bool_decide (m_topic m = filter) in
    total ← ask_shard (topic_shard filter) (count_where p);
    if (total =? 0) || (total <=? offset) then mret (total, None)
    else
    id ← ask_shard (topic_shard filter) (λ t,
      fst <$> merge_sort newest_first (select_where p t) !! Z.to_nat offset);
    mret (total, id)
  else
    matched ← fold_each (seq 0 MESSAGE_SHARDS) [] (λ matched i,
      rows ← ask_shard_at i (λ n t, any_order n (map_to_list t));
      mret (matched ++ List.filter (λ '(_, m), filter_matches filter (m_topic m)) rows));
    let matched := merge_sort newest_first matched in
    mret (Z.of_nat (length matched), fst <$> matched !! Z.to_nat (wrap_u64 offset)).

(** The row of a page. *)
Definition stored_message (id : string) (m : Message) : StoredMessage :=
  {| sm_id := id; sm_topic := m_topic m; sm_payload := m_payload m;
     sm_attributes := default (JObject []) (json_from_str (m_attributes m));
     sm_status := m_status m; sm_attempts := m_attempts m; sm_created_at := m_created m;
     sm_delivered_at := m_delivered m; sm_last_error := m_error m |}.

(** [topic_message_page]. *)
Definition topic_message_page (filter : string) (offset : Z) : MD TopicMessagePage :=
  let offset := Z.max offset 0 in
  '(total, id) ← topic_message_id filter offset;
  '(offset, (total, id)) ←
    (if bool_decide (id = None) && (0 <? total) && (total <=? offset)
     then let offset := total - 1 in
          found ← topic_message_id filter offset; mret (offset, found)
     else mret (offset, (total, id)));
  match id with
  | None => mret (mkPage offset total None)
  | Some id =>
      i ← shard_index_for_id id;
      match i with
      | None => mret (mkPage offset total None)
      | Some i =>
          row ← ask_shard i (λ t, t !! id);
          mret (mkPage offset total (stored_message id <$> row))
      end
  end.

(** The statement of [reset_topic_stats]. *)
Definition zero_counts (r : TopicStat) : TopicStat :=
  {| t_accepted := 0; t_duplicates := 0; t_delivered := 0; t_failed := 0; t_dropped := 0;
     t_pending := 0; t_processing := 0; t_delivery := t_delivery r;
     t_persistence := t_persistence r; t_last_seen := t_last_seen r; t_configured := t_configured r |}.

(** [reset_topic_stats]. *)
Definition reset_topic_stats (filter : string) : MD () :=
  rows ← query (λ s, map_to_list (topic_stats s));
  names ← unordered rows.*1;
  for_each names (λ name,
    if bool_decide (name = filter) || filter_matches filter name
    then stmt (λ s, ((), set_topic_stats (alter zero_counts name) s))
    else mret ()).

(** The rows of a shard that [clear_topic_messages] deletes one by one. *)
Definition clear_shard (filter : string) (deleted : Z) (i : nat) : MD Z :=
  rows ← ask_shard_at i (λ n t, any_order n (map_to_list t));
  fold_each rows deleted (λ deleted '(id, m),
    if filter_matches filter (m_topic m)
    then n ← on_shard i (λ t, (if t !! id is Some _ then 1 else 0, delete id t)); mret (deleted + n)
    else mret deleted).

(** The deletions of [clear_topic_messages]. *)
Definition clear_messages (filter : string) : MD Z :=
  if negb (is_wildcard_filter filter)
  then let p (_ : string) m := bool_decide (m_topic m = filter) in
       on_shard (topic_shard filter) (λ t, (count_where p t, delete_where p t))
  else fold_each (seq 0 MESSAGE_SHARDS) 0 (clear_shard filter).

(** [clear_topic_messages]. *)
Definition clear_topic_messages (filter : string) : MD Z :=
  _ ← flush_topic_stats;
  deleted ← clear_messages filter;
  _ ← reset_topic_stats filter;
  mret deleted.

(** [topics.entry(name).or_insert_with(default)] changed by [f]. *)
Definition change_entry (name : string) (f : TopicSnapshot → TopicSnapshot)
    : gmap string TopicSnapshot → gmap string TopicSnapshot :=
  partial_alter (λ o, Some (f (default default_snapshot o))) name.

(** [status_snapshot]. *)
Definition status_snapshot (consumer_seen_after : option string) : MD (list (string * TopicSnapshot)) :=
  _ ← flush_topic_stats;
  stats ← query topic_stats;
  let topics := snapshot_of <$> stats in
  depths ← load_queue_depths;
  let topics := map_fold (λ name '(pending, processing), change_entry name (with_depth pending processing))
                  topics depths in
  rows ← stmt_at (λ n s, (merge_sort consumer_le (any_order n (map_to_list (consumers s))), s));
  let topics := foldl (λ topics '(id, c),
    let live := if consumer_seen_after is Some cutoff then str_leb cutoff (c_last_seen c) else true in
    change_entry (c_topic c) (add_consumer {| cs_id := id; cs_name := c_name c;
      cs_last_seen_at := c_last_seen c; cs_live := live;
      cs_attributes := default ∅ (attrs_from_json (c_attributes c)) |}) topics) topics rows in
  mret (merge_sort snapshot_le (map_to_list topics)).

(** [sqlite_size_bytes]; [file_len] is the length of a file, zero if there is none, and
    the files are those the connections have open. *)
Definition sqlite_size_bytes (file_len : string → Z) (control_file : option string) (shard_file : nat → string)
    : MD Z :=
  row ← query (λ _, control_file);
  let path := default "" row in
  if is_empty path then mret 0
  else
  let size path := file_len path + file_len (path +:+ "-wal") + file_len (path +:+ "-shm") in
  fold_each (seq 0 MESSAGE_SHARDS) (size path) (λ total i,
    shard_path ← ask_shard i (λ _, shard_file i);
    mret (total + size shard_path)).

(** A statement whose failure is only logged. *)
Definition best_effort {A} (m : MD A) : MD () := _ ← attempt m; mret ().

(** [close]: the check-points write the log back into the files and change no
    row. *)
Definition close : MD () :=
  _ ← best_effort flush_topic_stats;
  _ ← best_effort flush_message_trends;
  _ ← best_effort (query (λ _, ()));
  for_each (seq 0 MESSAGE_SHARDS) (λ i, best_effort (ask_shard i (λ _, ()))).

End queries.

End DbQuery.
