(* ===== verification/DbQuerySpec.v ===== *)
(** What the queries of [DbQuery] return and what clearing a topic does
    (src/src/db.rs). *)

From S2P Require Import Prelude RustStr Topic Model Effects Store Db DbInv DbSpec DbAdmin DbQuery.
Import Topic Model Store Db DbInv DbSpec DbAdmin DbQuery.

Module DbQuerySpec.

(** * Depths *)

(** The pending and the claimed messages of a topic in a table. *)
Definition depth_in (topic : string) (t : Table) : Z * Z :=
  (count_where (λ _ m, bool_decide (m_topic m = topic) && is_status Pending m) t,
   count_where (λ _ m, bool_decide (m_topic m = topic) && is_status Processing m) t).

(** As a row of the query, which lists no topic without active messages. *)
Definition as_row (d : Z * Z) : option (Z * Z) := if (d.1 =? 0) && (d.2 =? 0) then None else Some d.

Lemma length_filter_cons (p : string → Message → bool) id m l :
  length (filter (λ '(id, m), p id m = true) ((id, m) :: l)) =
    ((if p id m then 1 else 0) + length (filter (λ '(id, m), p id m = true) l))%nat.
Proof. rewrite filter_cons. case_decide as Hd; [by rewrite Hd|]. by destruct (p id m). Qed.

Lemma lookup_depth_rows t topic : depth_rows t !! topic = as_row (depth_in topic t).
Proof.
  unfold depth_rows, depth_in, as_row, count_where, select_where.
  induction (map_to_list t) as [|[id m] l IH]; [done|]. cbn [foldr].
  rewrite !(length_filter_cons (λ _ m, bool_decide (m_topic m = topic) && is_status _ m)).
  set (p0 := length (filter _ l)). set (q0 := length (filter _ l)).
  fold p0 q0 in IH. clearbody p0 q0. cbn [fst snd] in *.
  unfold is_status. destruct (bool_decide (m_topic m = topic)) eqn:Hb; cbn [andb].
  - apply bool_decide_eq_true in Hb as <-.
    destruct (m_status m); cbn; rewrite ?lookup_partial_alter_eq; try exact IH; rewrite IH;
      repeat case_match; simplify_eq/=; try done; try lia; f_equal; f_equal; lia.
  - apply bool_decide_eq_false in Hb.
    destruct (m_status m); cbn; rewrite ?lookup_partial_alter_ne by done; exact IH.
Qed.

Lemma count_where_zero p t : (∀ id m, t !! id = Some m → p id m = false) → count_where p t = 0.
Proof.
  intros Hp. unfold count_where. destruct (select_where p t) as [|[id m] l] eqn:Hs; [done|]. exfalso.
  assert ((id, m) ∈ select_where p t) as Hin by (rewrite Hs; left).
  apply elem_of_select_where in Hin as [Hm Hpm]. rewrite (Hp id m Hm) in Hpm. done.
Qed.

Lemma depth_in_other i topic t : table_ok i t → i ≠ topic_shard topic → depth_in topic t = (0, 0).
Proof.
  intros [Hrows _] Hi. unfold depth_in. f_equal; apply count_where_zero; intros id m Hm;
    destruct (Hrows id m Hm) as [Hs _]; rewrite bool_decide_eq_false_2; (done || congruence).
Qed.

Lemma as_row_zero : as_row (0, 0) = None.
Proof. done. Qed.

(** The active messages of a topic: they are all in the topic's shard. *)
Definition depth (topic : string) (s : Db) : Z * Z := depth_in topic (shard (topic_shard topic) s).

Section queries.
Context `{Oracle, Chrono, Serde}.

Lemma queue_depths_run w :
  calm → db_ok (st w) →
  ∃ depths w', load_queue_depths w = (Ok depths, w') ∧ st w' = st w ∧
    ∀ topic, depths !! topic = as_row (depth topic (st w)).
Proof.
  intros Hc [HL Hok]. unfold load_queue_depths.
  destruct (fold_each_total (E:=Error) (λ done acc w1, st w1 = st w ∧
    ∀ topic, acc !! topic = if decide (topic_shard topic ∈ done) then as_row (depth topic (st w)) else None)
    (seq 0 MESSAGE_SHARDS) (λ depths i, rows ← ask_shard i depth_rows; mret (add_depths depths rows)))
    with (acc := ∅ : gmap string (Z * Z)) (w := w) as (acc & w' & Hrun & Hst & Hacc).
  - intros done i todo acc w1 Hsplit [Hst Hacc]. unfold ask_shard. run. rewrite Hc. run.
    do 2 eexists. split; [done|]. split; [done|]. intros topic.
    unfold add_depths. rewrite lookup_union_with, Hacc, lookup_depth_rows, Hst.
    destruct (decide (topic_shard topic = i)) as [<-|Hne].
    + rewrite decide_False, decide_True; [|set_solver|].
      * fold (depth topic (st w)). by destruct (as_row (depth topic (st w))).
      * pose proof (NoDup_seq 0 MESSAGE_SHARDS) as Hnd. rewrite Hsplit in Hnd.
        apply NoDup_app in Hnd as (_ & Hd & _). intros Hin. apply (Hd _ Hin). left.
    + rewrite (depth_in_other i) by (done || by apply Hok). rewrite as_row_zero.
      destruct (decide (topic_shard topic ∈ done)) as [Hd|Hd].
      * rewrite decide_True by set_solver. by destruct (as_row _).
      * rewrite decide_False by set_solver. done.
  - split; [done|]. intros topic. rewrite lookup_empty. by rewrite decide_False by apply not_elem_of_nil.
  - exists acc, w'. split; [done|]. split; [done|]. intros topic. rewrite Hacc, decide_True; [done|].
    apply elem_of_seq. pose proof (topic_shard_bound topic). lia.
Qed.

(** * The status of the console *)

Lemma lookup_with_depths topics (depths : gmap string (Z * Z)) name :
  map_fold (λ name '(p, q), change_entry name (with_depth p q)) topics depths !! name =
    match depths !! name with
    | Some (p, q) => Some (with_depth p q (default default_snapshot (topics !! name)))
    | None => topics !! name
    end.
Proof.
  revert name. apply (map_fold_weak_ind (λ acc depths, ∀ name, acc !! name = match depths !! name with
    | Some (p, q) => Some (with_depth p q (default default_snapshot (topics !! name)))
    | None => topics !! name end)); [done|].
  intros name [p q] m acc Hm IH name'. unfold change_entry. destruct (decide (name = name')) as [<-|Hne].
  - by rewrite lookup_partial_alter_eq, lookup_insert_eq, IH, Hm.
  - by rewrite lookup_partial_alter_ne, lookup_insert_ne, IH by done.
Qed.

(** What a snapshot says of a topic's messages. *)
Definition snapshot_counts (t : TopicSnapshot) : TopicStatsDelta :=
  {| d_accepted := ts_accepted t; d_duplicates := ts_duplicates t; d_delivered := ts_delivered t |}.
Definition snapshot_depth (t : TopicSnapshot) : Z * Z := (ts_pending t, ts_processing t).

(** A snapshot is right about a topic whose counters and depth are given. *)
Definition right_about (counts : string → TopicStatsDelta) (depths : string → Z * Z)
    (topics : gmap string TopicSnapshot) : Prop :=
  ∀ topic, let t := default default_snapshot (topics !! topic) in
    snapshot_counts t = counts topic ∧ snapshot_depth t = depths topic.

Lemma right_about_consumers counts depths (f : string * Consumer → ConsumerSnapshot) rows topics :
  right_about counts depths topics →
  let topics' := foldl (λ topics x, change_entry (c_topic x.2) (add_consumer (f x)) topics) topics rows in
  right_about counts depths topics' ∧ ∀ topic, is_Some (topics !! topic) → is_Some (topics' !! topic).
Proof.
  revert topics. induction rows as [|x rows IH]; intros topics Hr; [done|]. cbn [foldl].
  destruct (IH (change_entry (c_topic x.2) (add_consumer (f x)) topics)) as [Hr' Hin].
  - intros topic. specialize (Hr topic). unfold change_entry.
    destruct (decide (c_topic x.2 = topic)) as [<-|Hne]; [|by rewrite lookup_partial_alter_ne].
    rewrite lookup_partial_alter_eq. exact Hr.
  - split; [done|]. intros topic Ht. apply Hin. unfold change_entry.
    destruct (decide (c_topic x.2 = topic)) as [<-|Hne]; [|by rewrite lookup_partial_alter_ne].
    rewrite lookup_partial_alter_eq. by eexists.
Qed.

Context `{!OrderLaws}.


(** * Message pages *)

(** Whether the page or the clearing of [filter] concerns a message. *)
Definition concerns (filter : string) (m : Message) : bool :=
  if is_wildcard_filter filter then filter_matches filter (m_topic m) else bool_decide (m_topic m = filter).

(** The messages of all shards it concerns. *)
Definition concerned (filter : string) (s : Db) : list (string * Message) :=
  seq 0 MESSAGE_SHARDS ≫= λ i, List.filter (λ '(_, m), concerns filter m) (map_to_list (shard i s)).

Lemma elem_of_concerned filter s id m :
  length (shards s) = MESSAGE_SHARDS →
  (id, m) ∈ concerned filter s ↔ ∃ i, shard i s !! id = Some m ∧ concerns filter m = true.
Proof.
  intros HL. unfold concerned. rewrite list_elem_of_bind. setoid_rewrite filter_bool.
  setoid_rewrite list_elem_of_filter. setoid_rewrite elem_of_map_to_list. split.
  - intros (i & [Hc Hm] & _). eauto.
  - intros (i & Hm & Hc). exists i. split; [done|]. apply elem_of_seq.
    destruct (decide (i < MESSAGE_SHARDS)%nat) as [|Hge]; [lia|].
    rewrite shard_beyond in Hm by (done || lia). done.
Qed.

#[local] Instance newest_first_total : Total newest_first.
Proof.
  intros a b. unfold newest_first, str_ltb. pose proof (str_leb_total (m_created a.2) (m_created b.2)).
  destruct (str_leb (m_created a.2) (m_created b.2)) eqn:Hab,
    (str_leb (m_created b.2) (m_created a.2)) eqn:Hba; cbn [negb]; [|by auto..|naive_solver].
  pose proof (str_leb_antisym _ _ Hab Hba) as Heq. destruct (str_leb_total a.1 b.1); auto.
Qed.

(** The only shard with messages of a topic. *)
Lemma concerned_exact filter s :
  db_ok s → is_wildcard_filter filter = false →
  concerned filter s ≡ₚ
    select_where (λ _ m, bool_decide (m_topic m = filter)) (shard (topic_shard filter) s).
Proof.
  intros [HL Hok] Hw. assert (∀ i id m, shard i s !! id = Some m → topic_shard (m_topic m) = i) as Hsh.
  { intros i id m Hm. apply (proj1 (Hok i) id m Hm). }
  apply NoDup_Permutation.
  - unfold concerned. apply NoDup_bind.
    + intros i j [id m] _ _. rewrite !filter_bool, !list_elem_of_filter, !elem_of_map_to_list.
      intros [_ Hi%Hsh] [_ Hj%Hsh]. congruence.
    + intros i _. rewrite filter_bool. apply NoDup_filter, NoDup_map_to_list.
    + apply NoDup_seq.
  - apply NoDup_filter, NoDup_map_to_list.
  - intros [id m]. rewrite elem_of_concerned, elem_of_select_where by done. unfold concerns. rewrite Hw.
    split; [|by eauto]. intros (i & Hm & Hc). split; [|done]. pose proof (Hsh _ _ _ Hm) as Hi.
    apply bool_decide_eq_true in Hc. by rewrite <-Hc, Hi.
Qed.

Lemma topic_message_id_run filter offset w :
  calm → db_ok (st w) → 0 <= offset <= I64_MAX →
  ∃ l w', topic_message_id filter offset w =
      (Ok (Z.of_nat (length l), fst <$> l !! Z.to_nat offset), w') ∧
    st w' = st w ∧ l ≡ₚ concerned filter (st w) ∧ Sorted newest_first l.
Proof.
  intros Hc Hok Ho. unfold topic_message_id. destruct (is_wildcard_filter filter) eqn:Hw; cbn [negb].
  - destruct (fold_each_total (E:=Error) (λ done acc w1, st w1 = st w ∧ acc ≡ₚ
      done ≫= λ i, List.filter (λ '(_, m), concerns filter m) (map_to_list (shard i (st w))))
      (seq 0 MESSAGE_SHARDS) (λ matched i,
        rows ← ask_shard_at i (λ n t, any_order n (map_to_list t));
        mret (matched ++ List.filter (λ '(_, m), filter_matches filter (m_topic m)) rows)))
      with (acc := [] : list (string * Message)) (w := w) as (acc & w' & Hrun & Hst & Hacc).
    + intros done i todo acc w1 _ [Hst Hacc]. unfold ask_shard_at. run. rewrite Hc. run.
      do 2 eexists. split; [done|]. split; [done|]. rewrite bind_app, Hacc. apply Permutation_app_head.
      simpl. rewrite app_nil_r. unfold concerns. rewrite Hw, Hst, !filter_bool. by rewrite any_order_perm.
    + done.
    + rewrite run_bind, Hrun. run. exists (merge_sort newest_first acc), w'.
      unfold wrap_u64. rewrite (Z.mod_small offset) by (unfold I64_MAX in Ho; lia).
      split; [done|]. split; [done|]. split; [by rewrite (merge_sort_Permutation newest_first)|].
      apply Sorted_merge_sort, _.
  - unfold ask_shard. run. rewrite Hc. run. set (t := shard _ _). set (p := λ _ m, _).
    assert (merge_sort newest_first (select_where p t) ≡ₚ concerned filter (st w)) as Hperm.
    { rewrite (merge_sort_Permutation newest_first). symmetry. by apply concerned_exact. }
    assert (count_where p t = Z.of_nat (length (merge_sort newest_first (select_where p t)))) as Hlen.
    { unfold count_where. by rewrite (merge_sort_Permutation newest_first). }
    destruct ((count_where p t =? 0) || (count_where p t <=? offset)) eqn:Hcut; run.
    + exists (merge_sort newest_first (select_where p t)). eexists. rewrite Hlen. split.
      { rewrite lookup_ge_None_2; [done|]. rewrite Hlen in Hcut.
        apply orb_prop in Hcut as [?%Z.eqb_eq|?%Z.leb_le]; lia. }
      split; [done|]. split; [done|]. apply Sorted_merge_sort, _.
    + rewrite Hc. run. exists (merge_sort newest_first (select_where p t)). eexists. rewrite Hlen.
      split; [done|]. split; [done|]. split; [done|]. apply Sorted_merge_sort, _.
Qed.

(** Every identifier names its shard, as [new_message_id] makes them. *)
Definition ids_routed (s : Db) : Prop :=
  ∀ i id m, shard i s !! id = Some m → message_id_shard id = Some i.

(** The row behind a listed identifier. *)
Lemma page_row l filter w k id m offset total :
  calm → db_ok (st w) → ids_routed (st w) → l ≡ₚ concerned filter (st w) → l !! k = Some (id, m) →
  ∃ w', (i ← shard_index_for_id id;
         match i with
         | None => mret (mkPage offset total None)
         | Some i => row ← ask_shard i (λ t, t !! id); mret (mkPage offset total (stored_message id <$> row))
         end) w = (Ok (mkPage offset total (Some (stored_message id m))), w').
Proof.
  intros Hc [HL _] Hids Hperm Hk%list_elem_of_lookup_2. rewrite Hperm, elem_of_concerned in Hk by done.
  destruct Hk as (i & Hm & _). unfold shard_index_for_id, ask_shard. rewrite (Hids i id m Hm). run.
  rewrite Hc. run. rewrite Hm. by eexists.
Qed.

(** The message browser: without storage faults a page shows the message at
    the given position of all matching messages of all shards, newest first, with
    their total number; a position before the first or beyond the last message is
    moved to the first or last one, and no message is shown only when none
    matches. *)
Theorem page_exact filter offset w :
  calm → db_ok (st w) → ids_routed (st w) → is_i64 offset →
  Z.of_nat (length (concerned filter (st w))) <= I64_MAX →
  ∃ l page w', topic_message_page filter offset w = (Ok page, w') ∧
    l ≡ₚ concerned filter (st w) ∧ Sorted newest_first l ∧
    page = match l !! Z.to_nat (Z.min (Z.max offset 0) (Z.of_nat (length l) - 1)) with
           | Some (id, m) => mkPage (Z.min (Z.max offset 0) (Z.of_nat (length l) - 1))
                                    (Z.of_nat (length l)) (Some (stored_message id m))
           | None => mkPage (Z.max offset 0) 0 None
           end.
Proof.
  intros Hc Hok Hids [_ Hmax] Hlen. unfold topic_message_page. set (o := Z.max offset 0).
  rewrite run_bind. destruct (topic_message_id_run filter o w) as (l & w1 & -> & Hst & Hperm & Hs);
    [done|done|unfold o, I64_MAX in *; lia|].
  pose proof (Permutation_length Hperm) as Hl.
  assert (o < 0 ∨ 0 <= o) as [?|Ho] by lia; [lia|].
  destruct (l !! Z.to_nat o) as [[id m]|] eqn:Hk; cbn [fmap option_fmap option_map fst].
  - rewrite bool_decide_eq_false_2 by done. cbn [andb]. run.
    assert (o < Z.of_nat (length l)) as Hlt by (apply lookup_lt_Some in Hk; lia).
    destruct (page_row l filter w1 (Z.to_nat o) id m o (Z.of_nat (length l)) Hc) as [w2 Hrow];
      [by rewrite Hst..|done|]. exists l. eexists _, _. split; [exact Hrow|].
    rewrite Z.min_l, Hk by lia. done.
  - rewrite bool_decide_eq_true_2 by done. cbn [andb]. apply lookup_ge_None_1 in Hk.
    rewrite (proj2 (Z.leb_le _ o)) by lia. rewrite andb_true_r. destruct (Z.ltb_spec 0 (Z.of_nat (length l))).
    + cbv zeta. run. destruct (topic_message_id_run filter (Z.of_nat (length l) - 1) w1)
        as (l2 & w2 & -> & Hst2 & Hperm2 & Hs2); [done|by rewrite Hst|lia|]. rewrite Hst in Hperm2.
      assert (length l2 = length l) as Hll by (by rewrite Hperm, Hperm2).
      destruct (lookup_lt_is_Some_2 l2 (Z.to_nat (Z.of_nat (length l) - 1))) as [[id m] Hk2]; [lia|].
      rewrite Hk2. cbn [fmap option_fmap option_map fst]. run.
      destruct (page_row l2 filter w2 (Z.to_nat (Z.of_nat (length l) - 1)) id m (Z.of_nat (length l) - 1) (Z.of_nat (length l2)) Hc)
        as [w3 Hrow]; [by rewrite Hst2, Hst..|done|]. exists l2. eexists _, _.
      split; [exact Hrow|]. split; [done|]. split; [done|]. rewrite Hll, Z.min_r, Hk2 by lia. done.
    + run. exists l. eexists _, _. split; [done|]. destruct l; [done|simpl in *; lia].
Qed.

(** * Clearing a topic *)

(** Only message tables change. *)
Definition messages_only (s s' : Db) : Prop :=
  length (shards s') = length (shards s) ∧ topic_stats s' = topic_stats s ∧ stats_delta s' = stats_delta s.

(** The rows of the shards [is_] the filter concerns are gone; no other changed. *)
Definition cleared (filter : string) (is_ : list nat) (s s' : Db) : Prop :=
  ∀ j id, shard j s' !! id =
    (m ← shard j s !! id; if bool_decide (j ∈ is_) && filter_matches filter (m_topic m) then None else Some m).

Lemma clear_rows_run filter i rows deleted w :
  calm → (i < length (shards (st w)))%nat → NoDup rows.*1 →
  (∀ id m, (id, m) ∈ rows → shard i (st w) !! id = Some m) →
  ∃ w', fold_each rows deleted (λ deleted '(id, m),
          if filter_matches filter (m_topic m)
          then n ← on_shard i (λ t, (if t !! id is Some _ then 1 else 0, delete id t)); mret (deleted + n)
          else mret deleted) w =
      (Ok (deleted + Z.of_nat (length (List.filter (λ '(_, m), filter_matches filter (m_topic m)) rows))), w') ∧
    messages_only (st w) (st w') ∧
    ∀ j id, shard j (st w') !! id =
      (m ← shard j (st w) !! id;
       if bool_decide (j = i ∧ id ∈ rows.*1) && filter_matches filter (m_topic m) then None else Some m).
Proof.
  intros Hc Hi. revert deleted w Hi. induction rows as [|[id m] rows IH]; intros deleted w Hi Hnd Hin.
  { exists w. split; [simpl; by rewrite Z.add_0_r|]. split; [done|]. intros j id.
    rewrite bool_decide_eq_false_2 by (intros [_ []%elem_of_nil]). simpl. by destruct (shard j (st w) !! id). }
  rewrite fmap_cons in Hnd. apply NoDup_cons in Hnd as [Hnew Hnd]. cbn [fold_each List.filter fst] in *.
  assert (shard i (st w) !! id = Some m) as Hm by (apply Hin; left).
  destruct (filter_matches filter (m_topic m)) eqn:Hf; unfold on_shard; run; [rewrite Hc; run|].
  - rewrite Hm. run. set (w1 := mkWorld (set_shard i _ (st w)) _).
    assert (∀ j, shard j (st w1) = if decide (i = j) then delete id (shard i (st w)) else shard j (st w)) as Hs1.
    { intros j. unfold w1. cbn [st]. by rewrite shard_set_shard. }
    destruct (IH (deleted + 1) w1) as (w' & Hrun & (HL' & Ht' & Hd') & Hs'); [|done| |].
    { unfold w1. simpl. by rewrite length_alter. }
    { intros id2 m2 Hin2. rewrite Hs1, decide_True by done. rewrite lookup_delete_ne; [by apply Hin; right|].
      intros ->. apply Hnew. apply list_elem_of_fmap. by exists (id2, m2). }
    exists w'. split; [refine (eq_trans Hrun _); do 2 f_equal; cbn [length]; lia|].
    split; [split; [|done]; rewrite HL'; unfold w1; simpl; by rewrite length_alter|].
    intros j id2. rewrite Hs', Hs1. destruct (decide (i = j)) as [<-|Hne].
    + destruct (decide (id2 = id)) as [->|Hne2].
      * rewrite lookup_delete_eq, Hm. simpl. rewrite bool_decide_eq_true_2 by set_solver. by rewrite Hf.
      * rewrite lookup_delete_ne by done. destruct (shard i (st w) !! id2); [simpl|done].
        repeat case_bool_decide; try done; exfalso; set_solver.
    + by rewrite !bool_decide_eq_false_2 by naive_solver.
  - destruct (IH deleted w) as (w' & Hrun & Hmo & Hs'); [done|done|by intros; apply Hin; right|].
    exists w'. split; [done|]. split; [done|]. intros j id2. rewrite Hs'.
    destruct (shard j (st w) !! id2) as [m2|] eqn:Hm2; [simpl|done].
    destruct (decide (j = i ∧ id2 = id)) as [[-> ->]|Hne].
    + rewrite Hm in Hm2. injection Hm2 as <-. by rewrite Hf, !andb_false_r.
    + repeat case_bool_decide; try done; exfalso; set_solver.
Qed.

Lemma clear_shard_run filter i deleted w :
  calm → (i < length (shards (st w)))%nat →
  ∃ w', clear_shard filter deleted i w =
      (Ok (deleted + Z.of_nat (length (List.filter (λ '(_, m), filter_matches filter (m_topic m))
                                         (map_to_list (shard i (st w)))))), w') ∧
    messages_only (st w) (st w') ∧ cleared filter [i] (st w) (st w').
Proof.
  intros Hc Hi. unfold clear_shard, ask_shard_at. run. rewrite Hc. run.
  set (rows := any_order (tick w) (map_to_list (shard i (st w)))).
  assert (rows ≡ₚ map_to_list (shard i (st w))) as Hrows by apply any_order_perm.
  set (w1 := mkWorld (st w) _). destruct (clear_rows_run filter i rows deleted w1) as (w' & Hrun & Hmo & Hs).
  - done.
  - done.
  - rewrite Hrows. apply NoDup_fst_map_to_list.
  - intros id m. by rewrite Hrows, elem_of_map_to_list.
  - exists w'. split; [refine (eq_trans Hrun _); do 4 f_equal; rewrite !filter_bool; by rewrite Hrows|].
    split; [done|]. intros j id. rewrite Hs. change (st w1) with (st w).
    destruct (shard j (st w) !! id) as [m|] eqn:Hm; [cbn [mbind option_bind]|done].
    assert (j = i → id ∈ rows.*1) as Hin.
    { intros ->. rewrite Hrows. apply list_elem_of_fmap. exists (id, m). by rewrite elem_of_map_to_list. }
    repeat case_bool_decide; try done; exfalso; set_solver.
Qed.

Lemma clear_shards_run filter w :
  calm → length (shards (st w)) = MESSAGE_SHARDS → is_wildcard_filter filter = true →
  ∃ w', fold_each (seq 0 MESSAGE_SHARDS) 0 (clear_shard filter) w =
      (Ok (Z.of_nat (length (concerned filter (st w)))), w') ∧
    messages_only (st w) (st w') ∧ cleared filter (seq 0 MESSAGE_SHARDS) (st w) (st w').
Proof.
  intros Hc HL Hw. destruct (fold_each_total (E:=Error) (λ done acc w1,
    messages_only (st w) (st w1) ∧ cleared filter done (st w) (st w1) ∧
    acc = Z.of_nat (length (done ≫= λ i, List.filter (λ '(_, m), concerns filter m) (map_to_list (shard i (st w))))))
    (seq 0 MESSAGE_SHARDS) (clear_shard filter)) with (acc := 0) (w := w)
    as (acc & w' & Hrun & Hmo & Hcl & ->); [| |by exists w'].
  - intros done i todo acc w1 Hsplit ((HL1 & Ht1 & Hd1) & Hcl & ->).
    assert (i < MESSAGE_SHARDS)%nat as Hi.
    { assert (i ∈ seq 0 MESSAGE_SHARDS) as Hin by (rewrite Hsplit; set_solver). apply elem_of_seq in Hin. lia. }
    assert (i ∉ done) as Hnew.
    { pose proof (NoDup_seq 0 MESSAGE_SHARDS) as Hnd. rewrite Hsplit in Hnd.
      apply NoDup_app in Hnd as (_ & Hd & _). intros Hin. apply (Hd i Hin). left. }
    assert (shard i (st w1) = shard i (st w)) as Hsi.
    { apply map_eq. intros id. rewrite Hcl, bool_decide_eq_false_2 by done. simpl.
      by destruct (shard i (st w) !! id). }
    destruct (clear_shard_run filter i (Z.of_nat (length (done ≫= λ i,
      List.filter (λ '(_, m), concerns filter m) (map_to_list (shard i (st w)))))) w1)
      as (w2 & Hrun & (HL2 & Ht2 & Hd2) & Hcl2); [done|by rewrite HL1, HL|].
    do 2 eexists. split; [exact Hrun|]. split; [split_and!; congruence|]. split.
    + intros j id. rewrite Hcl2, Hcl. destruct (shard j (st w) !! id) as [m|]; [cbn [mbind option_bind]|done].
      destruct (filter_matches filter (m_topic m)) eqn:Hf; repeat case_bool_decide; cbn [andb mbind option_bind];
        rewrite ?Hf; try done; exfalso; set_solver.
    + rewrite bind_app, length_app. simpl. rewrite app_nil_r, Hsi. unfold concerns. rewrite Hw. lia.
  - split; [done|]. split; [|done]. intros j id. rewrite bool_decide_eq_false_2 by apply not_elem_of_nil.
    simpl. by destruct (shard j (st w) !! id).
Qed.

(** The counters of the topics a filter concerns are zero. *)
Lemma reset_run filter w :
  calm → ∃ w', reset_topic_stats filter w = (Ok (), w') ∧ shards (st w') = shards (st w) ∧
    stats_delta (st w') = stats_delta (st w) ∧
    ∀ name, topic_stats (st w') !! name =
      (λ r, if bool_decide (name = filter) || filter_matches filter name then zero_counts r else r)
        <$> topic_stats (st w) !! name.
Proof.
  intros Hc. unfold reset_topic_stats. run. rewrite Hc. run.
  set (names := any_order _ _). set (w1 := mkWorld (st w) _).
  assert (∀ name, is_Some (topic_stats (st w) !! name) → name ∈ names) as Hall.
  { intros name [r Hr]. unfold names. rewrite any_order_perm. apply list_elem_of_fmap. exists (name, r).
    by rewrite elem_of_map_to_list. }
  set (hit := λ name, bool_decide (name = filter) || filter_matches filter name) in *.
  assert (∀ l w0, ∃ w', for_each l (λ name, if hit name
      then stmt (λ s, ((), set_topic_stats (alter zero_counts name) s)) else mret ()) w0 = (Ok (), w') ∧
    shards (st w') = shards (st w0) ∧ stats_delta (st w') = stats_delta (st w0) ∧
    ∀ name, topic_stats (st w') !! name =
      (λ r, if bool_decide (name ∈ l) && hit name then zero_counts r else r) <$> topic_stats (st w0) !! name)
    as Hfor.
  { clear -Hc. intros l. induction l as [|x l IH]; intros w; cbn [for_each].
    { exists w. split_and!; [done..|]. intros name. rewrite bool_decide_eq_false_2 by apply not_elem_of_nil.
      simpl. by destruct (topic_stats (st w) !! name). }
    rewrite run_bind. destruct (hit x) eqn:Hx; run; [rewrite Hc; run|].
    - destruct (IH (mkWorld (set_topic_stats (alter zero_counts x) (st w)) (S (tick w))))
        as (w' & Hrun & Hsh & Hd & Ht). exists w'. split; [exact Hrun|]. split; [done|]. split; [done|].
      intros name. rewrite Ht. cbn [st topic_stats set_topic_stats]. destruct (decide (x = name)) as [<-|Hne].
      + rewrite lookup_alter_eq, Hx. rewrite (bool_decide_eq_true_2 (x ∈ x :: l)) by left. simpl.
        rewrite andb_true_r. destruct (topic_stats (st w) !! x); [simpl|done]. by case_bool_decide.
      + rewrite lookup_alter_ne by done. destruct (topic_stats (st w) !! name); [simpl|done].
        repeat case_bool_decide; try done; exfalso; set_solver.
    - destruct (IH w) as (w' & Hrun & Hsh & Hd & Ht). exists w'. split; [exact Hrun|]. split; [done|].
      split; [done|]. intros name. rewrite Ht. destruct (topic_stats (st w) !! name); [simpl|done].
      destruct (hit name) eqn:Hh; [|by rewrite !andb_false_r].
      assert (name ≠ x) by congruence. clear Hx Hh Ht. repeat case_bool_decide; try done; exfalso; set_solver. }
  destruct (Hfor names w1) as (w' & Hrun & Hsh & Hd & Ht). exists w'. split_and!; [done..|].
  intros name. rewrite Ht. change (st w1) with (st w). destruct (topic_stats (st w) !! name) eqn:Hn; [|done].
  simpl. rewrite bool_decide_eq_true_2 by (apply Hall; by rewrite Hn). done.
Qed.

(** Clearing a topic or a filter: without storage faults
    [clear_topic_messages] deletes exactly the messages the filter concerns,
    claimed ones included, returns their number, touches no other message, and
    leaves no counts for the topics it concerns, neither stored nor in memory. *)
Theorem clear_exact filter w :
  calm → db_ok (st w) →
  ∃ w', clear_topic_messages filter w = (Ok (Z.of_nat (length (concerned filter (st w)))), w') ∧
    (∀ i id, shard i (st w') !! id =
       (m ← shard i (st w) !! id; if concerns filter m then None else Some m)) ∧
    (∀ topic, topic = filter ∨ filter_matches filter topic = true → counted (st w') topic = zero_delta).
Proof.
  intros Hc Hok. unfold clear_topic_messages. rewrite run_bind. destruct (flush_total w Hc) as (n & w1 & Hf).
  pose proof (flush_counts w) as Hcounts. pose proof (flush_stats_only w) as Hsame.
  rewrite Hf in Hcounts, Hsame |- *. destruct Hcounts as [_ Hempty]. specialize (Hempty n eq_refl).
  destruct Hsame as (Hsh & _ & _). cbn [snd] in *.
  assert (db_ok (st w1)) as Hok1.
  { destruct Hok as [HL Hok]. split; [by rewrite Hsh|]. intros i. unfold shard. rewrite Hsh. apply Hok. }
  assert (∃ w2, clear_messages filter w1 =
      (Ok (Z.of_nat (length (concerned filter (st w)))), w2) ∧ stats_delta (st w2) = ∅ ∧
    ∀ i id, shard i (st w2) !! id = (m ← shard i (st w) !! id; if concerns filter m then None else Some m))
    as (w2 & Hdel & Hd2 & Hs2).
  { assert (concerned filter (st w) = concerned filter (st w1)) as ->.
    { unfold concerned, shard. by rewrite Hsh. }
    assert (∀ i, shard i (st w) = shard i (st w1)) as Hsi by (intros i; unfold shard; by rewrite Hsh).
    unfold clear_messages. destruct (is_wildcard_filter filter) eqn:Hw; cbn [negb].
    - destruct (clear_shards_run filter w1 Hc (proj1 Hok1) Hw) as (w2 & -> & (HL2 & _ & Hd2) & Hcl).
      exists w2. split; [done|]. split; [congruence|]. intros i id. rewrite Hsi, Hcl. unfold concerns. rewrite Hw.
      destruct (decide (i < MESSAGE_SHARDS)%nat) as [Hi|Hi].
      + by rewrite bool_decide_eq_true_2 by (apply elem_of_seq; lia).
      + rewrite shard_beyond; [done|apply Hok1|lia].
    - unfold on_shard. cbv zeta. run. rewrite Hc. run. set (p := λ _ m, _).
      eexists. split; [by rewrite (concerned_exact filter) by done|]. split; [done|].
      intros i id. cbn [st]. rewrite Hsi, shard_set_shard by (rewrite (proj1 Hok1); apply topic_shard_bound).
      unfold concerns. rewrite Hw. case_decide as Hi; [subst i; by rewrite lookup_delete_where|].
      destruct (shard i (st w1) !! id) as [m|] eqn:Hm; [simpl|done].
      destruct (proj1 (proj2 Hok1 i) id m Hm) as [Hts _]. case_bool_decide; [congruence|done]. }
  rewrite run_bind, Hdel. destruct (reset_run filter w2 Hc) as (w3 & Hrun & Hsh3 & Hd3 & Ht3).
  rewrite run_bind, Hrun. run. exists w3. split; [done|]. split.
  - intros i id. rewrite <-Hs2. unfold shard. by rewrite Hsh3.
  - intros topic Hhit. unfold counted, stored_counts. rewrite Ht3, Hd3, Hd2, lookup_empty.
    destruct (topic_stats (st w2) !! topic) as [r|]; [simpl|done].
    assert (bool_decide (topic = filter) || filter_matches filter topic = true) as ->; [|done].
    destruct Hhit as [->| ->]; [by rewrite bool_decide_eq_true_2|apply orb_true_r].
Qed.

End queries.

(** * The properties in the demonstration environment *)


Lemma routed_check s :
  length (shards s) = MESSAGE_SHARDS →
  forallb (λ i, forallb (λ x, bool_decide (message_id_shard x.1 = Some i)) (map_to_list (shard i s)))
    (seq 0 MESSAGE_SHARDS) = true → ids_routed s.
Proof.
  intros HL Hall i id m Hm. destruct (decide (i < MESSAGE_SHARDS)%nat) as [Hi|Hi].
  - rewrite forallb_forall in Hall. specialize (Hall i). rewrite forallb_forall in Hall.
    assert (In i (seq 0 MESSAGE_SHARDS)) as Hin by (apply in_seq; lia).
    specialize (Hall Hin (id, m)). rewrite <-list_elem_of_In, elem_of_map_to_list in Hall.
    by apply Hall, bool_decide_eq_true in Hm.
  - rewrite shard_beyond in Hm; [done|done|lia].
Qed.

Lemma demo2_routed : ids_routed (st demo2).
Proof. apply routed_check; by vm_compute. Qed.

Lemma page_exact_witness :
  ∃ l page w', topic_message_page (H := demo_oracle) (H1 := demo_serde) "a/#" 99 demo2 = (Ok page, w') ∧
    l ≡ₚ concerned "a/#" (st demo2) ∧ length l = 2%nat.
Proof.
  destruct (page_exact (H := demo_oracle) (H1 := demo_serde) (H2 := demo_order)
    "a/#" 99 demo2 demo_calm demo2_ok) as (l & page & w' & Hrun & Hperm & _).
  - exact demo2_routed.
  - unfold is_i64, I64_MIN, I64_MAX. lia.
  - by vm_compute.
  - exists l, page, w'. split; [exact Hrun|]. split; [exact Hperm|]. rewrite Hperm. by vm_compute.
Defined.

Lemma clear_exact_witness :
  ∃ w', clear_topic_messages (H := demo_oracle) (H0 := demo_chrono) "a/#" demo2 = (Ok 2, w') ∧
    shard 1 (st w') !! "s01-x" = None.
Proof.
  destruct (clear_exact (H := demo_oracle) (H0 := demo_chrono) (H2 := demo_order)
    "a/#" demo2 demo_calm demo2_ok) as (w' & Hrun & Hs & _).
  assert (Z.of_nat (length (concerned "a/#" (st demo2))) = 2) as Hn by by vm_compute.
  rewrite Hn in Hrun. exists w'. split; [exact Hrun|]. rewrite Hs. by vm_compute.
Defined.

End DbQuerySpec.
