(* ===== verification/DbOpen.v ===== *)
(** Opening the queue database: src/src/db.rs, [Database::connect] with
    [open_message_shards], [migrate_legacy_messages] and [migrate_consumers].

    The state is what is on disk: the tables of [Store.Db], and what only
    start-up looks at, namely the message table of releases without shards, the
    record of its migration and the layout of the consumer table.  Statements
    that only create missing tables, columns or indexes change no row; they may
    fail like any other. *)

From S2P Require Import Prelude RustStr Topic Model Effects Store Db DbQuery.
Import Topic Model Store Db DbQuery.

Module DbOpen.

Record Disk := mkDisk {
  k_tables : Db;
  (** [messages] of the control database. *)
  k_legacy : Table;
  (** [rows_copied] of the row of [queue_migrations]. *)
  k_migrated : option Z;
  (** The columns of [consumers], if the table exists. *)
  k_columns : option (list string);
  (** [consumers_new], if the table exists. *)
  k_consumers_new : option (gmap string Consumer)
}.

Definition set_tables (d : Db) (k : Disk) : Disk :=
  mkDisk d (k_legacy k) (k_migrated k) (k_columns k) (k_consumers_new k).
Definition set_legacy f (k : Disk) : Disk :=
  mkDisk (k_tables k) (f (k_legacy k)) (k_migrated k) (k_columns k) (k_consumers_new k).
Definition set_migrated n (k : Disk) : Disk :=
  mkDisk (k_tables k) (k_legacy k) (Some n) (k_columns k) (k_consumers_new k).
Definition set_layout columns new (k : Disk) : Disk :=
  mkDisk (k_tables k) (k_legacy k) (k_migrated k) columns new.

(** The columns [CREATE TABLE consumers] makes. *)
Definition CONSUMER_COLUMNS : list string :=
  ["id"; "topic"; "name"; "attributes"; "last_seen_at"; "created_at"].

(** [sqlite_file_path]. *)
Definition sqlite_file_path (url : string) : option string :=
  rest ← strip_prefix "sqlite:" url;
  match strip_prefix "///" rest with
  | Some path => Some ("/" +:+ path)
  | None => if starts_with "//" rest then None else Some rest
  end.

(** The identifier of a legacy message in its shard. *)
Definition migrated_id (i : nat) (legacy_id : string) : string :=
  if message_id_shard legacy_id is Some _ then legacy_id else prefixed_id i legacy_id.

Definition is_processing (_ : string) (m : Message) : bool := is_status Processing m.

(** * The statements on the catalog *)

(** [UPDATE topic_stats SET last_seen_at = ? WHERE last_seen_at IS NULL]. *)
Definition seen_now (now : string) (r : TopicStat) : TopicStat :=
  {| t_accepted := t_accepted r; t_duplicates := t_duplicates r; t_delivered := t_delivered r;
     t_failed := t_failed r; t_dropped := t_dropped r; t_pending := t_pending r;
     t_processing := t_processing r; t_delivery := t_delivery r; t_persistence := t_persistence r;
     t_last_seen := Some (default now (t_last_seen r)); t_configured := t_configured r |}.

(** Demotes topics that older releases promoted. *)
Definition demote (topic : string) (r : TopicStat) : TopicStat :=
  if negb (t_configured r) && bool_decide (t_persistence r = "persistent") &&
     negb (contains "#" topic) && negb (contains "+" topic)
  then {| t_accepted := t_accepted r; t_duplicates := t_duplicates r; t_delivered := t_delivered r;
          t_failed := t_failed r; t_dropped := t_dropped r; t_pending := t_pending r;
          t_processing := t_processing r; t_delivery := t_delivery r; t_persistence := "ephemeral";
          t_last_seen := t_last_seen r; t_configured := t_configured r |}
  else r.

(** A row [INSERT OR IGNORE] makes for a topic of the legacy table or of a
    consumer; the other columns have their defaults. *)
Definition found_stat (accepted delivered failed : Z) : TopicStat :=
  {| t_accepted := accepted; t_duplicates := 0; t_delivered := delivered; t_failed := failed;
     t_dropped := 0; t_pending := 0; t_processing := 0; t_delivery := "broadcast";
     t_persistence := "ephemeral"; t_last_seen := None; t_configured := false |}.

(** [SELECT topic, COUNT..] of the legacy table. *)
Definition legacy_stat (t : Table) (topic : string) : TopicStat :=
  let count p := count_where (λ _ m, bool_decide (m_topic m = topic) && p m) t in
  found_stat (count (λ _, true)) (count (is_status Delivered)) (count (is_status Failed)).

Definition insert_missing (topics : list string) (f : string → TopicStat)
    (stats : gmap string TopicStat) : gmap string TopicStat :=
  foldr (λ topic, partial_alter (λ o, Some (default (f topic) o)) topic) stats topics.

Definition set_depth (pending processing : Z) (r : TopicStat) : TopicStat :=
  {| t_accepted := t_accepted r; t_duplicates := t_duplicates r; t_delivered := t_delivered r;
     t_failed := t_failed r; t_dropped := t_dropped r; t_pending := pending;
     t_processing := processing; t_delivery := t_delivery r; t_persistence := t_persistence r;
     t_last_seen := t_last_seen r; t_configured := t_configured r |}.

Section open.
Context `{Oracle, Chrono, Serde}.

Abbreviation MK := (M Error Disk).

Definition on_tables {A} (m : M Error Db A) : MK A := zoom k_tables set_tables m.

(** A statement that changes no row. *)
Definition touch : MK () := query (λ _, ()).

(** A statement whose failure is ignored. *)
Definition try_touch : MK () := _ ← attempt touch; mret ().

(** A statement on [topic_stats]. *)
Definition catalog (f : gmap string TopicStat → gmap string TopicStat) : MK () :=
  on_tables (stmt (λ s, ((), set_topic_stats f s))).

(** * The shards *)

(** One shard is opened, its table and two indexes are created, and the claims of
    the last run are given up. *)
Definition open_shard (i : nat) : MK () :=
  _ ← touch;
  _ ← touch;
  _ ← touch;
  _ ← touch;
  on_tables (on_shard i (λ t, ((), update_where is_processing to_pending t))).

(** [open_message_shards]. *)
Definition open_message_shards (url : string) : MK () :=
  match sqlite_file_path url with
  | None => fail (Failure "message sharding requires a file SQLite URL")
  | Some _ => for_each (seq 0 MESSAGE_SHARDS) open_shard
  end.

(** One row of [migrate_legacy_messages]. *)
Definition migrate_one (row : string * Message) : MK () :=
  let '(legacy_id, m) := row in
  let i := topic_shard (m_topic m) in
  let id := migrated_id i legacy_id in
  _ ← on_tables (on_shard i (insert_or_ignore id m));
  copied ← on_tables (ask_shard i (λ t, t !! id));
  match copied with
  | Some _ => mret ()
  | None => fail (Failure ("legacy message " +:+ id +:+ " was not copied"))
  end.

(** [migrate_legacy_messages]. *)
Definition migrate_legacy_messages : MK () :=
  _ ← touch;
  complete ← query k_migrated;
  match complete with
  | Some _ => mret ()
  | None =>
      rows ← stmt_at (λ n k, (any_order n (map_to_list (k_legacy k)), k));
      _ ← for_each rows migrate_one;
      _ ← now;
      stmt (λ k, ((), set_migrated (Z.of_nat (length rows)) k))
  end.

(** * The consumers *)

(** [CREATE TABLE IF NOT EXISTS consumers]. *)
Definition create_consumers : MK () :=
  stmt (λ k, ((), if k_columns k is Some _ then k
                  else set_layout (Some CONSUMER_COLUMNS) (k_consumers_new k) k)).

(** [CREATE TABLE consumers_new]. *)
Definition create_consumers_new : MK () :=
  r ← stmt (λ k, if k_consumers_new k is Some _
                 then (Err (Failure "table consumers_new already exists"), k)
                 else (Ok (), set_layout (k_columns k) (Some ∅) k));
  lift r.

(** The row copied from a consumer of the old layout. *)
Definition copied_consumer (c : Consumer) : Consumer :=
  {| c_topic := c_topic c; c_name := ""; c_attributes := "{}"; c_last_seen := c_last_seen c;
     c_created := c_created c |}.

(** [migrate_consumers]. *)
Definition migrate_consumers : MK () :=
  columns ← query (λ k, default [] (k_columns k));
  if bool_decide ("name" ∈ columns) && negb (bool_decide ("downstream_url" ∈ columns)) then mret ()
  else if negb (bool_decide ("downstream_url" ∈ columns)) then mret ()
  else
  _ ← create_consumers_new;
  _ ← stmt (λ k, ((), set_layout (k_columns k) (Some (copied_consumer <$> consumers (k_tables k))) k));
  _ ← stmt (λ k, ((), set_layout None (k_consumers_new k)
        (set_tables (set_consumers (λ _, ∅) (k_tables k)) k)));
  _ ← stmt (λ k, ((), set_layout (Some CONSUMER_COLUMNS) None
        (set_tables (set_consumers (λ _, default ∅ (k_consumers_new k)) (k_tables k)) k)));
  touch.

(** * The catalog *)

(** The topic catalog after the schema steps: from the missing times of last use
    to the queue depths. *)
Definition seed_catalog : MK () :=
  now ← rfc_now;
  _ ← catalog (fmap (seen_now now));
  _ ← catalog (map_imap (λ topic r, Some (demote topic r)));
  _ ← stmt (λ k, ((), set_tables (set_topic_stats (insert_missing
        (map (λ '(_, m), m_topic m) (map_to_list (k_legacy k))) (legacy_stat (k_legacy k)))
        (k_tables k)) k));
  _ ← on_tables (stmt (λ s, ((), set_topic_stats (insert_missing
        (map (λ '(_, c), c_topic c) (map_to_list (consumers s))) (λ _, found_stat 0 0 0)) s)));
  depths ← on_tables load_queue_depths;
  _ ← catalog (fmap (set_depth 0 0));
  rows ← unordered (map_to_list depths);
  for_each rows (λ '(topic, (pending, processing)),
    on_tables (stmt (λ s, ((), upsert_stat topic
      (set_depth pending processing (blank_stat "broadcast" "ephemeral" now false))
      (set_depth pending processing) s)))).

(** The result of [connect]: the caches are loaded or empty. *)
Definition load_caches : MK () :=
  stats ← query (λ k, topic_stats (k_tables k));
  mem (λ k, ((), let s := k_tables k in set_tables
    (mkDb (topic_stats s) (consumers s) (trend_minute s) (map_imap (λ topic r, Some (config_of topic r)) stats)
          (shards s) 0 ∅ ∅) k)).

(** [connect] up to the consumer tables. *)
Definition open_messages (url : string) : MK () :=
  _ ← (if sqlite_file_path url is Some path then if contains "/" path then touch else mret () else mret ());
  _ ← touch;
  _ ← touch;
  _ ← try_touch;
  _ ← touch;
  _ ← try_touch;
  _ ← stmt (λ k, ((), set_legacy (update_where is_processing to_pending) k));
  _ ← open_message_shards url;
  migrate_legacy_messages.

(** The rest of [connect]. *)
Definition open_catalog : MK () :=
  _ ← create_consumers;
  _ ← migrate_consumers;
  _ ← touch;
  _ ← touch;
  _ ← for_each (seq 0 7) (λ _, try_touch);
  _ ← touch;
  _ ← seed_catalog;
  _ ← touch;
  _ ← touch;
  _ ← touch;
  load_caches.

(** [Database::connect]. *)
Definition connect (url : string) : MK () :=
  _ ← open_messages url;
  open_catalog.

End open.

End DbOpen.
