(* ===== verification/DbOpenSpec.v ===== *)
(** What opening the database promises: a restart gives up the claims of the last
    run and nothing else, the catalog and its cache agree with the shards, and
    the message table of older releases is carried over (src/src/db.rs). *)

From S2P Require Import Prelude RustStr Topic Model Effects Store Db DbInv DbSpec DbAdmin DbQuery DbQuerySpec DbOpen.
Import Topic Model Store Db DbInv DbSpec DbAdmin DbQuery DbQuerySpec DbOpen.

Module DbOpenSpec.

(** A loop whose rounds all succeed, by the elements already visited. *)
Lemma for_each_inv {E St A} (I : list A → World St → Prop) (l : list A) (f : A → M E St ()) :
  (∀ done x todo w, l = done ++ x :: todo → I done w → ∃ w', f x w = (Ok (), w') ∧ I (done ++ [x]) w') →
  ∀ w, I [] w → ∃ w', for_each l f w = (Ok (), w') ∧ I l w'.
Proof.
  intros Hf. assert (∀ done todo, l = done ++ todo → ∀ w, I done w →
    ∃ w', for_each todo f w = (Ok (), w') ∧ I l w') as Hgen.
  { intros done todo. revert done. induction todo as [|x todo IH]; intros done Hl w HI.
    - rewrite app_nil_r in Hl. subst done. cbn [for_each]. rewrite run_ret. eauto.
    - cbn [for_each]. rewrite run_bind. destruct (Hf done x todo w Hl HI) as (w1 & -> & HI1).
      apply (IH (done ++ [x])); [by rewrite <-app_assoc|done]. }
  intros. by apply (Hgen [] l eq_refl).
Qed.

(** * Rows across a restart *)

(** A claim of the last run is given up. *)
Definition recover (m : Message) : Message := if is_status Processing m then to_pending m else m.

(** The tables [is_] are recovered, the others as they were. *)
Definition recovered (is_ : list nat) (s s' : Db) : Prop :=
  length (shards s') = length (shards s) ∧
  ∀ i id, shard i s' !! id =
    (λ m, if bool_decide (i ∈ is_) then recover m else m) <$> shard i s !! id.

Lemma recover_row_ok i id m : row_ok i id m → row_ok i id (recover m).
Proof.
  unfold recover, is_status. case_bool_decide as Hs; [|done]. intros (Ht & Hid & Hl & Hd & Ha & Hp).
  unfold row_ok, to_pending. cbn. split_and!; try done.
  all: split; [by intros ?|]; solve [by intros [? [=]] | intros Hx%Hd; congruence].
Qed.

Lemma recover_key m : m_key (recover m) = m_key m.
Proof. unfold recover. by case_match. Qed.

(** What a start-up keeps of a catalog row. *)
Definition keeps_stat (r r' : TopicStat) : Prop :=
  (t_accepted r', t_duplicates r', t_delivered r', t_failed r', t_dropped r') =
    (t_accepted r, t_duplicates r, t_delivered r, t_failed r, t_dropped r) ∧
  t_configured r' = t_configured r ∧ t_delivery r' = t_delivery r ∧
  (t_configured r = true → t_persistence r' = t_persistence r).

Lemma keeps_stat_trans r1 r2 r3 : keeps_stat r1 r2 → keeps_stat r2 r3 → keeps_stat r1 r3.
Proof.
  intros (C1 & F1 & D1 & P1) (C2 & F2 & D2 & P2). split_and!; [congruence..|]. intros Hc.
  rewrite P2, P1; congruence.
Qed.

Lemma keeps_stat_seen now r : keeps_stat r (seen_now now r).
Proof. done. Qed.
Lemma keeps_stat_depth p q r : keeps_stat r (set_depth p q r).
Proof. done. Qed.
Lemma keeps_stat_demote topic r : keeps_stat r (demote topic r).
Proof. unfold demote. destruct (t_configured r) eqn:Hc; [done|]. cbn [negb andb]. case_match; [|done].
  split_and!; try done. simpl. congruence. Qed.

Lemma lookup_insert_missing topics f stats topic r :
  stats !! topic = Some r → insert_missing topics f stats !! topic = Some r.
Proof.
  intros Hr. unfold insert_missing. induction topics as [|t topics IH]; [done|]. cbn [foldr].
  destruct (decide (t = topic)) as [->|Hne]; [by rewrite lookup_partial_alter_eq, IH|].
  by rewrite lookup_partial_alter_ne.
Qed.

Section open.
Context `{Oracle, Chrono, Serde}.

Lemma run_on_tables {A} (m : M Error Db A) (w : World Disk) :
  on_tables m w = let '(r, w') := m (mkWorld (k_tables (st w)) (tick w)) in
    (r, mkWorld (set_tables (st w') (st w)) (tick w')).
Proof. done. Qed.

Context (Hcalm : calm).

Lemma run_touch w : touch w = (Ok (), mkWorld (st w) (S (tick w))).
Proof. unfold touch. rewrite run_query. by rewrite Hcalm. Qed.

Lemma run_try_touch w : try_touch w = (Ok (), mkWorld (st w) (S (tick w))).
Proof. unfold try_touch. rewrite run_bind, run_attempt, run_touch. done. Qed.

Lemma run_catalog f w :
  catalog f w = (Ok (), mkWorld (set_tables (set_topic_stats f (k_tables (st w))) (st w)) (S (tick w))).
Proof. unfold catalog. rewrite run_on_tables, run_stmt. cbn [tick st]. by rewrite Hcalm. Qed.

(** * The shards *)

Lemma open_shards_run url w :
  sqlite_file_path url ≠ None → length (shards (k_tables (st w))) = MESSAGE_SHARDS →
  ∃ s' n, open_message_shards url w = (Ok (), mkWorld (set_tables s' (st w)) n) ∧
    topic_stats s' = topic_stats (k_tables (st w)) ∧ consumers s' = consumers (k_tables (st w)) ∧
    recovered (seq 0 MESSAGE_SHARDS) (k_tables (st w)) s'.
Proof.
  intros Hpath HL. unfold open_message_shards. destruct (sqlite_file_path url); [|done].
  destruct (for_each_inv (E:=Error) (λ done w1, ∃ s', st w1 = set_tables s' (st w) ∧
    topic_stats s' = topic_stats (k_tables (st w)) ∧ consumers s' = consumers (k_tables (st w)) ∧
    recovered done (k_tables (st w)) s') (seq 0 MESSAGE_SHARDS) open_shard) with (w := w)
    as (w' & Hrun & s' & Hst & Hrest).
  - intros done i todo w1 Hsplit (s1 & Hst & Ht & Hc & HL1 & Hs).
    assert (i < MESSAGE_SHARDS)%nat as Hi.
    { assert (i ∈ seq 0 MESSAGE_SHARDS) as Hin by (rewrite Hsplit; set_solver). apply elem_of_seq in Hin. lia. }
    unfold open_shard. do 4 rewrite run_bind, run_touch. rewrite run_on_tables. unfold on_shard. rewrite run_stmt. cbn [tick st].
    rewrite Hcalm, Hst. eexists. split; [done|]. eexists. split; [done|]. cbn [k_tables set_tables st].
    split; [done|]. split; [done|]. split; [simpl; by rewrite length_alter|]. intros j id.
    rewrite shard_set_shard by (rewrite HL1, HL; done).
    assert (i ∉ done) as Hnew.
    { pose proof (NoDup_seq 0 MESSAGE_SHARDS) as Hnd. rewrite Hsplit in Hnd.
      apply NoDup_app in Hnd as (_ & Hd & _). intros Hx. apply (Hd i Hx). left. }
    case_decide as Hij.
    + subst j. rewrite lookup_update_where, Hs. destruct (shard i (k_tables (st w)) !! id); [simpl|done].
      by rewrite bool_decide_eq_false_2, bool_decide_eq_true_2 by set_solver.
    + rewrite Hs. destruct (shard j (k_tables (st w)) !! id); [simpl|done].
      repeat case_bool_decide; try done; exfalso; set_solver.
  - exists (k_tables (st w)). split; [by destruct (st w)|]. do 3 (split; [done|]). intros i id.
    rewrite bool_decide_eq_false_2 by apply not_elem_of_nil. by destruct (shard i (k_tables (st w)) !! id).
  - exists s', (tick w'). split; [|done]. rewrite Hrun, <-Hst. by destruct w'.
Qed.

Lemma recovered_all s s' :
  length (shards s) = MESSAGE_SHARDS → recovered (seq 0 MESSAGE_SHARDS) s s' →
  ∀ i id, shard i s' !! id = recover <$> shard i s !! id.
Proof.
  intros HL [HL' Hs] i id. rewrite Hs. destruct (decide (i < MESSAGE_SHARDS)%nat) as [Hi|Hi].
  - by rewrite bool_decide_eq_true_2 by (apply elem_of_seq; lia).
  - by rewrite shard_beyond by (done || lia).
Qed.

Lemma recovered_ok s s' : db_ok s → recovered (seq 0 MESSAGE_SHARDS) s s' → db_ok s'.
Proof.
  intros [HL Hok] Hrec. pose proof (recovered_all s s' HL Hrec) as Hs. destruct Hrec as [HL' _].
  split; [congruence|]. intros i. destruct (Hok i) as [Hrows Hkeys]. split.
  - intros id m'. rewrite Hs. intros (m & Hm & ->)%fmap_Some. by apply recover_row_ok, Hrows.
  - intros id1 id2 m1 m2 key. rewrite !Hs. intros (n1 & Hn1 & ->)%fmap_Some (n2 & Hn2 & ->)%fmap_Some.
    rewrite !recover_key. by apply Hkeys.
Qed.

(** * The catalog *)

(** The depths of the catalog after the loop of [connect]. *)
Lemma upsert_depths now rows w :
  NoDup rows.*1 →
  ∃ s' n, for_each rows (λ '(topic, (pending, processing)),
      on_tables (stmt (λ s, ((), upsert_stat topic
        (set_depth pending processing (blank_stat "broadcast" "ephemeral" now false))
        (set_depth pending processing) s)))) w = (Ok (), mkWorld (set_tables s' (st w)) n) ∧
    shards s' = shards (k_tables (st w)) ∧ consumers s' = consumers (k_tables (st w)) ∧
    ∀ topic, topic_stats s' !! topic =
      match list_to_map (M := gmap string (Z * Z)) rows !! topic with
      | Some (p, q) => Some (set_depth p q (default (blank_stat "broadcast" "ephemeral" now false)
                                              (topic_stats (k_tables (st w)) !! topic)))
      | None => topic_stats (k_tables (st w)) !! topic
      end.
Proof.
  revert w. induction rows as [|[topic [p q]] rows IH]; intros w Hnd; cbn [for_each].
  { exists (k_tables (st w)), (tick w). split; [by destruct w as [[] ?]|]. done. }
  rewrite fmap_cons in Hnd. apply NoDup_cons in Hnd as [Hnew Hnd].
  rewrite run_bind, run_on_tables, run_stmt. cbn [tick st]. rewrite Hcalm.
  set (w1 := mkWorld (set_tables _ _) _). destruct (IH w1 Hnd) as (s' & n & Hrun & Hsh & Hc & Ht).
  exists s', n. split; [exact Hrun|]. split; [done|]. split; [done|]. intros topic'. rewrite Ht.
  cbn [w1 st k_tables set_tables upsert_stat set_topic_stats topic_stats list_to_map foldr uncurry].
  destruct (decide (topic = topic')) as [<-|Hne].
  - rewrite not_elem_of_list_to_map_1 by done. rewrite lookup_insert_eq, lookup_partial_alter_eq.
    by destruct (topic_stats (k_tables (st w)) !! topic).
  - by rewrite lookup_insert_ne, lookup_partial_alter_ne by done.
Qed.

Context `{!OrderLaws}.

(** The catalog agrees with the shards, and rows that were there are kept. *)
Lemma seed_catalog_run w :
  db_ok (k_tables (st w)) →
  ∃ s' n, seed_catalog w = (Ok (), mkWorld (set_tables s' (st w)) n) ∧
    shards s' = shards (k_tables (st w)) ∧ consumers s' = consumers (k_tables (st w)) ∧
    (∀ topic r, topic_stats s' !! topic = Some r → (t_pending r, t_processing r) = depth topic s') ∧
    (∀ topic, depth topic s' ≠ (0, 0) → is_Some (topic_stats s' !! topic)) ∧
    ∀ topic r, topic_stats (k_tables (st w)) !! topic = Some r →
      ∃ r', topic_stats s' !! topic = Some r' ∧ keeps_stat r r'.
Proof.
  intros Hok. unfold seed_catalog. rewrite run_bind. unfold rfc_now at 1. rewrite run_fmap, run_now.
  set (now := to_rfc3339 _). set (w0 := mkWorld (st w) _).
  rewrite run_bind, run_catalog. rewrite run_bind, run_catalog. rewrite run_bind, run_stmt.
  cbn [tick st]. rewrite Hcalm. rewrite run_bind, run_on_tables, run_stmt. cbn [tick st]. rewrite Hcalm.
  rewrite run_bind, run_on_tables. set (w1 := mkWorld (set_tables _ _) _).
  assert (shards (k_tables (st w1)) = shards (k_tables (st w))) as Hsh1 by done.
  assert (consumers (k_tables (st w1)) = consumers (k_tables (st w))) as Hcon1 by done.
  assert (∀ s, set_tables s (st w1) = set_tables s (st w)) as Hfr by done.
  assert (∀ topic r, topic_stats (k_tables (st w)) !! topic = Some r →
    ∃ r', topic_stats (k_tables (st w1)) !! topic = Some r' ∧ keeps_stat r r') as Hk1.
  { intros topic r Hr. exists (demote topic (seen_now now r)). split; [|eapply keeps_stat_trans;
      [apply keeps_stat_seen|apply keeps_stat_demote]].
    cbn [w1 w0 st k_tables set_tables set_topic_stats topic_stats].
    do 2 apply lookup_insert_missing. by rewrite map_lookup_imap, lookup_fmap, Hr. }
  destruct (queue_depths_run (mkWorld (k_tables (st w1)) (tick w1)) Hcalm) as (depths & w2 & -> & Hst2 & Hd).
  { destruct Hok as [HL Hok]. split; [by cbn [st]; rewrite Hsh1|]. intros i. unfold shard. cbn [st].
    rewrite Hsh1. apply Hok. }
  rewrite run_bind, run_catalog. rewrite run_bind, run_unordered. cbn [st] in *. clearbody w1.
  set (w3 := mkWorld (set_tables _ _) _). set (rows := any_order _ _).
  assert (rows ≡ₚ map_to_list depths) as Hrows by apply any_order_perm.
  assert (NoDup rows.*1) as Hnd by (rewrite Hrows; apply NoDup_fst_map_to_list).
  destruct (upsert_depths now rows (mkWorld (st w3) (S (tick w3))) Hnd) as (s' & n & Hrun & Hsh & Hcon & Ht).
  cbn [st] in Hsh, Hcon, Ht.
  rewrite (list_to_map_proper rows (map_to_list depths)), list_to_map_to_list in Ht by done.
  assert (k_tables (st w3) = set_topic_stats (fmap (set_depth 0 0)) (k_tables (st w1))) as Hw3.
  { unfold w3. cbn. by rewrite Hst2. }
  rewrite Hw3 in Hsh, Hcon, Ht. cbn [set_topic_stats shards consumers topic_stats] in Hsh, Hcon, Ht.
  assert (∀ topic, depths !! topic = as_row (depth topic s')) as Hdep.
  { intros topic. rewrite Hd. unfold depth, shard. by rewrite Hsh. }
  exists s', n. split; [refine (eq_trans Hrun _); by rewrite <-Hfr|].
  split; [congruence|]. split; [congruence|].
  assert (∀ topic, topic_stats s' !! topic = match as_row (depth topic s') with
    | Some (p, q) => Some (set_depth p q (default (blank_stat "broadcast" "ephemeral" now false)
                             (topic_stats (k_tables (st w1)) !! topic)))
    | None => set_depth 0 0 <$> topic_stats (k_tables (st w1)) !! topic end) as Hfin.
  { intros topic. rewrite Ht, Hdep, lookup_fmap.
    destruct (as_row _) as [[p q]|], (topic_stats (k_tables (st w1)) !! topic); done. }
  clear Ht Hdep. split_and!.
  - intros topic r. rewrite Hfin. unfold as_row. destruct (depth topic s') as [p q]. cbn [fst snd].
    destruct (Z.eqb_spec p 0), (Z.eqb_spec q 0); cbn [andb]; try by intros [= <-].
    intros (r1 & _ & ->)%fmap_Some. by subst.
  - intros topic Hne. rewrite Hfin. unfold as_row. destruct (depth topic s') as [p q]. cbn [fst snd].
    destruct (Z.eqb_spec p 0), (Z.eqb_spec q 0); cbn [andb]; subst; [done|by eexists..].
  - intros topic r Hr. destruct (Hk1 topic r Hr) as (r1 & Hr1 & Hk). rewrite Hfin, Hr1.
    destruct (as_row _) as [[p q]|]; (eexists; split; [done|]); (eapply keeps_stat_trans; [done|]);
      apply keeps_stat_depth.
Qed.

(** What the database is after the catalog was opened over the tables of [s]. *)
Definition opened (s s' : Db) : Prop :=
  shards s' = shards s ∧ consumers s' = consumers s ∧
  (∀ topic, topic_cache s' !! topic = config_of topic <$> topic_stats s' !! topic) ∧
  (∀ topic r, topic_stats s' !! topic = Some r → (t_pending r, t_processing r) = depth topic s') ∧
  (∀ topic, depth topic s' ≠ (0, 0) → is_Some (topic_stats s' !! topic)) ∧
  (∀ topic r, topic_stats s !! topic = Some r → ∃ r', topic_stats s' !! topic = Some r' ∧ keeps_stat r r') ∧
  cursor s' = 0 ∧ stats_delta s' = ∅ ∧ trend_delta s' = ∅.

(** The layout of the consumer table needs no migration. *)
Definition current_layout (k : Disk) : Prop := "downstream_url" ∉ default [] (k_columns k).

Lemma run_try_touches l w :
  ∃ n, for_each l (λ _ : nat, try_touch) w = (Ok (), mkWorld (st w) n).
Proof.
  revert w. induction l as [|x l IH]; intros w; cbn [for_each]; [exists (tick w); by destruct w|].
  rewrite run_bind, run_try_touch. apply (IH (mkWorld (st w) (S (tick w)))).
Qed.

Lemma open_catalog_run w :
  db_ok (k_tables (st w)) → current_layout (st w) →
  ∃ w', open_catalog w = (Ok (), w') ∧ k_migrated (st w') = k_migrated (st w) ∧
    opened (k_tables (st w)) (k_tables (st w')).
Proof.
  intros Hok Hlay. unfold open_catalog, create_consumers. rewrite run_bind, run_stmt, Hcalm.
  set (w1 := mkWorld _ (S (tick w))).
  assert (k_tables (st w1) = k_tables (st w)) as Ht1 by (unfold w1; cbn; by destruct (k_columns (st w))).
  assert (k_migrated (st w1) = k_migrated (st w)) as Hm1 by (unfold w1; cbn; by destruct (k_columns (st w))).
  assert (current_layout (st w1)) as Hlay1.
  { unfold w1, current_layout in *. cbn. destruct (k_columns (st w)) eqn:Hcols; [by rewrite Hcols|].
    simpl. set_solver. }
  clearbody w1. unfold migrate_consumers. rewrite run_bind, run_bind, run_query, Hcalm.
  unfold current_layout in Hlay1. rewrite (bool_decide_eq_false_2 ("downstream_url" ∈ _)) by done.
  cbn [negb]. rewrite andb_true_r.
  set (w2 := mkWorld (st w1) (S (tick w1))).
  assert ((if bool_decide ("name" ∈ default [] (k_columns (st w1))) then mret ()
           else mret () : M Error Disk ()) w2 = (Ok (), w2)) as -> by by case_match.
  do 2 rewrite run_bind, run_touch. rewrite run_bind.
  match goal with |- context [for_each ?l _ ?w] => destruct (run_try_touches l w) as [n ->] end.
  rewrite run_bind, run_touch, run_bind. cbn [st w2]. set (w3 := mkWorld (st w1) _).
  destruct (seed_catalog_run w3) as (s' & n' & -> & Hsh & Hcon & Hdep & Hall & Hkeep);
    [by unfold w3; cbn [st]; rewrite Ht1|].
  do 3 rewrite run_bind, run_touch. unfold load_caches. rewrite run_bind, run_query, Hcalm, run_mem.
  eexists. split; [done|]. split; [exact Hm1|]. cbn [st w3 set_tables k_tables] in *. rewrite Ht1 in *.
  split_and!; try done. intros topic. cbn [topic_cache topic_stats]. rewrite map_lookup_imap.
  by destruct (topic_stats s' !! topic).
Qed.

(** Up to the migration the claims are given up. *)
Lemma open_messages_run url w :
  sqlite_file_path url ≠ None → length (shards (k_tables (st w))) = MESSAGE_SHARDS →
  ∃ s' n, open_messages url w = migrate_legacy_messages
      (mkWorld (set_tables s' (set_legacy (update_where is_processing to_pending) (st w))) n) ∧
    topic_stats s' = topic_stats (k_tables (st w)) ∧ consumers s' = consumers (k_tables (st w)) ∧
    recovered (seq 0 MESSAGE_SHARDS) (k_tables (st w)) s'.
Proof.
  intros Hpath HL. unfold open_messages. rewrite run_bind.
  assert (∃ n, (if sqlite_file_path url is Some path then if contains "/" path then touch else mret () else mret ())
    w = (Ok (), mkWorld (st w) n)) as [n ->].
  { destruct (sqlite_file_path url) as [path|]; [|done]. destruct (contains "/" path);
      [rewrite run_touch; by eexists|exists (tick w); by destruct w]. }
  do 2 rewrite run_bind, run_touch. rewrite run_bind, run_try_touch, run_bind, run_touch.
  rewrite run_bind, run_try_touch, run_bind, run_stmt. cbn [tick]. rewrite Hcalm, run_bind. cbn [st].
  set (w1 := mkWorld _ _). destruct (open_shards_run url w1 Hpath HL) as (s' & n' & -> & Hrest).
  exists s', n'. by split.
Qed.

(** Reopening the files of the current layout. *)
Lemma connect_run url w :
  sqlite_file_path url ≠ None → db_ok (k_tables (st w)) → is_Some (k_migrated (st w)) →
  current_layout (st w) →
  ∃ w', connect url w = (Ok (), w') ∧ let s := k_tables (st w) in let s' := k_tables (st w') in
    db_ok s' ∧ (∀ i id, shard i s' !! id = recover <$> shard i s !! id) ∧ consumers s' = consumers s ∧
    (∀ topic, topic_cache s' !! topic = config_of topic <$> topic_stats s' !! topic) ∧
    (∀ topic r, topic_stats s' !! topic = Some r → (t_pending r, t_processing r) = depth topic s') ∧
    (∀ topic r, topic_stats s !! topic = Some r → ∃ r', topic_stats s' !! topic = Some r' ∧ keeps_stat r r').
Proof.
  intros Hpath Hok [n Hmig] Hlay. unfold connect. rewrite run_bind.
  destruct (open_messages_run url w Hpath (proj1 Hok)) as (s1 & n1 & -> & Ht1 & Hc1 & Hrec).
  unfold migrate_legacy_messages. rewrite run_bind, run_touch, run_bind, run_query. cbn [tick st].
  rewrite Hcalm. cbn [k_migrated set_tables set_legacy]. rewrite Hmig, run_ret.
  set (w1 := mkWorld _ _). destruct (open_catalog_run w1) as (w' & Hrun & _ & Hop);
    [by eapply recovered_ok|done|]. exists w'. split; [done|].
  destruct Hop as (Hsh & Hc & Hcache & Hdep & _ & Hkeep & _).
  cbn [w1 st k_tables set_tables] in *. rewrite Ht1 in Hkeep.
  pose proof (recovered_ok _ _ Hok Hrec) as [HL1 Hok1]. split; [split|split; [|split]].
  - by rewrite Hsh.
  - intros i. unfold shard. rewrite Hsh. apply Hok1.
  - intros i id. unfold shard at 1. rewrite Hsh. by apply (recovered_all _ _ (proj1 Hok) Hrec).
  - congruence.
  - by split_and!.
Qed.

(** C20: A restart loses nothing: reopening a well-formed database without storage
    faults succeeds, keeps every message as it was but for the claims of the last
    run, which are pending again with their leases gone, keeps the consumers, the
    counters and every configured topic, and leaves a catalog whose depths are
    those of the shards and a configuration cache equal to the catalog. *)
Theorem restart_recovers url w :
  sqlite_file_path url ≠ None → db_ok (k_tables (st w)) → is_Some (k_migrated (st w)) →
  current_layout (st w) →
  ∃ w', connect url w = (Ok (), w') ∧ let s := k_tables (st w) in let s' := k_tables (st w') in
    db_ok s' ∧ (∀ i id, shard i s' !! id = recover <$> shard i s !! id) ∧ consumers s' = consumers s ∧
    (∀ topic, topic_cache s' !! topic = config_of topic <$> topic_stats s' !! topic) ∧
    (∀ topic r, topic_stats s' !! topic = Some r → (t_pending r, t_processing r) = depth topic s') ∧
    (∀ topic r, topic_stats s !! topic = Some r → ∃ r', topic_stats s' !! topic = Some r' ∧ keeps_stat r r').
Proof. apply connect_run. Qed.

(** * The migration *)

(** Where a legacy row goes. *)
Definition target (row : string * Message) : nat * string :=
  let i := topic_shard (m_topic row.2) in (i, migrated_id i row.1).

(** A message table of an older release: rows in order, identifiers that carry no
    shard or the right one, unique keys, and no two rows with the same target. *)
Definition legacy_ok (t : Table) : Prop :=
  (∀ id m, t !! id = Some m → row_ok (target (id, m)).1 (target (id, m)).2 m) ∧
  (∀ id1 id2 m1 m2, t !! id1 = Some m1 → t !! id2 = Some m2 →
     target (id1, m1) = target (id2, m2) ∨ (∃ key, m_key m1 = Some key ∧ m_key m2 = Some key) → id1 = id2).

(** The shards hold the rows [rows] and nothing else. *)
Definition holds_rows (rows : list (string * Message)) (s : Db) : Prop :=
  length (shards s) = MESSAGE_SHARDS ∧
  ∀ i id m, shard i s !! id = Some m ↔ ∃ row, row ∈ rows ∧ row.2 = m ∧ target row = (i, id).

Lemma migrate_one_run t done row w :
  legacy_ok t → (∀ x, x ∈ row :: done → t !! x.1 = Some x.2) → row.1 ∉ done.*1 →
  holds_rows done (k_tables (st w)) →
  ∃ s' n, migrate_one row w = (Ok (), mkWorld (set_tables s' (st w)) n) ∧
    topic_stats s' = topic_stats (k_tables (st w)) ∧ consumers s' = consumers (k_tables (st w)) ∧
    holds_rows (done ++ [row]) s'.
Proof.
  intros [Hrows Hinj] Hin Hnew [HL Hs]. destruct row as [id m]. unfold migrate_one.
  set (i := topic_shard (m_topic m)). set (mid := migrated_id i id).
  assert (t !! id = Some m) as Hm by (apply (Hin (id, m)); left).
  assert (∀ x, x ∈ done → target x ≠ target (id, m) ∧
    ¬ ∃ key, m_key x.2 = Some key ∧ m_key m = Some key) as Hother.
  { intros [id' m'] Hx. assert (t !! id' = Some m') as Hm' by (apply (Hin (id', m')); by right).
    assert (id' ≠ id). { intros ->. apply Hnew. apply list_elem_of_fmap. by exists (id, m'). }
    split; [intros Heq|intros Heq]; by destruct (Hinj id' id m' m Hm' Hm); [auto|..]. }
  assert (shard i (k_tables (st w)) !! mid = None) as Hfree.
  { destruct (shard i (k_tables (st w)) !! mid) as [m0|] eqn:Hm0; [|done]. exfalso.
    apply Hs in Hm0 as (x & Hx & _ & Ht). destruct (Hother x Hx) as [Hne _]. by apply Hne. }
  assert (key_taken (m_key m) (shard i (k_tables (st w))) = false) as Hkey.
  { destruct (m_key m) as [key|] eqn:Hk; [|done]. apply not_true_is_false.
    intros (id0 & m0 & Hm0 & Hk0)%key_taken_true. apply Hs in Hm0 as (x & Hx & <- & _).
    destruct (Hother x Hx) as [_ []]. eauto. }
  assert (insert_or_ignore mid m (shard i (k_tables (st w))) =
    (true, <[mid := m]> (shard i (k_tables (st w))))) as Hins.
  { unfold insert_or_ignore. rewrite Hfree, Hkey, bool_decide_eq_false_2; [done|]. by intros [? ?]. }
  assert (i < length (shards (k_tables (st w))))%nat as Hi by (rewrite HL; apply topic_shard_bound).
  rewrite run_bind, run_on_tables. unfold on_shard. rewrite run_stmt. cbn [tick st]. rewrite Hcalm, Hins.
  rewrite run_bind, run_on_tables. unfold ask_shard. rewrite run_query. cbn [tick st k_tables set_tables].
  rewrite Hcalm. rewrite shard_set_shard, decide_True, lookup_insert_eq by done.
  eexists _, _. split; [done|]. split; [done|]. split; [done|]. split; [simpl; by rewrite length_alter|].
  intros j id' m'. cbn [st]. rewrite shard_set_shard by done. case_decide as Hij.
  - subst j. destruct (decide (id' = mid)) as [->|Hne].
    + rewrite lookup_insert_eq. split.
      * intros [= <-]. exists (id, m). split; [set_solver|done].
      * intros (x & [Hx|Hx]%elem_of_app & <- & Ht); [by destruct (Hother x Hx)|].
        by apply list_elem_of_singleton in Hx as ->.
    + rewrite lookup_insert_ne, Hs by done. split; intros (x & Hx & Hm' & Ht); exists x; split_and!; try done.
      * set_solver.
      * apply elem_of_app in Hx as [Hx|Hx]; [done|]. apply list_elem_of_singleton in Hx as ->.
        exfalso. apply Hne. by injection Ht.
  - rewrite Hs. split; intros (x & Hx & Hm' & Ht); exists x; split_and!; try done.
    * set_solver.
    * apply elem_of_app in Hx as [Hx|Hx]; [done|]. apply list_elem_of_singleton in Hx as ->.
      exfalso. apply Hij. by injection Ht.
Qed.

Lemma target_recover id m : target (id, recover m) = target (id, m).
Proof. unfold target, recover. by destruct (is_status Processing m). Qed.

Lemma lookup_recovered_legacy t id : update_where is_processing to_pending t !! id = recover <$> t !! id.
Proof. by rewrite lookup_update_where. Qed.

Lemma legacy_ok_recover t : legacy_ok t → legacy_ok (update_where is_processing to_pending t).
Proof.
  intros [Hrows Hinj]. split.
  - intros id m'. rewrite lookup_recovered_legacy. intros (m & Hm & ->)%fmap_Some.
    rewrite target_recover. by apply recover_row_ok, Hrows.
  - intros id1 id2 m1' m2'. rewrite !lookup_recovered_legacy.
    intros (m1 & Hm1 & ->)%fmap_Some (m2 & Hm2 & ->)%fmap_Some. rewrite !target_recover, !recover_key.
    by apply Hinj.
Qed.

Lemma holds_rows_ok t rows s :
  legacy_ok t → (∀ x, x ∈ rows → t !! x.1 = Some x.2) → holds_rows rows s → db_ok s.
Proof.
  intros [Hrows Hinj] Hin [HL Hs]. split; [done|]. intros i. split.
  - intros id m ([id0 m0] & Hx & <- & Ht)%Hs. pose proof (Hrows id0 m0 (Hin _ Hx)) as Hr. by rewrite Ht in Hr.
  - intros id1 id2 m1 m2 key ([x1 n1] & Hx1 & <- & Ht1)%Hs ([x2 n2] & Hx2 & <- & Ht2)%Hs Hk1 Hk2.
    assert (x1 = x2) as <- by (eapply Hinj; [apply (Hin _ Hx1)|apply (Hin _ Hx2)|right; by exists key]).
    pose proof (Hin _ Hx1) as H1'. pose proof (Hin _ Hx2) as H2'. cbn in H1', H2'. congruence.
Qed.

Lemma migrate_run w :
  k_migrated (st w) = None → legacy_ok (k_legacy (st w)) → holds_rows [] (k_tables (st w)) →
  ∃ rows s' n, migrate_legacy_messages w =
      (Ok (), mkWorld (set_migrated (Z.of_nat (length rows)) (set_tables s' (st w))) n) ∧
    rows ≡ₚ map_to_list (k_legacy (st w)) ∧ holds_rows rows s' ∧
    topic_stats s' = topic_stats (k_tables (st w)) ∧ consumers s' = consumers (k_tables (st w)).
Proof.
  intros Hmig Hleg Hempty. unfold migrate_legacy_messages. rewrite run_bind, run_touch, run_bind, run_query.
  cbn [tick st]. rewrite Hcalm, Hmig, run_bind, run_stmt_at. cbn [tick st]. rewrite Hcalm.
  set (rows := any_order _ _). assert (rows ≡ₚ map_to_list (k_legacy (st w))) as Hrows by apply any_order_perm.
  assert (∀ x, x ∈ rows → k_legacy (st w) !! x.1 = Some x.2) as Hin.
  { intros x. by rewrite Hrows, elem_of_map_to_list'. }
  assert (NoDup rows.*1) as Hnd by (rewrite Hrows; apply NoDup_fst_map_to_list).
  rewrite run_bind. set (w1 := mkWorld (st w) _).
  destruct (for_each_inv (E:=Error) (λ done w2, ∃ s', st w2 = set_tables s' (st w) ∧ holds_rows done s' ∧
    topic_stats s' = topic_stats (k_tables (st w)) ∧ consumers s' = consumers (k_tables (st w)))
    rows migrate_one) with (w := w1) as (w2 & -> & s' & Hst & Hh & Ht & Hc).
  - intros done x todo w2 Hsplit (s2 & Hst & Hh & Ht & Hc).
    destruct (migrate_one_run (k_legacy (st w)) done x w2) as (s' & n & Hrun & Ht' & Hc' & Hh').
    + done.
    + intros y Hy. apply Hin. rewrite Hsplit. set_solver.
    + rewrite Hsplit, fmap_app, fmap_cons in Hnd. apply NoDup_app in Hnd as (_ & Hd & _).
      intros Hx. apply (Hd _ Hx). left.
    + by rewrite Hst.
    + eexists. split; [exact Hrun|]. exists s'. rewrite Hst in *. cbn [k_tables set_tables] in *.
      split; [done|]. split; [done|]. split; congruence.
  - exists (k_tables (st w)). split; [by destruct (st w)|]. done.
  - rewrite run_bind, run_now, run_stmt. cbn [tick st]. rewrite Hcalm, Hst. by eexists rows, s', _.
Qed.

(** The migration to shards is complete: opening a database of a release
    without shards copies every message, with its claim given up, under an
    identifier that leads back to it into the shard of its topic, puts nothing
    else there, leaves a well-formed queue and records the migration. *)
Theorem migration_complete url w :
  sqlite_file_path url ≠ None → k_migrated (st w) = None → legacy_ok (k_legacy (st w)) →
  shards (k_tables (st w)) = replicate MESSAGE_SHARDS ∅ → current_layout (st w) →
  ∃ w', connect url w = (Ok (), w') ∧ let s' := k_tables (st w') in
    db_ok s' ∧ k_migrated (st w') = Some (Z.of_nat (size (k_legacy (st w)))) ∧
    (∀ id m, k_legacy (st w) !! id = Some m →
       let i := topic_shard (m_topic m) in shard i s' !! migrated_id i id = Some (recover m)) ∧
    (∀ i id m', shard i s' !! id = Some m' → ∃ legacy_id m, k_legacy (st w) !! legacy_id = Some m ∧
       m' = recover m ∧ i = topic_shard (m_topic m) ∧ id = migrated_id i legacy_id).
Proof.
  intros Hpath Hmig Hleg Hsh Hlay. unfold connect. rewrite run_bind.
  destruct (open_messages_run url w Hpath) as (s1 & n1 & -> & _ & _ & HL1 & Hrec).
  { by rewrite Hsh. }
  assert (holds_rows [] s1) as Hempty.
  { split; [by rewrite HL1, Hsh|]. intros i id m. rewrite Hrec. unfold shard. rewrite Hsh.
    assert (replicate MESSAGE_SHARDS (∅ : Table) !!! i = ∅) as ->.
    { rewrite list_lookup_total_alt. destruct (_ !! i) as [t|] eqn:Ht; [|done].
      by apply lookup_replicate in Ht as [-> _]. }
    split; [done|]. by intros (x & Hx%elem_of_nil & _). }
  set (w1 := mkWorld _ _). pose proof (legacy_ok_recover _ Hleg) as Hleg'.
  destruct (migrate_run w1 Hmig Hleg' Hempty) as (rows & s2 & n2 & -> & Hrows & Hh & _ & _).
  set (t := update_where _ _ _) in *. set (w2 := mkWorld _ _).
  assert (∀ x, x ∈ rows ↔ recover <$> k_legacy (st w) !! x.1 = Some x.2) as Hin.
  { intros x. rewrite Hrows, elem_of_map_to_list'. cbn [w1 st k_legacy set_tables set_legacy].
    by rewrite lookup_recovered_legacy. }
  assert (db_ok s2) as Hok2.
  { eapply (holds_rows_ok t); [done| |done]. intros x Hx%Hin. unfold t. by rewrite lookup_recovered_legacy. }
  destruct (open_catalog_run w2 Hok2 Hlay) as (w' & Hrun & Hm' & Hsh' & _).
  exists w'. split; [done|]. cbn [w2 st k_tables set_migrated set_tables] in Hsh'.
  assert (∀ i, shard i (k_tables (st w')) = shard i s2) as Hs' by (intros i; unfold shard; by rewrite Hsh').
  destruct Hh as [HL2 Hh]. split; [|split; [|split]].
  - split; [by rewrite Hsh'|]. intros i. rewrite Hs'. apply Hok2.
  - rewrite Hm'. cbn [w2 st k_migrated set_migrated]. do 2 f_equal. rewrite Hrows.
    cbn [w1 st k_legacy set_tables set_legacy]. rewrite length_map_to_list.
    rewrite <-(map_size_fmap recover (k_legacy (st w))). f_equal. apply map_eq. intros id.
    by rewrite lookup_recovered_legacy, lookup_fmap.
  - intros id m Hm. cbv zeta. rewrite Hs'. apply Hh. exists (id, recover m). split; [apply Hin; cbn; by rewrite Hm|].
    split; [done|]. by rewrite target_recover.
  - intros i id m'. rewrite Hs', Hh. intros ([x m1] & (m & Hm & Heq)%Hin%fmap_Some & <- & Ht). cbn in Hm, Heq.
    subst m1. rewrite target_recover in Ht. injection Ht as <- <-. by exists x, m.
Qed.

End open.

(** * An interrupted migration of the consumers *)

Section stuck.
Context `{Oracle, Chrono, Serde}.

(** The old consumer table together with a half-made new one. *)
Definition stuck (k : Disk) : Prop :=
  "downstream_url" ∈ default [] (k_columns k) ∧ is_Some (k_consumers_new k).

Definition same_layout (k k' : Disk) : Prop :=
  k_columns k' = k_columns k ∧ k_consumers_new k' = k_consumers_new k.

#[local] Instance same_layout_preorder : PreOrder same_layout.
Proof. split; [done|]. unfold same_layout. intros k1 k2 k3. intuition congruence. Qed.

Lemma same_layout_on_tables {A} (m : M Error Db A) : Keeps same_layout (on_tables m).
Proof. intros w. rewrite run_on_tables. by destruct (m _). Qed.

Lemma same_layout_open_messages url : Keeps same_layout (open_messages url).
Proof.
  unfold open_messages, open_message_shards, open_shard, migrate_legacy_messages, migrate_one, try_touch, touch.
  repeat first [keeps_step | apply same_layout_on_tables | done].
Qed.


End stuck.

(** * The properties in the demonstration environment *)

Definition demo_disk (s : Db) : Disk := mkDisk s ∅ (Some 0) (Some CONSUMER_COLUMNS) None.

Lemma restart_recovers_witness :
  ∃ w', connect (H := demo_oracle) (H0 := demo_chrono) "sqlite:queue.db" (mkWorld (demo_disk (st demo2)) 0) =
      (Ok (), w') ∧
    shard 1 (k_tables (st w')) !! "s01-x" = recover <$> shard 1 (st demo2) !! "s01-x".
Proof.
  destruct (restart_recovers (H := demo_oracle) (H0 := demo_chrono) demo_calm (H2 := demo_order)
    "sqlite:queue.db" (mkWorld (demo_disk (st demo2)) 0)) as (w' & Hrun & _ & Hs & _).
  - by vm_compute.
  - exact demo2_ok.
  - by eexists.
  - unfold current_layout. simpl. set_solver.
  - exists w'. split; [exact Hrun|]. apply Hs.
Defined.

(** A message claimed under an older release. *)
Definition demo_legacy : Table := {["old" := to_processing "lease" "later" demo_message]}.

Lemma demo_legacy_ok : legacy_ok demo_legacy.
Proof.
  split.
  - unfold demo_legacy. intros id m [<- <-]%lookup_singleton_Some. unfold row_ok. split; [by vm_compute|].
    split; [left; by vm_compute|]. cbn. split_and!; try lia; split; try done; by eexists || by intros [? [=]].
  - unfold demo_legacy. intros id1 id2 m1 m2 [<- _]%lookup_singleton_Some [<- _]%lookup_singleton_Some. done.
Qed.

Lemma migration_complete_witness :
  ∃ w', connect (H := demo_oracle) (H0 := demo_chrono) "sqlite:///data/queue.db"
      (mkWorld (mkDisk empty_db demo_legacy None (Some CONSUMER_COLUMNS) None) 0) = (Ok (), w') ∧
    k_migrated (st w') = Some 1.
Proof.
  destruct (migration_complete (H := demo_oracle) (H0 := demo_chrono) demo_calm (H2 := demo_order)
    "sqlite:///data/queue.db" (mkWorld (mkDisk empty_db demo_legacy None (Some CONSUMER_COLUMNS) None) 0))
    as (w' & Hrun & _ & Hm & _).
  - by vm_compute.
  - done.
  - exact demo_legacy_ok.
  - done.
  - unfold current_layout. simpl. set_solver.
  - exists w'. split; [exact Hrun|]. exact Hm.
Defined.

(** A storage that fails one statement, the copy of the consumers. *)
Definition once_oracle : Oracle := {|
  clock n := clock (Oracle := demo_oracle) n;
  uuid n := uuid (Oracle := demo_oracle) n;
  fault n := if (n =? 91)%nat then Some "disk I/O error" else None;
  any_order A _ l := l
|}.

(** The first start of the new release over the old layout. *)
Definition demo_interrupted : World Disk :=
  (connect (H := once_oracle) (H0 := demo_chrono) "sqlite:queue.db"
     (mkWorld (mkDisk empty_db ∅ (Some 0) (Some ["id"; "topic"; "downstream_url"]) None) 0)).2.


End DbOpenSpec.
