(* ===== verification/Writer.v ===== *)
(** The queue writer: src/src/writer.rs.

    A publish is admitted by [enqueue], which consults the recently seen
    idempotency keys of the topic's shard and puts a command on the shard's
    channel; one worker per shard takes commands off the channel in batches and
    commits them to the queue database, retrying until the storage accepts. *)

From S2P Require Import Prelude RustStr Topic Model Effects Store Db DbQuery.
Import Topic Model Store Db DbQuery.

Module Writer.

(** * Recently seen idempotency keys *)

(** [RecentIds]. *)
Record RecentIds := mkRecent {
  values : gmap string string;
  order : list string;
  capacity : nat
}.

(** [RecentIds::new]. *)
Definition recent_new (capacity : nat) : RecentIds := mkRecent ∅ [] capacity.

(** [RecentIds::get]. *)
Definition recent_get (key : string) (r : RecentIds) : option string := values r !! key.

(** The loop of [RecentIds::insert] that makes room.  Each round drops the oldest
    key, so the length of [order] bounds the rounds; [None] stands for a loop
    that spins for ever with nothing left to drop. *)
Fixpoint make_room (fuel : nat) (r : RecentIds) : option RecentIds :=
  if (size (values r) <? capacity r)%nat then Some r
  else match fuel with
       | O => None
       | S fuel =>
           make_room fuel
             (match order r with
              | oldest :: rest => mkRecent (delete oldest (values r)) rest (capacity r)
              | [] => r
              end)
       end.

(** [RecentIds::insert]. *)
Definition recent_insert (key id : string) (r : RecentIds) : option RecentIds :=
  match values r !! key with
  | Some _ => Some (mkRecent (<[key := id]> (values r)) (order r) (capacity r))
  | None =>
      r ← make_room (length (order r)) r;
      Some (mkRecent (<[key := id]> (values r)) (order r ++ [key]) (capacity r))
  end.

(** [RecentIds::remove]. *)
Definition recent_remove (key : string) (r : RecentIds) : RecentIds :=
  mkRecent (delete key (values r)) (filter (λ candidate, candidate ≠ key) (order r)) (capacity r).

(** * Notifications *)

(** [QueueNotifications]: the generation of each topic's channel and of the
    channel shared by wildcard filters, where they exist. *)
Record QueueNotifications := mkNotes { topics : gmap string Z; global : option Z }.

(** [QueueNotifications::subscribe]: the generation the receiver has seen. *)
Definition notes_subscribe (topic : string) (n : QueueNotifications) : Z * QueueNotifications :=
  if is_wildcard_filter topic
  then let g := default 0 (global n) in (g, mkNotes (topics n) (Some g))
  else let g := default 0 (topics n !! topic) in (g, mkNotes (<[topic := g]> (topics n)) (global n)).

(** [QueueNotifications::notify]. *)
Definition notify (topic : string) (n : QueueNotifications) : QueueNotifications :=
  let next g := wrap_u64 (g + 1) in
  mkNotes (alter next topic (topics n)) (next <$> global n).

(** * Commands and channels *)

(** [WriteCommand]; a number names the channel of the response. *)
Inductive WriteCommand :=
  | Enqueue (input : EnqueueInput)
  | Delivered (id lease : string) (response : nat)
  | Shutdown (response : nat).

(** [QueueWriter]: a channel is [None] once its receiver is gone. *)
Record QueueWriter := mkWriter {
  recent_ids : list RecentIds;
  tx : list (option (list WriteCommand))
}.

(** The sizes [QueueWriter::start] derives from the configured queue size. *)
Definition per_shard_queue (queue_size : Z) : Z := Z.max ((queue_size + 15) / 16) 1.
Definition recent_ids_per_shard (queue_size : Z) : Z :=
  Z.max (Z.min (per_shard_queue queue_size * 4) U64_MAX) 64.

(** Loading the stored keys at start-up. *)
Definition load_recent (recent : list RecentIds) (stored : list (nat * string * string))
    : option (list RecentIds) :=
  foldl (λ acc '(i, key, id),
    recent ← acc; r ← recent !! i; r ← recent_insert key id r; Some (<[i := r]> recent))
    (Some recent) stored.

Section admission.
Context `{Oracle}.

Abbreviation MQ := (M Error QueueWriter).

(** [tx[shard].send(command)]: whether the receiver is still there. *)
Definition send (i : nat) (command : WriteCommand) (w : QueueWriter) : bool * QueueWriter :=
  match tx w !! i with
  | Some (Some queue) =>
      (true, mkWriter (recent_ids w) (<[i := Some (queue ++ [command])]> (tx w)))
  | _ => (false, w)
  end.

(** The look-up of [enqueue] under the lock of the shard's recent keys: the known
    identifier, or nothing after the new one was entered. *)
Definition admit_key (i : nat) (key id : string) : MQ (option string) :=
  found ← mem (λ w, match recent_ids w !! i with
    | None => (Err (Panicked "index out of bounds"), w)
    | Some r =>
        match recent_get key r with
        | Some known => (Ok (Some known), w)
        | None =>
            match recent_insert key id r with
            | Some r => (Ok None, mkWriter (<[i := r]> (recent_ids w)) (tx w))
            | None => (Err (Panicked "the eviction loop does not end"), w)
            end
        end
    end);
  lift found.

(** [QueueWriter::enqueue]. *)
Definition writer_enqueue (idempotency_key : option string) (topic : string) (payload : list Z)
    (attributes : gmap string string) : MQ (string * bool) :=
  let i := topic_shard topic in
  let key := if idempotency_key is Some k then if is_empty k then None else Some k else None in
  id ← new_message_id topic;
  known ← (if key is Some k then admit_key i k id else mret None);
  match known with
  | Some known => mret (known, true)
  | None =>
      sent ← mem (send i (Enqueue {| in_id := id; in_key := key; in_topic := topic;
                                     in_payload := payload; in_attributes := attributes |}));
      if sent : bool then mret (id, false)
      else
      _ ← (if key is Some k
           then mem (λ w, ((), mkWriter (alter (recent_remove k) i (recent_ids w)) (tx w)))
           else mret ());
      fail (Failure "queue writer stopped")
  end.

(** [QueueWriter::delivered] up to the wait for the response. *)
Definition writer_delivered (id lease : string) (response : nat) : MQ () :=
  sent ← mem (send (default 0%nat (message_id_shard id)) (Delivered id lease response));
  if sent : bool then mret () else fail (Failure "queue writer stopped").

(** The first loop of [QueueWriter::shutdown]: the responses to wait for. *)
Definition writer_shutdown (first : nat) : MQ (list nat) :=
  fold_each (seq 0 16) [] (λ waits i,
    sent ← mem (send i (Shutdown (first + i)));
    mret (if sent : bool then waits ++ [(first + i)%nat] else waits)).

(** [QueueWriter::start] up to the spawning of its workers. *)
Definition start (queue_size : Z) : M Error Db QueueWriter :=
  let capacity := recent_ids_per_shard queue_size in
  stored ← recent_idempotency_keys capacity;
  match load_recent (replicate 16 (recent_new (Z.to_nat capacity))) stored with
  | Some recent => mret (mkWriter recent (replicate 16 (Some [])))
  | None => fail (Panicked "index out of bounds")
  end.

End admission.

(** * The worker *)

(** What a worker acts on: the database, the notifications, the responses given
    to acknowledgements and the shutdown responses. *)
Record Worker := mkWorker {
  k_db : Db;
  k_notes : QueueNotifications;
  k_replies : gmap nat (result string bool);
  k_stopped : list nat
}.

(** The further commands of a batch: at most [n] of those that follow, up to a
    shutdown. *)
Fixpoint take_batch (n : nat) (commands : list WriteCommand)
    : list WriteCommand * option nat * list WriteCommand :=
  match n, commands with
  | O, _ | _, [] => ([], None, commands)
  | S _, Shutdown response :: commands => ([], Some response, commands)
  | S n, command :: commands =>
      let '(batch, shutdown, rest) := take_batch n commands in
      (command :: batch, shutdown, rest)
  end.

Definition enqueues (batch : list WriteCommand) : list EnqueueInput :=
  omap (λ c, if c is Enqueue input then Some input else None) batch.

Definition acknowledgements (batch : list WriteCommand) : list (string * string * nat) :=
  omap (λ c, if c is Delivered id lease response then Some (id, lease, response) else None) batch.

(** The message of an [anyhow::Error]. *)
Definition error_text (e : Error) : string :=
  match e with Failure message | Panicked message => message end.

Section worker.
Context `{Oracle, Chrono, Serde}.

(** How many further commands arrive before the deadline of a batch that starts
    at a given moment. *)
Context (arrives : nat → nat).

Abbreviation MW := (M Error Worker).

Definition on_db {A} (m : M Error Db A) : MW A :=
  zoom k_db (λ d k, mkWorker d (k_notes k) (k_replies k) (k_stopped k)) m.

Definition notify_one (topic : string) : MW () :=
  mem (λ k, ((), mkWorker (k_db k) (notify topic (k_notes k)) (k_replies k) (k_stopped k))).

Definition reply (response : nat) (answer : result string bool) : MW () :=
  mem (λ k, ((), mkWorker (k_db k) (k_notes k) (<[response := answer]> (k_replies k)) (k_stopped k))).

Definition stop (response : nat) : MW () :=
  mem (λ k, ((), mkWorker (k_db k) (k_notes k) (k_replies k) (k_stopped k ++ [response]))).

(** The loop that commits a batch: it repeats until the database accepts.  [None]
    stands for a loop that is still failing after [fuel] attempts. *)
Fixpoint persist (fuel : nat) (inputs : list EnqueueInput) : MW (option (list (string * bool))) :=
  match fuel with
  | O => mret None
  | S fuel =>
      attempted ← attempt (on_db (enqueue_batch inputs));
      match attempted with
      | Ok results => mret (Some results)
      | Err _ => persist fuel inputs
      end
  end.

(** The publishes of a batch; whether they were committed. *)
Definition write_enqueues (fuel : nat) (inputs : list EnqueueInput) : MW bool :=
  match inputs with
  | [] => mret true
  | _ =>
      results ← persist fuel inputs;
      match results with
      | None => mret false
      | Some results =>
          _ ← for_each (zip (map in_topic inputs) results) (λ '(topic, result),
                if result.2 : bool then mret () else notify_one topic);
          mret true
      end
  end.

(** The acknowledgements of a batch. *)
Definition write_delivered (acks : list (string * string * nat)) : MW () :=
  match acks with
  | [] => mret ()
  | _ =>
      committed ← attempt (on_db (delivered_batch (map fst acks)));
      match committed with
      | Ok results => for_each (zip acks results) (λ '(ack, result), reply ack.2 (Ok result))
      | Err error => for_each acks (λ ack, reply ack.2 (Err (error_text error)))
      end
  end.

(** [run_writer] on the commands its channel delivers: the commands left unread
    when it stops.  A round takes at least one command, so their number bounds
    the rounds; [None] stands for a commit that never succeeds. *)
Fixpoint run_writer (rounds fuel batch_size : nat) (commands : list WriteCommand)
    : MW (option (list WriteCommand)) :=
  match rounds, commands with
  | O, _ | _, [] => mret (Some commands)
  | S _, Shutdown response :: commands => _ ← stop response; mret (Some commands)
  | S rounds, command :: commands =>
      λ w,
      let '(batch, shutdown, rest) := take_batch (Nat.min (batch_size - 1) (arrives (tick w))) commands in
      let batch := command :: batch in
      (written ← write_enqueues fuel (enqueues batch);
       if negb written then mret None
       else
       _ ← write_delivered (acknowledgements batch);
       match shutdown with
       | Some response => _ ← stop response; mret (Some rest)
       | None => run_writer rounds fuel batch_size rest
       end) w
  end.

End worker.

End Writer.
