(* ===== verification/WriterSpec.v ===== *)
(** What the queue writer of [Writer] promises: the recent keys are a bounded
    first-in first-out map, and admission is idempotent within their window
    (src/src/writer.rs). *)

From S2P Require Import Prelude RustStr Topic Model Effects Store Db DbInv DbSpec DbQuery Writer.
Import Topic Model Store Db DbInv DbSpec DbQuery Writer.

Module WriterSpec.

(** * Recently seen keys *)

(** [order] lists the keys of [values] once each, and there are no more than the
    capacity. *)
Definition recent_ok (r : RecentIds) : Prop :=
  NoDup (order r) ∧ (∀ k, is_Some (values r !! k) ↔ k ∈ order r) ∧
  (length (order r) <= capacity r)%nat.

Lemma recent_size r : recent_ok r → size (values r) = length (order r).
Proof.
  intros (Hnd & Hdom & _). rewrite <-size_dom, <-(size_list_to_set (C := gset string)) by done.
  f_equal. apply set_eq. intros k. by rewrite elem_of_dom, Hdom, elem_of_list_to_set.
Qed.

Lemma recent_new_ok n : recent_ok (recent_new n).
Proof.
  split_and!; [constructor| |simpl; lia]. intros k. simpl. 
  rewrite lookup_empty, elem_of_nil. split; [by intros [? ?]|done].
Qed.

(** Making room drops the oldest key of a full map. *)
Lemma make_room_spec r :
  recent_ok r → (1 <= capacity r)%nat →
  make_room (length (order r)) r = Some
    (if (length (order r) <? capacity r)%nat then r
     else mkRecent (delete (hd "" (order r)) (values r)) (tl (order r)) (capacity r)).
Proof.
  intros Hok Hc. pose proof (recent_size r Hok) as Hs. destruct Hok as (Hnd & Hdom & Hlen).
  destruct (order r) as [|oldest rest] eqn:Ho.
  - cbn [length make_room]. rewrite Hs. simpl. by rewrite (proj2 (Nat.ltb_lt _ _)) by lia.
  - cbn [length] in Hlen, Hs. cbn [length make_room]. rewrite Hs, Ho.
    destruct (Nat.ltb_spec (S (length rest)) (capacity r)) as [|Hge]; [done|].
    assert (size (delete oldest (values r)) = length rest) as Hsd.
    { rewrite map_size_delete_Some by (apply Hdom; left). lia. }
    destruct (length rest) as [|n] eqn:Hr; cbn [make_room values capacity];
      rewrite Hsd, (proj2 (Nat.ltb_lt _ _)) by lia; done.
Qed.

(** Inserting ends, keeps the map well formed, and drops nothing but the oldest
    key of a full map. *)
Lemma recent_insert_spec key id r :
  recent_ok r → (1 <= capacity r)%nat →
  ∃ r', recent_insert key id r = Some r' ∧ recent_ok r' ∧ capacity r' = capacity r ∧
    recent_get key r' = Some id ∧
    order r' = (if decide (key ∈ order r) then order r
                else (if (length (order r) <? capacity r)%nat then order r else tl (order r)) ++ [key]) ∧
    ∀ k, k ∈ order r' → k ≠ key → recent_get k r' = recent_get k r.
Proof.
  intros Hok Hc. pose proof Hok as (Hnd & Hdom & Hlen). unfold recent_insert, recent_get.
  destruct (values r !! key) as [old|] eqn:Hk.
  - assert (key ∈ order r) as Hin by (by apply Hdom; eexists).
    eexists. split; [done|]. cbn [values order capacity]. rewrite decide_True by done.
    rewrite lookup_insert_eq. split; [|split_and!; try done; intros k _ Hne; by rewrite lookup_insert_ne].
    split_and!; [done| |done]. intros k. cbn [values order]. rewrite <-Hdom.
    destruct (decide (k = key)) as [->|Hne]; [rewrite lookup_insert_eq, Hk|by rewrite lookup_insert_ne].
    split; by eexists.
  - assert (key ∉ order r) as Hnin by (intros Hin%Hdom; rewrite Hk in Hin; by destruct Hin).
    rewrite make_room_spec by done. cbn [mbind option_bind]. rewrite decide_False by done.
    destruct (Nat.ltb_spec (length (order r)) (capacity r)) as [Hlt|Hge];
      (eexists; split; [done|]); cbn [values order capacity]; rewrite lookup_insert_eq.
    + split; [|split_and!; try done; intros k _ Hne; by rewrite lookup_insert_ne].
      split_and!; cbn [values order capacity]; [|intros k|rewrite length_app; simpl; lia].
      * apply NoDup_app. split_and!; [done| |apply NoDup_singleton]. set_solver.
      * rewrite lookup_insert_is_Some, Hdom. set_solver.
    + destruct (order r) as [|oldest rest] eqn:Ho; [simpl in Hge; lia|]. cbn [hd tl].
      apply NoDup_cons in Hnd as [Hno Hnd]. cbn [length] in *.
      split; [|split_and!; try done].
      * split_and!; cbn [values order capacity]; [|intros k|rewrite length_app; simpl; lia].
        -- apply NoDup_app. split_and!; [done| |apply NoDup_singleton]. set_solver.
        -- rewrite lookup_insert_is_Some, lookup_delete_is_Some, Hdom. set_solver.
      * intros k Hin Hne. rewrite lookup_insert_ne, lookup_delete_ne by set_solver. done.
Qed.

Lemma recent_remove_ok key r : recent_ok r → recent_ok (recent_remove key r).
Proof.
  intros (Hnd & Hdom & Hlen). split_and!; cbn [recent_remove values order capacity].
  - by apply NoDup_filter.
  - intros k. rewrite lookup_delete_is_Some, list_elem_of_filter, Hdom. naive_solver.
  - etrans; [apply length_filter|done].
Qed.

(** * Admission *)

Lemma alter_insert_same {A} (f : A → A) i x (l : list A) : alter f i (<[i := x]> l) = <[i := f x]> l.
Proof. revert i. induction l as [|y l IH]; intros [|i]; simpl; [done..|]. f_equal. apply IH. Qed.

Inductive AdmissionOp :=
  | AEnqueue (key : option string) (topic : string) (payload : list Z) (attributes : gmap string string)
  | ADelivered (id lease : string) (response : nat)
  | AShutdown (first : nat).

Section admission.
Context `{Oracle}.

Definition admission (op : AdmissionOp) (w : World QueueWriter) : World QueueWriter :=
  match op with
  | AEnqueue key topic payload attributes => (writer_enqueue key topic payload attributes w).2
  | ADelivered id lease response => (writer_delivered id lease response w).2
  | AShutdown first => (writer_shutdown first w).2
  end.

Definition admit_all (ops : list AdmissionOp) (w : World QueueWriter) : World QueueWriter :=
  foldl (λ w op, admission op w) w ops.

(** Whether an operation may enter a key into the recent keys of shard [i]. *)
Definition enters (i : nat) (op : AdmissionOp) : bool :=
  match op with
  | AEnqueue (Some key) topic _ _ => negb (is_empty key) && (topic_shard topic =? i)%nat
  | _ => false
  end.

(** The writer's recent keys are well formed in every shard. *)
Definition writer_ok (s : QueueWriter) : Prop :=
  length (recent_ids s) = MESSAGE_SHARDS ∧
  Forall (λ r, recent_ok r ∧ (1 <= capacity r)%nat) (recent_ids s).

(** [key] is known as [id] in shard [i], with at most [j] newer keys. *)
Definition remembered (i : nat) (key id : string) (j : nat) (s : QueueWriter) : Prop :=
  ∃ r before after, recent_ids s !! i = Some r ∧ recent_get key r = Some id ∧
    order r = before ++ key :: after ∧ (length after <= j)%nat.

Lemma admit_key_spec i key id w :
  writer_ok (st w) → (i < MESSAGE_SHARDS)%nat →
  ∃ r, recent_ids (st w) !! i = Some r ∧ recent_ok r ∧ (1 <= capacity r)%nat ∧
    match recent_get key r with
    | Some known => admit_key i key id w = (Ok (Some known), w)
    | None => ∃ r', recent_insert key id r = Some r' ∧
        admit_key i key id w =
          (Ok None, mkWorld (mkWriter (<[i := r']> (recent_ids (st w))) (tx (st w))) (tick w))
    end.
Proof.
  intros [HL Hall] Hi. destruct (lookup_lt_is_Some_2 (recent_ids (st w)) i) as [r Hr]; [lia|].
  destruct (Forall_lookup_1 _ _ _ _ Hall Hr) as [Hok Hc]. exists r. split_and!; try done.
  unfold admit_key. run. rewrite Hr. destruct (recent_get key r) as [known|] eqn:Hk; run.
  { by destruct w. }
  destruct (recent_insert_spec key id r Hok Hc) as (r' & Hins & _). rewrite Hins. run. by exists r'.
Qed.

(** What an operation does to the recent keys: nothing, or it enters a new key,
    which it takes back when the channel is closed. *)
Definition recent_step (op : AdmissionOp) (s s' : QueueWriter) : Prop :=
  recent_ids s' = recent_ids s ∨
  ∃ i k id r r', enters i op = true ∧ recent_ids s !! i = Some r ∧ recent_get k r = None ∧
    recent_insert k id r = Some r' ∧
    (recent_ids s' = <[i := r']> (recent_ids s) ∨
     recent_ids s' = <[i := recent_remove k r']> (recent_ids s)).

Lemma send_recent i c s : recent_ids (send i c s).2 = recent_ids s.
Proof. unfold send. by destruct (tx s !! i) as [[]|]. Qed.

Lemma admit_recent op w : writer_ok (st w) → recent_step op (st w) (st (admission op w)).
Proof.
  intros Hok. destruct op as [key topic payload attributes|id lease response|first]; cbn [admission].
  - unfold writer_enqueue, new_message_id. run. set (id := prefixed_id _ _).
    set (i := topic_shard topic). set (w1 := mkWorld (st w) (S (tick w))).
    assert (writer_ok (st w1)) as Hok1 by done.
    destruct key as [k|]; [destruct (is_empty k) eqn:Hk|]; run.
    2:{ destruct (admit_key_spec i k id w1 Hok1 (topic_shard_bound topic)) as (r & Hr & Hrok & Hc & Hadm).
        destruct (recent_get k r) as [known|] eqn:Hget; rewrite ?Hadm; [by left|].
        destruct Hadm as (r' & Hins & ->). right. exists i, k, id, r, r'. cbn [enters].
        rewrite Hk. fold i. rewrite Nat.eqb_refl. do 4 (split; [done|]). run.
        set (s1 := mkWriter _ _). pose proof (send_recent i (Enqueue {| in_id := id; in_key := Some k;
          in_topic := topic; in_payload := payload; in_attributes := attributes |}) s1) as Hs.
        destruct (send _ _ s1) as [[] s2]; run; cbn [snd st] in *; [by left|right]. cbn [recent_ids].
        rewrite Hs. unfold s1. cbn [recent_ids]. apply alter_insert_same. }
    all: left; match goal with |- context [send ?j ?c ?s] => pose proof (send_recent j c s) as Hs;
      destruct (send j c s) as [[] s2] end; run; by cbn [snd st] in *.
  - left. unfold writer_delivered. run. pose proof (send_recent (default 0%nat (message_id_shard id))
      (Delivered id lease response) (st w)) as Hs. destruct (send _ _ _) as [[] s2]; run; by cbn [snd st] in *.
  - left. revert w Hok. intros w _. revert w.
    assert (PreOrder (λ s s' : QueueWriter, recent_ids s' = recent_ids s)) by (split; congruence).
    change (Keeps (λ s s' : QueueWriter, recent_ids s' = recent_ids s) (writer_shutdown first)).
    unfold writer_shutdown. repeat keeps_step. apply send_recent.
Qed.

Lemma admit_ok op w : writer_ok (st w) → writer_ok (st (admission op w)).
Proof.
  intros Hok. destruct (admit_recent op w Hok) as [Heq|(i & k & id & r & r' & _ & Hr & _ & Hins & Heq)].
  { unfold writer_ok. by rewrite Heq. }
  destruct Hok as [HL Hall]. destruct (Forall_lookup_1 _ _ _ _ Hall Hr) as [Hrok Hc].
  destruct (recent_insert_spec k id r Hrok Hc) as (r2 & Hins2 & Hok2 & Hc2 & _).
  rewrite Hins in Hins2. injection Hins2 as <-.
  destruct Heq as [Heq|Heq]; unfold writer_ok; rewrite Heq, length_insert; (split; [done|]);
    apply Forall_insert; try done; split; try lia; [done|by apply recent_remove_ok|simpl; lia].
Qed.

(** A remembered key survives an operation while there is room for one more. *)
Lemma admit_remembers op i key id j w :
  writer_ok (st w) → remembered i key id j (st w) →
  (enters i op = true → ∀ r, recent_ids (st w) !! i = Some r → (S (S j) <= capacity r)%nat) →
  remembered i key id (if enters i op then S j else j) (st (admission op w)).
Proof.
  intros Hok (r & before & after & Hr & Hget & Hord & Hj) Hroom.
  assert (∀ j', (j <= j')%nat → recent_ids (st (admission op w)) = recent_ids (st w) →
    remembered i key id j' (st (admission op w))) as Hsame.
  { intros j' Hj' Heq. exists r, before, after. rewrite Heq. split_and!; try done. lia. }
  destruct (admit_recent op w Hok) as [Heq|(i' & k & id' & r1 & r' & Hent & Hr1 & Hnew & Hins & Heq)].
  { apply Hsame; [|done]. destruct (enters i op); lia. }
  assert (i' < length (recent_ids (st w)))%nat as Hi' by by eapply lookup_lt_Some.
  destruct (decide (i' = i)) as [->|Hne]; last first.
  { exists r, before, after. split_and!; [|done|done|destruct (enters i op); lia].
    destruct Heq as [Heq|Heq]; by rewrite Heq, list_lookup_insert_ne. }
  rewrite Hr in Hr1. injection Hr1 as <-. rewrite Hent in *. specialize (Hroom eq_refl r Hr).
  assert (k ≠ key) as Hkey by congruence.
  destruct (Forall_lookup_1 _ _ _ _ (proj2 Hok) Hr) as [Hrok Hc].
  destruct (recent_insert_spec k id' r Hrok Hc) as (r2 & Hins2 & Hok2 & Hc2 & Hget2 & Hord2 & Hothers).
  rewrite Hins in Hins2. injection Hins2 as <-.
  assert (k ∉ order r) as Hk.
  { intros Hin. apply (proj1 (proj2 Hrok)) in Hin. unfold recent_get in Hnew. rewrite Hnew in Hin.
    by destruct Hin. }
  rewrite decide_False in Hord2 by done.
  assert (∃ before', order r' = before' ++ key :: (after ++ [k])) as [before' Hord'].
  { rewrite Hord2, Hord. destruct (Nat.ltb_spec (length (before ++ key :: after)) (capacity r)) as [|Hge].
    - exists before. by rewrite <-app_assoc.
    - destruct before as [|b before]; [|exists before; simpl; by rewrite <-app_assoc].
      simpl in Hge. lia. }
  assert (recent_get key r' = Some id) as Hget'.
  { rewrite Hothers; [done| |done]. rewrite Hord'. set_solver. }
  destruct Heq as [Heq|Heq].
  - exists r', before', (after ++ [k]). rewrite Heq, list_lookup_insert_eq by done.
    split_and!; [done..|]. rewrite length_app. simpl. lia.
  - exists (recent_remove k r'), (filter (λ c, c ≠ k) before'), (filter (λ c, c ≠ k) (after ++ [k])).
    rewrite Heq, list_lookup_insert_eq by done. split; [done|]. split.
    { unfold recent_get, recent_remove. cbn [values]. by rewrite lookup_delete_ne. }
    split; [|etrans; [apply length_filter|rewrite length_app; simpl; lia]].
    cbn [recent_remove order]. rewrite Hord', filter_app, filter_cons_True by done. done.
Qed.

Lemma admit_capacity op i r w :
  writer_ok (st w) → recent_ids (st w) !! i = Some r →
  ∃ r', recent_ids (st (admission op w)) !! i = Some r' ∧ capacity r' = capacity r.
Proof.
  intros Hok Hr. destruct (admit_recent op w Hok) as [->|(i' & k & id & r1 & r' & _ & Hr1 & _ & Hins & Heq)];
    [by exists r|].
  destruct (Forall_lookup_1 _ _ _ _ (proj2 Hok) Hr1) as [Hrok Hc].
  destruct (recent_insert_spec k id r1 Hrok Hc) as (r2 & Hins2 & _ & Hc2 & _).
  rewrite Hins in Hins2. injection Hins2 as <-.
  pose proof (lookup_lt_Some _ _ _ Hr1) as Hi'. destruct (decide (i' = i)) as [->|Hne].
  - rewrite Hr in Hr1. injection Hr1 as <-.
    destruct Heq as [->| ->]; rewrite list_lookup_insert_eq by done; by eexists.
  - destruct Heq as [->| ->]; rewrite list_lookup_insert_ne by done; by eexists.
Qed.

Lemma admit_all_remembers ops i key id j r w :
  writer_ok (st w) → remembered i key id j (st w) → recent_ids (st w) !! i = Some r →
  (j + countb (enters i) ops < capacity r)%nat →
  writer_ok (st (admit_all ops w)) ∧
  remembered i key id (j + countb (enters i) ops) (st (admit_all ops w)).
Proof.
  revert j r w. induction ops as [|op ops IH]; intros j r w Hok Hrem Hr Hlt.
  { by rewrite Nat.add_0_r. }
  destruct (admit_capacity op i r w Hok Hr) as (r' & Hr' & Hcap).
  assert (countb (enters i) (op :: ops) =
    ((if enters i op then 1 else 0) + countb (enters i) ops)%nat) as Hcount.
  { unfold countb. simpl. by destruct (enters i op). }
  rewrite Hcount in *. pose proof (admit_remembers op i key id j w Hok Hrem) as Hrem'.
  cbn [admit_all foldl]. fold (admit_all ops (admission op w)).
  destruct (IH (if enters i op then S j else j) r' (admission op w)) as [Hok' Hrem2].
  - by apply admit_ok.
  - apply Hrem'. intros He r0 Hr0. rewrite Hr in Hr0. injection Hr0 as <-. rewrite He in Hlt. lia.
  - done.
  - rewrite Hcap. destruct (enters i op); lia.
  - split; [done|]. replace (j + _)%nat with
      ((if enters i op then S j else j) + countb (enters i) ops)%nat; [done|]. destruct (enters i op); lia.
Qed.

Lemma writer_enqueue_new key topic payload attributes id w w1 :
  writer_ok (st w) → is_empty key = false →
  writer_enqueue (Some key) topic payload attributes w = (Ok (id, false), w1) →
  remembered (topic_shard topic) key id 0 (st w1).
Proof.
  intros Hok Hk. unfold writer_enqueue, new_message_id. run. rewrite Hk. run.
  set (w0 := mkWorld (st w) (S (tick w))).
  destruct (admit_key_spec (topic_shard topic) key (prefixed_id (topic_shard topic) (uuid (tick w))) w0)
    as (r & Hr & Hrok & Hc & Hadm); [done|apply topic_shard_bound|].
  destruct (recent_get key r) as [known|] eqn:Hget; [by rewrite Hadm; run|].
  destruct Hadm as (r' & Hins & ->). run. set (s1 := mkWriter _ _).
  match goal with |- context [send ?i ?c s1] => pose proof (send_recent i c s1) as Hs;
    destruct (send i c s1) as [[] s2] end; run; [|done].
  cbn [snd] in Hs. intros [= <- <-]. cbn [st].
  destruct (recent_insert_spec key (prefixed_id (topic_shard topic) (uuid (tick w))) r Hrok Hc)
    as (r2 & Hins2 & _ & _ & Hget2 & Hord & _).
  rewrite Hins in Hins2. injection Hins2 as <-.
  exists r'. eexists _, []. rewrite Hs. unfold s1. cbn [recent_ids].
  rewrite list_lookup_insert_eq by (by eapply lookup_lt_Some). split_and!; [done|done| |done].
  rewrite Hord. rewrite decide_False; [done|]. intros Hin%(proj1 (proj2 Hrok)).
  unfold recent_get in Hget. rewrite Hget in Hin. by destruct Hin.
Qed.

(** C19: Admission is idempotent within a window: after a publish with an
    idempotency key was admitted, and as long as fewer publishes with keys
    reached its shard than the shard remembers, a publish with the same key and
    topic is answered with the first one's identifier as a duplicate. *)
Theorem admission_idempotent key topic p1 p2 a1 a2 id w w1 ops r :
  writer_ok (st w) → key ≠ "" →
  writer_enqueue (Some key) topic p1 a1 w = (Ok (id, false), w1) →
  recent_ids (st w1) !! topic_shard topic = Some r →
  (countb (enters (topic_shard topic)) ops < capacity r)%nat →
  (writer_enqueue (Some key) topic p2 a2 (admit_all ops w1)).1 = Ok (id, true).
Proof.
  intros Hok Hk Hrun Hr Hlt. assert (is_empty key = false) as Hne by (by apply bool_decide_eq_false).
  pose proof (writer_enqueue_new _ _ _ _ _ _ _ Hok Hne Hrun) as Hrem.
  pose proof (admit_ok (AEnqueue (Some key) topic p1 a1) w Hok) as Hok1. cbn [admission] in Hok1.
  rewrite Hrun in Hok1. cbn [snd] in Hok1.
  destruct (admit_all_remembers ops _ _ _ _ _ _ Hok1 Hrem Hr Hlt) as [Hok2 (r2 & b & a & Hr2 & Hget & _)].
  unfold writer_enqueue, new_message_id. run. rewrite Hne. run.
  set (w2 := mkWorld (st (admit_all ops w1)) _).
  destruct (admit_key_spec (topic_shard topic) key
    (prefixed_id (topic_shard topic) (uuid (tick (admit_all ops w1)))) w2)
    as (r3 & Hr3 & _ & _ & Hadm); [done|apply topic_shard_bound|].
  cbn [w2 st] in Hr3. rewrite Hr2 in Hr3. injection Hr3 as <-. rewrite Hget in Hadm. by rewrite Hadm.
Qed.

(** * Start-up *)

(** The keys of a shard among loaded entries. *)
Definition keys_of (i : nat) (es : list (nat * string * string)) : list string :=
  omap (λ '(j, k, _), if decide (j = i) then Some k else None) es.

(** The recent keys hold exactly the entries loaded so far. *)
Definition loaded (cap : nat) (es : list (nat * string * string)) (recent : list RecentIds) : Prop :=
  length recent = 16%nat ∧ ∀ i, (i < 16)%nat → ∃ r, recent !! i = Some r ∧ recent_ok r ∧
    capacity r = cap ∧ order r = keys_of i es ∧ ∀ k id, (i, k, id) ∈ es → recent_get k r = Some id.

Lemma load_one cap es i k id recent :
  loaded cap es recent → (i < 16)%nat → NoDup (keys_of i (es ++ [(i, k, id)])) →
  (length (keys_of i (es ++ [(i, k, id)])) <= cap)%nat →
  ∃ recent', (r ← recent !! i; r ← recent_insert k id r; Some (<[i := r]> recent)) = Some recent' ∧
    loaded cap (es ++ [(i, k, id)]) recent'.
Proof.
  intros [HL Hall] Hi. unfold keys_of. rewrite omap_app. cbn [omap list_omap]. rewrite decide_True by done.
  intros [_ [Hnew _]]%NoDup_app Hcap. rewrite length_app in Hcap. cbn [length] in Hcap.
  destruct (Hall i Hi) as (r & Hr & Hok & Hc & Hord & Hget). rewrite Hr. cbn [mbind option_bind].
  destruct (recent_insert_spec k id r Hok) as (r' & -> & Hok' & Hc' & Hg' & Hord' & Hothers); [lia|].
  cbn [mbind option_bind]. eexists. split; [done|].
  assert (k ∉ order r) as Hk. { rewrite Hord. intros Hin. apply (Hnew k Hin). left. }
  rewrite decide_False in Hord' by done. rewrite (proj2 (Nat.ltb_lt _ _)) in Hord' by (rewrite Hord, Hc; unfold keys_of; lia).
  split; [by rewrite length_insert|]. intros j Hj. destruct (decide (j = i)) as [->|Hne].
  - exists r'. rewrite list_lookup_insert_eq by lia. split_and!; [done|done|congruence| |].
    + rewrite Hord', Hord. unfold keys_of. rewrite omap_app. cbn [omap list_omap]. by rewrite decide_True.
    + intros k2 id2 [Hin|Hin]%elem_of_app; [|by apply list_elem_of_singleton in Hin as [= -> ->]].
      assert (k2 ∈ order r) as Hk2.
      { rewrite Hord. apply list_elem_of_omap. exists (i, k2, id2). by rewrite decide_True. }
      rewrite Hothers; [by apply Hget|rewrite Hord'; set_solver|]. intros ->. done.
  - destruct (Hall j Hj) as (rj & Hrj & Hokj & Hcj & Hordj & Hgetj). exists rj.
    rewrite list_lookup_insert_ne by done. split_and!; [done..| |].
    + rewrite Hordj. unfold keys_of. rewrite omap_app. cbn [omap list_omap].
      rewrite decide_False by done. by rewrite app_nil_r.
    + intros k2 id2 [Hin|Hin]%elem_of_app; [by apply Hgetj|]. apply list_elem_of_singleton in Hin. congruence.
Qed.

Lemma load_recent_spec cap es :
  (∀ i, NoDup (keys_of i es) ∧ (length (keys_of i es) <= cap)%nat) → Forall (λ e, e.1.1 < 16)%nat es →
  ∃ recent, load_recent (replicate 16 (recent_new cap)) es = Some recent ∧ loaded cap es recent.
Proof.
  intros Hkeys. unfold load_recent. revert Hkeys.
  induction es as [|[[i k] id] es IH] using rev_ind; intros Hkeys Hall.
  { eexists. split; [done|]. split; [done|]. intros i Hi. exists (recent_new cap).
    split; [by apply lookup_replicate|]. split; [apply recent_new_ok|]. split; [done|]. split; [done|].
    by intros k id ?%elem_of_nil. }
  apply Forall_app in Hall as [Hall Hi]. apply Forall_cons in Hi as [Hi _]. cbn in Hi.
  destruct IH as (recent & Hrun & Hl); [|done|].
  - intros j. destruct (Hkeys j) as [Hnd Hlen]. unfold keys_of in *. rewrite omap_app in *.
    apply NoDup_app in Hnd as (Hnd & _). rewrite length_app in Hlen. split; [done|lia].
  - rewrite foldl_app, Hrun. destruct (Hkeys i) as [Hnd Hlen].
    exact (load_one cap es i k id recent Hl Hi Hnd Hlen).
Qed.

(** The rows whose keys are read from a shard. *)
Definition key_rows (limit n : nat) (t : Table) : list (string * Message) :=
  merge_sort created_le (take limit (merge_sort created_ge (any_order n (select_where (λ _ m, keyed m) t)))).

Context `{!OrderLaws}.

Lemma key_rows_spec limit n i t :
  table_ok i t →
  (length (key_rows limit n t) <= limit)%nat ∧
  NoDup (map (λ '(_, m), default "" (m_key m)) (key_rows limit n t)) ∧
  ((length (select_where (λ _ m, keyed m) t) <= limit)%nat →
   ∀ id m, t !! id = Some m → keyed m = true → (id, m) ∈ key_rows limit n t).
Proof.
  intros [_ Hkeys]. unfold key_rows. set (sel := select_where _ t).
  set (sorted := merge_sort created_ge (any_order n sel)).
  assert (sorted ≡ₚ sel) as Hs.
  { unfold sorted. rewrite (merge_sort_Permutation created_ge). apply any_order_perm. }
  assert (NoDup sorted) as Hnd.
  { rewrite Hs. apply NoDup_filter, NoDup_map_to_list. }
  split; [rewrite (merge_sort_Permutation created_le), length_take; lia|]. split.
  - change (map ?f ?l) with (f <$> l). rewrite (merge_sort_Permutation created_le).
    rewrite <-(take_drop limit sorted) in Hnd. apply NoDup_app in Hnd as [Hnd _].
    apply NoDup_fmap_2_strong; [|done].
    intros [id m] [id' m'] Hin Hin' Heq.
    assert (∀ x, x ∈ take limit sorted → x ∈ sel) as Hsub.
    { intros x Hx. rewrite <-Hs, <-(take_drop limit sorted). apply elem_of_app. by left. }
    apply Hsub, elem_of_select_where in Hin as [Hm Hk], Hin'.
    destruct Hin' as [Hm' Hk'].
    unfold keyed in Hk, Hk'. destruct (m_key m) as [k|] eqn:Ek, (m_key m') as [k'|] eqn:Ek'; try done.
    simpl in Heq. subst k'. assert (id = id') as <- by by eapply Hkeys. congruence.
  - intros Hlen id m Hm Hk. rewrite (merge_sort_Permutation created_le), take_ge, Hs by (by rewrite Hs).
    by apply elem_of_select_where.
Qed.

Lemma keys_of_rows i j (rows : list (string * Message)) :
  keys_of i (map (λ '(id, m), (j, default "" (m_key m), id)) rows) =
    if decide (j = i) then map (λ '(_, m), default "" (m_key m)) rows else [].
Proof.
  unfold keys_of. induction rows as [|[id m] rows IH]; cbn [map omap list_omap]; [by case_decide|].
  cbn [omap] in IH. rewrite IH. by destruct (decide (j = i)).
Qed.

(** What is read from the database at start-up. *)
Lemma recent_keys_run limit w :
  calm → db_ok (st w) → limit <= I64_MAX →
  ∃ es w', recent_idempotency_keys limit w = (Ok es, w') ∧
    Forall (λ e, e.1.1 < 16)%nat es ∧
    (∀ i, NoDup (keys_of i es) ∧ (length (keys_of i es) <= Z.to_nat limit)%nat) ∧
    ∀ i id m key, shard i (st w) !! id = Some m → m_key m = Some key → key ≠ "" →
      (length (select_where (λ _ m, keyed m) (shard i (st w))) <= Z.to_nat limit)%nat → (i, key, id) ∈ es.
Proof.
  intros Hc [HL Hok] Hlim. unfold recent_idempotency_keys.
  destruct (fold_each_total (E:=Error) (λ done es w1, st w1 = st w ∧ Forall (λ e, e.1.1 < 16)%nat es ∧
    (∀ i, (i ∉ done → keys_of i es = []) ∧ NoDup (keys_of i es) ∧ (length (keys_of i es) <= Z.to_nat limit)%nat) ∧
    ∀ i id m key, i ∈ done → shard i (st w) !! id = Some m → m_key m = Some key → key ≠ "" →
      (length (select_where (λ _ m, keyed m) (shard i (st w))) <= Z.to_nat limit)%nat → (i, key, id) ∈ es)
    (seq 0 MESSAGE_SHARDS) (λ entries i,
      rows ← ask_shard_at i (key_rows (Z.to_nat (Z.min limit I64_MAX)));
      mret (entries ++ map (λ '(id, m), (i, default "" (m_key m), id)) rows)))
    with (acc := [] : list (nat * string * string)) (w := w) as (es & w' & Hrun & _ & Hlt & Hk & Hin).
  - intros done i todo es w1 Hsplit (Hst & Hlt & Hk & Hin). unfold ask_shard_at. run. rewrite Hc. run.
    rewrite Z.min_l, Hst by done. set (rows := key_rows _ _ _).
    destruct (key_rows_spec (Z.to_nat limit) (tick w1) i (shard i (st w)) (Hok i)) as (Hlen & Hnd & Hall).
    fold rows in Hlen, Hnd, Hall. assert (i ∈ seq 0 MESSAGE_SHARDS) as Hi by (rewrite Hsplit; set_solver).
    assert (i ∉ done) as Hnew.
    { pose proof (NoDup_seq 0 MESSAGE_SHARDS) as Hs. rewrite Hsplit in Hs.
      apply NoDup_app in Hs as (_ & Hd & _). intros Hx. apply (Hd i Hx). left. }
    do 2 eexists. split; [done|]. split; [done|]. split_and!.
    + apply Forall_app. split; [done|]. apply Forall_forall. intros e ([id m] & -> & _)%list_elem_of_fmap.
      apply elem_of_seq in Hi. cbn. unfold MESSAGE_SHARDS in Hi. lia.
    + intros j. assert (keys_of j (es ++ map (λ '(id, m), (i, default "" (m_key m), id)) rows) =
        keys_of j es ++ if decide (i = j) then map (λ '(_, m), default "" (m_key m)) rows else []) as ->.
      { rewrite <-keys_of_rows. apply omap_app. }
      destruct (Hk j) as (Hno & Hndj & Hlenj). case_decide as Hij.
      * subst j. rewrite Hno by done. simpl. rewrite length_map. split_and!; [set_solver|done|done].
      * rewrite app_nil_r. split_and!; [intros ?; apply Hno; set_solver|done|done].
    + intros j id m key [Hj|Hj]%elem_of_app Hm Hkey Hne Hcount; apply elem_of_app; [left; by eapply Hin|right].
      apply list_elem_of_singleton in Hj as ->. apply list_elem_of_fmap. exists (id, m). rewrite Hkey.
      split; [done|]. apply Hall; [done|done|]. unfold keyed. rewrite Hkey.
      unfold is_empty. by rewrite bool_decide_eq_false_2.
  - split; [done|]. split; [done|]. split; [intros i; split_and!; [done|constructor|simpl; lia]|].
    by intros i id m key ?%elem_of_nil.
  - exists es, w'. split; [exact Hrun|]. split; [done|]. split; [intros i; apply Hk|].
    intros i id m key Hm Hkey Hne Hcount. eapply Hin; try done. apply elem_of_seq.
    destruct (decide (i < MESSAGE_SHARDS)%nat) as [|Hge]; [lia|]. exfalso.
    unfold shard in Hm. rewrite list_lookup_total_alt, lookup_ge_None_2 in Hm by lia. done.
Qed.

(** Idempotency survives a restart: after [start] a publish with the key of a
    stored message is answered with that message's identifier as a duplicate,
    provided the shard has no more keyed messages than the writer remembers per
    shard. *)
Theorem restart_remembers queue_size w i id m key topic payload attributes n :
  calm → db_ok (st w) → 0 <= queue_size <= I64_MAX →
  shard i (st w) !! id = Some m → m_key m = Some key → key ≠ "" → topic_shard topic = i →
  Z.of_nat (length (select_where (λ _ m, keyed m) (shard i (st w)))) <= recent_ids_per_shard queue_size →
  ∃ writer w', start queue_size w = (Ok writer, w') ∧
    (writer_enqueue (Some key) topic payload attributes (mkWorld writer n)).1 = Ok (id, true).
Proof.
  intros Hc Hok Hq Hm Hkey Hne Ht Hcount. unfold start. set (cap := recent_ids_per_shard queue_size) in *.
  assert (64 <= cap <= I64_MAX) as Hcap.
  { unfold cap, recent_ids_per_shard, per_shard_queue, U64_MAX, I64_MAX in *.
    assert ((queue_size + 15) / 16 <= 2 ^ 60) by (apply Z.div_le_upper_bound; lia). lia. }
  rewrite run_bind. destruct (recent_keys_run cap w Hc Hok) as (es & w1 & -> & Hlt & Hk & Hin); [lia|].
  destruct (load_recent_spec (Z.to_nat cap) es Hk Hlt) as (recent & -> & HL & Hall). run.
  eexists _, _. split; [done|]. pose proof (topic_shard_bound topic) as Hb. rewrite Ht in Hb.
  destruct (Hall i Hb) as (r & Hr & Hrok & Hrc & _ & Hget).
  assert (recent_get key r = Some id) as Hg by (apply Hget; eapply Hin; [done..|lia]).
  unfold writer_enqueue, new_message_id. run.
  assert (is_empty key = false) as -> by (by apply bool_decide_eq_false). run.
  unfold admit_key. run. cbn [recent_ids]. rewrite Ht, Hr, Hg. by run.
Qed.

End admission.

(** * The property in the demonstration environment *)

Definition demo_writer : World QueueWriter :=
  mkWorld (mkWriter (replicate 16 (recent_new 2)) (replicate 16 (Some []))) 0.

Lemma demo_writer_ok : writer_ok (st demo_writer).
Proof.
  split; [done|]. apply Forall_replicate. split; [apply recent_new_ok|simpl; lia].
Qed.

Lemma admission_idempotent_witness :
  ∃ w1, (writer_enqueue (H := demo_oracle) (Some "k") "a/b" [3] ∅
           (admit_all (H := demo_oracle) [AEnqueue (Some "other") "a/b" [2] ∅; AShutdown 0] w1)).1 =
        Ok ("s01-0", true).
Proof.
  eexists. eapply (admission_idempotent (H := demo_oracle) "k" "a/b" [1] [3] ∅ ∅ "s01-0" demo_writer
    _ [AEnqueue (Some "other") "a/b" [2] ∅; AShutdown 0]); [apply demo_writer_ok|done|by vm_compute..|].
  by apply Nat.ltb_lt.
Defined.

Lemma restart_remembers_witness :
  ∃ writer w', start (H := demo_oracle) 10000 demo1 = (Ok writer, w') ∧
    (writer_enqueue (H := demo_oracle) (Some "k") "a/b" [9] ∅ (mkWorld writer 0)).1 = Ok ("s01-x", true).
Proof.
  apply (restart_remembers (H := demo_oracle) (H0 := demo_order) 10000 demo1 1 "s01-x"
    (default demo_message (shard 1 (st demo1) !! "s01-x")) "k" "a/b" [9] ∅ 0 demo_calm demo1_ok).
  - unfold I64_MAX. lia.
  - by vm_compute.
  - by vm_compute.
  - done.
  - by vm_compute.
  - by vm_compute.
Defined.

End WriterSpec.
