(* ===== verification/WriterRun.v ===== *)
(** The worker of the queue writer commits what it is given: a failed attempt
    leaves the database as it was, and once the storage recovers the worker
    commits every publish before it stops (src/src/writer.rs, [run_writer]). *)

From S2P Require Import Prelude RustStr Topic Model Effects Store Db DbInv DbSpec Writer.
Import Topic Model Store Db DbInv DbSpec Writer.

Module WriterRun.

Section run.
Context `{Oracle, Chrono, Serde}.

(** * One attempt *)

(** All items belong to shard [i]. *)
Definition of_shard (i : nat) (items : list EnqueueInput) : Prop :=
  Forall (λ item, topic_shard (in_topic item) = i) items.

Lemma group_of_shard i items :
  of_shard i items →
  group i (λ item, Some (topic_shard (in_topic item))) items = imap pair items.
Proof.
  intros Hall. unfold group. apply filter_all. apply Forall_forall. intros [k item] Hin.
  apply list_elem_of_lookup in Hin as [n Hn]. rewrite list_lookup_imap in Hn.
  destruct (items !! n) as [item'|] eqn:Hi; simplify_eq/=. f_equal.
  by eapply Forall_lookup_1 in Hall.
Qed.

Lemma group_other i j items :
  of_shard i items → j ≠ i → group j (λ item, Some (topic_shard (in_topic item))) items = [].
Proof.
  intros Hall Hj. destruct (group j _ items) as [|[k item] l] eqn:Hg; [done|]. exfalso.
  assert ((k, item) ∈ group j (λ item, Some (topic_shard (in_topic item))) items) as Hin
    by (rewrite Hg; left).
  apply elem_of_group in Hin as [Hk [= Hs]]. eapply Forall_lookup_1 in Hall; [|done]. congruence.
Qed.

(** A batch for one shard is one transaction. *)
Lemma enqueue_one_shard i items acc w :
  of_shard i items → items ≠ [] →
  fold_each (seq 0 MESSAGE_SHARDS) acc (enqueue_shard items) w =
    shard_tx i (fold_each (imap pair items) acc (enqueue_one i)) w.
Proof.
  intros Hall Hne. assert (i < MESSAGE_SHARDS)%nat as Hi.
  { destruct items as [|item items]; [done|]. inv Hall. apply topic_shard_bound. }
  rewrite (fold_each_single _ i); [|apply NoDup_seq|apply elem_of_seq; lia|].
  - unfold enqueue_shard. rewrite group_of_shard by done. by destruct items.
  - intros j b _ Hj. unfold enqueue_shard. by rewrite (group_other i).
Qed.

(** Only shard [i] changes. *)
Definition only_shard (i : nat) (s s' : Db) : Prop :=
  length (shards s') = length (shards s) ∧ ∀ j, j ≠ i → shard j s' = shard j s.

#[local] Instance only_shard_preorder i : PreOrder (only_shard i).
Proof.
  split; [by intros s|]. intros s1 s2 s3 [L12 H12] [L23 H23]. split; [congruence|].
  intros j Hj. by rewrite H23, H12.
Qed.

Lemma only_shard_body i items acc :
  Keeps (only_shard i) (fold_each items acc (enqueue_one i)).
Proof.
  unfold enqueue_one. repeat first [keeps_step | apply keeps_ask_shard; apply _].
  apply keeps_stmt; [apply _|]. intros s. destruct (insert_or_ignore _ _ _) as [b t].
  split; [apply length_alter|]. intros j Hj. cbn [snd]. rewrite shard_set_shard_gen.
  rewrite decide_False by naive_solver. done.
Qed.

Lemma ticks_body i items acc : Ticks (fold_each items acc (enqueue_one i)).
Proof. unfold enqueue_one, rfc_now, on_shard, ask_shard. ticks_go. Qed.

Lemma no_panic_body i items acc : NoPanic (fold_each items acc (enqueue_one i)).
Proof. unfold enqueue_one, on_shard, ask_shard. no_panic_go. Qed.

(** A failed attempt rolls back: the message tables are as before, time has
    passed, and the error is not a panic. *)
Lemma enqueue_batch_fails i items w e w' :
  of_shard i items → items ≠ [] → length (shards (st w)) = MESSAGE_SHARDS →
  enqueue_batch items w = (Err e, w') →
  same_tables (st w) (st w') ∧ (tick w < tick w')%nat ∧ ∃ message, e = Failure message.
Proof.
  intros Hall Hne HL Hrun.
  destruct (fold_each (seq 0 MESSAGE_SHARDS) (replicate (length items) None, ∅) (enqueue_shard items) w)
    as [[acc|e1] w1] eqn:Hfold.
  { destruct (enqueue_batch_finish items w acc w1 HL Hfold) as (rs & w2 & Hok & _). congruence. }
  unfold enqueue_batch in Hrun. rewrite run_bind, Hfold in Hrun. injection Hrun as <- <-.
  rewrite (enqueue_one_shard i) in Hfold by done.
  set (body := fold_each (imap pair items) _ _) in Hfold.
  unfold shard_tx, transaction in Hfold. rewrite run_query in Hfold.
  destruct (fault (tick w)) as [msg|] eqn:Hf.
  { injection Hfold as <- <-. split; [done|]. split; [simpl; lia|by eexists]. }
  set (w2 := mkWorld (st w) (S (tick w))) in Hfold.
  pose proof (only_shard_body i (imap pair items) (replicate (length items) None, ∅) w2) as Honly.
  pose proof (ticks_body i (imap pair items) (replicate (length items) None, ∅) w2) as Ht.
  pose proof (no_panic_body i (imap pair items) (replicate (length items) None, ∅) w2) as Hnp.
  fold body in Honly, Ht, Hnp.
  assert (∀ s', only_shard i (st w) s' → same_tables (st w) (set_shard i (λ _, shard i (st w)) s')) as Hback.
  { intros s' [HL' Hs']. split; [simpl; by rewrite length_alter|]. intros j.
    rewrite shard_set_shard_gen. case_decide as Hd; [by destruct Hd; subst|].
    destruct (decide (j = i)) as [->|Hj]; [|by apply Hs'].
    exfalso. apply Hd. split; [done|]. rewrite HL', HL. destruct items as [|item items]; [done|].
    inv Hall. apply topic_shard_bound. }
  destruct (body w2) as [[a|e2] w3]; cbn [snd fst] in *.
  - rewrite run_query in Hfold. destruct (fault (tick w3)) as [msg|]; [|done].
    injection Hfold as <- <-. split; [by apply Hback|]. split; [simpl in *; lia|by eexists].
  - injection Hfold as <- <-. split; [by apply Hback|]. split; [simpl in *; lia|].
    destruct e2 as [msg|msg]; [by eexists|]. by destruct (Hnp msg).
Qed.

(** * What a worker does to the stored messages *)

(** Rows stay, with their keys, and pending rows stay as they are; no row appears
    but under the identifiers [ids]. *)
Definition persists (ids : list string) (s s' : Db) : Prop :=
  length (shards s') = length (shards s) ∧
  (∀ j id m, shard j s !! id = Some m → ∃ m', shard j s' !! id = Some m' ∧
     m_key m' = m_key m ∧ (m_status m = Pending → m' = m)) ∧
  (∀ j id, id ∉ ids → shard j s !! id = None → shard j s' !! id = None).

#[export] Instance persists_preorder ids : PreOrder (persists ids).
Proof.
  split.
  - intros s. split_and!; try done. intros j id m Hm. by exists m.
  - intros s1 s2 s3 (L12 & R12 & N12) (L23 & R23 & N23). split_and!; [congruence| |naive_solver].
    intros j id m Hm. destruct (R12 j id m Hm) as (m2 & Hm2 & K2 & P2).
    destruct (R23 j id m2 Hm2) as (m3 & Hm3 & K3 & P3). exists m3. split_and!; [done|congruence|].
    intros Hp. specialize (P2 Hp). subst m2. by apply P3.
Qed.

Lemma persists_mono ids ids' s s' : (∀ x, x ∈ ids → x ∈ ids') → persists ids s s' → persists ids' s s'.
Proof. intros Hsub (L & R & N). split_and!; [done..|]. intros j id Hid. apply N. naive_solver. Qed.

Lemma persists_stored ids s s' item r : persists ids s s' → stored s item r → stored s' item r.
Proof.
  intros (_ & R & _) (m & Hm & Hk & Hr). destruct (R _ _ _ Hm) as (m' & Hm' & Hk' & Hp).
  exists m'. split; [done|]. split; [congruence|]. destruct r.2; [done|].
  rewrite Hp by (by apply Hr). done.
Qed.

Lemma persists_shards ids s s' : shards s' = shards s → persists ids s s'.
Proof.
  intros Hs. unfold persists, shard. rewrite Hs. split_and!; [done| |done]. intros j id m Hm. by exists m.
Qed.

Lemma persists_on_shard {A} ids i (f : Table → A * Table) :
  (∀ t id m, t !! id = Some m → ∃ m', (f t).2 !! id = Some m' ∧
     m_key m' = m_key m ∧ (m_status m = Pending → m' = m)) →
  (∀ t id, id ∉ ids → t !! id = None → (f t).2 !! id = None) →
  Keeps (persists ids) (on_shard i f).
Proof.
  intros HR HN. apply keeps_stmt; [apply _|]. intros s. specialize (HR (shard i s)).
  specialize (HN (shard i s)). destruct (f (shard i s)) as [a t]. cbn [snd] in *.
  split_and!; [apply length_alter|..]; intros j id; rewrite shard_set_shard_gen; case_decide as Hd.
  - destruct Hd; subst. apply HR.
  - intros m Hm. by exists m.
  - destruct Hd; subst. apply HN.
  - done.
Qed.

Lemma persists_shard_tx {A} ids i (body : M Error Db A) :
  Keeps (persists ids) body → Keeps (persists ids) (shard_tx i body).
Proof.
  apply keeps_transaction; [apply _|]. intros s s' (L & R & N).
  split_and!; [simpl; by rewrite length_alter|..]; intros j id; rewrite shard_set_shard_gen;
    case_decide as Hd; [destruct Hd; subst; intros m Hm; by exists m|apply R|by destruct Hd; subst|apply N].
Qed.

Lemma persists_record_topic_stats ids topic d : Keeps (persists ids) (record_topic_stats topic d).
Proof.
  unfold record_topic_stats, record_message_trend. repeat keeps_step; by apply persists_shards.
Qed.

Ltac persists_step :=
  first
    [ keeps_step
    | apply keeps_ask_shard; apply _
    | apply keeps_shard_index_for_id; apply _
    | apply persists_shard_tx
    | apply persists_record_topic_stats ].

Lemma persists_enqueue_batch items : Keeps (persists (in_id <$> items)) (enqueue_batch items).
Proof.
  unfold enqueue_batch, enqueue_shard, enqueue_one. repeat persists_step.
  match goal with Hin : (_, ?item) ∈ _ |- _ => rename item into it; rename Hin into Hit end.
  assert (in_id it ∈ in_id <$> items) as Hid.
  { apply list_elem_of_fmap. exists it. split; [done|].
    match goal with Hg : group ?i ?f items = _ |- _ => rewrite <-Hg in Hit end.
    apply elem_of_group in Hit as [Hk _]. by eapply list_elem_of_lookup_2. }
  apply persists_on_shard.
  - intros t id m Hm. exists m. split; [by apply insert_or_ignore_grows|done].
  - intros t id Hne Hnone. unfold insert_or_ignore. case_match; [done|]. cbn [snd].
    rewrite lookup_insert_ne; [done|]. set_solver.
Qed.

Lemma persists_delivered_batch acks : Keeps (persists []) (delivered_batch acks).
Proof.
  unfold delivered_batch, deliver_shard, deliver_one. repeat persists_step.
  apply persists_on_shard; unfold update_id; intros t id';
    destruct (select_id _ _ t) as [m0|] eqn:Hsel; cbn [snd]; try (intros m Hm; by exists m); try done.
  - intros m Hm. apply select_id_Some in Hsel as [Hm0 Hl%leased_processing].
    match goal with |- context [<[?i0 := _]> t] => destruct (decide (i0 = id')) as [->|Hne] end.
    + rewrite lookup_insert_eq. eexists. split; [done|]. rewrite Hm in Hm0. simplify_eq.
      split; [done|]. congruence.
    + rewrite lookup_insert_ne by done. by exists m.
  - intros _ Hnone. apply select_id_Some in Hsel as [Hm0 _].
    rewrite lookup_insert_ne by congruence. done.
Qed.

(** * The retry loop *)

(** Items a worker of shard [i] can commit to [s]. *)
Definition committable (i : nat) (items : list EnqueueInput) (s : Db) : Prop :=
  of_shard i items ∧ Forall (λ item, is_Some (attrs_to_json (in_attributes item))) items ∧
  NoDup (in_id <$> items) ∧ unused items (λ _, True) s.

Lemma run_on_db {A} (m : M Error Db A) (w : World Worker) :
  on_db m w = let '(r, w') := m (mkWorld (k_db (st w)) (tick w)) in
    (r, mkWorld (mkWorker (st w') (k_notes (st w)) (k_replies (st w)) (k_stopped (st w))) (tick w')).
Proof. done. Qed.

(** The state of the database is all that changed. *)
Definition same_but_db (k k' : Worker) : Prop :=
  k_notes k' = k_notes k ∧ k_replies k' = k_replies k ∧ k_stopped k' = k_stopped k.

Lemma ticks_enqueue_batch items : Ticks (enqueue_batch items).
Proof.
  unfold enqueue_batch, enqueue_shard, shard_tx, record_topic_stats, record_message_trend,
    enqueue_one, rfc_now, on_shard, ask_shard. ticks_go.
Qed.

(** Once the storage recovers, the loop ends and has committed every item. *)
Lemma persist_spec N i items fuel w :
  calm_from N → (1 <= fuel)%nat → (N < fuel + tick w)%nat → items ≠ [] → committable i items (k_db (st w)) →
  ∃ rs w', persist fuel items w = (Ok (Some rs), w') ∧ length rs = length items ∧
    persists (in_id <$> items) (k_db (st w)) (k_db (st w')) ∧ same_but_db (st w) (st w') ∧
    (tick w <= tick w')%nat ∧
    ∀ k item, items !! k = Some item → ∃ r, rs !! k = Some r ∧ stored (k_db (st w')) item r.
Proof.
  intros Hcalm Hpos Hfuel Hne (Hall & Hjs & Hnd & Hun). revert w Hpos Hfuel Hun.
  induction fuel as [|fuel IH]; intros w Hpos Hfuel Hun; [lia|]. cbn [persist].
  rewrite run_bind, run_attempt, run_on_db. set (w0 := mkWorld (k_db (st w)) (tick w)).
  destruct (enqueue_batch items w0) as [[rs|e] w1] eqn:Hrun; run.
  - eexists _, _. split; [done|]. pose proof (ticks_enqueue_batch items w0) as Ht.
    rewrite Hrun in Ht. pose proof (Keeps_run _ _ _ _ _ (persists_enqueue_batch items) Hrun) as Hp.
    apply enqueue_batch_post in Hrun as [Hlen Hst]; [|apply Hun]. by split_and!.
  - destruct (enqueue_batch_fails i items w0 e w1) as ([HL Hsame] & Ht & msg & ->); [done|done|apply Hun|done|].
    run. set (w2 := mkWorld _ (tick w1)).
    assert (unused items (λ _, True) (k_db (st w2))) as Hun2.
    { destruct Hun as [HL0 Hun]. split; [exact (eq_trans HL HL0)|]. intros k item Hk _.
      change (shard (topic_shard (in_topic item)) (st w1) !! in_id item = None).
      rewrite Hsame. by apply (Hun k). }
    assert (1 <= fuel)%nat as Hpos2.
    { destruct fuel; [|lia]. exfalso. destruct (enqueue_batch_total items w0) as (rs & w' & Hok & _);
        try done; [|congruence]. intros n Hn. apply Hcalm. simpl in Hn, Hfuel. lia. }
    destruct (IH w2) as (rs & w' & Hrun' & Hlen & Hp & Hk & Ht' & Hst); [done|simpl in *; lia|done|].
    exists rs, w'. split; [done|]. split; [done|]. split_and!; [..|done]; try apply Hk.
    + apply (Keeps_run _ _ _ _ _ (persists_enqueue_batch items)) in Hrun. by etrans.
    + simpl in *. lia.
Qed.

(** * The acknowledgements of a batch *)

Lemma delivered_batch_length acks w rs w' :
  delivered_batch acks w = (Ok rs, w') → length rs = length acks.
Proof.
  unfold delivered_batch. rewrite run_bind.
  destruct (fold_each acks _ _ w) as [[located|e] w1]; [|done]. unfold rfc_now. run.
  set (w2 := mkWorld _ _).
  destruct (fold_each (seq 0 MESSAGE_SHARDS) _ _ w2) as [[[res stats]|e] w3] eqn:Hf; [|done].
  assert (length res = length acks) as Hlen.
  { apply (fold_each_post (λ _ acc _, length acc.1 = length acks)) in Hf; [done| |].
    - intros done i todo acc w4 acc' w4' _ Hacc. unfold deliver_shard.
      destruct (group i fst located) as [|e l] eqn:Hg; [by intros [= <- <-]|]. rewrite <-Hg.
      intros (w5 & w6 & Hb & _)%transaction_Ok.
      apply (fold_each_post (λ _ acc _, length acc.1 = length acks)) in Hb; [done| |done].
      intros ? [k [? [id lease]]] ? [r0 s0] w7 acc7 w7' _ Hr0. unfold deliver_one, on_shard. run.
      destruct (fault _); run; [done|]. destruct (update_id _ _ _ _) as [[m|] t]; run; intros [= <- <-];
        simpl in *; [by rewrite length_insert|done].
    - apply length_replicate. }
  run. destruct (for_each _ _ _) as [[u|e] w4]; run; [|done].
  by intros [= <- <-].
Qed.

Lemma no_panic_find_shard id l : NoPanic (find_shard id l).
Proof. induction l as [|i l IH]; cbn [find_shard]; unfold ask_shard; no_panic_go. apply IH. Qed.

Lemma no_panic_delivered_batch acks : NoPanic (delivered_batch acks).
Proof.
  unfold delivered_batch, deliver_shard, deliver_one, shard_tx, shard_index_for_id, on_shard, ask_shard,
    record_topic_stats, record_message_trend. no_panic_go. apply no_panic_find_shard.
Qed.

Lemma ticks_delivered_batch acks : Ticks (delivered_batch acks).
Proof.
  unfold delivered_batch, deliver_shard, deliver_one, shard_tx, shard_index_for_id, on_shard, ask_shard,
    record_topic_stats, record_message_trend, rfc_now. ticks_go.
  generalize (seq 0 MESSAGE_SHARDS). intros l. induction l as [|i l IH]; cbn [find_shard];
    unfold ask_shard; ticks_go. apply IH.
Qed.

(** What a worker does to its state as a whole: messages are kept, an answered
    acknowledgement stays answered. *)
Definition works (ids : list string) (k k' : Worker) : Prop :=
  persists ids (k_db k) (k_db k') ∧ k_stopped k' = k_stopped k ∧
  ∀ r, is_Some (k_replies k !! r) → is_Some (k_replies k' !! r).

#[local] Instance works_preorder ids : PreOrder (works ids).
Proof.
  split; [by intros k; split_and!|]. intros k1 k2 k3 (P12 & S12 & R12) (P23 & S23 & R23).
  split_and!; [by etrans|congruence|eauto].
Qed.

Lemma works_mono ids ids' k k' : (∀ x, x ∈ ids → x ∈ ids') → works ids k k' → works ids' k k'.
Proof. intros Hsub (P & S & R). split_and!; [by eapply persists_mono|done..]. Qed.

Lemma works_reply ids r answer : Keeps (works ids) (reply r answer).
Proof.
  apply keeps_mem. intros k. split_and!; [done..|]. intros r' Hr'. cbn [snd k_replies].
  destruct (decide (r' = r)) as [->|Hne]; [rewrite lookup_insert_eq; by eexists|].
  by rewrite lookup_insert_ne.
Qed.

Lemma works_notify ids topic : Keeps (works ids) (notify_one topic).
Proof. apply keeps_mem. by intros k. Qed.

(** Replies given one after the other. *)
Lemma for_each_reply {A} (l : list A) (f : A → nat * result string bool) (g : A → M Error Worker ()) w :
  (∀ x, g x = reply (f x).1 (f x).2) →
  ∃ w', for_each l g w = (Ok (), w') ∧ works [] (st w) (st w') ∧
    tick w' = tick w ∧ ∀ x, x ∈ l → is_Some (k_replies (st w') !! (f x).1).
Proof.
  intros Hg. revert w. induction l as [|x l IH]; intros w; cbn [for_each].
  { exists w. split; [done|]. split; [done|]. split; [done|]. by intros x Hx%elem_of_nil. }
  rewrite run_bind, Hg. unfold reply. run. set (w1 := mkWorld _ (tick w)).
  destruct (IH w1) as (w' & -> & Hw & Ht & Hall). exists w'. split; [done|].
  pose proof (works_reply [] (f x).1 (f x).2 w) as Hw1. split; [by etrans|]. split; [done|].
  intros y [->|Hy]%elem_of_cons; [|by apply Hall]. apply Hw. simpl. rewrite lookup_insert_eq. by eexists.
Qed.

(** Every acknowledgement of a batch is answered, also when the storage fails. *)
Lemma write_delivered_spec acks w :
  ∃ w', write_delivered acks w = (Ok (), w') ∧ works [] (st w) (st w') ∧ (tick w <= tick w')%nat ∧
    ∀ ack, ack ∈ acks → is_Some (k_replies (st w') !! ack.2).
Proof.
  destruct acks as [|ack0 acks0]; [exists w; split; [done|]; split; [done|]; split; [done|];
    by intros x Hx%elem_of_nil|]. unfold write_delivered.
  set (acks := ack0 :: acks0). rewrite run_bind, run_attempt, run_on_db.
  set (w0 := mkWorld (k_db (st w)) (tick w)).
  pose proof (ticks_delivered_batch (map fst acks) w0) as Ht.
  pose proof (no_panic_delivered_batch (map fst acks) w0) as Hnp.
  pose proof (persists_delivered_batch (map fst acks) w0) as Hp.
  destruct (delivered_batch (map fst acks) w0) as [r w1] eqn:Hrun. cbn [fst snd] in *.
  set (w2 := mkWorld (mkWorker (st w1) _ _ _) (tick w1)).
  assert (works [] (st w) (st w2)) as Hw2 by (by split_and!).
  destruct r as [rs|e]; run.
  - destruct (for_each_reply (zip acks rs) (λ x, (x.1.2, Ok x.2))
      (λ '(ack, result), reply ack.2 (Ok result)) w2) as (w' & Hfor & Hw & Ht' & Hall); [by intros []|].
    exists w'. split; [done|]. split; [by etrans|]. split; [rewrite Ht'; done|]. intros ack Hack.
    apply delivered_batch_length in Hrun. rewrite length_map in Hrun.
    apply list_elem_of_lookup in Hack as [n Hn].
    destruct (lookup_lt_is_Some_2 rs n) as [b Hb].
    { rewrite Hrun. by eapply lookup_lt_Some. }
    apply (Hall (ack, b)). apply list_elem_of_lookup. exists n.
    rewrite lookup_zip_with, Hn. simpl. by rewrite Hb.
  - destruct e as [msg|msg]; [|by destruct (Hnp msg)]. run.
    destruct (for_each_reply acks (λ ack, (ack.2, Err msg)) (λ ack, reply ack.2 (Err msg)) w2)
      as (w' & Hfor & Hw & Ht' & Hall); [done|].
    exists w'. split; [done|]. split; [by etrans|]. by split; [rewrite Ht'|].
Qed.

(** * The publishes of a batch *)

Lemma write_enqueues_spec N i items fuel w :
  calm_from N → (1 <= fuel)%nat → (N < fuel + tick w)%nat → committable i items (k_db (st w)) →
  ∃ w', write_enqueues fuel items w = (Ok true, w') ∧ works (in_id <$> items) (st w) (st w') ∧
    (tick w <= tick w')%nat ∧ ∀ item, item ∈ items → ∃ r, stored (k_db (st w')) item r.
Proof.
  intros Hcalm Hpos Hfuel Hc. destruct items as [|item0 items0].
  { exists w. split; [done|]. split; [done|]. split; [done|]. by intros x Hx%elem_of_nil. }
  unfold write_enqueues. set (items := item0 :: items0) in *.
  destruct (persist_spec N i items fuel w) as (rs & w1 & Hrun & _ & Hp & (Hn & Hr & Hs) & Ht & Hst);
    [done..|]. rewrite run_bind, Hrun.
  assert (works (in_id <$> items) (st w) (st w1)) as Hw1.
  { split_and!; [done|done|]. intros r. by rewrite Hr. }
  rewrite run_bind. set (l := zip _ rs). set (f := λ '(topic, result), _).
  assert (∀ l w0, ∃ w', for_each l f w0 = (Ok (), w') ∧ k_db (st w') = k_db (st w0) ∧
    works [] (st w0) (st w') ∧ tick w' = tick w0) as Hfor.
  { clear. intros l. induction l as [|[topic [id []]] l IH]; intros w; cbn [for_each]; [by exists w|..];
      rewrite run_bind; unfold f at 1, notify_one; run; [apply IH|].
    destruct (IH (mkWorld (mkWorker (k_db (st w)) (notify topic (k_notes (st w))) (k_replies (st w))
      (k_stopped (st w))) (tick w))) as (w' & Hrun & Hw'). exists w'. by split. }
  destruct (Hfor l w1) as (w2 & -> & Hdb & Hw2 & Ht2). run. exists w2. split; [done|]. split.
  { etrans; [done|]. apply (works_mono []); [|done]. by intros x Hx%elem_of_nil. }
  split; [by rewrite Ht2|]. intros item [k Hk]%list_elem_of_lookup. rewrite Hdb.
  destruct (Hst k item Hk) as (r & _ & Hstored). by exists r.
Qed.

(** What is left to commit stays committable. *)
Lemma committable_rest i items rest s s' :
  committable i (items ++ rest) s → persists (in_id <$> items) s s' → committable i rest s'.
Proof.
  intros (Hall & Hjs & Hnd & HL & Hun) (L & _ & N). unfold of_shard in Hall.
  rewrite fmap_app in Hnd. apply NoDup_app in Hnd as (_ & Hdis & Hnd).
  apply Forall_app in Hall as [_ Hall]. apply Forall_app in Hjs as [_ Hjs].
  split; [done|]. split; [done|]. split; [done|]. split; [congruence|]. intros k item Hk _. apply N.
  - intros Hin. apply (Hdis _ Hin). apply list_elem_of_fmap. exists item. split; [done|].
    by eapply list_elem_of_lookup_2.
  - apply (Hun (length items + k)%nat); [|done]. by rewrite lookup_app_r, Nat.add_sub' by lia.
Qed.

Lemma committable_first i items rest s : committable i (items ++ rest) s → committable i items s.
Proof.
  intros (Hall & Hjs & Hnd & HL & Hun). unfold of_shard in Hall.
  rewrite fmap_app in Hnd. apply NoDup_app in Hnd as (Hnd & _).
  apply Forall_app in Hall as [Hall _]. apply Forall_app in Hjs as [Hjs _].
  split; [done|]. split; [done|]. split; [done|]. split; [done|]. intros k item Hk _.
  apply (Hun k); [|done]. by apply lookup_app_l_Some.
Qed.

(** * The whole run *)

(** The commands before the first shutdown, its response, the commands after. *)
Fixpoint until_stop (commands : list WriteCommand) : list WriteCommand * option nat * list WriteCommand :=
  match commands with
  | [] => ([], None, [])
  | Shutdown response :: commands => ([], Some response, commands)
  | command :: commands =>
      let '(before, response, after) := until_stop commands in (command :: before, response, after)
  end.

Lemma take_batch_spec n commands batch shutdown rest :
  take_batch n commands = (batch, shutdown, rest) →
  if shutdown is Some response then until_stop commands = (batch, Some response, rest)
  else until_stop commands =
         (let '(before, response, after) := until_stop rest in (batch ++ before, response, after)) ∧
       (length rest <= length commands)%nat.
Proof.
  revert n batch shutdown rest.
  induction commands as [|c commands IH]; intros n batch shutdown rest Htake.
  { destruct n; by simplify_eq/=. }
  destruct n as [|n].
  { simpl in Htake. simplify_eq. split; [|done].
    by destruct (until_stop (c :: commands)) as [[??]?]. }
  destruct c; cbn [take_batch until_stop] in *; [| |by simplify_eq].
  all: destruct (take_batch n commands) as [[b sh] r] eqn:Hb; injection Htake as <- <- <-;
    apply IH in Hb; destruct sh; [by rewrite Hb|]; destruct Hb as [Hb Hlen]; rewrite Hb;
    (split; [|simpl; lia]); by destruct (until_stop r) as [[??]?].
Qed.

Lemma enqueues_app l l' : enqueues (l ++ l') = enqueues l ++ enqueues l'.
Proof. apply omap_app. Qed.
Lemma acknowledgements_app l l' : acknowledgements (l ++ l') = acknowledgements l ++ acknowledgements l'.
Proof. apply omap_app. Qed.

(** The state after the commands [before] and the shutdown, if there is one. *)
Definition written (before : list WriteCommand) (response : option nat) (k k' : Worker) : Prop :=
  persists (in_id <$> enqueues before) (k_db k) (k_db k') ∧
  (∀ item, item ∈ enqueues before → ∃ r, stored (k_db k') item r) ∧
  (∀ r, is_Some (k_replies k !! r) → is_Some (k_replies k' !! r)) ∧
  (∀ ack, ack ∈ acknowledgements before → is_Some (k_replies k' !! ack.2)) ∧
  k_stopped k' = k_stopped k ++ option_list response.

Lemma written_app batch before response k k1 k' :
  written batch None k k1 → written before response k1 k' → written (batch ++ before) response k k'.
Proof.
  intros (P1 & S1 & R1 & A1 & T1) (P2 & S2 & R2 & A2 & T2). unfold written.
  rewrite enqueues_app, acknowledgements_app, fmap_app. split_and!.
  - etrans; (eapply persists_mono; [|done]); set_solver.
  - intros item [Hi|Hi]%elem_of_app; [|by apply S2]. destruct (S1 item Hi) as [r Hr]. exists r.
    by eapply persists_stored.
  - eauto.
  - intros ack [Ha|Ha]%elem_of_app; eauto.
  - rewrite T2, T1. simpl. by rewrite app_nil_r.
Qed.

Section rounds.
Context (arrives : nat → nat) (N i batch_size fuel : nat).
Context (Hcalm : calm_from N) (Hfuel : (N < fuel)%nat).

(** One batch. *)
Lemma write_batch batch w :
  committable i (enqueues batch) (k_db (st w)) →
  ∃ w1 w', write_enqueues fuel (enqueues batch) w = (Ok true, w1) ∧
    write_delivered (acknowledgements batch) w1 = (Ok (), w') ∧ written batch None (st w) (st w').
Proof.
  intros Hc. destruct (write_enqueues_spec N i (enqueues batch) fuel w) as (w1 & H1' & W1 & T1 & S1);
    [done|lia|lia|done|].
  destruct (write_delivered_spec (acknowledgements batch) w1) as (w' & H2' & W2 & T2 & A2).
  exists w1, w'. split; [done|]. split; [done|].
  destruct W1 as (P1 & K1 & R1), W2 as (P2 & K2 & R2). split_and!.
  - etrans; [done|]. eapply persists_mono; [|done]. by intros x Hx%elem_of_nil.
  - intros item Hi. destruct (S1 item Hi) as [r Hr]. exists r. by eapply persists_stored.
  - eauto.
  - done.
  - simpl. rewrite app_nil_r. congruence.
Qed.

Lemma run_writer_batch rounds c commands w :
  (∀ r, c ≠ Shutdown r) →
  run_writer arrives (S rounds) fuel batch_size (c :: commands) w =
    let '(batch, shutdown, rest) :=
      take_batch (Nat.min (batch_size - 1) (arrives (tick w))) commands in
    (written ← write_enqueues fuel (enqueues (c :: batch));
     if negb written then mret None
     else
     _ ← write_delivered (acknowledgements (c :: batch));
     match shutdown with
     | Some response => _ ← stop response; mret (Some rest)
     | None => run_writer arrives rounds fuel batch_size rest
     end) w.
Proof. intros Hns. destruct c; [done|done|]. by destruct (Hns response). Qed.

Lemma until_stop_cons c commands :
  (∀ r, c ≠ Shutdown r) →
  until_stop (c :: commands) =
    let '(before, response, after) := until_stop commands in (c :: before, response, after).
Proof. intros Hns. destruct c; [done|done|]. by destruct (Hns response). Qed.

Lemma run_writer_spec rounds commands w before response after :
  (length commands <= rounds)%nat → until_stop commands = (before, response, after) →
  committable i (enqueues before) (k_db (st w)) →
  ∃ w', run_writer arrives rounds fuel batch_size commands w = (Ok (Some after), w') ∧
    written before response (st w) (st w').
Proof.
  revert commands w before. induction rounds as [|rounds IH]; intros commands w before Hlen Hstop Hc.
  all: destruct commands as [|c commands]; [|try (simpl in Hlen; lia)].
  1,2: injection Hstop as <- <- <-; exists w; split; [done|]; unfold written; split_and!; try done;
    [by intros ? ?%elem_of_nil..|by rewrite app_nil_r].
  assert ((∃ r, c = Shutdown r) ∨ ∀ r, c ≠ Shutdown r) as [[r ->]|Hns]
    by (destruct c; [by right..|left; by eexists]).
  { injection Hstop as <- <- <-. cbn [run_writer]. unfold stop. run. eexists. split; [done|].
    unfold written. split_and!; try done; by intros ? ?%elem_of_nil. }
  rewrite (run_writer_batch _ _ _ _ Hns). set (n := Nat.min _ _).
  destruct (take_batch n commands) as [[batch shutdown] rest] eqn:Hb. apply take_batch_spec in Hb.
  rewrite (until_stop_cons _ _ Hns) in Hstop. destruct shutdown as [response'|].
  - rewrite Hb in Hstop. injection Hstop as <- <- <-.
    destruct (write_batch (c :: batch) w Hc) as (w1 & w2 & Hw1 & Hw2 & Hwr).
    rewrite run_bind, Hw1. cbn [negb]. rewrite run_bind, Hw2. unfold stop. run.
    eexists. split; [done|]. rewrite <-(app_nil_r (c :: batch)). eapply written_app; [done|].
    unfold written. split_and!; try done; by intros ? ?%elem_of_nil.
  - destruct Hb as [Hb Hle]. rewrite Hb in Hstop.
    destruct (until_stop rest) as [[before' response'] after'] eqn:Hr. injection Hstop as <- <- <-.
    change (c :: batch ++ before') with ((c :: batch) ++ before') in *. rewrite enqueues_app in Hc.
    destruct (write_batch (c :: batch) w) as (w1 & w2 & Hw1 & Hw2 & Hwr); [by eapply committable_first|].
    rewrite run_bind, Hw1. cbn [negb]. rewrite run_bind, Hw2.
    destruct (IH rest w2 before') as (w' & Hrun & Hw'); [simpl in Hlen; lia|done| |].
    { eapply committable_rest; [done|apply Hwr]. }
    exists w'. split; [done|]. by eapply written_app.
Qed.


End rounds.

(** An admitted message is not lost: whatever the storage answers at first,
    once it stops failing the worker has committed every publish that its channel
    delivered before the shutdown, answered every acknowledgement, kept every
    message that was stored before and given the shutdown its response; the
    commands behind the shutdown are all it leaves. *)
Theorem writer_persists (arrives : nat → nat) N i batch_size fuel commands w before response after :
  calm_from N → (N < fuel)%nat → until_stop commands = (before, response, after) →
  committable i (enqueues before) (k_db (st w)) →
  ∃ w', run_writer arrives (length commands) fuel batch_size commands w = (Ok (Some after), w') ∧
    persists (in_id <$> enqueues before) (k_db (st w)) (k_db (st w')) ∧
    (∀ item, item ∈ enqueues before → ∃ r, stored (k_db (st w')) item r) ∧
    (∀ id lease r, Delivered id lease r ∈ before → is_Some (k_replies (st w') !! r)) ∧
    k_stopped (st w') = k_stopped (st w) ++ option_list response.
Proof.
  intros Hcalm Hfuel Hstop Hc.
  destruct (run_writer_spec arrives N i batch_size fuel Hcalm Hfuel (length commands) commands w
    before response after) as (w' & Hrun & P & S & _ & A & T); [done..|].
  exists w'. split; [done|]. split; [done|]. split; [done|]. split; [|done].
  intros id lease r Hin. apply (A (id, lease, r)). apply list_elem_of_omap. by eexists.
Qed.

End run.

(** * The property in the demonstration environment *)

(** A storage that refuses its first two statements. *)
Definition flaky_oracle : Oracle := {|
  clock n := demo_start + Z.of_nat n * 10 ^ 9;
  uuid n := uuid (Oracle := demo_oracle) n;
  fault n := if (n <? 2)%nat then Some "database is locked" else None;
  any_order A _ l := l
|}.

Definition demo_commands : list WriteCommand :=
  map Enqueue demo_items ++ [Delivered "s01-x" "lease" 7; Shutdown 8; Shutdown 9].

Lemma writer_persists_witness :
  ∃ w', run_writer (H := flaky_oracle) (H0 := demo_chrono) (H1 := demo_serde) (λ _, 2%nat)
          (length demo_commands) 3 500 demo_commands
          (mkWorld (mkWorker empty_db (mkNotes ∅ None) ∅ []) 0) = (Ok (Some [Shutdown 9]), w') ∧
    (∀ item, item ∈ demo_items → ∃ r, stored (H1 := demo_serde) (k_db (st w')) item r) ∧
    is_Some (k_replies (st w') !! 7%nat) ∧ k_stopped (st w') = [8%nat].
Proof.
  edestruct (writer_persists (H := flaky_oracle) (H0 := demo_chrono) (H1 := demo_serde)
    (λ _, 2%nat) 2 1 500 3 demo_commands (mkWorld (mkWorker empty_db (mkNotes ∅ None) ∅ []) 0))
    as (w' & Hrun & _ & Hst & Hre & Hstop).
  - intros n Hn. simpl. by rewrite (proj2 (Nat.ltb_ge n 2)).
  - lia.
  - reflexivity.
  - split_and!.
    + apply (bool_decide_unpack _). by vm_compute.
    + by repeat constructor.
    + by apply (bool_decide_unpack _); vm_compute.
    + split; [done|]. intros k item Hk _. do 3 (destruct k as [|k]; [injection Hk as <-; by vm_compute|]). done.
  - exists w'. split; [exact Hrun|]. split; [exact Hst|]. split; [|exact Hstop].
    apply (Hre "s01-x" "lease" 7%nat). do 3 right. left.
Defined.

End WriterRun.
