(* ===== verification/Subscribers.v ===== *)
(** Live subscriptions and acknowledgements in flight: src/src/subscribers.rs.

    A stream sender is the number of its channel; a [oneshot] channel is the
    number under which its receiver finds the decision. *)

From S2P Require Import Prelude RustStr Topic Effects.
Import Topic.

Module Subscribers.

(** * Subscriptions *)

(** [SessionInfo]. *)
Record SessionInfo := {
  si_id : string;
  si_topic : string;
  si_peer : string;
  si_connected_at : string;
  si_protocol : string;
  si_version : string;
  si_host : string
}.

(** [LiveEntry]. *)
Record LiveEntry := mkEntry { le_info : SessionInfo; le_tx : nat }.

(** [TopicSubscribers]: sessions by filter. *)
Abbreviation TopicSubscribers := (gmap string (gmap string LiveEntry)).

(** [TopicSubscribers::add]. *)
Definition add (topic session : string) (tx : nat) (peer protocol version host connected_at : string)
    (s : TopicSubscribers) : TopicSubscribers :=
  let entry := {| le_info := {| si_id := session; si_topic := topic; si_peer := peer;
                             si_connected_at := connected_at; si_protocol := protocol;
                             si_version := version; si_host := host |}; le_tx := tx |} in
  partial_alter (λ o, Some (<[session := entry]> (default ∅ o))) topic s.

(** [TopicSubscribers::remove]. *)
Definition remove (topic session : string) (s : TopicSubscribers) : TopicSubscribers :=
  match s !! topic with
  | Some sessions =>
      let sessions := delete session sessions in
      if decide (sessions = ∅) then delete topic s else <[topic := sessions]> s
  | None => s
  end.

(** [TopicSubscribers::covers]. *)
Definition covers (published_topic : string) (s : TopicSubscribers) : bool :=
  existsb (λ '((filter, sessions) : string * gmap string LiveEntry),
    negb (bool_decide (sessions = ∅)) && filter_matches filter published_topic) (map_to_list s).

(** [TopicSubscribers::is_live]. *)
Definition is_live (topic consumer_id : string) (s : TopicSubscribers) : bool :=
  if s !! topic is Some sessions then bool_decide (is_Some (sessions !! consumer_id)) else false.

Definition session_le (a b : SessionInfo) : Prop :=
  str_ltb (si_topic a) (si_topic b) = true ∨ (si_topic a = si_topic b ∧ str_le (si_id a) (si_id b)).
#[export] Instance session_le_dec : RelDecision session_le.
Proof. unfold session_le. intros a b. apply _. Defined.

Section orders.
Context `{Oracle}.

(** [TopicSubscribers::topics]: the filters, in some order. *)
Definition topics (n : nat) (s : TopicSubscribers) : list string := any_order n (map_to_list s).*1.

(** [TopicSubscribers::sessions]. *)
Definition sessions (n : nat) (s : TopicSubscribers) : list SessionInfo :=
  merge_sort session_le (map le_info (any_order n (map_to_list s) ≫= λ '(_, sessions), (map_to_list sessions).*2)).

(** The loop of [matching_senders]: the first entry seen of a session counts. *)
Definition seen_senders (published_topic : string) (topics : list (string * gmap string LiveEntry))
    : gmap string nat :=
  foldl (λ seen '(filter, sessions),
    if negb (filter_matches filter published_topic) then seen
    else map_fold (λ id entry, partial_alter (λ o, Some (default (le_tx entry) o)) id) seen sessions)
    ∅ topics.

(** [TopicSubscribers::matching_senders]: the maps are iterated in some order. *)
Definition matching_senders (n : nat) (published_topic : string) (s : TopicSubscribers)
    : list (string * nat) :=
  any_order n (map_to_list (seen_senders published_topic (any_order n (map_to_list s)))).

(** [TopicSubscribers::matching_count]. *)
Definition matching_count (n : nat) (published_topic : string) (s : TopicSubscribers) : nat :=
  length (matching_senders n published_topic s).

End orders.

(** * Acknowledgements in flight *)

(** [AckDecision]. *)
Record AckDecision := { ack_success : bool; ack_error : string }.

(** [InflightAcks] with the channels its entries refer to: the decisions sent, and
    the receivers that are gone. *)
Record InflightAcks := mkAcks {
  pending : gmap string (string * nat);
  decided : gmap nat AckDecision;
  gone : gset nat;
  next_channel : nat
}.

Definition no_acks : InflightAcks := mkAcks ∅ ∅ ∅ 0.

(** [InflightAcks::register]: the receiver. *)
Definition register (message_id lease : string) (a : InflightAcks) : nat * InflightAcks :=
  let rx := next_channel a in
  (rx, mkAcks (<[lease := (message_id, rx)]> (pending a)) (decided a) (gone a) (S rx)).

(** [InflightAcks::complete]. *)
Definition complete (message_id lease : string) (success : bool) (error : string) (a : InflightAcks)
    : bool * InflightAcks :=
  match pending a !! lease with
  | Some (id, rx) =>
      if bool_decide (id = message_id)
      then let rest := delete lease (pending a) in
           if bool_decide (rx ∈ gone a) then (false, mkAcks rest (decided a) (gone a) (next_channel a))
           else (true, mkAcks rest (<[rx := {| ack_success := success; ack_error := error |}]> (decided a))
                              (gone a) (next_channel a))
      else (false, a)
  | None => (false, a)
  end.

(** [InflightAcks::cancel]. *)
Definition cancel (lease : string) (a : InflightAcks) : InflightAcks :=
  mkAcks (delete lease (pending a)) (decided a) (gone a) (next_channel a).

(** Dropping a receiver. *)
Definition drop_receiver (rx : nat) (a : InflightAcks) : InflightAcks :=
  mkAcks (pending a) (decided a) ({[rx]} ∪ gone a) (next_channel a).

(** * Guards *)

(** [SubscriptionGuard]. *)
Record SubscriptionGuard := mkGuard { g_topic : string; g_session : string }.

(** [SubscriptionGuard::new]. *)
Definition guard_new (topic session : string) (tx : nat) (peer protocol version host connected_at : string)
    (s : TopicSubscribers) : SubscriptionGuard * TopicSubscribers :=
  (mkGuard topic session, add topic session tx peer protocol version host connected_at s).

(** [SubscriptionGuard::drop]. *)
Definition guard_drop (g : SubscriptionGuard) (s : TopicSubscribers) : TopicSubscribers :=
  remove (g_topic g) (g_session g) s.

(** * Lemmas: who is told *)

(** A session has an entry under a filter that matches the topic. *)
Definition subscribed (topic id : string) (t : nat) (l : list (string * gmap string LiveEntry)) : Prop :=
  ∃ filter sessions e, (filter, sessions) ∈ l ∧ filter_matches filter topic = true ∧
    sessions !! id = Some e ∧ le_tx e = t.

Lemma lookup_first_entries (seen : gmap string nat) (entries : gmap string LiveEntry) id :
  map_fold (λ id entry, partial_alter (λ o, Some (default (le_tx entry) o)) id) seen entries !! id =
    match seen !! id with Some t => Some t | None => le_tx <$> entries !! id end.
Proof.
  revert id. apply (map_fold_weak_ind (λ acc entries, ∀ id, acc !! id =
    match seen !! id with Some t => Some t | None => le_tx <$> entries !! id end)).
  { intros id. rewrite lookup_empty. by destruct (seen !! id). }
  intros k e m acc Hk IH id. destruct (decide (k = id)) as [<-|Hne].
  - rewrite lookup_partial_alter_eq, lookup_insert_eq, IH, Hk. by destruct (seen !! k).
  - by rewrite lookup_partial_alter_ne, lookup_insert_ne, IH by done.
Qed.

Lemma seen_senders_spec topic l id :
  (∀ t, seen_senders topic l !! id = Some t → subscribed topic id t l) ∧
  (seen_senders topic l !! id = None → ∀ t, ¬ subscribed topic id t l).
Proof.
  unfold seen_senders. induction l as [|[filter entries] l IH] using rev_ind.
  { split; [done|]. intros _ t (? & ? & ? & Hin%elem_of_nil & _). done. }
  rewrite foldl_app. cbn [foldl]. set (seen := foldl _ ∅ l) in *. destruct IH as [IHs IHn].
  assert (∀ t, subscribed topic id t (l ++ [(filter, entries)]) ↔ subscribed topic id t l ∨
    (filter_matches filter topic = true ∧ ∃ e, entries !! id = Some e ∧ le_tx e = t)) as Hsub.
  { intros t. unfold subscribed. setoid_rewrite elem_of_app. setoid_rewrite list_elem_of_singleton. split.
    - intros (f & ss & e & [Hin|[= -> ->]] & Hf & He & Ht); [left; by exists f, ss, e|right].
      split; [done|]. by exists e.
    - intros [(f & ss & e & Hin & Hrest)|(Hf & e & He & Ht)]; [exists f, ss, e; by auto|].
      exists filter, entries, e. by auto. }
  setoid_rewrite Hsub. destruct (filter_matches filter topic) eqn:Hf; cbn [negb].
  - rewrite lookup_first_entries. destruct (seen !! id) as [t0|] eqn:Hs.
    + split; [|done]. intros t [= <-]. left. by apply IHs.
    + split.
      * intros t (e & He & ->)%fmap_Some. right. split; [done|]. by exists e.
      * intros Hnone%fmap_None t [Hl|(_ & e & He & _)]; [by eapply IHn|congruence].
  - split.
    + intros t Ht. left. by apply IHs.
    + intros Hnone t [Hl|[[=] _]]. by eapply IHn.
Qed.

Lemma subscribed_perm topic id t l l' : l ≡ₚ l' → subscribed topic id t l → subscribed topic id t l'.
Proof. intros Hp (f & ss & e & Hin & Hrest). exists f, ss, e. by rewrite <-Hp. Qed.

Section told.
Context `{Oracle, !OrderLaws}.

Lemma elem_of_senders n topic s id t :
  (id, t) ∈ matching_senders n topic s ↔ seen_senders topic (any_order n (map_to_list s)) !! id = Some t.
Proof. unfold matching_senders. by rewrite any_order_perm, elem_of_map_to_list. Qed.

(** A published message is addressed to exactly the sessions subscribed to it:
    [matching_senders] lists every session with a filter that matches the topic,
    once, with a channel of one of its matching entries, and no other session;
    [covers] says whether there is one. *)
Theorem matching_exact n topic s :
  NoDup (matching_senders n topic s).*1 ∧
  (∀ id t, (id, t) ∈ matching_senders n topic s → subscribed topic id t (map_to_list s)) ∧
  (∀ id t, subscribed topic id t (map_to_list s) → id ∈ (matching_senders n topic s).*1) ∧
  (covers topic s = true ↔ matching_senders n topic s ≠ []).
Proof.
  set (l := any_order n (map_to_list s)). assert (l ≡ₚ map_to_list s) as Hl by apply any_order_perm.
  assert (∀ id t, (id, t) ∈ matching_senders n topic s → subscribed topic id t (map_to_list s)) as Hsound.
  { intros id t Hin%elem_of_senders. apply (subscribed_perm _ _ _ l); [done|].
    by apply (seen_senders_spec topic l id). }
  assert (∀ id t, subscribed topic id t (map_to_list s) → id ∈ (matching_senders n topic s).*1) as Hcomplete.
  { intros id t Hsub%(subscribed_perm _ _ _ _ l); [|done].
    destruct (seen_senders topic l !! id) as [t'|] eqn:Ht; [|by eapply seen_senders_spec in Hsub].
    apply list_elem_of_fmap. exists (id, t'). split; [done|]. by apply elem_of_senders. }
  split_and!; [|done|done|].
  - unfold matching_senders. rewrite any_order_perm. apply NoDup_fst_map_to_list.
  - unfold covers. rewrite existsb_exists. split.
    + intros ([filter entries] & Hin & [Hne Hf]%andb_prop). apply list_elem_of_In in Hin.
      apply negb_true_iff, bool_decide_eq_false in Hne. apply map_choose in Hne as (id & e & He).
      assert (id ∈ (matching_senders n topic s).*1) as Hm.
      { apply (Hcomplete id (le_tx e)). by exists filter, entries, e. }
      intros Hnil. rewrite Hnil in Hm. by apply elem_of_nil in Hm.
    + intros Hne. destruct (matching_senders n topic s) as [|[id t] r] eqn:Hm; [done|].
      destruct (Hsound id t) as (filter & entries & e & Hin & Hf & He & _); [left|].
      exists (filter, entries). split; [by apply list_elem_of_In|]. rewrite Hf, andb_true_r.
      apply negb_true_iff, bool_decide_eq_false. intros ->. done.
Qed.

End told.

Definition demo_subscribers : TopicSubscribers :=
  add "a/#" "s1" 1 "peer" "mqtt" "3.1.1" "" "now"
    (add "a/b" "s1" 1 "peer" "mqtt" "3.1.1" "" "now" (add "c" "s2" 2 "peer" "grpc" "1" "host" "now" ∅)).

Lemma matching_exact_witness :
  NoDup (matching_senders (H := demo_oracle) 0 "a/b" demo_subscribers).*1 ∧
  matching_senders (H := demo_oracle) 0 "a/b" demo_subscribers ≠ [].
Proof.
  destruct (matching_exact (H := demo_oracle) (H0 := demo_order) 0 "a/b" demo_subscribers)
    as (Hnd & _ & _ & Hcov). split; [exact Hnd|]. apply Hcov. by vm_compute.
Defined.

(** * Lemmas: acknowledgements *)

Inductive AckOp :=
  | ARegister (message_id lease : string)
  | AComplete (message_id lease : string) (success : bool) (error : string)
  | ACancel (lease : string)
  | ADrop (rx : nat).

Definition ack_exec (op : AckOp) (a : InflightAcks) : InflightAcks :=
  match op with
  | ARegister message_id lease => (register message_id lease a).2
  | AComplete message_id lease success error => (complete message_id lease success error a).2
  | ACancel lease => cancel lease a
  | ADrop rx => drop_receiver rx a
  end.

Definition ack_exec_all (ops : list AckOp) (a : InflightAcks) : InflightAcks :=
  foldl (λ a op, ack_exec op a) a ops.

(** Entries have channels of their own, on which nothing was sent yet. *)
Definition acks_ok (a : InflightAcks) : Prop :=
  (∀ lease id rx, pending a !! lease = Some (id, rx) → (rx < next_channel a)%nat ∧ decided a !! rx = None) ∧
  (∀ l1 l2 id1 id2 rx, pending a !! l1 = Some (id1, rx) → pending a !! l2 = Some (id2, rx) → l1 = l2) ∧
  (∀ rx d, decided a !! rx = Some d → (rx < next_channel a)%nat).

(** The operation concerns neither the lease nor its receiver. *)
Definition apart (lease : string) (rx : nat) (op : AckOp) : Prop :=
  match op with
  | ARegister _ l | AComplete _ l _ _ | ACancel l => l ≠ lease
  | ADrop r => r ≠ rx
  end.

Lemma complete_cases message_id lease ok err a :
  (complete message_id lease ok err a).2 = a ∨
  ∃ rx, pending a !! lease = Some (message_id, rx) ∧
    (complete message_id lease ok err a).2 =
      mkAcks (delete lease (pending a))
        (if bool_decide (rx ∈ gone a) then decided a
         else <[rx := {| ack_success := ok; ack_error := err |}]> (decided a)) (gone a) (next_channel a).
Proof.
  unfold complete. destruct (pending a !! lease) as [[id rx]|]; [|by left].
  destruct (bool_decide_reflect (id = message_id)) as [->|]; [|by left]. right. exists rx. split; [done|].
  by destruct (bool_decide (rx ∈ gone a)).
Qed.

Lemma ack_exec_ok op a : acks_ok a → acks_ok (ack_exec op a).
Proof.
  intros (Hp & Hi & Hd). destruct op as [id lease|id lease ok err|lease|rx]; cbn [ack_exec].
  - cbn [register snd]. split_and!; cbn [pending decided next_channel].
    + intros l id' rx. rewrite lookup_insert_Some. intros [[<- [= <- <-]]|[_ Hl]].
      * split; [lia|]. destruct (decided a !! next_channel a) eqn:Hx; [|done]. apply Hd in Hx. lia.
      * apply Hp in Hl as [? ?]. split; [lia|done].
    + intros l1 l2 id1 id2 rx. rewrite !lookup_insert_Some.
      intros [[<- Heq1]|[_ Hl1]] [[<- Heq2]|[_ Hl2]]; simplify_eq; try done.
      * apply Hp in Hl2. lia.
      * apply Hp in Hl1. lia.
      * by eapply Hi.
    + intros rx d Hrx%Hd. lia.
  - destruct (complete_cases id lease ok err a) as [->|(rx & Hrx & ->)]; [done|].
    split_and!; cbn [pending decided next_channel].
    + intros l id' rx'. rewrite lookup_delete_Some. intros [Hne Hl]. pose proof (Hp _ _ _ Hl) as [? ?].
      split; [done|]. case_match; [done|]. rewrite lookup_insert_ne; [done|]. intros ->.
      apply Hne. by eapply Hi.
    + intros l1 l2 id1 id2 rx'. rewrite !lookup_delete_Some. intros [_ ?] [_ ?]. by eapply Hi.
    + intros rx' d. case_match; [by apply Hd|]. rewrite lookup_insert_Some.
      intros [[<- _]|[_ ?]]; [by eapply Hp|by eapply Hd].
  - split_and!; cbn [cancel pending decided next_channel]; [| |done].
    + intros l id' rx'. rewrite lookup_delete_Some. intros [_ ?]. by eapply Hp.
    + intros l1 l2 id1 id2 rx'. rewrite !lookup_delete_Some. intros [_ ?] [_ ?]. by eapply Hi.
  - done.
Qed.

Lemma ack_exec_all_ok ops a : acks_ok a → acks_ok (ack_exec_all ops a).
Proof.
  unfold ack_exec_all. revert a. induction ops as [|op ops IH]; intros a Ha; [done|]. by apply IH, ack_exec_ok.
Qed.

(** A decision stands. *)
Lemma decided_stays ops a rx d :
  acks_ok a → decided a !! rx = Some d → decided (ack_exec_all ops a) !! rx = Some d.
Proof.
  unfold ack_exec_all. revert a. induction ops as [|op ops IH]; intros a Hok Hd; [done|]. cbn [foldl].
  apply IH; [by apply ack_exec_ok|]. destruct op as [id lease|id lease ok err|lease|r]; cbn [ack_exec]; try done.
  destruct (complete_cases id lease ok err a) as [->|(rx' & Hrx & ->)]; [done|]. cbn [decided].
  case_match; [done|]. rewrite lookup_insert_ne; [done|]. intros ->.
  apply Hok in Hrx as [_ ?]. congruence.
Qed.

(** An entry stands while nobody concerns it. *)
Lemma pending_stays ops a lease id rx :
  acks_ok a → pending a !! lease = Some (id, rx) → rx ∉ gone a → Forall (apart lease rx) ops →
  pending (ack_exec_all ops a) !! lease = Some (id, rx) ∧ rx ∉ gone (ack_exec_all ops a).
Proof.
  unfold ack_exec_all. intros Hok Hp Hg Hall. revert a Hok Hp Hg.
  induction Hall as [|op ops Hop _ IH]; intros a Hok Hp Hg; [done|]. cbn [foldl].
  apply IH; [by apply ack_exec_ok|..]; destruct op as [id' l|id' l ok err|l|r]; cbn [ack_exec apart] in *; try done.
  - cbn [register snd pending]. by rewrite lookup_insert_ne.
  - destruct (complete_cases id' l ok err a) as [->|(rx' & _ & ->)]; [done|]. cbn [pending].
    by rewrite lookup_delete_ne.
  - cbn [cancel pending]. by rewrite lookup_delete_ne.
  - by destruct (complete_cases id' l ok err a) as [->|(rx' & _ & ->)].
  - cbn [drop_receiver gone]. set_solver.
Qed.

Lemma no_acks_ok : acks_ok no_acks.
Proof. split_and!; intros *; cbn; rewrite ?lookup_empty; done. Qed.

(** An acknowledgement reaches the delivery that waits for it, and only that
    one: after [register], whatever happens to other leases, [complete] with the
    message and lease of the registration hands its decision to the receiver;
    with another message it does nothing; the decision never changes and the
    lease cannot be acknowledged again. *)
Theorem ack_reaches_waiter message_id lease ok err a rx a1 ops :
  acks_ok a → (∀ r, r ∈ gone a → (r < next_channel a)%nat) →
  register message_id lease a = (rx, a1) → Forall (apart lease rx) ops →
  let a2 := ack_exec_all ops a1 in
  (∀ other, other ≠ message_id → complete other lease ok err a2 = (false, a2)) ∧
  ∃ a3, complete message_id lease ok err a2 = (true, a3) ∧
    (∀ ops', decided (ack_exec_all ops' a3) !! rx = Some {| ack_success := ok; ack_error := err |}) ∧
    (complete message_id lease ok err a3).1 = false.
Proof.
  intros Hok Hg Hreg Hall. injection Hreg as <- <-. cbv zeta.
  set (a1 := mkAcks _ _ _ _). assert (acks_ok a1) as Hok1 by (by apply (ack_exec_ok (ARegister message_id lease))).
  destruct (pending_stays ops a1 lease message_id (next_channel a)) as [Hp Hgo].
  { done. } { unfold a1. cbn [pending]. by rewrite lookup_insert_eq. }
  { cbn [a1 gone]. intros Hin%Hg. lia. } { done. }
  pose proof (ack_exec_all_ok ops a1 Hok1) as Hok2. set (a2 := ack_exec_all ops a1) in *. split.
  - intros other Hne. unfold complete. rewrite Hp, bool_decide_eq_false_2 by done. done.
  - unfold complete at 1. rewrite Hp, bool_decide_eq_true_2, bool_decide_eq_false_2 by done.
    eexists. split; [done|]. split.
    + intros ops'. pose proof (ack_exec_ok (AComplete message_id lease ok err) a2 Hok2) as Hok3.
      cbn [ack_exec] in Hok3. unfold complete in Hok3.
      rewrite Hp, bool_decide_eq_true_2, bool_decide_eq_false_2 in Hok3 by done. cbn [snd] in Hok3.
      apply decided_stays; [done|]. cbn [decided]. by rewrite lookup_insert_eq.
    + unfold complete. cbn [pending]. by rewrite lookup_delete_eq.
Qed.

Lemma ack_reaches_waiter_witness :
  let a2 := ack_exec_all [ARegister "m2" "l2"; ACancel "l2"] (register "m1" "l1" no_acks).2 in
  ∃ a3, complete "m1" "l1" true "" a2 = (true, a3) ∧
    decided a3 !! 0%nat = Some {| ack_success := true; ack_error := "" |}.
Proof.
  destruct (ack_reaches_waiter "m1" "l1" true "" no_acks 0 (register "m1" "l1" no_acks).2
    [ARegister "m2" "l2"; ACancel "l2"]) as [_ (a3 & Hc & Hd & _)].
  - exact no_acks_ok.
  - intros r Hr%elem_of_empty. done.
  - done.
  - by repeat constructor.
  - exists a3. split; [exact Hc|]. exact (Hd []).
Defined.

(** * Guards of one session *)


End Subscribers.
