(* ===== verification/Auth.v ===== *)
(** Who may use the broker: src/src/auth.rs (service tokens), src/src/web_auth.rs
    (the console's administrator) and the URL helpers of src/src/config.rs.

    Password hashing is third-party code behind a class, which [Observe] completes by
    the password policy;
    a metadata or header value is the text [to_str] yields for it, if any. *)

From S2P Require Import Prelude RustStr Effects.

Module Auth.

(** * Service tokens *)

Definition METADATA_AUTHORIZATION : string := "authorization".
Definition METADATA_X_AUTH_TOKEN : string := "x-auth-token".
Definition METADATA_X_CLIENT_VERSION : string := "x-client-version".
Definition METADATA_X_CLIENT_HOST : string := "x-client-host".

(** [MetadataMap], by what [to_str().ok()] gives for a key. *)
Abbreviation MetadataMap := (gmap string string).

(** A trimmed text that is not empty. *)
Definition non_blank (o : option string) : option string :=
  value ← o; let value := trim value in if is_empty value then None else Some value.

(** [normalize]. *)
Definition normalize (token : option string) : option string := non_blank token.

(** [tokens_match]. *)
Definition tokens_match (expected : string) (presented : option string) : bool :=
  match presented with
  | None => false
  | Some presented =>
      if negb (len expected =? len presented) then false
      else foldl (λ acc '(l, r), Z.lor acc (Z.lxor l r)) 0
             (zip (as_bytes expected) (as_bytes presented)) =? 0
  end.

(** [bearer_or_raw]. *)
Definition bearer_or_raw (value : string) : string :=
  let value := trim value in
  trim (match strip_prefix "Bearer " value with
        | Some rest => rest
        | None => default value (strip_prefix "bearer " value)
        end).

(** [metadata_ascii]. *)
Definition metadata_ascii (metadata : MetadataMap) (key : string) : string :=
  default "" (non_blank (metadata !! key)).

Definition metadata_client_version (metadata : MetadataMap) : string :=
  metadata_ascii metadata METADATA_X_CLIENT_VERSION.
Definition metadata_client_host (metadata : MetadataMap) : string :=
  metadata_ascii metadata METADATA_X_CLIENT_HOST.

(** [apply_client_metadata]. *)
Definition apply_client_metadata (metadata : MetadataMap) (attributes : gmap string string)
    : gmap string string :=
  let or_insert key value (m : gmap string string) :=
    if is_empty value then m else partial_alter (λ o, Some (default value o)) key m in
  or_insert "host" (metadata_client_host metadata)
    (or_insert "version" (metadata_client_version metadata) attributes).

(** [metadata_token]. *)
Definition metadata_token (metadata : MetadataMap) : option string :=
  let direct := value ← metadata !! METADATA_AUTHORIZATION;
                let token := bearer_or_raw value in if is_empty token then None else Some token in
  match direct with
  | Some token => Some token
  | None => non_blank (metadata !! METADATA_X_AUTH_TOKEN)
  end.

(** [splitn(2, '=')]: the first part, and the second if there is one. *)
Fixpoint splitn2 (c : ascii) (s : string) : string * option string :=
  match s with
  | EmptyString => ("", None)
  | String a s => if Ascii.eqb a c then ("", Some s)
                  else let '(first, second) := splitn2 c s in (String a first, second)
  end.

(** [query_token]. *)
Fixpoint query_pairs (pairs : list string) : option string :=
  match pairs with
  | [] => None
  | part :: pairs =>
      let '(name, value) := splitn2 "=" part in
      if bool_decide (name = "token") && negb (is_empty (default "" value))
      then value else query_pairs pairs
  end.
Definition query_token (query : option string) : option string :=
  query_pairs (split "&" (default "" query)).

(** [http_token]. *)
Definition http_token (authorization query : option string) : option string :=
  let direct := value ← authorization;
                let token := bearer_or_raw value in if is_empty token then None else Some token in
  match direct with Some token => Some token | None => query_token query end.

(** [AuthInterceptor], made by [new] and asked by [call]. *)
Record AuthInterceptor := mkInterceptor { token : option string }.
Definition interceptor_new (token : option string) : AuthInterceptor := mkInterceptor (normalize token).
Definition enabled (i : AuthInterceptor) : bool := bool_decide (is_Some (token i)).

Definition intercept (i : AuthInterceptor) (metadata : MetadataMap) : result Status () :=
  match token i with
  | None => Ok ()
  | Some expected =>
      if tokens_match expected (metadata_token metadata) then Ok ()
      else Err (Unauthenticated
        "missing or invalid token; send authorization: Bearer <CL_BROKER_AUTH_TOKEN>")
  end.

(** * Configuration *)

(** [normalize_web_base]. *)
Definition normalize_web_base (raw : string) : option string :=
  let trimmed := trim_matches "/" (trim raw) in
  if is_empty trimmed then None else Some ("/" +:+ trimmed).

(** [sqlite_url]. *)
Definition sqlite_url (dir : string) : string :=
  let dir := trim_end_matches "/" (trim dir) in
  if starts_with "/" dir then "sqlite://" +:+ dir +:+ "/queue.db"
  else "sqlite:" +:+ dir +:+ "/queue.db".

(** [database_url]. *)
Definition database_url (data_dir : option string) : string :=
  if data_dir is Some dir then sqlite_url dir else "sqlite:./queue.db".

(** * The administrator *)

Definition DEFAULT_ADMIN_PASSWORD : string := "-Cangling@zky".
Definition SESSION_SECONDS : Z := 2 * 60 * 60.

(** argon2 and the configured password policy. *)
Class Passwords := {
  (** [PasswordPolicy::from_env()?.validate(_)]. *)
  validate : string → result string ();
  (** [PasswordPolicy::from_env()?.generate()]. *)
  generate : nat → result string string;
  (** [hash], with the salt drawn at some moment. *)
  hash : nat → string → result string string;
  (** [verify]. *)
  verify : string → string → bool
}.

(** A hash verifies exactly the password it was made from. *)
Class PasswordLaws `{Passwords} : Prop := {
  verify_hash n password h : hash n password = Ok h → verify password h = true;
  verify_only n password other h : hash n password = Ok h → verify other h = true → other = password
}.

(** The tables of [WebAuth]. *)
Record Admin := mkAdmin { admin_user : gmap string string; admin_sessions : gmap string Z }.

Section admin.
Context `{Oracle, Passwords}.

Abbreviation MA := (M Error Admin).

(** [now]: seconds since the epoch. *)
Definition now_secs : MA Z := (λ t, Z.max 0 (t / 10 ^ 9)) <$> now.

Definition or_message {A} (r : result string A) : MA A :=
  match r with Ok a => mret a | Err message => fail (Failure message) end.

(** A value drawn at random: the moment it is drawn. *)
Definition drawn {A} (f : nat → A) : MA A := λ w, (Ok (f (tick w)), mkWorld (st w) (S (tick w))).

(** [set_password]. *)
Definition set_password (password : string) : MA () :=
  _ ← or_message (validate password);
  hashed ← drawn (λ n, hash n password);
  hashed ← or_message hashed;
  _ ← stmt (λ s, ((), mkAdmin (<["admin" := hashed]> (admin_user s)) (admin_sessions s)));
  stmt (λ s, ((), mkAdmin (admin_user s) ∅)).

(** [ensure_initial_admin]. *)
Definition ensure_initial_admin (configured : option string) : MA () :=
  count ← query (λ s, size (admin_user s));
  if (0 <? count)%nat then mret ()
  else
  set_password (match configured with
                | Some value => if is_empty (trim value) then DEFAULT_ADMIN_PASSWORD else value
                | None => DEFAULT_ADMIN_PASSWORD
                end).

(** [reset_password]. *)
Definition reset_password (password : option string) : MA string :=
  password ← match password with
             | Some value => mret value
             | None => generated ← drawn generate; or_message generated
             end;
  _ ← set_password password;
  mret password.

(** [login]. *)
Definition login (password : string) : MA (option string) :=
  hashed ← query (λ s, admin_user s !! "admin");
  match hashed with
  | None => mret None
  | Some h =>
      if negb (verify password h) then mret None
      else
      token ← new_uuid;
      seen ← now_secs;
      inserted ← stmt (λ s, if admin_sessions s !! token is Some _
        then (Err (Failure "UNIQUE constraint failed: admin_sessions.token"), s)
        else (Ok (), mkAdmin (admin_user s) (<[token := seen]> (admin_sessions s))));
      _ ← lift inserted;
      mret (Some token)
  end.

(** [valid_session]. *)
Definition valid_session (token : string) : MA bool :=
  seen ← query (λ s, admin_sessions s !! token);
  match seen with
  | None => mret false
  | Some seen =>
      at_ ← now_secs;
      if SESSION_SECONDS <? Z.max 0 (at_ - Z.max seen 0)
      then _ ← stmt (λ s, ((), mkAdmin (admin_user s) (delete token (admin_sessions s)))); mret false
      else
      at_ ← now_secs;
      _ ← stmt (λ s, ((), mkAdmin (admin_user s) (alter (λ _, at_) token (admin_sessions s))));
      mret true
  end.

(** [logout]. *)
Definition logout (token : string) : MA () :=
  stmt (λ s, ((), mkAdmin (admin_user s) (delete token (admin_sessions s)))).

End admin.

(** [cookie_token], of the value of the Cookie header. *)
Definition cookie_token (cookie : option string) : option string :=
  header ← cookie;
  head (omap (λ part, strip_prefix "cangling_broker_session=" (trim part)) (split ";" header)).

End Auth.
