(* ===== verification/Delivery.v ===== *)
(** Taking messages in and handing them to subscribers: src/src/delivery.rs.

    The broker's shared state is one record.  A publish goes through [ingest]; a
    subscriber's task is [run_subscribe_loop], modelled as the sequence of its
    rounds and of the ends of the deliveries it spawned. *)

From S2P Require Import Prelude RustStr Topic Model Effects Store Db Writer Subscribers.
Import Topic Model Store Db Writer Subscribers.

Module Delivery.

(** [SatwayMessage] of the protocol. *)
Record SatwayMessage := {
  sw_message_id : string;
  sw_topic : string;
  sw_payload : list Z;
  sw_attributes : gmap string string;
  sw_created_at : string;
  sw_lease : string
}.

(** What the tasks of the broker share: the database, the writer with its
    notifications, the live subscriptions, the acknowledgements in flight, and
    the messages put on the subscribers' channels. *)
Record Broker := mkBroker {
  b_db : Db;
  b_writer : QueueWriter;
  b_notes : QueueNotifications;
  b_subs : TopicSubscribers;
  b_acks : InflightAcks;
  b_sent : list (nat * SatwayMessage)
}.

Definition set_db d b := mkBroker d (b_writer b) (b_notes b) (b_subs b) (b_acks b) (b_sent b).
Definition set_writer w b := mkBroker (b_db b) w (b_notes b) (b_subs b) (b_acks b) (b_sent b).
Definition set_notes n b := mkBroker (b_db b) (b_writer b) n (b_subs b) (b_acks b) (b_sent b).
Definition set_subs s b := mkBroker (b_db b) (b_writer b) (b_notes b) s (b_acks b) (b_sent b).
Definition set_acks a b := mkBroker (b_db b) (b_writer b) (b_notes b) (b_subs b) a (b_sent b).
Definition set_sent m b := mkBroker (b_db b) (b_writer b) (b_notes b) (b_subs b) (b_acks b) m.

(** The part of [Config] the delivery uses. *)
Record DeliveryConfig := {
  ack_timeout_secs : Z;
  consumer_prefetch : nat;
  claim_batch_size : Z;
  max_delivery_attempts : Z
}.

(** [Ingested]. *)
Inductive Ingested :=
  | IQueued (message_id : string) (duplicate : bool)
  | IDropped (message_id : string).

(** [attrs_to_map]. *)
Definition attrs_to_map (value : Json) : gmap string string :=
  match value with
  | JObject fields =>
      foldl (λ m '(key, item), if item is JString text then <[key := text]> m else m) ∅ fields
  | _ => ∅
  end.

(** The arguments of [run_subscribe_loop] that name the subscriber. *)
Record Subscriber := {
  s_topic : string;
  s_session : string;
  s_consumer_id : string;
  s_tx : nat;
  s_peer : string;
  s_protocol : string;
  s_version : string;
  s_host : string
}.

(** A spawned delivery: the message, the leases given out and the receivers of
    their acknowledgements. *)
Record Flight := mkFlight { f_message : ClaimedMessage; f_leases : list string; f_waits : list nat }.

(** What the spawned delivery makes of the decisions: whether all were positive,
    and the error of the last that was not. *)
Definition verdict (decided : gmap nat AckDecision) (waits : list nat) : bool * string :=
  foldl (λ '(all_ok, last_error) rx,
    match decided !! rx with
    | Some d => if ack_success d then (all_ok, last_error)
                else (false, if is_empty (ack_error d) then "nack" else ack_error d)
    | None => (false, last_error)
    end) (true, "ack timeout or subscriber gone") waits.

Section delivery.
Context `{Oracle, Chrono, Serde}.

(** Whether the channel takes a message before the time-out of the sender. *)
Context (accepts : nat → bool).

Abbreviation MB := (M Error Broker).

Definition on_db {A} (m : M Error Db A) : MB A := zoom b_db set_db m.
Definition on_writer {A} (m : M Error QueueWriter A) : MB A := zoom b_writer set_writer m.
Definition on_acks {A} (f : InflightAcks → A * InflightAcks) : MB A :=
  mem (λ b, let '(a, acks) := f (b_acks b) in (a, set_acks acks b)).

(** [writer.notify_ready]. *)
Definition notify_ready (topic : string) : MB () := mem (λ b, ((), set_notes (notify topic (b_notes b)) b)).

(** [subscribers.matching_senders]. *)
Definition senders_for (topic : string) : MB (list (string * nat)) := λ w,
  (Ok (matching_senders (tick w) topic (b_subs (st w))), mkWorld (st w) (S (tick w))).

(** [timeout(.., sender.send(Ok(message)))]: whether it was taken. *)
Definition send_to (channel : nat) (message : SatwayMessage) : MB bool := λ w,
  (Ok (accepts (tick w)),
   mkWorld (if accepts (tick w) then set_sent (b_sent (st w) ++ [(channel, message)]) (st w) else st w)
           (S (tick w))).

(** The name of a new [oneshot] channel. *)
Definition new_channel : MB nat := λ w, (Ok (tick w), mkWorld (st w) (S (tick w))).

(** * Taking in *)

(** [fanout_ephemeral]. *)
Definition fanout_ephemeral (topic : string) (payload : list Z) (attributes : gmap string string)
    (delivery : DeliveryMode) : MB Ingested :=
  senders ← senders_for topic;
  let senders := match delivery with Single => take 1 senders | Broadcast => senders end in
  match senders with
  | [] => message_id ← on_db (accept_dropped topic); mret (IDropped message_id)
  | _ =>
      message_id ← new_uuid;
      created_at ← rfc_now;
      let outgoing := {| sw_message_id := message_id; sw_topic := topic; sw_payload := payload;
                         sw_attributes := attributes; sw_created_at := created_at; sw_lease := "" |} in
      sent ← fold_each senders 0%nat (λ sent '(_, channel),
        taken ← send_to channel outgoing; mret (if taken : bool then S sent else sent));
      if (sent =? 0)%nat
      then message_id ← on_db (accept_dropped topic); mret (IDropped message_id)
      else _ ← on_db (record_live_fanout topic); mret (IQueued message_id false)
  end.

(** [ingest]. *)
Definition ingest (topic : string) (payload : list Z) (attributes : gmap string string)
    (idempotency_key : option string) : MB Ingested :=
  settings ← attempt (on_db (topic_config topic));
  let settings := if settings is Ok c then c else implicit topic in
  match tc_persistence settings with
  | Ephemeral => fanout_ephemeral topic payload attributes (tc_delivery settings)
  | Persistent =>
      '(message_id, duplicate) ← on_writer (writer_enqueue idempotency_key topic payload attributes);
      mret (IQueued message_id duplicate)
  end.

(** * Handing out *)

Context (config : DeliveryConfig) (sub : Subscriber).

(** The visibility of the loop's claims, in nanoseconds. *)
Definition visibility : Z := Z.max (ack_timeout_secs config) 1 * 10 ^ 9.

(** [release(..).unwrap_or(false)] and the notification. *)
Definition give_back (message : ClaimedMessage) : MB () :=
  released ← attempt (on_db (release (cm_id message) (cm_lease message)));
  match released with
  | Ok true => notify_ready (cm_topic message)
  | _ => mret ()
  end.

(** The claim of a round with [flying] deliveries in progress: as many messages
    as there are permits left, up to the batch size.  Without a permit, or after
    a storage error, there is nothing and the round ends. *)
Definition claim_ready (flying : nat) : MB (option (list (ClaimedMessage * Z))) :=
  let free := Z.of_nat (Nat.max (consumer_prefetch config) 1 - flying) in
  if free =? 0 then mret None
  else
  claimed_at ← now;
  claimed ← attempt (on_db (claim_batch_for_filter (s_topic sub) visibility
                              (Z.min (clampZ 1 128 (claim_batch_size config)) free)));
  match claimed with
  | Ok messages => mret (Some (map (λ message, (message, claimed_at)) (take (Z.to_nat free) messages)))
  | Err _ => mret None
  end.

(** The idle branch of a round, when the heart-beat is due. *)
Definition heartbeat : MB () :=
  if is_empty (s_consumer_id sub) then mret ()
  else _ ← attempt (on_db (touch_consumer (s_consumer_id sub))); mret ().

(** The loop over the targets of a message: the leases and receivers of those
    that took it. *)
Definition send_all (message : ClaimedMessage) (targets : list (string * nat))
    : MB (list string * list nat) :=
  fold_each targets ([], []) (λ '(leases, waits) '(_, channel),
    lease ← new_uuid;
    rx ← on_acks (register (cm_id message) lease);
    taken ← send_to channel {| sw_message_id := cm_id message; sw_topic := cm_topic message;
      sw_payload := cm_payload message; sw_attributes := attrs_to_map (cm_attributes message);
      sw_created_at := cm_created_at message; sw_lease := lease |};
    if taken : bool then mret (leases ++ [lease], waits ++ [rx])
    else _ ← on_acks (λ a, ((), cancel lease a)); mret (leases, waits)).

Definition cancel_all (leases : list string) : MB () :=
  for_each leases (λ lease, on_acks (λ a, ((), cancel lease a))).

(** The rest of a round, for the first message that is ready: the delivery to
    spawn, if any. *)
Definition dispatch (message : ClaimedMessage) (claimed_at : Z) : MB (option Flight) :=
  at_ ← now;
  if visibility / 2 <=? at_ - claimed_at
  then _ ← give_back message; mret None
  else
  settings ← attempt (on_db (topic_config (cm_topic message)));
  let broadcast := if settings is Ok c then bool_decide (tc_delivery c = Broadcast) else false in
  let ephemeral := if settings is Ok c then bool_decide (tc_persistence c = Ephemeral) else false in
  targets ← (if broadcast
             then senders ← senders_for (cm_topic message);
                  mret (if senders is [] then [(s_session sub, s_tx sub)] else senders)
             else mret [(s_session sub, s_tx sub)]);
  '(leases, waits) ← send_all message targets;
  match waits with
  | [] =>
      _ ← (if ephemeral
           then attempt (on_db (drop_claimed (cm_id message) (cm_lease message)
                                  "no live subscriber accepted the message"))
           else attempt (on_db (failed (cm_id message) (cm_lease message)
                                  "no live subscriber accepted the message" (max_delivery_attempts config))));
      mret None
  | _ =>
      if ephemeral
      then _ ← cancel_all leases;
           _ ← attempt (on_db (delivered (cm_id message) (cm_lease message)));
           mret None
      else mret (Some (mkFlight message leases waits))
  end.

(** The end of a spawned delivery, once all its acknowledgements are in, their
    time is over or the broker shuts down. *)
Definition settle (shutdown : bool) (flight : Flight) : MB () :=
  '(all_ok, last_error) ← mem (λ b, (verdict (decided (b_acks b)) (f_waits flight), b));
  _ ← cancel_all (f_leases flight);
  let message := f_message flight in
  if shutdown then mret ()
  else if all_ok : bool
  then response ← new_channel;
       _ ← attempt (on_writer (writer_delivered (cm_id message) (cm_lease message) response));
       mret ()
  else _ ← attempt (on_db (failed (cm_id message) (cm_lease message) last_error
                             (max_delivery_attempts config)));
       mret ().

(** * The loop *)

(** What the loop holds: messages ready to be sent, and deliveries in progress. *)
Record Hands := mkHands { h_ready : list (ClaimedMessage * Z); h_flying : list Flight }.

(** One round of the loop; [due] says whether the heart-beat is. *)
Definition round (due : bool) (h : Hands) : MB Hands :=
  ready ← (if h_ready h is [] then claim_ready (length (h_flying h)) else mret (Some (h_ready h)));
  match ready with
  | None => mret h
  | Some [] => _ ← (if due then heartbeat else mret ()); mret (mkHands [] (h_flying h))
  | Some ((message, claimed_at) :: ready) =>
      flight ← dispatch message claimed_at;
      mret (mkHands ready (h_flying h ++ option_list flight))
  end.

(** What happens while a subscriber is there: a round of its loop, the end of its
    [k]-th delivery, or a step of another task. *)
Inductive LoopEvent :=
  | ERound (due : bool)
  | ESettle (k : nat)
  | EOther (f : Broker → Broker).

Definition loop_step (h : Hands) (e : LoopEvent) : MB Hands :=
  match e with
  | ERound due => round due h
  | ESettle k =>
      match h_flying h !! k with
      | Some flight => _ ← settle false flight;
                       mret (mkHands (h_ready h) (delete k (h_flying h)))
      | None => mret h
      end
  | EOther f => mem (λ b, (h, f b))
  end.

(** After the loop: the messages not sent go back, the deliveries end, the
    subscription is dropped, and messages nobody is there to receive with it. *)
Definition leave (shutdown : bool) (guard : SubscriptionGuard) (h : Hands) : MB () :=
  _ ← for_each (h_ready h) (λ '(message, _), give_back message);
  _ ← for_each (h_flying h) (settle shutdown);
  _ ← mem (λ b, ((), set_subs (guard_drop guard (b_subs b)) b));
  covered ← mem (λ b, (covers (s_topic sub) (b_subs b), b));
  if is_wildcard_filter (s_topic sub) || covered then mret ()
  else
  persistence ← attempt (on_db (topic_persistence (s_topic sub)));
  match persistence with
  | Ok Ephemeral => _ ← attempt (on_db (drop_pending (s_topic sub))); mret ()
  | _ => mret ()
  end.

(** [run_subscribe_loop]; [shutdown] says whether the broker shuts down at its
    end. *)
Definition run_subscribe_loop (events : list LoopEvent) (shutdown : bool) : MB () :=
  connected_at ← rfc_now;
  guard ← mem (λ b, let '(guard, subs) := guard_new (s_topic sub) (s_session sub) (s_tx sub) (s_peer sub)
                      (s_protocol sub) (s_version sub) (s_host sub) connected_at (b_subs b) in
                    (guard, set_subs subs b));
  _ ← mem (λ b, let '(g, notes) := notes_subscribe (s_topic sub) (b_notes b) in ((), set_notes notes b));
  hands ← fold_each events (mkHands [] []) loop_step;
  leave shutdown guard hands.

End delivery.

End Delivery.
