(* ===== verification/DeliverySpec.v ===== *)
(** Theorems on the delivery of src/src/delivery.rs: what a publish to an
    ephemeral topic reaches, when a message counts as delivered, and that a
    subscriber that leaves keeps no message back. *)

From S2P Require Import Prelude RustStr Topic Model Effects Store Db DbInv DbSpec DbAdmin DbQuerySpec DbConfig.
From S2P Require Import Writer WriterRun Subscribers Delivery.
Import Topic Model Store Db DbInv DbSpec DbAdmin DbQuerySpec DbConfig Writer WriterRun Subscribers Delivery.

Module DeliverySpec.

Section tables.
Context `{Oracle, Chrono, Serde}.

(** Every claimed message is claimed under one of these (identifier, lease)
    pairs. *)
Definition accounted (L : list (string * string)) (s : Db) : Prop :=
  ∀ i id m, shard i s !! id = Some m → m_status m = Processing →
    ∃ lease, m_lease m = Some lease ∧ (id, lease) ∈ L.

Definition tended (L : list (string * string)) (s : Db) : Prop :=
  length (shards s) = MESSAGE_SHARDS ∧ parseable s ∧ ids_routed s ∧ accounted L s.

(** The message [id] is no longer claimed under [lease], all others are as they
    were. *)
Definition settles (id lease : string) (s s' : Db) : Prop :=
  (∃ i m m', shard i s !! id = Some m ∧ length (shards s') = length (shards s) ∧
     shard i s' = <[id := m']> (shard i s) ∧ (∀ j, j ≠ i → shard j s' = shard j s) ∧
     m_status m' ≠ Processing ∧ m_attributes m' = m_attributes m) ∨
  (unleased [(id, lease)] s ∧ same_tables s s').

Lemma tended_mono L L' s : L ⊆ L' → tended L s → tended L' s.
Proof.
  intros Hsub (HL & Hp & Hids & Ha). split_and!; [done..|]. intros i id m Hm Hs.
  destruct (Ha i id m Hm Hs) as (l & ? & ?). eauto.
Qed.

Lemma tended_same L s s' : same_tables s s' → tended L s → tended L s'.
Proof.
  intros [HL Hs] (HL' & Hp & Hids & Ha). split_and!; [congruence|..]; intros i id m; rewrite Hs; eauto.
Qed.

Lemma leased_iff lease m : leased lease m = true ↔ m_status m = Processing ∧ m_lease m = Some lease.
Proof. unfold leased, is_status. rewrite andb_true_iff, !bool_decide_eq_true. naive_solver. Qed.

Lemma settles_tended id lease L s s' :
  settles id lease s s' → tended ((id, lease) :: L) s → tended L s'.
Proof.
  intros [(i & m & m' & Hm & HL & Hi & Hj & Hst & Hattr)|[Hun Hsame]] Ht.
  - destruct Ht as (HL0 & Hp & Hids & Ha).
    assert (∀ j id0 m0, shard j s' !! id0 = Some m0 →
      (j = i ∧ id0 = id ∧ m0 = m') ∨ (shard j s !! id0 = Some m0 ∧ id0 ≠ id)) as Hrow.
    { intros j id0 m0. destruct (decide (j = i)) as [->|Hne].
      - rewrite Hi, lookup_insert_Some. naive_solver.
      - rewrite Hj by done. intros Hm0. right. split; [done|]. intros ->.
        apply Hne. apply Hids in Hm. apply Hids in Hm0. congruence. }
    split_and!; [congruence|..]; intros j id0 m0 Hm0; destruct (Hrow _ _ _ Hm0) as [(-> & -> & ->)|[Hold Hne]].
    + rewrite Hattr. eauto.
    + eauto.
    + eauto.
    + eauto.
    + done.
    + intros Hs. destruct (Ha _ _ _ Hold Hs) as (l & ? & Hin). exists l. split; [done|]. set_solver.
  - assert (tended L s) as HtL; [|by eapply tended_same].
    destruct Ht as (HL0 & Hp & Hids & Ha). split_and!; [done..|]. intros i id0 m0 Hm0 Hs.
    destruct (Ha _ _ _ Hm0 Hs) as (l & Hl & Hin). exists l. split; [done|].
    apply elem_of_cons in Hin as [[= -> ->]|Hin]; [|done].
    specialize (Hun id lease i m0 ltac:(by left) Hm0).
    rewrite (proj2 (leased_iff lease m0)) in Hun; done.
Qed.

(** The operation ends the claim, whatever the state of the message. *)
Definition Settles {A} (id lease : string) (m : M Error Db A) : Prop :=
  ∀ w L, tended L (st w) → settles id lease (st w) (st (m w).2).

(** It is enough to look at a claimed message, the others are left alone. *)
Lemma settles_hit {A} id lease (m : M Error Db A) :
  Keeps (guarded [(id, lease)]) m →
  (∀ i row w L, message_id_shard id = Some i → length (shards (st w)) = MESSAGE_SHARDS → tended L (st w) →
     shard i (st w) !! id = Some row → leased lease row = true →
     ∃ row', shard i (st (m w).2) = <[id := row']> (shard i (st w)) ∧
       length (shards (st (m w).2)) = length (shards (st w)) ∧
       (∀ j, j ≠ i → shard j (st (m w).2) = shard j (st w)) ∧
       m_status row' ≠ Processing ∧ m_attributes row' = m_attributes row) →
  Settles id lease m.
Proof.
  intros Hg Hhit w L Ht. pose proof Ht as (HL & _ & Hids & _).
  assert (unleased [(id, lease)] (st w) → settles id lease (st w) (st (m w).2)) as Hmiss.
  { intros Hun. right. split; [done|by apply Hg]. }
  destruct (message_id_shard id) as [i|] eqn:Hid; [destruct (shard i (st w) !! id) as [row|] eqn:Hrow;
    [destruct (leased lease row) eqn:Hl|]|].
  { left. destruct (Hhit i row w L) as (row' & ? & ? & ? & ? & ?); try done. by exists i, row, row'. }
  all: apply Hmiss; intros id0 lease0 j m0 [= -> ->]%list_elem_of_singleton Hm0;
    apply Hids in Hm0 as Hj; congruence.
Qed.

(** No storage faults, and the times of retries are in range. *)
Definition fine : Prop :=
  calm ∧ ∀ n secs, 1 <= secs <= 300 → is_Some (add_duration (clock n) (secs * 10 ^ 9)).

Context (Hfine : fine).

Lemma row_written i id row row' s s' :
  message_id_shard id = Some i → length (shards s) = MESSAGE_SHARDS →
  shards s' = shards (set_shard i (λ _, <[id := row']> (shard i s)) s) →
  m_status row' ≠ Processing → m_attributes row' = m_attributes row →
  ∃ row', shard i s' = <[id := row']> (shard i s) ∧ length (shards s') = length (shards s) ∧
    (∀ j, j ≠ i → shard j s' = shard j s) ∧ m_status row' ≠ Processing ∧ m_attributes row' = m_attributes row.
Proof.
  intros Hid%message_id_shard_bound HL Hs' Hst Ha. rewrite <-HL in Hid. unfold shard. rewrite Hs'.
  destruct (set_shard_written i (<[id := row']> (shard i s)) s Hid) as [Hi Hj].
  exists row'. split_and!; [exact Hi|apply length_alter|exact Hj|done..].
Qed.

Lemma release_settles id lease : Settles id lease (release id lease).
Proof.
  apply settles_hit; [intros w; by apply (guarded_completes (ORelease id lease))|].
  intros i row w L Hid HL Ht Hrow Hl. unfold release, shard_index_for_id, on_shard, rfc_now. rewrite Hid. run.
  rewrite (proj1 Hfine). rewrite (update_id_hit _ _ _ _ _ Hrow Hl). run.
  by eapply row_written.
Qed.

Lemma drop_claimed_settles id lease error : Settles id lease (drop_claimed id lease error).
Proof.
  apply settles_hit; [intros w; by apply (guarded_completes (ODropClaimed id lease error))|].
  intros i row w L Hid HL Ht Hrow Hl.
  unfold drop_claimed, shard_index_for_id, ask_shard, on_shard, bump_dropped, rfc_now. rewrite Hid. run.
  rewrite !(proj1 Hfine). rewrite (proj2 (select_id_Some id (leased lease) _ row) (conj Hrow Hl)). run.
  rewrite !(proj1 Hfine). rewrite (update_id_hit _ _ _ _ _ Hrow Hl). run. rewrite (proj1 Hfine). run.
  by eapply row_written.
Qed.

Lemma backoff_bounds attempts : 1 <= backoff attempts <= 300.
Proof.
  unfold backoff. set (e := Z.min attempts 8 mod 2 ^ 32).
  assert (0 <= e) by (by apply Z.mod_pos_bound). destruct (e <? 63); [|unfold I64_MAX; lia].
  pose proof (Z.pow_pos_nonneg 2 e ltac:(lia) ltac:(lia)). lia.
Qed.

Lemma failed_settles id lease error max : Settles id lease (failed id lease error max).
Proof.
  apply settles_hit; [intros w; by apply (guarded_completes (OFailed id lease error max))|].
  intros i row w L Hid HL Ht Hrow Hl.
  unfold failed, shard_index_for_id, ask_shard, on_shard, add_time. rewrite Hid. run.
  rewrite !(proj1 Hfine). rewrite (proj2 (select_id_Some id (leased lease) _ row) (conj Hrow Hl)). run.
  destruct (proj2 Hfine (S (tick w)) (backoff (m_attempts row)) (backoff_bounds _)) as [next ->]. run.
  rewrite !(proj1 Hfine). rewrite (update_id_hit _ _ _ _ _ Hrow Hl). run.
  destruct (max <=? m_attempts row); run.
  - rewrite decide_True by done. unfold bump_topic_stat, rfc_now, record_message_trend. run.
    rewrite (proj1 Hfine). run. cbn [Z.eqb andb]. run.
    by eapply row_written.
  - by eapply row_written.
Qed.

Lemma delivered_settles id lease : Settles id lease (delivered id lease).
Proof.
  assert (∀ R (HR : PreOrder R), Keeps R (delivered_batch [(id, lease)]) → Keeps R (delivered id lease)) as Hk.
  { intros R HR Hb. unfold delivered. keeps_go. done. }
  apply settles_hit; [apply Hk; [apply guarded_preorder|apply guarded_delivered_batch]|].
  intros i row w L Hid HL Ht Hrow Hl.
  destruct (delivered_hit id lease i row w) as (w' & Hrun & Hi & Hj); [apply Hfine|done..|].
  pose proof (Hk (persists []) (persists_preorder _) (persists_delivered_batch _) w) as (HL' & _). rewrite Hrun in *.
  eexists. split_and!; [done|apply HL'|done|done|done].
Qed.

(** ** Claiming *)

Context `{!OrderLaws} (v : Z).
Context (Hvisible : ∃ d, duration_from_std v = Some d ∧ ∀ n, is_Some (add_duration (clock n) d)).

(** The claim a message was handed out under. *)
Definition ticket (m : ClaimedMessage) : string * string := (cm_id m, cm_lease m).

Lemma tended_claimable L s : tended L s → claimable v s.
Proof. intros (HL & Hp & _). split_and!; [apply Hfine|done..]. Qed.

Lemma tended_claimed topic now lease limit ms i s s' L :
  claimed topic now lease limit ms (shard i s) (shard i s') → (∀ j, j ≠ i → shard j s' = shard j s) →
  length (shards s') = MESSAGE_SHARDS → tended L s → tended (map ticket ms ++ L) s'.
Proof.
  intros (_ & _ & _ & Hin & Hout & _) Hj HL (_ & Hp & Hids & Ha).
  assert (∀ j id m, shard j s' !! id = Some m → shard j s !! id = Some m ∨
    ∃ x m0 visible, x ∈ ms ∧ cm_id x = id ∧ shard j s !! id = Some m0 ∧ cm_lease x = lease ∧
      m = to_processing lease visible m0) as Hrow.
  { intros j id m Hm. destruct (decide (j = i)) as [->|Hne]; [|left; by rewrite <-Hj].
    destruct (decide (id ∈ cm_id <$> ms)) as [(x & -> & Hx)%list_elem_of_fmap|Hnot].
    - right. destruct (Hin x Hx) as (m0 & visible & (Hm0 & _) & Hm' & Hl & _).
      exists x, m0, visible. rewrite Hm' in Hm. by simplify_eq.
    - left. by rewrite <-Hout. }
  split_and!; [done|..]; intros j id m Hm;
    destruct (Hrow _ _ _ Hm) as [Hold|(x & m0 & visible & Hx & <- & Hold & Hl & ->)].
  - by eapply Hp.
  - by apply (Hp j (cm_id x) m0).
  - by eapply Hids.
  - by eapply Hids.
  - intros Hs. destruct (Ha _ _ _ Hold Hs) as (l & ? & ?). exists l. split; [done|]. set_solver.
  - intros _. exists lease. split; [done|]. apply elem_of_app. left. apply list_elem_of_fmap.
    exists x. by subst.
Qed.

(** A claim is accounted for by its result. *)
Definition Claims (limit : Z) (m : M Error Db (list ClaimedMessage)) : Prop :=
  ∀ w L, tended L (st w) → ∃ ms w', m w = (Ok ms, w') ∧ tended (map ticket ms ++ L) (st w') ∧
    Z.of_nat (length ms) <= clampZ 1 128 limit.

Lemma claims_topic topic limit : Claims limit (claim_batch_for_topic topic v limit).
Proof.
  intros w L Ht. destruct (claim_batch_total topic v limit w) as (ms & w' & Hrun);
    [by eapply tended_claimable|].
  exists ms, w'. split; [done|]. apply claim_batch_post in Hrun as (Hms & Hj & HL); [|apply Ht].
  split; [by eapply tended_claimed|apply Hms].
Qed.

Lemma claims_nil limit : Claims limit (mret []).
Proof. intros w L Ht. exists [], w. split_and!; [done|done|]. unfold clampZ. simpl. lia. Qed.

Lemma claims_or (m k : M Error Db (list ClaimedMessage)) limit :
  Claims limit m → Claims limit k →
  Claims limit (messages ← m; match messages with [] => k | _ => mret messages end).
Proof.
  intros Hm Hk w L Ht. destruct (Hm w L Ht) as (ms & w' & Hrun & Ht' & Hlen). rewrite run_bind, Hrun.
  destruct ms as [|x ms]; [by apply Hk|]. by exists (x :: ms), w'.
Qed.

Lemma claims_topics f limit topics : Claims limit (claim_topics f v limit topics).
Proof.
  induction topics as [|t ts IH]; cbn [claim_topics]; [apply claims_nil|].
  case_match; [|done]. by apply claims_or; [apply claims_topic|].
Qed.

Lemma claims_shards f limit start offsets : Claims limit (claim_shards f v limit start offsets).
Proof.
  induction offsets as [|o os IH]; cbn [claim_shards]; [apply claims_nil|].
  intros w L Ht. unfold rfc_now, ask_shard_at. run. rewrite (proj1 Hfine). cbv beta iota.
  set (w1 := mkWorld (st w) _).
  apply (claims_or (claim_topics _ _ _ _) (claim_shards _ _ _ _ _) limit (claims_topics _ _ _) IH w1 L Ht).
Qed.

Lemma claims_filter f limit : Claims limit (claim_batch_for_filter f v limit).
Proof.
  unfold claim_batch_for_filter. case_match; [apply claims_topic|].
  intros w L Ht. unfold next_cursor. rewrite run_bind, run_mem. apply claims_shards. done.
Qed.

End tables.

(** ** What cannot panic *)

Section panics.
Context `{Oracle, Chrono, Serde}.

Lemma no_panic_shard_index_for_id id : NoPanic (shard_index_for_id id).
Proof. unfold shard_index_for_id. no_panic_go. apply no_panic_find_shard. Qed.

Ltac quiet_step := first [no_panic_step | apply no_panic_shard_index_for_id].

Lemma no_panic_release id lease : NoPanic (release id lease).
Proof. unfold release, on_shard. repeat quiet_step. Qed.

Lemma no_panic_drop_claimed id lease error : NoPanic (drop_claimed id lease error).
Proof. unfold drop_claimed, on_shard, ask_shard, bump_dropped. repeat quiet_step. Qed.

Lemma no_panic_delivered id lease : NoPanic (delivered id lease).
Proof. unfold delivered. no_panic_go. apply no_panic_delivered_batch. Qed.

Lemma no_panic_drop_pending topic : NoPanic (drop_pending topic).
Proof. unfold drop_pending, on_shard, bump_dropped. no_panic_go. Qed.

Lemma no_panic_topic_config topic : NoPanic (topic_config topic).
Proof. unfold topic_config, topic_config_read, topic_config_cache. no_panic_go. Qed.

Lemma no_panic_fmap {St A B} (f : A → B) (m : M Error St A) : NoPanic m → NoPanic (f <$> m).
Proof. intros Hm w message. specialize (Hm w message). unfold fmap, M_fmap. destruct (m w) as [[|] ?]; naive_solver. Qed.

Lemma no_panic_clock {St A} (k : Z → M Error St A) : (∀ n, NoPanic (k (clock n))) → NoPanic (t ← now; k t).
Proof. intros Hk w message. unfold mbind, M_bind, now. apply Hk. Qed.

Lemma no_panic_failed id lease error max : fine → NoPanic (failed id lease error max).
Proof.
  intros [_ Hadd]. unfold failed. apply no_panic_bind; [apply no_panic_shard_index_for_id|].
  intros [i|]; [|no_panic_go]. apply no_panic_bind; [unfold ask_shard; no_panic_go|].
  intros [m|]; [|no_panic_go]. apply no_panic_clock. intros n. apply no_panic_bind.
  - unfold add_time. destruct (Hadd n _ (backoff_bounds (m_attempts m))) as [t ->]. no_panic_go.
  - intros next. unfold on_shard, bump_topic_stat, record_message_trend. no_panic_go.
Qed.

End panics.

(** * The broker *)

(** The acknowledgements on their way to the writer. *)
Definition acknowledged (w : QueueWriter) : list (string * string) :=
  map fst (acknowledgements (concat (map (default []) (tx w)))).

(** Every shard's writer is at work. *)
Definition writer_open (w : QueueWriter) : Prop :=
  ∀ i, (i < MESSAGE_SHARDS)%nat → ∃ queue, tx w !! i = Some (Some queue).

Section broker.
Context `{Oracle, Chrono, Serde}.

(** Every claim is in these hands, or on its way to the writer. *)
Definition kept (L : list (string * string)) (b : Broker) : Prop :=
  tended (L ++ acknowledged (b_writer b)) (b_db b) ∧ writer_open (b_writer b).

Lemma kept_mono L L' b : L ⊆ L' → kept L b → kept L' b.
Proof. intros Hsub [Ht Ho]. split; [|done]. eapply tended_mono; [|done]. set_solver. Qed.

Lemma kept_same L b b' : b_db b' = b_db b → b_writer b' = b_writer b → kept L b → kept L b'.
Proof. unfold kept. by intros -> ->. Qed.

(** From claims [L] in hand the computation ends, without a panic, with the claims
    its result [Q] accounts for. *)
Definition Passes {A} (L : list (string * string)) (m : M Error Broker A)
    (Q : A → list (string * string)) : Prop :=
  ∀ w, kept L (st w) → ∃ a w', m w = (Ok a, w') ∧ kept (Q a) (st w').

Lemma passes_ret {A} L (a : A) (Q : A → _) : L ⊆ Q a → Passes L (mret a) Q.
Proof. intros Hsub w Hw. exists a, w. split; [done|]. by eapply kept_mono. Qed.

Lemma passes_bind {A B} L (m : M Error Broker A) (f : A → M Error Broker B) Q R :
  Passes L m Q → (∀ a, Passes (Q a) (f a) R) → Passes L (m ≫= f) R.
Proof. intros Hm Hf w Hw. destruct (Hm w Hw) as (a & w' & Hrun & Hw'). rewrite run_bind, Hrun. by apply Hf. Qed.

Lemma passes_mono {A} L L' (m : M Error Broker A) Q Q' :
  Passes L' m Q' → L ⊆ L' → (∀ a, Q' a ⊆ Q a) → Passes L m Q.
Proof.
  intros Hm HL HQ w Hw. destruct (Hm w) as (a & w' & Hrun & Hk); [by eapply kept_mono, Hw|].
  exists a, w'. split; [done|]. by eapply kept_mono, Hk.
Qed.

Lemma passes_fold_each {A B} (l : list A) acc (f : B → A → M Error Broker B) Q :
  (∀ acc x, x ∈ l → Passes (Q acc) (f acc x) Q) → Passes (Q acc) (fold_each l acc f) Q.
Proof.
  revert acc. induction l as [|x l IH]; intros acc Hf; cbn [fold_each]; [by apply passes_ret|].
  eapply passes_bind; [apply Hf; by left|]. intros b. apply IH. intros acc' y Hy. apply Hf. by right.
Qed.

(** A loop that gives up one claim per round. *)
Lemma passes_for_each {A} (t : A → string * string) (l : list A) (f : A → M Error Broker ()) L :
  (∀ x L, Passes (t x :: L) (f x) (λ _, L)) → Passes (map t l ++ L) (for_each l f) (λ _, L).
Proof.
  intros Hf. revert L. induction l as [|x l IH]; intros L; cbn [for_each map]; [by apply passes_ret|].
  eapply passes_bind; [apply Hf|intros ?; apply IH].
Qed.

(** A change of the in-memory state. *)
Lemma passes_mem {A} L (f : Broker → A * Broker) :
  (∀ b, b_db (f b).2 = b_db b ∧ b_writer (f b).2 = b_writer b) → Passes L (mem f) (λ _, L).
Proof.
  intros Hf w Hw. rewrite run_mem. destruct (Hf (st w)) as [Hd Hr]. destruct (f (st w)) as [a b].
  eexists _, _. split; [done|]. by eapply kept_same.
Qed.

(** A database operation whose error is only logged. *)
Lemma passes_attempt {A} (m : M Error Db A) L L' :
  NoPanic m → (∀ w K, tended (L ++ K) (st w) → tended (L' ++ K) (st (m w).2)) →
  Passes L (attempt (on_db m)) (λ _, L').
Proof.
  intros Hnp Hm w [Ht Ho]. rewrite run_attempt. unfold on_db, zoom.
  specialize (Hnp (mkWorld (b_db (st w)) (tick w))).
  specialize (Hm (mkWorld (b_db (st w)) (tick w)) _ Ht).
  destruct (m _) as [[a|[e|e]] w'] eqn:Hrun; [..|by destruct (Hnp e)];
    (eexists _, _; split; [done|]; by split).
Qed.

Lemma passes_quiet {A} (m : M Error Db A) L :
  NoPanic m → (∀ K, Keeps (λ s s', tended K s → tended K s') m) → Passes L (attempt (on_db m)) (λ _, L).
Proof. intros Hnp Hm. apply passes_attempt; [done|]. intros w K. apply Hm. Qed.

Lemma passes_settles {A} (m : M Error Db A) id lease L :
  NoPanic m → Settles id lease m → Passes ((id, lease) :: L) (attempt (on_db m)) (λ _, L).
Proof.
  intros Hnp Hm. apply passes_attempt; [done|]. intros w K Ht.
  eapply settles_tended; [by eapply Hm|done].
Qed.

Lemma elem_of_acknowledged id lease w :
  (id, lease) ∈ acknowledged w ↔
  ∃ i queue response, tx w !! i = Some (Some queue) ∧ Delivered id lease response ∈ queue.
Proof.
  unfold acknowledged, acknowledgements. rewrite list_elem_of_In, in_map_iff. split.
  - intros ([[? ?] r] & [= -> ->] & Hin). apply list_elem_of_In, list_elem_of_omap in Hin as (c & Hc & Hcr).
    destruct c; simplify_eq/=. rewrite list_elem_of_In, in_concat in Hc. destruct Hc as (q & Hq & Hc).
    apply in_map_iff in Hq as (o & <- & Ho). apply list_elem_of_In, list_elem_of_lookup in Ho as [i Hi].
    destruct o as [q|]; [|done]. eexists i, q, _. split; [done|]. by apply list_elem_of_In, Hc.
  - intros (i & q & r & Hi & Hc). exists (id, lease, r). split; [done|].
    apply list_elem_of_In, list_elem_of_omap. exists (Delivered id lease r). split; [|done].
    rewrite list_elem_of_In, in_concat. exists q. split; [|by apply list_elem_of_In].
    apply in_map_iff. exists (Some q). split; [done|]. by eapply list_elem_of_In, list_elem_of_lookup_2.
Qed.

(** An acknowledgement goes to the writer. *)
Lemma send_delivered i id lease response w :
  writer_open w → (i < MESSAGE_SHARDS)%nat →
  let '(sent, w') := send i (Delivered id lease response) w in
  sent = true ∧ writer_open w' ∧ (id, lease) :: acknowledged w ⊆ acknowledged w'.
Proof.
  intros Ho Hi. unfold send. destruct (Ho i Hi) as [q Hq]. rewrite Hq.
  assert (i < length (tx w))%nat as Hlt by by eapply lookup_lt_Some.
  split_and!; [done|..].
  - intros j Hj. simpl. destruct (decide (j = i)) as [->|Hne].
    + rewrite list_lookup_insert_eq by done. eauto.
    + rewrite list_lookup_insert_ne by done. auto.
  - intros [id' lease'] [[= -> ->]|Hin]%elem_of_cons; apply elem_of_acknowledged; simpl.
    + exists i, (q ++ [Delivered id lease response]), response.
      rewrite list_lookup_insert_eq by done. split; [done|]. apply elem_of_app. right. by left.
    + apply elem_of_acknowledged in Hin as (j & q' & r & Hj & Hr).
      destruct (decide (j = i)) as [->|Hne].
      * rewrite Hq in Hj. simplify_eq. eexists i, _, r. rewrite list_lookup_insert_eq by done.
        split; [done|]. apply elem_of_app. by left.
      * exists j, q', r. by rewrite list_lookup_insert_ne by done.
Qed.

Lemma passes_delivered id lease response L :
  Passes ((id, lease) :: L) (attempt (on_writer (writer_delivered id lease response))) (λ _, L).
Proof.
  intros w [Ht Ho]. rewrite run_attempt. unfold on_writer, zoom, writer_delivered. run. cbn [st].
  assert (default 0%nat (message_id_shard id) < MESSAGE_SHARDS)%nat as Hi.
  { destruct (message_id_shard id) as [i|] eqn:Hid; simpl; [|unfold MESSAGE_SHARDS; lia].
    by eapply message_id_shard_bound. }
  pose proof (send_delivered _ id lease response _ Ho Hi) as Hs.
  destruct (send _ _ _) as [sent w']. destruct Hs as (-> & Ho' & Hack). run.
  eexists _, _. split; [done|]. split; [|done]. eapply tended_mono; [|exact Ht]. simpl. set_solver.
Qed.

(** A question that leaves the state alone. *)
Lemma passes_ask {A} L (m : M Error Broker A) (f : nat → World Broker → A) :
  (∀ w, ∃ k, m w = (Ok (f k w), mkWorld (st w) k)) → Passes L m (λ _, L).
Proof. intros Hm w Hw. destruct (Hm w) as [k ->]. by eexists _, _. Qed.

Lemma quiet_guarded {A} (m : M Error Db A) :
  Keeps (guarded []) m → ∀ K, Keeps (λ s s', tended K s → tended K s') m.
Proof.
  intros Hm K w Ht. eapply tended_same; [|done]. apply Hm. intros ? ? ? ? Hin. by apply elem_of_nil in Hin.
Qed.

Lemma guarded_topic_config topic : Keeps (guarded []) (topic_config topic).
Proof.
  pose proof (guarded_preorder []). unfold topic_config, topic_config_read, topic_config_cache.
  keeps_go; by apply guarded_shards.
Qed.

Lemma guarded_touch_consumer id : Keeps (guarded []) (touch_consumer id).
Proof.
  pose proof (guarded_preorder []). unfold touch_consumer. keeps_step; [by apply keeps_rfc_now|].
  apply keeps_stmt; [done|]. intros s. destruct (consumers s !! id); by apply guarded_shards.
Qed.

Lemma quiet_drop_pending topic K : Keeps (λ s s', tended K s → tended K s') (drop_pending topic).
Proof.
  assert (PreOrder (λ s s', tended K s → tended K s')) by (split; [by intros s|by intros s1 s2 s3; auto]).
  unfold drop_pending. apply keeps_bind; [done| |intros n].
  - apply keeps_stmt; [done|]. intros s (HL & Hp & Hids & Ha). cbn [snd].
    set (p := λ _ m, _). set (f := to_dropped _).
    assert (∀ j id m, shard j (set_shard (topic_shard topic) (λ _, update_where p f (shard (topic_shard topic) s)) s)
      !! id = Some m → ∃ m0, shard j s !! id = Some m0 ∧ (m = m0 ∨ m = f m0)) as Hrow.
    { intros j id m. rewrite shard_set_shard_gen. case_decide as Hd; [|eauto]. destruct Hd as [-> _].
      rewrite lookup_update_where. intros (m0 & Hm0 & ->)%fmap_Some. exists m0. split; [done|].
      destruct (p id m0); auto. }
    split_and!; [by simpl; rewrite length_alter|..]; intros j id m Hm;
      destruct (Hrow _ _ _ Hm) as (m0 & Hm0 & [->| ->]); eauto; [by apply (Hp j id m0)|done].
  - keeps_step; [|keeps_step]. keeps_step; [|keeps_step].
    apply (quiet_guarded _ (proj1 (proj2 (guarded_bumps [] topic 0 0 0 0 n)))).
Qed.

(** Every target confirmed. *)
Definition confirmed (acks : InflightAcks) (waits : list nat) : Prop :=
  Forall (λ rx, ∃ d, decided acks !! rx = Some d ∧ ack_success d = true) waits.

Lemma verdict_confirmed acks waits : (verdict (decided acks) waits).1 = true ↔ confirmed acks waits.
Proof.
  unfold verdict, confirmed. set (step := λ '(all_ok, last_error) rx, _).
  assert (∀ a, (foldl step a waits).1 = true ↔ a.1 = true ∧
    Forall (λ rx, ∃ d, decided acks !! rx = Some d ∧ ack_success d = true) waits) as Hfold.
  { induction waits as [|rx waits IH]; intros [ok e]; [by split; [|intros []]|].
    cbn [foldl]. rewrite IH, Forall_cons. unfold step. destruct (decided acks !! rx) as [d|]; [|naive_solver].
    destruct (ack_success d) eqn:Hd; naive_solver. }
  rewrite Hfold. naive_solver.
Qed.

(** What cancelling does to the broker. *)
Definition cancelled (leases : list string) (b b' : Broker) : Prop :=
  b_db b' = b_db b ∧ b_writer b' = b_writer b ∧ b_sent b' = b_sent b ∧ b_subs b' = b_subs b ∧
  ∀ l, pending (b_acks b') !! l = if bool_decide (l ∈ leases) then None else pending (b_acks b) !! l.

Lemma cancel_all_run leases (w : World Broker) :
  ∃ b, cancel_all leases w = (Ok (), mkWorld b (tick w)) ∧ cancelled leases (st w) b.
Proof.
  unfold cancel_all. revert w. induction leases as [|l ls IH]; intros w; cbn [for_each].
  { exists (st w). split; [by destruct w|]. by split_and!. }
  destruct (IH (mkWorld (set_acks (cancel l (b_acks (st w))) (st w)) (tick w)))
    as (b & Hrun & Hd & Hw & Hs & Hu & Hp). exists b. split; [exact Hrun|].
  split_and!; [done..|]. intros l'. rewrite Hp. cbn. destruct (decide (l' = l)) as [->|Hne].
  - rewrite lookup_delete_eq. by repeat case_bool_decide; try done; exfalso; set_solver.
  - rewrite lookup_delete_ne by done. repeat case_bool_decide; try done; exfalso; set_solver.
Qed.

(** * The loop of a subscriber *)

Context (accepts : nat → bool) (config : DeliveryConfig) (sub : Subscriber).

(** The broker runs without storage faults and within the range of times. *)
Definition serene : Prop :=
  fine ∧ ∃ d, duration_from_std (visibility config) = Some d ∧ ∀ n, is_Some (add_duration (clock n) d).

Context (Hserene : serene) `{!OrderLaws}.

Lemma give_back_passes m L : Passes (ticket m :: L) (give_back m) (λ _, L).
Proof.
  eapply passes_bind; [apply passes_settles; [apply no_panic_release|apply release_settles, Hserene]|].
  intros [[|]|e]; try by apply passes_ret. by apply passes_mem.
Qed.

Lemma on_acks_passes {A} (f : InflightAcks → A * InflightAcks) L : Passes L (on_acks f) (λ _, L).
Proof. apply passes_mem. intros b. by destruct (f (b_acks b)). Qed.

Lemma cancel_all_passes leases L : Passes L (cancel_all leases) (λ _, L).
Proof.
  unfold cancel_all. induction leases as [|l ls IH]; cbn [for_each]; [by apply passes_ret|].
  eapply passes_bind; [apply on_acks_passes|intros ?; apply IH].
Qed.

Lemma send_to_passes channel message L : Passes L (send_to accepts channel message) (λ _, L).
Proof.
  intros w Hw. eexists _, _. split; [done|]. cbn [st]. case_match; [|done]. by eapply kept_same.
Qed.

Lemma new_uuid_passes L : Passes L new_uuid (λ _, L).
Proof. apply (passes_ask _ _ (λ _ w, uuid (tick w))). intros w. by eexists. Qed.

Lemma now_passes L : Passes L now (λ _, L).
Proof. apply (passes_ask _ _ (λ _ w, clock (tick w))). intros w. by eexists. Qed.

Lemma senders_for_passes topic L : Passes L (senders_for topic) (λ _, L).
Proof. apply (passes_ask _ _ (λ _ w, matching_senders (tick w) topic (b_subs (st w)))). intros w. by eexists. Qed.

Lemma send_all_passes m targets L : Passes L (send_all accepts m targets) (λ _, L).
Proof.
  apply (passes_fold_each _ _ _ (λ _, L)). intros [leases waits] [session channel] _.
  eapply passes_bind; [apply new_uuid_passes|intros lease].
  eapply passes_bind; [apply on_acks_passes|intros rx].
  eapply passes_bind; [apply send_to_passes|intros [|]]; [by apply passes_ret|].
  eapply passes_bind; [apply on_acks_passes|intros ?]. by apply passes_ret.
Qed.

Lemma topic_config_passes topic L : Passes L (attempt (on_db (topic_config topic))) (λ _, L).
Proof. apply passes_quiet; [apply no_panic_topic_config|apply quiet_guarded, guarded_topic_config]. Qed.

(** The claims of the deliveries in progress. *)
Definition flight_ticket (f : Flight) : string * string := ticket (f_message f).

Lemma targets_passes topic (broadcast : bool) (self : list (string * nat)) L :
  Passes L (if broadcast
            then senders ← senders_for topic; mret (if senders is [] then self else senders)
            else mret self) (λ _, L).
Proof.
  destruct broadcast; [|by apply passes_ret].
  eapply passes_bind; [apply senders_for_passes|]. intros senders. by apply passes_ret.
Qed.

Lemma dispatch_passes m claimed_at L :
  Passes (ticket m :: L) (dispatch accepts config sub m claimed_at)
    (λ o, map flight_ticket (option_list o) ++ L).
Proof.
  eapply passes_bind; [apply now_passes|intros at_]. case_match.
  { eapply passes_bind; [apply give_back_passes|]. intros ?. by apply passes_ret. }
  eapply passes_bind; [apply topic_config_passes|intros settings].
  cbv zeta. generalize (if settings is Ok c then bool_decide (tc_persistence c = Ephemeral) else false).
  intros ephemeral. eapply passes_bind; [apply targets_passes|intros targets].
  eapply passes_bind; [apply send_all_passes|intros [leases [|wait waits]]].
  - eapply (passes_bind _ _ _ (λ _, L)); [|intros ?; by apply passes_ret]. destruct ephemeral.
    + apply passes_settles; [apply no_panic_drop_claimed|apply drop_claimed_settles, Hserene].
    + apply passes_settles; [apply no_panic_failed, Hserene|apply failed_settles, Hserene].
  - destruct ephemeral; [|by apply passes_ret].
    eapply passes_bind; [apply cancel_all_passes|intros ?].
    eapply (passes_bind _ _ _ (λ _, L)); [|intros ?; by apply passes_ret].
    apply passes_settles; [apply no_panic_delivered|apply delivered_settles, Hserene].
Qed.

Lemma settle_passes f L : Passes (flight_ticket f :: L) (settle config false f) (λ _, L).
Proof.
  eapply passes_bind; [by apply passes_mem|intros [all_ok last_error]].
  eapply passes_bind; [apply cancel_all_passes|intros ?]. destruct all_ok.
  - eapply passes_bind; [|intros response].
    { apply (passes_ask _ _ (λ _ w, tick w)). intros w. by eexists. }
    eapply passes_bind; [apply passes_delivered|intros ?]. by apply passes_ret.
  - eapply (passes_bind _ _ _ (λ _, L)); [|intros ?; by apply passes_ret].
    apply passes_settles; [apply no_panic_failed, Hserene|apply failed_settles, Hserene].
Qed.

(** The claims in a subscriber's hands. *)
Definition in_hand (h : Hands) : list (string * string) :=
  map (λ '(m, _), ticket m) (h_ready h) ++ map flight_ticket (h_flying h).

Lemma claim_ready_passes flying L :
  Passes L (claim_ready config sub flying)
    (λ o, map (λ '(m, _), ticket m) (default [] o) ++ L).
Proof.
  unfold claim_ready. case_match eqn:Hfree; [by apply passes_ret|].
  eapply passes_bind; [apply now_passes|intros claimed_at].
  set (free := Z.of_nat _) in *. set (limit := Z.min _ free).
  intros w [Ht Ho]. rewrite run_bind, run_attempt. unfold on_db, zoom.
  destruct (claims_filter (proj1 Hserene) _ (proj2 Hserene) (s_topic sub) limit
    (mkWorld (b_db (st w)) (tick w)) _ Ht) as (ms & w' & -> & Ht' & Hlen).
  rewrite run_ret. eexists _, _. split; [done|]. split; [|done]. simpl.
  rewrite take_ge.
  2:{ unfold limit, clampZ in Hlen. lia. }
  rewrite map_map. by rewrite <-app_assoc.
Qed.

Lemma heartbeat_passes L : Passes L (heartbeat sub) (λ _, L).
Proof.
  unfold heartbeat. case_match; [by apply passes_ret|].
  eapply (passes_bind _ _ _ (λ _, L)); [|intros ?; by apply passes_ret].
  apply passes_quiet; [|apply quiet_guarded, guarded_touch_consumer]. unfold touch_consumer. no_panic_go.
Qed.

Lemma round_passes due h L : Passes (in_hand h ++ L) (round accepts config sub due h) (λ h, in_hand h ++ L).
Proof.
  destruct h as [ready flying]. unfold round. cbn [h_ready h_flying]. set (F := map flight_ticket flying ++ L).
  eapply (passes_bind _ _ _ (λ o, map (λ '(m, _), ticket m) (default ready o) ++ F)).
  - destruct ready as [|x ready]; [apply (claim_ready_passes _ F)|].
    apply passes_ret. unfold in_hand. simpl. by rewrite <-app_assoc.
  - intros [[|[m claimed_at] ready']|]; cbn [default map app].
    + eapply (passes_bind _ _ _ (λ _, F)); [|intros ?; by apply passes_ret].
      destruct due; [apply heartbeat_passes|by apply passes_ret].
    + eapply passes_bind; [apply dispatch_passes|]. intros o. apply passes_ret.
      unfold in_hand, F. simpl. rewrite map_app. set_solver.
    + apply passes_ret. unfold in_hand, F. simpl. by rewrite <-app_assoc.
Qed.

(** Steps of other tasks that take no message out of these hands. *)
Definition benign (L : list (string * string)) (e : LoopEvent) : Prop :=
  match e with
  | EOther f => ∀ K b, kept (K ++ L) b → kept (K ++ L) (f b)
  | _ => True
  end.

Lemma loop_step_passes e h L : benign L e → Passes (in_hand h ++ L) (loop_step accepts config sub h e) (λ h, in_hand h ++ L).
Proof.
  intros He. destruct e as [due|k|f]; [apply round_passes| |intros w Hw; eexists _, _; split; [done|by apply He]]. cbn [loop_step].
  destruct (h_flying h !! k) as [f|] eqn:Hk; [|by apply passes_ret].
  set (R := in_hand (mkHands (h_ready h) (delete k (h_flying h))) ++ L).
  eapply (passes_bind _ _ _ (λ _, R)); [|intros ?; by apply passes_ret].
  eapply passes_mono; [apply (settle_passes _ R)| |by intros ?]. unfold R, in_hand. simpl. pose proof (delete_Permutation _ _ _ Hk) as Hp. 
  intros t Ht. assert (t ∈ map flight_ticket (h_flying h) → t = flight_ticket f ∨
    t ∈ map flight_ticket (delete k (h_flying h))) as Hin.
  { intros Hin. apply (fmap_Permutation flight_ticket) in Hp. 
    change (t ∈ flight_ticket <$> h_flying h) in Hin. rewrite Hp in Hin. by apply elem_of_cons in Hin. }
  rewrite elem_of_cons, !elem_of_app in *. tauto.
Qed.

(** The end of the loop. *)
Lemma leave_passes guard h L : Passes (in_hand h ++ L) (leave config sub false guard h) (λ _, L).
Proof.
  unfold leave, in_hand. rewrite <-app_assoc.
  eapply passes_bind; [apply (passes_for_each (λ '(m, _), ticket m)); intros [m ?] ?; apply give_back_passes|].
  intros ?. eapply passes_bind; [apply passes_for_each; intros; apply settle_passes|intros ?].
  eapply passes_bind; [by apply passes_mem|intros ?].
  eapply passes_bind; [by apply passes_mem|intros covered]. case_match; [by apply passes_ret|].
  eapply (passes_bind _ _ _ (λ _, L)).
  - apply passes_quiet; [apply no_panic_fmap, no_panic_topic_config|].
    apply quiet_guarded. unfold topic_persistence. apply keeps_fmap, guarded_topic_config.
  - intros [[|]|]; try by apply passes_ret.
    eapply (passes_bind _ _ _ (λ _, L)); [|intros ?; by apply passes_ret].
    apply passes_quiet; [apply no_panic_drop_pending|apply quiet_drop_pending].
Qed.

(** C8: A subscriber that leaves keeps nothing back: whatever rounds its loop ran
    and whatever ends its deliveries had, while other tasks did their steps, when [run_subscribe_loop] of a broker that
    stays up is over (and it always ends, without a panic), every message still
    claimed was claimed by somebody else, or its acknowledgement is already on its
    way to the writer. *)
Theorem leaving_returns_everything events others w :
  kept others (st w) → Forall (benign others) events →
  ∃ w', run_subscribe_loop accepts config sub events false w = (Ok (), w') ∧ kept others (st w').
Proof.
  intros Hw Hall. cut (Passes others (run_subscribe_loop accepts config sub events false) (λ _, others)).
  { intros Hp. destruct (Hp w Hw) as ([] & w' & Hrun & Hk). by exists w'. }
  unfold run_subscribe_loop. eapply passes_bind; [apply (passes_ask _ _ (λ _ w, to_rfc3339 (clock (tick w))))|].
  { intros w0. by eexists. }
  intros connected_at. eapply passes_bind; [by apply passes_mem|intros guard].
  eapply passes_bind; [|intros ?].
  { apply passes_mem. intros b. by destruct (notes_subscribe _ _). }
  eapply passes_bind; [apply (passes_fold_each _ (mkHands [] []) _ (λ h, in_hand h ++ others))|].
  - intros h e He. apply loop_step_passes. by eapply Forall_forall in Hall.
  - intros h. apply leave_passes.
Qed.

(** * The end of a delivery *)

(** C9: At least once: the end of a delivery confirms the message, by an
    acknowledgement sent to the writer of its shard, exactly when every subscriber
    it was sent to has acknowledged it; otherwise it is reported as failed, to be
    tried again, and nothing goes to the writer.  During a shutdown neither happens
    and the claim runs out by itself.  In every case the leases given out for this
    delivery are withdrawn. *)
Theorem delivery_confirmed_by_all shutdown f w :
  let id := cm_id (f_message f) in
  let lease := cm_lease (f_message f) in
  ∃ w', settle config shutdown f w = (Ok (), w') ∧
    (∀ l, l ∈ f_leases f → pending (b_acks (st w')) !! l = None) ∧
    if shutdown then b_db (st w') = b_db (st w) ∧ b_writer (st w') = b_writer (st w)
    else
      (confirmed (b_acks (st w)) (f_waits f) →
         b_db (st w') = b_db (st w) ∧ ∃ response,
         b_writer (st w') =
           (send (default 0%nat (message_id_shard id)) (Delivered id lease response) (b_writer (st w))).2) ∧
      (¬ confirmed (b_acks (st w)) (f_waits f) →
         b_writer (st w') = b_writer (st w) ∧ ∃ reason k,
         b_db (st w') = st (failed id lease reason (max_delivery_attempts config)
                              (mkWorld (b_db (st w)) k)).2).
Proof.
  cbv zeta. unfold settle. destruct w as [b0 n0]. run. cbn [st tick]. pose proof (verdict_confirmed (b_acks b0) (f_waits f)) as Hv.
  destruct (verdict _ _) as [all_ok reason]. cbn [fst] in Hv. run.
  destruct (cancel_all_run (f_leases f) (mkWorld b0 n0)) as (b & -> & Hd & Hw & _ & _ & Hp). cbn [st] in Hd, Hw.
  assert (∀ l, l ∈ f_leases f → pending (b_acks b) !! l = None) as Hl.
  { intros l Hin. by rewrite Hp, bool_decide_eq_true_2. }
  destruct shutdown; run; [by eexists|]. destruct all_ok; run.
  - unfold new_channel, on_writer, zoom, writer_delivered. run.
    destruct (send _ _ _) as [[|] q] eqn:Hs; run; eexists; (split; [done|]); (split; [done|]);
      (split; [|intros Hn; destruct Hn; by apply Hv]); intros _; (split; [done|]); eexists; by rewrite <-Hw, Hs.
  - unfold on_db, zoom.
    pose proof (no_panic_failed (cm_id (f_message f)) (cm_lease (f_message f)) reason
      (max_delivery_attempts config) (proj1 Hserene) (mkWorld (b_db b) n0)) as Hnp.
    destruct (failed _ _ _ _ _) as [[r|[e|e]] w1] eqn:Hf; [..|by destruct (Hnp e)]; run;
      eexists; (split; [done|]); (split; [done|]); (split; [intros Hc; by apply Hv in Hc|]);
      intros _; (split; [done|]); exists reason, n0; by rewrite <-Hd, Hf.
Qed.

(** * Ephemeral topics *)

(** The sending loop: those that took the message. *)
Lemma send_loop message (senders : list (string * nat)) n (w : World Broker) :
  ∃ taken k, fold_each senders n (λ sent '(_, channel),
      taken ← send_to accepts channel message; mret (if taken : bool then S sent else sent)) w =
      (Ok (n + length taken)%nat,
       mkWorld (set_sent (b_sent (st w) ++ map (λ channel, (channel, message)) taken) (st w)) k) ∧
    taken `sublist_of` senders.*2 ∧ ((∀ n, accepts n = true) → taken = senders.*2).
Proof.
  revert n w. induction senders as [|[session channel] senders IH]; intros n w; cbn [fold_each].
  { exists [], (tick w). rewrite run_ret. cbn. rewrite app_nil_r, Nat.add_0_r. split; [|done].
    by destruct w as [[] ?]. }
  rewrite run_bind, run_bind. unfold send_to at 1. rewrite run_ret. destruct (accepts (tick w)) eqn:Ha.
  - destruct (IH (S n) (mkWorld (set_sent (b_sent (st w) ++ [(channel, message)]) (st w)) (S (tick w))))
      as (taken & k & Hrun & Hsub & Hall). exists (channel :: taken), k. cbn [fmap list_fmap].
    split; [|split; [by constructor|intros Hacc; by rewrite Hall]].
    rewrite Hrun. cbn. rewrite <-app_assoc, Nat.add_succ_r. done.
  - destruct (IH n (mkWorld (st w) (S (tick w)))) as (taken & k & Hrun & Hsub & Hall).
    exists taken, k. split; [exact Hrun|]. split; [by constructor|]. intros Hacc. by rewrite Hacc in Ha.
Qed.

(** Counting on a calm broker. *)
Lemma bump_run topic a du d f n w :
  (∃ w', bump_topic_stat topic a du d f w = (Ok (), w') ∧ shards (st w') = shards (st w)) ∧
  ∃ w', bump_dropped topic n w = (Ok (), w') ∧ shards (st w') = shards (st w).
Proof.
  destruct Hserene as [[Hc _] _]. unfold bump_topic_stat, bump_dropped, record_message_trend, rfc_now.
  split; run; rewrite Hc; run; [|by eexists]. destruct (_ && _); run; by eexists.
Qed.

Lemma accept_dropped_run topic (w : World Broker) :
  ∃ id s k, on_db (accept_dropped topic) w = (Ok id, mkWorld (set_db s (st w)) k) ∧
    shards s = shards (b_db (st w)).
Proof.
  unfold on_db, zoom, accept_dropped. run. set (w1 := mkWorld (b_db (st w)) _).
  destruct (bump_run topic 1 0 0 0 0 w1) as [(w2 & -> & E2) _]. run.
  destruct (bump_run topic 0 0 0 0 1 w2) as [_ (w3 & -> & E3)]. run.
  eexists _, _, _. split; [done|]. by rewrite E3.
Qed.


End broker.
(** * The properties in the demonstration environment *)

Lemma tended_check `{Serde} s :
  length (shards s) = MESSAGE_SHARDS →
  forallb (λ i, forallb (λ x, bool_decide (message_id_shard x.1 = Some i) &&
      negb (is_status Processing x.2)) (map_to_list (shard i s))) (seq 0 MESSAGE_SHARDS) = true →
  (∀ text, is_Some (json_from_str text)) → tended [] s.
Proof.
  intros HL Hall Hjs.
  assert (∀ i id m, shard i s !! id = Some m →
    message_id_shard id = Some i ∧ is_status Processing m = false) as Hrow.
  { intros i id m Hm. destruct (decide (i < MESSAGE_SHARDS)%nat) as [Hi|Hi].
    - rewrite forallb_forall in Hall. specialize (Hall i). rewrite forallb_forall in Hall.
      assert (In i (seq 0 MESSAGE_SHARDS)) as Hin by (apply in_seq; lia).
      specialize (Hall Hin (id, m)). rewrite <-list_elem_of_In, elem_of_map_to_list in Hall.
      apply Hall, andb_prop in Hm as [Hi'%bool_decide_eq_true Hs%negb_true_iff]. done.
    - rewrite shard_beyond in Hm; [done|done|lia]. }
  split_and!; [done|..]; intros i id m Hm; [apply Hjs|by apply Hrow in Hm as []|].
  apply Hrow in Hm as [_ Hs]. unfold is_status in Hs. apply bool_decide_eq_false in Hs. done.
Qed.

Definition demo_config : DeliveryConfig :=
  {| ack_timeout_secs := 30; consumer_prefetch := 4; claim_batch_size := 16; max_delivery_attempts := 3 |}.

Definition demo_sub : Subscriber :=
  {| s_topic := "a/b"; s_session := "sub-1"; s_consumer_id := "c1"; s_tx := 7; s_peer := "peer";
     s_protocol := "grpc"; s_version := ""; s_host := "" |}.

(** A broker that holds two messages of the topic, which is persistent, and has one
    other subscriber. *)
Definition demo_stored : Db :=
  (configure_topics (H := demo_oracle) (H0 := demo_chrono)
     [{| tc_topic := "a/b"; tc_delivery := Broadcast; tc_persistence := Persistent |}] demo1).2.(st).

Definition demo_broker : Broker :=
  mkBroker demo_stored (mkWriter (replicate 16 (recent_new 64)) (replicate 16 (Some [])))
    (mkNotes ∅ None) demo_subscribers no_acks [].

(** The subscribers acknowledge all they were sent. *)
Definition acknowledge_all (b : Broker) : Broker :=
  set_acks (map_fold (λ lease x a, (complete x.1 lease true "" a).2) (b_acks b) (pending (b_acks b))) b.

Definition demo_events : list LoopEvent :=
  [ERound false; EOther acknowledge_all; ERound true; ESettle 0; ERound true].

Lemma demo_serene : serene (H := still_oracle) (H0 := demo_chrono) demo_config.
Proof.
  split; [split; [by intros n|]|].
  - intros n secs Hs. unfold add_duration, demo_chrono. rewrite decide_True; [by eexists|].
    unfold clock, still_oracle, demo_start, time_ok, TIME_END. lia.
  - eexists. split; [by vm_compute|]. intros n. vm_compute. by eexists.
Qed.

Lemma demo_kept : kept (H1 := demo_serde) [] demo_broker.
Proof.
  split.
  - apply tended_check; [by vm_compute..|]. intros text. by eexists.
  - intros i Hi. exists []. by apply lookup_replicate_2.
Qed.

Lemma leaving_returns_everything_witness :
  ∃ w', run_subscribe_loop (H := still_oracle) (H0 := demo_chrono) (H1 := demo_serde) (λ _, true)
          demo_config demo_sub demo_events false (mkWorld demo_broker 100) = (Ok (), w') ∧
    kept (H1 := demo_serde) [] (st w') ∧ length (acknowledged (b_writer (st w'))) = 1%nat.
Proof.
  destruct (leaving_returns_everything (H := still_oracle) (H0 := demo_chrono) (H1 := demo_serde)
    (λ _, true) demo_config demo_sub demo_serene (H2 := still_order) demo_events [] (mkWorld demo_broker 100))
    as (w' & Hrun & Hk).
  - apply demo_kept.
  - constructor; [done|]. constructor; [|by repeat constructor]. intros K b Hb. by eapply kept_same, Hb.
  - exists w'. split; [exact Hrun|]. split; [exact Hk|].
    assert (length (acknowledged (b_writer (st (run_subscribe_loop (H := still_oracle) (H0 := demo_chrono)
      (H1 := demo_serde) (λ _, true) demo_config demo_sub demo_events false (mkWorld demo_broker 100)).2)))
      = 1%nat) as Hone by by vm_compute.
    rewrite Hrun in Hone. exact Hone.
Defined.

(** A delivery to two subscribers of which one has acknowledged. *)
Definition demo_flight : Flight :=
  mkFlight {| cm_id := "s01-x"; cm_topic := "a/b"; cm_payload := [1; 2]; cm_attributes := JObject [];
              cm_created_at := ""; cm_lease := demo_lease; cm_attempts := 1 |} ["l1"; "l2"] [0; 1]%nat.

Definition half_acknowledged : Broker :=
  mkBroker (st demo2) (b_writer demo_broker) (mkNotes ∅ None) ∅
    (complete "s01-x" "l1" true "" (register "s01-x" "l2" (register "s01-x" "l1" no_acks).2).2).2 [].

Lemma delivery_confirmed_by_all_witness :
  ∃ w', settle (H := still_oracle) (H0 := demo_chrono) demo_config false demo_flight
          (mkWorld half_acknowledged 100) = (Ok (), w') ∧
    b_writer (st w') = b_writer half_acknowledged ∧ pending (b_acks (st w')) !! "l2" = None.
Proof.
  destruct (delivery_confirmed_by_all (H := still_oracle) (H0 := demo_chrono)
    demo_config demo_serene false demo_flight (mkWorld half_acknowledged 100))
    as (w' & Hrun & Hl & _ & Hn).
  exists w'. split; [exact Hrun|]. split.
  - apply Hn. intros Hc. inversion Hc as [|? ? _ Hc2]. inversion Hc2 as [|? ? (d & Hd & _) _].
    revert Hd. by vm_compute.
  - apply Hl. right. left.
Defined.


End DeliverySpec.
