(* ===== verification/Session.v ===== *)
(** MQTT sessions: src/src/mqtt/session.rs and the client registry of
    src/src/mqtt/mod.rs.

    A session is a state with the channels between its tasks; every turn of one of
    its tasks is an event.  The subscriber loops it spawns are recorded with their
    cancellation tokens, their behaviour is that of [Delivery]. *)

From S2P Require Import Prelude RustStr Topic Model Codec Effects Store Db Writer Subscribers Auth Delivery.
Import Topic Model Codec Store Db Writer Subscribers Auth Delivery.

Module Session.

(** * The client registry *)

(** [MqttClientInfo]. *)
Record MqttClientInfo := {
  ci_client_id : string;
  ci_peer : string;
  ci_transport : string;
  ci_connected_at : string;
  ci_version : string
}.

(** [RegistryEntry]; a token is a number. *)
Record RegistryEntry := mkRegistryEntry { re_token : nat; re_info : MqttClientInfo }.

Abbreviation ClientRegistry := (gmap string RegistryEntry).

(** [ClientRegistry::connect]: the token of the session that is replaced. *)
Definition registry_connect (client_id : string) (token : nat) (peer transport version now : string)
    (r : ClientRegistry) : option nat * ClientRegistry :=
  (re_token <$> r !! client_id,
   <[client_id := mkRegistryEntry token {| ci_client_id := client_id; ci_peer := peer;
       ci_transport := transport; ci_connected_at := now; ci_version := version |}]> r).

(** [ClientRegistry::remove_if]. *)
Definition registry_remove_if (client_id : string) (token : nat) (r : ClientRegistry) : ClientRegistry :=
  match r !! client_id with
  | Some entry => if bool_decide (re_token entry = token) then delete client_id r else r
  | None => r
  end.

(** The order of [ClientRegistry::clients]. *)
Definition client_le (a b : MqttClientInfo) : Prop :=
  str_ltb (ci_peer a) (ci_peer b) = true ∨
  (ci_peer a = ci_peer b ∧ str_leb (ci_client_id a) (ci_client_id b) = true).

#[export] Instance client_le_dec : RelDecision client_le.
Proof. unfold RelDecision, client_le. intros. apply _. Defined.

(** [ClientRegistry::clients]. *)
Definition registry_clients `{Oracle} (n : nat) (r : ClientRegistry) : list MqttClientInfo :=
  merge_sort client_le (any_order n (map (λ x, re_info x.2) (map_to_list r))).

(** * Helpers *)

Definition INGEST_CHAN : nat := 1024.

(** [granted_qos]. *)
Definition granted_qos (qos_by_topic : gmap string Z) (published_topic : string) : Z :=
  Z.min (foldr Z.max 0 (map snd (filter (λ x, filter_matches x.1 published_topic = true)
                                   (map_to_list qos_by_topic)))) 1.

(** [alloc_packet_id]: the identifier, which is also the new [next]. *)
Fixpoint alloc_loop (rounds : nat) (next : Z) (used : gmap Z (string * string)) : Z :=
  match rounds with
  | O => next
  | S rounds =>
      let next := if next =? U16_MAX then 1 else next + 1 in
      if bool_decide (is_Some (used !! next)) then alloc_loop rounds next used else next
  end.
Definition alloc_packet_id (next : Z) (used : gmap Z (string * string)) : Z :=
  alloc_loop (Z.to_nat U16_MAX) next used.

(** [keepalive_idle], in milliseconds. *)
Definition keepalive_idle (keep_alive : Z) : option Z :=
  if keep_alive =? 0 then None else Some (keep_alive * 1500).

(** [mqtt_token_authorized]. *)
Definition mqtt_token_authorized (expected : option string) (allow_anonymous : bool) (connect : Connect)
    : bool :=
  match expected with
  | None => true
  | Some expected =>
      if allow_anonymous && bool_decide (username connect = None) && bool_decide (password connect = None)
      then true
      else
      let by_password := match password connect with
        | Some password => match from_utf8 password with
                           | Some text => tokens_match expected (Some (trim text))
                           | None => false
                           end
        | None => false
        end in
      if by_password then true else tokens_match expected (username connect)
  end.

(** [MqttAuthRequest]. *)
Record MqttAuthRequest := {
  ar_username : option string;
  ar_password : option string;
  ar_client_id : string;
  ar_remote_address : string;
  ar_transport : string
}.

(** The part of [Config] a session uses. *)
Record MqttConfig := {
  mqtt_auth_url : option string;
  auth_token : option string;
  mqtt_allow_anonymous : bool
}.

(** * The state *)

(** [WriteJob]. *)
Inductive WriteJob :=
  | WPacket (packet : Packet)
  | WDeliver (packet : Packet) (ack : option (string * string)).

(** [SessionState]. *)
Record SessionState := mkState {
  ss_client_id : string;
  ss_peer : string;
  ss_transport : string;
  ss_version : string;
  ss_keep_alive : Z;
  qos_by_topic : gmap string Z;
  inflight_pub : gmap Z (string * string);
  next_packet_id : Z;
  subscriptions : gmap string nat
}.

Definition fresh_state (client_id peer transport version : string) (keep_alive : Z) : SessionState :=
  mkState client_id peer transport version keep_alive ∅ ∅ 0 ∅.

(** A session with what it shares: the broker and the registry; the tokens
    cancelled so far and the next one; its own token, which also names its channel
    for outgoing messages; the jobs of its writer
    ([None] once that is gone), the publishes for its ingest worker, the
    subscriber loops it has spawned and the packets it has put on the wire. *)
Record Session := mkSession {
  x_state : SessionState;
  x_broker : Broker;
  x_registry : ClientRegistry;
  x_cancelled : gset nat;
  x_next_token : nat;
  x_token : nat;
  x_jobs : option (list WriteJob);
  x_ingest : option (list Publish);
  x_loops : list (nat * Subscriber);
  x_wire : list Packet
}.

Definition on_state (f : SessionState → SessionState) (x : Session) : Session :=
  mkSession (f (x_state x)) (x_broker x) (x_registry x) (x_cancelled x) (x_next_token x) (x_token x)
    (x_jobs x) (x_ingest x) (x_loops x) (x_wire x).
Definition set_broker (b : Broker) (x : Session) : Session :=
  mkSession (x_state x) b (x_registry x) (x_cancelled x) (x_next_token x) (x_token x)
    (x_jobs x) (x_ingest x) (x_loops x) (x_wire x).
Definition set_registry (r : ClientRegistry) (x : Session) : Session :=
  mkSession (x_state x) (x_broker x) r (x_cancelled x) (x_next_token x) (x_token x)
    (x_jobs x) (x_ingest x) (x_loops x) (x_wire x).
Definition cancel_tokens (tokens : gset nat) (x : Session) : Session :=
  mkSession (x_state x) (x_broker x) (x_registry x) (tokens ∪ x_cancelled x) (x_next_token x) (x_token x)
    (x_jobs x) (x_ingest x) (x_loops x) (x_wire x).
Definition set_jobs (jobs : option (list WriteJob)) (x : Session) : Session :=
  mkSession (x_state x) (x_broker x) (x_registry x) (x_cancelled x) (x_next_token x) (x_token x)
    jobs (x_ingest x) (x_loops x) (x_wire x).
Definition set_ingest (ingest : option (list Publish)) (x : Session) : Session :=
  mkSession (x_state x) (x_broker x) (x_registry x) (x_cancelled x) (x_next_token x) (x_token x)
    (x_jobs x) ingest (x_loops x) (x_wire x).
Definition set_wire (wire : list Packet) (x : Session) : Session :=
  mkSession (x_state x) (x_broker x) (x_registry x) (x_cancelled x) (x_next_token x) (x_token x)
    (x_jobs x) (x_ingest x) (x_loops x) wire.

Definition set_qos q (s : SessionState) : SessionState :=
  mkState (ss_client_id s) (ss_peer s) (ss_transport s) (ss_version s) (ss_keep_alive s) q (inflight_pub s)
    (next_packet_id s) (subscriptions s).
Definition set_inflight m next (s : SessionState) : SessionState :=
  mkState (ss_client_id s) (ss_peer s) (ss_transport s) (ss_version s) (ss_keep_alive s) (qos_by_topic s) m next
    (subscriptions s).
Definition set_subscriptions m (s : SessionState) : SessionState :=
  mkState (ss_client_id s) (ss_peer s) (ss_transport s) (ss_version s) (ss_keep_alive s) (qos_by_topic s) (inflight_pub s)
    (next_packet_id s) m.

Section session.
Context `{Oracle, Chrono, Serde}.
Context (accepts : nat → bool) (config : MqttConfig).

(** The answer of the authentication service to a request: the status of its
    response, or none. *)
Context (post : nat → string → MqttAuthRequest → option Z).

(** Whether the peer takes what is written to the connection. *)
Context (takes : nat → bool).

Abbreviation MS := (M Error Session).

Definition on_broker {A} (m : M Error Broker A) : MS A := zoom x_broker set_broker m.

(** [queue_job] and [queue_packet]. *)
Definition queue_job (job : WriteJob) : MS () :=
  sent ← mem (λ x, match x_jobs x with
                   | Some jobs => (true, set_jobs (Some (jobs ++ [job])) x)
                   | None => (false, x)
                   end);
  if sent : bool then mret () else fail (Failure "mqtt writer closed").
Definition queue_packet (packet : Packet) : MS () := queue_job (WPacket packet).

(** [out.send(packet)]. *)
Definition out_send (packet : Packet) : MS () := λ w,
  if takes (tick w)
  then (Ok (), mkWorld (set_wire (x_wire (st w) ++ [packet]) (st w)) (S (tick w)))
  else (Err (Failure "send"), mkWorld (st w) (S (tick w))).

(** [token.cancel()], and a child of the session's token. *)
Definition cancel_token (token : nat) : MS () := mem (λ x, ((), cancel_tokens {[token]} x)).
Definition child_token : MS nat :=
  mem (λ x, (x_next_token x,
    mkSession (x_state x) (x_broker x) (x_registry x) (x_cancelled x) (S (x_next_token x)) (x_token x)
      (x_jobs x) (x_ingest x) (x_loops x) (x_wire x))).
Definition spawn_loop (token : nat) (sub : Subscriber) : MS () :=
  mem (λ x, ((), mkSession (x_state x) (x_broker x) (x_registry x) (x_cancelled x) (x_next_token x)
    (x_token x) (x_jobs x) (x_ingest x) (x_loops x ++ [(token, sub)]) (x_wire x))).

Definition get_state : MS SessionState := mem (λ x, (x_state x, x)).
Definition put_state (f : SessionState → SessionState) : MS () := mem (λ x, ((), on_state f x)).

(** * Handlers *)

(** [queue_outgoing]. *)
Definition queue_outgoing (message : SatwayMessage) : MS () :=
  state ← get_state;
  let qos := granted_qos (qos_by_topic state) (sw_topic message) in
  if qos =? 0
  then queue_job (WDeliver (PPublish {| dup := false; pub_qos := 0; retain := false;
         pub_topic := sw_topic message; pub_packet_id := None; pub_payload := sw_payload message |})
         (Some (sw_message_id message, sw_lease message)))
  else
  let packet_id := alloc_packet_id (next_packet_id state) (inflight_pub state) in
  _ ← put_state (λ s, set_inflight (<[packet_id := (sw_message_id message, sw_lease message)]> (inflight_pub s))
                        packet_id s);
  queue_job (WDeliver (PPublish {| dup := false; pub_qos := 1; retain := false;
    pub_topic := sw_topic message; pub_packet_id := Some packet_id; pub_payload := sw_payload message |}) None).

(** [subscribe_topic]. *)
Definition subscribe_topic (filter : SubscribeFilter) : MS Z :=
  let topic := trim (sf_topic filter) in
  if negb (is_valid_subscribe_filter topic) then mret SUBACK_FAILURE
  else
  noted ← attempt (on_broker (Delivery.on_db (note_subscribed_topic topic)));
  match noted with
  | Err _ => mret SUBACK_FAILURE
  | Ok _ =>
      let granted := Z.min (sf_qos filter) 1 in
      state ← get_state;
      _ ← (if subscriptions state !! topic is Some previous
           then _ ← put_state (λ s, set_subscriptions (delete topic (subscriptions s)) s);
                cancel_token previous
           else mret ());
      topic_cancel ← child_token;
      _ ← put_state (λ s, set_subscriptions (<[topic := topic_cancel]> (subscriptions s))
                            (set_qos (<[topic := granted]> (qos_by_topic s)) s));
      out_tx ← mem (λ x, (x_token x, x));
      _ ← spawn_loop topic_cancel
            {| s_topic := topic; s_session := "mqtt:" +:+ ss_client_id state; s_consumer_id := "";
               s_tx := out_tx; s_peer := ss_peer state; s_protocol := ss_transport state;
               s_version := ss_version state; s_host := "" |};
      mret granted
  end.

(** The loop over the filters of an UNSUBSCRIBE. *)
Definition unsubscribe_topic (topic : string) : MS () :=
  state ← get_state;
  _ ← (if subscriptions state !! topic is Some token
       then _ ← put_state (λ s, set_subscriptions (delete topic (subscriptions s)) s);
            cancel_token token
       else mret ());
  put_state (λ s, set_qos (delete topic (qos_by_topic s)) s).

(** [inflight.complete(..)], its answer ignored. *)
Definition complete_ack (message_id lease : string) : MS () :=
  on_broker (on_acks (λ a, ((), (complete message_id lease true "" a).2))).

(** [handle_packet]: whether the session is over. *)
Definition handle_packet (packet : Packet) : MS bool :=
  match packet with
  | PPublish publish =>
      sent ← mem (λ x, match x_ingest x with
        | Some publishes => (true, if (length publishes <? INGEST_CHAN)%nat
                                   then set_ingest (Some (publishes ++ [publish])) x else x)
        | None => (false, x)
        end);
      if sent : bool then mret false else fail (Failure "mqtt ingest worker closed")
  | PPubAck packet_id =>
      state ← get_state;
      _ ← (if inflight_pub state !! packet_id is Some (message_id, lease)
           then _ ← put_state (λ s, set_inflight (delete packet_id (inflight_pub s)) (next_packet_id s) s);
                complete_ack message_id lease
           else mret ());
      mret false
  | PPubRel packet_id => _ ← queue_packet (PPubComp packet_id); mret false
  | PSubscribe subscribe =>
      codes ← fold_each (sub_filters subscribe) [] (λ codes filter,
        code ← subscribe_topic filter; mret (codes ++ [code]));
      _ ← queue_packet (PSubAck {| suback_packet_id := sub_packet_id subscribe; codes := codes |});
      mret false
  | PUnsubscribe unsubscribe =>
      _ ← for_each (unsub_filters unsubscribe) unsubscribe_topic;
      _ ← queue_packet (PUnsubAck (unsub_packet_id unsubscribe));
      mret false
  | PPingReq => _ ← queue_packet PPingResp; mret false
  | PDisconnect => mret true
  | PConnect _ => fail (Failure "duplicate CONNECT")
  | PPubRec _ | PPubComp _ | PConnAck _ | PSubAck _ | PUnsubAck _ | PPingResp => mret false
  end.

(** [ingest_and_ack]. *)
Definition ingest_and_ack (client_id : string) (publish : Publish) : MS () :=
  let topic := trim (pub_topic publish) in
  if negb (is_valid_publish_topic topic) then fail (Failure "invalid mqtt publish topic")
  else
  let qos := Z.min (pub_qos publish) 2 in
  _ ← on_broker (ingest accepts topic (pub_payload publish) {["mqtt_client_id" := client_id]} None);
  if qos =? 2
  then if pub_packet_id publish is Some packet_id then queue_packet (PPubRec packet_id) else mret ()
  else if qos =? 1
  then if pub_packet_id publish is Some packet_id then queue_packet (PPubAck packet_id) else mret ()
  else mret ().

(** * The tasks of a session *)

(** One turn of [write_loop]. *)
Definition write_turn : MS () :=
  job ← mem (λ x, match x_jobs x with
                  | Some (job :: jobs) => (Some job, set_jobs (Some jobs) x)
                  | _ => (None, x)
                  end);
  match job with
  | None => mret ()
  | Some job =>
      let '(packet, ack) := match job with WPacket packet => (packet, None) | WDeliver packet ack => (packet, ack) end in
      sent ← attempt (out_send packet);
      match sent with
      | Err _ => mem (λ x, ((), set_jobs None (cancel_tokens {[x_token x]} x)))
      | Ok _ => if ack is Some (message_id, lease) then complete_ack message_id lease else mret ()
      end
  end.

(** One turn of [ingest_loop]. *)
Definition ingest_turn : MS () :=
  job ← mem (λ x, match x_ingest x with
                  | Some (publish :: publishes) => (Some publish, set_ingest (Some publishes) x)
                  | _ => (None, x)
                  end);
  match job with
  | None => mret ()
  | Some publish =>
      state ← get_state;
      _ ← attempt (ingest_and_ack (ss_client_id state) publish); mret ()
  end.

(** What happens in a session: a packet of the client, a message for it, the end of
    the input, the keep-alive time-out (which does nothing where there is none), a turn of a
    worker. *)
Inductive SessionEvent :=
  | Incoming (packet : Packet)
  | Outgoing (message : SatwayMessage)
  | InputEnd
  | IdleTimeout
  | WriteTurn
  | IngestTurn.

(** Whether the session's token, or that of the broker, is cancelled. *)
Definition session_cancelled : MS bool := mem (λ x, (bool_decide (x_token x ∈ x_cancelled x), x)).

(** One event: whether the session loop goes on. *)
Definition session_turn (e : SessionEvent) : MS bool :=
  stopped ← session_cancelled;
  if stopped : bool then mret false
  else
  match e with
  | Incoming packet => over ← handle_packet packet; mret (negb over)
  | Outgoing message => _ ← queue_outgoing message; mret true
  | InputEnd => mret false
  | IdleTimeout => state ← get_state; mret (bool_decide (keepalive_idle (ss_keep_alive state) = None))
  | WriteTurn => _ ← write_turn; mret true
  | IngestTurn => _ ← ingest_turn; mret true
  end.

(** The end of [session_loop]. *)
Definition end_session : MS () :=
  mem (λ x, ((), cancel_tokens (list_to_set (map_to_list (subscriptions (x_state x))).*2) x)).

(** [session_loop]; the end of the events is the shutdown of the broker. *)
Fixpoint session_loop (events : list SessionEvent) : MS () :=
  match events with
  | [] => end_session
  | e :: events =>
      more ← session_turn e;
      if more : bool then session_loop events else end_session
  end.

(** [mqtt_authorized]. *)
Definition mqtt_authorized (connect : Connect) (client_id peer transport : string) : MS bool :=
  match non_blank (mqtt_auth_url config) with
  | Some url =>
      if negb (starts_with "http://" url || starts_with "https://" url) then mret false
      else
      let ask password : MS bool := λ w,
        (Ok (bool_decide (post (tick w) url {| ar_username := username connect; ar_password := password;
           ar_client_id := client_id; ar_remote_address := peer; ar_transport := transport |} = Some 200)),
         mkWorld (st w) (S (tick w))) in
      match password connect with
      | Some value => match from_utf8 value with
                      | Some value => ask (Some value)
                      | None => mret false
                      end
      | None => ask None
      end
  | None => mret (mqtt_token_authorized (normalize (auth_token config)) (mqtt_allow_anonymous config) connect)
  end.

Definition conn_ack (code : Z) : Packet := PConnAck {| session_present := false; code := code |}.

(** The handshake of [run_session] from the authorization on. *)
Definition admit_session (connect : Connect) (client_id peer transport : string) : MS () :=
  authorized ← mqtt_authorized connect client_id peer transport;
  if negb authorized
  then _ ← attempt (out_send (conn_ack (if bool_decide (username connect = None) && bool_decide (password connect = None)
                               then CONNACK_NOT_AUTHORIZED else CONNACK_BAD_AUTH)));
       fail (Failure "mqtt auth failed")
  else
  _ ← out_send (conn_ack CONNACK_ACCEPT);
  token ← child_token;
  connected_at ← rfc_now;
  previous ← mem (λ x,
    let '(previous, registry) := registry_connect client_id token peer transport
           (protocol_version connect) connected_at (x_registry x) in
    (previous, set_registry registry x));
  _ ← (if previous is Some old then cancel_token old else mret ());
  mem (λ x, ((), mkSession (fresh_state client_id peer transport (protocol_version connect) (keep_alive connect))
         (x_broker x) (x_registry x) (x_cancelled x) (x_next_token x) token (Some []) (Some []) [] (x_wire x))).

(** [run_session] up to the session loop: the client identifier. *)
Definition accept_session (first : option Packet) (peer transport : string) : MS string :=
  match first with
  | None => fail (Failure "mqtt CONNECT timeout")
  | Some (PConnect connect) =>
      if negb (protocol_level connect =? 3) && negb (protocol_level connect =? 4)
      then _ ← attempt (out_send (conn_ack CONNACK_PROTOCOL)); fail (Failure "unsupported mqtt protocol level")
      else
      let trimmed := trim (Codec.client_id connect) in
      if is_empty trimmed && negb (clean_session connect)
      then _ ← attempt (out_send (conn_ack CONNACK_IDENTIFIER)); fail (Failure "empty client id requires clean session")
      else
      client_id ← (if is_empty trimmed then id ← new_uuid; mret ("mqtt-" +:+ id) else mret trimmed);
      _ ← admit_session connect client_id peer transport;
      mret client_id
  | Some _ => fail (Failure "first mqtt packet was not CONNECT")
  end.

(** [run_session]. *)
Definition run_session (first : option Packet) (peer transport : string) (events : list SessionEvent) : MS () :=
  client_id ← accept_session first peer transport;
  result ← attempt (session_loop events);
  _ ← mem (λ x, ((), cancel_tokens {[x_token x]} (set_registry (registry_remove_if client_id (x_token x) (x_registry x)) x)));
  lift result.

End session.
End Session.
