(* ===== verification/SessionSpec.v ===== *)
(** Theorems on the MQTT sessions of src/src/mqtt/session.rs: packet identifiers,
    acknowledgements, subscriptions and the handshake. *)

From S2P Require Import Prelude RustStr Topic Model Codec Effects Store Db DbInv DbSpec Writer Subscribers.
From S2P Require Import Auth Delivery Session.
Import Topic Model Codec Store Db DbInv DbSpec Writer Subscribers Auth Delivery Session.

Module SessionSpec.

(** * Packet identifiers *)

Definition is_packet_id (p : Z) : Prop := 1 <= p <= U16_MAX.

Definition next_id (next : Z) : Z := if next =? U16_MAX then 1 else next + 1.

(** The [k]-th identifier tried after [next]. *)
Definition tried (next : Z) (k : nat) : Z := Nat.iter k next_id next.

Lemma tried_in_range next k : 0 <= next <= U16_MAX → (0 < k)%nat → is_packet_id (tried next k).
Proof.
  assert (∀ n, 0 <= n <= U16_MAX → is_packet_id (next_id n)) as Hstep.
  { intros n Hn. unfold is_packet_id, next_id, U16_MAX in *. destruct (n =? 65535) eqn:E; lia. }
  intros Hn Hk. destruct k as [|k]; [lia|]. clear Hk. unfold tried. induction k as [|k IH]; cbn [Nat.iter] in *.
  - by apply Hstep.
  - apply Hstep. unfold is_packet_id in IH. destruct IH. split; [etrans; [|done]; lia|done].
Qed.

Lemma tried_covers next q :
  0 <= next <= U16_MAX → is_packet_id q → ∃ k, (0 < k <= Z.to_nat U16_MAX)%nat ∧ tried next k = q.
Proof.
  intros Hn Hq. unfold is_packet_id in Hq.
  assert (∀ k, (0 <= next + Z.of_nat k <= U16_MAX) → tried next k = next + Z.of_nat k) as Hup.
  { induction k as [|k IH]; intros Hk; [unfold tried; simpl; lia|].
    change (tried next (S k)) with (next_id (tried next k)). rewrite IH by lia. unfold next_id.
    rewrite (proj2 (Z.eqb_neq _ _)) by lia. lia. }
  destruct (decide (next < q)).
  - exists (Z.to_nat (q - next)). split; [unfold U16_MAX in *; lia|]. rewrite Hup by lia. lia.
  - set (m := Z.to_nat (U16_MAX - next)).
    assert (∀ k, Z.of_nat k < U16_MAX → tried next (m + 1 + k)%nat = 1 + Z.of_nat k) as Hwrap.
    { induction k as [|k IH]; intros Hk.
      - rewrite Nat.add_0_r, Nat.add_1_r. change (tried next (S m)) with (next_id (tried next m)).
        rewrite Hup by lia. unfold next_id. rewrite (proj2 (Z.eqb_eq _ _)) by lia. lia.
      - rewrite Nat.add_succ_r. change (tried next (S (m + 1 + k))) with (next_id (tried next (m + 1 + k))).
        rewrite IH by lia. unfold next_id. rewrite (proj2 (Z.eqb_neq _ _)) by lia. lia. }
    exists (m + 1 + Z.to_nat (q - 1))%nat. split; [unfold m, U16_MAX in *; lia|].
    rewrite Hwrap by lia. lia.
Qed.

Lemma tried_shift next k : tried (next_id next) k = tried next (S k).
Proof. induction k as [|k IH]; [done|]. exact (f_equal next_id IH). Qed.

Lemma alloc_loop_spec rounds next used :
  (∃ k, (0 < k <= rounds)%nat ∧ alloc_loop rounds next used = tried next k ∧ used !! tried next k = None) ∨
  (alloc_loop rounds next used = tried next rounds ∧
   ∀ k, (0 < k <= rounds)%nat → is_Some (used !! tried next k)).
Proof.
  revert next. induction rounds as [|rounds IH]; intros next; cbn [alloc_loop].
  { right. split; [done|]. intros k Hk. lia. }
  fold (next_id next). case_bool_decide as Hu.
  - destruct (IH (next_id next)) as [(k & Hk & -> & Hnone)|[-> Hall]]; [left|right].
    + exists (S k). rewrite <-tried_shift. split; [lia|done].
    + rewrite tried_shift. split; [done|]. intros [|[|k]] Hk; [lia|done|].
      rewrite <-tried_shift. apply Hall. lia.
  - left. exists 1%nat. split; [lia|]. split; [done|]. by apply eq_None_not_Some.
Qed.

Lemma alloc_in_range next used : 0 <= next <= U16_MAX → is_packet_id (alloc_packet_id next used).
Proof.
  intros Hn. unfold alloc_packet_id. remember (Z.to_nat U16_MAX) as rounds eqn:Hr.
  assert (0 < rounds)%nat as Hpos by (unfold U16_MAX in Hr; lia).
  destruct (alloc_loop_spec rounds next used) as [(k & Hk & -> & _)|[-> _]]; apply tried_in_range; by try lia.
Qed.

Lemma alloc_free next used q :
  0 <= next <= U16_MAX → is_packet_id q → used !! q = None → used !! alloc_packet_id next used = None.
Proof.
  intros Hn Hq Hnone. unfold alloc_packet_id. destruct (tried_covers next q Hn Hq) as (k & Hk & Heq).
  remember (Z.to_nat U16_MAX) as rounds eqn:Hr.
  destruct (alloc_loop_spec rounds next used) as [(k' & Hk' & -> & ?)|[-> Hall]]; [done|].
  apply Hall in Hk. rewrite Heq, Hnone in Hk. by destruct Hk.
Qed.

(** C28: Packet identifiers: [alloc_packet_id] always yields an identifier from 1 to
    65535, never 0; it is one that no delivery in progress uses as long as there is
    one, and only when all 65535 are in use is an identifier given twice. *)
Theorem packet_id_fresh next used :
  0 <= next <= U16_MAX →
  let p := alloc_packet_id next used in
  is_packet_id p ∧ ((∃ q, is_packet_id q ∧ used !! q = None) ↔ used !! p = None).
Proof.
  intros Hn. cbv zeta. pose proof (alloc_in_range next used Hn) as Hp. split; [exact Hp|].
  split; [intros (q & Hq & Hnone); by eapply alloc_free|]. intros Hnone. by exists (alloc_packet_id next used).
Qed.

Lemma packet_id_fresh_witness :
  let used : gmap Z (string * string) := {[65535 := ("m", "l"); 1 := ("m", "l")]} in
  is_packet_id (alloc_packet_id 65534 used) ∧ used !! alloc_packet_id 65534 used = None.
Proof.
  destruct (packet_id_fresh 65534 {[65535 := ("m", "l"); 1 := ("m", "l")]}) as [Hp Hfree]; [done|].
  split; [exact Hp|]. apply Hfree. exists 2. by split.
Defined.

#[local] Opaque alloc_packet_id.

(** * Subscriptions *)

(** The loops a session has spawned are those of its subscriptions, all others are
    cancelled; packet identifiers are in range. *)
Definition loops_ok (x : Session) : Prop :=
  let s := x_state x in
  (∀ t token, subscriptions s !! t = Some token →
     token ∉ x_cancelled x ∧ ∃ sub, (token, sub) ∈ x_loops x ∧ s_topic sub = t) ∧
  (∀ token sub, (token, sub) ∈ x_loops x →
     (token < x_next_token x)%nat ∧ token ≠ x_token x ∧
     s_session sub = "mqtt:" +:+ ss_client_id s ∧ s_tx sub = x_token x ∧
     (subscriptions s !! s_topic sub = Some token ∨ token ∈ x_cancelled x)) ∧
  NoDup (x_loops x).*1 ∧ (∀ token, token ∈ x_cancelled x → (token < x_next_token x)%nat) ∧
  (x_token x < x_next_token x)%nat.

Definition session_ok (x : Session) : Prop :=
  loops_ok x ∧ dom (qos_by_topic (x_state x)) = dom (subscriptions (x_state x)) ∧
  map_Forall (λ p _, is_packet_id p) (inflight_pub (x_state x)) ∧ 0 <= next_packet_id (x_state x) <= U16_MAX.

Definition stays_ok (x x' : Session) : Prop :=
  x_token x' = x_token x ∧ ss_client_id (x_state x') = ss_client_id (x_state x) ∧
  (session_ok x → session_ok x').

#[local] Instance stays_ok_preorder : PreOrder stays_ok.
Proof.
  split; [by intros x|]. intros x1 x2 x3 (T12 & C12 & H12) (T23 & C23 & H23). split_and!; [congruence..|auto].
Qed.

(** Changes of the rest of the session. *)
Lemma stays_ok_same x x' :
  x_state x' = x_state x → x_cancelled x' = x_cancelled x → x_next_token x' = x_next_token x →
  x_token x' = x_token x → x_loops x' = x_loops x → stays_ok x x'.
Proof. unfold stays_ok, session_ok, loops_ok. intros -> -> -> -> ->. by split_and!. Qed.

Section session.
Context `{Oracle, Chrono, Serde}.
Context (accepts takes : nat → bool).

Lemma stays_ok_on_broker {A} (m : M Error Broker A) : Keeps stays_ok (on_broker m).
Proof. intros w. unfold on_broker, zoom. destruct (m _) as [r w']. by apply stays_ok_same. Qed.

Lemma stays_ok_queue_job job : Keeps stays_ok (queue_job job).
Proof.
  unfold queue_job. keeps_go. match goal with |- stays_ok ?x _ => destruct (x_jobs x) end; by apply stays_ok_same.
Qed.

Lemma stays_ok_out_send packet : Keeps stays_ok (out_send takes packet).
Proof. intros w. unfold out_send. destruct (takes _); by apply stays_ok_same. Qed.

(** Ending the subscription under a filter. *)
Definition drop_subscription (topic : string) (x : Session) : Session :=
  match subscriptions (x_state x) !! topic with
  | Some token =>
      cancel_tokens {[token]} (on_state (λ s, set_subscriptions (delete topic (subscriptions s)) s) x)
  | None => x
  end.

Lemma drop_subscription_ok topic x : loops_ok x → loops_ok (drop_subscription topic x).
Proof.
  intros (Hsubs & Hloops & Hnd & Hc & Ht). unfold drop_subscription.
  destruct (subscriptions (x_state x) !! topic) as [token|] eqn:Htok; [|done].
  destruct (Hsubs _ _ Htok) as (Hnc & sub & Hin & Hsub). split_and!; cbn.
  - intros t token' [Hne Ht']%lookup_delete_Some. destruct (Hsubs _ _ Ht') as (Hnc' & sub' & Hin' & Hsub').
    split; [|by exists sub']. rewrite elem_of_union, elem_of_singleton. intros [->|]; [|done].
    destruct (Hloops _ _ Hin) as (_ & _ & _ & _ & [Hs|]); [|done].
    assert (sub = sub') as <-.
    { apply list_elem_of_lookup in Hin as [k Hk]. apply list_elem_of_lookup in Hin' as [k' Hk'].
      eapply (f_equal (fmap fst)) in Hk as Hf. eapply (f_equal (fmap fst)) in Hk' as Hf'.
      rewrite <-list_lookup_fmap in Hf, Hf'. assert (k = k') as -> by by eapply NoDup_lookup. congruence. }
    congruence.
  - intros token' sub' Hin'. destruct (Hloops _ _ Hin') as (? & ? & ? & ? & Hs). split_and!; [done..|].
    destruct (decide (s_topic sub' = topic)) as [Heq|Hne].
    + right. destruct Hs as [Hs|Hs]; [|set_solver]. rewrite Heq, Htok in Hs. set_solver.
    + rewrite lookup_delete_ne by done. set_solver.
  - done.
  - intros token' [->%elem_of_singleton|?]%elem_of_union; [by eapply Hloops|by apply Hc].
  - done.
Qed.

(** Adding a subscription. *)
Definition add_subscription (topic : string) (q : Z) (sub : Subscriber) (x : Session) : Session :=
  let s := x_state x in
  mkSession (set_subscriptions (<[topic := x_next_token x]> (subscriptions s))
               (set_qos (<[topic := q]> (qos_by_topic s)) s))
    (x_broker x) (x_registry x) (x_cancelled x) (S (x_next_token x)) (x_token x) (x_jobs x) (x_ingest x)
    (x_loops x ++ [(x_next_token x, sub)]) (x_wire x).

Lemma add_subscription_ok topic q sub x :
  s_topic sub = topic → s_session sub = "mqtt:" +:+ ss_client_id (x_state x) → s_tx sub = x_token x →
  subscriptions (x_state x) !! topic = None → loops_ok x → loops_ok (add_subscription topic q sub x).
Proof.
  intros Htopic Hses Htx Hnone (Hsubs & Hloops & Hnd & Hc & Ht).
  assert (x_next_token x ∉ x_cancelled x) as Hfresh by (intros ?%Hc; lia). split_and!; cbn.
  - intros t token [[<- <-]|[Hne Ht']]%lookup_insert_Some.
    + split; [done|]. exists sub. split; [|done]. apply elem_of_app. right. by left.
    + destruct (Hsubs _ _ Ht') as (? & sub' & ? & ?). split; [done|]. exists sub'.
      split; [|done]. apply elem_of_app. by left.
  - intros token sub' [Hin|[= -> ->]%list_elem_of_singleton]%elem_of_app.
    + destruct (Hloops _ _ Hin) as (? & ? & ? & ? & Hs). split_and!; [lia|done..|].
      destruct Hs as [Hs|]; [|by right]. left. rewrite lookup_insert_ne; [done|]. congruence.
    + split_and!; [lia|lia|done|done|]. left. rewrite Htopic. apply lookup_insert_eq.
  - rewrite fmap_app. apply NoDup_app. split; [done|]. split; [|apply NoDup_singleton].
    intros token ([? sub'] & -> & Hin)%list_elem_of_fmap Hx%list_elem_of_singleton. cbn in Hx.
    apply Hloops in Hin as [? _]. lia.
  - intros token ?%Hc. lia.
  - lia.
Qed.

Lemma unsubscribe_run topic (w : World Session) :
  unsubscribe_topic topic w =
    (Ok (), mkWorld (on_state (λ s, set_qos (delete topic (qos_by_topic s)) s) (drop_subscription topic (st w))) (tick w)).
Proof.
  unfold unsubscribe_topic, drop_subscription, get_state, put_state, cancel_token. destruct w as [x n]. run.
  by destruct (subscriptions _ !! topic); run.
Qed.

Lemma dom_dropped topic x :
  dom (subscriptions (x_state (drop_subscription topic x))) = dom (subscriptions (x_state x)) ∖ {[topic]} ∧
  qos_by_topic (x_state (drop_subscription topic x)) = qos_by_topic (x_state x) ∧
  inflight_pub (x_state (drop_subscription topic x)) = inflight_pub (x_state x) ∧
  next_packet_id (x_state (drop_subscription topic x)) = next_packet_id (x_state x) ∧
  ss_client_id (x_state (drop_subscription topic x)) = ss_client_id (x_state x) ∧
  x_token (drop_subscription topic x) = x_token x.
Proof.
  unfold drop_subscription. destruct (subscriptions (x_state x) !! topic) as [token|] eqn:E; split_and!; cbn; try done.
  - by rewrite dom_delete_L.
  - apply not_elem_of_dom in E. set_solver.
Qed.

Lemma stays_ok_unsubscribe topic : Keeps stays_ok (unsubscribe_topic topic).
Proof.
  intros w. rewrite unsubscribe_run. cbn [st snd].
  destruct (dom_dropped topic (st w)) as (Hdom & Hq & Hi & Hnext & Hcid & Htok).
  split; [done|]. split; [done|]. intros (Hl & Hd & Hp & Hn).
  split; [exact (drop_subscription_ok topic _ Hl)|]. cbn. rewrite Hdom, Hq, Hi, Hnext, dom_delete_L, Hd. done.
Qed.

(** The loop that [subscribe_topic] spawns. *)
Definition loop_of (topic : string) (x : Session) : Subscriber :=
  {| s_topic := topic; s_session := "mqtt:" +:+ ss_client_id (x_state x); s_consumer_id := "";
     s_tx := x_token x; s_peer := ss_peer (x_state x); s_protocol := ss_transport (x_state x);
     s_version := ss_version (x_state x); s_host := "" |}.

(** What [subscribe_topic] does. *)
Lemma subscribe_run filter (w : World Session) :
  let topic := trim (sf_topic filter) in
  let granted := Z.min (sf_qos filter) 1 in
  subscribe_topic filter w =
    if negb (is_valid_subscribe_filter topic) then (Ok SUBACK_FAILURE, w)
    else match attempt (on_broker (Delivery.on_db (note_subscribed_topic topic))) w with
         | (Ok (Ok _), w1) => (Ok granted, mkWorld (add_subscription topic granted (loop_of topic (st w1))
                                 (drop_subscription topic (st w1))) (tick w1))
         | (Ok (Err _), w1) => (Ok SUBACK_FAILURE, w1)
         | (Err e, w1) => (Err e, w1)
         end.
Proof.
  cbv zeta. unfold subscribe_topic. destruct (negb _); [done|]. rewrite run_bind.
  destruct (attempt _ w) as [[[u|e]|e] w1]; [|done..].
  unfold get_state, put_state, cancel_token, child_token, spawn_loop, drop_subscription. destruct w1 as [x n]. run.
  destruct (subscriptions _ !! _); run; reflexivity.
Qed.

Lemma stays_ok_subscribe filter : Keeps stays_ok (subscribe_topic filter).
Proof.
  intros w. rewrite subscribe_run. set (topic := trim _). set (granted := Z.min _ 1).
  destruct (negb _); [done|].
  pose proof (keeps_attempt _ _ (stays_ok_on_broker (Delivery.on_db (note_subscribed_topic topic))) w) as Hk.
  destruct (attempt _ w) as [[[u|e]|e] w1]; [|exact Hk..]. cbn [snd st] in *. etrans; [exact Hk|].
  destruct (dom_dropped topic (st w1)) as (Hdom & Hq & Hi & Hnext & Hcid & Htok).
  split; [done|]. split; [done|]. intros (Hl & Hd & Hp & Hn). split.
  - apply add_subscription_ok; [done|by rewrite Hcid|by rewrite Htok| |by apply drop_subscription_ok].
    apply not_elem_of_dom. rewrite Hdom. clear. set_solver.
  - cbn. rewrite !dom_insert_L, Hdom, Hq, Hi, Hnext, Hd. split; [|by split].
    generalize (dom (subscriptions (x_state (st w1)))). clear. intros D. apply set_eq. intros t.
    destruct (decide (t = topic)); set_solver.
Qed.

Lemma stays_ok_inflight f next x :
  (∀ s, map_Forall (λ p _, is_packet_id p) (inflight_pub s) → 0 <= next_packet_id s <= U16_MAX →
     map_Forall (λ p _, is_packet_id p) (f s) ∧ 0 <= next s <= U16_MAX) →
  stays_ok x (on_state (λ s, set_inflight (f s) (next s) s) x).
Proof. intros Hf. split; [done|]. split; [done|]. intros (Hl & Hd & Hp & Hn). destruct (Hf _ Hp Hn). by split. Qed.

Ltac session_step :=
  first [ keeps_step | apply stays_ok_queue_job | apply stays_ok_on_broker | apply stays_ok_subscribe
        | apply stays_ok_unsubscribe | apply stays_ok_out_send
        | lazymatch goal with |- stays_ok _ _ => by apply stays_ok_same end ].

Lemma stays_ok_alloc entry x :
  let p := alloc_packet_id (next_packet_id (x_state x)) (inflight_pub (x_state x)) in
  stays_ok x (on_state (λ s, set_inflight (<[p := entry]> (inflight_pub s)) p s) x).
Proof.
  intros p. split; [done|]. split; [done|]. intros (Hl & Hd & Hp & Hn). split; [exact Hl|]. split; [exact Hd|].
  pose proof (alloc_in_range _ (inflight_pub (x_state x)) Hn) as Hr. fold p in Hr.
  split; [by apply map_Forall_insert_2|]. unfold is_packet_id in Hr. split; [etrans; [|apply Hr]; lia|apply Hr].
Qed.

Lemma stays_ok_queue_outgoing message : Keeps stays_ok (queue_outgoing message).
Proof.
  intros [x n]. unfold queue_outgoing, get_state, put_state. rewrite run_bind, run_mem. cbv beta iota zeta.
  destruct (_ =? 0); [apply (stays_ok_queue_job _ (mkWorld x n))|].
  rewrite run_bind, run_mem. cbv beta iota. etrans; [apply stays_ok_alloc|].
  apply (stays_ok_queue_job _ (mkWorld _ n)).
Qed.

Lemma stays_ok_handle_packet packet : Keeps stays_ok (handle_packet packet).
Proof.
  unfold handle_packet, queue_packet, complete_ack, get_state, put_state. repeat session_step.
  - match goal with |- stays_ok ?x _ => destruct (x_ingest x) end; [case_match|]; by apply stays_ok_same.
  - apply stays_ok_inflight. intros state Hp Hn. split; [by apply map_Forall_delete|done].
Qed.

Lemma stays_ok_cancelled x : stays_ok x (set_jobs None (cancel_tokens {[x_token x]} x)).
Proof.
  split; [done|]. split; [done|]. intros [(Hsubs & Hloops & Hnd & Hc & Ht) Hrest].
  split; [|done]. split_and!; cbn; [|..|done].
  - intros t token Htok. destruct (Hsubs _ _ Htok) as (Hnc & sub & Hin & Hsub). split; [|by exists sub].
    rewrite elem_of_union, elem_of_singleton. intros [->|]; [|done]. by apply Hloops in Hin as (_ & ? & _).
  - intros token sub Hin. destruct (Hloops _ _ Hin) as (? & ? & ? & ? & [|]); split_and!; try done; [by left|right].
    apply elem_of_union. by right.
  - done.
  - intros token [->%elem_of_singleton|?]%elem_of_union; [done|by apply Hc].
Qed.

Lemma stays_ok_write_turn : Keeps stays_ok (write_turn takes).
Proof.
  unfold write_turn, complete_ack. repeat session_step; [|apply stays_ok_cancelled].
  match goal with |- stays_ok ?x _ => destruct (x_jobs x) as [[|]|] end; by apply stays_ok_same.
Qed.

Lemma stays_ok_ingest_turn : Keeps stays_ok (ingest_turn accepts).
Proof.
  unfold ingest_turn, ingest_and_ack, queue_packet, get_state. repeat session_step.
  match goal with |- stays_ok ?x _ => destruct (x_ingest x) as [[|]|] end; by apply stays_ok_same.
Qed.

Lemma stays_ok_turn e : Keeps stays_ok (session_turn accepts takes e).
Proof.
  unfold session_turn, session_cancelled, get_state. repeat session_step;
    first [apply stays_ok_handle_packet | apply stays_ok_queue_outgoing | apply stays_ok_write_turn | apply stays_ok_ingest_turn].
Qed.

(** The session after some turns. *)
Definition turns (events : list SessionEvent) (w : World Session) : World Session :=
  foldl (λ w e, (session_turn accepts takes e w).2) w events.

Lemma turns_stay_ok events w : stays_ok (st w) (st (turns events w)).
Proof.
  unfold turns. revert w. induction events as [|e events IH]; intros w; [done|].
  etrans; [apply (stays_ok_turn e w)|apply IH].
Qed.

End session.

(** * The handshake *)

Section handshake.
Context `{Oracle, Chrono}.
Context (takes : nat → bool) (config : MqttConfig) (post : nat → string → MqttAuthRequest → option Z).

(** Tokens are taken from a counter. *)
Definition tokens_fresh (x : Session) : Prop :=
  (∀ token, token ∈ x_cancelled x → (token < x_next_token x)%nat) ∧
  ∀ cid entry, x_registry x !! cid = Some entry → (re_token entry < x_next_token x)%nat.

(** The state after a successful handshake. *)
Definition welcomed (cid : string) (connect : Connect) (peer transport : string) (x x' : Session) : Prop :=
  x_state x' = fresh_state cid peer transport (protocol_version connect) (keep_alive connect) ∧
  x_token x' = x_next_token x ∧ x_next_token x' = S (x_next_token x) ∧
  x_loops x' = [] ∧ x_jobs x' = Some [] ∧ x_ingest x' = Some [] ∧ x_broker x' = x_broker x ∧
  re_token <$> x_registry x' !! cid = Some (x_token x') ∧
  (∀ other, other ≠ cid → x_registry x' !! other = x_registry x !! other) ∧
  x_cancelled x' = match x_registry x !! cid with Some old => {[re_token old]} | None => ∅ end ∪ x_cancelled x.

Lemma authorized_run connect cid peer transport (w : World Session) :
  ∃ a k, mqtt_authorized config post connect cid peer transport w = (Ok a, mkWorld (st w) k).
Proof.
  unfold mqtt_authorized. destruct w as [x n]. destruct (non_blank _) as [url|]; [|by eexists _, n].
  destruct (negb _); [by eexists _, n|].
  destruct (password connect) as [value|]; [destruct (from_utf8 value)|]; by eexists _, _.
Qed.

Context (Htakes : ∀ n, takes n = true).

Lemma out_send_run packet (w : World Session) :
  out_send takes packet w = (Ok (), mkWorld (set_wire (x_wire (st w) ++ [packet]) (st w)) (S (tick w))).
Proof. unfold out_send. by rewrite Htakes. Qed.

(** A refusal. *)
Lemma refuse_run {A} code message (w : World Session) :
  (_ ← attempt (out_send takes (conn_ack code)); (fail (Failure message) : M Error Session A)) w =
    (Err (Failure message), mkWorld (set_wire (x_wire (st w) ++ [conn_ack code]) (st w)) (S (tick w))).
Proof. rewrite run_bind, run_attempt, out_send_run. done. Qed.

Lemma admit_run connect cid peer transport (w : World Session) :
  ∃ code r w', admit_session config post takes connect cid peer transport w = (r, w') ∧
    x_wire (st w') = x_wire (st w) ++ [conn_ack code] ∧ code ≠ CONNACK_PROTOCOL ∧ code ≠ CONNACK_IDENTIFIER ∧
    (match r with
     | Ok _ => code = CONNACK_ACCEPT ∧ welcomed cid connect peer transport (st w) (st w')
     | Err _ => code ≠ CONNACK_ACCEPT ∧ x_registry (st w') = x_registry (st w) ∧
                x_cancelled (st w') = x_cancelled (st w) ∧ x_broker (st w') = x_broker (st w)
     end).
Proof.
  unfold admit_session. rewrite run_bind.
  destruct (authorized_run connect cid peer transport w) as ([|] & k & ->); cbn [negb].
  2:{ rewrite refuse_run. eexists _, _, _. split; [done|]. split; [done|]. by destruct (_ && _). }
  rewrite run_bind, out_send_run. unfold child_token, rfc_now, registry_connect, cancel_token. run.
  cbn [x_registry set_wire]. destruct (re_token <$> x_registry (st w) !! cid) as [old|] eqn:Hold; run; exists CONNACK_ACCEPT; eexists _, _;
    (split; [done|]); (split; [done|]); (split; [done|]); (split; [done|]); (split; [done|]);
    split_and!; cbn; try done.
  - by rewrite lookup_insert_eq.
  - intros other Hne. by rewrite lookup_insert_ne.
  - apply fmap_Some in Hold as (entry & -> & ->). done.
  - by rewrite lookup_insert_eq.
  - intros other Hne. by rewrite lookup_insert_ne.
  - apply fmap_None in Hold as ->. set_solver.
Qed.


End handshake.
Section running.
Context `{Oracle, Chrono, Serde}.
Context (accepts takes : nat → bool).

Lemma welcomed_ok cid connect peer transport x x' :
  tokens_fresh x → welcomed cid connect peer transport x x' → session_ok x'.
Proof.
  intros [Hc Hr] (Hs & Ht & Hn & Hl & _ & _ & _ & _ & _ & Hx). unfold session_ok, loops_ok.
  rewrite Hs, Hl, Hn, Ht, Hx. split; [split_and!|split_and!]; cbn; try done; try lia.
  - intros token sub Hin. by apply elem_of_nil in Hin.
  - constructor.
  - intros token [Hold|Hold]%elem_of_union; [|apply Hc in Hold; lia].
    destruct (x_registry x !! cid) as [entry|] eqn:He; [|set_solver].
    apply elem_of_singleton in Hold as ->. apply Hr in He. lia.
Qed.

(** A subscriber loop of the session at work. *)
Definition running (x : Session) (topic : string) (token : nat) (sub : Subscriber) : Prop :=
  (token, sub) ∈ x_loops x ∧ s_topic sub = topic ∧ token ∉ x_cancelled x.


Lemma note_run topic (w : World Session) :
  calm → ∃ b k, attempt (on_broker (Delivery.on_db (note_subscribed_topic topic))) w =
    (Ok (Ok ()), mkWorld (set_broker b (st w)) k).
Proof.
  intros Hc. rewrite run_attempt. unfold on_broker, Delivery.on_db, zoom, note_subscribed_topic, rfc_now. run.
  rewrite Hc. run. by eexists _, _.
Qed.

Lemma subscribe_calm filter (w : World Session) :
  calm →
  let topic := trim (sf_topic filter) in
  let valid := is_valid_subscribe_filter topic in
  ∃ w', subscribe_topic filter w = (Ok (if valid then Z.min (sf_qos filter) 1 else SUBACK_FAILURE), w') ∧
    x_jobs (st w') = x_jobs (st w) ∧
    ∀ t, t ∈ dom (subscriptions (x_state (st w'))) ↔
      t ∈ dom (subscriptions (x_state (st w))) ∨ (valid = true ∧ t = topic).
Proof.
  intros Hc. cbv zeta. rewrite subscribe_run. set (topic := trim _).
  destruct (is_valid_subscribe_filter topic); cbn [negb]; [|exists w; naive_solver].
  destruct (note_run topic w Hc) as (b & k & ->). set (x := set_broker b (st w)).
  destruct (dom_dropped topic x) as (Hdom & _). eexists. split; [done|]. split.
  - cbn [x_jobs add_subscription st]. unfold drop_subscription. by destruct (subscriptions _ !! topic).
  - intros t. cbn [st x_state add_subscription subscriptions set_subscriptions set_qos].
    rewrite dom_insert_L, Hdom. change (subscriptions (x_state x)) with (subscriptions (x_state (st w))).
    generalize (dom (subscriptions (x_state (st w)))). clear. intros D.
    destruct (decide (t = topic)); set_solver.
Qed.

(** The answer to a SUBSCRIBE: without storage faults the SUBACK has one code per
    filter, in order: 128 for an invalid one, otherwise the lesser of the requested
    quality of service and 1; and exactly the valid filters, trimmed, are added to
    the subscriptions. *)
Theorem suback_exact subscribe jobs w :
  calm → x_jobs (st w) = Some jobs →
  let valid f := is_valid_subscribe_filter (trim (sf_topic f)) in
  ∃ w', handle_packet (PSubscribe subscribe) w = (Ok false, w') ∧
    x_jobs (st w') = Some (jobs ++ [WPacket (PSubAck {| suback_packet_id := sub_packet_id subscribe;
      codes := map (λ f, if valid f then Z.min (sf_qos f) 1 else SUBACK_FAILURE) (sub_filters subscribe) |})]) ∧
    ∀ topic, topic ∈ dom (subscriptions (x_state (st w'))) ↔
      topic ∈ dom (subscriptions (x_state (st w))) ∨
      ∃ f, f ∈ sub_filters subscribe ∧ valid f = true ∧ topic = trim (sf_topic f).
Proof.
  intros Hc Hj valid. cbn [handle_packet]. rewrite run_bind.
  assert (∀ fs codes (w : World Session), ∃ w', fold_each fs codes (λ codes filter,
      code ← subscribe_topic filter; mret (codes ++ [code])) w =
      (Ok (codes ++ map (λ f, if valid f then Z.min (sf_qos f) 1 else SUBACK_FAILURE) fs), w') ∧
      x_jobs (st w') = x_jobs (st w) ∧
      ∀ topic, topic ∈ dom (subscriptions (x_state (st w'))) ↔ topic ∈ dom (subscriptions (x_state (st w))) ∨
        ∃ f, f ∈ fs ∧ valid f = true ∧ topic = trim (sf_topic f)) as Hloop.
  { induction fs as [|f fs IH]; intros codes w0; cbn [fold_each map].
    { exists w0. rewrite app_nil_r. split; [done|]. split; [done|]. intros t. split; [by left|].
      intros [?|(f & Hf & _)]; [done|by apply elem_of_nil in Hf]. }
    rewrite run_bind, run_bind. destruct (subscribe_calm f w0 Hc) as (w1 & -> & Hj1 & Hd1). rewrite run_ret.
    edestruct IH as (w2 & -> & Hj2 & Hd2). exists w2. rewrite <-app_assoc. split; [done|].
    split; [congruence|]. intros t. rewrite Hd2, Hd1. setoid_rewrite elem_of_cons. unfold valid. naive_solver. }
  destruct (Hloop (sub_filters subscribe) [] w) as (w1 & -> & Hj1 & Hd1).
  unfold queue_packet, queue_job. run. rewrite Hj1, Hj. run. eexists. split; [done|]. split; [done|exact Hd1].
Qed.

(** * Acknowledgements *)

(** C29: A delivery of quality of service 1: the message goes out under a packet
    identifier that, while fewer than 65535 are in flight, no other uses; the PUBACK
    for this identifier, and not before it, gives the waiting delivery a positive
    answer, and leaves the other deliveries in flight as they were. *)
Theorem puback_completes_delivery message rx jobs q w :
  let x := st w in
  granted_qos (qos_by_topic (x_state x)) (sw_topic message) ≠ 0 → x_jobs x = Some jobs →
  0 <= next_packet_id (x_state x) <= U16_MAX → is_packet_id q → inflight_pub (x_state x) !! q = None →
  pending (b_acks (x_broker x)) !! sw_lease message = Some (sw_message_id message, rx) →
  rx ∉ gone (b_acks (x_broker x)) →
  ∃ p w1 w2, is_packet_id p ∧ inflight_pub (x_state x) !! p = None ∧
    queue_outgoing message w = (Ok (), w1) ∧
    x_jobs (st w1) = Some (jobs ++ [WDeliver (PPublish {| dup := false; pub_qos := 1; retain := false;
      pub_topic := sw_topic message; pub_packet_id := Some p; pub_payload := sw_payload message |}) None]) ∧
    b_acks (x_broker (st w1)) = b_acks (x_broker x) ∧
    handle_packet (PPubAck p) w1 = (Ok false, w2) ∧
    decided (b_acks (x_broker (st w2))) !! rx = Some {| ack_success := true; ack_error := "" |} ∧
    pending (b_acks (x_broker (st w2))) = delete (sw_lease message) (pending (b_acks (x_broker x))) ∧
    inflight_pub (x_state (st w2)) = inflight_pub (x_state x).
Proof.
  intros x Hqos Hj Hn Hq Hfree Hp Hg.
  pose proof (alloc_in_range _ (inflight_pub (x_state x)) Hn) as Hr.
  pose proof (alloc_free _ _ _ Hn Hq Hfree) as Hnone.
  unfold queue_outgoing, get_state, put_state. run. fold x. rewrite (proj2 (Z.eqb_neq _ _) Hqos).
  set (p := alloc_packet_id _ _) in *. run. unfold queue_job. run.
  cbn [x_jobs on_state]. fold x. rewrite Hj. run.
  exists p. do 2 eexists. split; [done|]. split; [done|]. split; [done|]. split; [done|]. split; [done|].
  cbn [handle_packet]. unfold get_state, put_state, complete_ack, on_broker, on_acks, zoom. run.
  cbn [st x_state set_jobs on_state inflight_pub set_inflight]. rewrite lookup_insert_eq. run.
  unfold complete. cbn. fold x. rewrite Hp, bool_decide_eq_true_2 by done.
  rewrite bool_decide_eq_false_2 by done. split; [done|]. cbn. rewrite lookup_insert_eq.
  split; [done|]. split; [done|]. rewrite delete_insert_eq. by apply delete_id.
Qed.

(** Publishes are acknowledged after they were taken in: the ingest worker puts a
    PUBACK (quality of service 1) or PUBREC (2) for the publish's identifier on the
    wire exactly when the topic is valid and [ingest] has succeeded, and nothing for
    quality 0 or without an identifier; when it fails nothing is sent. *)
Theorem publish_acknowledged client publish jobs w :
  x_jobs (st w) = Some jobs →
  let topic := trim (pub_topic publish) in
  let taken := on_broker (ingest accepts topic (pub_payload publish) {["mqtt_client_id" := client]} None) w in
  let ack := match pub_packet_id publish with
             | Some p => if 2 <=? pub_qos publish then [WPacket (PPubRec p)]
                         else if pub_qos publish =? 1 then [WPacket (PPubAck p)] else []
             | None => []
             end in
  match ingest_and_ack accepts client publish w with
  | (Ok _, w') => is_valid_publish_topic topic = true ∧ (∃ r, taken.1 = Ok r) ∧
                  x_broker (st w') = x_broker (st taken.2) ∧ x_jobs (st w') = Some (jobs ++ ack)
  | (Err e, w') => (is_valid_publish_topic topic = false ∨ taken.1 = Err e) ∧ x_jobs (st w') = Some jobs
  end.
Proof.
  intros Hj topic taken ack. unfold ingest_and_ack. fold topic.
  destruct (is_valid_publish_topic topic) eqn:Hv; cbn [negb]; [|rewrite run_fail; auto].
  rewrite run_bind. fold taken.
  assert (x_jobs (st taken.2) = Some jobs) as Hj'.
  { unfold taken, on_broker, zoom. by destruct (ingest _ _ _ _ _ _) as [r w1]. }
  clearbody taken. destruct taken as [[r|e] w1]; cbn [fst snd] in *; [|auto].
  assert (∀ p, queue_packet p w1 = (Ok (), mkWorld (set_jobs (Some (jobs ++ [WPacket p])) (st w1)) (tick w1))) as Hqp.
  { intros p. unfold queue_packet, queue_job. run. by rewrite Hj'. }
  assert ((Z.min (pub_qos publish) 2 =? 2) = (2 <=? pub_qos publish)) as ->.
  { destruct (Z.leb_spec 2 (pub_qos publish)); [apply Z.eqb_eq|apply Z.eqb_neq]; lia. }
  unfold ack. destruct (2 <=? pub_qos publish) eqn:H2, (pub_packet_id publish) as [p|].
  - rewrite Hqp. eauto.
  - rewrite run_ret, app_nil_r. eauto.
  - rewrite Z.min_l by lia. destruct (pub_qos publish =? 1); [rewrite Hqp|rewrite run_ret, app_nil_r]; eauto.
  - rewrite app_nil_r. destruct (_ =? 1); rewrite run_ret; eauto.
Qed.

(** An UNSUBSCRIBE whose filter has white space around it, as it was sent in the
    SUBSCRIBE that was trimmed, is confirmed but ends nothing: the loop of the
    subscription stays at work. *)
Lemma unsubscribe_untrimmed filter token packet_id jobs w :
  x_jobs (st w) = Some jobs → session_ok (st w) →
  subscriptions (x_state (st w)) !! trim filter = Some token →
  subscriptions (x_state (st w)) !! filter = None →
  ∃ w', handle_packet (PUnsubscribe {| unsub_packet_id := packet_id; unsub_filters := [filter] |}) w = (Ok false, w') ∧
    x_jobs (st w') = Some (jobs ++ [WPacket (PUnsubAck packet_id)]) ∧
    ∃ sub, running (st w') (trim filter) token sub.
Proof.
  intros Hj [(Hsubs & _) _] Htok Hnone. destruct (Hsubs _ _ Htok) as (Hnc & sub & Hin & Hsub).
  cbn [handle_packet for_each unsub_filters]. rewrite run_bind, run_bind, unsubscribe_run. unfold drop_subscription.
  rewrite Hnone. cbv beta iota. rewrite run_ret. unfold queue_packet, queue_job. run.
  cbn [x_jobs on_state]. rewrite Hj. run. eexists. split; [done|]. split; [done|]. exists sub. by split_and!.
Qed.

End running.
(** * The properties in the demonstration environment *)

Definition demo_mqtt : MqttConfig :=
  {| mqtt_auth_url := None; auth_token := Some "secret"; mqtt_allow_anonymous := false |}.

Definition demo_connect : Connect :=
  {| protocol_level := 4; clean_session := true; keep_alive := 60; Codec.client_id := " c1 ";
     username := Some "secret"; password := None |}.

(** A broker where this client is already connected. *)
Definition demo_session : Session :=
  mkSession (fresh_state "" "" "" "" 0) (mkBroker empty_db (mkWriter (replicate 16 (recent_new 64)) (replicate 16 (Some [])))
      (mkNotes ∅ None) ∅ no_acks [])
    {[ "c1" := mkRegistryEntry 3 {| ci_client_id := "c1"; ci_peer := "p"; ci_transport := "mqtt-tcp";
         ci_connected_at := "now"; ci_version := "3.1.1" |} ]} ∅ 4 0 None None [] [].

Definition no_post (_ : nat) (_ : string) (_ : MqttAuthRequest) : option Z := None.


(** The session after its handshake. *)
Definition demo_open : World Session :=
  (admit_session (H := demo_oracle) (H0 := demo_chrono) demo_mqtt no_post (λ _, true)
     demo_connect "c1" "peer" "mqtt-tcp" (mkWorld demo_session 0)).2.

Lemma demo_fresh : tokens_fresh demo_session.
Proof.
  split; [intros token Ht; by apply elem_of_empty in Ht|].
  intros cid entry He. cbn in He. apply lookup_singleton_Some in He as [_ <-]. cbn. lia.
Qed.

Lemma demo_welcomed : welcomed "c1" demo_connect "peer" "mqtt-tcp" demo_session (st demo_open).
Proof.
  destruct (admit_run (H := demo_oracle) (H0 := demo_chrono) (λ _, true) demo_mqtt no_post ltac:(done)
    demo_connect "c1" "peer" "mqtt-tcp" (mkWorld demo_session 0)) as (code & r & w' & Hrun & _ & _ & _ & Hr).
  assert (r = Ok ()) as ->.
  { change r with ((r, w').1). rewrite <-Hrun. by vm_compute. }
  unfold demo_open. rewrite Hrun. apply Hr.
Qed.

Definition demo_subscribe : Subscribe :=
  {| sub_packet_id := 1; sub_filters := [{| sf_topic := " a/# "; sf_qos := 2 |}; {| sf_topic := "a/#/b"; sf_qos := 0 |}] |}.

Definition demo_turns : list SessionEvent :=
  [Incoming (PSubscribe demo_subscribe); Incoming (PSubscribe demo_subscribe); WriteTurn;
   Incoming (PPublish {| dup := false; pub_qos := 1; retain := false; pub_topic := "a/b";
                         pub_packet_id := Some 9; pub_payload := [1] |}); IngestTurn].


Lemma suback_exact_witness :
  ∃ w', handle_packet (H := demo_oracle) (H0 := demo_chrono) (PSubscribe demo_subscribe) demo_open = (Ok false, w') ∧
    x_jobs (st w') = Some [WPacket (PSubAck {| suback_packet_id := 1; codes := [1; 128] |})].
Proof.
  destruct (suback_exact (H := demo_oracle) (H0 := demo_chrono) demo_subscribe [] demo_open)
    as (w' & Hrun & Hj & _); [by intros n|by vm_compute|].
  exists w'. split; [exact Hrun|]. rewrite Hj. by vm_compute.
Defined.

(** A session that is subscribed, with a delivery waiting. *)
Definition demo_message : SatwayMessage :=
  {| sw_message_id := "m1"; sw_topic := "a/b"; sw_payload := [1]; sw_attributes := ∅; sw_created_at := "now"; sw_lease := "l1" |}.

Definition demo_waiting : World Session :=
  let w := turns (H := demo_oracle) (H0 := demo_chrono) (λ _, true) (λ _, true) demo_turns demo_open in
  mkWorld (set_broker (set_acks (register "m1" "l1" no_acks).2 (x_broker (st w))) (st w)) (tick w).

Lemma puback_completes_delivery_witness :
  ∃ p w1 w2, queue_outgoing demo_message demo_waiting = (Ok (), w1) ∧
    handle_packet (H := demo_oracle) (H0 := demo_chrono) (PPubAck p) w1 = (Ok false, w2) ∧
    decided (b_acks (x_broker (st w2))) !! 0%nat = Some {| ack_success := true; ack_error := "" |}.
Proof.
  destruct (puback_completes_delivery (H := demo_oracle) (H0 := demo_chrono)
    demo_message 0 (default [] (x_jobs (st demo_waiting))) 7 demo_waiting)
    as (p & w1 & w2 & _ & _ & Hq & _ & _ & Hh & Hd & _); [by vm_compute..|].
  exists p, w1, w2. split; [exact Hq|]. split; [exact Hh|exact Hd].
Defined.

Definition demo_publish : Publish :=
  {| dup := false; pub_qos := 2; retain := false; pub_topic := " a/b "; pub_packet_id := Some 5; pub_payload := [1] |}.

Lemma publish_acknowledged_witness :
  ∃ w', ingest_and_ack (H := demo_oracle) (H0 := demo_chrono) (λ _, true) "c1" demo_publish demo_open = (Ok (), w') ∧
    x_jobs (st w') = Some [WPacket (PPubRec 5)].
Proof.
  pose proof (publish_acknowledged (H := demo_oracle) (H0 := demo_chrono) (λ _, true) "c1" demo_publish []
    demo_open ltac:(by vm_compute)) as Hp.
  assert ((ingest_and_ack (H := demo_oracle) (H0 := demo_chrono) (λ _, true) "c1" demo_publish demo_open).1 = Ok ())
    as Hr by by vm_compute.
  destruct (ingest_and_ack _ _ _ _) as [r w']. cbn [fst] in Hr. subst r. exists w'. split; [done|].
  destruct Hp as (_ & _ & _ & Hj). exact Hj.
Defined.

End SessionSpec.
