(* ===== verification/Observe.v ===== *)
(** What the broker observes about itself: the timing histograms of
    src/src/metrics.rs, the gRPC connections of src/src/grpc_conn.rs with their
    registry, and the password generator of src/src/password_policy.rs. *)

From S2P Require Import Prelude RustStr Effects Auth.
Import Auth.

Module Observe.

(** * Timing histograms *)

Definition BOUNDS : list Z :=
  [100; 500; 1000; 5000; 10000; 50000; 100000; 500000; 1000000; 10000000].

(** [Timing]: counters of 64 bits. *)
Record Timing := mkTiming { count : Z; total : Z; max_us : Z; buckets : list Z }.

Definition timing_new : Timing := mkTiming 0 0 0 (replicate 11 0).

(** [BOUNDS.iter().position(|bound| us <= *bound).unwrap_or(10)]. *)
Definition bucket_of (us : Z) : nat :=
  default 10%nat (fst <$> list_find (λ bound, us <= bound) BOUNDS).

(** [Timing::record] of a duration in nanoseconds. *)
Definition record (nanos : Z) (t : Timing) : Timing :=
  let us := Z.min (nanos / 1000) U64_MAX in
  mkTiming (wrap_u64 (count t + 1)) (wrap_u64 (total t + us)) (Z.max (max_us t) us)
    (alter (λ n, wrap_u64 (n + 1)) (bucket_of us) (buckets t)).

(** [TimingSnapshot], made by [Timing::snapshot]. *)
Record TimingSnapshot := {
  sn_count : Z;
  sn_total_us : Z;
  sn_max_us : Z;
  sn_bucket_upper_us : list Z;
  sn_buckets : list Z
}.
Definition snapshot (t : Timing) : TimingSnapshot :=
  {| sn_count := count t; sn_total_us := total t; sn_max_us := max_us t; sn_bucket_upper_us := BOUNDS;
     sn_buckets := buckets t |}.

(** The statics of the module, one histogram per stage. *)
Record Timings := {
  ADMISSION : Timing;
  WRITE_QUEUE : Timing;
  PERSIST : Timing;
  CLAIM : Timing;
  QUEUE_WAIT : Timing;
  SEND : Timing;
  ACK_WAIT : Timing;
  ACK_COMMIT : Timing
}.

(** [Performance], made by the function [snapshot] of the module. *)
Record Performance := {
  pf_admission : TimingSnapshot;
  pf_write_queue : TimingSnapshot;
  pf_persist_batch : TimingSnapshot;
  pf_claim_batch : TimingSnapshot;
  pf_queue_wait : TimingSnapshot;
  pf_send : TimingSnapshot;
  pf_ack_wait : TimingSnapshot;
  pf_ack_commit_batch : TimingSnapshot
}.
Definition performance (t : Timings) : Performance :=
  {| pf_admission := snapshot (ADMISSION t); pf_write_queue := snapshot (WRITE_QUEUE t);
     pf_persist_batch := snapshot (PERSIST t); pf_claim_batch := snapshot (CLAIM t);
     pf_queue_wait := snapshot (QUEUE_WAIT t); pf_send := snapshot (SEND t);
     pf_ack_wait := snapshot (ACK_WAIT t); pf_ack_commit_batch := snapshot (ACK_COMMIT t) |}.

(** The durations of a run, in microseconds, and the histogram they make. *)
Definition micros (nanos : Z) : Z := Z.min (nanos / 1000) U64_MAX.
Definition recorded (durations : list Z) : Timing := foldl (λ t d, record d t) timing_new durations.

(** * gRPC connections *)

(** [GrpcClientInfo]. *)
Record GrpcClientInfo := mkClient { gc_peer : string; gc_connected_at : string; gc_version : string; gc_host : string }.

(** [GrpcClientRegistry]. *)
Record GrpcClientRegistry := mkClients { next_id : Z; clients : gmap Z GrpcClientInfo }.

Definition no_clients : GrpcClientRegistry := mkClients 0 ∅.

(** [GrpcClientRegistry::insert]: the identifier of the connection. *)
Definition client_insert (peer now : string) (r : GrpcClientRegistry) : Z * GrpcClientRegistry :=
  let id := wrap_u64 (next_id r + 1) in
  (id, mkClients id (<[id := mkClient peer now "" ""]> (clients r))).

(** [GrpcClientRegistry::remove]. *)
Definition client_remove (id : Z) (r : GrpcClientRegistry) : GrpcClientRegistry :=
  mkClients (next_id r) (delete id (clients r)).

(** [GrpcClientRegistry::touch]. *)
Definition client_touch (peer version host : string) (r : GrpcClientRegistry) : GrpcClientRegistry :=
  if is_empty version && is_empty host then r
  else mkClients (next_id r) ((λ info,
    if bool_decide (gc_peer info = peer)
    then mkClient (gc_peer info) (gc_connected_at info)
           (if is_empty version then gc_version info else version)
           (if is_empty host then gc_host info else host)
    else info) <$> clients r).

(** The order of [GrpcClientRegistry::clients]. *)
Definition grpc_client_le (a b : GrpcClientInfo) : Prop :=
  str_ltb (gc_peer a) (gc_peer b) = true ∨
  (gc_peer a = gc_peer b ∧ str_leb (gc_host a) (gc_host b) = true).

#[export] Instance grpc_client_le_dec : RelDecision grpc_client_le.
Proof. unfold RelDecision, grpc_client_le. intros. apply _. Defined.

(** [GrpcClientRegistry::clients]. *)
Definition client_list `{Oracle} (n : nat) (r : GrpcClientRegistry) : list GrpcClientInfo :=
  merge_sort grpc_client_le (any_order n (map_to_list (clients r)).*2).

(** [TrackedConn]: the addresses of a connection and its number in the registry. *)
Record TrackedConn := mkConn { conn_peer : string; conn_local : option string; conn_id : Z }.

(** [Poll], whose [Pending] is [NotReady]. *)
Inductive Poll (A : Type) := Ready (a : A) | NotReady.
Arguments Ready {A} a.
Arguments NotReady {A}.

(** [TrackingIncoming::poll_next] on what the listener answers: a stream by its two
    addresses, or an error; [now] is the time it is entered. *)
Definition poll_next (accepted : Poll (result string (string * option string))) (now : string)
    (r : GrpcClientRegistry) : Poll (option (result string TrackedConn)) * GrpcClientRegistry :=
  match accepted with
  | Ready (Ok (peer, local)) =>
      let '(id, r) := client_insert peer now r in (Ready (Some (Ok (mkConn peer local id))), r)
  | Ready (Err error) => (Ready (Some (Err error)), r)
  | NotReady => (NotReady, r)
  end.

(** [TrackedConn::drop]. *)
Definition conn_drop (c : TrackedConn) (r : GrpcClientRegistry) : GrpcClientRegistry := client_remove (conn_id c) r.

(** [TrackedConn::connect_info]: the local and the remote address. *)
Definition connect_info (c : TrackedConn) : option string * option string := (conn_local c, Some (conn_peer c)).

(** * Passwords *)

Definition LOWER : list Z := as_bytes "abcdefghijkmnopqrstuvwxyz".
Definition UPPER : list Z := as_bytes "ABCDEFGHJKLMNPQRSTUVWXYZ".
Definition DIGITS : list Z := as_bytes "23456789".
Definition SPECIAL : list Z := as_bytes "!@#$%^&*_-+=".
Definition ALL : list Z := LOWER ++ UPPER ++ DIGITS ++ SPECIAL.

(** [PasswordPolicy]: what the regular expression engine answers on a password. *)
Record PasswordPolicy := mkPolicy {
  is_match : string → result string bool;
  hint : string;
  generated_length : nat
}.

Definition DEFAULT_REGEX : string := "^(?=.{8,128}$)(?=.*[a-z])(?=.*[A-Z])(?=.*[^A-Za-z0-9\s]).*$".
Definition DEFAULT_HINT : string :=
  "密码必须为 8–128 位，并至少包含一个大写字母、一个小写字母和一个特殊字符".

(** [PasswordPolicy::from_env]; [compile] is [Regex::new], and the variables are
    given by their values. *)
Definition from_env (compile : string → result string (string → result string bool))
    (regex hint generated_length : option string) : result string PasswordPolicy :=
  let pattern := default DEFAULT_REGEX regex in
  let hint := default DEFAULT_HINT hint in
  length ← match generated_length with
           | Some value => match parse_usize value with
                           | Some n => Ok n
                           | None => Err "CL_BROKER_PASSWORD_GENERATED_LENGTH 必须是整数"
                           end
           | None => Ok 8
           end;
  if negb ((8 <=? length) && (length <=? 128))
  then Err "CL_BROKER_PASSWORD_GENERATED_LENGTH 必须在 8–128 之间"
  else match compile pattern with
       | Ok is_match => Ok (mkPolicy is_match hint (Z.to_nat length))
       | Err error => Err ("CL_BROKER_PASSWORD_REGEX 无效：" +:+ error)
       end.

(** [PasswordPolicy::validate]. *)
Definition validate_password (p : PasswordPolicy) (password : string) : result string () :=
  match is_match p password with
  | Ok true => Ok ()
  | Ok false => Err (hint p)
  | Err error => Err ("密码规则匹配失败：" +:+ error)
  end.

Section generate.

(** The random numbers: the [k]-th draw below a bound, and a shuffle. *)
Context (draw : nat → nat → nat) (shuffle : nat → list Z → list Z).

Definition choose (k : nat) (l : list Z) : Z := l !!! draw k (length l).

(** The candidate of round [k] of [PasswordPolicy::generate]. *)
Definition candidate (p : PasswordPolicy) (k : nat) : string :=
  let first := [choose (k * 256) LOWER; choose (k * 256 + 1) UPPER; choose (k * 256 + 2) DIGITS;
                choose (k * 256 + 3) SPECIAL] in
  of_bytes (shuffle k (first ++ map (λ i, choose (k * 256 + i) ALL)
                                    (seq 4 (generated_length p - 4)))).

(** The loop of [PasswordPolicy::generate]. *)
Fixpoint generate_loop (p : PasswordPolicy) (k rounds : nat) : result string string :=
  match rounds with
  | O => Err "无法生成满足密码规则的密码；请通过 -p 指定密码"
  | S rounds =>
      let password := candidate p k in
      match validate_password p password with
      | Ok _ => Ok password
      | Err _ => generate_loop p (S k) rounds
      end
  end.
Definition generate_password (p : PasswordPolicy) : result string string := generate_loop p 0 1024.

(** What [Auth] asks of the passwords, by this policy. *)
Definition policy_passwords (p : PasswordPolicy) (hash : nat → string → result string string)
    (verify : string → string → bool) : Passwords :=
  {| validate := validate_password p; generate _ := generate_password p; Auth.hash := hash; Auth.verify := verify |}.

End generate.

(** * Theorems *)

(** ** Connections *)

(** What happens to the connections: the listener is polled, an open connection is
    closed, or a request names its client. *)
Inductive ConnEvent :=
  | Polled (accepted : Poll (result string (string * option string))) (now : string)
  | Closed (k : nat)
  | Named (peer version host : string).

Definition conn_step (s : GrpcClientRegistry * list TrackedConn) (e : ConnEvent) : GrpcClientRegistry * list TrackedConn :=
  let '(r, open) := s in
  match e with
  | Polled accepted now =>
      let '(polled, r) := poll_next accepted now r in
      (r, if polled is Ready (Some (Ok c)) then c :: open else open)
  | Closed k => (if open !! k is Some c then conn_drop c r else r, delete k open)
  | Named peer version host => (client_touch peer version host r, open)
  end.

(** The registry has exactly the open connections, each under its own number. *)
Definition tracks (s : GrpcClientRegistry * list TrackedConn) : Prop :=
  let '(r, open) := s in
  NoDup (map conn_id open) ∧ Forall (λ c, conn_id c <= next_id r) open ∧
  ∀ id peer, gc_peer <$> clients r !! id = Some peer ↔ ∃ c, c ∈ open ∧ conn_id c = id ∧ conn_peer c = peer.

Lemma tracks_insert r open peer local now :
  tracks (r, open) → 0 <= next_id r < U64_MAX →
  let '(id, r') := client_insert peer now r in tracks (r', mkConn peer local id :: open) ∧ next_id r' = next_id r + 1.
Proof.
  intros (Hnd & Hle & Hr) Hn. unfold client_insert. unfold wrap_u64. rewrite Z.mod_small by (unfold U64_MAX in *; lia).
  cbn [next_id clients]. split; [|done]. rewrite Forall_forall in Hle.
  split; [|split; [|intros id' peer']]; cbn [next_id clients conn_id map].
  - apply NoDup_cons. split; [|done]. rewrite list_elem_of_In, in_map_iff. intros (c & Hc & Hin%list_elem_of_In).
    specialize (Hle c Hin). lia.
  - apply Forall_cons. split; [simpl; lia|]. apply Forall_forall. intros c Hc%Hle. lia.
  - rewrite lookup_insert. case_decide as Hid; simpl.
    + split.
      * intros [= <-]. eexists. by split; [left|].
      * intros (c & [->|Hin]%elem_of_cons & Hc & <-); [done|]. specialize (Hle c Hin). lia.
    + rewrite Hr. split; intros (c & Hc & H1 & H2); exists c; split_and!; try done; [by right|].
      apply elem_of_cons in Hc as [->|]; [|done]. by destruct Hid.
Qed.

Lemma tracks_close r open k : tracks (r, open) → tracks (conn_step (r, open) (Closed k)).
Proof.
  intros (Hnd & Hle & Hr). cbn [conn_step]. destruct (open !! k) as [c|] eqn:Hk.
  2: { apply lookup_ge_None in Hk. by rewrite delete_take_drop, take_ge, drop_ge, app_nil_r by lia. }
  apply delete_Permutation in Hk as Hp. rewrite (Permutation_map conn_id Hp) in Hnd. cbn [map] in Hnd.
  apply NoDup_cons in Hnd as [Hc Hnd]. rewrite Hp, Forall_cons in Hle. destruct Hle as [_ Hle].
  unfold tracks, conn_drop, client_remove. cbn [next_id clients]. split_and!; [done..|]. intros id peer.
  rewrite lookup_delete. case_decide as Hid; simpl.
  - split; [done|]. intros (d & Hd & Hdi & _). destruct Hc. rewrite list_elem_of_In, in_map_iff. exists d.
    rewrite <-list_elem_of_In. split; [congruence|done].
  - assert (∀ d, d ∈ open ↔ d ∈ c :: delete k open) as Hin by (intros d; by rewrite <-Hp).
    rewrite Hr. split; intros (d & Hd & H1 & H2); exists d; split_and!; try done.
    + apply Hin, elem_of_cons in Hd as [->|]; [congruence|done].
    + apply Hin. by right.
Qed.

Lemma tracks_touch r open peer version host : tracks (r, open) → tracks (client_touch peer version host r, open).
Proof.
  intros (Hnd & Hle & Hr). unfold client_touch. destruct (_ && _); [done|]. split_and!; [done..|]. intros id p.
  cbn [clients]. rewrite <-Hr, lookup_fmap. destruct (clients r !! id) as [info|]; [|done]. simpl.
  by case_bool_decide.
Qed.

(** The registry of gRPC connections is exact: after any connections, failures to
    accept, requests and ends of connections (fewer than 2^64), it lists exactly the
    open connections, each once and with its peer. *)
Theorem grpc_registry_exact events :
  Z.of_nat (length events) <= U64_MAX →
  let '(r, open) := foldl conn_step (no_clients, []) events in tracks (r, open).
Proof.
  intros Hlen. assert (let '(r, open) := foldl conn_step (no_clients, []) events in
    tracks (r, open) ∧ 0 <= next_id r <= Z.of_nat (length events)) as H.
  { induction events as [|e events IH] using rev_ind.
    { split; [|simpl; lia]. split_and!; [constructor..|]. intros id peer. cbn. rewrite lookup_empty. split; [done|].
      by intros (c & ?%not_elem_of_nil & _). }
    rewrite length_app in *. simpl in Hlen. rewrite foldl_app. cbn [foldl length].
    destruct (foldl conn_step _ events) as [r open]. destruct IH as [Ht Hn]; [lia|].
    destruct e as [[[[peer local]|error]|] now|k|peer version host]; cbn [conn_step poll_next].
    - pose proof (tracks_insert r open peer local now Ht ltac:(lia)) as Hi.
      destruct (client_insert peer now r) as [id r']. destruct Hi as [? ?]. split; [done|lia].
    - split; [done|lia].
    - split; [done|lia].
    - split; [by apply (tracks_close r open k)|]. destruct (open !! k); simpl; lia.
    - split; [by apply tracks_touch|]. unfold client_touch. destruct (_ && _); simpl; lia. }
  destruct (foldl conn_step _ events) as [r open]. apply H.
Qed.

Lemma grpc_registry_exact_witness :
  let '(r, open) := foldl conn_step (no_clients, [])
    [Polled (Ready (Ok ("a:1", None))) "t"; Polled (Ready (Err "reset")) "t"; Polled (Ready (Ok ("b:2", None))) "t"; Closed 1] in
  tracks (r, open) ∧ map conn_peer open = ["b:2"].
Proof.
  split; [|by vm_compute].
  exact (grpc_registry_exact [Polled (Ready (Ok ("a:1", None))) "t"; Polled (Ready (Err "reset")) "t";
    Polled (Ready (Ok ("b:2", None))) "t"; Closed 1] ltac:(by vm_compute)).
Defined.

(** ** Histograms *)

Definition sum (l : list Z) : Z := foldr Z.add 0 l.

(** A time belongs to bucket [k] when it is above the bound before and at most the
    bound of [k]; the last bucket is open. *)
Definition belongs (k : nat) (us : Z) : Prop :=
  match k with O => True | S j => default 0 (BOUNDS !! j) < us end ∧
  match BOUNDS !! k with Some b => us <= b | None => True end.

#[export] Instance belongs_dec k us : Decision (belongs k us).
Proof. unfold belongs. destruct (BOUNDS !! k), k; apply _. Defined.

(** How many of the times belong to bucket [k]. *)
Definition in_bucket (k : nat) (times : list Z) : Z :=
  Z.of_nat (length (filter (belongs k) times)).

Lemma bucket_of_bound us : (bucket_of us < 11)%nat.
Proof.
  unfold bucket_of. destruct (list_find _ BOUNDS) as [[k b]|] eqn:E; simpl; [|lia].
  apply list_find_Some in E as (Hk & _). apply lookup_lt_Some in Hk. simpl in Hk. lia.
Qed.

Lemma sum_app l k : sum (l ++ k) = sum l + sum k.
Proof. unfold sum. induction l as [|x l IH]; simpl; [done|]. rewrite IH. lia. Qed.

Lemma sum_nonneg l : Forall (λ x, 0 <= x) l → 0 <= sum l.
Proof. unfold sum. induction 1; simpl; lia. Qed.

Lemma micros_nonneg d : 0 <= d → 0 <= micros d.
Proof. intros Hd. unfold micros, U64_MAX. pose proof (Z.div_pos d 1000 Hd ltac:(lia)). lia. Qed.

Lemma in_bucket_app k l m : in_bucket k (l ++ m) = in_bucket k l + in_bucket k m.
Proof. unfold in_bucket. rewrite filter_app, length_app. lia. Qed.

Lemma in_bucket_le k l : 0 <= in_bucket k l <= Z.of_nat (length l).
Proof. unfold in_bucket. pose proof (length_filter (belongs k) l). lia. Qed.

Lemma bucket_of_spec us k :
  bucket_of us = k ↔
  (∀ b, BOUNDS !! k = Some b → us <= b) ∧ (∀ j b, (j < k)%nat → BOUNDS !! j = Some b → b < us) ∧ (k <= 10)%nat.
Proof.
  unfold bucket_of. destruct (list_find _ BOUNDS) as [[i b]|] eqn:E; simpl.
  - apply list_find_Some in E as (Hi & Hle & Hlt). split.
    + intros ->. split_and!.
      * intros b' Hb'. congruence.
      * intros j b' Hj Hb'. specialize (Hlt j b' Hb' Hj). lia.
      * apply lookup_lt_Some in Hi. simpl in Hi. lia.
    + intros (Hk & Hbefore & Hk10). destruct (Nat.lt_trichotomy i k) as [Hik|[->|Hik]]; [|done|].
      * specialize (Hbefore i b Hik Hi). lia.
      * destruct (lookup_lt_is_Some_2 BOUNDS k) as [b' Hb'].
        { apply lookup_lt_Some in Hi. lia. }
        specialize (Hlt k b' Hb' Hik). specialize (Hk b' Hb'). lia.
  - apply list_find_None in E. rewrite Forall_forall in E. split.
    + intros <-. split_and!; [done| |lia]. intros j b Hj Hb.
      assert (¬ us <= b) by (apply E; by eapply list_elem_of_lookup_2). lia.
    + intros (Hk & _ & Hk10). destruct (decide (k = 10%nat)); [done|].
      destruct (lookup_lt_is_Some_2 BOUNDS k) as [b Hb]; [simpl; lia|].
      exfalso. apply (E b); [by eapply list_elem_of_lookup_2|by apply Hk].
Qed.

Lemma BOUNDS_increase j k b c : (j <= k)%nat → BOUNDS !! j = Some b → BOUNDS !! k = Some c → b <= c.
Proof.
  intros Hjk Hb Hc. do 10 (destruct k as [|k]; [do 10 (destruct j as [|j]; [simpl in *; simplify_eq; lia|]); lia|]).
  done.
Qed.

Lemma bucket_of_belongs us k : (k <= 10)%nat → bucket_of us = k ↔ belongs k us.
Proof.
  intros Hk. rewrite bucket_of_spec. unfold belongs. split.
  - intros (Hup & Hlow & _). split; [|destruct (BOUNDS !! k); auto].
    destruct k as [|k]; [done|]. destruct (lookup_lt_is_Some_2 BOUNDS k) as [b Hb]; [simpl; lia|].
    rewrite Hb. apply (Hlow k); [lia|done].
  - intros [Hlow Hup]. split_and!; [|intros j b Hj Hb|done].
    + intros b Hb. by rewrite Hb in Hup.
    + destruct k as [|k]; [lia|]. destruct (lookup_lt_is_Some_2 BOUNDS k) as [c Hc]; [simpl; lia|].
      rewrite Hc in Hlow. simpl in Hlow. pose proof (BOUNDS_increase j k b c ltac:(lia) Hb Hc). lia.
Qed.

(** The timing histograms are exact: while the sums fit 64 bits, after any
    durations the count is their number, the total their sum and the maximum the
    largest in microseconds, and every bucket has the number of durations above the
    bound before it and at most its own; no counter depends on their order. *)
Theorem histogram_exact durations :
  Forall (λ d, 0 <= d) durations →
  Z.of_nat (length durations) < 2 ^ 64 → sum (micros <$> durations) < 2 ^ 64 →
  let t := recorded durations in
  count t = Z.of_nat (length durations) ∧ total t = sum (micros <$> durations) ∧
  max_us t = foldr Z.max 0 (micros <$> durations) ∧
  ∀ k, (k <= 10)%nat → buckets t !! k = Some (in_bucket k (micros <$> durations)).
Proof.
  intros Hpos. unfold recorded. induction durations as [|d ds IH] using rev_ind; intros Hlen Hsum.
  { split_and!; try done. intros k Hk. apply (lookup_replicate_2 11 0 k). lia. }
  apply Forall_app in Hpos as [Hpos Hd]. rewrite Forall_singleton in Hd.
  rewrite length_app in Hlen. simpl in Hlen. rewrite fmap_app, sum_app in Hsum.
  pose proof (micros_nonneg d Hd) as Hm.
  assert (0 <= sum (micros <$> ds)) as Hs.
  { apply sum_nonneg, Forall_fmap. eapply Forall_impl; [done|apply micros_nonneg]. }
  change (sum (micros <$> [d])) with (micros d + 0) in Hsum.
  destruct IH as (Hc & Ht & Hx & Hb); [done|lia|lia|].
  rewrite foldl_app. cbn [foldl]. set (t := foldl _ _ ds) in *. unfold record. fold (micros d). cbv zeta.
  cbn [count total max_us buckets]. split_and!.
  - rewrite Hc. unfold wrap_u64. rewrite length_app, Z.mod_small by lia. simpl. lia.
  - rewrite Ht. unfold wrap_u64. rewrite fmap_app, sum_app, Z.mod_small by lia.
    change (sum (micros <$> [d])) with (micros d + 0). lia.
  - rewrite Hx, fmap_app, foldr_app. change (foldr Z.max 0 (micros <$> [d])) with (Z.max (micros d) 0).
    generalize (micros <$> ds). intros l. clear -Hm. induction l as [|x l IH]; simpl; lia.
  - intros k Hk. specialize (Hb k Hk).
    rewrite fmap_app, in_bucket_app. change (micros <$> [d]) with [micros d].
    pose proof (in_bucket_le k (micros <$> ds)) as Hle. rewrite length_fmap in Hle.
    unfold in_bucket at 2. pose proof (bucket_of_belongs (micros d) k Hk) as Hbel.
    destruct (decide (bucket_of (micros d) = k)) as [Heq|Hne].
    + rewrite filter_cons_True by by apply Hbel. rewrite Heq, list_lookup_alter_eq, Hb. simpl.
      unfold wrap_u64. rewrite Z.mod_small by lia. done.
    + rewrite filter_cons_False by by rewrite <-Hbel. rewrite list_lookup_alter_ne by done. rewrite Hb. simpl. f_equal. lia.
Qed.

Lemma histogram_exact_witness :
  buckets (recorded [0; 100000; 100001; 101000; 10000001000]) !! 0%nat = Some 3.
Proof.
  destruct (histogram_exact [0; 100000; 100001; 101000; 10000001000]) as (_ & _ & _ & Hb);
    [by repeat constructor|done|by vm_compute|].
  rewrite (Hb 0%nat ltac:(lia)). by vm_compute.
Defined.

Section passwords.
Context (draw : nat → nat → nat) (shuffle : nat → list Z → list Z) (p : PasswordPolicy).
Context (Hdraw : ∀ k n, (0 < n)%nat → (draw k n < n)%nat) (Hshuffle : ∀ k l, shuffle k l ≡ₚ l).

Lemma choose_elem k l : l ≠ [] → choose draw k l ∈ l.
Proof.
  intros Hl. unfold choose. assert (draw k (length l) < length l)%nat as Hlt.
  { apply Hdraw. destruct l; [done|simpl; lia]. }
  by apply list_elem_of_lookup_total_2.
Qed.

(** A password of the wanted length with a character of every class. *)
Definition mixed (password : string) : Prop :=
  String.length password = generated_length p ∧
  (∃ b, b ∈ as_bytes password ∧ b ∈ LOWER) ∧ (∃ b, b ∈ as_bytes password ∧ b ∈ UPPER) ∧
  (∃ b, b ∈ as_bytes password ∧ b ∈ DIGITS) ∧ (∃ b, b ∈ as_bytes password ∧ b ∈ SPECIAL) ∧
  Forall (λ b, b ∈ ALL) (as_bytes password).

Lemma candidate_mixed k : (4 <= generated_length p)%nat → mixed (candidate draw shuffle p k).
Proof.
  intros Hlen. unfold candidate. set (bytes := _ ++ _).
  assert (Forall (λ b, b ∈ ALL) bytes) as Hall.
  { assert (∀ j l, l ≠ [] → l ⊆ ALL → choose draw j l ∈ ALL) as Hc.
    { intros j l Hl Hsub. by apply Hsub, choose_elem. }
    unfold bytes. apply Forall_app. rewrite !Forall_cons. split; [split_and!; [apply Hc; [done|intros b Hb; unfold ALL; rewrite !elem_of_app; tauto]..|constructor]|].
    apply Forall_forall. intros b Hb. rewrite list_elem_of_In, in_map_iff in Hb. destruct Hb as (j & <- & _). by apply Hc. }
  assert (as_bytes (of_bytes (shuffle k bytes)) = shuffle k bytes) as Hbytes.
  { apply as_bytes_of_bytes. rewrite Hshuffle. eapply Forall_impl; [exact Hall|].
    assert (Forall is_u8 ALL) as Hu by (unfold ALL; rewrite !Forall_app; split_and!; apply as_bytes_u8).
    intros b Hb. by eapply Forall_forall in Hu. }
  assert (∀ b, b ∈ bytes → b ∈ as_bytes (of_bytes (shuffle k bytes))) as Hin.
  { intros b. by rewrite Hbytes, Hshuffle. }
  split_and!.
  - rewrite <-length_as_bytes, Hbytes, Hshuffle. unfold bytes. rewrite length_app, length_map, length_seq. simpl. lia.
  - eexists. split; [apply Hin; left|by apply choose_elem].
  - eexists. split; [apply Hin; right; left|by apply choose_elem].
  - eexists. split; [apply Hin; do 2 right; left|by apply choose_elem].
  - eexists. split; [apply Hin; do 3 right; left|by apply choose_elem].
  - rewrite Hbytes, Hshuffle. done.
Qed.

(** The password generator ends after at most 1024 rounds; what it returns is
    accepted by the policy, has the wanted length and a lower-case letter, an
    upper-case letter, a digit and a special character; it fails only when the
    policy has refused every candidate. *)
Theorem generated_password_valid :
  (4 <= generated_length p)%nat →
  match generate_password draw shuffle p with
  | Ok password => validate_password p password = Ok () ∧ mixed password
  | Err _ => ∀ k, (k < 1024)%nat → validate_password p (candidate draw shuffle p k) ≠ Ok ()
  end.
Proof.
  intros Hlen. unfold generate_password.
  assert (∀ rounds k, match generate_loop draw shuffle p k rounds with
    | Ok password => validate_password p password = Ok () ∧ mixed password
    | Err _ => ∀ j, (k <= j < k + rounds)%nat → validate_password p (candidate draw shuffle p j) ≠ Ok ()
    end) as Hloop.
  { induction rounds as [|rounds IH]; intros k; cbn [generate_loop]; [intros j Hj; lia|].
    destruct (validate_password p (candidate draw shuffle p k)) as [[]|e] eqn:Hv.
    - split; [done|by apply candidate_mixed].
    - specialize (IH (S k)). destruct (generate_loop _ _ _ _ _); [done|].
      intros j Hj. destruct (decide (j = k)) as [->|]; [by rewrite Hv|]. apply IH. lia. }
  specialize (Hloop 1024%nat 0%nat). destruct (generate_loop _ _ _ _ _); [done|].
  intros k Hk. apply Hloop. lia.
Qed.

End passwords.

(** A policy that accepts every password of at most 12 bytes. *)
Definition demo_policy : PasswordPolicy := mkPolicy (λ s, Ok (String.length s <=? 12)%nat) "too long" 8.

Lemma generated_password_valid_witness :
  match generate_password (λ _ _, 0%nat) (λ _ l, l) demo_policy with
  | Ok password => mixed demo_policy password
  | Err _ => False
  end.
Proof.
  pose proof (generated_password_valid (λ _ _, 0%nat) (λ _ l, l) demo_policy ltac:(done) ltac:(done)
    ltac:(simpl; lia)) as Hp.
  assert (generate_password (λ _ _, 0%nat) (λ _ l, l) demo_policy = Ok "aA2!aaaa") as Hg by by vm_compute.
  rewrite Hg in *. apply Hp.
Defined.

End Observe.
