(* ===== verification/Service.v ===== *)
(** The gRPC queue service and the background tasks: src/src/main.rs.

    The handlers of [MessageQueue] act on the broker's shared state; the webhook
    dispatcher and the retention sweep are the bodies of their loops. *)

From S2P Require Import Prelude RustStr Topic Model Effects Store Db Writer Subscribers Cache Auth Delivery Observe.
Import Topic Model Store Db Writer Subscribers Auth Delivery Observe.

Module Service.

(** * Requests *)

(** What a handler sees of a request besides its message. *)
Record Call := mkCall { metadata : MetadataMap; remote_addr : option string }.

(** [AcceptMessageRequest] and [AcceptMessageResponse]. *)
Record AcceptMessageRequest := {
  am_topic : string;
  am_payload : list Z;
  am_attributes : gmap string string;
  am_idempotency_key : string
}.
Record AcceptMessageResponse := mkAccepted { ar_message_id : string; ar_duplicate : bool }.

(** [ProtoTopicConfig]. *)
Record ProtoTopicConfig := mkProtoTopic { pt_topic : string; pt_delivery : string; pt_persistence : string }.

(** [AckMessageRequest]. *)
Record AckMessageRequest := {
  ak_message_id : string;
  ak_lease : string;
  ak_success : bool;
  ak_error : string
}.

(** [to_proto_topic]. *)
Definition to_proto_topic (config : TopicConfig) : ProtoTopicConfig :=
  mkProtoTopic (tc_topic config) (delivery_as_str (tc_delivery config)) (persistence_as_str (tc_persistence config)).

(** [QueueService]: the broker, the connections, the subscriber loops spawned and the
    next channel. *)
Record QueueService := mkQueue {
  v_broker : Broker;
  v_clients : GrpcClientRegistry;
  v_loops : list Subscriber;
  v_next_channel : nat
}.

Definition put_broker (b : Broker) (v : QueueService) : QueueService :=
  mkQueue b (v_clients v) (v_loops v) (v_next_channel v).

Section service.
Context `{Oracle, Chrono, Serde}.
Context (accepts : nat → bool).

Abbreviation MQ := (M Status QueueService).

(** A call of the broker, with its errors as a status. *)
Definition on_queue {A} (f : string → Status) (m : M Error Broker A) : MQ A :=
  map_err_with (status_of f) (zoom v_broker put_broker m).

(** [note_grpc_identity]. *)
Definition note_grpc_identity (call : Call) (version host : string) : MQ () :=
  mem (λ v, ((), if remote_addr call is Some addr
                 then mkQueue (v_broker v) (client_touch addr version host (v_clients v)) (v_loops v) (v_next_channel v)
                 else v)).

(** * Publishing *)

(** The future made for one message of [accept_messages]. *)
Definition accept_message (message : AcceptMessageRequest) : MQ AcceptMessageResponse :=
  if is_empty (trim (am_topic message)) then fail (InvalidArgument "topic is required")
  else if bool_decide (am_payload message = []) then fail (InvalidArgument "payload is required")
  else
  ingested ← on_queue (λ _, Internal "could not persist message")
    (ingest accepts (trim (am_topic message)) (am_payload message) (am_attributes message)
       (Some (am_idempotency_key message)));
  match ingested with
  | IDropped message_id => mret (mkAccepted message_id false)
  | IQueued message_id duplicate => mret (mkAccepted message_id duplicate)
  end.

(** The outcome of a computation, panics included. *)
Definition outcome {St A} (m : M Status St A) : M Status St (result Status A) := λ w,
  let '(r, w) := m w in (Ok r, w).

(** The response stream of [accept_messages] for the messages that arrive, taken in
    one after the other.  It ends with the first failure; [ahead] of the messages
    after a failed one had already been started, their responses are lost.  A panic
    ends the task and the stream with it. *)
Fixpoint accept_stream (ahead : nat) (inbound : list (result Status AcceptMessageRequest))
    : MQ (list (result Status AcceptMessageResponse)) :=
  match inbound with
  | [] => mret []
  | message :: inbound =>
      response ← outcome (match message with Ok message => accept_message message | Err status => fail status end);
      match response with
      | Ok _ => rest ← accept_stream ahead inbound; mret (response :: rest)
      | Err (Aborted _) => mret []
      | Err _ =>
          _ ← for_each (take ahead inbound) (λ message,
                if message is Ok message then _ ← outcome (accept_message message); mret () else mret ());
          mret [response]
      end
  end.

(** [accept_messages] with [ingest_inflight] messages at a time. *)
Definition accept_messages (call : Call) (ahead : nat) (inbound : list (result Status AcceptMessageRequest))
    : MQ (list (result Status AcceptMessageResponse)) :=
  _ ← note_grpc_identity call (metadata_client_version (metadata call)) (metadata_client_host (metadata call));
  accept_stream ahead inbound.

(** * Consumers *)

(** [register]. *)
Definition register_handler (call : Call) (consumer_id topic name : string) (attributes : gmap string string) : MQ string :=
  _ ← note_grpc_identity call (metadata_client_version (metadata call)) (metadata_client_host (metadata call));
  if is_empty (trim topic) then fail (InvalidArgument "topic is required")
  else
  let attributes := apply_client_metadata (metadata call) attributes in
  on_queue (λ _, Internal "could not register consumer")
    (Delivery.on_db (register_consumer (Some consumer_id) (trim topic) (trim name) attributes)).

(** [unregister]. *)
Definition unregister (consumer_id : string) : MQ () :=
  if is_empty (trim consumer_id) then fail (InvalidArgument "consumer_id is required")
  else
  _ ← on_queue (λ _, Internal "could not unregister consumer")
        (Delivery.on_db (unregister_consumer (trim consumer_id)));
  mret ().

(** A database operation whose error is ignored. *)
Definition try_db {A} (m : M Error Db A) : MQ (result Error A) :=
  on_queue Internal (attempt (Delivery.on_db m)).

(** The version or host of a subscriber: what it sent, or what it registered. *)
Definition stored_attribute (consumer_id key current : string) : MQ string :=
  if is_empty current
  then stored ← try_db (consumer_attribute consumer_id key);
       mret (if stored is Ok (Some value) then value else current)
  else mret current.

(** [subscribe]: the channel of the response stream. *)
Definition subscribe (call : Call) (topic consumer_id : string) : MQ nat :=
  let peer := default "" (remote_addr call) in
  let version := metadata_client_version (metadata call) in
  let host := metadata_client_host (metadata call) in
  _ ← note_grpc_identity call version host;
  if is_empty (trim topic) then fail (InvalidArgument "topic is required")
  else
  let topic := trim topic in
  let consumer_id := trim consumer_id in
  '(version, host) ← (if is_empty consumer_id then mret (version, host)
    else _ ← try_db (touch_consumer consumer_id);
         version ← stored_attribute consumer_id "version" version;
         host ← stored_attribute consumer_id "host" host;
         mret (version, host));
  session ← (if is_empty consumer_id then new_uuid else mret consumer_id);
  mem (λ v, (v_next_channel v, mkQueue (v_broker v) (v_clients v)
    (v_loops v ++ [{| s_topic := topic; s_session := session; s_consumer_id := consumer_id;
                      s_tx := v_next_channel v; s_peer := peer; s_protocol := "grpc";
                      s_version := version; s_host := host |}])
    (S (v_next_channel v)))).

(** * Topics *)

(** The validation loop of [configure_topics]. *)
Definition parse_topic (item : ProtoTopicConfig) : result Status TopicConfig :=
  let topic := trim (pt_topic item) in
  if is_empty topic then Err (InvalidArgument "topic is required")
  else match delivery_parse (pt_delivery item) with
       | None => Err (InvalidArgument "delivery must be single or broadcast")
       | Some delivery =>
           match persistence_parse (pt_persistence item) with
           | None => Err (InvalidArgument "persistence must be persistent or ephemeral")
           | Some persistence =>
               Ok {| tc_topic := topic; tc_delivery := delivery; tc_persistence := persistence |}
           end
       end.

(** [configure_topics]. *)
Definition configure_topics_handler (topics : list ProtoTopicConfig) : MQ (list ProtoTopicConfig) :=
  match topics with
  | [] => fail (InvalidArgument "topics is required")
  | _ =>
      configs ← lift (mapM parse_topic topics);
      stored ← on_queue (λ _, Internal "could not configure topics") (Delivery.on_db (configure_topics configs));
      mret (map to_proto_topic stored)
  end.

(** [list_topics]. *)
Definition list_topics : MQ (list ProtoTopicConfig) :=
  stored ← on_queue (λ _, Internal "could not list topics") (Delivery.on_db list_topic_configs);
  mret (map to_proto_topic stored).

(** * Acknowledgements *)

Definition complete_one (ack : AckMessageRequest) : MQ bool :=
  mem (λ v, let '(accepted, acks) := complete (ak_message_id ack) (ak_lease ack) (ak_success ack) (ak_error ack)
                                       (b_acks (v_broker v)) in
            (accepted, put_broker (set_acks acks (v_broker v)) v)).

(** [ack_message]. *)
Definition ack_message (ack : AckMessageRequest) : MQ bool :=
  if is_empty (ak_message_id ack) || is_empty (ak_lease ack)
  then fail (InvalidArgument "message_id and lease are required")
  else complete_one ack.

(** [u32::saturating_add(1)]. *)
Definition saturating_succ_u32 (n : Z) : Z := Z.min (n + 1) (2 ^ 32 - 1).

(** [ack_messages]. *)
Definition ack_messages (acks : list AckMessageRequest) : MQ Z :=
  match acks with
  | [] => fail (InvalidArgument "acknowledgements are required")
  | _ => fold_each acks 0 (λ accepted ack,
           if is_empty (ak_message_id ack) || is_empty (ak_lease ack)
           then fail (InvalidArgument "message_id and lease are required")
           else taken ← complete_one ack;
                mret (if taken : bool then saturating_succ_u32 accepted else accepted))
  end.

End service.

(** * The webhook dispatcher *)

(** The end of the request of [dispatch_loop]: a success status, an error with its
    text, or the shutdown of the broker. *)
Inductive Answer :=
  | Accepted
  | Refused (error : string)
  | Interrupted.

Section dispatcher.
Context `{Oracle, Chrono, Serde}.

(** What becomes of the request to the webhook, question by question. *)
Context (post : nat → DownstreamMessage → Answer).

Abbreviation MB := (M Error Broker).

(** The part of [Config] the dispatcher uses. *)
Context (ack_timeout_secs max_delivery_attempts : Z).

(** The topics a round of [dispatch_loop] leaves out. *)
Definition skipped_topics : MB (list string) :=
  live ← (λ w, (Ok (Subscribers.topics (tick w) (b_subs (st w))), mkWorld (st w) (S (tick w))));
  ephemeral ← attempt (Delivery.on_db ephemeral_topics);
  mret (match ephemeral with
        | Ok ephemeral => foldl (λ skip topic, if bool_decide (topic ∈ skip) then skip else skip ++ [topic]) live ephemeral
        | Err _ => live
        end).

(** The rest of a round of [dispatch_loop] for the message it claimed: whether the
    loop goes on. *)
Definition dispatch_claimed (message : ClaimedMessage) : MB bool :=
  covered ← mem (λ b, (covers (cm_topic message) (b_subs b), b));
  if covered : bool
  then _ ← attempt (Delivery.on_db (release (cm_id message) (cm_lease message))); mret true
  else
  answer ← (λ w, (Ok (post (tick w) (to_downstream message)), mkWorld (st w) (S (tick w))));
  match answer with
  | Accepted => _ ← attempt (Delivery.on_db (delivered (cm_id message) (cm_lease message))); mret true
  | Refused error => _ ← attempt (Delivery.on_db (failed (cm_id message) (cm_lease message) error
                                                    max_delivery_attempts)); mret true
  | Interrupted => mret false
  end.

(** One round of [dispatch_loop]. *)
Definition dispatch_once : MB bool :=
  skip ← skipped_topics;
  claimed ← attempt (Delivery.on_db (claim_next_excluding (Z.max ack_timeout_secs 1 * 10 ^ 9) skip));
  match claimed with
  | Err _ | Ok None => mret true
  | Ok (Some message) => dispatch_claimed message
  end.

(** [dispatch_loop] with a webhook: [others] are the steps of other tasks during its
    pauses, until the shutdown. *)
Fixpoint dispatch_loop (others : list (Broker → Broker)) : MB () :=
  match others with
  | [] => mret ()
  | f :: others =>
      _ ← mem (λ b, ((), f b));
      go_on ← dispatch_once;
      if go_on : bool then dispatch_loop others else mret ()
  end.

End dispatcher.

(** * The retention sweep *)

Section retention.
Context `{Oracle, Chrono, Serde}.

(** What the sweep acts on: the broker, and the cache and the locks. *)
Record Swept := mkSwept { w_broker : Broker; w_stores : Cache.CacheService }.

Abbreviation MW := (M Error Swept).

Definition sweep_db {A} (m : M Error Db A) : MW (result Error A) :=
  attempt (zoom w_broker (λ b w, mkSwept b (w_stores w)) (Delivery.on_db m)).

(** The part of [Config] the sweep uses. *)
Record RetentionConfig := {
  message_retention_days : Z;
  delivered_retention_hours : Z;
  ephemeral_idle_hours : Z;
  purge_interval_hours : Z;
  consumer_ttl_secs : Z
}.
Context (config : RetentionConfig).

(** [chrono::Utc::now() - duration], of so many units of [secs] seconds. *)
Definition ago (units secs : Z) : MW string :=
  now ← now;
  d ← (if bool_decide (is_i64 (units * secs)) then seconds (units * secs)
       else fail (Panicked "duration out of bounds"));
  t ← add_time now (- d);
  mret (to_rfc3339 t).

(** [consumer_cutoff]. *)
Definition consumer_cutoff (ttl_secs : Z) : MW (option string) :=
  if ttl_secs =? 0 then mret None
  else cutoff ← ago (wrap_i64 ttl_secs) 1; mret (Some cutoff).

(** The topics of a live subscription. *)
Definition live_topics : MW (list string) := λ w,
  (Ok (Subscribers.topics (tick w) (b_subs (w_broker (st w)))), mkWorld (st w) (S (tick w))).

Definition is_covered (topic : string) : MW bool := mem (λ w, (covers topic (b_subs (w_broker w)), w)).

(** The ephemeral messages nobody is there to receive. *)
Definition sweep_ephemeral : MW () :=
  topics ← sweep_db ephemeral_topics;
  match topics with
  | Ok topics => for_each topics (λ topic,
      covered ← is_covered topic;
      if covered : bool then mret () else _ ← sweep_db (drop_pending topic); mret ())
  | Err _ => mret ()
  end.

(** Whether the purge of idle topics is due, [last] being the time of the last. *)
Definition due_idle_purge (last : option Z) (at_ : Z) : bool :=
  (0 <? ephemeral_idle_hours config) &&
  match last with
  | Some started => if 0 <? purge_interval_hours config
                    then Z.min (purge_interval_hours config * 3600) U64_MAX * 10 ^ 9 <=? at_ - started
                    else true
  | None => true
  end.

(** One round of [retention_loop]: the time of the last purge of idle topics. *)
Definition retention_sweep (last_idle_purge : option Z) : MW (option Z) :=
  _ ← sweep_db reclaim_stale;
  _ ← sweep_ephemeral;
  _ ← (if 0 <? message_retention_days config
       then cutoff ← ago (message_retention_days config) 86400; _ ← sweep_db (purge_older_than cutoff); mret ()
       else mret ());
  _ ← (if 0 <? delivered_retention_hours config
       then cutoff ← ago (wrap_i64 (delivered_retention_hours config)) 3600;
            _ ← sweep_db (purge_delivered_older_than cutoff); mret ()
       else mret ());
  at_ ← now;
  last ← (if due_idle_purge last_idle_purge at_
          then cutoff ← ago (wrap_i64 (ephemeral_idle_hours config)) 3600;
               keep ← live_topics;
               _ ← sweep_db (purge_idle_ephemeral cutoff keep);
               done_at ← now;
               mret (Some done_at)
          else mret last_idle_purge);
  _ ← (if 0 <? consumer_ttl_secs config
       then cutoff ← consumer_cutoff (consumer_ttl_secs config);
            match cutoff with
            | Some cutoff => _ ← sweep_db (purge_stale_consumers cutoff); mret ()
            | None => mret ()
            end
       else mret ());
  _ ← attempt (zoom w_stores (λ s w, mkSwept (w_broker w) s)
        (zoom Cache.cache (λ c s, Cache.mkService c (Cache.lock s)) Cache.cache_purge_expired));
  _ ← attempt (zoom w_stores (λ s w, mkSwept (w_broker w) s)
        (zoom Cache.lock (λ l s, Cache.mkService (Cache.cache s) l) Cache.lock_purge_expired));
  mret last.

(** [retention_loop]: [others] are the steps of other tasks during its pauses, until
    the shutdown. *)
Fixpoint retention_loop (last_idle_purge : option Z) (others : list (Swept → Swept)) : MW () :=
  last_idle_purge ← retention_sweep last_idle_purge;
  match others with
  | [] => mret ()
  | f :: others => _ ← mem (λ w, ((), f w)); retention_loop last_idle_purge others
  end.

End retention.

End Service.
