(* ===== verification/ServiceSpec.v ===== *)
(** What the background tasks of the broker guarantee: the webhook dispatcher settles
    the message it claims, and the retention sweep spares what must be kept. *)

From S2P Require Import Prelude RustStr Topic Model Effects Store Db DbInv DbSpec DbAdmin DbQuerySpec Writer.
From S2P Require Import Subscribers Cache Auth Delivery DeliverySpec Observe Service.
Import Topic Model Store Db DbInv DbSpec DbAdmin DbQuerySpec Writer Subscribers Auth Delivery DeliverySpec Observe Service.

Module ServiceSpec.

(** * The claim of the dispatcher *)

Section claim.
Context `{Oracle, Chrono, Serde, !OrderLaws}.

(** Only the row [id] of shard [i] changed, to [m]. *)
Definition row_changed (i : nat) (id : string) (m : Message) (s s' : Db) : Prop :=
  length (shards s') = length (shards s) ∧
  shard i s' = <[id := m]> (shard i s) ∧ ∀ j, j ≠ i → shard j s' = shard j s.

(** The message handed out for a row claimed under a lease. *)
Definition describes (id lease : string) (m : Message) (x : ClaimedMessage) : Prop :=
  cm_id x = id ∧ cm_topic x = m_topic m ∧ cm_payload x = m_payload m ∧
  json_from_str (m_attributes m) = Some (cm_attributes x) ∧ cm_created_at x = m_created m ∧
  cm_lease x = lease ∧ cm_attempts x = m_attempts m + 1.

(** [x] was claimed among the topics not in [skip]. *)
Definition took (skip : list string) (x : ClaimedMessage) (s s' : Db) : Prop :=
  ∃ i id m lease visible, (i < MESSAGE_SHARDS)%nat ∧ shard i s !! id = Some m ∧ m_status m = Pending ∧
    m_topic m ∉ skip ∧ describes id lease m x ∧
    row_changed i id (to_processing lease visible m) s s'.

(** Nothing was there to be claimed in the shards looked at. *)
Definition idle (skip : list string) (start : Z) (offsets : list nat) (n : nat) (s : Db) : Prop :=
  ∀ offset id m, offset ∈ offsets →
    shard (Z.to_nat ((start + Z.of_nat offset) mod Z.of_nat MESSAGE_SHARDS)) s !! id = Some m →
    stays_ready n m → m_topic m ∈ skip.

Lemma head_elem {A} (l : list A) x : head l = Some x → x ∈ l.
Proof. destruct l; [done|]. intros [= ->]. left. Qed.

(** The row a shard offers. *)
Lemma oldest_spec (skip : list string) now n t :
  let rows := merge_sort created_le (any_order n (select_where
    (λ _ m, ready now m && negb (bool_decide (m_topic m ∈ skip))) t)) in
  match head rows with
  | Some (id, m) => t !! id = Some m ∧ m_status m = Pending ∧ m_topic m ∉ skip
  | None => ∀ id m, t !! id = Some m → ready now m = true → m_topic m ∈ skip
  end.
Proof.
  cbv zeta. set (p := λ (_ : string) m, _). set (rows := merge_sort _ _).
  assert (rows ≡ₚ select_where p t) as Hp.
  { unfold rows. by rewrite merge_sort_Permutation, any_order_perm. }
  destruct (head rows) as [[id m]|] eqn:Hh.
  - apply head_elem in Hh. rewrite Hp, elem_of_select_where in Hh. destruct Hh as [Hm Hr].
    unfold p, ready in Hr. rewrite !andb_true_iff, negb_true_iff, bool_decide_eq_false in Hr.
    destruct Hr as [[Hs _] Hr]. split; [done|]. split; [by apply is_status_true|done].
  - intros id m Hm Hr. destruct (decide (m_topic m ∈ skip)) as [|Hn]; [done|exfalso].
    assert ((id, m) ∈ rows) as Hin; [|by destruct rows; [apply elem_of_nil in Hin|]].
    rewrite Hp, elem_of_select_where. split; [done|]. unfold p.
    by rewrite Hr, bool_decide_eq_false_2 by done.
Qed.

Lemma claim_excluding_spec visibility skip start offsets w :
  claimable visibility (st w) →
  ∃ o w', claim_excluding visibility skip start offsets w = (Ok o, w') ∧
    match o with
    | None => same_tables (st w) (st w') ∧ idle skip start offsets (tick w) (st w)
    | Some x => took skip x (st w) (st w')
    end.
Proof.
  revert w. induction offsets as [|o os IH]; intros w Hcl; cbn [claim_excluding].
  { exists None, w. rewrite run_ret. split; [done|]. split; [done|].
    intros ? ? ? Hin. by apply elem_of_nil in Hin. }
  pose proof Hcl as (Hc & HL & Hpar & d & Hd & Hadd).
  set (i := Z.to_nat ((start + Z.of_nat o) mod Z.of_nat MESSAGE_SHARDS)).
  assert (i < MESSAGE_SHARDS)%nat as Hi.
  { unfold i. pose proof (Z.mod_pos_bound (start + Z.of_nat o) (Z.of_nat MESSAGE_SHARDS) ltac:(done)). lia. }
  unfold ask_shard_at. run. rewrite Hc. run.
  pose proof (oldest_spec skip (to_rfc3339 (clock (tick w))) (S (tick w)) (shard i (st w))) as Hold.
  cbv zeta in Hold. destruct (head _) as [[id m]|].
  - destruct Hold as (Hm & Hs & Hskip). unfold finish_claim, add_time. rewrite Hd. change (default (30 * 10 ^ 9) (Some d)) with d.
    destruct (Hadd (tick w)) as [v Hv]. run.
    rewrite Hv. unfold on_shard. run. rewrite Hc.
    rewrite (update_id_hit _ _ _ _ _ Hm) by (by apply bool_decide_eq_true). run.
    destruct (Hpar i id m Hm) as [j Hj]. rewrite Hj. cbn [ok_or]. run.
    do 2 eexists. split; [done|]. exists i, id, m, (uuid (S (S (tick w)))), (to_rfc3339 v).
    split; [done|]. split; [done|]. split; [done|]. split; [done|]. split; [by split_and!|].
    cbn [st]. rewrite <-HL in Hi. split; [simpl; apply length_alter|]. by apply set_shard_written.
  - unfold finish_claim. run. set (w1 := mkWorld (st w) _).
    destruct (IH w1 Hcl) as (o' & w' & Hrun & Hpost). rewrite Hrun. exists o', w'. split; [done|].
    destruct o'; [done|]. destruct Hpost as [Hsame Hidle]. split; [done|].
    intros o' id m [->|Hin]%elem_of_cons Hm Hr; [eapply Hold; [done|apply Hr; lia]|].
    eapply Hidle; [done..|]. intros k Hk. apply Hr. simpl in Hk. lia.
Qed.

(** Every shard is looked at, wherever the cursor stands. *)
Lemma shard_offset start i :
  (i < MESSAGE_SHARDS)%nat → ∃ offset, offset ∈ seq 0 MESSAGE_SHARDS ∧
    Z.to_nat ((start + Z.of_nat offset) mod Z.of_nat MESSAGE_SHARDS) = i.
Proof.
  intros Hi. set (N := Z.of_nat MESSAGE_SHARDS). assert (0 < N) as HN by done.
  pose proof (Z.mod_pos_bound (Z.of_nat i - start) N HN) as Hb.
  exists (Z.to_nat ((Z.of_nat i - start) mod N)). split.
  - apply elem_of_seq. unfold N in *. lia.
  - rewrite Z2Nat.id by lia. rewrite Z.add_mod_idemp_r by lia.
    replace (start + (Z.of_nat i - start)) with (Z.of_nat i) by lia.
    rewrite Z.mod_small by (unfold N; lia). apply Nat2Z.id.
Qed.

Lemma claim_next_spec visibility skip w :
  claimable visibility (st w) →
  ∃ o w', claim_next_excluding visibility skip w = (Ok o, w') ∧
    match o with
    | None => same_tables (st w) (st w') ∧
        ∀ i id m, shard i (st w) !! id = Some m → stays_ready (tick w) m → m_topic m ∈ skip
    | Some x => took skip x (st w) (st w')
    end.
Proof.
  intros Hcl. unfold claim_next_excluding, next_cursor. run.
  set (w1 := mkWorld (set_cursor _ _) _). set (start := cursor (st w) mod _).
  destruct (claim_excluding_spec visibility skip start (seq 0 MESSAGE_SHARDS) w1) as (o & w' & -> & Hpost); [done|].
  exists o, w'. split; [done|]. destruct o; [done|]. destruct Hpost as [Hsame Hidle]. split; [done|].
  intros i id m Hm Hr. destruct (decide (i < MESSAGE_SHARDS)%nat) as [Hi|Hi].
  - destruct (shard_offset start i Hi) as (o & Ho & <-). by eapply Hidle.
  - rewrite shard_beyond in Hm; [by rewrite lookup_empty in Hm|apply Hcl|lia].
Qed.

End claim.

(** * The webhook *)

Section webhook.
Context `{Oracle, Chrono, Serde, !OrderLaws}.

(** The topics the dispatcher leaves to others: those of a subscriber of exactly
    that name, and the ephemeral ones. *)
Definition skipped (topic : string) (b : Broker) : Prop :=
  topic ∈ dom (b_subs b) ∨ ∃ r, topic_stats (b_db b) !! topic = Some r ∧ t_persistence r = "ephemeral".

(** The row a round leaves for the message it claimed, at time [at_]. *)
Definition after_round (max : Z) (covered : bool) (answer : Answer) (at_ next : string) (claimed : Message) : Message :=
  if covered then to_pending (with_next at_ claimed)
  else match answer with
       | Accepted => to_delivered at_ claimed
       | Refused error => set_status (if max <=? m_attempts claimed then Failed else Pending)
                            (with_error (Some error) (with_next next claimed))
       | Interrupted => claimed
       end.

(** The skip list without duplicates. *)
Lemma elem_of_merge (extra live : list string) topic :
  topic ∈ foldl (λ skip topic, if bool_decide (topic ∈ skip) then skip else skip ++ [topic]) live extra ↔
  topic ∈ live ∨ topic ∈ extra.
Proof.
  revert live. induction extra as [|x extra IH]; intros live; cbn [foldl]; [set_solver|].
  rewrite IH. case_bool_decide; set_solver.
Qed.

Lemma skipped_topics_run w :
  calm → ∃ skip n, skipped_topics w = (Ok skip, mkWorld (st w) n) ∧ (tick w <= n)%nat ∧
    ∀ topic, topic ∈ skip ↔ skipped topic (st w).
Proof.
  intros Hc. unfold skipped_topics. rewrite run_bind. cbn [st tick]. rewrite run_bind, run_attempt.
  unfold Delivery.on_db, zoom, ephemeral_topics. cbn [st tick]. run. rewrite Hc. run.
  replace (set_db (b_db (st w)) (st w)) with (st w) by (by destruct (st w)).
  do 2 eexists. split; [done|]. split; [lia|]. intros topic. rewrite elem_of_merge. unfold skipped, Subscribers.topics.
  rewrite !any_order_perm. f_equiv.
  - rewrite elem_of_dom, list_elem_of_fmap. split.
    + intros ([k v] & -> & Hin%elem_of_map_to_list). by eexists.
    + intros [v Hv]. exists (topic, v). split; [done|]. by apply elem_of_map_to_list.
  - rewrite list_elem_of_fmap. split.
    + intros ([k r] & -> & [Hp Hin%elem_of_map_to_list]%list_elem_of_filter). eauto.
    + intros (r & Hr & Hp). exists (topic, r). split; [done|].
      apply list_elem_of_filter. split; [done|]. by apply elem_of_map_to_list.
Qed.

Lemma release_hit id lease i m w :
  calm → message_id_shard id = Some i → length (shards (st w)) = MESSAGE_SHARDS →
  shard i (st w) !! id = Some m → leased lease m = true →
  ∃ w', release id lease w = (Ok true, w') ∧
    row_changed i id (to_pending (with_next (to_rfc3339 (clock (tick w))) m)) (st w) (st w').
Proof.
  intros Hc Hid HL Hm Hl. pose proof (message_id_shard_bound _ _ Hid) as Hi. rewrite <-HL in Hi.
  unfold release, shard_index_for_id, on_shard, rfc_now. rewrite Hid. run. rewrite Hc.
  rewrite (update_id_hit _ _ _ _ _ Hm Hl). run. eexists. split; [done|].
  split; [simpl; apply length_alter|]. by apply set_shard_written.
Qed.

(** Two writes of one row are the last of them. *)
Lemma row_changed_twice i id m1 m2 s s1 s2 :
  row_changed i id m1 s s1 → row_changed i id m2 s1 s2 → row_changed i id m2 s s2.
Proof.
  intros (L1 & H1i & H1j) (L2 & H2i & H2j). split; [congruence|]. split.
  - by rewrite H2i, H1i, insert_insert_eq.
  - intros j Hj. rewrite H2j, H1j; done.
Qed.

Lemma keeps_delivered id lease : Keeps evolves (delivered id lease).
Proof. unfold delivered. apply keeps_bind; [apply _|apply keeps_delivered_batch|intros ?]. keeps_go. Qed.

(** A step on the database of the broker whose error is ignored. *)
Lemma try_on_db {A B} (m : M Error Db A) (k : result Error A → M Error Broker B) w a w1 :
  m (mkWorld (b_db (st w)) (tick w)) = (Ok a, w1) →
  (attempt (Delivery.on_db m) ≫= k) w = k (Ok a) (mkWorld (set_db (st w1) (st w)) (tick w1)).
Proof. intros Hm. rewrite run_bind, run_attempt. unfold Delivery.on_db, zoom. by rewrite Hm. Qed.

Context (post : nat → DownstreamMessage → Answer) (ack_timeout_secs max_delivery_attempts : Z).

(** Whether the shutdown of the broker ended the round. *)
Definition interrupted (covered : bool) (answer : Answer) : bool :=
  negb covered && (if answer is Interrupted then true else false).

Lemma dispatch_claimed_spec i claimed x w :
  fine → message_id_shard (cm_id x) = Some i → length (shards (b_db (st w))) = MESSAGE_SHARDS →
  shard i (b_db (st w)) !! cm_id x = Some claimed → leased (cm_lease x) claimed = true → 0 <= m_attempts claimed →
  let covered := covers (cm_topic x) (b_subs (st w)) in let answer := post (tick w) (to_downstream x) in
  ∃ w' k next, dispatch_claimed post max_delivery_attempts x w = (Ok (negb (interrupted covered answer)), w') ∧
    add_duration (clock k) (2 ^ Z.min (m_attempts claimed) 8 * 10 ^ 9) = Some next ∧
    row_changed i (cm_id x) (after_round max_delivery_attempts covered answer (to_rfc3339 (clock k)) (to_rfc3339 next) claimed)
      (b_db (st w)) (b_db (st w')).
Proof.
  intros [Hc Hretry] Hid HL Hrow Hl Ha covered answer.
  assert (∀ k, is_Some (add_duration (clock k) (2 ^ Z.min (m_attempts claimed) 8 * 10 ^ 9))) as Hnext.
  { intros k. apply Hretry. split; [apply (Z.pow_le_mono_r 2 0); lia|].
    etrans; [apply (Z.pow_le_mono_r 2 _ 8); lia|done]. }
  unfold dispatch_claimed. rewrite run_bind, run_mem. fold covered. destruct covered eqn:Hcov.
  { destruct (release_hit (cm_id x) (cm_lease x) i claimed (mkWorld (b_db (st w)) (tick w))) as (w1 & Hrun & Hch); [done..|].
    rewrite (try_on_db _ _ (mkWorld (st w) (tick w)) _ _ Hrun). destruct (Hnext (tick w)) as [next Hn].
    eexists _, (tick w), next. split; [done|]. split; [done|]. exact Hch. }
  rewrite run_bind. cbn [st tick]. fold answer. destruct answer as [|error|] eqn:Hans.
  - set (w0 := mkWorld (st w) (S (tick w))). set (wd := mkWorld (b_db (st w)) (S (tick w))).
    destruct (delivered_hit (cm_id x) (cm_lease x) i claimed wd) as (w1 & Hrun & Hi & Hj); [done..|].
    rewrite (try_on_db _ _ w0 _ _ Hrun). destruct (Hnext (S (tick w))) as [next Hn].
    eexists _, (S (tick w)), next. split; [done|]. split; [done|]. split; [|by split].
    pose proof (keeps_delivered (cm_id x) (cm_lease x) wd) as [HL' _]. by rewrite Hrun in HL'.
  - set (w0 := mkWorld (st w) (S (tick w))). set (wd := mkWorld (b_db (st w)) (S (tick w))).
    destruct (Hnext (S (S (tick w)))) as [next Hn].
    pose proof (failed_hit (cm_id x) (cm_lease x) error max_delivery_attempts i claimed wd next) as Hf.
    pose proof (keeps_failed (cm_id x) (cm_lease x) error max_delivery_attempts wd) as [HL' _].
    destruct (failed _ _ _ _ wd) as [r w1] eqn:Hrun. destruct Hf as (-> & Hi & Hj); [done..|].
    rewrite (try_on_db _ _ w0 _ _ Hrun). eexists _, (S (S (tick w))), next. by repeat split.
  - destruct (Hnext (tick w)) as [next Hn]. eexists _, (tick w), next. split; [done|]. split; [done|].
    split; [done|]. split; [|done]. cbn [after_round st]. by rewrite insert_id.
Qed.

(** C21: A round of the webhook dispatcher settles what it takes: without storage faults
    it takes nothing only if every message that stays ready belongs to a topic left to
    others; otherwise exactly one pending message of another topic changes.  It is
    delivered when the webhook accepts it, backs off or fails when the webhook refuses
    it, and stays claimed when the shutdown interrupts the request.  When a live
    wildcard filter covers the topic the webhook is not asked and the message is
    pending again, with one attempt used up. *)
Theorem webhook_outcome w :
  let s := b_db (st w) in
  fine → claimable (Z.max ack_timeout_secs 1 * 10 ^ 9) s → db_ok s → ids_routed s →
  ∃ go_on w', dispatch_once post ack_timeout_secs max_delivery_attempts w = (Ok go_on, w') ∧
    ((go_on = true ∧ same_tables s (b_db (st w')) ∧
      ∀ i id m, shard i s !! id = Some m → stays_ready (tick w) m → skipped (m_topic m) (st w)) ∨
     ∃ i id m lease visible x n k next,
       shard i s !! id = Some m ∧ m_status m = Pending ∧ ¬ skipped (m_topic m) (st w) ∧ describes id lease m x ∧
       let claimed := to_processing lease visible m in
       let covered := covers (m_topic m) (b_subs (st w)) in let answer := post n (to_downstream x) in
       go_on = negb (interrupted covered answer) ∧
       add_duration (clock k) (2 ^ Z.min (m_attempts m + 1) 8 * 10 ^ 9) = Some next ∧
       row_changed i id (after_round max_delivery_attempts covered answer (to_rfc3339 (clock k)) (to_rfc3339 next) claimed)
         s (b_db (st w'))).
Proof.
  intros s Hfine Hcl Hok Hids. unfold dispatch_once. rewrite run_bind.
  destruct (skipped_topics_run w (proj1 Hfine)) as (skip & n & -> & Hn & Hskip).
  destruct (claim_next_spec (Z.max ack_timeout_secs 1 * 10 ^ 9) skip (mkWorld s n) Hcl) as (o & w1 & Hrun & Hpost).
  rewrite (try_on_db _ _ (mkWorld (st w) n) _ _ Hrun). destruct o as [x|].
  - destruct Hpost as (i & id & m & lease & visible & Hi & Hm & Hst & Hnot & Hdesc & Hch).
    pose proof Hdesc as (Eid & Et & _ & _ & _ & Elease & _).
    pose proof (proj1 (proj2 Hok i) id m Hm) as (_ & _ & _ & _ & Hatt & _).
    cbn [st] in *. pose proof Hch as (HL1 & Hi1 & _).
    destruct (dispatch_claimed_spec i (to_processing lease visible m) x (mkWorld (set_db (st w1) (st w)) (tick w1)))
      as (w' & k & next & -> & Hadd & Hch').
    { done. } { rewrite Eid. by eapply Hids. } { simpl. rewrite HL1. apply Hok. }
    { cbn [st b_db set_db]. rewrite Hi1, Eid. by rewrite lookup_insert_eq. }
    { rewrite Elease. apply leased_iff. done. } { simpl. lia. }
    cbn [st b_db b_subs set_db m_attempts to_processing] in Hadd, Hch'. rewrite Et, Eid in *.
    eexists _, w'. split; [done|]. right. exists i, id, m, lease, visible, x, (tick w1), k, next.
    split; [done|]. split; [done|]. split; [by rewrite <-Hskip|]. split; [done|]. split; [done|].
    split; [done|]. by eapply row_changed_twice.
  - destruct Hpost as [Hsame Hidle]. eexists _, _. split; [done|]. left. split; [done|]. split; [done|].
    intros i id m Hm Hr. apply Hskip. eapply Hidle; [done|]. intros k Hk. apply Hr. cbn [tick] in Hk. lia.
Qed.

End webhook.

(** * Retention *)

(** [P] is not lost. *)
Definition saves {St} (P : St → Prop) (s s' : St) : Prop := P s → P s'.

#[export] Instance saves_preorder {St} (P : St → Prop) : PreOrder (saves P).
Proof. split; [intros s HP; exact HP|]. intros s1 s2 s3 H12 H23 HP. by apply H23, H12. Qed.

Lemma saves_bind {E St A B} (P : St → Prop) (Q : A → Prop) (m : M E St A) (f : A → M E St B) :
  (∀ w a w', P (st w) → m w = (Ok a, w') → Q a) → Keeps (saves P) m →
  (∀ a, Q a → Keeps (saves P) (f a)) → Keeps (saves P) (m ≫= f).
Proof.
  intros HQ Hm Hf w HP. specialize (Hm w HP). rewrite run_bind.
  destruct (m w) as [[a|e] w1] eqn:Em; simpl in *; [|done]. apply Hf; [by eapply HQ|done].
Qed.

Lemma saves_zoom {E St Sub A} (P : Sub → Prop) get put (m : M E Sub A) :
  (∀ x (s : St), get (put x s) = x) → Keeps (saves P) m → Keeps (saves (λ s, P (get s))) (zoom get put m).
Proof.
  intros Hgp Hm w HP. unfold zoom. specialize (Hm (mkWorld (get (st w)) (tick w)) HP).
  destruct (m _) as [r w']. simpl in *. by rewrite Hgp.
Qed.

(** A part of the state that the computation does not touch. *)
Lemma saves_zoom_other {E St Sub A} (P : St → Prop) (get : St → Sub) put (m : M E Sub A) :
  (∀ x s, P s → P (put x s)) → Keeps (saves P) (zoom get put m).
Proof. intros Hput w HP. unfold zoom. destruct (m _) as [r w']. by apply Hput. Qed.

Section retention.
Context `{Oracle, Chrono, Serde, !OrderLaws, !ChronoLaws}.
Context (config : RetentionConfig) (i : nat) (id : string) (m0 : Message) (created : Z).

(** The message was created within the retention, at every time the sweep looks. *)
Definition young : Prop :=
  m_created m0 = to_rfc3339 created ∧ time_ok created ∧
  ∀ n, let cutoff := clock n - message_retention_days config * 86400 * 10 ^ 9 in
       time_ok cutoff ∧ cutoff <= created.

(** Its claim may end by its visibility only. *)
Definition spared_row (m : Message) : Prop :=
  m = m0 ∨ ∃ n, expired_claim (to_rfc3339 (clock n)) m0 = true ∧ m = to_pending m0.

(** The message is there and its topic is configured as persistent. *)
Definition spared (s : Db) : Prop :=
  (∃ r, topic_stats s !! m_topic m0 = Some r ∧ t_persistence r ≠ "ephemeral") ∧
  ∃ m, shard i s !! id = Some m ∧ spared_row m.

Context (Hyoung : young) (Hlive : m_status m0 ≠ Store.Delivered).

Lemma spared_row_facts m : spared_row m →
  m_topic m = m_topic m0 ∧ m_created m = m_created m0 ∧ m_status m ≠ Store.Delivered.
Proof. intros [->|(n & _ & ->)]; by split_and!. Qed.

Lemma spared_fields s s' : topic_stats s' = topic_stats s → shards s' = shards s → spared s → spared s'.
Proof. intros Ht Hs. unfold spared, shard. by rewrite Ht, Hs. Qed.

(** A statement on one shard is harmless when it keeps the rows that are spared. *)
Lemma saves_on_shard {A} j (f : Table → A * Table) :
  (∀ t m, t !! id = Some m → spared_row m → ∃ m', (f t).2 !! id = Some m' ∧ spared_row m') →
  Keeps (saves spared) (on_shard j f).
Proof.
  intros Hf. apply keeps_stmt; [apply _|]. intros s [Ht (m & Hm & Hrow)].
  specialize (Hf (shard j s)). destruct (f (shard j s)) as [a t] eqn:Hft. split; [done|]. cbn [snd] in *.
  rewrite shard_set_shard_gen. case_decide as Hij; [|by exists m].
  destruct Hij as [-> _]. by apply (Hf m).
Qed.

Lemma saves_delete_where {A} (g : Table → A) j p :
  (∀ m, spared_row m → p id m = false) → Keeps (saves spared) (on_shard j (λ t, (g t, delete_where p t))).
Proof.
  intros Hp. apply saves_on_shard. intros t m Hm Hrow. exists m. split; [|done]. cbn [snd].
  rewrite lookup_delete_where, Hm. simpl. by rewrite Hp.
Qed.

Lemma saves_every_shard f :
  (∀ j, Keeps (saves spared) (on_shard j f)) → Keeps (saves spared) (every_shard f).
Proof. intros Hf. unfold every_shard. keeps_go. apply Hf. Qed.

(** Operations that leave the messages and the modes of the topics alone. *)
Lemma spared_bump topic a du d f dr now s : saves spared s (bump_sql topic a du d f dr now s).
Proof.
  intros [(r & Hr & Hp) Hrow]. split; [|done]. unfold bump_sql, upsert_stat.
  cbn [topic_stats set_topic_stats]. destruct (decide (topic = m_topic m0)) as [->|Hne].
  - rewrite lookup_partial_alter_eq, Hr. by eexists.
  - rewrite lookup_partial_alter_ne by done. by exists r.
Qed.

Lemma saves_control_tx {A} (body : M Error Db A) :
  Keeps (saves spared) body → Keeps (saves spared) (control_tx body).
Proof.
  intros Hb. apply keeps_transaction; [apply _| |done].
  intros s s' Hs [Ht Hrow]. split; [done|]. by apply Hs.
Qed.

Lemma saves_flush : Keeps (saves spared) flush_topic_stats.
Proof.
  unfold flush_topic_stats. keeps_go; try (intros Hs; by apply (spared_fields s)).
  apply saves_control_tx. keeps_go. apply spared_bump.
Qed.

Lemma saves_reclaim : Keeps (saves spared) reclaim_stale.
Proof.
  intros w. unfold reclaim_stale, rfc_now. run. set (w1 := mkWorld (st w) _). change (st w) with (st w1).
  apply saves_every_shard. intros j. apply saves_on_shard. intros t m Hm Hrow. cbn [snd].
  rewrite lookup_update_where, Hm. simpl. eexists. split; [done|]. destruct Hrow as [->|Hrow].
  - destruct (_ && _) eqn:He; [right; by exists (tick w)|by left].
  - destruct Hrow as (n & Hn & ->). right. exists n. by split; [|destruct (_ && _)].
Qed.

Lemma saves_drop_pending topic : topic ≠ m_topic m0 → Keeps (saves spared) (drop_pending topic).
Proof.
  intros Hne. unfold drop_pending. keeps_go.
  - apply saves_on_shard. intros t m Hm Hrow. exists m. split; [|done]. cbn [snd].
    rewrite lookup_update_where, Hm. simpl. apply spared_row_facts in Hrow as (-> & _).
    by rewrite bool_decide_eq_false_2.
  - unfold bump_dropped. keeps_go. apply spared_bump.
Qed.

Lemma saves_purge_older cutoff :
  str_ltb (m_created m0) cutoff = false → Keeps (saves spared) (purge_older_than cutoff).
Proof.
  intros Hc. apply saves_every_shard. intros j. apply saves_delete_where.
  intros m (_ & -> & _)%spared_row_facts. done.
Qed.

Lemma saves_purge_delivered cutoff : Keeps (saves spared) (purge_delivered_older_than cutoff).
Proof.
  apply saves_every_shard. intros j. apply saves_delete_where.
  intros m (_ & _ & Hst)%spared_row_facts. unfold is_status. by rewrite bool_decide_eq_false_2.
Qed.

(** The topic is not among the ephemeral rows of a query. *)
Lemma spared_unlisted s (Q : string * TopicStat → Prop) `{!∀ x, Decision (Q x)} n :
  (∀ topic r, Q (topic, r) → t_persistence r = "ephemeral") → spared s →
  m_topic m0 ∉ any_order n (filter Q (map_to_list (topic_stats s))).*1.
Proof.
  intros HQ [(r & Hr & Hp) _]. rewrite any_order_perm. intros ([topic r'] & Et & Hin)%list_elem_of_fmap.
  simpl in Et. subst topic. apply list_elem_of_filter in Hin as [Hq Hin%elem_of_map_to_list].
  apply HQ in Hq. congruence.
Qed.

Lemma saves_purge_idle cutoff keep : Keeps (saves spared) (purge_idle_ephemeral cutoff keep).
Proof.
  unfold purge_idle_ephemeral. apply keeps_bind; [apply _|apply saves_flush|intros _].
  set (rows := λ s, filter _ _).
  apply (saves_bind _ (λ l, ∀ n, m_topic m0 ∉ any_order n l.*1)); [|keeps_go|intros l Hl].
  { intros w a w' Hs. run. destruct (fault (tick w)); [done|]. intros [= <- _] n.
    apply spared_unlisted; [|done]. intros topic r [Hi _]. unfold implicit_ephemeral in Hi.
    apply andb_true_iff in Hi as [Hi _]. by apply bool_decide_eq_true in Hi. }
  apply (saves_bind _ (λ l, m_topic m0 ∉ l)); [|keeps_go|intros topics Ht].
  { intros w a w' _. run. intros [= <- _]. apply Hl. }
  destruct (filter (λ topic, topic ∉ keep) topics) as [|x stale] eqn:Hst; [keeps_go|]. rewrite <-Hst.
  apply keeps_bind; [apply _| |intros n; keeps_go; intros Hs; by apply (spared_fields s)].
  apply saves_control_tx, keeps_fold_each; [apply _|]. intros acc topic [_ Hin]%list_elem_of_filter.
  assert (topic ≠ m_topic m0) as Hne by (by intros ->). keeps_go.
  - apply saves_delete_where. intros m (-> & _)%spared_row_facts. by apply bool_decide_eq_false_2.
  - intros [(r & Hr & Hp) Hrow]. repeat case_match; (split; [|done]); exists r; [|done..].
    cbn [snd topic_stats set_topic_stats]. by rewrite lookup_delete_ne.
Qed.

Lemma saves_purge_consumers cutoff : Keeps (saves spared) (purge_stale_consumers cutoff).
Proof. unfold purge_stale_consumers. keeps_go. intros Hs. by apply (spared_fields s). Qed.

(** The same for the state of the sweep. *)
Definition spared_by (w : Swept) : Prop := spared (b_db (w_broker w)).

Lemma saves_sweep_db {A} (m : M Error Db A) : Keeps (saves spared) m → Keeps (saves spared_by) (sweep_db m).
Proof.
  intros Hm. apply keeps_attempt. apply (saves_zoom (λ b, spared (b_db b))); [done|].
  by apply (saves_zoom spared).
Qed.

Lemma saves_ago units secs : Keeps (saves spared_by) (ago units secs).
Proof. unfold ago. keeps_go. Qed.

(** The cut-off of the retention is before the message. *)
Lemma ago_days w cutoff w' :
  0 < message_retention_days config →
  ago (message_retention_days config) 86400 w = (Ok cutoff, w') → str_ltb (m_created m0) cutoff = false.
Proof.
  intros Hd. unfold ago, seconds, add_time. run. case_bool_decide; [|done]. run.
  rewrite duration_seconds_spec. destruct (Z.abs _ <=? _); [|done]. run.
  destruct (add_duration _ _) as [t|] eqn:Ha; [|done]. run. apply add_duration_sum in Ha as ->.
  intros [= <- _]. destruct Hyoung as (-> & Hc & Hn). specialize (Hn (tick w)). cbv zeta in Hn.
  replace (clock (tick w) + - _) with (clock (tick w) - message_retention_days config * 86400 * 10 ^ 9) by lia.
  rewrite rfc3339_ltb by tauto. apply Z.ltb_ge. tauto.
Qed.

Lemma saves_live_topics : Keeps (saves spared_by) live_topics.
Proof. intros w Hs. exact Hs. Qed.

Lemma saves_is_covered topic : Keeps (saves spared_by) (is_covered topic).
Proof. intros w Hs. exact Hs. Qed.

Lemma saves_ephemeral : Keeps (saves spared_by) sweep_ephemeral.
Proof.
  unfold sweep_ephemeral.
  apply (saves_bind _ (λ r, ∀ l, r = Ok l → m_topic m0 ∉ l)).
  - intros w a w' Hs. unfold sweep_db, zoom, Delivery.on_db, zoom, ephemeral_topics. run.
    destruct (fault (tick w)); run; intros [= <- _] l; [done|]. intros [= <-].
    apply spared_unlisted; [|exact Hs]. by intros topic r.
  - apply saves_sweep_db. unfold ephemeral_topics. keeps_go.
  - intros [l|e] Hl; [|keeps_go]. specialize (Hl l eq_refl). apply keeps_for_each; [apply _|].
    intros topic Hin. apply keeps_bind; [apply _|apply saves_is_covered|intros [|]; [keeps_go|]].
    apply keeps_bind; [apply _| |intros ?; keeps_go].
    apply saves_sweep_db, saves_drop_pending. by intros ->.
Qed.

Lemma saves_then {A} (m : M Error Swept A) :
  Keeps (saves spared_by) m → Keeps (saves spared_by) (_ ← m; mret ()).
Proof. intros Hm. apply keeps_bind; [apply _|done|intros ?; keeps_go]. Qed.

Lemma saves_sweep last : Keeps (saves spared_by) (retention_sweep config last).
Proof.
  unfold retention_sweep.
  apply keeps_bind; [apply _|apply saves_sweep_db, saves_reclaim|intros _].
  apply keeps_bind; [apply _|apply saves_ephemeral|intros _].
  apply keeps_bind; [apply _| |intros _].
  { destruct (0 <? _) eqn:Hd; [|keeps_go]. apply Z.ltb_lt in Hd.
    apply (saves_bind _ (λ cutoff, str_ltb (m_created m0) cutoff = false)); [|apply saves_ago|].
    - intros w a w' _. by apply ago_days.
    - intros cutoff Hc. by apply saves_then, saves_sweep_db, saves_purge_older. }
  apply keeps_bind; [apply _| |intros _].
  { case_match; [|keeps_go]. apply keeps_bind; [apply _|apply saves_ago|intros cutoff].
    apply saves_then, saves_sweep_db, saves_purge_delivered. }
  apply keeps_bind; [apply _|keeps_go|intros at_]. apply keeps_bind; [apply _| |intros last'].
  { case_match; [|keeps_go]. apply keeps_bind; [apply _|apply saves_ago|intros cutoff].
    apply keeps_bind; [apply _|apply saves_live_topics|intros keep].
    apply keeps_bind; [apply _|apply saves_sweep_db, saves_purge_idle|intros ?]. keeps_go. }
  apply keeps_bind; [apply _| |intros _].
  { case_match; [|keeps_go]. unfold consumer_cutoff. apply keeps_bind; [apply _| |intros [cutoff|]; [|keeps_go]].
    - case_match; [keeps_go|]. apply keeps_bind; [apply _|apply saves_ago|intros ?; keeps_go].
    - apply saves_then, saves_sweep_db, saves_purge_consumers. }
  apply keeps_bind; [apply _| |intros _]; [by apply keeps_attempt, saves_zoom_other|].
  apply keeps_bind; [apply _| |intros _]; [by apply keeps_attempt, saves_zoom_other|]. keeps_go.
Qed.

(** C22: The retention sweep only ever removes what it may: over every run of the loop,
    whatever faults and panics it meets and whatever harmless steps other tasks do
    between its rounds, a message that is not delivered, is younger than the retention
    and belongs to a topic configured as persistent stays in its shard unchanged, but
    for a claim whose visibility has ended, which is pending again. *)
Theorem retention_spares_live last others w :
  spared_by (st w) → Forall (λ f, ∀ s, spared_by s → spared_by (f s)) others →
  spared_by (st (retention_loop config last others w).2).
Proof.
  intros Hs Ho. revert last w Hs.
  cut (∀ last, Keeps (saves spared_by) (retention_loop config last others)); [intros HK last w; apply HK|].
  induction Ho as [|f others Hf _ IH]; intros last; cbn [retention_loop];
    (apply keeps_bind; [apply _|apply saves_sweep|intros last']); [keeps_go|].
  apply keeps_bind; [apply _| |intros _; apply IH]. apply keeps_mem. intros s. exact (Hf s).
Qed.

End retention.

(** * The properties in the demonstration environment *)

Lemma demo_fine : fine (H := still_oracle) (H0 := demo_chrono).
Proof. apply demo_serene. Qed.

(** A webhook that refuses. *)
Definition demo_post (_ : nat) (_ : DownstreamMessage) : Answer := Refused "503".

(** The persistent topic without subscribers. *)
Definition demo_alone : Broker := set_subs ∅ demo_broker.

Lemma demo_stored_ok : db_ok demo_stored.
Proof.
  assert (shards demo_stored = shards (st demo1)) as Hs by (vm_compute; reflexivity).
  pose proof demo1_ok as [HL Hok]. split; [by rewrite Hs|]. intros i. unfold shard. rewrite Hs. apply Hok.
Qed.

Definition demo_round : result Error bool * World Broker :=
  dispatch_once (H := still_oracle) (H0 := demo_chrono) (H1 := demo_serde) demo_post 30 1 (mkWorld demo_alone 100).

Definition failures (s : Db) : Z := shard_sum (count_where (λ _, is_status Failed)) (seq 0 MESSAGE_SHARDS) s.

Lemma webhook_outcome_witness :
  demo_round.1 = Ok true ∧ ∃ i id m m', shard i demo_stored !! id = Some m ∧ m_status m = Pending ∧
    shard i (b_db (st demo_round.2)) !! id = Some m' ∧ m_status m' = Failed ∧ m_error m' = Some "503".
Proof.
  pose proof (proj1 demo_kept) as (_ & Hpar & Hids & _).
  destruct (webhook_outcome (H := still_oracle) (H0 := demo_chrono) (H1 := demo_serde) (H2 := still_order)
    demo_post 30 1 (mkWorld demo_alone 100)) as (go & w' & Hrun & Hout).
  - exact demo_fine.
  - exact (conj (proj1 demo_fine) (conj (proj1 demo_stored_ok) (conj Hpar (proj2 demo_serene)))).
  - exact demo_stored_ok.
  - exact Hids.
  - unfold demo_round. rewrite Hrun. cbn [fst snd]. destruct Hout as [(_ & [_ Hs] & _)|Hout].
    + exfalso. assert (failures (b_db (st w')) = failures (b_db demo_alone)) as Hf.
      { unfold failures, shard_sum. cbn [seq foldr MESSAGE_SHARDS]. by rewrite !Hs. }
      replace w' with demo_round.2 in Hf by (unfold demo_round; by rewrite Hrun).
      revert Hf. vm_compute. discriminate.
    + destruct Hout as (i & id & m & lease & visible & x & n & k & next & Hm & Hst & _ & _ & -> & _ & _ & Hi & _).
      cbn [st demo_alone set_subs b_subs b_db] in Hi, Hm |- *.
      change (covers (m_topic m) ∅) with false in *. split; [done|]. exists i, id, m. eexists.
      split; [exact Hm|]. split; [done|]. split; [rewrite Hi; by rewrite lookup_insert_eq|].
      cbn [after_round demo_post set_status with_error m_status m_error]. split; [|done].
      pose proof (proj1 (proj2 demo_stored_ok i) id m Hm) as (_ & _ & _ & _ & Ha & _).
      simpl. by rewrite (proj2 (Z.leb_le _ _)) by lia.
Defined.

(** A sweep that keeps everything a week. *)
Definition demo_retention : RetentionConfig :=
  {| message_retention_days := 7; delivered_retention_hours := 1; ephemeral_idle_hours := 1;
     purge_interval_hours := 1; consumer_ttl_secs := 60 |}.

Definition demo_old : Message := default demo_message (shard 1 demo_stored !! "s01-x").

Definition demo_swept : Swept :=
  mkSwept demo_alone (Cache.mkService (Cache.mkStore ∅ false 8) ∅).

Lemma demo_young :
  young (H := still_oracle) (H0 := demo_chrono) demo_retention demo_old (demo_start + 10 ^ 9).
Proof.
  split; [vm_compute; reflexivity|].
  unfold clock, still_oracle, demo_retention, demo_start, time_ok, TIME_END. cbn [message_retention_days].
  split; [lia|]. intros _. lia.
Qed.

Lemma demo_spared : spared_by (H := still_oracle) (H0 := demo_chrono) 1 "s01-x" demo_old demo_swept.
Proof.
  split; [|exists demo_old; split; [vm_compute; reflexivity|by left]].
  exists (default (blank_stat "" "" "" false) (topic_stats demo_stored !! "a/b")).
  split; [vm_compute; reflexivity|]. vm_compute. discriminate.
Qed.

Lemma retention_spares_live_witness :
  ∃ m, shard 1 (b_db (w_broker (st (retention_loop (H := still_oracle) (H0 := demo_chrono) demo_retention None
         [id] (mkWorld demo_swept 100)).2))) !! "s01-x" = Some m ∧ m_topic m = "a/b" ∧ m_status m = Pending.
Proof.
  assert (m_status demo_old ≠ Store.Delivered) as Hlive by (vm_compute; discriminate).
  assert (Forall (λ f : Swept → Swept, ∀ s, spared_by (H := still_oracle) (H0 := demo_chrono) 1 "s01-x" demo_old s →
    spared_by (H := still_oracle) (H0 := demo_chrono) 1 "s01-x" demo_old (f s)) [@id Swept]) as Hothers.
  { apply Forall_singleton. intros s Hs. exact Hs. }
  destruct (retention_spares_live (H := still_oracle) (H0 := demo_chrono) (H2 := still_order) (H3 := demo_chrono_laws)
    demo_retention 1 "s01-x" demo_old (demo_start + 10 ^ 9) demo_young Hlive None [@id Swept]
    (mkWorld demo_swept 100) demo_spared Hothers) as [_ (m & Hm & Hrow)].
  exists m. split; [exact Hm|]. destruct Hrow as [->|(n & _ & ->)]; (split; [vm_compute; reflexivity|]);
    vm_compute; reflexivity.
Defined.

End ServiceSpec.
