(* ===== verification/Http.v ===== *)
(** The HTTP interface: src/src/status.rs, its access control and the handlers of its
    routes.

    A handler acts on the shared state of the console; its errors are HTTP status
    codes.  The handlers take the decoded bodies and queries; [Bodies] has their types
    and [Routes] the routes. *)

From S2P Require Import Prelude RustStr Topic Model Effects Election Cache Store Db DbQuery Writer.
From S2P Require Import Subscribers Auth Delivery Service.
Import Topic Model Store Db DbQuery Writer Subscribers Auth Delivery.

Module Http.

(** * Status codes, state and configuration *)

(** The error statuses of the handlers; [Unwound] is a handler that panicked. *)
Inductive StatusCode :=
  | BAD_REQUEST
  | UNAUTHORIZED
  | CONFLICT
  | INTERNAL_SERVER_ERROR
  | Unwound (message : string).

(** [map_err(|_| StatusCode::INTERNAL_SERVER_ERROR)]. *)
Definition internal (e : Error) : StatusCode :=
  match e with
  | Failure _ => INTERNAL_SERVER_ERROR
  | Panicked message => Unwound message
  end.

(** The shared part of [StatusState]. *)
Record Console := mkConsole {
  c_broker : Broker;
  c_stores : Cache.CacheService;
  c_elections : Election.Table;
  c_admin : Admin
}.

(** The configured part of [StatusState], as [serve] fills it in. *)
Record StatusConfig := {
  st_ack_timeout_secs : Z;
  st_max_delivery_attempts : Z;
  st_worker_poll_ms : Z;
  st_auth_token : option string;
  st_web_base : option string;
  st_secure_cookies : bool
}.

(** [serve]: the configuration of the console from that of the broker. *)
Definition status_config (ack_timeout_secs max_delivery_attempts worker_poll_ms : Z) (auth_token : option string)
    (web_base : option string) (secure_cookies : bool) : StatusConfig :=
  {| st_ack_timeout_secs := Z.max ack_timeout_secs 1; st_max_delivery_attempts := Z.max max_delivery_attempts 1;
     st_worker_poll_ms := Z.max worker_poll_ms 10; st_auth_token := normalize auth_token;
     st_web_base := web_base; st_secure_cookies := secure_cookies |}.

(** * Text of payloads *)

(** One step of [String::from_utf8_lossy]: the text of the first character or
    ill-formed sequence, and how many more bytes it takes. *)
Definition lossy_step (a : Z) (r : list Z) : list Z * nat :=
  let cont o := if o is Some b then in_range 128 191 b else false in
  let second := if r !! 0%nat is Some b then
      (if a =? 224 then in_range 160 191 b else if a =? 237 then in_range 128 159 b
       else if a =? 240 then in_range 144 191 b else if a =? 244 then in_range 128 143 b
       else in_range 128 191 b) else false in
  let REPLACEMENT := [239; 191; 189] in
  if in_range 0 127 a then ([a], 0%nat)
  else if in_range 194 223 a then
    if second then (a :: take 1 r, 1%nat) else (REPLACEMENT, 0%nat)
  else if in_range 224 239 a then
    if second then if cont (r !! 1%nat) then (a :: take 2 r, 2%nat) else (REPLACEMENT, 1%nat)
    else (REPLACEMENT, 0%nat)
  else if in_range 240 244 a then
    if second then
      if cont (r !! 1%nat) then
        if cont (r !! 2%nat) then (a :: take 3 r, 3%nat) else (REPLACEMENT, 2%nat)
      else (REPLACEMENT, 1%nat)
    else (REPLACEMENT, 0%nat)
  else (REPLACEMENT, 0%nat).

(** [String::from_utf8_lossy]: every step takes a byte, so the length is fuel enough. *)
Fixpoint lossy_loop (fuel : nat) (bytes : list Z) : list Z :=
  match fuel, bytes with
  | S fuel, a :: r => let '(text, more) := lossy_step a r in text ++ lossy_loop fuel (drop more r)
  | _, _ => []
  end.
Definition from_utf8_lossy (bytes : list Z) : string := of_bytes (lossy_loop (length bytes) bytes).

Definition MESSAGE_PREVIEW_BYTES : nat := Z.to_nat (64 * 1024).

(** The loop that looks for the end of a preview. *)
Fixpoint preview_end (text : list Z) (end_ : nat) : nat :=
  match end_ with
  | O => O
  | S before => if is_char_boundary text end_ then end_ else preview_end text before
  end.

(** [MessageBody]. *)
Record MessageBody := {
  mb_message : StoredMessage;
  mb_payload : string;
  mb_payload_encoding : string;
  mb_truncated : bool
}.

(** [encode_base64], the same loop as [base64_encode] of the domain model. *)
Definition encode_base64 (bytes : list Z) : string := base64_encode bytes.

(** [to_message_body], with a preview of at most [limit] bytes. *)
Definition message_body (limit : nat) (message : StoredMessage) : MessageBody :=
  let bytes := sm_payload message in
  let '(payload, encoding, truncated) :=
    match from_utf8 bytes with
    | Some text =>
        if (limit <? length bytes)%nat
        then (of_bytes (take (preview_end bytes limit) bytes), "utf-8", true)
        else (text, "utf-8", false)
    | None =>
        let truncated := (limit <? length bytes)%nat in
        (encode_base64 (if truncated then take limit bytes else bytes), "base64", truncated)
    end in
  {| mb_message := message; mb_payload := payload; mb_payload_encoding := encoding; mb_truncated := truncated |}.
Definition to_message_body : StoredMessage → MessageBody := message_body MESSAGE_PREVIEW_BYTES.

(** [u64::saturating_mul]. *)
Definition saturating_mul_u64 (a b : Z) : Z := Z.min (a * b) U64_MAX.

(** [ConsumeMessageBody]. *)
Record ConsumeMessageBody := {
  cb_id : string;
  cb_topic : string;
  cb_payload : string;
  cb_payload_encoding : string;
  cb_attributes : Json;
  cb_created_at : string;
  cb_lease : string;
  cb_visibility_timeout_ms : Z;
  cb_delivery_attempt : Z;
  cb_max_delivery_attempts : Z
}.

(** [to_consume_message]. *)
Definition to_consume_message (message : ClaimedMessage) (ack_timeout_secs max_delivery_attempts : Z)
    : ConsumeMessageBody :=
  let '(payload, encoding) := match from_utf8 (cm_payload message) with
                              | Some text => (text, "utf-8")
                              | None => (encode_base64 (cm_payload message), "base64")
                              end in
  {| cb_id := cm_id message; cb_topic := cm_topic message; cb_payload := payload;
     cb_payload_encoding := encoding; cb_attributes := cm_attributes message;
     cb_created_at := cm_created_at message; cb_lease := cm_lease message;
     cb_visibility_timeout_ms := saturating_mul_u64 ack_timeout_secs 1000;
     cb_delivery_attempt := cm_attempts message; cb_max_delivery_attempts := max_delivery_attempts |}.

(** * Handlers *)

(** The headers and the query of a request the access control looks at. *)
Record HttpRequest := mkRequest {
  rq_authorization : option string;
  rq_query : option string;
  rq_cookie : option string
}.

(** [request_has_service_token]. *)
Definition request_has_service_token (request : HttpRequest) (expected : string) : bool :=
  tokens_match expected (http_token (rq_authorization request) (rq_query request)).

Section handlers.
Context `{Oracle, Chrono, Serde, Passwords}.

(** Whether a subscriber's channel takes a message in time, see [Delivery]. *)
Context (accepts : nat → bool).

(** [serde_json::to_vec(&Value)]. *)
Context (json_to_vec : Json → option (list Z)).

(** What the writer's task answers on a response channel, if it does. *)
Context (answered : nat → option (result string bool)).

Context (overflow_checks : bool) (config : StatusConfig).

Abbreviation MH := (M StatusCode Console).

Definition with_broker {A} (m : M Error Broker A) : MH A :=
  map_err_with internal (zoom c_broker (λ b c, mkConsole b (c_stores c) (c_elections c) (c_admin c)) m).
Definition with_db {A} (m : M Error Db A) : MH A := with_broker (Delivery.on_db m).
Definition with_stores {A} (m : M Error Cache.CacheService A) : MH A :=
  map_err_with internal (zoom c_stores (λ s c, mkConsole (c_broker c) s (c_elections c) (c_admin c)) m).
Definition with_cache {A} (m : M Error Cache.CacheStore A) : MH A :=
  with_stores (zoom Cache.cache (λ x s, Cache.mkService x (Cache.lock s)) m).
Definition with_lock {A} (m : M Error Cache.Locks A) : MH A :=
  with_stores (zoom Cache.lock (λ x s, Cache.mkService (Cache.cache s) x) m).
Definition with_election {A} (m : M Error Election.Table A) : MH A :=
  map_err_with internal (zoom c_elections (λ t c, mkConsole (c_broker c) (c_stores c) t (c_admin c)) m).
Definition with_admin {A} (m : M Error Admin A) : MH A :=
  map_err_with internal (zoom c_admin (λ a c, mkConsole (c_broker c) (c_stores c) (c_elections c) a) m).

(** [value.trim()], refused when it is empty. *)
Definition trimmed (value : string) : MH string :=
  let value := trim value in if is_empty value then fail BAD_REQUEST else mret value.

(** ** Access *)

(** [require_service_token]. *)
Definition require_service_token {A} (request : HttpRequest) (next : MH A) : MH A :=
  match st_auth_token config with
  | None => next
  | Some expected => if request_has_service_token request expected then next else fail UNAUTHORIZED
  end.

(** [valid_session(..).unwrap_or(false)] for the cookie of the request. *)
Definition session_valid (request : HttpRequest) : MH bool :=
  match cookie_token (rq_cookie request) with
  | Some token => with_admin (valid ← attempt (valid_session token);
                              mret (if valid is Ok valid then valid else false))
  | None => mret false
  end.

(** [require_admin]. *)
Definition require_admin {A} (request : HttpRequest) (next : MH A) : MH A :=
  valid ← session_valid request;
  if valid : bool then next else fail UNAUTHORIZED.

(** [auth_status]. *)
Definition auth_status (request : HttpRequest) : MH bool := session_valid request.

(** [cookie_path]. *)
Definition cookie_path : string := default "/" (st_web_base config).

(** The Set-Cookie header of [login] and [logout]. *)
Definition session_cookie (token age : string) : string :=
  "cangling_broker_session=" +:+ token +:+ "; HttpOnly; SameSite=Strict; Path=" +:+ cookie_path +:+
  "; Max-Age=" +:+ age +:+ (if st_secure_cookies config then "; Secure" else "").

(** [login]: the cookie. *)
Definition login_handler (password : string) : MH string :=
  token ← with_admin (login password);
  match token with
  | Some token => mret (session_cookie token "7200")
  | None => fail UNAUTHORIZED
  end.

(** [logout]: the cookie. *)
Definition logout_handler (request : HttpRequest) : MH string :=
  _ ← (if cookie_token (rq_cookie request) is Some token then with_admin (logout token) else mret ());
  mret (session_cookie "" "0").

(** ** Topics *)

(** [list_topics]; [to_body] gives the same three texts as [to_proto_topic]. *)
Definition http_list_topics : MH (list Service.ProtoTopicConfig) :=
  topics ← with_db list_topic_configs;
  mret (map Service.to_proto_topic topics).

(** The validation loop of [configure_topics]. *)
Definition http_parse_topic (item : Service.ProtoTopicConfig) : result StatusCode TopicConfig :=
  let topic := trim (Service.pt_topic item) in
  if is_empty topic then Err BAD_REQUEST
  else match delivery_parse (Service.pt_delivery item), persistence_parse (Service.pt_persistence item) with
       | Some delivery, Some persistence =>
           Ok {| tc_topic := topic; tc_delivery := delivery; tc_persistence := persistence |}
       | _, _ => Err BAD_REQUEST
       end.

(** [configure_topics]. *)
Definition http_configure_topics (topics : list Service.ProtoTopicConfig) : MH (list Service.ProtoTopicConfig) :=
  match topics with
  | [] => fail BAD_REQUEST
  | _ =>
      configs ← lift (mapM http_parse_topic topics);
      stored ← with_db (configure_topics configs);
      mret (map Service.to_proto_topic stored)
  end.

(** [message_trends]. *)
Definition message_trends_handler (minutes : option Z) : MH (list (string * Trend)) :=
  with_db (message_trends (default 180 minutes)).

(** ** Publishing and consuming *)

(** [PublishMessageResultBody]. *)
Record PublishMessageResultBody := mkPublished { pr_message_id : string; pr_duplicate : bool; pr_dropped : bool }.

(** [publish_message]. *)
Definition publish_message (topic : string) (payload : Json) (attributes : gmap string string)
    (idempotency_key : option string) : MH PublishMessageResultBody :=
  topic ← trimmed topic;
  payload ← match payload with
            | JString value => mret (as_bytes value)
            | value => lift (ok_or BAD_REQUEST (json_to_vec value))
            end;
  if bool_decide (payload = []) then fail BAD_REQUEST
  else
  let key := key ← idempotency_key; let key := trim key in if is_empty key then None else Some key in
  settings ← with_db (topic_config topic);
  ingested ← match tc_persistence settings with
             | Persistent =>
                 '(message_id, duplicate) ← with_db (enqueue key topic payload attributes);
                 _ ← (if duplicate : bool then mret () else with_broker (notify_ready topic));
                 mret (IQueued message_id duplicate)
             | Ephemeral => with_broker (ingest accepts topic payload attributes key)
             end;
  mret (match ingested with
        | IQueued message_id duplicate => mkPublished message_id duplicate false
        | IDropped message_id => mkPublished message_id false true
        end).

(** What [consume_poll] answers: a message, nothing within the time to wait, or it
    still waits. *)
Inductive PollResponse :=
  | PMessage (body : ConsumeMessageBody)
  | PNoContent
  | PWaiting.

(** The loop of [consume_poll]; [others] are the steps of other tasks during its
    pauses. *)
Fixpoint poll_loop (topic : string) (wait deadline : Z) (others : list (Broker → Broker)) : MH PollResponse :=
  messages ← with_db (claim_batch_for_filter topic (st_ack_timeout_secs config * 10 ^ 9) 1);
  match last messages with
  | Some message =>
      mret (PMessage (to_consume_message message (st_ack_timeout_secs config) (st_max_delivery_attempts config)))
  | None =>
      if wait =? 0 then mret PNoContent
      else
      at_ ← now;
      if deadline <=? at_ then mret PNoContent
      else
      _ ← now;
      match others with
      | [] => mret PWaiting
      | f :: others => _ ← with_broker (mem (λ b, ((), f b))); poll_loop topic wait deadline others
      end
  end.

(** [consume_poll]. *)
Definition consume_poll (topic consumer_id consumer_name : string) (wait_ms : Z) (attributes : gmap string string)
    (others : list (Broker → Broker)) : MH PollResponse :=
  let topic := trim topic in
  let consumer_id := trim consumer_id in
  if is_empty topic || is_empty consumer_id then fail BAD_REQUEST
  else
  settings ← with_db (topic_config topic);
  if negb (bool_decide (tc_persistence settings = Persistent)) || negb (bool_decide (tc_delivery settings = Single))
  then fail CONFLICT
  else
  let attributes := if attributes !! "protocol" is Some _ then attributes
                    else <["protocol" := "http-poll"]> attributes in
  let name := if is_empty (trim consumer_name) then consumer_id else trim consumer_name in
  _ ← with_db (register_consumer (Some consumer_id) topic name attributes);
  let wait := Z.min wait_ms 30000 * 10 ^ 6 in
  started ← now;
  _ ← with_broker (mem (λ b, let '(g, notes) := notes_subscribe topic (b_notes b) in ((), set_notes notes b)));
  poll_loop topic wait (started + wait) others.

(** [writer.delivered] with the wait for the response. *)
Definition acknowledge (message_id lease : string) : M Error Broker bool :=
  response ← new_channel;
  _ ← on_writer (writer_delivered message_id lease response);
  match answered response with
  | Some (Ok accepted) => mret accepted
  | Some (Err message) => fail (Failure message)
  | None => fail (Failure "queue writer stopped")
  end.

(** [consume_ack]. *)
Definition consume_ack (message_id lease : string) (success : bool) (error : string) : MH bool :=
  let message_id := trim message_id in
  let lease := trim lease in
  if is_empty message_id || is_empty lease then fail BAD_REQUEST
  else
  accepted ← (if success then with_broker (acknowledge message_id lease)
              else with_db (failed message_id lease
                     (if is_empty (trim error) then "consumer rejected message" else trim error)
                     (st_max_delivery_attempts config)));
  if accepted : bool then mret true else fail CONFLICT.

(** [consume_renew]: the visibility in milliseconds. *)
Definition consume_renew (message_id lease : string) : MH Z :=
  let message_id := trim message_id in
  let lease := trim lease in
  if is_empty message_id || is_empty lease then fail BAD_REQUEST
  else
  renewed ← with_db (renew_claim message_id lease (st_ack_timeout_secs config * 10 ^ 9));
  if renewed : bool then mret (saturating_mul_u64 (st_ack_timeout_secs config) 1000) else fail CONFLICT.

(** ** Stored messages *)

(** [topic_message]: the offset, the total and the message. *)
Definition topic_message (topic : string) (offset : Z) : MH (string * Z * Z * option MessageBody) :=
  topic ← trimmed topic;
  page ← with_db (topic_message_page topic offset);
  mret (topic, pg_offset page, pg_total page, to_message_body <$> pg_message page).

(** [clear_topic_messages]. *)
Definition http_clear_topic_messages (topic : string) : MH (string * Z) :=
  topic ← trimmed topic;
  deleted ← with_db (clear_topic_messages topic);
  mret (topic, deleted).

(** ** Cache and locks *)

(** [cache_get]: the value and its time to live. *)
Definition http_cache_get (key : string) : MH (option string * Z) :=
  key ← trimmed key;
  value ← with_cache (Cache.get key);
  ttl_seconds ← with_cache (Cache.ttl key);
  mret ((λ '(bytes, _), from_utf8_lossy bytes) <$> value, ttl_seconds).

(** [cache_set]. *)
Definition http_cache_set (key value : string) (ttl_seconds : Z) : MH () :=
  key ← trimmed key;
  with_cache (Cache.set key (as_bytes value) "string" ttl_seconds).

(** [cache_delete]. *)
Definition http_cache_delete (key : string) : MH bool := key ← trimmed key; with_cache (Cache.cache_delete key).

(** [cache_incr]. *)
Definition http_cache_incr (key : string) (delta ttl_seconds : Z) : MH Z :=
  key ← trimmed key;
  with_cache (Cache.incr overflow_checks key delta ttl_seconds).

(** [cache_keys]. *)
Definition http_cache_keys : MH (list (string * string * string * Z)) :=
  entries ← with_cache Cache.entries;
  mret (map (λ '(key, value, value_type, ttl), (key, from_utf8_lossy value, value_type, ttl)) entries).

(** [lock_get]. *)
Definition http_lock_get (lock_key : string) : MH bool :=
  lock_key ← trimmed lock_key; with_lock (Cache.lock_is_locked lock_key).

(** The checks of [lock_acquire] and [lock_renew]. *)
Definition lock_request (lock_key owner : string) (ttl_seconds : Z) : MH (string * string) :=
  let lock_key := trim lock_key in
  let owner := trim owner in
  if is_empty lock_key || is_empty owner || (ttl_seconds <=? 0) then fail BAD_REQUEST else mret (lock_key, owner).

(** [lock_acquire]. *)
Definition http_lock_acquire (lock_key owner : string) (ttl_seconds : Z) : MH bool :=
  '(lock_key, owner) ← lock_request lock_key owner ttl_seconds;
  with_lock (Cache.lock_acquire lock_key owner ttl_seconds).

(** [lock_renew]. *)
Definition http_lock_renew (lock_key owner : string) (ttl_seconds : Z) : MH bool :=
  '(lock_key, owner) ← lock_request lock_key owner ttl_seconds;
  with_lock (Cache.lock_renew lock_key owner ttl_seconds).

(** [lock_release]. *)
Definition http_lock_release (lock_key owner : string) : MH bool :=
  let lock_key := trim lock_key in
  let owner := trim owner in
  if is_empty lock_key || is_empty owner then fail BAD_REQUEST
  else with_lock (Cache.lock_release lock_key owner).

(** [lock_list]. *)
Definition http_lock_list : MH (list (string * Cache.LockRow)) := with_lock Cache.lock_list.

(** ** Elections *)

(** [validate_election_ttl]. *)
Definition validate_election_ttl (ttl : Z) : MH () :=
  if (1 <=? ttl) && (ttl <=? 3600) then mret () else fail BAD_REQUEST.

(** The term check of [election_renew] and [election_resign]. *)
Definition nonzero_term (term : Z) : MH () := if term =? 0 then fail BAD_REQUEST else mret ().

(** [election_get]: found, active, and the leader ([election_leader_body] computes what
    [LeaderLease::to_proto] does). *)
Definition election_get (election : string) : MH (bool * bool * option Election.ElectionLeader) :=
  election ← trimmed election;
  leader ← with_election (Election.get election);
  is_active ← match leader with Some l => Election.active l | None => mret false end;
  body ← Election.proto_opt leader;
  mret (bool_decide (is_Some leader), is_active, body).

(** [election_campaign]. *)
Definition election_campaign (election candidate_id : string) (ttl_seconds : Z)
    : MH (bool * Election.ElectionLeader) :=
  election ← trimmed election;
  candidate ← trimmed candidate_id;
  _ ← validate_election_ttl ttl_seconds;
  '(won, leader) ← with_election (Election.campaign election candidate ttl_seconds);
  body ← Election.to_proto leader;
  mret (won, body).

(** [election_renew]. *)
Definition election_renew (election leader_id : string) (term : Z) (lease_id : string) (ttl_seconds : Z)
    : MH (bool * option Election.ElectionLeader) :=
  election ← trimmed election;
  leader_id ← trimmed leader_id;
  lease_id ← trimmed lease_id;
  _ ← nonzero_term term;
  _ ← validate_election_ttl ttl_seconds;
  leader ← with_election (Election.renew election leader_id term lease_id ttl_seconds);
  body ← Election.proto_opt leader;
  mret (bool_decide (is_Some leader), body).

(** [election_resign]. *)
Definition election_resign (election leader_id : string) (term : Z) (lease_id : string) : MH bool :=
  election ← trimmed election;
  leader_id ← trimmed leader_id;
  lease_id ← trimmed lease_id;
  _ ← nonzero_term term;
  with_election (Election.resign election leader_id term lease_id).

End handlers.

End Http.
