(* ===== verification/Console.v ===== *)
(** The views of the HTTP console: src/src/status.rs, [build_status] with the clients
    and the live sessions it merges into the stored statistics. *)

From S2P Require Import Prelude RustStr Topic Model Effects Store Db DbQuery Writer.
From S2P Require Import Subscribers Auth Delivery Session Observe.
Import Topic Store Db DbQuery Subscribers Session Observe.

Module Console.

(** * Stable sorting by a key *)

(** [cmp].[then]: the lexicographic order of the keys. *)
Fixpoint lex_leb (a b : list string) : bool :=
  match a, b with
  | x :: a, y :: b => str_ltb x y || (bool_decide (x = y) && lex_leb a b)
  | _, _ => true
  end.

Fixpoint insert_by {A} (leb : A → A → bool) (x : A) (l : list A) : list A :=
  match l with
  | [] => [x]
  | y :: l => if leb x y then x :: y :: l else y :: insert_by leb x l
  end.

(** [sort_by]. *)
Definition sort_by {A} (leb : A → A → bool) (l : list A) : list A := foldr (insert_by leb) [] l.

(** * Topics *)

(** [TopicSnapshot] with its name and its streams. *)
Record TopicDetail := mkDetail { td_name : string; td_streams : nat; td_snapshot : TopicSnapshot }.

Definition with_consumers (f : list ConsumerSnapshot → list ConsumerSnapshot) (t : TopicSnapshot) : TopicSnapshot :=
  {| ts_accepted := ts_accepted t; ts_duplicates := ts_duplicates t; ts_pending := ts_pending t;
     ts_processing := ts_processing t; ts_delivered := ts_delivered t; ts_failed := ts_failed t;
     ts_delivery := ts_delivery t; ts_persistence := ts_persistence t; ts_dropped := ts_dropped t;
     ts_consumers := f (ts_consumers t) |}.

Definition set_live (c : ConsumerSnapshot) : ConsumerSnapshot :=
  {| cs_id := cs_id c; cs_name := cs_name c; cs_last_seen_at := cs_last_seen_at c; cs_live := true;
     cs_attributes := cs_attributes c |}.

(** The topic [merge_live_sessions] adds for a filter without statistics. *)
Definition live_topic (name : string) : TopicDetail :=
  mkDetail name 0 {| ts_accepted := 0; ts_duplicates := 0; ts_pending := 0; ts_processing := 0; ts_delivered := 0;
    ts_failed := 0; ts_delivery := "broadcast"; ts_persistence := "persistent"; ts_dropped := 0; ts_consumers := [] |}.

(** The consumer it adds for a session. *)
Definition session_consumer (s : SessionInfo) : ConsumerSnapshot :=
  {| cs_id := si_id s; cs_name := default (si_id s) (strip_prefix "mqtt:" (si_id s));
     cs_last_seen_at := si_connected_at s; cs_live := true; cs_attributes := {["protocol" := si_protocol s]} |}.

(** The first consumer of that name made live, or the session added. *)
Fixpoint mark_or_add (s : SessionInfo) (l : list ConsumerSnapshot) : list ConsumerSnapshot :=
  match l with
  | [] => [session_consumer s]
  | c :: l => if bool_decide (cs_id c = si_id s) then set_live c :: l else c :: mark_or_add s l
  end.

(** [merge_live_sessions]. *)
Definition merge_live_sessions (topics : list TopicDetail) (sessions : list SessionInfo) : list TopicDetail :=
  let topics := foldl (λ topics s,
    if existsb (λ t, bool_decide (td_name t = si_topic s)) topics then topics
    else topics ++ [live_topic (si_topic s)]) topics sessions in
  map (λ t, mkDetail (td_name t) (td_streams t) (with_consumers (λ consumers,
    foldl (λ consumers s, if negb (filter_matches (si_topic s) (td_name t)) then consumers
                          else mark_or_add s consumers) consumers sessions) (td_snapshot t))) topics.

(** * Clients *)

(** [ClientSubscription]. *)
Record ClientSubscription := {
  sb_id : string;
  sb_name : string;
  sb_topic : string;
  sb_protocol : string;
  sb_version : string;
  sb_host : string;
  sb_attributes : gmap string string;
  sb_connected_at : string;
  sb_last_seen_at : string
}.

(** [ClientInfo]. *)
Record ClientInfo := {
  cl_peer : string;
  cl_protocol : string;
  cl_client_id : string;
  cl_version : string;
  cl_host : string;
  cl_streams : nat;
  cl_connected_at : string;
  cl_last_seen_at : string;
  cl_subscriptions : list ClientSubscription
}.

Abbreviation Registered := (gmap (string * string) ConsumerSnapshot).

(** The map of the registered consumers: a later one replaces an earlier. *)
Definition registered_of (topics : list TopicDetail) : Registered :=
  foldl (λ m t, foldl (λ m c, <[(td_name t, cs_id c) := c]> m) m (ts_consumers (td_snapshot t))) ∅ topics.

(** [to_subscription]. *)
Definition to_subscription (registered : Registered) (s : SessionInfo) : ClientSubscription :=
  let meta := registered !! (si_topic s, si_id s) in
  let attributes := default ∅ (cs_attributes <$> meta) in
  let or_attribute value key := if is_empty value then default "" (attributes !! key) else value in
  {| sb_id := si_id s;
     sb_name := match meta with
                | Some c => if is_empty (cs_name c) then default "" (strip_prefix "mqtt:" (si_id s)) else cs_name c
                | None => default "" (strip_prefix "mqtt:" (si_id s))
                end;
     sb_topic := si_topic s; sb_protocol := si_protocol s;
     sb_version := or_attribute (si_version s) "version"; sb_host := or_attribute (si_host s) "host";
     sb_attributes := attributes; sb_connected_at := si_connected_at s;
     sb_last_seen_at := default (si_connected_at s) (cs_last_seen_at <$> meta) |}.

(** [first_value]. *)
Definition first_value (primary : string) (subscriptions : list ClientSubscription)
    (pick : ClientSubscription → string) : string :=
  if is_empty primary then default "" (List.find (λ v, negb (is_empty v)) (map pick subscriptions)) else primary.

(** [grpc_group_key]. *)
Definition grpc_group_key (s : SessionInfo) : string :=
  if is_empty (si_host s) then "p:" +:+ si_peer s else "h:" +:+ si_host s.

(** [Iterator::max] and [Iterator::min] of texts. *)
Definition max_text (l : list string) : option string :=
  foldl (λ o x, Some (if o is Some y then if str_leb y x then x else y else x)) None l.
Definition min_text (l : list string) : option string :=
  foldl (λ o x, Some (if o is Some y then if str_leb y x then y else x else x)) None l.

Definition by_topic (a b : ClientSubscription) : bool := lex_leb [sb_topic a; sb_id a] [sb_topic b; sb_id b].
Definition by_name (a b : ClientSubscription) : bool :=
  lex_leb [sb_topic a; sb_name a; sb_id a] [sb_topic b; sb_name b; sb_id b].
Definition by_host (a b : ClientInfo) : bool :=
  lex_leb [cl_host a; cl_peer a; cl_client_id a] [cl_host b; cl_peer b; cl_client_id b].

(** The entry of an MQTT client or of a gRPC connection for the sessions it owns. *)
Definition connection (registered : Registered) (peer protocol client_id version host connected_at : string)
    (owned : list SessionInfo) : ClientInfo :=
  let subscriptions := sort_by by_topic (map (to_subscription registered) owned) in
  {| cl_peer := peer; cl_protocol := protocol; cl_client_id := client_id;
     cl_version := first_value version subscriptions sb_version;
     cl_host := first_value host subscriptions sb_host; cl_streams := length subscriptions;
     cl_connected_at := connected_at;
     cl_last_seen_at := default connected_at (max_text (map sb_last_seen_at subscriptions));
     cl_subscriptions := subscriptions |}.

(** The sessions of an MQTT client and of a gRPC connection. *)
Definition of_mqtt (c : MqttClientInfo) (s : SessionInfo) : bool :=
  bool_decide (si_id s = "mqtt:" +:+ ci_client_id c).
Definition of_grpc (c : GrpcClientInfo) (s : SessionInfo) : bool := bool_decide (si_peer s = gc_peer c).

(** The entry of a group of other sessions. *)
Definition group_client (peer : string) (subscriptions : list ClientSubscription) : ClientInfo :=
  let subscriptions := sort_by by_name subscriptions in
  {| cl_peer := peer; cl_protocol := default "grpc" (sb_protocol <$> head subscriptions); cl_client_id := "";
     cl_version := first_value "" subscriptions sb_version; cl_host := first_value "" subscriptions sb_host;
     cl_streams := length subscriptions;
     cl_connected_at := default "" (min_text (map sb_connected_at subscriptions));
     cl_last_seen_at := default "" (max_text (map sb_last_seen_at subscriptions));
     cl_subscriptions := subscriptions |}.

(** The map [by_identity]. *)
Definition grouped (registered : Registered) (sessions : list SessionInfo)
    : gmap string (string * list ClientSubscription) :=
  foldl (λ m s, partial_alter (λ o, let '(peer, l) := default (si_peer s, []) o in
                                    Some (peer, l ++ [to_subscription registered s])) (grpc_group_key s) m)
    ∅ sessions.

(** [connected_clients]; the groups come in the order of a [HashMap]. *)
Definition connected_clients `{Oracle} (n : nat) (sessions : list SessionInfo) (mqtt_clients : list MqttClientInfo)
    (grpc_clients : list GrpcClientInfo) (topics : list TopicDetail) : list ClientInfo :=
  let registered := registered_of topics in
  let mqtt := map (λ c, connection registered (ci_peer c) (ci_transport c) (ci_client_id c) (ci_version c) ""
                          (ci_connected_at c) (List.filter (of_mqtt c) sessions)) mqtt_clients in
  let grpc := map (λ c, connection registered (gc_peer c) "grpc" "" (gc_version c) (gc_host c)
                          (gc_connected_at c) (List.filter (of_grpc c) sessions)) grpc_clients in
  let claimed := map (λ s, (si_id s, si_topic s))
    ((mqtt_clients ≫= λ c, List.filter (of_mqtt c) sessions) ++
     (grpc_clients ≫= λ c, List.filter (of_grpc c) sessions)) in
  let rest := List.filter (λ s, negb (bool_decide ((si_id s, si_topic s) ∈ claimed))) sessions in
  let groups := map (λ '(_, (peer, l)), group_client peer l) (any_order n (map_to_list (grouped registered rest))) in
  sort_by by_host (mqtt ++ grpc ++ groups).

(** * The status *)

(** The part of [BrokerStatus] that is not read from the environment. *)
Record BrokerStatus := {
  bs_topics : nat;
  bs_consumers : nat;
  bs_accepted : Z;
  bs_duplicates : Z;
  bs_pending : Z;
  bs_processing : Z;
  bs_delivered : Z;
  bs_failed : Z;
  bs_dropped : Z;
  bs_client_count : nat;
  bs_clients : list ClientInfo;
  bs_topics_detail : list TopicDetail
}.

Definition sum_of (f : TopicSnapshot → Z) (l : list TopicDetail) : Z := foldr (λ t acc, f (td_snapshot t) + acc) 0 l.

(** The topics with the number of their streams and the live consumers. *)
Definition with_streams `{Oracle} (n : nat) (subs : TopicSubscribers) (t : TopicDetail) : TopicDetail :=
  mkDetail (td_name t) (matching_count n (td_name t) subs)
    (with_consumers (map (λ c, if is_live (td_name t) (cs_id c) subs then set_live c else c)) (td_snapshot t)).

(** More streams first, then by name. *)
Definition by_streams (a b : TopicDetail) : bool :=
  (td_streams b <? td_streams a)%nat || ((td_streams a =? td_streams b)%nat && str_leb (td_name a) (td_name b)).

(** [build_status] after the snapshot of the database was read. *)
Definition build_status `{Oracle} (n : nat) (snapshot : list (string * TopicSnapshot)) (subs : TopicSubscribers)
    (mqtt : ClientRegistry) (grpc : GrpcClientRegistry) : BrokerStatus :=
  let live := Subscribers.sessions n subs in
  let topics := merge_live_sessions (map (λ '(name, t), mkDetail name 0 t) snapshot) live in
  let topics := sort_by by_streams (map (with_streams n subs) topics) in
  let clients := connected_clients n live (registry_clients n mqtt) (client_list n grpc) topics in
  {| bs_topics := length topics; bs_consumers := foldr (λ t acc, td_streams t + acc)%nat 0%nat topics;
     bs_accepted := sum_of ts_accepted topics; bs_duplicates := sum_of ts_duplicates topics;
     bs_pending := sum_of ts_pending topics; bs_processing := sum_of ts_processing topics;
     bs_delivered := sum_of ts_delivered topics; bs_failed := sum_of ts_failed topics;
     bs_dropped := sum_of ts_dropped topics; bs_client_count := length clients;
     bs_clients := clients; bs_topics_detail := topics |}.

(** [status]: without the details. *)
Definition public_status (s : BrokerStatus) : BrokerStatus :=
  {| bs_topics := bs_topics s; bs_consumers := bs_consumers s; bs_accepted := bs_accepted s;
     bs_duplicates := bs_duplicates s; bs_pending := bs_pending s; bs_processing := bs_processing s;
     bs_delivered := bs_delivered s; bs_failed := bs_failed s; bs_dropped := bs_dropped s;
     bs_client_count := bs_client_count s; bs_clients := []; bs_topics_detail := [] |}.

End Console.
