(* ===== verification/HttpSpec.v ===== *)
(** What the HTTP interface guarantees: an acknowledged publish is committed, no
    management operation runs without credentials, previews are well-formed text, and
    the console shows every live session. *)

From S2P Require Import Prelude RustStr Topic Model Effects Election Cache Store Db DbInv DbSpec DbAdmin DbQuery.
From S2P Require Import Writer Subscribers Auth AuthSpec Delivery DeliverySpec Session Observe Service Http Console.
Import Topic Model Store Db DbInv DbSpec DbQuery Writer Subscribers Auth AuthSpec Delivery DeliverySpec Session Observe Http Console.

Module HttpSpec.

(** * UTF-8 and its character boundaries *)

Definition continuation (b : Z) : bool := in_range 128 191 b.

(** The first character of well-formed text. *)
Definition first_char (c r : list Z) : Prop :=
  (1 <= length c <= 4)%nat ∧ utf8_valid r = true ∧ (∀ r', utf8_valid r' = true → utf8_valid (c ++ r') = true) ∧
  ∃ a t, c = a :: t ∧ continuation a = false ∧ Forall (λ b, continuation b = true) t.

Lemma in_range_true a b x : in_range a b x = true ↔ a <= x <= b.
Proof. unfold in_range. rewrite andb_true_iff, !Z.leb_le. done. Qed.

Lemma in_range_false a b x : in_range a b x = false ↔ ¬ a <= x <= b.
Proof. rewrite <-in_range_true. by destruct (in_range a b x). Qed.

(** Rewrites the tests of a definition by what is known of them. *)
Ltac known := repeat match goal with
  | H : ?x = true |- context [?x] => rewrite H
  | H : ?x = false |- context [?x] => rewrite H
  end.

(** Turns the known ranges of bytes into inequalities. *)
Ltac ranges := unfold continuation in *; repeat match goal with
  | H : in_range _ _ _ = true |- _ => apply in_range_true in H
  | H : in_range _ _ _ = false |- _ => apply in_range_false in H
  | H : (_ =? _) = true |- _ => apply Z.eqb_eq in H
  | H : (_ =? _) = false |- _ => apply Z.eqb_neq in H
  | |- in_range _ _ _ = true => apply in_range_true
  | |- in_range _ _ _ = false => apply in_range_false
  end; lia.

Lemma first_char_intro a t r :
  (length t <= 3)%nat → utf8_valid r = true → (∀ r', utf8_valid r' = true → utf8_valid (a :: t ++ r') = true) →
  continuation a = false → Forall (λ b, continuation b = true) t →
  ∃ c r0, a :: t ++ r = c ++ r0 ∧ first_char c r0.
Proof. intros Hl Hr Hc Ha Ht. exists (a :: t), r. split; [done|]. split; [simpl; lia|]. eauto 10. Qed.

Lemma utf8_first l : utf8_valid l = true → l = [] ∨ ∃ c r, l = c ++ r ∧ first_char c r.
Proof.
  destruct l as [|a l]; [by left|]. intros Hv. right. cbn [utf8_valid] in Hv.
  destruct (in_range 0 127 a) eqn:Ha.
  { apply (first_char_intro a [] l); [simpl; lia|done| |ranges|constructor].
    intros r' Hr'. cbn [app utf8_valid]. by known. }
  destruct l as [|b l]; [done|]. destruct (in_range 194 223 a) eqn:H2.
  { apply andb_true_iff in Hv as [Hb Hv].
    apply (first_char_intro a [b] l); [simpl; lia|done| |ranges|repeat constructor; ranges].
    intros r' Hr'. cbn [app utf8_valid]. by known. }
  destruct l as [|c l]; [done|].
  assert (∀ lo hi, 128 <= lo → hi <= 191 → in_range lo hi b && in_range 128 191 c && utf8_valid l = true →
    128 <= b <= 191 ∧ 128 <= c <= 191 ∧ utf8_valid l = true) as Hthree.
  { intros lo hi Hlo Hhi [[Hb Hc]%andb_true_iff Hl]%andb_true_iff. split; [ranges|]. split; [ranges|done]. }
  destruct (a =? 224) eqn:E0; [|destruct (a =? 237) eqn:E1; [|destruct (in_range 225 239 a) eqn:E2]].
  1-3: apply Hthree in Hv as Hv'; [|lia..]; destruct Hv' as (Hb & Hc & Hl);
    apply (first_char_intro a [b; c] l); [simpl; lia|done| |ranges|repeat constructor; ranges];
    intros r' Hr'; cbn [app utf8_valid]; known; apply andb_true_iff in Hv as [Hv _]; by rewrite Hv.
  destruct l as [|d l]; [done|]. apply andb_true_iff in Hv as [Hv Hl].
  pose proof Hv as [[Hlead Hc]%andb_true_iff Hd]%andb_true_iff.
  assert (in_range 240 244 a = true ∧ in_range 128 191 b = true) as [Ha4 Hb].
  { destruct (a =? 240) eqn:E3; [split; ranges|]. destruct (a =? 244) eqn:E4; [split; ranges|].
    apply andb_true_iff in Hlead as [? ?]. split; ranges. }
  apply (first_char_intro a [b; c; d] l); [simpl; lia|done| |ranges|repeat constructor; ranges].
  intros r' Hr'. clear Ha4 Hb. cbn [app utf8_valid]. rewrite Hv. by known.
Qed.

Lemma boundary_app c r k :
  first_char c r → is_char_boundary (c ++ r) (length c + k) = is_char_boundary r k.
Proof.
  intros (Hc & Hr & _ & a & t & -> & Ha & Ht). unfold is_char_boundary.
  rewrite lookup_app_r by lia. replace (length (a :: t) + k - length (a :: t))%nat with k by lia.
  rewrite length_app. destruct k as [|k].
  - rewrite (bool_decide_eq_false_2 (_ + 0 = 0)%nat) by (simpl; lia). simpl orb.
    destruct r as [|b r]; [by rewrite bool_decide_eq_true_2 by (simpl; lia)|].
    rewrite bool_decide_eq_false_2 by (simpl; lia). simpl. apply utf8_first in Hr as [|(c' & r' & E & _ & _ & _ & x & y & -> & Hx & _)]; [done|].
    injection E as -> _. unfold continuation in Hx. by rewrite Hx.
  - rewrite !(bool_decide_eq_false_2 (_ = 0)%nat) by (simpl; lia).
    rewrite (bool_decide_ext (_ + S k = _)%nat (S k = length r)) by lia. done.
Qed.

(** Inside a character there is no boundary. *)
Lemma boundary_inside c r n :
  first_char c r → (0 < n < length c)%nat → is_char_boundary (c ++ r) n = false.
Proof.
  intros (Hc & Hr & _ & a & t & -> & Ha & Ht) Hn. unfold is_char_boundary.
  rewrite !bool_decide_eq_false_2 by (rewrite ?length_app; lia). cbn [orb].
  destruct n as [|n]; [lia|]. change (((a :: t) ++ r) !! S n) with ((t ++ r) !! n).
  rewrite lookup_app_l by (simpl in Hn; lia).
  destruct (t !! n) as [b|] eqn:Hb; [|done]. eapply Forall_lookup_1 in Ht; [|done].
  unfold continuation in Ht. by rewrite Ht.
Qed.

(** Induction over the characters of well-formed text. *)
Lemma utf8_ind (P : list Z → Prop) :
  P [] → (∀ c r, first_char c r → P r → P (c ++ r)) → ∀ l, utf8_valid l = true → P l.
Proof.
  intros Hnil Hchar l. induction l as [l IH] using (well_founded_induction (Wf_nat.well_founded_ltof _ (@length Z))).
  intros Hv. apply utf8_first in Hv as [->|(c & r & -> & Hc)]; [done|]. apply Hchar; [done|].
  pose proof Hc as (Hl & Hr & _). apply IH; [|done]. unfold Wf_nat.ltof. rewrite length_app. lia.
Qed.

(** Text cut at a boundary is well formed. *)
Lemma utf8_take l n : utf8_valid l = true → is_char_boundary l n = true → utf8_valid (take n l) = true.
Proof.
  intros Hv. revert n. pattern l. revert l Hv. apply utf8_ind; [intros n _; by rewrite take_nil|].
  intros c r Hc IH n Hb. destruct (decide (n = 0%nat)) as [->|Hn]; [by rewrite take_0|].
  destruct (decide (n < length c)%nat) as [Hlt|Hge]; [by rewrite boundary_inside in Hb by (done || lia)|].
  replace n with (length c + (n - length c))%nat in * by lia. rewrite boundary_app in Hb by done.
  rewrite take_app_add. apply Hc. by apply IH.
Qed.

(** A boundary is never more than three bytes away. *)
Lemma boundary_near l n :
  utf8_valid l = true → (n <= length l)%nat → ∃ m, (m <= n <= m + 3)%nat ∧ is_char_boundary l m = true.
Proof.
  intros Hv. revert n. pattern l. revert l Hv. apply utf8_ind.
  - intros n Hn. exists 0%nat. split; [simpl in Hn; lia|done].
  - intros c r Hc IH n Hn. pose proof Hc as (Hl & _). rewrite length_app in Hn.
    destruct (decide (n < length c)%nat); [exists 0%nat; split; [lia|done]|].
    destruct (IH (n - length c)%nat) as (m & Hm & Hb); [lia|].
    exists (length c + m)%nat. split; [lia|]. by rewrite boundary_app.
Qed.

Lemma preview_end_spec text n :
  is_char_boundary text (preview_end text n) = true ∧ (preview_end text n <= n)%nat ∧
  ∀ m, (preview_end text n < m <= n)%nat → is_char_boundary text m = false.
Proof.
  induction n as [|n (IH1 & IH2 & IH3)]; cbn [preview_end]; [split; [done|split; [done|lia]]|].
  destruct (is_char_boundary text (S n)) eqn:Hb; [split; [done|split; [done|lia]]|].
  split; [done|]. split; [lia|]. intros m Hm. destruct (decide (m = S n)) as [->|]; [done|]. apply IH3. lia.
Qed.

(** The preview of a stored message: it is marked as truncated exactly when the
    payload exceeds the limit.  Text stays well-formed text: the preview is a prefix
    of the payload that ends at a character boundary, and at most three bytes are
    given up for that.  Other payloads are shown as the base64 text of their first
    bytes. *)
Theorem preview_sound limit message :
  Forall is_u8 (sm_payload message) →
  let bytes := sm_payload message in
  let body := message_body limit message in
  mb_truncated body = (limit <? length bytes)%nat ∧
  if utf8_valid bytes
  then mb_payload_encoding body = "utf-8" ∧ is_utf8 (mb_payload body) ∧
       ∃ n, as_bytes (mb_payload body) = take n bytes ∧
         if mb_truncated body then (n <= limit <= n + 3)%nat else n = length bytes
  else mb_payload_encoding body = "base64" ∧ base64_decode (mb_payload body) = Some (take limit bytes).
Proof.
  intros H8 bytes body. unfold body, message_body, from_utf8. fold bytes.
  destruct (utf8_valid bytes) eqn:Hv; destruct (Nat.ltb_spec limit (length bytes)) as [Hlt|Hge];
    cbn [mb_truncated mb_payload mb_payload_encoding]; (split; [done|]); (split; [done|]).
  - destruct (preview_end_spec bytes limit) as (Hb & Hle & Hmax).
    assert (Forall is_u8 (take (preview_end bytes limit) bytes)) as H8' by (by apply Forall_take).
    split; [unfold is_utf8; rewrite as_bytes_of_bytes by done; by apply utf8_take|].
    exists (preview_end bytes limit). split; [by rewrite as_bytes_of_bytes|]. split; [done|].
    destruct (boundary_near bytes limit Hv) as (m & Hm & Hmb); [lia|].
    destruct (decide (preview_end bytes limit < m)%nat) as [Hlt'|]; [|lia].
    by rewrite Hmax in Hmb by lia.
  - split; [unfold is_utf8; by rewrite as_bytes_of_bytes|].
    exists (length bytes). split; [|done]. by rewrite as_bytes_of_bytes, take_ge.
  - apply base64_decode_encode. by apply Forall_take.
  - rewrite take_ge by done. by apply base64_decode_encode.
Qed.

(** * Publishing and access *)

Section access.
Context `{Oracle, Chrono, Serde, Passwords}.

Context (accepts : nat → bool) (json_to_vec : Json → option (list Z)).

(** The bytes of a JSON payload. *)
Definition payload_bytes (payload : Json) : option (list Z) :=
  match payload with
  | JString value => Some (as_bytes value)
  | value => json_to_vec value
  end.

Definition clean_key (key : option string) : option string :=
  key ← key; let key := trim key in if is_empty key then None else Some key.

(** A step on the database inside the console. *)
Lemma run_with_db {A} (m : M Error Db A) w :
  with_db m w = let '(r, w1) := m (mkWorld (b_db (c_broker (st w))) (tick w)) in
    (map_err internal r, mkWorld (mkConsole (set_db (st w1) (c_broker (st w))) (c_stores (st w))
       (c_elections (st w)) (c_admin (st w))) (tick w1)).
Proof.
  unfold with_db, with_broker, map_err_with, zoom, Delivery.on_db, zoom. cbn [st tick].
  by destruct (m _) as [r w1].
Qed.

Lemma shards_topic_config topic : Keeps same_shards (topic_config topic).
Proof. unfold topic_config, topic_config_read, topic_config_cache. keeps_go; done. Qed.

Lemma grows_enqueue key topic bytes attributes : Keeps grows (enqueue key topic bytes attributes).
Proof.
  unfold enqueue, new_message_id. keeps_go; try apply grows_enqueue_batch.
Qed.

(** What a single publish stores. *)
Lemma enqueue_stored key topic bytes attributes w id dup w' :
  length (shards (st w)) = MESSAGE_SHARDS → enqueue key topic bytes attributes w = (Ok (id, dup), w') →
  ∃ m, shard (topic_shard topic) (st w') !! id = Some m ∧
    m_key m = (if key is Some k then if is_empty k then None else Some k else None) ∧
    (dup = false → m_topic m = topic ∧ m_payload m = bytes ∧ m_status m = Pending).
Proof.
  intros HL. unfold enqueue, new_message_id. rewrite run_bind. run.
  match goal with |- context [enqueue_batch [?it] ?w0] => set (item := it); set (w1 := w0) end.
  destruct (enqueue_batch [item] w1) as [[rs|e] w2] eqn:E; [|done].
  apply enqueue_batch_post in E as [Hlen Hst]; [|done]. destruct (Hst 0%nat item eq_refl) as (r & Hr & Hstored).
  destruct rs as [|r' [|]]; try done. injection Hr as ->. cbn [last]. rewrite run_ret. intros [= -> <-].
  destruct Hstored as (m & Hm & Hk & Hnew). exists m. split; [exact Hm|]. split; [exact Hk|].
  cbn [snd] in Hnew. intros ->. by destruct Hnew as (_ & ? & ? & _ & ? & _).
Qed.

(** C23: An HTTP publish to a persistent topic is acknowledged only after it was
    committed: when [publish_message] succeeds and the topic is persistent, the
    message it names is stored in the shard of the topic (a new pending row with the
    payload, or for a duplicate one with the same idempotency key), it is not
    reported as dropped, and no row stored before is lost. *)
Theorem http_publish_durable topic payload attributes key w r w' settings w1 :
  let s := b_db (c_broker (st w)) in
  length (shards s) = MESSAGE_SHARDS →
  topic_config (trim topic) (mkWorld s (tick w)) = (Ok settings, w1) → tc_persistence settings = Persistent →
  publish_message accepts json_to_vec topic payload attributes key w = (Ok r, w') →
  let s' := b_db (c_broker (st w')) in
  pr_dropped r = false ∧ grows s s' ∧
  ∃ bytes m, payload_bytes payload = Some bytes ∧ bytes ≠ [] ∧
    shard (topic_shard (trim topic)) s' !! pr_message_id r = Some m ∧ m_key m = clean_key key ∧
    (pr_duplicate r = false → m_topic m = trim topic ∧ m_payload m = bytes ∧ m_status m = Pending).
Proof.
  intros s HL Hset Hp Hrun s'. unfold publish_message, trimmed in Hrun. rewrite run_bind in Hrun.
  destruct (is_empty (trim topic)); [done|]. rewrite run_ret, run_bind in Hrun.
  assert (∃ bytes, payload_bytes payload = Some bytes ∧
    (match payload with JString value => mret (as_bytes value) | value => lift (ok_or BAD_REQUEST (json_to_vec value)) end
       : M StatusCode Http.Console _) w = (Ok bytes, w)) as (bytes & Hbytes & Hpay).
  { destruct payload; cbn [payload_bytes]; [..|by eexists| |]; try (destruct (json_to_vec _) as [l|]; [by exists l|done]). }
  rewrite Hpay in Hrun. case_bool_decide as Hne; [done|].
  rewrite run_bind, run_with_db in Hrun. fold s in Hrun. rewrite Hset in Hrun. cbn [map_err] in Hrun.
  rewrite Hp in Hrun. rewrite run_bind, run_bind, run_with_db in Hrun. cbn [st tick c_broker b_db set_db] in Hrun.
  pose proof (shards_topic_config (trim topic) (mkWorld s (tick w))) as Hsh. rewrite Hset in Hsh. unfold same_shards in Hsh. cbn [snd st] in Hsh.
  fold (clean_key key) in Hrun.
  destruct (enqueue (clean_key key) (trim topic) bytes attributes (mkWorld (st w1) (tick w1))) as [[[id dup]|e] w2] eqn:Henq;
    [|done]. cbn [map_err] in Hrun.
  pose proof (grows_enqueue (clean_key key) (trim topic) bytes attributes (mkWorld (st w1) (tick w1))) as Hg.
  rewrite Henq in Hg. cbn [snd st] in Hg.
  apply enqueue_stored in Henq as (m & Hm & Hk & Hnew); [|cbn [st]; by rewrite Hsh].
  assert (pr_message_id r = id ∧ pr_duplicate r = dup ∧ pr_dropped r = false ∧ s' = st w2) as (-> & -> & Hd & Hs').
  { unfold s'. destruct dup.
    - unfold mret, M_ret in Hrun. cbv beta iota in Hrun. by injection Hrun as <- <-.
    - unfold with_broker, notify_ready, map_err_with, zoom, mem in Hrun. cbn in Hrun. by injection Hrun as <- <-. }
  split; [done|]. rewrite Hs'. split; [etrans; [by apply grows_shards|exact Hg]|].
  exists bytes, m. split; [done|]. split; [done|]. split; [exact Hm|]. split; [|done]. rewrite Hk.
  unfold clean_key. destruct key as [k|]; [|done]. cbn [mbind option_bind].
  destruct (is_empty (trim k)) eqn:He; [done|]. by rewrite He.
Qed.

Context (config : StatusConfig).

(** The request carries a session that has been used in the last two hours. *)
Definition signed_in (request : HttpRequest) (w : World Http.Console) : Prop :=
  ∃ token seen, cookie_token (rq_cookie request) = Some token ∧
    admin_sessions (c_admin (st w)) !! token = Some seen ∧
    Z.max 0 (clock (S (tick w)) / 10 ^ 9) - Z.max seen 0 <= SESSION_SECONDS.

(** Only the sessions of the console may differ. *)
Definition same_but_sessions (c c' : Http.Console) : Prop :=
  c_broker c' = c_broker c ∧ c_stores c' = c_stores c ∧ c_elections c' = c_elections c ∧
  admin_user (c_admin c') = admin_user (c_admin c).

Lemma session_valid_spec request w :
  ∃ valid w1, session_valid request w = (Ok valid, w1) ∧ same_but_sessions (st w) (st w1) ∧
    (valid = true → signed_in request w).
Proof.
  unfold session_valid, with_admin, signed_in. destruct (cookie_token _) as [token|]; [|by eexists false, w].
  unfold map_err_with, zoom. cbn [st tick]. rewrite run_bind, run_attempt. unfold valid_session, now_secs. run.
  destruct (fault (tick w)); [by eexists false, _|]. run.
  destruct (admin_sessions (c_admin (st w)) !! token) as [seen|] eqn:Hs; [|by eexists false, _]. run.
  destruct (SESSION_SECONDS <? _) eqn:Hx; run.
  { destruct (fault _); by eexists false, _. }
  destruct (fault _); [by eexists false, _|]. run. eexists true, _. split; [done|]. split; [done|].
  intros _. exists token, seen. split; [done|]. split; [done|]. apply Z.ltb_ge in Hx. lia.
Qed.

(** No management operation runs without credentials: behind [require_admin] the
    operation runs only for a request with a session that was used in the last two
    hours, behind [require_service_token] only for one with the configured token;
    every other request is answered with 401 and changes nothing but sessions. *)
Theorem management_guarded {A} request (next : M StatusCode Http.Console A) w :
  (∃ w1, same_but_sessions (st w) (st w1) ∧
     ((signed_in request w ∧ require_admin request next w = next w1) ∨
      require_admin request next w = (Err UNAUTHORIZED, w1))) ∧
  require_service_token config request next w =
    match st_auth_token config with
    | Some expected => if decide (http_token (rq_authorization request) (rq_query request) = Some expected)
                       then next w else (Err UNAUTHORIZED, w)
    | None => next w
    end.
Proof.
  split.
  - unfold require_admin. rewrite run_bind.
    destruct (session_valid_spec request w) as (valid & w1 & -> & Hsame & Hv). exists w1. split; [done|].
    destruct valid; [left; split; [by apply Hv|done]|by right].
  - unfold require_service_token, request_has_service_token.
    destruct (st_auth_token config) as [expected|]; [|done].
    destruct (http_token _ _) as [presented|]; [|done].
    destruct (tokens_match expected (Some presented)) eqn:Hm; case_decide as Ht; try done.
    + apply tokens_match_eq in Hm. congruence.
    + injection Ht as ->. exfalso. by rewrite (proj2 (tokens_match_eq _ _)) in Hm.
Qed.

End access.

(** * The clients of the console *)

Lemma sort_by_perm {A} (leb : A → A → bool) l : sort_by leb l ≡ₚ l.
Proof.
  induction l as [|x l IH]; [done|]. cbn [sort_by foldr]. fold (sort_by leb l).
  trans (x :: sort_by leb l); [|by constructor]. clear IH. generalize (sort_by leb l) as k. clear l.
  induction k as [|y k IH]; cbn [insert_by]; [done|]. destruct (leb x y); [done|].
  rewrite IH. constructor.
Qed.

Definition session_key (s : SessionInfo) : string * string := (si_id s, si_topic s).

(** The subscriptions of a group. *)
Lemma grouped_lookup registered sessions key :
  let own := List.filter (λ s, bool_decide (grpc_group_key s = key)) sessions in
  match grouped registered sessions !! key with
  | Some (_, l) => own ≠ [] ∧ l = map (to_subscription registered) own
  | None => own = []
  end.
Proof.
  cbv zeta. induction sessions as [|s sessions IH] using rev_ind; [done|].
  unfold grouped in *. rewrite foldl_app, List.filter_app. cbn [foldl List.filter].
  set (m := foldl _ ∅ sessions) in *. destruct (decide (grpc_group_key s = key)) as [->|Hne].
  - rewrite lookup_partial_alter_eq, bool_decide_eq_true_2 by done.
    destruct (m !! key) as [[peer l]|]; cbn [default from_option id].
    + destruct IH as [_ ->]. split; [by destruct (List.filter _ sessions)|]. by rewrite map_app.
    + by rewrite IH.
  - rewrite lookup_partial_alter_ne by done. by rewrite bool_decide_eq_false_2, app_nil_r by done.
Qed.

Lemma elem_of_List_filter {A} (f : A → bool) (l : list A) x : x ∈ List.filter f l ↔ f x = true ∧ x ∈ l.
Proof. rewrite !list_elem_of_In, filter_In. tauto. Qed.

Lemma elem_of_map {A B} (f : A → B) (l : list A) y : y ∈ map f l ↔ ∃ x, y = f x ∧ x ∈ l.
Proof. rewrite list_elem_of_In, in_map_iff. setoid_rewrite list_elem_of_In. naive_solver. Qed.

Section clients.
Context `{Oracle, !OrderLaws}.
Context (n : nat) (sessions : list SessionInfo) (mqtt_clients : list MqttClientInfo)
  (grpc_clients : list GrpcClientInfo) (topics : list TopicDetail).

(** The sessions that connections own, and the others. *)
Definition owned : list SessionInfo :=
  (mqtt_clients ≫= λ c, List.filter (of_mqtt c) sessions) ++
  (grpc_clients ≫= λ c, List.filter (of_grpc c) sessions).
Definition is_owned (s : SessionInfo) : bool :=
  bool_decide ((si_id s, si_topic s) ∈ map (λ s, (si_id s, si_topic s)) owned).
Definition left_over : list SessionInfo := List.filter (λ s, negb (is_owned s)) sessions.

(** The entries of the console are those of the connections and those of the groups. *)
Definition entry_of (c : ClientInfo) (own : list SessionInfo) : Prop :=
  cl_subscriptions c ≡ₚ map (to_subscription (registered_of topics)) own ∧ cl_streams c = length own.

Lemma connection_entry peer protocol client_id version host connected_at own :
  entry_of (connection (registered_of topics) peer protocol client_id version host connected_at own) own.
Proof.
  split; cbn [connection cl_subscriptions cl_streams]; [apply sort_by_perm|].
  by rewrite sort_by_perm, length_map.
Qed.

Lemma client_cases c :
  c ∈ connected_clients n sessions mqtt_clients grpc_clients topics →
  ∃ own, own ⊆ sessions ∧ entry_of c own.
Proof.
  unfold connected_clients. rewrite sort_by_perm, !elem_of_app, !elem_of_map.
  intros [(m & -> & _)|[(g & -> & _)|([key [peer l]] & -> & Hin)]].
  - eexists. split; [|apply connection_entry]. intros s [_ ?]%elem_of_List_filter. done.
  - eexists. split; [|apply connection_entry]. intros s [_ ?]%elem_of_List_filter. done.
  - rewrite any_order_perm, elem_of_map_to_list in Hin.
    pose proof (grouped_lookup (registered_of topics) left_over key) as Hg. cbv zeta in Hg.
    change (grouped (registered_of topics) left_over !! key = Some (peer, l)) in Hin. rewrite Hin in Hg. destruct Hg as [_ ->]. eexists. split; [|split].
    + intros s [_ [_ Hs]%elem_of_List_filter]%elem_of_List_filter. exact Hs.
    + cbn [group_client cl_subscriptions]. apply sort_by_perm.
    + cbn [group_client cl_streams]. by rewrite sort_by_perm, length_map.
Qed.

(** Sessions are told apart by their identifier and topic. *)
Lemma owned_session s :
  NoDup (map session_key sessions) → s ∈ sessions → is_owned s = true → s ∈ owned.
Proof.
  intros Hnd Hs (s' & Hk & Hin)%bool_decide_eq_true%elem_of_map. replace s with s'; [done|].
  assert (s' ∈ sessions) as Hs'.
  { apply elem_of_app in Hin as [Hin|Hin]; apply list_elem_of_bind in Hin as (? & Hin & _);
      by apply elem_of_List_filter in Hin as []. }
  apply list_elem_of_lookup in Hs as [i Hi], Hs' as [j Hj]. assert (i = j) as ->; [|congruence].
  apply (NoDup_lookup (map session_key sessions) i j (session_key s)); [done|..].
  - rewrite list_lookup_fmap, Hi. done.
  - rewrite list_lookup_fmap, Hj. cbn. f_equal. symmetry. exact Hk.
Qed.

Lemma session_shown s :
  NoDup (map session_key sessions) → s ∈ sessions →
  ∃ c, c ∈ connected_clients n sessions mqtt_clients grpc_clients topics ∧
    to_subscription (registered_of topics) s ∈ cl_subscriptions c.
Proof.
  intros Hnd Hs. unfold connected_clients. setoid_rewrite sort_by_perm.
  destruct (is_owned s) eqn:Hl; [|assert (s ∈ left_over) as Hleft by (apply elem_of_List_filter; by rewrite Hl)]; swap 1 2.
  - pose proof (grouped_lookup (registered_of topics) left_over (grpc_group_key s)) as Hg. cbv zeta in Hg.
    assert (s ∈ List.filter (λ s', bool_decide (grpc_group_key s' = grpc_group_key s)) left_over) as Hown.
    { apply elem_of_List_filter. split; [by apply bool_decide_eq_true|done]. }
    destruct (grouped _ _ !! _) as [[peer l]|] eqn:Hgr; [|rewrite Hg in Hown; by apply elem_of_nil in Hown].
    destruct Hg as [_ Hsubs]. exists (group_client peer l). split.
    + rewrite !elem_of_app. right; right. apply elem_of_map. exists (grpc_group_key s, (peer, l)). split; [done|].
      rewrite any_order_perm, elem_of_map_to_list. exact Hgr.
    + cbn [group_client cl_subscriptions]. rewrite sort_by_perm, Hsubs. apply elem_of_map. by exists s.
  - assert (s ∈ owned) as Hown by (by apply owned_session).
    apply elem_of_app in Hown as [Hown|Hown]; apply list_elem_of_bind in Hown as (c & Hc & Hcin);
      (eexists; split; [rewrite !elem_of_app|]).
    1: left; apply elem_of_map; by exists c.
    2: right; left; apply elem_of_map; by exists c.
    all: cbn [connection cl_subscriptions]; rewrite sort_by_perm; apply elem_of_map; by exists s.
Qed.

(** The console shows who is connected: every live session appears among the
    subscriptions of some client, every subscription shown is that of a live session,
    and the number of streams of a client is the number of its subscriptions. *)
Theorem clients_cover_sessions :
  NoDup (map session_key sessions) →
  let clients := connected_clients n sessions mqtt_clients grpc_clients topics in
  let shown := to_subscription (registered_of topics) in
  (∀ s, s ∈ sessions → ∃ c, c ∈ clients ∧ shown s ∈ cl_subscriptions c) ∧
  (∀ c sub, c ∈ clients → sub ∈ cl_subscriptions c → ∃ s, s ∈ sessions ∧ sub = shown s) ∧
  (∀ c, c ∈ clients → cl_streams c = length (cl_subscriptions c)).
Proof.
  intros Hnd clients shown. split; [|split].
  - intros s Hs. by apply session_shown.
  - intros c sub (own & Hown & [Hp _])%client_cases. rewrite Hp, elem_of_map. naive_solver.
  - intros c (own & _ & [Hp ->])%client_cases. by rewrite Hp, length_map.
Qed.

End clients.

(** A topic known only by a live filter is shown as persistent, although publishes to
    it are ephemeral. *)
Lemma unknown_topic_shown_persistent s :
  map (λ t, ts_persistence (td_snapshot t)) (merge_live_sessions [] [s]) = ["persistent"] ∧
  tc_persistence (implicit (si_topic s)) = Ephemeral.
Proof. done. Qed.

(** * The properties in the demonstration environment *)

Definition demo_preview : StoredMessage :=
  {| sm_id := "s01-x"; sm_topic := "a/b"; sm_payload := [97; 226; 130; 172; 98]; sm_attributes := JNull;
     sm_status := Pending; sm_attempts := 0; sm_created_at := ""; sm_delivered_at := None; sm_last_error := None |}.

Lemma preview_sound_witness :
  mb_truncated (message_body 3 demo_preview) = true ∧ mb_payload (message_body 3 demo_preview) = "a" ∧
  is_utf8 (mb_payload (message_body 3 demo_preview)).
Proof.
  destruct (preview_sound 3 demo_preview) as [Ht Hp].
  { repeat (constructor; [unfold is_u8, U8_MAX; lia|]). constructor. }
  split; [exact Ht|]. split; [vm_compute; reflexivity|]. exact (proj1 (proj2 Hp)).
Defined.

Definition demo_console : Http.Console :=
  mkConsole demo_broker (Cache.mkService (Cache.mkStore ∅ false 8) ∅) ∅ (mkAdmin ∅ ∅).

Definition demo_publish : result StatusCode PublishMessageResultBody * World Http.Console :=
  publish_message (H := still_oracle) (H0 := demo_chrono) (H1 := demo_serde) (λ _, true) (λ _, None)
    " a/b " (JString "hello") ∅ (Some " key ") (mkWorld demo_console 100).

Lemma http_publish_durable_witness :
  ∃ r m, demo_publish.1 = Ok r ∧ pr_dropped r = false ∧
    shard (topic_shard "a/b") (b_db (c_broker (st demo_publish.2))) !! pr_message_id r = Some m ∧
    m_key m = Some "key".
Proof.
  destruct demo_publish as [r w'] eqn:Hrun.
  assert (is_Some (ok r)) as [body Hr].
  { replace r with demo_publish.1 by (by rewrite Hrun). vm_compute. by eexists. }
  destruct r as [r|]; [|done]. clear body Hr.
  destruct (topic_config (H := still_oracle) "a/b" (mkWorld demo_stored 100)) as [c w1] eqn:Hc.
  assert (tc_persistence <$> ok c = Some Persistent) as Hp.
  { replace c with (topic_config (H := still_oracle) "a/b" (mkWorld demo_stored 100)).1 by (by rewrite Hc).
    vm_compute. reflexivity. }
  destruct c as [c|]; [|done]. injection Hp as Hp.
  destruct (http_publish_durable (H := still_oracle) (H0 := demo_chrono) (H1 := demo_serde) (λ _, true) (λ _, None)
    " a/b " (JString "hello") ∅ (Some " key ") (mkWorld demo_console 100) r w' c w1) as (Hd & _ & bytes & m & _ & _ & Hm & Hk & _).
  - vm_compute. reflexivity.
  - exact Hc.
  - exact Hp.
  - exact Hrun.
  - exists r, m. split; [done|]. split; [exact Hd|]. split; [exact Hm|]. rewrite Hk. vm_compute. reflexivity.
Defined.

Definition demo_session (id topic peer : string) : SessionInfo :=
  {| si_id := id; si_topic := topic; si_peer := peer; si_connected_at := "t"; si_protocol := "grpc";
     si_version := ""; si_host := "" |}.

Definition demo_sessions : list SessionInfo :=
  [demo_session "mqtt:c1" "a/+" "p1"; demo_session "s2" "a/b" "p2"; demo_session "s3" "a/b" "p3"].

Lemma clients_cover_sessions_witness :
  ∃ c, c ∈ connected_clients (H := still_oracle) 0 demo_sessions
             [{| ci_client_id := "c1"; ci_peer := "p1"; ci_transport := "mqtt-tcp"; ci_connected_at := "t"; ci_version := "" |}]
             [mkClient "p2" "t" "" ""] [] ∧
    to_subscription (registered_of []) (demo_session "s3" "a/b" "p3") ∈ cl_subscriptions c.
Proof.
  destruct (clients_cover_sessions (H := still_oracle) (H0 := still_order) 0 demo_sessions
    [{| ci_client_id := "c1"; ci_peer := "p1"; ci_transport := "mqtt-tcp"; ci_connected_at := "t"; ci_version := "" |}]
    [mkClient "p2" "t" "" ""] []) as (Hall & _).
  - apply (bool_decide_unpack _). vm_compute. exact I.
  - apply Hall. right; right; left.
Defined.

End HttpSpec.
