(* ===== verification/Restart.v ===== *)
(** One worker over a restart of the broker: it is shut down and the database closed
    (src/src/main.rs), then the next process opens it.  [LifecycleSpec] has the restart of
    the whole process. *)

From S2P Require Import Prelude RustStr Topic Model Effects Store Db DbInv DbSpec DbAdmin DbQuery DbOpen DbOpenSpec.
From S2P Require Import Writer WriterSpec WriterRun.
Import Model Store Db DbInv DbSpec DbAdmin DbQuery DbOpen DbOpenSpec Writer WriterSpec WriterRun.

Module Restart.

(** * The worker keeps the queue well formed *)

Section worker.
Context `{Oracle, Chrono, Serde}.
Context (arrives : nat → nat).

(** The database of a worker evolves by statements of the queue. *)
Definition worker_evolves (k k' : Worker) : Prop := evolves (k_db k) (k_db k').

#[local] Instance worker_evolves_preorder : PreOrder worker_evolves.
Proof. split; [by intros k|]. intros k1 k2 k3 H12 H23. unfold worker_evolves in *. by etrans. Qed.

Lemma evolves_on_db {A} (m : M Error Db A) : Keeps evolves m → Keeps worker_evolves (on_db m).
Proof. intros Hm w. rewrite run_on_db. specialize (Hm (mkWorld (k_db (st w)) (tick w))). by destruct (m _). Qed.

Lemma evolves_memory {A} (f : Worker → A * Worker) :
  (∀ k, k_db (f k).2 = k_db k) → Keeps (E:=Error) worker_evolves (mem f).
Proof. intros Hf. apply keeps_mem. intros k. unfold worker_evolves. by rewrite Hf. Qed.

Lemma evolves_persist fuel inputs : Forall item_ok inputs → Keeps worker_evolves (persist fuel inputs).
Proof.
  intros Hok. induction fuel as [|fuel IH]; cbn [persist]; [keeps_go|].
  apply keeps_bind; [apply _|by apply keeps_attempt, evolves_on_db, keeps_enqueue_batch|].
  intros [results|e]; [keeps_go|apply IH].
Qed.

Lemma evolves_write_enqueues fuel inputs :
  Forall item_ok inputs → Keeps worker_evolves (write_enqueues fuel inputs).
Proof.
  intros Hok. unfold write_enqueues. destruct inputs as [|input inputs]; [keeps_go|].
  apply keeps_bind; [apply _|by apply evolves_persist|intros [results|]; [|keeps_go]].
  apply keeps_bind; [apply _| |intros ?; keeps_go]. apply keeps_for_each; [apply _|].
  intros [topic [id dup]] _. cbn [snd]. destruct dup; [keeps_go|by apply evolves_memory].
Qed.

Lemma evolves_write_delivered acks : Keeps worker_evolves (write_delivered acks).
Proof.
  unfold write_delivered. destruct acks as [|ack acks]; [keeps_go|].
  apply keeps_bind; [apply _|apply keeps_attempt, evolves_on_db, keeps_delivered_batch|].
  intros [results|e]; apply keeps_for_each; try apply _; intros x _; [destruct x|]; by apply evolves_memory.
Qed.

Lemma evolves_stop response : Keeps worker_evolves (stop response).
Proof. by apply evolves_memory. Qed.

(** A batch and the rest are commands of the channel. *)
Lemma take_batch_elem n commands batch shutdown rest c :
  take_batch n commands = (batch, shutdown, rest) → c ∈ batch ∨ c ∈ rest → c ∈ commands.
Proof.
  revert n batch shutdown rest. induction commands as [|x commands IH]; intros n batch shutdown rest.
  { destruct n; cbn [take_batch]; intros [= <- <- <-]; set_solver. }
  destruct n as [|n]; cbn [take_batch]; [intros [= <- <- <-]; set_solver|].
  destruct x; try (destruct (take_batch n commands) as [[b s] r] eqn:E; intros [= <- <- <-] Hc;
    specialize (IH n b s r E); set_solver).
Qed.

Lemma evolves_run_writer rounds fuel batch_size commands :
  (∀ item, Enqueue item ∈ commands → item_ok item) →
  Keeps worker_evolves (run_writer arrives rounds fuel batch_size commands).
Proof.
  revert commands. induction rounds as [|rounds IH]; intros commands Hok; [cbn [run_writer]; keeps_go|].
  assert (∀ c rest, commands = c :: rest → Keeps worker_evolves (λ w,
    let '(batch, shutdown, rest) := take_batch (Nat.min (batch_size - 1) (arrives (tick w))) rest in
    let batch := c :: batch in
    (written ← write_enqueues fuel (enqueues batch);
     if negb written then mret None
     else
     _ ← write_delivered (acknowledgements batch);
     match shutdown with
     | Some response => _ ← stop response; mret (Some rest)
     | None => run_writer arrives rounds fuel batch_size rest
     end) w)) as Hround.
  { intros c rest ->. intros w. destruct (take_batch _ rest) as [[batch shutdown] left_] eqn:Hb.
    cbv zeta. match goal with |- worker_evolves _ (st (?m w).2) => enough (Keeps worker_evolves m) as HK by apply HK end.
    apply keeps_bind; [apply _|apply evolves_write_enqueues|intros written_].
    - apply Forall_forall. intros item (x & Hx & Hi)%list_elem_of_omap. destruct x; simplify_eq.
      apply Hok. apply elem_of_cons in Hx as [->|Hx]; [left|right; eapply take_batch_elem; eauto].
    - destruct written_; cbn [negb]; [|keeps_go].
      apply keeps_bind; [apply _|apply evolves_write_delivered|intros _].
      destruct shutdown; [apply keeps_bind; [apply _|apply evolves_stop|intros ?; keeps_go]|].
      apply IH. intros item Hi. apply Hok. right. eapply take_batch_elem; eauto. }
  destruct commands as [|[input|id lease response|response] commands]; cbn [run_writer]; [keeps_go|by apply Hround..|].
  apply keeps_bind; [apply _|apply evolves_stop|intros ?; keeps_go].
Qed.

End worker.

(** * Closing the database *)

Section closing.
Context `{Oracle, Chrono, Serde}.

Lemma shards_control_tx {A} (body : M Error Db A) : Keeps same_shards body → Keeps same_shards (control_tx body).
Proof. intros Hb. by apply keeps_transaction; [apply _|..]. Qed.

Lemma shards_flush_topic_stats : Keeps same_shards flush_topic_stats.
Proof.
  unfold flush_topic_stats. keeps_go; try done. apply shards_control_tx. keeps_go. done.
Qed.

Lemma shards_flush_message_trends : Keeps same_shards flush_message_trends.
Proof.
  unfold flush_message_trends. keeps_go; try done. apply shards_control_tx. keeps_go; done.
Qed.

Lemma shards_close : Keeps same_shards close.
Proof.
  unfold close, best_effort, ask_shard. keeps_go; [apply shards_flush_topic_stats|apply shards_flush_message_trends].
Qed.

End closing.

(** * The restart *)

(** Recovery keeps what was published. *)
Lemma stored_recovered `{Serde} s s' item r :
  (∀ i id, shard i s' !! id = recover <$> shard i s !! id) → stored s item r → stored s' item r.
Proof.
  intros Hrec (m & Hm & Hk & Hr). exists (recover m). rewrite Hrec, Hm. split; [done|].
  split; [by rewrite recover_key|]. destruct r.2; [done|]. destruct Hr as (-> & Ht & Hp & Ha & Hst & Hatt).
  unfold recover, is_status. rewrite bool_decide_eq_false_2 by (by rewrite Hst). done.
Qed.

Section restart.
Context (before_oracle after_oracle : Oracle) `{Chrono, Serde} (Horder : OrderLaws (H := after_oracle)).

(** The database as [main] leaves it: the writer has stopped, then it is closed. *)
Definition left_behind (w : World Worker) : Db :=
  st (close (H := before_oracle) (mkWorld (k_db (st w)) (tick w))).2.

(** An accepted publish survives a restart: whatever the storage answers at first,
    once it stops failing the worker ends with every publish committed that its channel
    delivered before the shutdown; after the database was closed, the next process
    opens it without error, in a well-formed state, and finds every one of these
    messages in the shard of its topic: pending, or under the idempotency key it
    shares with an earlier one. *)
Theorem accepted_survives_restart arrives N i batch_size fuel commands w before response after url k n :
  calm_from (H := before_oracle) N → (N < fuel)%nat → until_stop commands = (before, response, after) →
  committable i (enqueues before) (k_db (st w)) → db_ok (k_db (st w)) →
  (∀ item, Enqueue item ∈ commands → item_ok item) →
  calm (H := after_oracle) → sqlite_file_path url ≠ None → is_Some (k_migrated k) → current_layout k →
  ∃ w1, run_writer (H := before_oracle) arrives (length commands) fuel batch_size commands w = (Ok (Some after), w1) ∧
    (k_tables k = left_behind w1 →
     ∃ w2, connect (H := after_oracle) url (mkWorld k n) = (Ok (), w2) ∧ db_ok (k_tables (st w2)) ∧
       ∀ item, item ∈ enqueues before → ∃ r, stored (k_tables (st w2)) item r).
Proof.
  intros HN Hfuel Hstop Hc Hok Hitems Hcalm Hurl Hmig Hlay.
  destruct (run_writer_spec (H := before_oracle) arrives N i batch_size fuel HN Hfuel (length commands) commands w
    before response after) as (w1 & Hrun & _ & Hst & _); [done..|].
  exists w1. split; [done|]. intros Hk.
  pose proof (evolves_run_writer (H := before_oracle) arrives (length commands) fuel batch_size commands Hitems w) as Hev.
  rewrite Hrun in Hev. cbn [snd] in Hev. apply evolves_ok in Hev; [|done].
  pose proof (shards_close (H := before_oracle) (mkWorld (k_db (st w1)) (tick w1))) as Hcl.
  unfold same_shards in Hcl. fold (left_behind w1) in Hcl. cbn [st] in Hcl.
  assert (db_ok (left_behind w1)) as Hok1 by (unfold db_ok, shard; by rewrite Hcl).
  destruct (connect_run (H := after_oracle) Hcalm url (mkWorld k n)) as (w2 & Hopen & Hok2 & Hrec & _);
    [done|cbn [st]; by rewrite Hk|done..|].
  exists w2. split; [done|]. split; [done|]. intros item Hi. destruct (Hst item Hi) as [r Hr]. exists r.
  eapply stored_recovered; [exact Hrec|]. cbn [st]. rewrite Hk. unfold stored, shard. by rewrite Hcl.
Qed.

End restart.

(** * The property in the demonstration environment *)

Definition demo_start_worker : World Worker := mkWorld (mkWorker empty_db (mkNotes ∅ None) ∅ []) 0.

Definition demo_stopped : World Worker :=
  (run_writer (H := flaky_oracle) (H0 := demo_chrono) (H1 := demo_serde) (λ _, 2%nat) (length demo_commands) 3 500
     demo_commands demo_start_worker).2.

Definition demo_files : Disk := demo_disk (left_behind flaky_oracle (H := demo_chrono) demo_stopped).

Lemma accepted_survives_restart_witness :
  ∃ w2, connect (H := demo_oracle) (H0 := demo_chrono) "sqlite:///data/queue.db" (mkWorld demo_files 0) = (Ok (), w2) ∧
    ∀ item, item ∈ demo_items → ∃ r, stored (H1 := demo_serde) (k_tables (st w2)) item r.
Proof.
  destruct (accepted_survives_restart flaky_oracle demo_oracle (H := demo_chrono) (H0 := demo_serde) demo_order
    (λ _, 2%nat) 2 1 500 3 demo_commands demo_start_worker (map Enqueue demo_items ++ [Delivered "s01-x" "lease" 7])
    (Some 8%nat) [Shutdown 9] "sqlite:///data/queue.db" demo_files 0) as (w1 & Hrun & Hopen).
  - intros n Hn. simpl. by rewrite (proj2 (Nat.ltb_ge n 2)).
  - lia.
  - reflexivity.
  - split_and!.
    + apply (bool_decide_unpack _). by vm_compute.
    + by repeat constructor.
    + by apply (bool_decide_unpack _); vm_compute.
    + split; [done|]. intros k item Hk _. do 3 (destruct k as [|k]; [injection Hk as <-; by vm_compute|]). done.
  - exact empty_db_ok.
  - assert (Forall (λ c, if c is Enqueue item then item_ok item else True) demo_commands) as Hall.
    { unfold demo_commands, demo_items. cbn [map app]. repeat constructor; vm_compute; reflexivity. }
    intros item Hi. rewrite Forall_forall in Hall. exact (Hall _ Hi).
  - exact demo_calm.
  - by vm_compute.
  - by eexists.
  - apply (bool_decide_unpack _). by vm_compute.
  - destruct Hopen as (w2 & Hc & _ & Hst).
    + unfold demo_files, demo_stopped. by rewrite Hrun.
    + exists w2. split; [exact Hc|]. exact Hst.
Defined.

End Restart.
