(* ===== verification/Net.v ===== *)
(** The addresses of MQTT WebSocket clients behind a proxy: src/src/mqtt/mod.rs,
    [websocket_peer], over the parser and the printer of Rust's [std::net] addresses.

    A parser takes the text that is left and gives a value with the rest; failing, it
    leaves the text as it was ([read_atomically]). *)

From S2P Require Import Prelude RustStr.

Module Net.

(** * Addresses *)

(** [IpAddr], by its octets or its segments. *)
Inductive IpAddr := V4 (octets : list Z) | V6 (segments : list Z).

Definition ip_ok (ip : IpAddr) : Prop :=
  match ip with
  | V4 octets => length octets = 4%nat ∧ Forall is_u8 octets
  | V6 segments => length segments = 8%nat ∧ Forall is_u16 segments
  end.

(** [SocketAddr]; the scope is that of an IPv6 address. *)
Record SocketAddr := mkSocket { so_ip : IpAddr; so_port : Z; so_scope : Z }.

#[export] Instance ip_eq_dec : EqDecision IpAddr.
Proof. solve_decision. Defined.

(** * The parser of [std::net] *)

Definition Parser (A : Type) : Type := string → option (A * string).

(** [char::to_digit]. *)
Definition to_digit (radix : Z) (c : ascii) : option Z :=
  let b := byte_of c in
  let digit := if in_range 48 57 b then Some (b - 48)
               else if in_range 97 122 b then Some (b - 87)
               else if in_range 65 90 b then Some (b - 55)
               else None in
  d ← digit; if d <? radix then Some d else None.

(** The loop of [read_number]: value and number of the digits; [ok] is its check after
    each digit. *)
Fixpoint read_digits (radix : Z) (ok : nat → Z → bool) (result : Z) (count : nat) (s : string)
    : option (Z * nat * string) :=
  match s with
  | String c rest =>
      match to_digit radix c with
      | Some d =>
          let result := result * radix + d in
          if ok (S count) result then read_digits radix ok result (S count) rest else None
      | None => Some (result, count, s)
      end
  | EmptyString => Some (result, count, s)
  end.

(** [read_number] of a type with the values up to [max]: at most so many digits, or
    checked arithmetic. *)
Definition read_number (radix : Z) (max_digits : option nat) (allow_zero_prefix : bool) (max : Z) : Parser Z := λ s,
  let has_leading_zero := if s is String "0" _ then true else false in
  let ok count result := match max_digits with
                         | Some n => (count <=? n)%nat
                         | None => result <=? max
                         end in
  '(result, count, rest) ← read_digits radix ok 0 0 s;
  if (count =? 0)%nat then None
  else if negb allow_zero_prefix && has_leading_zero && (1 <? count)%nat then None
  else if result <=? max then Some (result, rest) else None.

Definition read_given_char (c : ascii) : Parser () := λ s,
  match s with
  | String a rest => if decide (a = c) then Some ((), rest) else None
  | EmptyString => None
  end.

(** [read_separator]: [inner], after a separator unless it is the first. *)
Definition read_separator {A} (sep : ascii) (index : nat) (inner : Parser A) : Parser A := λ s,
  match index with
  | O => inner s
  | _ => '(_, s) ← read_given_char sep s; inner s
  end.

(** The loop of [read_ipv4_addr]. *)
Fixpoint read_octets (more index : nat) : Parser (list Z) := λ s,
  match more with
  | O => Some ([], s)
  | S more =>
      '(octet, s) ← read_separator "." index (read_number 10 (Some 3%nat) false U8_MAX) s;
      '(octets, s) ← read_octets more (S index) s;
      Some (octet :: octets, s)
  end.
Definition read_ipv4_addr : Parser (list Z) := read_octets 4 0.

(** [u16::from_be_bytes] on both halves of an IPv4 address. *)
Definition embed (octets : list Z) : list Z :=
  match octets with
  | [a; b; c; d] => [a * 256 + b; c * 256 + d]
  | _ => []
  end.

(** [read_groups] for [more] more groups: the groups, whether they end with an IPv4
    address, and the rest. *)
Fixpoint read_groups (more index : nat) (s : string) : list Z * bool * string :=
  match more with
  | O => ([], false, s)
  | S more =>
      let ipv4 := if more is S _ then read_separator ":" index read_ipv4_addr s else None in
      match ipv4 with
      | Some (octets, s) => (embed octets, true, s)
      | None =>
          match read_separator ":" index (read_number 16 (Some 4%nat) true U16_MAX) s with
          | Some (group, s) =>
              let '(groups, ipv4, s) := read_groups more (S index) s in (group :: groups, ipv4, s)
          | None => ([], false, s)
          end
      end
  end.

Definition read_ipv6_addr : Parser (list Z) := λ s,
  let '(head, head_ipv4, s) := read_groups 8 0 s in
  if (length head =? 8)%nat then Some (head, s)
  else if head_ipv4 : bool then None
  else
  '(_, s) ← read_given_char ":" s;
  '(_, s) ← read_given_char ":" s;
  let '(tail, _, s) := read_groups (8 - (length head + 1)) 0 s in
  Some (head ++ replicate (8 - length head - length tail) 0 ++ tail, s).

Definition read_ip_addr : Parser IpAddr := λ s,
  match read_ipv4_addr s with
  | Some (octets, s) => Some (V4 octets, s)
  | None => '(segments, s) ← read_ipv6_addr s; Some (V6 segments, s)
  end.

Definition read_port : Parser Z := λ s,
  '(_, s) ← read_given_char ":" s; read_number 10 None true U16_MAX s.

Definition read_scope_id : Parser Z := λ s,
  '(_, s) ← read_given_char "%" s; read_number 10 None true (2 ^ 32 - 1) s.

Definition read_socket_addr_v4 : Parser SocketAddr := λ s,
  '(octets, s) ← read_ipv4_addr s;
  '(port, s) ← read_port s;
  Some (mkSocket (V4 octets) port 0, s).

Definition read_socket_addr_v6 : Parser SocketAddr := λ s,
  '(_, s) ← read_given_char "[" s;
  '(segments, s) ← read_ipv6_addr s;
  let '(scope, s) := default (0, s) (read_scope_id s) in
  '(_, s) ← read_given_char "]" s;
  '(port, s) ← read_port s;
  Some (mkSocket (V6 segments) port scope, s).

Definition read_socket_addr : Parser SocketAddr := λ s,
  match read_socket_addr_v4 s with Some r => Some r | None => read_socket_addr_v6 s end.

(** [parse_with]: nothing is left. *)
Definition parse_with {A} (inner : Parser A) (s : string) : option A :=
  '(a, rest) ← inner s; if is_empty rest then Some a else None.

(** * The printer *)

(** [char::from_digit]. *)
Definition from_digit (d : Z) : ascii := char_of (if d <? 10 then 48 + d else 87 + d).

(** A number without leading zeros; ten digits cover 32 bits. *)
Fixpoint print_radix (radix : Z) (fuel : nat) (n : Z) : string :=
  match fuel with
  | O => ""
  | S fuel =>
      if n <? radix then String (from_digit n) ""
      else print_radix radix fuel (n / radix) +:+ String (from_digit (n mod radix)) ""
  end.
Definition decimal (n : Z) : string := print_radix 10 10 n.
Definition hex (n : Z) : string := print_radix 16 10 n.

(** The longest run of zero segments, the first of several: its start and its length. *)
Definition zero_run (segments : list Z) : nat * nat :=
  (foldl (λ '(i, current, longest) segment,
     let current : nat * nat := if segment =? 0 then (if (current.2 =? 0)%nat then i else current.1, S current.2) else (0, 0)%nat in
     (S i, current, if (longest.2 <? current.2)%nat then current else longest))
   (0%nat, (0, 0)%nat, (0, 0)%nat) segments).2.

(** [to_ipv4_mapped]. *)
Definition mapped (segments : list Z) : option (list Z) :=
  match segments with
  | [a; b; c; d; e; f; g; h] =>
      if forallb (Z.eqb 0) [a; b; c; d; e] && (f =? U16_MAX)
      then Some [g / 256; g mod 256; h / 256; h mod 256] else None
  | _ => None
  end.

Definition print_ipv4 (octets : list Z) : string := join "." (map decimal octets).
Definition print_groups (segments : list Z) : string := join ":" (map hex segments).

Definition print_ipv6 (segments : list Z) : string :=
  match mapped segments with
  | Some octets => "::ffff:" +:+ print_ipv4 octets
  | None =>
      let '(start, len) := zero_run segments in
      if (1 <? len)%nat
      then print_groups (take start segments) +:+ "::" +:+ print_groups (drop (start + len) segments)
      else print_groups segments
  end.

Definition print_ip (ip : IpAddr) : string :=
  match ip with V4 octets => print_ipv4 octets | V6 segments => print_ipv6 segments end.

Definition print_socket (a : SocketAddr) : string :=
  match so_ip a with
  | V4 octets => print_ipv4 octets +:+ ":" +:+ decimal (so_port a)
  | V6 segments =>
      "[" +:+ print_ipv6 segments +:+ (if so_scope a =? 0 then "" else "%" +:+ decimal (so_scope a))
      +:+ "]:" +:+ decimal (so_port a)
  end.

(** * [websocket_peer] *)

Definition QUOTE : ascii := "034".

(** [normalize_forwarded_ip]. *)
Definition normalize_forwarded_ip (value : string) : option string :=
  let value := trim_matches QUOTE (trim value) in
  match parse_with read_socket_addr value with
  | Some addr => Some (print_ip (so_ip addr))
  | None =>
      let unbracketed := default value (rest ← strip_prefix "[" value; strip_suffix "]" rest) in
      print_ip <$> parse_with read_ip_addr unbracketed
  end.

(** [websocket_peer]; a header is the text [to_str] yields for it, if any. *)
Definition websocket_peer (headers : gmap string string) (socket_peer : option SocketAddr) : string :=
  let forwarded := value ← headers !! "x-forwarded-for"; first ← head (split "," value); normalize_forwarded_ip first in
  match forwarded with
  | Some ip => ip
  | None =>
      match headers !! "x-real-ip" ≫= normalize_forwarded_ip with
      | Some ip => ip
      | None => default "mqtt-ws" (print_socket <$> socket_peer)
      end
  end.

End Net.
