(* ===== verification/Transport.v ===== *)
(** The MQTT connections: src/src/mqtt/mod.rs, the TCP listener and the WebSocket
    upgrade, and src/src/mqtt/session.rs, [run_tcp] and [run_ws].

    A connection is what its peer sends.  Its read loop hands packets to its session
    through a channel, which is closed when the loop ends; the scheduler decides when
    the session takes one. *)

From S2P Require Import Prelude RustStr Codec Effects Subscribers Delivery Session SessionSpec Net.
Import Codec Delivery Session SessionSpec Net.

Module Transport.

(** * A connection *)

(** A turn of the session: it receives from the channel, or something else happens. *)
Inductive Turn := Receive | Else (e : SessionEvent).

(** What the session meets when the channel delivers [packets] and then closes. *)
Fixpoint meets (packets : list Packet) (turns : list Turn) : list SessionEvent :=
  match turns with
  | [] => []
  | Receive :: turns =>
      match packets with
      | packet :: packets => Incoming packet :: meets packets turns
      | [] => InputEnd :: meets [] turns
      end
  | Else e :: turns => e :: meets packets turns
  end.

(** The [accept] of a listener: a peer with its connection, or an error; or the
    shutdown. *)
Inductive ListenerEvent :=
  | Accepted (accepted : result string (SocketAddr * list ReadEvent))
  | Cancelled.

(** [serve_tcp]: the sessions it spawns, with the names of their peers, and its result,
    which is missing while it is accepting. *)
Fixpoint serve_tcp (events : list ListenerEvent) : list (string * list ReadEvent) * option (result string ()) :=
  match events with
  | [] => ([], None)
  | Cancelled :: _ => ([], Some (Ok ()))
  | Accepted (Err error) :: _ => ([], Some (Err error))
  | Accepted (Ok (peer, stream)) :: events =>
      let '(sessions, result) := serve_tcp events in ((print_socket peer, stream) :: sessions, result)
  end.

(** An error of [accept] ends the listener: the connections before it are served, and
    none after it. *)
Lemma accept_error_ends_listener connections error later :
  serve_tcp (map (λ c, Accepted (Ok c)) connections ++ Accepted (Err error) :: later) =
  (map (λ '(peer, stream), (print_socket peer, stream)) connections, Some (Err error)).
Proof. induction connections as [|[peer stream] connections IH]; [done|]. cbn [map app serve_tcp]. by rewrite IH. Qed.

Section connection.
Context `{Oracle, Chrono, Serde}.
Context (accepts : nat → bool) (config : MqttConfig).
Context (post : nat → string → MqttAuthRequest → option Z) (takes : nat → bool).

Abbreviation MS := (M Error Session).

(** [run_session] on the channel of its packets; [timely] says whether the first one
    comes within fifteen seconds. *)
Definition session_on (timely : bool) (packets : list Packet) (peer transport : string) (turns : list Turn) : MS () :=
  if negb timely then run_session accepts config post takes None peer transport []
  else
  match packets with
  | [] => fail (Failure "mqtt connection closed before CONNECT")
  | first :: packets => run_session accepts config post takes (Some first) peer transport (meets packets turns)
  end.

(** [run_tcp]. *)
Definition run_tcp (timely : bool) (stream : list ReadEvent) (peer : string) (turns : list Turn) : MS () :=
  session_on timely (tcp_read_loop (λ _, true) 0 [] stream) peer "mqtt" turns.

(** [run_ws]. *)
Definition run_ws (timely : bool) (stream : list WsEvent) (peer : string) (turns : list Turn) : MS () :=
  session_on timely (ws_read_loop (λ _, true) 0 [] stream) peer "mqtt-ws" turns.

(** [ws_handler], after the upgrade. *)
Definition ws_handler (headers : gmap string string) (peer : option SocketAddr) (timely : bool)
    (stream : list WsEvent) (turns : list Turn) : MS () :=
  run_ws timely stream (websocket_peer headers peer) turns.

(** * The transports carry packets *)

(** C5: MQTT over TCP and over WebSocket is MQTT on packets: when a peer sends
    well-formed packets within the size limit, its session runs exactly as on the
    sequence of these packets, whatever reads or frames the transport makes of the
    bytes, pings and pongs between them, and whenever the scheduler lets the session
    receive; the first packet is its handshake and the end of the bytes the end of its
    input. *)
Theorem connection_serves_packets first packets stream ws_stream headers socket peer turns :
  Forall sendable (first :: packets) →
  stream_bytes stream = concat (map encode (first :: packets)) →
  ws_bytes ws_stream = concat (map encode (first :: packets)) →
  run_tcp true stream peer turns = run_session accepts config post takes (Some first) peer "mqtt" (meets packets turns) ∧
  ws_handler headers socket true ws_stream turns =
    run_session accepts config post takes (Some first) (websocket_peer headers socket) "mqtt-ws" (meets packets turns).
Proof.
  intros Hs Htcp Hws. unfold run_tcp, ws_handler, run_ws, session_on. cbn [negb].
  by rewrite tcp_read_loop_rounds, ws_read_loop_rounds, Htcp, Hws, !app_nil_l, rounds_encode.
Qed.

End connection.

(** * The property in the demonstration environment *)

Definition demo_packets : list Packet := [PConnect demo_connect; PPingReq].
Definition demo_bytes : list Z := concat (map encode demo_packets).

Lemma connection_serves_packets_witness :
  run_tcp (H := demo_oracle) (H0 := demo_chrono) (λ _, true) demo_mqtt no_post (λ _, true) true
    [Data (take 3 demo_bytes); Data (drop 3 demo_bytes); Eof] "peer" [Else WriteTurn; Receive; Receive] =
  run_session (H := demo_oracle) (H0 := demo_chrono) (λ _, true) demo_mqtt no_post (λ _, true)
    (Some (PConnect demo_connect)) "peer" "mqtt" [WriteTurn; Incoming PPingReq; InputEnd].
Proof.
  destruct (connection_serves_packets (H := demo_oracle) (H0 := demo_chrono) (λ _, true) demo_mqtt no_post (λ _, true)
    (PConnect demo_connect) [PPingReq] [Data (take 3 demo_bytes); Data (drop 3 demo_bytes); Eof]
    [WsBinary (take 5 demo_bytes); WsPing; WsBinary (drop 5 demo_bytes)] ∅ None "peer" [Else WriteTurn; Receive; Receive])
    as [Htcp _].
  - apply Forall_cons. split; [|by repeat constructor]. split; [|by vm_compute].
    split; [by right|]. split; [by vm_compute|]. split; [by vm_compute|]. split; [|done].
    intros u Hu. injection Hu as <-. by vm_compute.
  - vm_compute. reflexivity.
  - vm_compute. reflexivity.
  - exact Htcp.
Defined.

End Transport.
