(* ===== verification/NetSpec.v ===== *)
(** What [websocket_peer] records: every way of writing an address is read back as that
    address, so a client is known by the canonical text of the address its proxy
    forwarded (src/src/mqtt/mod.rs). *)

From S2P Require Import Prelude RustStr Net.
Import Net.

Module NetSpec.

(** * Numbers *)

Lemma to_from_digit radix d : 0 <= d < radix → radix <= 36 → to_digit radix (from_digit d) = Some d.
Proof.
  intros Hd Hr.
  assert (to_digit 36 (from_digit d) = Some d) as H.
  { apply (below_decide 36 (λ d, to_digit 36 (from_digit d) = Some d)); [by vm_compute|lia]. }
  unfold to_digit in *. destruct (if in_range 48 57 _ then _ else _) as [x|]; simpl in *; [|done].
  destruct (x <? 36); [|done]. injection H as ->. by rewrite (proj2 (Z.ltb_lt _ _)) by lia.
Qed.

(** A character no number continues with. *)
Definition stops (radix : Z) (s : string) : Prop :=
  match s with String c _ => to_digit radix c = None | EmptyString => True end.

Lemma read_digits_stop radix ok result count s :
  stops radix s → read_digits radix ok result count s = Some (result, count, s).
Proof. destruct s as [|c s]; simpl; [done|]. by intros ->. Qed.

Lemma length_snoc s c : String.length (s +:+ String c "") = S (String.length s).
Proof. induction s; simpl; lia. Qed.

Lemma read_digits_print radix ok fuel n result count rest :
  2 <= radix <= 36 → 0 <= n < radix ^ Z.of_nat fuel → (0 < fuel)%nat → 0 <= result →
  let k := String.length (print_radix radix fuel n) in
  let v := result * radix ^ Z.of_nat k + n in
  (∀ c x, (c <= count + k)%nat → x <= v → ok c x = true) →
  read_digits radix ok result count (print_radix radix fuel n +:+ rest) = read_digits radix ok v (count + k)%nat rest.
Proof.
  revert n count rest. induction fuel as [|fuel IH]; intros n count rest Hr Hn Hf Hres; [lia|].
  cbn [print_radix]. destruct (Z.ltb_spec n radix) as [Hlt|Hge]; cbn zeta.
  - intros Hok. cbn [String.append String.length read_digits]. rewrite to_from_digit by lia.
    cbn [String.length] in Hok. change (Z.of_nat 1) with 1 in *. rewrite Z.pow_1_r in *.
    rewrite Hok by lia. f_equal. lia.
  - rewrite length_snoc. set (k := String.length (print_radix radix fuel (n / radix))). intros Hok.
    rewrite Nat2Z.inj_succ, Z.pow_succ_r in Hn by lia.
    rewrite Nat2Z.inj_succ, Z.pow_succ_r in * by lia.
    pose proof (Z.mod_pos_bound n radix ltac:(lia)). pose proof (Z.div_mod n radix ltac:(lia)) as Hdm.
    assert (n / radix < radix ^ Z.of_nat fuel) by (apply Z.div_lt_upper_bound; lia).
    assert (0 < n / radix) by (apply Z.div_str_pos; lia).
    assert (fuel ≠ 0%nat) by (intros ->; change (radix ^ Z.of_nat 0) with 1 in *; lia).
    assert (0 <= result * radix ^ Z.of_nat k) by (apply Z.mul_nonneg_nonneg; [done|apply Z.pow_nonneg; lia]).
    rewrite string_app_assoc, IH; [|lia..|].
    + fold k. cbn [String.append read_digits]. rewrite to_from_digit by lia.
      rewrite Hok by nia. f_equal; [nia|lia].
    + fold k. intros c x Hc Hx. apply Hok; [lia|]. nia.
Qed.

Lemma print_radix_length radix fuel n k :
  2 <= radix → 0 <= n < radix ^ Z.of_nat k → (0 < k)%nat → (String.length (print_radix radix fuel n) <= k)%nat.
Proof.
  intros Hr. revert n k. induction fuel as [|fuel IH]; intros n k Hn Hk; simpl; [lia|].
  destruct (Z.ltb_spec n radix); simpl; [lia|]. rewrite length_snoc.
  destruct k as [|k]; [lia|]. rewrite Nat2Z.inj_succ, Z.pow_succ_r in Hn by lia.
  assert (k ≠ 0%nat) by (intros ->; change (radix ^ Z.of_nat 0) with 1 in *; lia).
  apply le_n_S, IH; [|lia]. split; [apply Z.div_pos; lia|]. apply Z.div_lt_upper_bound; lia.
Qed.

(** A printed number starts with a digit, and with a zero only if it is zero. *)
Lemma print_radix_first radix fuel n :
  2 <= radix <= 36 → 0 <= n < radix ^ Z.of_nat fuel → (0 < fuel)%nat →
  ∃ d s, 0 <= d < radix ∧ print_radix radix fuel n = String (from_digit d) s ∧ (d = 0 → n = 0 ∧ s = "").
Proof.
  intros Hr. revert n. induction fuel as [|fuel IH]; intros n Hn Hf; [lia|]. cbn [print_radix].
  destruct (Z.ltb_spec n radix) as [|Hge]; [exists n, ""; by split; [lia|]|].
  rewrite Nat2Z.inj_succ, Z.pow_succ_r in Hn by lia.
  assert (fuel ≠ 0%nat) by (intros ->; change (radix ^ Z.of_nat 0) with 1 in *; lia).
  assert (0 < n / radix) by (apply Z.div_str_pos; lia).
  assert (n / radix < radix ^ Z.of_nat fuel) by (apply Z.div_lt_upper_bound; lia).
  destruct (IH (n / radix)) as (d & s & Hd & Hs & Hz); [lia..|]. exists d. rewrite Hs.
  eexists. split_and!; [lia..|done|]. intros [? _]%Hz. lia.
Qed.

(** A printed number is read back, up to a character that is not a digit. *)
Lemma read_number_print radix k max_digits allow_zero max n rest :
  2 <= radix <= 36 → 0 <= n <= max → max < radix ^ Z.of_nat k → (0 < k <= 10)%nat →
  max_digits = Some k ∨ max_digits = None → stops radix rest →
  read_number radix max_digits allow_zero max (print_radix radix 10 n +:+ rest) = Some (n, rest).
Proof.
  intros Hr Hn Hmax Hk Hmd Hrest.
  assert (max < radix ^ Z.of_nat 10) by (pose proof (Z.pow_le_mono_r radix (Z.of_nat k) (Z.of_nat 10)); lia).
  pose proof (print_radix_length radix 10 n k ltac:(lia) ltac:(lia) ltac:(lia)) as Hlen.
  destruct (print_radix_first radix 10 n) as (d & s & Hd & Hs & Hz); [lia..|].
  unfold read_number. rewrite read_digits_print; [|lia..|].
  - rewrite read_digits_stop by done. cbn [mbind option_bind]. rewrite !Z.mul_0_l, !Z.add_0_l, Nat.add_0_l.
    rewrite Hs in *. cbn [String.length String.append Nat.eqb]. rewrite (proj2 (Z.leb_le n max)) by lia.
    destruct (decide (d = 0)) as [Hd0|Hd0].
    + destruct (Hz Hd0) as [_ ->]. by rewrite andb_false_r.
    + assert (from_digit d ≠ "0"%char) as Hne.
      { intros E. assert (to_digit radix (from_digit d) = Some d) as E1 by (apply to_from_digit; lia).
        rewrite E in E1. change "0"%char with (from_digit 0) in E1. rewrite to_from_digit in E1 by lia.
        by injection E1. }
      assert ((if String (from_digit d) (s +:+ rest) is String "0" _ then true else false) = false) as ->.
      { by destruct (from_digit d) as [[] [] [] [] [] [] [] []]. }
      by rewrite andb_false_r.
  - intros c x Hc Hx. destruct Hmd as [-> | ->]; [apply Nat.leb_le; lia|apply Z.leb_le; lia].
Qed.

(** What is left after a number is a part of the text. *)
Lemma read_digits_rest radix ok result count s v k rest c :
  read_digits radix ok result count s = Some (v, k, rest) → contains c s = false → contains c rest = false.
Proof.
  revert result count. induction s as [|a s IH]; simpl; intros result count H Hc; [by simplify_eq|].
  destruct (to_digit radix a) as [d|].
  - destruct (ok _ _); [|done]. apply orb_false_iff in Hc as [_ Hc]. by eapply IH.
  - injection H as <- <- <-. done.
Qed.

(** * Addresses *)

(** Every character of a text passes a test. *)
Fixpoint every (p : ascii → bool) (s : string) : bool :=
  match s with
  | EmptyString => true
  | String a s => p a && every p s
  end.

Lemma every_app p s t : every p (s +:+ t) = every p s && every p t.
Proof. induction s as [|a s IH]; simpl; [done|]. by rewrite IH, andb_assoc. Qed.

Lemma every_join p sep ps : p sep = true → Forall (λ t, every p t = true) ps → every p (join sep ps) = true.
Proof.
  intros Hp. induction 1 as [|t ps Ht Hps IH]; [done|]. destruct ps as [|q ps]; [done|].
  change (join sep (t :: q :: ps)) with (t +:+ String sep (join sep (q :: ps))).
  rewrite every_app, Ht. cbn [andb every]. by rewrite Hp.
Qed.

Lemma every_impl (p q : ascii → bool) s : (∀ a, p a = true → q a = true) → every p s = true → every q s = true.
Proof.
  intros Hpq. induction s as [|a s IH]; [done|]. simpl. rewrite !andb_true_iff. intros [? ?]. auto.
Qed.

Lemma every_contains p s c : every p s = true → p c = false → contains c s = false.
Proof.
  intros Hs Hc. induction s as [|a s IH]; [done|]. simpl in *. apply andb_true_iff in Hs as [Ha Hs].
  rewrite IH by done. rewrite bool_decide_false; [done|congruence].
Qed.

Lemma every_print p radix fuel n :
  2 <= radix → 0 <= n → (∀ d, 0 <= d < radix → p (from_digit d) = true) → every p (print_radix radix fuel n) = true.
Proof.
  intros Hr Hn Hp. revert n Hn. induction fuel as [|fuel IH]; intros n Hn; [done|]. cbn [print_radix].
  destruct (Z.ltb_spec n radix); simpl; [by rewrite Hp|].
  rewrite every_app, IH by (apply Z.div_pos; lia). simpl.
  pose proof (Z.mod_pos_bound n radix ltac:(lia)). by rewrite Hp.
Qed.

(** The characters of groups, and those of any address. *)
Definition group_char (a : ascii) : bool :=
  in_range 48 57 (byte_of a) || in_range 97 102 (byte_of a) || bool_decide (a = ":"%char).
Definition ip_char (a : ascii) : bool := group_char a || bool_decide (a = "."%char).

Lemma every_groups segments : Forall is_u16 segments → every group_char (print_groups segments) = true.
Proof.
  intros Hs. apply every_join; [done|]. apply Forall_map. eapply Forall_impl; [done|]. intros n [? _].
  apply every_print; [lia|done|]. intros d Hd.
  apply (below_decide 16 (λ d, group_char (from_digit d) = true)); [by vm_compute|lia].
Qed.

Lemma every_ipv4 octets : Forall is_u8 octets → every ip_char (print_ipv4 octets) = true.
Proof.
  intros Hs. apply every_join; [done|]. apply Forall_map. eapply Forall_impl; [done|]. intros n [? _].
  apply every_print; [lia|done|]. intros d Hd.
  apply (below_decide 10 (λ d, ip_char (from_digit d) = true)); [by vm_compute|lia].
Qed.

Lemma contains_app c s t : contains c (s +:+ t) = contains c s || contains c t.
Proof. induction s as [|a s IH]; simpl; [done|]. by rewrite IH, orb_assoc. Qed.

(** A text without a dot is not an IPv4 address. *)
Lemma no_dot_ipv4 s : contains "." s = false → read_ipv4_addr s = None.
Proof.
  intros Hs. unfold read_ipv4_addr. cbn [read_octets read_separator].
  destruct (read_number 10 _ _ _ s) as [[v rest]|] eqn:E; [|done]. cbn [mbind option_bind].
  assert (contains "." rest = false) as Hr.
  { unfold read_number in E. destruct (read_digits _ _ _ _ s) as [[[x k] r]|] eqn:Ed; [|done].
    cbn [mbind option_bind] in E. destruct (k =? 0)%nat; [done|].
    destruct (_ && _); [done|]. destruct (_ <=? _); [|done]. injection E as _ <-.
    by eapply read_digits_rest. }
  destruct rest as [|c rest]; [done|]. cbn [read_given_char].
  simpl in Hr. apply orb_false_iff in Hr as [Hc%bool_decide_eq_false _]. by rewrite decide_False.
Qed.

Lemma read_octet n rest :
  is_u8 n → stops 10 rest → read_number 10 (Some 3%nat) false U8_MAX (decimal n +:+ rest) = Some (n, rest).
Proof. intros [? ?] Hs. apply (read_number_print 10 3); [lia|done|done|lia|by left|done]. Qed.

Lemma read_group n rest :
  is_u16 n → stops 16 rest → read_number 16 (Some 4%nat) true U16_MAX (hex n +:+ rest) = Some (n, rest).
Proof. intros [? ?] Hs. apply (read_number_print 16 4); [lia|done|done|lia|by left|done]. Qed.

Lemma read_ipv4_print octets rest :
  length octets = 4%nat → Forall is_u8 octets → stops 10 rest →
  read_ipv4_addr (print_ipv4 octets +:+ rest) = Some (octets, rest).
Proof.
  intros Hl Ho Hs. destruct octets as [|a [|b [|c [|d []]]]]; try done.
  repeat (apply Forall_cons in Ho as [? Ho]). unfold print_ipv4, read_ipv4_addr.
  cbn [map join]. rewrite !string_app_assoc. cbn [String.append]. rewrite !string_app_assoc. cbn [String.append].
  rewrite !string_app_assoc. cbn [String.append read_octets read_separator].
  do 3 (rewrite read_octet by done; cbn [mbind option_bind read_given_char]; rewrite decide_True by done;
        cbn [mbind option_bind]).
  by rewrite read_octet.
Qed.

(** * IPv6 *)

(** What follows a list of groups: the end, the compressed zeros or the end of brackets. *)
Definition after_groups (rest : string) : Prop :=
  rest = "" ∨ (∃ t, rest = "::" +:+ t) ∨ (∃ t, rest = "]" +:+ t) ∨ (∃ t, rest = "%" +:+ t).

Lemma after_stops radix rest : radix <= 16 → after_groups rest → stops radix rest.
Proof. intros _ [-> | [(t & ->) | [(t & ->) | (t & ->)]]]; done. Qed.

(** The groups of an address from its [index]-th on. *)
Definition more_groups (index : nat) (segments : list Z) : string :=
  match index, segments with
  | S _, _ :: _ => ":" +:+ print_groups segments
  | _, _ => print_groups segments
  end.

Lemma print_groups_cons g gs : print_groups (g :: gs) = hex g +:+ more_groups 1 gs.
Proof. destruct gs; simpl; by rewrite ?string_app_nil_r. Qed.

Lemma stops_more index gs rest :
  after_groups rest → stops 16 (more_groups (S index) gs +:+ rest).
Proof. intros Hr. destruct gs; [by apply after_stops|done]. Qed.

(** Where the groups end no other one can be read. *)
Lemma read_groups_end more index rest : after_groups rest → read_groups more index rest = ([], false, rest).
Proof.
  destruct more as [|more]; [done|].
  intros [-> | [(t & ->) | [(t & ->) | (t & ->)]]]; destruct index, more; reflexivity.
Qed.

(** Groups are read back when no dot follows that would make them an IPv4 address. *)
Lemma read_groups_print more index gs rest :
  Forall is_u16 gs → (length gs <= more)%nat → after_groups rest → contains "." rest = false →
  read_groups more index (more_groups index gs +:+ rest) = (gs, false, rest).
Proof.
  intros Hgs Hlen Hrest Hdot. revert more index Hlen.
  induction Hgs as [|g gs Hg Hgs IH]; intros more index Hlen.
  { replace (more_groups index [] +:+ rest) with rest by (by destruct index). by apply read_groups_end. }
  destruct more as [|more]; [simpl in Hlen; lia|]. simpl in Hlen.
  set (text := hex g +:+ (more_groups 1 gs +:+ rest)).
  assert (more_groups index (g :: gs) +:+ rest = (if index is S _ then ":" else "") +:+ text) as ->.
  { unfold text. rewrite <-(string_app_assoc (hex g)), <-print_groups_cons. by destruct index. }
  assert (contains "." text = false) as Htext.
  { unfold text. rewrite <-(string_app_assoc (hex g)), <-print_groups_cons, contains_app, Hdot.
    by rewrite (every_contains group_char) by (done || by apply every_groups; constructor). }
  assert (∀ A (inner : Parser A), read_separator ":" index inner ((if index is S _ then ":" else "") +:+ text) = inner text)
    as Hsep by (intros A inner; by destruct index).
  cbn [read_groups]. rewrite !Hsep, no_dot_ipv4 by done.
  replace (match more with 0%nat => None | S _ => None end) with (@None (list Z * string)) by (by destruct more).
  unfold text. rewrite read_group by (done || by apply (stops_more 0)).
  change (more_groups 1 gs) with (more_groups (S index) gs) at 1. rewrite IH by lia. done.
Qed.

(** A run of zeros. *)
Definition run (segments : list Z) (r : nat * nat) : Prop :=
  (r.1 + r.2 <= length segments)%nat ∧ take r.2 (drop r.1 segments) = replicate r.2 0.

Lemma run_snoc segments x r : run segments r → run (segments ++ [x]) r.
Proof.
  intros [Hl Hr]. split; [rewrite length_app; simpl; lia|].
  rewrite drop_app_le, take_app_le; [done|rewrite length_drop; lia|lia].
Qed.

Lemma run_extend segments r : run segments r → (r.1 + r.2 = length segments)%nat → run (segments ++ [0]) (r.1, S r.2).
Proof.
  intros [Hl Hr] He. split; simpl; [rewrite length_app; simpl; lia|].
  rewrite drop_app_le by lia. rewrite take_ge by (rewrite length_app, length_drop; simpl; lia).
  rewrite take_ge in Hr by (rewrite length_drop; lia). rewrite Hr.
  by rewrite <-(replicate_S_end r.2 (0:Z)).
Qed.

Lemma zero_run_run segments : run segments (zero_run segments).
Proof.
  unfold zero_run. set (step := λ '(i, current, longest) segment, _).
  assert (let '(i, current, longest) := foldl step (0%nat, (0, 0)%nat, (0, 0)%nat) segments in
          i = length segments ∧ run segments longest ∧
          (current.2 ≠ 0%nat → run segments current ∧ (current.1 + current.2)%nat = i)) as H.
  { induction segments as [|x segments IH] using rev_ind; [done|].
    rewrite foldl_app. destruct (foldl step _ segments) as [[i current] longest]. cbn [foldl].
    destruct IH as (-> & Hl & Hc). unfold step.
    assert (∀ c : nat * nat, run (segments ++ [x]) c →
            run (segments ++ [x]) (if (longest.2 <? c.2)%nat then c else longest)) as Hmax.
    { intros c Hr. destruct (_ <? _)%nat; [done|by apply run_snoc]. }
    rewrite length_app, Nat.add_1_r. destruct (Z.eqb_spec x 0) as [->|]; cbn zeta.
    - set (c := (_, _)). assert (run (segments ++ [0]) c ∧ (c.1 + c.2)%nat = S (length segments)) as [Hr He].
      { unfold c. destruct (Nat.eqb_spec current.2 0) as [E|E]; simpl.
        - rewrite E. split; [|lia]. apply (run_extend segments (length segments, 0%nat)); [|simpl; lia].
          split; simpl; [lia|]. by rewrite drop_all.
        - destruct (Hc E) as [Hr He]. split; [by apply run_extend|lia]. }
      split_and!; [done|by apply Hmax|done].
    - split_and!; [done|by apply run_snoc|done]. }
  destruct (foldl step _ segments) as [[i current] longest]. by destruct H as (_ & ? & _).
Qed.

Lemma run_split segments start len :
  run segments (start, len) → segments = take start segments ++ replicate len 0 ++ drop (start + len) segments.
Proof.
  intros [Hl Hr]. simpl in *. rewrite <-Hr, <-drop_drop, take_drop, take_drop. done.
Qed.

Lemma mapped_spec segments octets :
  mapped segments = Some octets → Forall is_u16 segments →
  length octets = 4%nat ∧ Forall is_u8 octets ∧ segments = replicate 5 0 ++ U16_MAX :: embed octets.
Proof.
  intros H Hs. destruct segments as [|a [|b [|c [|d [|e [|f [|g [|h []]]]]]]]]; try done. cbn [mapped] in H.
  destruct (forallb _ _ && _) eqn:E; [|done]. injection H as <-. apply andb_true_iff in E as [E ->%Z.eqb_eq].
  cbn [forallb] in E. rewrite !andb_true_iff, !Z.eqb_eq in E. destruct E as (<- & <- & <- & <- & <- & _).
  do 6 (apply Forall_cons in Hs as [_ Hs]). apply Forall_cons in Hs as [[? Hg] Hs]. apply Forall_cons in Hs as [[? Hh] _].
  unfold U16_MAX in *. pose proof (Z.div_mod g 256 ltac:(lia)). pose proof (Z.mod_pos_bound g 256 ltac:(lia)).
  pose proof (Z.div_mod h 256 ltac:(lia)). pose proof (Z.mod_pos_bound h 256 ltac:(lia)).
  split; [done|]. split; [repeat constructor; unfold U8_MAX; lia|]. cbn. repeat f_equal; lia.
Qed.

Lemma print_ipv6_chars segments : Forall is_u16 segments → every ip_char (print_ipv6 segments) = true.
Proof.
  intros Hs. unfold print_ipv6. destruct (mapped segments) as [octets|] eqn:E.
  - destruct (mapped_spec _ _ E Hs) as (_ & ? & _). rewrite every_app. by rewrite every_ipv4.
  - assert (∀ gs, Forall is_u16 gs → every ip_char (print_groups gs) = true) as Hg.
    { intros gs ?. eapply every_impl; [|by apply every_groups]. unfold ip_char. by intros a ->. }
    destruct (zero_run segments) as [start len]. destruct (1 <? len)%nat; [|by apply Hg].
    rewrite !every_app. by rewrite !Hg by (by apply Forall_take || by apply Forall_drop).
Qed.

Lemma read_groups_mapped octets rest :
  length octets = 4%nat → Forall is_u8 octets → stops 10 rest →
  read_groups 7 0 ("ffff:" +:+ (print_ipv4 octets +:+ rest)) = (U16_MAX :: embed octets, true, rest).
Proof.
  intros Hl Ho Hr. change ("ffff:" +:+ ?t) with (hex U16_MAX +:+ (":" +:+ t)).
  cbn [read_groups read_separator]. rewrite read_group by done. cbn [String.append read_given_char].
  rewrite decide_True by done. cbn [mbind option_bind]. by rewrite read_ipv4_print.
Qed.

(** An address is read back up to the end, a bracket or a scope. *)
Lemma read_ipv6_print segments rest :
  length segments = 8%nat → Forall is_u16 segments →
  rest = "" ∨ (∃ t, rest = "]" +:+ t) ∨ (∃ t, rest = "%" +:+ t) → contains "." rest = false →
  read_ipv6_addr (print_ipv6 segments +:+ rest) = Some (segments, rest).
Proof.
  intros Hl Hs Hrest Hdot.
  assert (after_groups rest) as Hafter by (unfold after_groups; tauto).
  unfold print_ipv6, read_ipv6_addr. destruct (mapped segments) as [octets|] eqn:E.
  - destruct (mapped_spec _ _ E Hs) as (Ho & Hu & ->).
    change ("::ffff:" +:+ ?t) with ("::" +:+ ("ffff:" +:+ t)). rewrite !string_app_assoc.
    rewrite read_groups_end by (right; left; by eexists). set (text := "ffff:" +:+ _).
    cbn [length Nat.eqb String.append read_given_char]. rewrite !decide_True by done.
    cbn [mbind option_bind Nat.add Nat.sub read_given_char]. rewrite decide_True by done.
    cbn [mbind option_bind]. unfold text. rewrite read_groups_mapped by (done || by apply after_stops).
    by destruct octets as [|? [|? [|? [|? []]]]].
  - pose proof (zero_run_run segments) as Hrun. destruct (zero_run segments) as [start len].
    pose proof (run_split _ _ _ Hrun) as Hsplit. destruct Hrun as [Hle _]. simpl in Hle.
    destruct (Nat.ltb_spec 1 len).
    + set (head := take start segments) in *. set (tail := drop (start + len) segments) in *.
      assert (length head = start) by (unfold head; rewrite length_take; lia).
      assert (length tail = 8 - start - len)%nat by (unfold tail; rewrite length_drop; lia).
      assert (Forall is_u16 head) by (by apply Forall_take). assert (Forall is_u16 tail) by (by apply Forall_drop).
      rewrite !string_app_assoc.
      assert (contains "." ("::" +:+ (print_groups tail +:+ rest)) = false).
      { rewrite !contains_app, Hdot, (every_contains group_char _ _ (every_groups tail ltac:(done))); done. }
      rewrite (read_groups_print 8 0 head) by (done || lia || (right; left; by eexists)).
      replace (length head) with start by done. rewrite (proj2 (Nat.eqb_neq start 8)) by lia.
      cbn [String.append read_given_char]. rewrite decide_True by done. cbn [mbind option_bind read_given_char].
      rewrite decide_True by done. cbn [mbind option_bind].
      rewrite (read_groups_print _ 0 tail) by (done || lia).
      replace (8 - start - length tail)%nat with len by lia. by rewrite <-Hsplit.
    + change (print_groups segments) with (more_groups 0 segments).
      by rewrite (read_groups_print 8 0 segments rest Hs ltac:(lia) Hafter Hdot), Hl.
Qed.

(** * Whole texts *)

Lemma ipv6_not_ipv4 segments : Forall is_u16 segments → read_ipv4_addr (print_ipv6 segments) = None.
Proof.
  intros Hs. unfold print_ipv6. destruct (mapped segments) as [octets|] eqn:E; [done|]. apply no_dot_ipv4.
  assert (∀ gs, Forall is_u16 gs → contains "." (print_groups gs) = false) as Hg.
  { intros gs Hgs. by apply (every_contains group_char); [apply every_groups|]. }
  destruct (zero_run segments) as [start len]. destruct (1 <? len)%nat; [|by apply Hg].
  rewrite !contains_app, !Hg; [done|by apply Forall_drop|by apply Forall_take].
Qed.

Lemma read_ip_print ip : ip_ok ip → parse_with read_ip_addr (print_ip ip) = Some ip.
Proof.
  intros Hok. unfold parse_with, read_ip_addr.
  destruct ip as [octets|segments]; destruct Hok as [Hl Hs]; cbn [print_ip].
  - rewrite <-(string_app_nil_r (print_ipv4 octets)). by rewrite read_ipv4_print.
  - rewrite ipv6_not_ipv4 by done. rewrite <-(string_app_nil_r (print_ipv6 segments)).
    by rewrite read_ipv6_print by (done || by left).
Qed.

Lemma read_port_print port : is_u16 port → read_port (":" +:+ decimal port) = Some (port, "").
Proof.
  intros [? Hp]. unfold read_port. cbn [String.append read_given_char]. rewrite decide_True by done.
  cbn [mbind option_bind]. rewrite <-(string_app_nil_r (decimal port)).
  apply (read_number_print 10 5); [lia|done|done|lia|by right|done].
Qed.

Definition is_u32 (z : Z) : Prop := 0 <= z < 2 ^ 32.

Definition scope_text (scope : Z) : string := if scope =? 0 then "" else "%" +:+ decimal scope.

Lemma read_scope_print scope rest :
  is_u32 scope → let text := scope_text scope +:+ ("]" +:+ rest) in
  default (0, text) (read_scope_id text) = (scope, "]" +:+ rest).
Proof.
  intros [? Hp]. unfold scope_text. destruct (Z.eqb_spec scope 0) as [->|]; [done|]. cbn zeta.
  unfold read_scope_id. rewrite string_app_assoc. cbn [String.append read_given_char]. rewrite decide_True by done.
  cbn [mbind option_bind]. by rewrite (read_number_print 10 10) by (done || lia || by right).
Qed.

Definition socket_ok (a : SocketAddr) : Prop :=
  ip_ok (so_ip a) ∧ is_u16 (so_port a) ∧ is_u32 (so_scope a) ∧ (if so_ip a is V4 _ then so_scope a = 0 else True).

Lemma every_decimal p n : 0 <= n → (∀ d, 0 <= d < 10 → p (from_digit d) = true) → every p (decimal n) = true.
Proof. intros. by apply every_print. Qed.

Lemma decimal_no_dot n : 0 <= n → contains "." (decimal n) = false.
Proof.
  intros Hn. apply (every_contains group_char); [|done]. apply every_decimal; [done|]. intros d Hd.
  apply (below_decide 10 (λ d, group_char (from_digit d) = true)); [by vm_compute|lia].
Qed.

Lemma read_socket_print a : socket_ok a → parse_with read_socket_addr (print_socket a) = Some a.
Proof.
  destruct a as [[octets|segments] port scope]; intros (Hip & Hport & Hscope & Hv4); simpl in *;
    destruct Hip as [Hl Hs]; unfold parse_with, read_socket_addr, print_socket; cbn [so_ip so_port so_scope].
  - unfold read_socket_addr_v4. rewrite read_ipv4_print by done. cbn [mbind option_bind].
    rewrite read_port_print by done. by subst.
  - unfold read_socket_addr_v4. change (read_ipv4_addr ("[" +:+ _)) with (@None (list Z * string)).
    cbn [mbind option_bind]. unfold read_socket_addr_v6. fold (scope_text scope).
    change ("]:" +:+ decimal port) with ("]" +:+ (":" +:+ decimal port)).
    cbn [String.append read_given_char]. rewrite decide_True by done. cbn [mbind option_bind].
    change (String "]" ?t) with ("]" +:+ t). rewrite read_ipv6_print; [|done..| |].
    + cbn [mbind option_bind]. rewrite read_scope_print by done. cbn [String.append read_given_char].
      rewrite decide_True by done. cbn [mbind option_bind].
      change (String ":" (decimal port)) with (":" +:+ decimal port). by rewrite read_port_print.
    + right. unfold scope_text. destruct (scope =? 0); [left; by eexists|right].
      rewrite string_app_assoc. by eexists.
    + unfold scope_text. rewrite !contains_app. destruct (scope =? 0); cbn [contains];
        rewrite ?contains_app, !decimal_no_dot by apply Hport || apply Hscope; done.
Qed.

(** * What is read is an address *)

Lemma to_digit_range radix c d : to_digit radix c = Some d → 0 <= d.
Proof.
  unfold to_digit, in_range. destruct (Z.leb_spec 48 (byte_of c)), (Z.leb_spec (byte_of c) 57),
    (Z.leb_spec 97 (byte_of c)), (Z.leb_spec (byte_of c) 122), (Z.leb_spec 65 (byte_of c)), (Z.leb_spec (byte_of c) 90);
    simpl; try done; destruct (_ <? radix); intros [= <-]; lia.
Qed.

Lemma read_number_range radix md az max s v rest :
  0 <= radix → read_number radix md az max s = Some (v, rest) → 0 <= v <= max.
Proof.
  intros Hr. unfold read_number. set (ok := λ count result, _).
  assert (∀ s result count v k rest, 0 <= result → read_digits radix ok result count s = Some (v, k, rest) → 0 <= v) as Hd.
  { clear -Hr. intros s. induction s as [|a s IH]; intros result count v k rest H0; simpl; [by intros [= <- _ _]|].
    destruct (to_digit radix a) as [d|] eqn:E; [|by intros [= <- _ _]]. destruct (ok _ _); [|done].
    apply to_digit_range in E. apply IH. nia. }
  destruct (read_digits _ _ _ _ s) as [[[x k] r]|] eqn:E; [|done]. apply Hd in E; [|lia]. cbn [mbind option_bind].
  destruct (k =? 0)%nat; [done|]. destruct (_ && _); [done|]. destruct (Z.leb_spec x max); [|done].
  intros [= <- _]. lia.
Qed.

Lemma read_octets_ok more index s octets rest :
  read_octets more index s = Some (octets, rest) → length octets = more ∧ Forall is_u8 octets.
Proof.
  revert index s octets rest. induction more as [|more IH]; intros index s octets rest; simpl; [by intros [= <- _]|].
  unfold read_separator. intros H.
  assert (∃ s1 o s2 os, read_number 10 (Some 3%nat) false U8_MAX s1 = Some (o, s2) ∧
            read_octets more (S index) s2 = Some (os, rest) ∧ octets = o :: os) as (s1 & o & s2 & os & H1 & H2 & ->).
  { destruct index; [|destruct (read_given_char _ s) as [[u s']|]; [|done]]; cbn [mbind option_bind] in H;
      destruct (read_number _ _ _ _ _) as [[o s2]|] eqn:E; try done; cbn [mbind option_bind] in H;
      destruct (read_octets more _ s2) as [[os s3]|] eqn:E2; try done; injection H as <- <-;
      by eexists _, o, s2, os. }
  apply read_number_range in H1; [|lia]. apply IH in H2 as [<- Hos]. by split; [|constructor].
Qed.

Lemma read_groups_ok more index s groups v4 rest :
  read_groups more index s = (groups, v4, rest) → (length groups <= more)%nat ∧ Forall is_u16 groups.
Proof.
  revert index s groups v4 rest. induction more as [|more IH]; intros index s groups v4 rest; simpl.
  { intros [= <- _ _]. by split; [simpl; lia|]. }
  destruct (match more with 0%nat => None | S _ => _ end) as [[octets s1]|] eqn:E4.
  - destruct more as [|more]; [done|]. intros [= <- _ _].
    assert (∃ s0, read_ipv4_addr s0 = Some (octets, s1)) as (s0 & [Hl Ho]%read_octets_ok).
    { unfold read_separator in E4. destruct index; [by eexists|].
      destruct (read_given_char _ s) as [[u s']|]; [by eexists|done]. }
    destruct octets as [|a [|b [|c [|d []]]]]; try done. repeat (apply Forall_cons in Ho as [[? ?] Ho]).
    unfold U8_MAX in *. split; [simpl; lia|]. repeat constructor; unfold U16_MAX; lia.
  - destruct (read_separator ":" index (read_number 16 (Some 4%nat) true U16_MAX) s) as [[g s1]|] eqn:Eg.
    2: { intros H. simplify_eq. by split; [simpl; lia|]. }
    destruct (read_groups more (S index) s1) as [[gs v] s2] eqn:E. intros [= <- _ _].
    apply IH in E as [? ?]. split; [simpl; lia|]. constructor; [|done].
    unfold read_separator in Eg. destruct index.
    + by apply read_number_range in Eg.
    + destruct (read_given_char _ s) as [[u s']|]; [|done]. by apply read_number_range in Eg.
Qed.

Lemma read_ipv6_ok s segments rest : read_ipv6_addr s = Some (segments, rest) → ip_ok (V6 segments).
Proof.
  unfold read_ipv6_addr. destruct (read_groups 8 0 s) as [[head v4] s1] eqn:E1. apply read_groups_ok in E1 as [Hl1 Hu1].
  destruct (Nat.eqb_spec (length head) 8); [by intros [= <- _]|]. destruct v4; [done|].
  destruct (read_given_char ":" s1) as [[u s2]|]; [|done]. cbn [mbind option_bind].
  destruct (read_given_char ":" s2) as [[u' s3]|]; [|done]. cbn [mbind option_bind].
  destruct (read_groups _ 0 s3) as [[tail v] s4] eqn:E2. apply read_groups_ok in E2 as [Hl2 Hu2]. intros [= <- _].
  split; [rewrite !length_app, length_replicate; lia|].
  apply Forall_app. split; [done|]. apply Forall_app. split; [|done]. by apply Forall_replicate.
Qed.

Lemma read_ip_ok s ip : parse_with read_ip_addr s = Some ip → ip_ok ip.
Proof.
  unfold parse_with, read_ip_addr. destruct (read_ipv4_addr s) as [[octets r]|] eqn:E; cbn [mbind option_bind].
  - apply read_octets_ok in E. destruct (is_empty r); [|done]. by intros [= <-].
  - destruct (read_ipv6_addr s) as [[segments r]|] eqn:E6; [|done]. apply read_ipv6_ok in E6.
    cbn [mbind option_bind]. destruct (is_empty r); [|done]. by intros [= <-].
Qed.

Lemma read_socket_ok s a : parse_with read_socket_addr s = Some a → ip_ok (so_ip a).
Proof.
  unfold parse_with, read_socket_addr, read_socket_addr_v4.
  destruct (read_ipv4_addr s ≫= _) as [[a' r]|] eqn:E.
  - cbn [mbind option_bind]. destruct (is_empty r); [|done]. intros [= <-].
    destruct (read_ipv4_addr s) as [[octets r']|] eqn:E4; [|done]. cbn [mbind option_bind] in E.
    destruct (read_port r') as [[port r'']|]; [|done]. injection E as <- _. by apply read_octets_ok in E4.
  - unfold read_socket_addr_v6. destruct (read_given_char _ s) as [[u s1]|]; [|done]. cbn [mbind option_bind].
    destruct (read_ipv6_addr s1) as [[segments s2]|] eqn:E6; [|done]. apply read_ipv6_ok in E6. cbn [mbind option_bind].
    destruct (default _ _) as [scope s3]. destruct (read_given_char _ s3) as [[u' s4]|]; [|done]. cbn [mbind option_bind].
    destruct (read_port s4) as [[port s5]|]; [|done]. cbn [mbind option_bind]. destruct (is_empty s5); [|done].
    by intros [= <-].
Qed.

(** * Texts of an address *)

Lemma print_ip_chars ip : ip_ok ip → every ip_char (print_ip ip) = true.
Proof. destruct ip; intros [_ ?]; [by apply every_ipv4|by apply print_ipv6_chars]. Qed.

(** The ways to write an address: bare, in brackets, or with a port. *)
Inductive address_text (ip : IpAddr) : string → Prop :=
  | bare : address_text ip (print_ip ip)
  | bracketed : address_text ip ("[" +:+ (print_ip ip +:+ "]"))
  | with_port a : socket_ok a → so_ip a = ip → address_text ip (print_socket a).

(** The characters of such a text. *)
Definition text_char (a : ascii) : bool :=
  ip_char a || bool_decide (a = "["%char) || bool_decide (a = "]"%char) || bool_decide (a = "%"%char).

Lemma text_char_visible a : text_char a = true → in_range 33 126 (byte_of a) = true.
Proof. by destruct a as [[] [] [] [] [] [] [] []]. Qed.

Lemma every_visible s : every text_char s = true → all_visible s = true.
Proof.
  induction s as [|a s IH]; [done|]. simpl. rewrite !andb_true_iff. intros [Ha%text_char_visible Hs]. auto.
Qed.

Lemma address_chars ip text : ip_ok ip → address_text ip text → every text_char text = true.
Proof.
  assert (∀ s, every ip_char s = true → every text_char s = true) as Hw.
  { intros s. apply every_impl. unfold text_char. by intros a ->. }
  assert (∀ n, 0 <= n → every text_char (decimal n) = true) as Hdec.
  { intros n Hn. apply every_decimal; [done|]. intros d Hd.
    apply (below_decide 10 (λ d, text_char (from_digit d) = true)); [by vm_compute|lia]. }
  intros Hip. destruct 1 as [| |a (Ha & [Hport _] & [Hscope _] & _) <-].
  - by apply Hw, print_ip_chars.
  - by rewrite !every_app, (Hw _ (print_ip_chars _ Hip)).
  - unfold print_socket. pose proof (Hw _ (print_ip_chars _ Ha)) as Hc. destruct (so_ip a); simpl in Hc.
    + by rewrite !every_app, Hc, Hdec.
    + rewrite !every_app, Hc, Hdec by done. destruct (so_scope a =? 0); [done|]. by rewrite every_app, Hdec.
Qed.

Lemma no_char_given c s : contains c s = false → read_given_char c s = None.
Proof.
  destruct s as [|a s]; [done|]. simpl. intros [Ha%bool_decide_eq_false _]%orb_false_iff. by rewrite decide_False.
Qed.

Lemma bare_not_socket ip : ip_ok ip → parse_with read_socket_addr (print_ip ip) = None.
Proof.
  intros Hip. unfold parse_with, read_socket_addr, read_socket_addr_v6.
  rewrite no_char_given by (by apply (every_contains ip_char); [apply print_ip_chars|]).
  unfold read_socket_addr_v4. destruct ip as [octets|segments]; destruct Hip as [Hl Hs]; cbn [print_ip].
  - rewrite <-(string_app_nil_r (print_ipv4 octets)). by rewrite read_ipv4_print.
  - by rewrite ipv6_not_ipv4.
Qed.

Lemma bracketed_not_socket ip : ip_ok ip → parse_with read_socket_addr ("[" +:+ (print_ip ip +:+ "]")) = None.
Proof.
  intros Hip. unfold parse_with, read_socket_addr, read_socket_addr_v4.
  change (read_ipv4_addr ("[" +:+ _)) with (@None (list Z * string)). cbn [mbind option_bind].
  unfold read_socket_addr_v6. cbn [String.append read_given_char]. rewrite decide_True by done. cbn [mbind option_bind].
  destruct ip as [octets|segments]; destruct Hip as [Hl Hs]; cbn [print_ip].
  - unfold read_ipv6_addr. cbn [read_groups read_separator]. rewrite read_ipv4_print by done.
    by destruct octets as [|? [|? [|? [|? []]]]].
  - by rewrite read_ipv6_print by (done || by right; left; exists "").
Qed.

Definition quoted (text : string) : string := String QUOTE (text +:+ String QUOTE "").

Lemma trim_start_none c s : contains c s = false → trim_start_matches c s = s.
Proof.
  destruct s as [|a s]; [done|]. simpl. intros [Ha%bool_decide_eq_false _]%orb_false_iff. by rewrite decide_False.
Qed.

Lemma contains_srev c s : contains c (srev s) = contains c s.
Proof.
  induction s as [|a s IH]; [done|]. unfold srev. simpl. rewrite srev_app_spec, contains_app, IH. simpl.
  by rewrite orb_false_r, orb_comm.
Qed.

Lemma trim_matches_none c s : contains c s = false → trim_matches c s = s.
Proof.
  intros Hs. unfold trim_matches, trim_end_matches. rewrite (trim_start_none c s) by done.
  rewrite trim_start_none, srev_srev by (by rewrite contains_srev). done.
Qed.

Lemma trim_matches_quoted text : contains QUOTE text = false → trim_matches QUOTE (quoted text) = text.
Proof.
  intros Ht. unfold trim_matches, quoted. cbn [trim_start_matches]. rewrite decide_True by done.
  destruct text as [|a text]; [done|]. rewrite <-(trim_matches_none QUOTE (String a text)) at 2 by done.
  unfold trim_matches. rewrite (trim_start_none _ _ Ht).
  assert (trim_start_matches QUOTE (String a text +:+ String QUOTE "") = String a text +:+ String QUOTE "") as ->.
  { simpl in *. apply orb_false_iff in Ht as [Ha%bool_decide_eq_false _]. by rewrite decide_False. }
  unfold trim_end_matches. rewrite srev_snoc. cbn [trim_start_matches]. by rewrite decide_True.
Qed.

(** * The recorded peer *)

(** Whatever way an address is written, quoted or not, it is recognised. *)
Lemma normalize_text ip text :
  ip_ok ip → address_text ip text →
  normalize_forwarded_ip text = Some (print_ip ip) ∧ normalize_forwarded_ip (quoted text) = Some (print_ip ip).
Proof.
  intros Hip Ht. pose proof (address_chars _ _ Hip Ht) as Hc.
  assert (contains QUOTE text = false) as Hq by (by apply (every_contains text_char)).
  assert (normalize_forwarded_ip text = Some (print_ip ip)) as Hn.
  { unfold normalize_forwarded_ip. rewrite all_visible_trim by (by apply every_visible). rewrite trim_matches_none by done.
    destruct Ht as [| |a Ha <-].
    - rewrite bare_not_socket by done.
      destruct (strip_prefix "[" (print_ip ip)) as [rest|] eqn:E; cbn [mbind option_bind default];
        [|by rewrite read_ip_print].
      apply strip_prefix_Some in E. pose proof (print_ip_chars ip Hip) as Hi. by rewrite E in Hi.
    - rewrite bracketed_not_socket by done. cbn [String.append strip_prefix]. rewrite decide_True by done.
      cbn [mbind option_bind]. rewrite (proj2 (strip_suffix_Some "]" _ (print_ip ip)) eq_refl).
      cbn [from_option id]. by rewrite read_ip_print.
    - by rewrite read_socket_print. }
  split; [done|]. rewrite <-Hn. unfold normalize_forwarded_ip.
  rewrite (all_visible_trim text), (trim_matches_none QUOTE text) by (done || by apply every_visible).
  rewrite all_visible_trim, trim_matches_quoted; [done..|]. unfold quoted. cbn [all_visible].
  by rewrite all_visible_app, every_visible.
Qed.

Lemma normalize_sound value text : normalize_forwarded_ip value = Some text → ∃ ip, ip_ok ip ∧ text = print_ip ip.
Proof.
  unfold normalize_forwarded_ip. destruct (parse_with read_socket_addr _) as [a|] eqn:E.
  - intros [= <-]. exists (so_ip a). split; [by eapply read_socket_ok|done].
  - destruct (parse_with read_ip_addr _) as [ip|] eqn:Ei; [|done]. intros [= <-]. exists ip.
    split; [by eapply read_ip_ok|done].
Qed.

(** The first entry of a forwarding header. *)
Definition first_entry (value text : string) : Prop :=
  value = text ∨ value = quoted text ∨ ∃ others, value = text +:+ String "," others ∨ value = quoted text +:+ String "," others.


End NetSpec.
