(* ===== verification/Config.v ===== *)
(** The configuration of the broker: src/src/config.rs, and what src/src/logging.rs
    makes of it.

    The command line and the environment are read by clap; here a configuration is the
    record it fills in, and [default_config] the one it makes of nothing. *)

From S2P Require Import Prelude RustStr Effects Auth Net.
Import Auth Net.

Module Config.

(** [Command]. *)
Inductive Command := ResetPassword (password : option string).

(** [Config]. *)
Record Config := {
  command : option Command;
  port : Z;
  web_port : Z;
  web_base : string;
  mqtt_enabled : bool;
  mqtt_port : Z;
  mqtt_ws_port : Z;
  mqtt_allow_anonymous : bool;
  mqtt_auth_url : option string;
  auth_token : option string;
  admin_password : option string;
  secure_cookies : bool;
  data_dir : option string;
  downstream_url : option string;
  worker_poll_ms : Z;
  write_batch_size : Z;
  write_batch_wait_ms : Z;
  write_queue_size : Z;
  ingest_inflight : Z;
  consumer_prefetch : Z;
  claim_batch_size : Z;
  max_delivery_attempts : Z;
  message_retention_days : Z;
  delivered_retention_hours : Z;
  ephemeral_idle_hours : Z;
  purge_interval_hours : Z;
  ack_timeout_secs : Z;
  consumer_ttl_secs : Z;
  cache_max_entries : Z;
  log_max_bytes : Z;
  log_keep_files : Z;
  log_messages : bool
}.

(** The default values of the arguments. *)
Definition default_config : Config :=
  {| command := None; port := 7500; web_port := 7501; web_base := ""; mqtt_enabled := true; mqtt_port := 7883;
     mqtt_ws_port := 8083; mqtt_allow_anonymous := true; mqtt_auth_url := None; auth_token := None;
     admin_password := None; secure_cookies := false; data_dir := None; downstream_url := None;
     worker_poll_ms := 500; write_batch_size := 128; write_batch_wait_ms := 2; write_queue_size := 8192;
     ingest_inflight := 128; consumer_prefetch := 32; claim_batch_size := 16; max_delivery_attempts := 10;
     message_retention_days := 10; delivered_retention_hours := 24; ephemeral_idle_hours := 1;
     purge_interval_hours := 1; ack_timeout_secs := 30; consumer_ttl_secs := 60; cache_max_entries := 100000;
     log_max_bytes := 100 * 1024 * 1024; log_keep_files := 3; log_messages := false |}.

(** [SocketAddr::from(([0, 0, 0, 0], port))]. *)
Definition any_address (port : Z) : SocketAddr := mkSocket (V4 [0; 0; 0; 0]) port 0.

Definition grpc_listen_addr (c : Config) : SocketAddr := any_address (port c).
Definition status_listen_addr (c : Config) : SocketAddr := any_address (web_port c).
Definition mqtt_listen_addr (c : Config) : SocketAddr := any_address (mqtt_port c).
Definition mqtt_ws_listen_addr (c : Config) : SocketAddr := any_address (mqtt_ws_port c).

(** [Config::database_url]. *)
Definition config_database_url (c : Config) : string := database_url (data_dir c).

(** [Path::join] with a relative name. *)
Definition path_join (dir name : string) : string :=
  if is_empty dir then name
  else if bool_decide (is_Some (strip_suffix "/" dir)) then dir +:+ name
  else dir +:+ "/" +:+ name.

(** [Config::log_dir]. *)
Definition log_dir (c : Config) : option string := (λ dir, path_join dir "logs") <$> data_dir c.

(** [Config::status_web_base]. *)
Definition status_web_base (c : Config) : option string := normalize_web_base (web_base c).

(** * Logging *)

(** The rotation [logging::init] sets up. *)
Record LogRotation := mkRotation { log_path : string; log_archives : Z; log_limit : Z }.

(** [logging::init]: what is written besides the standard output; [create_dir_all] may
    fail with an error. *)
Definition init_logging (create_dir_all : string → result string ()) (c : Config) : result Error (option LogRotation) :=
  match log_dir c with
  | None => Ok None
  | Some dir =>
      match create_dir_all dir with
      | Err error => Err (Failure error)
      | Ok _ => Ok (Some (mkRotation (path_join dir "cangling-broker.log")
                            (Z.max (Z.max (log_keep_files c - 1) 0) 1) (log_max_bytes c)))
      end
  end.

Section wall_time.
Context `{Chrono}.

(** [DateTime::format(WALL_TIME)] in UTC. *)
Context (format_wall : Z → string).

(** [format_wall_time]; both branches for a text that is not RFC 3339 return it. *)
Definition format_wall_time (value : string) : string :=
  match parse_from_rfc3339 value with
  | Some parsed => format_wall parsed
  | None => value
  end.

End wall_time.

End Config.
