(* ===== verification/Bodies.v ===== *)
(** The request and response bodies of the HTTP interface: src/src/status.rs.

    A request body or query is the value serde has read; a response body is what serde
    writes.  Names of fields are those of the source, after a prefix of the type. *)

From S2P Require Import Prelude RustStr Model Effects Election Cache Auth Service Http.
Import Model.

Module Bodies.

(** * Requests *)

Record LoginBody := mkLogin { li_password : string }.
Record MessageTrendQuery := mkTrendQuery { tq_minutes : option Z }.

(** [TopicConfigBody], the same three texts as [ProtoTopicConfig]. *)
Definition TopicConfigBody : Type := Service.ProtoTopicConfig.
Record ConfigureTopicsBody := mkConfigureTopics { ct_topics : list TopicConfigBody }.
Record MessagesQuery := mkMessagesQuery { mq_topic : string; mq_offset : Z }.

Record PublishMessageBody := {
  pm_topic : string;
  pm_payload : Json;
  pm_attributes : gmap string string;
  pm_idempotency_key : option string
}.

Record ConsumePollBody := {
  cp_topic : string;
  cp_consumer_id : string;
  cp_consumer_name : string;
  cp_wait_ms : Z;
  cp_attributes : gmap string string
}.

Record ConsumeAckBody := {
  ca_message_id : string;
  ca_lease : string;
  ca_success : bool;
  ca_error : string
}.
Record ConsumeRenewBody := mkConsumeRenew { cr_message_id : string; cr_lease : string }.

(** The defaults of fields a client leaves out. *)
Definition default_consume_wait_ms : Z := 20000.
Definition default_true : bool := true.

Record CacheQuery := mkCacheQuery { cq_key : string }.
Record CacheSetBody := mkCacheSet { ch_key : string; ch_value : string; ch_ttl_seconds : Z }.
Record CacheIncrBody := mkCacheIncr { ci_key : string; ci_delta : Z; ci_ttl_seconds : Z }.

Record LockQuery := mkLockQuery { lq_lock_key : string }.
Record LockReleaseQuery := mkLockRelease { lr_lock_key : string; lr_owner : string }.
Record LockBody := mkLockBody { lb_lock_key : string; lb_owner : string; lb_ttl_seconds : Z }.

Record ElectionQuery := mkElectionQuery { eq_election : string }.
Record ElectionCampaignBody := mkCampaign { ec_election : string; ec_candidate_id : string; ec_ttl_seconds : Z }.
Record ElectionLeaseBody := {
  eb_election : string;
  eb_leader_id : string;
  eb_term : Z;
  eb_lease_id : string;
  eb_ttl_seconds : Z
}.

(** * Responses *)

Record Health := mkHealth { he_ok : bool }.
Record AuthStatus := mkAuthStatus { au_authenticated : bool }.
Record TopicsBody := mkTopics { tb_topics : list TopicConfigBody }.

Record MessagePageBody := {
  mp_topic : string;
  mp_offset : Z;
  mp_total : Z;
  mp_message : option Http.MessageBody
}.

Record ConsumeAckResultBody := mkAckResult { ac_accepted : bool }.
Record ConsumeRenewResultBody := mkRenewResult { rn_renewed : bool; rn_visibility_timeout_ms : Z }.
Record ClearMessagesBody := mkCleared { cl_topic : string; cl_deleted : Z }.

Record CacheValueBody := {
  cv_key : string;
  cv_found : bool;
  cv_value : option string;
  cv_ttl_seconds : Z
}.
Record CacheWriteBody := mkCacheWrite { cw_key : string; cw_ok : bool }.
Record CacheDeleteBody := mkCacheDelete { cd_key : string; cd_deleted : bool }.
Record CacheIncrResultBody := mkCacheIncrResult { cx_key : string; cx_value : Z }.
Record CacheEntryBody := mkCacheEntry { ce_key : string; ce_value : string; ce_value_type : string; ce_ttl_seconds : Z }.
Record CacheListBody := mkCacheList { cl_entries : list CacheEntryBody }.

Record LockStateBody := mkLockState { ls_lock_key : string; ls_locked : bool }.
Record LockAcquireBody := mkLockAcquire { la_lock_key : string; la_acquired : bool }.
Record LockRenewBody := mkLockRenew { lw_lock_key : string; lw_renewed : bool }.
Record LockReleaseBody := mkLockReleased { lx_lock_key : string; lx_released : bool }.
Record LockEntryBody := mkLockEntry { le_lock_key : string; le_owner : string; le_expire_at : string; le_create_time : string }.
Record LockListBody := mkLockList { ll_locks : list LockEntryBody }.

(** [ElectionLeaderBody] has the fields of the gRPC message; [election_leader_body]
    computes them as [LeaderLease::to_proto] does. *)
Definition ElectionLeaderBody : Type := Election.ElectionLeader.
Definition election_leader_body `{Oracle, Chrono} {E St} : Election.LeaderLease → M E St ElectionLeaderBody :=
  Election.to_proto.

Record ElectionStateBody := mkElectionState { es_found : bool; es_active : bool; es_leader : option ElectionLeaderBody }.
Record ElectionCampaignResultBody := mkCampaignResult { ew_won : bool; ew_leader : ElectionLeaderBody }.
Record ElectionRenewResultBody := mkElectionRenewed { er_renewed : bool; er_leader : option ElectionLeaderBody }.
Record ElectionResignResultBody := mkResigned { ex_resigned : bool }.

End Bodies.
