(* ===== verification/Routes.v ===== *)
(** The HTTP service as a whole: src/src/status.rs, the table of its routes, the access
    control around them and the answer to a request.

    Requests are matched to routes and their bodies are decoded by axum.  [Router] is
    what the source builds; the class [Axum] is what axum makes of it. *)

From S2P Require Import Prelude RustStr Topic Model Effects Election Cache Store Db DbQuery Writer.
From S2P Require Import Subscribers Auth Net Delivery Session Observe Service Http Console Config Bodies.
Import Topic Model Store Db DbQuery Writer Subscribers Auth Net Delivery Session Observe Http Bodies.

Module Routes.

(** * Routes *)

Inductive Method := GET | HEAD | POST | PUT | DELETE.

(** The handlers, by their names. *)
Module Handler.
Inductive Endpoint :=
  | page | health | status | message_trends | auth_status | login | logout
  | status_details | list_topics | configure_topics | topic_message | publish_message
  | consume_poll | consume_ack | consume_renew | clear_topic_messages
  | cache_get | cache_set | cache_delete | cache_keys | cache_incr
  | lock_get | lock_release | lock_list | lock_acquire | lock_renew
  | election_get | election_campaign | election_renew | election_resign
  | ws_handler.
End Handler.

(** The middleware in front of a handler. *)
Inductive Guard := ServiceToken | AdminSession.

#[export] Instance method_eq_dec : EqDecision Method.
Proof. solve_decision. Defined.
#[export] Instance endpoint_eq_dec : EqDecision Handler.Endpoint.
Proof. solve_decision. Defined.

(** [Router], by the calls that build it. *)
Inductive Router :=
  | new_router
  | route (path : string) (methods : list (Method * Handler.Endpoint)) (r : Router)
  | merge (r other : Router)
  | nest (prefix : string) (inner r : Router)
  | route_layer (g : Guard) (r : Router).

(** [management_routes]. *)
Definition management_routes : Router :=
  foldl (λ r '(path, methods), route path methods r) new_router
    [("/status/details", [(GET, Handler.status_details)]);
     ("/topics", [(GET, Handler.list_topics)]);
     ("/topics", [(POST, Handler.configure_topics)]);
     ("/messages", [(GET, Handler.topic_message)]);
     ("/publish", [(POST, Handler.publish_message)]);
     ("/consume/poll", [(POST, Handler.consume_poll)]);
     ("/consume/ack", [(POST, Handler.consume_ack)]);
     ("/consume/renew", [(POST, Handler.consume_renew)]);
     ("/messages", [(DELETE, Handler.clear_topic_messages)]);
     ("/cache", [(GET, Handler.cache_get)]);
     ("/cache", [(PUT, Handler.cache_set); (POST, Handler.cache_set); (DELETE, Handler.cache_delete)]);
     ("/cache/keys", [(GET, Handler.cache_keys)]);
     ("/cache/incr", [(POST, Handler.cache_incr)]);
     ("/lock", [(GET, Handler.lock_get)]);
     ("/lock", [(DELETE, Handler.lock_release)]);
     ("/lock/list", [(GET, Handler.lock_list)]);
     ("/lock/acquire", [(POST, Handler.lock_acquire)]);
     ("/lock/renew", [(POST, Handler.lock_renew)]);
     ("/election", [(GET, Handler.election_get)]);
     ("/election/campaign", [(POST, Handler.election_campaign)]);
     ("/election/renew", [(POST, Handler.election_renew)]);
     ("/election/resign", [(POST, Handler.election_resign)])].

(** [status_routes]. *)
Definition status_routes : Router :=
  let public := foldl (λ r '(path, methods), route path methods r) new_router
    [("/", [(GET, Handler.page)]);
     ("/health", [(GET, Handler.health)]);
     ("/status", [(GET, Handler.status)]);
     ("/message-trends", [(GET, Handler.message_trends)]);
     ("/auth/status", [(GET, Handler.auth_status)]);
     ("/auth/login", [(POST, Handler.login)]);
     ("/auth/logout", [(POST, Handler.logout)])] in
  let machine_api := route_layer ServiceToken management_routes in
  let ui_api := route_layer AdminSession management_routes in
  nest "/ui" ui_api (merge (merge new_router public) machine_api).

(** [ws_mqtt_routes] of src/src/mqtt/mod.rs. *)
Definition ws_mqtt_routes : Router :=
  route "/mqtt/" [(GET, Handler.ws_handler)] (route "/mqtt" [(GET, Handler.ws_handler)] new_router).

(** [ws_router]: the routes of the MQTT WebSocket port. *)
Definition ws_router : Router := route "/" [(GET, Handler.ws_handler)] ws_mqtt_routes.

(** [ws_status_router]. *)
Definition ws_status_router : Router := ws_mqtt_routes.

(** [status_app]; [mqtt] says whether MQTT is attached to this port. *)
Definition status_app (web_base : option string) (mqtt : bool) : Router :=
  let app := if mqtt then merge status_routes ws_status_router else status_routes in
  match web_base with
  | Some base => nest base app (merge new_router app)
  | None => app
  end.

(** * axum *)

(** The handler axum chooses for a method and a path, with the middleware it runs
    before, the outermost first. *)
Class Axum := { serves : Router → Method → string → option (list Guard * Handler.Endpoint) }.

(** The documented behaviour: only registered routes are served, [get] also answers
    HEAD requests, [merge] combines the routes of two routers, [nest] serves a router
    below a prefix, and [route_layer] runs a middleware before the routes. *)
Class AxumLaws `{Axum} : Prop := {
  serves_new m p : serves new_router m p = None;
  serves_route path methods r m p gs e :
    serves (route path methods r) m p = Some (gs, e) →
    serves r m p = Some (gs, e) ∨
    (p = path ∧ gs = [] ∧ ((m, e) ∈ methods ∨ (m = HEAD ∧ (GET, e) ∈ methods)));
  serves_merge r other m p a :
    serves (merge r other) m p = Some a → serves r m p = Some a ∨ serves other m p = Some a;
  serves_nest prefix inner r m p a :
    serves (nest prefix inner r) m p = Some a →
    serves r m p = Some a ∨ (starts_with prefix p = true ∧ ∃ p', serves inner m p' = Some a);
  serves_layer g r m p gs e :
    serves (route_layer g r) m p = Some (gs, e) → ∃ gs', gs = g :: gs' ∧ serves r m p = Some (gs', e)
}.

(** * The dashboard page *)

(** [str::replacen(from, to, 1)]. *)
Fixpoint replace_first (from to s : string) : string :=
  match strip_prefix from s with
  | Some rest => to +:+ rest
  | None => match s with EmptyString => EmptyString | String a s => String a (replace_first from to s) end
  end.

(** [dashboard_html]; [html] is status.html. *)
Definition dashboard_html (html : string) (web_base : option string) : string :=
  match web_base with
  | Some base =>
      let quote := String "034" "" in
      let tag := "<base href=" +:+ quote +:+ trim_end_matches "/" base +:+ "/" +:+ quote +:+ ">" in
      replace_first "<head>" ("<head>" +:+ String "010" "  " +:+ tag) html
  | None => html
  end.

(** * Operations *)

(** A request as its handler gets it: the endpoint with the decoded body or query. *)
Inductive Operation :=
  | DoPage | DoHealth | DoStatus | DoMessageTrends (query : MessageTrendQuery)
  | DoAuthStatus | DoLogin (body : LoginBody) | DoLogout
  | DoStatusDetails | DoListTopics | DoConfigureTopics (body : ConfigureTopicsBody)
  | DoTopicMessage (query : MessagesQuery) | DoPublish (body : PublishMessageBody)
  | DoPoll (body : ConsumePollBody) | DoAck (body : ConsumeAckBody) | DoRenew (body : ConsumeRenewBody)
  | DoClear (query : MessagesQuery)
  | DoCacheGet (query : CacheQuery) | DoCacheSet (body : CacheSetBody) | DoCacheDelete (query : CacheQuery)
  | DoCacheKeys | DoCacheIncr (body : CacheIncrBody)
  | DoLockGet (query : LockQuery) | DoLockRelease (query : LockReleaseQuery) | DoLockList
  | DoLockAcquire (body : LockBody) | DoLockRenew (body : LockBody)
  | DoElectionGet (query : ElectionQuery) | DoCampaign (body : ElectionCampaignBody)
  | DoElectionRenew (body : ElectionLeaseBody) | DoResign (body : ElectionLeaseBody)
  | DoUpgrade.

Definition endpoint_of (o : Operation) : Handler.Endpoint :=
  match o with
  | DoPage => Handler.page | DoHealth => Handler.health | DoStatus => Handler.status | DoMessageTrends _ => Handler.message_trends
  | DoAuthStatus => Handler.auth_status | DoLogin _ => Handler.login | DoLogout => Handler.logout
  | DoStatusDetails => Handler.status_details | DoListTopics => Handler.list_topics | DoConfigureTopics _ => Handler.configure_topics
  | DoTopicMessage _ => Handler.topic_message | DoPublish _ => Handler.publish_message
  | DoPoll _ => Handler.consume_poll | DoAck _ => Handler.consume_ack | DoRenew _ => Handler.consume_renew
  | DoClear _ => Handler.clear_topic_messages
  | DoCacheGet _ => Handler.cache_get | DoCacheSet _ => Handler.cache_set | DoCacheDelete _ => Handler.cache_delete
  | DoCacheKeys => Handler.cache_keys | DoCacheIncr _ => Handler.cache_incr
  | DoLockGet _ => Handler.lock_get | DoLockRelease _ => Handler.lock_release | DoLockList => Handler.lock_list
  | DoLockAcquire _ => Handler.lock_acquire | DoLockRenew _ => Handler.lock_renew
  | DoElectionGet _ => Handler.election_get | DoCampaign _ => Handler.election_campaign
  | DoElectionRenew _ => Handler.election_renew | DoResign _ => Handler.election_resign
  | DoUpgrade => Handler.ws_handler
  end.

(** * Answers *)

(** [BrokerStatus], with what is not in the broker's state. *)
Record StatusBody := {
  sb_version : string;
  sb_git : string;
  sb_built : string;
  sb_uptime_secs : Z;
  sb_db_bytes : Z;
  sb_performance : Performance;
  sb_status : Console.BrokerStatus
}.

Inductive Reply :=
  | RHtml (text : string) | RHealth (body : Health) | RStatus (body : StatusBody)
  | RTrends (points : list (string * Trend)) | RAuthStatus (body : AuthStatus) (cookie : option string)
  | RTopics (body : TopicsBody) | RMessage (body : MessagePageBody) | RPublished (body : PublishMessageResultBody)
  | RPoll (response : PollResponse) | RAck (body : ConsumeAckResultBody) | RRenewed (body : ConsumeRenewResultBody)
  | RCleared (body : ClearMessagesBody) | RCacheValue (body : CacheValueBody) | RCacheWrite (body : CacheWriteBody)
  | RCacheDelete (body : CacheDeleteBody) | RCacheList (body : CacheListBody) | RCacheIncr (body : CacheIncrResultBody)
  | RLockState (body : LockStateBody) | RLockRelease (body : LockReleaseBody) | RLockList (body : LockListBody)
  | RLockAcquire (body : LockAcquireBody) | RLockRenew (body : LockRenewBody)
  | RElection (body : ElectionStateBody) | RCampaign (body : ElectionCampaignResultBody)
  | RElectionRenew (body : ElectionRenewResultBody) | RResigned (body : ElectionResignResultBody)
  | RUpgrade (peer : string)
  | RNotServed.

(** What the program knows from its build and its environment. *)
Record Facts := {
  f_html : string;
  f_version : string;
  f_git : string;
  f_build_time : string;
  f_started : Z;
  f_file_len : string → Z;
  f_control_file : option string;
  f_shard_file : nat → string
}.

(** A request before its body is decoded. *)
Record Request := {
  r_method : Method;
  r_path : string;
  r_http : HttpRequest;
  r_headers : gmap string string;
  r_peer : option SocketAddr
}.

Section service.
Context `{Oracle, Chrono, Serde, Passwords, Axum}.
Context (format_wall : Z → string).
Context (accepts : nat → bool) (json_to_vec : Json → option (list Z)) (answered : nat → option (result string bool)).
Context (overflow_checks : bool) (config : StatusConfig) (consumer_ttl_secs : Z) (facts : Facts).

(** The registries of connections and the histograms when a request is answered. *)
Context (mqtt_clients : ClientRegistry) (grpc_clients : GrpcClientRegistry) (timings : Timings).

(** axum's extractors: the operation of a request at an endpoint, if it can be decoded. *)
Context (extract : Handler.Endpoint → Request → option Operation).

Abbreviation MH := (M StatusCode Http.Console).

(** [consumer_cutoff]. *)
Definition status_cutoff {St} (ttl_secs : Z) : M Error St (option string) :=
  if ttl_secs =? 0 then mret None
  else
  now ← now;
  d ← seconds (wrap_i64 ttl_secs);
  t ← add_time now (- d);
  mret (Some (to_rfc3339 t)).

(** [build_status]. *)
Definition build_broker_status : MH StatusBody :=
  cutoff ← map_err_with internal (status_cutoff consumer_ttl_secs);
  snapshot ← with_db (status_snapshot cutoff);
  status ← (λ w, (Ok (Console.build_status (tick w) snapshot (b_subs (c_broker (st w))) mqtt_clients grpc_clients),
                  mkWorld (st w) (S (tick w))));
  db_bytes ← with_db (attempt (sqlite_size_bytes (f_file_len facts) (f_control_file facts) (f_shard_file facts)));
  at_ ← now;
  mret {| sb_version := f_version facts; sb_git := f_git facts;
          sb_built := Config.format_wall_time format_wall (f_build_time facts);
          sb_uptime_secs := (at_ - f_started facts) / 10 ^ 9;
          sb_db_bytes := (if db_bytes is Ok n then n else 0);
          sb_performance := performance timings; sb_status := status |}.

(** [status]: the clients and the topics are cleared. *)
Definition public_build_status : MH StatusBody :=
  b ← build_broker_status;
  mret {| sb_version := sb_version b; sb_git := sb_git b; sb_built := sb_built b; sb_uptime_secs := sb_uptime_secs b;
          sb_db_bytes := sb_db_bytes b; sb_performance := sb_performance b;
          sb_status := Console.public_status (sb_status b) |}.

(** [status_details], [page] and [health]. *)
Definition status_details : MH Reply := RStatus <$> build_broker_status.
Definition page : MH Reply := mret (RHtml (dashboard_html (f_html facts) (st_web_base config))).
Definition health : MH Reply := mret (RHealth (mkHealth true)).

(** The handler of an operation; [others] are the steps of other tasks while
    [consume_poll] waits. *)
Definition perform (others : list (Broker → Broker)) (request : Request) (o : Operation) : MH Reply :=
  match o with
  | DoPage => page
  | DoHealth => health
  | DoStatus => RStatus <$> public_build_status
  | DoMessageTrends q => RTrends <$> message_trends_handler (tq_minutes q)
  | DoAuthStatus => authenticated ← Http.auth_status (r_http request); mret (RAuthStatus (mkAuthStatus authenticated) None)
  | DoLogin b => cookie ← login_handler config (li_password b); mret (RAuthStatus (mkAuthStatus true) (Some cookie))
  | DoLogout => cookie ← logout_handler config (r_http request); mret (RAuthStatus (mkAuthStatus false) (Some cookie))
  | DoStatusDetails => status_details
  | DoListTopics => topics ← http_list_topics; mret (RTopics (mkTopics topics))
  | DoConfigureTopics b => topics ← http_configure_topics (ct_topics b); mret (RTopics (mkTopics topics))
  | DoTopicMessage q =>
      '(topic, offset, total, message) ← Http.topic_message (mq_topic q) (mq_offset q);
      mret (RMessage {| mp_topic := topic; mp_offset := offset; mp_total := total; mp_message := message |})
  | DoPublish b =>
      RPublished <$> Http.publish_message accepts json_to_vec (pm_topic b) (pm_payload b) (pm_attributes b) (pm_idempotency_key b)
  | DoPoll b =>
      RPoll <$> Http.consume_poll config (cp_topic b) (cp_consumer_id b) (cp_consumer_name b) (cp_wait_ms b)
                  (cp_attributes b) others
  | DoAck b =>
      accepted ← Http.consume_ack answered config (ca_message_id b) (ca_lease b) (ca_success b) (ca_error b);
      mret (RAck (mkAckResult accepted))
  | DoRenew b =>
      visibility ← Http.consume_renew config (cr_message_id b) (cr_lease b);
      mret (RRenewed (mkRenewResult true visibility))
  | DoClear q =>
      '(topic, deleted) ← http_clear_topic_messages (mq_topic q); mret (RCleared (mkCleared topic deleted))
  | DoCacheGet q =>
      '(value, ttl_seconds) ← http_cache_get (cq_key q);
      mret (RCacheValue {| cv_key := trim (cq_key q); cv_found := bool_decide (is_Some value); cv_value := value;
                           cv_ttl_seconds := ttl_seconds |})
  | DoCacheSet b =>
      _ ← http_cache_set (ch_key b) (ch_value b) (ch_ttl_seconds b); mret (RCacheWrite (mkCacheWrite (trim (ch_key b)) true))
  | DoCacheDelete q =>
      deleted ← http_cache_delete (cq_key q); mret (RCacheDelete (mkCacheDelete (trim (cq_key q)) deleted))
  | DoCacheKeys =>
      entries ← http_cache_keys;
      mret (RCacheList (mkCacheList (map (λ '(key, value, value_type, ttl), mkCacheEntry key value value_type ttl) entries)))
  | DoCacheIncr b =>
      value ← http_cache_incr overflow_checks (ci_key b) (ci_delta b) (ci_ttl_seconds b);
      mret (RCacheIncr (mkCacheIncrResult (trim (ci_key b)) value))
  | DoLockGet q => locked ← http_lock_get (lq_lock_key q); mret (RLockState (mkLockState (trim (lq_lock_key q)) locked))
  | DoLockRelease q =>
      released ← http_lock_release (lr_lock_key q) (lr_owner q);
      mret (RLockRelease (mkLockReleased (trim (lr_lock_key q)) released))
  | DoLockList =>
      locks ← http_lock_list;
      mret (RLockList (mkLockList (map (λ '(key, row), mkLockEntry key (Cache.l_owner row) (Cache.l_expire row) (Cache.l_create row)) locks)))
  | DoLockAcquire b =>
      acquired ← http_lock_acquire (lb_lock_key b) (lb_owner b) (lb_ttl_seconds b);
      mret (RLockAcquire (mkLockAcquire (trim (lb_lock_key b)) acquired))
  | DoLockRenew b =>
      renewed ← http_lock_renew (lb_lock_key b) (lb_owner b) (lb_ttl_seconds b);
      mret (RLockRenew (mkLockRenew (trim (lb_lock_key b)) renewed))
  | DoElectionGet q =>
      '(found, active, leader) ← Http.election_get (eq_election q); mret (RElection (mkElectionState found active leader))
  | DoCampaign b =>
      '(won, leader) ← Http.election_campaign (ec_election b) (ec_candidate_id b) (ec_ttl_seconds b);
      mret (RCampaign (mkCampaignResult won leader))
  | DoElectionRenew b =>
      '(renewed, leader) ← Http.election_renew (eb_election b) (eb_leader_id b) (eb_term b) (eb_lease_id b) (eb_ttl_seconds b);
      mret (RElectionRenew (mkElectionRenewed renewed leader))
  | DoResign b =>
      resigned ← Http.election_resign (eb_election b) (eb_leader_id b) (eb_term b) (eb_lease_id b);
      mret (RResigned (mkResigned resigned))
  | DoUpgrade => mret (RUpgrade (websocket_peer (r_headers request) (r_peer request)))
  end.

(** The middleware around a handler. *)
Definition guarded {A} (guards : list Guard) (request : HttpRequest) (next : MH A) : MH A :=
  foldr (λ g next, match g with
                   | ServiceToken => require_service_token config request next
                   | AdminSession => require_admin request next
                   end) next guards.

(** The answer of an application to a request.  A request no route serves, or whose
    body cannot be decoded, is answered by axum itself. *)
Definition respond (app : Router) (others : list (Broker → Broker)) (request : Request) : MH Reply :=
  match serves app (r_method request) (r_path request) with
  | None => mret RNotServed
  | Some (guards, e) =>
      guarded guards (r_http request)
        (match extract e request with
         | Some o => perform others request o
         | None => mret RNotServed
         end)
  end.

End service.

End Routes.
