(* ===== verification/RoutesSpec.v ===== *)
(** What the HTTP service as a whole guarantees: whatever its method, path, headers and
    body, a request without credentials changes nothing but statistics and sessions
    (src/src/status.rs). *)

From S2P Require Import Prelude RustStr Topic Model Effects Election Cache Store Db DbSpec DbAdmin DbQuery Writer.
From S2P Require Import Subscribers Auth AuthSpec Net Delivery DeliverySpec Session Observe Service Http Console HttpSpec Config Bodies Routes.
Import Topic Model Store Db DbAdmin DbQuery Subscribers Auth AuthSpec Delivery DeliverySpec Session Observe Http HttpSpec Bodies Routes.

Module RoutesSpec.

(** * The table of routes *)

(** The guards and the endpoints a router has registered. *)
Fixpoint table (r : Router) : list (list Guard * Handler.Endpoint) :=
  match r with
  | new_router => []
  | route _ methods r => map (λ '(_, e), ([], e)) methods ++ table r
  | merge r other => table r ++ table other
  | nest _ inner r => table inner ++ table r
  | route_layer g r => map (λ '(gs, e), (g :: gs, e)) (table r)
  end.

Lemma serves_table `{AxumLaws} r m p gs e : serves r m p = Some (gs, e) → (gs, e) ∈ table r.
Proof.
  revert m p gs e. induction r as [|path methods r IH|r IHr other IHo|prefix inner IHi r IHr|g r IH];
    intros m p gs e Hs; cbn [table].
  - by rewrite serves_new in Hs.
  - apply elem_of_app. apply serves_route in Hs as [Hs|(_ & -> & Hin)]; [right; by eapply IH|left].
    apply list_elem_of_fmap. destruct Hin as [Hin|[_ Hin]]; by eexists (_, e).
  - apply elem_of_app. apply serves_merge in Hs as [Hs|Hs]; [left; by eapply IHr|right; by eapply IHo].
  - apply elem_of_app. apply serves_nest in Hs as [Hs|(_ & p' & Hs)]; [right; by eapply IHr|left; by eapply IHi].
  - apply serves_layer in Hs as (gs' & -> & Hs). apply list_elem_of_fmap. exists (gs', e). split; [done|by eapply IH].
Qed.

(** The endpoints open to everyone. *)
Definition is_public (e : Handler.Endpoint) : bool :=
  match e with
  | Handler.page | Handler.health | Handler.status | Handler.message_trends
  | Handler.auth_status | Handler.login | Handler.logout | Handler.ws_handler => true
  | _ => false
  end.

Lemma app_guarded `{AxumLaws} base mqtt m p gs e :
  serves (status_app base mqtt) m p = Some (gs, e) →
  (is_public e = true ∧ gs = []) ∨ (is_public e = false ∧ (gs = [ServiceToken] ∨ gs = [AdminSession])).
Proof.
  intros Hs%serves_table. revert Hs.
  assert (Forall (λ '(gs, e), (is_public e = true ∧ gs = []) ∨ (is_public e = false ∧ (gs = [ServiceToken] ∨ gs = [AdminSession])))
    (table (status_app base mqtt))) as Hall; [|rewrite Forall_forall in Hall; apply (Hall (gs, e))].
  destruct base, mqtt; vm_compute; repeat (apply Forall_cons; split; [tauto|]); apply Forall_nil; exact I.
Qed.

(** * What reading changes *)

(** Only counters of the statistics differ. *)
Definition counters_only (s s' : Db) : Prop :=
  consumers s' = consumers s ∧ trend_minute s' = trend_minute s ∧ topic_cache s' = topic_cache s ∧
  shards s' = shards s ∧ cursor s' = cursor s ∧ trend_delta s' = trend_delta s ∧
  ∀ topic row, topic_stats s !! topic = Some row → ∃ row', topic_stats s' !! topic = Some row' ∧
    t_delivery row' = t_delivery row ∧ t_persistence row' = t_persistence row ∧ t_configured row' = t_configured row.

#[export] Instance counters_only_preorder : PreOrder counters_only.
Proof.
  split.
  - intros s. unfold counters_only. split_and!; try done. by eauto.
  - intros s1 s2 s3 (? & ? & ? & ? & ? & ? & Hab) (? & ? & ? & ? & ? & ? & Hbc). unfold counters_only.
    split_and!; try congruence. intros topic row (row2 & Hr2 & ? & ? & ?)%Hab.
    apply Hbc in Hr2 as (row3 & ? & ? & ? & ?). exists row3. split_and!; congruence.
Qed.

Section reading.
Context `{Oracle, Chrono, Serde}.

Lemma counters_only_flush : Keeps counters_only flush_topic_stats.
Proof.
  assert (∀ f s, counters_only s (set_stats_delta f s)) as Hd.
  { intros f s. unfold counters_only. cbn. split_and!; try done. by eauto. }
  unfold flush_topic_stats. apply keeps_bind; [apply _| |intros pending].
  { apply keeps_mem. intros s. apply Hd. }
  case_decide; [keeps_go|]. apply keeps_bind; [apply _| |intros [r|e]].
  - apply keeps_attempt. apply keeps_transaction; [apply _| |].
    + intros s s' (? & ? & ? & ? & ? & ? & ?). unfold counters_only. cbn. split_and!; try done. by eauto.
    + keeps_go. subst. unfold counters_only, bump_sql, upsert_stat. cbn. split_and!; try done.
      intros topic row Hrow. rewrite lookup_partial_alter. case_decide; subst; [|by eauto].
      rewrite Hrow. by eexists.
  - keeps_go.
  - keeps_go. apply Hd.
Qed.

Lemma counters_only_snapshot cutoff : Keeps counters_only (status_snapshot cutoff).
Proof.
  unfold status_snapshot, load_queue_depths, ask_shard. apply keeps_bind; [apply _|apply counters_only_flush|intros _].
  keeps_go. reflexivity.
Qed.

Lemma counters_only_size file_len file shard_file : Keeps counters_only (sqlite_size_bytes file_len file shard_file).
Proof. unfold sqlite_size_bytes, ask_shard. keeps_go. Qed.

Lemma counters_only_trends minutes : Keeps counters_only (Db.message_trends minutes).
Proof. unfold Db.message_trends. keeps_go. reflexivity. Qed.

End reading.

(** Of the whole console only statistics and sessions differ. *)
Definition untouched (c c' : Http.Console) : Prop :=
  counters_only (b_db (c_broker c)) (b_db (c_broker c')) ∧
  b_writer (c_broker c') = b_writer (c_broker c) ∧ b_notes (c_broker c') = b_notes (c_broker c) ∧
  b_subs (c_broker c') = b_subs (c_broker c) ∧ b_acks (c_broker c') = b_acks (c_broker c) ∧
  b_sent (c_broker c') = b_sent (c_broker c) ∧
  c_stores c' = c_stores c ∧ c_elections c' = c_elections c ∧ admin_user (c_admin c') = admin_user (c_admin c).

#[export] Instance untouched_preorder : PreOrder untouched.
Proof.
  split.
  - intros c. unfold untouched. by split_and!.
  - intros c1 c2 c3 (Ha & ?) (Hb & ?). unfold untouched. split; [by etrans|]. naive_solver congruence.
Qed.

Lemma same_but_sessions_untouched c c' : same_but_sessions c c' → untouched c c'.
Proof. intros (Hb & Hs & He & Ha). unfold untouched. rewrite Hb. by split_and!. Qed.

Section public.
Context `{Oracle, Chrono, Serde, Passwords}.

Lemma untouched_db {A} (m : M Error Db A) : Keeps counters_only m → Keeps untouched (with_db m).
Proof.
  intros Hm w. unfold with_db, with_broker, Delivery.on_db, map_err_with, zoom. cbn [st tick].
  specialize (Hm (mkWorld (b_db (c_broker (st w))) (tick w))). destruct (m _) as [r w'].
  unfold untouched. by split_and!.
Qed.

Lemma untouched_admin {A} (m : M Error Admin A) :
  Keeps (λ a a', admin_user a' = admin_user a) m → Keeps untouched (with_admin m).
Proof.
  intros Hm w. unfold with_admin, map_err_with, zoom. cbn [st tick].
  specialize (Hm (mkWorld (c_admin (st w)) (tick w))). destruct (m _) as [r w'].
  apply same_but_sessions_untouched. by split_and!.
Qed.

#[local] Instance same_user_preorder : PreOrder (λ a a' : Admin, admin_user a' = admin_user a).
Proof. split; [done|]. intros a b c. congruence. Qed.

Lemma same_user_login password : Keeps (λ a a', admin_user a' = admin_user a) (Auth.login password).
Proof. unfold Auth.login, now_secs. keeps_go; cbn; by try case_match. Qed.

Lemma same_user_logout token : Keeps (λ a a', admin_user a' = admin_user a) (Auth.logout token).
Proof. unfold Auth.logout. keeps_go; done. Qed.

Lemma untouched_session request : Keeps untouched (session_valid request).
Proof.
  intros w. destruct (session_valid_spec request w) as (valid & w1 & -> & Hs & _).
  by apply same_but_sessions_untouched.
Qed.

End public.

(** * Requests without credentials *)

Section requests.
Context `{Oracle, Chrono, Serde, Passwords, AxumLaws}.
Context (format_wall : Z → string).
Context (accepts : nat → bool) (json_to_vec : Json → option (list Z)) (answered : nat → option (result string bool)).
Context (overflow_checks : bool) (config : StatusConfig) (consumer_ttl_secs : Z) (facts : Facts).
Context (mqtt_clients : ClientRegistry) (grpc_clients : GrpcClientRegistry) (timings : Timings).
Context (extract : Handler.Endpoint → Request → option Operation).

#[local] Abbreviation answer := (respond format_wall accepts json_to_vec answered overflow_checks config consumer_ttl_secs facts
  mqtt_clients grpc_clients timings extract).
#[local] Abbreviation handle := (perform format_wall accepts json_to_vec answered overflow_checks config consumer_ttl_secs facts
  mqtt_clients grpc_clients timings).

Lemma untouched_build_status :
  Keeps untouched (Routes.build_broker_status format_wall consumer_ttl_secs facts mqtt_clients grpc_clients timings).
Proof.
  unfold Routes.build_broker_status, status_cutoff.
  apply keeps_bind; [apply _|keeps_go|intros cutoff]. apply keeps_bind; [apply _| |intros snapshot].
  { apply untouched_db, counters_only_snapshot. }
  apply keeps_bind; [apply _|by intros w|intros status]. apply keeps_bind; [apply _| |intros bytes].
  { apply untouched_db, keeps_attempt, counters_only_size. }
  keeps_go.
Qed.

(** A public operation reads. *)
Lemma public_untouched others request o :
  is_public (endpoint_of o) = true → Keeps untouched (handle others request o).
Proof.
  destruct o; intros Ho; try discriminate Ho; cbn [perform]; try by keeps_go.
  - apply keeps_fmap. unfold public_build_status. apply keeps_bind; [apply _|apply untouched_build_status|intros b]. keeps_go.
  - apply keeps_fmap, untouched_db, counters_only_trends.
  - apply keeps_bind; [apply _|apply untouched_session|intros b]. keeps_go.
  - unfold login_handler. keeps_go. apply untouched_admin, same_user_login.
  - unfold logout_handler. keeps_go. apply untouched_admin, same_user_logout.
Qed.

(** C24: Without credentials nothing is managed: with a service token configured, a request
    that carries neither the token nor a session used in the last two hours leaves
    everything but statistics and sessions as it was, whatever its method, path, headers
    and body, and below whatever base path the console is served; every request to a
    management endpoint is answered with 401. *)
Theorem unauthenticated_harmless base mqtt others request expected w :
  (∀ e r o, extract e r = Some o → endpoint_of o = e) →
  st_auth_token config = Some expected →
  http_token (rq_authorization (r_http request)) (rq_query (r_http request)) ≠ Some expected →
  ¬ signed_in (r_http request) w →
  let app := status_app base mqtt in
  let '(answered, w') := answer app others request w in
  untouched (st w) (st w') ∧
  ∀ guards e, serves app (r_method request) (r_path request) = Some (guards, e) → is_public e = false →
    answered = Err UNAUTHORIZED.
Proof.
  intros Hex Htok Hreq Hsess app. unfold respond.
  destruct (serves app _ _) as [[guards e]|] eqn:Hs.
  2: { split; [reflexivity|]. by intros guards e. }
  set (next := match extract e request with Some o => handle others request o | None => mret RNotServed end).
  pose proof Hs as Hg. apply app_guarded in Hg as [[Hpub ->]|[Hpub Hg]].
  - cbn [guarded foldr].
    assert (Keeps untouched next) as Hk.
    { unfold next. destruct (extract e request) as [o|] eqn:Ho; [|keeps_go]. apply public_untouched. by rewrite (Hex _ _ _ Ho). }
    specialize (Hk w). destruct (next w) as [r w'].
    split; [exact Hk|]. intros guards e' [= <- <-] Hpriv. congruence.
  - destruct (management_guarded config (r_http request) next w) as [(w1 & Hw1 & Hadmin) Htoken].
    destruct Hg as [-> | ->]; cbn [guarded foldr].
    + rewrite Htoken, Htok, decide_False by done. split; [reflexivity|done].
    + destruct Hadmin as [[Hin _]|Hrun]; [done|]. rewrite Hrun.
      split; [by apply same_but_sessions_untouched|done].
Qed.

End requests.

(** * A concrete router *)

(** The endpoint of a method; [get] answers HEAD requests. *)
Definition method_endpoint (m : Method) (methods : list (Method * Handler.Endpoint)) : option Handler.Endpoint :=
  match List.find (λ '(m', _), bool_decide (m' = m) || (bool_decide (m = HEAD) && bool_decide (m' = GET))) methods with
  | Some (_, e) => Some e
  | None => None
  end.

Fixpoint find_route (r : Router) (m : Method) (p : string) : option (list Guard * Handler.Endpoint) :=
  match r with
  | new_router => None
  | route path methods r =>
      match find_route r m p with
      | Some a => Some a
      | None => if bool_decide (p = path) then pair [] <$> method_endpoint m methods else None
      end
  | merge r other => match find_route r m p with Some a => Some a | None => find_route other m p end
  | nest prefix inner r =>
      match find_route r m p with
      | Some a => Some a
      | None => rest ← strip_prefix prefix p; find_route inner m (if is_empty rest then "/" else rest)
      end
  | route_layer g r => '(gs, e) ← find_route r m p; Some (g :: gs, e)
  end.

#[local] Instance demo_axum : Axum := { serves := find_route }.

#[local] Instance demo_axum_laws : AxumLaws.
Proof.
  split; cbn [serves demo_axum find_route].
  - done.
  - intros path methods r m p gs e. destruct (find_route r m p) as [a|]; [by left|]. case_bool_decide as Hp; [|done].
    unfold method_endpoint. destruct (List.find _ methods) as [[m' e']|] eqn:Hf; [|done]. intros [= <- <-].
    apply List.find_some in Hf as [Hin Hm]. rewrite <-list_elem_of_In in Hin. right. split_and!; [done..|].
    apply orb_true_iff in Hm as [Hm%bool_decide_eq_true|[H1%bool_decide_eq_true H2%bool_decide_eq_true]%andb_true_iff]; subst; auto.
  - intros r other m p a. destruct (find_route r m p); auto.
  - intros prefix inner r m p a. destruct (find_route r m p); [auto|].
    destruct (strip_prefix prefix p) as [rest|] eqn:Hp; [|done]. cbn [mbind option_bind]. intros Ha. right.
    split; [|by eexists]. unfold starts_with. by rewrite Hp.
  - intros g r m p gs e. destruct (find_route r m p) as [[gs' e']|]; [|done]. cbn [mbind option_bind].
    intros [= <- <-]. by eexists.
Qed.

(** A request to clear a topic, with a wrong token. *)
Definition demo_request (path : string) : Request :=
  {| r_method := DELETE; r_path := path; r_http := mkRequest (Some "Bearer guess") None None; r_headers := ∅; r_peer := None |}.

Definition demo_status_config : StatusConfig := status_config 30 10 500 (Some "secret") (Some "/msg") false.

Definition demo_facts : Facts :=
  {| f_html := "<head></head>"; f_version := "1"; f_git := ""; f_build_time := ""; f_started := 0; f_file_len _ := 0;
     f_control_file := None; f_shard_file _ := "" |}.

Definition demo_timings : Timings :=
  {| ADMISSION := timing_new; WRITE_QUEUE := timing_new; PERSIST := timing_new; CLAIM := timing_new;
     QUEUE_WAIT := timing_new; SEND := timing_new; ACK_WAIT := timing_new; ACK_COMMIT := timing_new |}.

(** A decoder that reads every body as one request. *)
Definition demo_extract (e : Handler.Endpoint) (r : Request) : option Operation :=
  if decide (e = Handler.clear_topic_messages) then Some (DoClear (mkMessagesQuery "a/b" 0)) else None.

Definition demo_answer : result StatusCode Reply * World Http.Console :=
  respond (H := still_oracle) (H0 := demo_chrono) (H1 := demo_serde) (H2 := demo_passwords) (H3 := demo_axum)
    (λ _, "") (λ _, true) (λ _, None) (λ _, None) true demo_status_config 60 demo_facts ∅ no_clients demo_timings demo_extract
    (status_app (Some "/msg") true) [] (demo_request "/msg/ui/messages") (mkWorld demo_console 100).

Lemma unauthenticated_harmless_witness :
  untouched demo_console (st demo_answer.2) ∧ demo_answer.1 = Err UNAUTHORIZED.
Proof.
  pose proof (unauthenticated_harmless (H := still_oracle) (H0 := demo_chrono) (H1 := demo_serde) (H2 := demo_passwords)
    (H3 := demo_axum) (H4 := demo_axum_laws)
    (λ _, "") (λ _, true) (λ _, None) (λ _, None) true demo_status_config 60 demo_facts ∅ no_clients demo_timings demo_extract
    (Some "/msg") true [] (demo_request "/msg/ui/messages") "secret" (mkWorld demo_console 100)) as Hw.
  destruct Hw as [Hu Hr].
  - intros e r0 o. unfold demo_extract. case_decide; [|done]. by intros [= <-].
  - vm_compute. reflexivity.
  - by vm_compute.
  - intros (token & seen & Htoken & _). by vm_compute in Htoken.
  - split; [exact Hu|]. apply (Hr [AdminSession] Handler.clear_topic_messages); vm_compute; reflexivity.
Defined.

End RoutesSpec.
