(* ===== verification/Lifecycle.v ===== *)
(** The life of the broker process: src/src/main.rs, [main], with the tasks
    [QueueWriter::start] and [QueueWriter::shutdown] of src/src/writer.rs start and end.

    The state is the disk and what the process keeps in memory.  What the services do
    between the start and the end is a parameter. *)

From S2P Require Import Prelude RustStr Topic Model Effects Store Db DbQuery DbOpen Writer Auth Net Delivery Service Http Config.
Import Store Db DbQuery DbOpen Writer Auth Net.

Module Lifecycle.

(** * The statistics task *)

(** What the task of [QueueWriter::start] wakes up for: one of its two intervals or the
    shutdown channel; in between other tasks use the database. *)
Inductive StatsTurn :=
  | StatsInterval
  | TrendInterval
  | Changed (stop : bool)
  | Others (f : Db → Db).

Section stats.
Context `{Oracle, Chrono}.

(** The flushes after the loop. *)
Definition final_flush : M Error Db () :=
  _ ← best_effort flush_topic_stats;
  best_effort flush_message_trends.

(** The task; without a stop it is still running when the turns are over. *)
Fixpoint stats_worker (turns : list StatsTurn) : M Error Db () :=
  match turns with
  | [] => mret ()
  | StatsInterval :: turns => _ ← best_effort flush_topic_stats; stats_worker turns
  | TrendInterval :: turns => _ ← best_effort flush_message_trends; stats_worker turns
  | Changed stop :: turns => if stop : bool then final_flush else stats_worker turns
  | Others f :: turns => _ ← mem (λ s, ((), f s)); stats_worker turns
  end.

End stats.

(** * The process *)

(** The disk, the tables of the administrator, the channels of the writer, and what its
    workers share. *)
Record Machine := mkMachine {
  h_disk : Disk;
  h_admin : Admin;
  h_queues : QueueWriter;
  h_notes : QueueNotifications;
  h_replies : gmap nat (result string bool);
  h_stopped : list nat
}.

Definition set_disk d h := mkMachine d (h_admin h) (h_queues h) (h_notes h) (h_replies h) (h_stopped h).
Definition set_admin a h := mkMachine (h_disk h) a (h_queues h) (h_notes h) (h_replies h) (h_stopped h).
Definition set_queues q h := mkMachine (h_disk h) (h_admin h) q (h_notes h) (h_replies h) (h_stopped h).

(** The machine as a worker sees it. *)
Definition worker_of (h : Machine) : Worker :=
  mkWorker (k_tables (h_disk h)) (h_notes h) (h_replies h) (h_stopped h).
Definition put_worker (k : Worker) (h : Machine) : Machine :=
  mkMachine (set_tables (k_db k) (h_disk h)) (h_admin h) (h_queues h) (k_notes k) (k_replies k) (k_stopped k).

Section process.
Context `{Oracle, Chrono, Serde, Passwords}.

(** When commands arrive at a worker, see [Writer]. *)
Context (arrives : nat → nat).

(** What the system answers: creating a directory, listening on an address, building
    the HTTP client. *)
Context (create_dir_all : string → result string ()) (bind : SocketAddr → result string ()) (client : result string ()).

Abbreviation MM := (M Error Machine).

Definition on_disk {A} (m : M Error Disk A) : MM A := zoom h_disk set_disk m.
Definition on_tables {A} (m : M Error Db A) : MM A := on_disk (DbOpen.on_tables m).
Definition on_admin {A} (m : M Error Admin A) : MM A := zoom h_admin set_admin m.
Definition on_queues {A} (m : M Error QueueWriter A) : MM A := zoom h_queues set_queues m.
Definition as_worker {A} (m : M Error Worker A) : MM A := zoom worker_of put_worker m.

(** An operation of the system, with [?]. *)
Definition io (r : result string ()) : MM () := lift (map_err Failure r).

(** [WebAuth::open]: the connection and its two CREATE TABLE IF NOT EXISTS. *)
Definition web_auth_open : M Error Admin () :=
  _ ← query (λ _, ());
  _ ← query (λ _, ());
  query (λ _, ()).

(** [let _ = handle.await] for a spawned task: a panic ends the task and no other. *)
Definition join {A} (task : MM A) : MM (option A) := λ w,
  match task w with
  | (Ok a, w) => (Ok (Some a), w)
  | (Err _, w) => (Ok None, w)
  end.

(** ** The start *)

(** The sub-command [ResetPassword]: the database is closed whatever the result. *)
Definition reset_command (config : Config.Config) (password : option string) : MM string :=
  _ ← on_disk (connect (Config.config_database_url config));
  _ ← on_admin web_auth_open;
  result ← attempt (on_admin (reset_password password));
  _ ← on_tables close;
  lift result.

(** The listeners of [main] before the gRPC server. *)
Definition listen (config : Config.Config) : MM () :=
  _ ← io (bind (Config.status_listen_addr config));
  _ ← io client;
  _ ← (if Config.mqtt_enabled config && negb (Config.mqtt_port config =? 0)
       then io (bind (Config.mqtt_listen_addr config)) else mret ());
  if Config.mqtt_enabled config && negb (Config.mqtt_ws_port config =? 0)
  then io (bind (Config.mqtt_ws_listen_addr config)) else mret ().

(** Whether MQTT is attached to the status port. *)
Definition mqtt_on_status (config : Config.Config) : bool :=
  Config.mqtt_enabled config && (Config.mqtt_ws_port config =? 0).

(** [main] up to the spawning of its tasks. *)
Definition start_up (config : Config.Config) : MM () :=
  _ ← on_disk (connect (Config.config_database_url config));
  _ ← on_admin web_auth_open;
  _ ← on_admin (ensure_initial_admin (Config.admin_password config));
  queues ← on_tables (start (Config.write_queue_size config));
  _ ← mem (λ h, ((), set_queues queues h));
  listen config.

(** ** The end *)

(** The workers end: each takes what its channel still delivers.  [None] stands for a
    commit that never succeeds. *)
Fixpoint run_workers (fuel batch_size : nat) (channels : list (option (list WriteCommand))) : MM (option ()) :=
  match channels with
  | [] => mret (Some ())
  | None :: channels => run_workers fuel batch_size channels
  | Some commands :: channels =>
      ended ← join (as_worker (run_writer arrives (length commands) fuel batch_size commands));
      match ended with
      | Some None => mret None
      | _ => run_workers fuel batch_size channels
      end
  end.

(** [queue_writer.shutdown()] and the end of its task: the workers are told to stop and
    do, then the statistics task; [first] numbers the responses. *)
Definition stop_writer (fuel batch_size first : nat) : MM (option ()) :=
  _ ← on_queues (writer_shutdown first);
  channels ← mem (λ h, (tx (h_queues h), h));
  ended ← run_workers fuel batch_size channels;
  match ended with
  | None => mret None
  | Some _ => _ ← join (on_tables (stats_worker [Changed true])); mret (Some ())
  end.

(** [main] after its services have ended with [result]. *)
Definition shut_down (fuel batch_size first : nat) (result : result Error ()) : MM (option ()) :=
  ended ← stop_writer fuel batch_size first;
  match ended with
  | None => mret None
  | Some _ =>
      _ ← on_tables close;
      Some <$> lift result
  end.

(** The gRPC server and the tasks, until all have ended: a parameter but for the
    address the server listens on. *)
Context (services : MM ()).

Definition serve (config : Config.Config) : MM () :=
  _ ← io (bind (Config.grpc_listen_addr config));
  services.

(** [main]: the exit of the process; [None] while the writer still fails to commit. *)
Definition main (fuel first : nat) (config : Config.Config) : MM (option ()) :=
  _ ← lift (Config.init_logging create_dir_all config);
  match Config.command config with
  | Some (Config.ResetPassword password) => _ ← reset_command config password; mret (Some ())
  | None =>
      _ ← start_up config;
      result ← attempt (serve config);
      shut_down fuel (Z.to_nat (Z.max (Config.write_batch_size config) 1)) first result
  end.

End process.

End Lifecycle.
