(* ===== verification/LifecycleSpec.v ===== *)
(** What the end of the broker process guarantees: it ends, and nothing that was
    accepted is lost, in this process or the next (src/src/main.rs). *)

From S2P Require Import Prelude RustStr Topic Model Effects Store Db DbInv DbSpec DbAdmin DbQuery DbOpen DbOpenSpec.
From S2P Require Import Writer WriterSpec WriterRun Auth AuthSpec Net Config Restart Lifecycle.
Import Model Store Db DbInv DbSpec DbAdmin DbQuery DbOpen DbOpenSpec Writer WriterSpec WriterRun Auth AuthSpec Net Restart Lifecycle.

Module LifecycleSpec.

(** * The channels of the writer *)

(** The publishes and the acknowledgements a channel delivers before a shutdown. *)
Definition waiting (commands : list WriteCommand) : list WriteCommand := (until_stop commands).1.1.

Definition channel_items (channel : option (list WriteCommand)) : list EnqueueInput :=
  if channel is Some commands then enqueues (waiting commands) else [].
Definition channel_acks (channel : option (list WriteCommand)) : list (string * string * nat) :=
  if channel is Some commands then acknowledgements (waiting commands) else [].
Definition channel_stop (channel : option (list WriteCommand)) : list nat :=
  if channel is Some commands then option_list (until_stop commands).1.2 else [].

Section shutdown.
Context `{Oracle}.

Definition told (first i : nat) (channel : option (list WriteCommand)) : option (list WriteCommand) :=
  (λ commands, commands ++ [Shutdown (first + i)]) <$> channel.

Lemma told_waiting first i channel :
  channel_items (told first i channel) = channel_items channel ∧
  channel_acks (told first i channel) = channel_acks channel.
Proof.
  destruct channel as [commands|]; [|done]. unfold channel_items, channel_acks, told, waiting. cbn [fmap option_fmap option_map].
  assert ((until_stop (commands ++ [Shutdown (first + i)])).1.1 = (until_stop commands).1.1) as ->; [|done].
  induction commands as [|[] commands IH]; [done|..|done]; cbn [until_stop app];
    destruct (until_stop (commands ++ _)) as [[??]?], (until_stop commands) as [[??]?]; simpl in *; congruence.
Qed.

(** [shutdown] puts a shutdown behind what every channel has. *)
Lemma writer_shutdown_run first w :
  ∃ waits w', writer_shutdown first w = (Ok waits, w') ∧ tick w' = tick w ∧ recent_ids (st w') = recent_ids (st w) ∧
    length (tx (st w')) = length (tx (st w)) ∧
    ∀ i channel, (i < 16)%nat → tx (st w) !! i = Some channel → tx (st w') !! i = Some (told first i channel).
Proof.
  unfold writer_shutdown. set (f := λ waits i, _). generalize (@nil nat) as waits.
  assert (∀ n k waits w, ∃ waits' w', fold_each (seq k n) waits f w = (Ok waits', w') ∧ tick w' = tick w ∧
    recent_ids (st w') = recent_ids (st w) ∧ length (tx (st w')) = length (tx (st w)) ∧
    ∀ i channel, tx (st w) !! i = Some channel →
      tx (st w') !! i = Some (if decide (k <= i < k + n)%nat then told first i channel else channel)) as Hrun.
  { induction n as [|n IH]; intros k ws w0.
    { eexists _, _. split; [done|]. split_and!; try done. intros i channel Hi. by rewrite decide_False by lia. }
    cbn [seq fold_each]. rewrite run_bind. unfold f at 1. rewrite run_bind. unfold mem, send.
    set (w1 := mkWorld (match tx (st w0) !! k with Some (Some queue) =>
      mkWriter (recent_ids (st w0)) (<[k := Some (queue ++ [Shutdown (first + k)])]> (tx (st w0))) | _ => st w0 end) (tick w0)).
    assert (∃ ws1, (let '(a, s) := match tx (st w0) !! k with
      | Some (Some queue) => (true, mkWriter (recent_ids (st w0)) (<[k := Some (queue ++ [Shutdown (first + k)])]> (tx (st w0))))
      | _ => (false, st w0) end in (Ok a, mkWorld s (tick w0))) = (Ok ws1 : result Error bool, w1)) as [sent Hsent].
    { unfold w1. destruct (tx (st w0) !! k) as [[q|]|]; by eexists. }
    rewrite Hsent. destruct w0 as [s0 t0]. cbn [st tick] in *. run.
    destruct (IH (S k) (if sent then ws ++ [(first + k)%nat] else ws) w1) as (ws' & w' & -> & Ht & Hrec & Hlen & Htx).
    eexists _, _. split; [done|]. rewrite Ht, Hrec, Hlen. unfold w1 in *. cbn [st tick] in *. split_and!; try done.
    - by destruct (tx s0 !! k) as [[q|]|].
    - destruct (tx s0 !! k) as [[q|]|]; [|done..]. cbn [tx]. by rewrite length_insert.
    - intros i channel Hi.
      assert (tx (match tx s0 !! k with Some (Some queue) => mkWriter (recent_ids s0)
        (<[k := Some (queue ++ [Shutdown (first + k)])]> (tx s0)) | _ => s0 end) !! i =
        Some (if decide (i = k) then told first i channel else channel)) as H1.
      { destruct (decide (i = k)) as [->|Hne].
        - rewrite Hi. destruct channel as [q|]; [|done]. cbn [tx]. by rewrite list_lookup_insert_eq by (by eapply lookup_lt_Some).
        - destruct (tx s0 !! k) as [[q|]|]; [|done..]. cbn [tx]. by rewrite list_lookup_insert_ne. }
      rewrite (Htx _ _ H1). f_equal. repeat case_decide; try lia; done. }
  intros ws. destruct (Hrun 16%nat 0%nat ws w) as (waits' & w' & Hr & Ht & Hrec & Hlen & Htx).
  exists waits', w'. split_and!; try done. intros i channel Hi Hc. rewrite (Htx _ _ Hc). by rewrite decide_True by lia.
Qed.

End shutdown.

(** * The workers end *)

Section workers.
Context `{Oracle, Chrono, Serde}.
Context (arrives : nat → nat) (N fuel batch_size : nat).
Context (Hcalm : calm_from N) (Hfuel : (N < fuel)%nat).

Definition tables (h : Machine) : Db := k_tables (h_disk h).

Definition all_items (channels : list (option (list WriteCommand))) : list EnqueueInput :=
  concat (map channel_items channels).

(** The publishes in the channels have identifiers of their own, not in use yet. *)
Definition channels_ok (channels : list (option (list WriteCommand))) (s : Db) : Prop :=
  NoDup (in_id <$> all_items channels) ∧
  Forall (λ channel, ∃ i, committable i (channel_items channel) s) channels.

Lemma channels_ok_cons channel channels s s' :
  channels_ok (channel :: channels) s → persists (in_id <$> channel_items channel) s s' → channels_ok channels s'.
Proof.
  intros [Hnd Hall] Hp. unfold all_items in Hnd. cbn [map concat] in Hnd. rewrite fmap_app in Hnd.
  apply NoDup_app in Hnd as (_ & Hdis & Hnd). split; [done|].
  apply Forall_cons in Hall as [_ Hall]. rewrite Forall_forall in *. intros other Hin.
  destruct (Hall other Hin) as (i & Ho & Hj & Hn & HL & Hun). exists i. destruct Hp as (L & _ & Hnew).
  split; [done|]. split; [done|]. split; [done|]. split; [congruence|]. intros k item Hk _. apply Hnew; [|by apply (Hun k)].
  intros Hid. apply (Hdis _ Hid). apply list_elem_of_fmap. exists item. split; [done|].
  rewrite list_elem_of_In. apply in_concat. exists (channel_items other). rewrite <-!list_elem_of_In.
  split; [by apply list_elem_of_fmap_2|]. by eapply list_elem_of_lookup_2.
Qed.

(** What the workers have done to the machine when they end. *)
Definition drained (channels : list (option (list WriteCommand))) (h h' : Machine) : Prop :=
  persists (in_id <$> all_items channels) (tables h) (tables h') ∧
  (∀ item, item ∈ all_items channels → ∃ r, stored (tables h') item r) ∧
  (∀ r, is_Some (h_replies h !! r) → is_Some (h_replies h' !! r)) ∧
  (∀ ack, ack ∈ concat (map channel_acks channels) → is_Some (h_replies h' !! ack.2)) ∧
  h_stopped h' = h_stopped h ++ concat (map channel_stop channels) ∧
  h_disk h' = set_tables (tables h') (h_disk h).

Lemma run_join {A} (m : M Error Machine A) w a w' : m w = (Ok a, w') → join m w = (Ok (Some a), w').
Proof. unfold join. by intros ->. Qed.

Lemma run_workers_spec channels w :
  channels_ok channels (tables (st w)) →
  ∃ w', run_workers arrives fuel batch_size channels w = (Ok (Some ()), w') ∧ drained channels (st w) (st w').
Proof.
  revert w. induction channels as [|channel channels IH]; intros w Hok.
  { exists w. split; [done|]. unfold drained. split; [by apply persists_shards|].
    split; [by intros ? ?%elem_of_nil|]. split; [done|]. split; [by intros ? ?%elem_of_nil|].
    split; [by rewrite app_nil_r|]. unfold tables. by destruct (h_disk (st w)). }
  destruct channel as [commands|]; cbn [run_workers].
  - pose proof Hok as [_ Hall]. apply Forall_cons in Hall as [[i Hc] _].
    destruct (until_stop commands) as [[before response] after] eqn:Hstop.
    assert (channel_items (Some commands) = enqueues before) as Hit by (unfold channel_items, waiting; by rewrite Hstop).
    destruct (run_writer_spec arrives N i batch_size fuel Hcalm Hfuel (length commands) commands
      (mkWorld (worker_of (st w)) (tick w)) before response after) as (w1 & Hrun & P & S & R & A & T);
      [done|done|by rewrite <-Hit|].
    assert (as_worker (run_writer arrives (length commands) fuel batch_size commands) w =
      (Ok (Some after), mkWorld (put_worker (st w1) (st w)) (tick w1))) as Hw1.
    { unfold as_worker, zoom. by rewrite Hrun. }
    rewrite run_bind, (run_join _ _ _ _ Hw1). set (w2 := mkWorld _ _).
    destruct (IH w2) as (w' & Hrun' & P' & S' & R' & A' & T' & D').
    { eapply channels_ok_cons; [done|]. by rewrite Hit. }
    exists w'. split; [done|]. unfold drained, all_items. cbn [map concat]. fold (all_items channels).
    unfold channel_acks, channel_stop, waiting. rewrite Hit, Hstop. cbn [fst snd]. rewrite fmap_app.
    split; [|split; [|split; [|split; [|split]]]].
    + etrans; [eapply persists_mono; [|exact P]|eapply persists_mono; [|exact P']]; set_solver.
    + intros item [Hi|Hi]%elem_of_app; [|by apply S']. destruct (S item Hi) as [r Hr]. exists r.
      by eapply persists_stored.
    + intros r Hr. apply R'. by apply R.
    + intros ack [Ha|Ha]%elem_of_app; [|by apply A']. by apply R', A.
    + rewrite T'. unfold w2. cbn. rewrite T. by rewrite app_assoc.
    + etrans; [exact D'|]. done.
  - destruct (IH w) as (w' & Hrun & P & S & R & A & T & D).
    { by eapply channels_ok_cons. }
    exists w'. split; [done|]. unfold drained, all_items. cbn [map concat app channel_items channel_acks channel_stop]. done.
Qed.

End workers.

(** * Closing *)

Section closing.
Context `{Oracle, Chrono, Serde}.

(** chrono can go a week back from every reading of the clock. *)
Definition clock_sane : Prop := ∀ n, is_Some (add_duration (clock n) (- (7 * 86400 * 10 ^ 9))).

Lemma no_panic_attempt {St A B} (m : M Error St A) (f : result Error A → M Error St B) :
  NoPanic m → (∀ a, NoPanic (f (Ok a))) → (∀ message, NoPanic (f (Err (Failure message)))) → NoPanic (attempt m ≫= f).
Proof.
  intros Hm Hok Herr w message. specialize (Hm w). unfold mbind, M_bind, attempt.
  destruct (m w) as [[a|[text|text]] w']; [apply Hok|apply Herr|]. by destruct (Hm text).
Qed.

Lemma no_panic_flush_stats : NoPanic flush_topic_stats.
Proof.
  unfold flush_topic_stats, control_tx. apply no_panic_bind; [apply no_panic_mem|intros pending].
  case_decide; [apply no_panic_ret|]. apply no_panic_attempt; [no_panic_go|intros; no_panic_go..].
Qed.

Lemma no_panic_flush_trends : clock_sane → NoPanic flush_message_trends.
Proof.
  intros Hsane. unfold flush_message_trends, control_tx. apply no_panic_bind; [apply no_panic_mem|intros pending].
  case_decide; [apply no_panic_ret|]. apply no_panic_attempt; [|intros; no_panic_go..].
  apply no_panic_transaction. do 2 (apply no_panic_bind; [no_panic_go|intros ?]).
  intros w message. rewrite run_bind, run_now, run_bind. unfold add_time. destruct (Hsane (tick w)) as [t ->].
  rewrite run_ret. apply no_panic_stmt_at.
Qed.

(** What is done as far as possible succeeds. *)
Lemma best_effort_run {A} (m : M Error Db A) w : NoPanic m → best_effort m w = (Ok (), (m w).2).
Proof.
  intros Hm. unfold best_effort. rewrite run_bind, run_attempt. specialize (Hm w).
  destruct (m w) as [[a|[text|text]] w']; [done|done|]. by destruct (Hm text).
Qed.

Lemma best_effort_each {A} (l : list nat) (m : nat → M Error Db A) w :
  (∀ i, NoPanic (m i)) → ∃ w', for_each l (λ i, best_effort (m i)) w = (Ok (), w').
Proof. intros Hm. apply for_each_total. intros i w0. rewrite best_effort_run by done. by eexists. Qed.

Lemma close_run w :
  clock_sane → ∃ w', close w = (Ok (), w') ∧ same_shards (st w) (st w').
Proof.
  intros Hsane. assert (∃ w', close w = (Ok (), w')) as [w' Hw'].
  { unfold close. rewrite run_bind, best_effort_run by apply no_panic_flush_stats.
    rewrite run_bind, best_effort_run by (by apply no_panic_flush_trends).
    rewrite run_bind, best_effort_run by apply no_panic_stmt_at. apply best_effort_each. intros i. apply no_panic_stmt_at. }
  exists w'. split; [done|]. pose proof (shards_close w) as Hs. by rewrite Hw' in Hs.
Qed.

Context `{!OrderLaws}.

(** While the storage does not fail, a flush leaves nothing in memory. *)
Lemma flush_from w : calm_from (tick w) → stats_delta (st (flush_topic_stats w).2) = ∅.
Proof.
  intros Hc. assert (∃ n w', flush_topic_stats w = (Ok n, w')) as (n & w' & Hf).
  { unfold flush_topic_stats. run. case_decide; [run; eauto|].
    rewrite run_bind, run_attempt. match goal with |- context [control_tx ?b _] => set (body := b) end.
    set (w1 := mkWorld _ (tick w)).
    assert (Ticks body) as Ht by (unfold body, rfc_now; ticks_go).
    assert (∃ w2, body (mkWorld (st w1) (S (tick w1))) = (Ok (), w2)) as [w2 Hb].
    { assert (∀ t rows s k, (tick w <= k)%nat → ∃ w2, for_each rows (λ '(topic, d), stmt (λ s, ((),
        bump_sql topic (d_accepted d) (d_duplicates d) (d_delivered d) 0 0 t s))) (mkWorld s k) = (Ok (), w2)) as Hrows.
      { intros t rows. induction rows as [|[topic d] rows IH]; intros s k Hk; cbn [for_each]; [by eexists|].
        run. rewrite Hc by done. run. apply IH. lia. }
      unfold body, rfc_now. run. apply Hrows. simpl. lia. }
    specialize (Ht (mkWorld (st w1) (S (tick w1)))). rewrite Hb in Ht. simpl in Ht.
    unfold control_tx. erewrite transaction_total; [|exact Hc|done|simpl; lia]. run. eauto. }
  pose proof (flush_counts w) as Hcnt. rewrite Hf in Hcnt |- *. destruct Hcnt as [_ Hd]. by apply (Hd n).
Qed.

Lemma flush_trends_delta : Keeps (λ s s', stats_delta s = ∅ → stats_delta s' = ∅) flush_message_trends.
Proof.
  assert (PreOrder (λ s s' : Db, stats_delta s = ∅ → stats_delta s' = ∅)) by (split; [by intros s|]; intros s1 s2 s3; auto).
  unfold flush_message_trends. keeps_go; try done. apply keeps_transaction; [apply _|done|]. keeps_go; done.
Qed.

Lemma flush_delta : Keeps (λ s s', stats_delta s = ∅ → stats_delta s' = ∅) flush_topic_stats.
Proof.
  intros w Hd. unfold flush_topic_stats. run. by rewrite decide_True.
Qed.

(** The statistics task and [close] write the statistics. *)
Lemma final_flush_run w :
  clock_sane → ∃ w', stats_worker [Changed true] w = (Ok (), w') ∧ same_shards (st w) (st w') ∧
    (calm_from (tick w) → stats_delta (st w') = ∅).
Proof.
  intros Hsane. cbn [stats_worker]. unfold final_flush. rewrite run_bind, best_effort_run by apply no_panic_flush_stats.
  rewrite best_effort_run by (by apply no_panic_flush_trends). eexists. split; [done|]. split.
  - etrans; [apply shards_flush_topic_stats|apply shards_flush_message_trends].
  - intros Hc. by apply flush_trends_delta, flush_from.
Qed.

Lemma close_delta w : stats_delta (st w) = ∅ → stats_delta (st (close w).2) = ∅.
Proof.
  assert (PreOrder (λ s s' : Db, stats_delta s = ∅ → stats_delta s' = ∅)) by (split; [by intros s|]; intros s1 s2 s3; auto).
  assert (Keeps (λ s s' : Db, stats_delta s = ∅ → stats_delta s' = ∅) close) as Hk; [|apply Hk].
  unfold close, best_effort, ask_shard. keeps_go; [apply flush_delta|apply flush_trends_delta].
Qed.

End closing.

(** * The clock of the workers *)

Section moving_on.
Context `{Oracle, Chrono, Serde} (arrives : nat → nat).

Lemma ticks_zoom {E St Sub A} (get : St → Sub) put (m : M E Sub A) : Ticks m → Ticks (zoom get put m).
Proof. intros Hm w. unfold zoom. specialize (Hm (mkWorld (get (st w)) (tick w))). by destruct (m _). Qed.

Lemma ticks_persist fuel inputs : Ticks (persist fuel inputs).
Proof.
  induction fuel as [|fuel IH]; cbn [persist]; [ticks_go|]. apply ticks_bind.
  - apply ticks_attempt, ticks_zoom, ticks_enqueue_batch.
  - intros [r|e]; [ticks_go|apply IH].
Qed.

Lemma ticks_write_enqueues fuel inputs : Ticks (write_enqueues fuel inputs).
Proof.
  unfold write_enqueues. destruct inputs; [ticks_go|]. apply ticks_bind; [apply ticks_persist|].
  intros [results|]; [|ticks_go]. apply ticks_bind; [|intros; ticks_go]. apply ticks_for_each. intros [topic [id dup]].
  unfold notify_one. cbn [snd]. destruct dup; ticks_go.
Qed.

Lemma ticks_write_delivered acks : Ticks (write_delivered acks).
Proof.
  unfold write_delivered. destruct acks; [ticks_go|]. apply ticks_bind.
  - apply ticks_attempt, ticks_zoom, ticks_delivered_batch.
  - intros [results|e]; apply ticks_for_each; [intros [ack result]|intros ack]; unfold reply; ticks_go.
Qed.

Lemma ticks_run_writer rounds fuel batch_size commands : Ticks (run_writer arrives rounds fuel batch_size commands).
Proof.
  revert commands. induction rounds as [|rounds IH]; intros commands; [cbn [run_writer]; ticks_go|].
  assert (∀ c rest, Ticks (λ w,
    let '(batch, shutdown, rest) := take_batch (Nat.min (batch_size - 1) (arrives (tick w))) rest in
    let batch := c :: batch in
    (written ← write_enqueues fuel (enqueues batch);
     if negb written then mret None
     else
     _ ← write_delivered (acknowledgements batch);
     match shutdown with
     | Some response => _ ← stop response; mret (Some rest)
     | None => run_writer arrives rounds fuel batch_size rest
     end) w)) as Hround.
  { intros c rest w. destruct (take_batch _ rest) as [[batch shutdown] after]. cbv zeta.
    match goal with |- (_ <= tick (?m w).2)%nat => enough (Ticks m) as HT by apply HT end.
    apply ticks_bind; [apply ticks_write_enqueues|intros [|]; cbn [negb]; [|ticks_go]].
    apply ticks_bind; [apply ticks_write_delivered|intros _].
    destruct shutdown; [|apply IH]. unfold stop. ticks_go. }
  destruct commands as [|[] commands]; cbn [run_writer]; [ticks_go|apply Hround..|]. unfold stop. ticks_go.
Qed.

Lemma ticks_run_workers fuel batch_size channels : Ticks (run_workers arrives fuel batch_size channels).
Proof.
  induction channels as [|[commands|] channels IH]; cbn [run_workers]; [ticks_go| |apply IH].
  apply ticks_bind.
  - intros w. unfold join. pose proof (ticks_zoom worker_of put_worker _ (ticks_run_writer (length commands) fuel batch_size commands) w) as Ht.
    unfold as_worker. by destruct (zoom _ _ _ w) as [[a|e] w'].
  - intros [[rest|]|]; [apply IH|ticks_go|apply IH].
Qed.

End moving_on.

(** * The end of the process *)

Section ending.
Context `{Oracle, Chrono, Serde, !OrderLaws}.
Context (arrives : nat → nat) (N fuel batch_size first : nat).
Context (Hcalm : calm_from N) (Hfuel : (N < fuel)%nat) (Hsane : clock_sane).

(** What the end of the process leaves of the machine [h] it found. *)
Definition ended (h h' : Machine) : Prop :=
  persists (in_id <$> all_items (tx (h_queues h))) (tables h) (tables h') ∧
  (∀ item, item ∈ all_items (tx (h_queues h)) → ∃ r, stored (tables h') item r) ∧
  (∀ ack, ack ∈ concat (map channel_acks (tx (h_queues h))) → is_Some (h_replies h' !! ack.2)) ∧
  (∀ i commands, tx (h_queues h) !! i = Some (Some commands) → (until_stop commands).1.2 = None →
     (first + i)%nat ∈ h_stopped h') ∧
  k_migrated (h_disk h') = k_migrated (h_disk h) ∧ k_columns (h_disk h') = k_columns (h_disk h).

Lemma told_all channels k :
  all_items (imap (λ i, told first (k + i)) channels) = all_items channels ∧
  concat (map channel_acks (imap (λ i, told first (k + i)) channels)) = concat (map channel_acks channels).
Proof.
  revert k. induction channels as [|channel channels IH]; intros k; [done|].
  cbn [imap]. unfold all_items. cbn [map concat]. destruct (told_waiting first (k + 0) channel) as [-> ->].
  destruct (IH (S k)) as [IHi IHa]. unfold all_items in IHi. rewrite <-IHi, <-IHa.
  assert (imap ((λ i, told first (k + i)) ∘ S) channels = imap (λ i, told first (S k + i)) channels) as ->; [|done].
  apply imap_ext. intros i x _. unfold compose. by rewrite Nat.add_succ_comm.
Qed.

Lemma told_each channels :
  all_items (imap (told first) channels) = all_items channels ∧
  concat (map channel_acks (imap (told first) channels)) = concat (map channel_acks channels).
Proof. exact (told_all channels 0). Qed.

Lemma told_stop i commands :
  (until_stop commands).1.2 = None → channel_stop (told first i (Some commands)) = [(first + i)%nat].
Proof.
  unfold channel_stop, told. cbn [fmap option_fmap option_map]. intros Hn.
  enough ((until_stop (commands ++ [Shutdown (first + i)])).1.2 = Some (first + i)%nat) as -> by done.
  induction commands as [|[] commands IH]; cbn [until_stop app] in *; [done|..|done];
    destruct (until_stop (commands ++ _)) as [[??]?], (until_stop commands) as [[??]?]; simpl in *; by apply IH.
Qed.

(** The publishes in the channels are those [accept] makes. *)
Definition publishes_ok (channels : list (option (list WriteCommand))) : Prop :=
  ∀ commands item, Some commands ∈ channels → Enqueue item ∈ commands → item_ok item.

Lemma publishes_told channels :
  publishes_ok channels → publishes_ok (imap (told first) channels).
Proof.
  intros Hok commands item (i & Hi)%list_elem_of_lookup Hitem. rewrite list_lookup_imap in Hi.
  destruct (channels !! i) as [[before|]|] eqn:Hc; simplify_eq/=.
  apply elem_of_app in Hitem as [Hitem|Hitem%list_elem_of_singleton]; [|done].
  eapply Hok; [by eapply list_elem_of_lookup_2|done].
Qed.

Lemma evolves_workers channels : publishes_ok channels →
  Keeps (λ h h', evolves (tables h) (tables h')) (run_workers arrives fuel batch_size channels).
Proof.
  assert (PreOrder (λ h h' : Machine, evolves (tables h) (tables h'))) as Hpre by (split; [by intros h|]; intros h1 h2 h3; by etrans).
  induction channels as [|[commands|] channels IH]; intros Hok; cbn [run_workers]; [keeps_go| |].
  - assert (publishes_ok channels) as Hrest by (intros c item Hc; apply Hok; by right).
    apply keeps_bind; [done| |intros [[rest|]|]; [by apply IH|keeps_go|by apply IH]].
    intros w. unfold join, as_worker, zoom.
    pose proof (evolves_run_writer arrives (length commands) fuel batch_size commands
      (λ item Hi, Hok commands item (list_elem_of_here _ _) Hi) (mkWorld (worker_of (st w)) (tick w))) as Hev.
    by destruct (run_writer _ _ _ _ _ _) as [[a|e] w'].
  - apply IH. intros c item Hc. apply Hok. by right.
Qed.

Lemma run_machine_tables {A} (m : M Error Db A) w a s n :
  m (mkWorld (tables (st w)) (tick w)) = (Ok a, mkWorld s n) →
  Lifecycle.on_tables m w = (Ok a, mkWorld (set_disk (set_tables s (h_disk (st w))) (st w)) n).
Proof. intros Hm. unfold Lifecycle.on_tables, on_disk, DbOpen.on_tables, zoom. cbn [st tick]. fold (tables (st w)). by rewrite Hm. Qed.

(** Being told to stop changes nothing a channel delivers before. *)
Lemma channels_ok_told channels s : channels_ok channels s → channels_ok (imap (told first) channels) s.
Proof.
  intros [Hnd Hall]. unfold channels_ok. rewrite (proj1 (told_each channels)). split; [done|].
  apply Forall_forall. intros channel (i & Hi)%list_elem_of_lookup. rewrite list_lookup_imap in Hi.
  destruct (channels !! i) as [c|] eqn:Hc; simplify_eq/=. destruct (told_waiting first i c) as [-> _].
  exact (Forall_lookup_1 _ _ _ _ Hall Hc).
Qed.

Lemma shutdown_tells w :
  length (tx (h_queues (st w))) = 16%nat →
  ∃ waits q, on_queues (writer_shutdown first) w = (Ok waits, mkWorld (set_queues q (st w)) (tick w)) ∧
    tx q = imap (told first) (tx (h_queues (st w))).
Proof.
  intros Hlen. destruct (writer_shutdown_run first (mkWorld (h_queues (st w)) (tick w))) as (waits & q & Hq & Ht & _ & Hl & Htx).
  cbn [st tick] in *. exists waits, (st q). unfold on_queues, zoom. rewrite Hq, Ht. split; [done|].
  apply list_eq. intros i. rewrite list_lookup_imap. destruct (tx (h_queues (st w)) !! i) as [channel|] eqn:Hi.
  - apply Htx; [|done]. apply lookup_lt_Some in Hi. lia.
  - apply lookup_ge_None. apply lookup_ge_None in Hi. lia.
Qed.

(** The statistics task and the close after the workers. *)
Lemma close_up w :
  ∃ w1 w', join (Lifecycle.on_tables (stats_worker [Changed true])) w = (Ok (Some ()), w1) ∧
    Lifecycle.on_tables close w1 = (Ok (), w') ∧
    same_shards (tables (st w)) (tables (st w')) ∧ st w' = set_disk (set_tables (tables (st w')) (h_disk (st w))) (st w) ∧
    (calm_from (tick w) → stats_delta (tables (st w')) = ∅).
Proof.
  destruct (final_flush_run (mkWorld (tables (st w)) (tick w)) Hsane) as ([s1 n1] & H1' & Hs1 & Hd1).
  rewrite (run_join _ _ _ _ (run_machine_tables _ _ _ _ _ H1')).
  set (w1 := mkWorld _ n1). destruct (close_run (mkWorld s1 n1) Hsane) as ([s2 n2] & H2' & Hs2).
  pose proof (close_delta (mkWorld s1 n1)) as Hd2. rewrite H2' in Hd2.
  eexists w1, _. split; [done|]. rewrite (run_machine_tables close w1 _ _ _ H2'). split; [done|].
  split; [exact (transitivity Hs1 Hs2)|]. split; [done|]. intros Hc. by apply Hd2, Hd1.
Qed.

(** Every worker drains its channel, answers and stops; then the database is closed. *)
Lemma shut_down_run result w :
  length (tx (h_queues (st w))) = 16%nat → channels_ok (tx (h_queues (st w))) (tables (st w)) →
  ∃ w', shut_down arrives fuel batch_size first result w =
      (match result with Ok _ => Ok (Some ()) | Err e => Err e end, w') ∧
    ended (st w) (st w') ∧ ((N <= tick w)%nat → stats_delta (tables (st w')) = ∅) ∧
    (publishes_ok (tx (h_queues (st w))) → db_ok (tables (st w)) → db_ok (tables (st w'))).
Proof.
  intros Hlen Hok. unfold shut_down, stop_writer. destruct (shutdown_tells w Hlen) as (waits & q & Hq & Hch).
  rewrite run_bind, run_bind, Hq. run. cbn [st tick h_queues set_queues].
  set (w1 := mkWorld (set_queues q (st w)) (tick w)).
  destruct (run_workers_spec arrives N fuel batch_size Hcalm Hfuel (tx q) w1) as (w2 & Hrun & P & S & R & A & T & D).
  { rewrite Hch. by apply channels_ok_told. }
  pose proof (ticks_run_workers arrives fuel batch_size (tx q) w1) as Htick.
  pose proof (λ Hp, evolves_workers (tx q) Hp w1) as Hev.
  rewrite Hrun. rewrite Hrun in Htick, Hev. cbn [snd] in Htick, Hev.
  destruct (close_up w2) as (w3 & w' & Hj & Hc & Hsh & Hst & Hd). rewrite run_bind, Hj, run_ret, run_bind, Hc.
  exists w'. split; [by destruct result as [[]|]|]. rewrite Hch in *. destruct (told_each (tx (h_queues (st w)))) as [Hti Hta].
  rewrite Hti in P, S. rewrite Hta in A.
  assert (persists [] (tables (st w2)) (tables (st w'))) as P' by (by apply persists_shards).
  split; [|split].
  - split; [|split; [|split; [|split]]].
    + etrans; [exact P|]. eapply persists_mono; [|exact P']. set_solver.
    + intros item Hi. destruct (S item Hi) as [r Hr]. exists r. by eapply persists_stored.
    + rewrite Hst. exact A.
    + intros i commands Hi Hn. rewrite Hst. cbn [h_stopped set_disk]. rewrite T. apply elem_of_app. right.
      rewrite list_elem_of_In. apply in_concat. exists [(first + i)%nat]. rewrite <-!list_elem_of_In. split; [|left].
      rewrite <-(told_stop i commands Hn). apply list_elem_of_fmap_2. eapply list_elem_of_lookup_2.
      by rewrite list_lookup_imap, Hi.
    + rewrite Hst, D. done.
  - intros HN. apply Hd. intros n Hn. apply Hcalm. simpl in Htick. lia.
  - intros Hp Hdb. apply publishes_told in Hp. specialize (Hev Hp). apply evolves_ok in Hev; [|done].
    revert Hev. unfold db_ok, shard. unfold same_shards in Hsh. by rewrite Hsh.
Qed.

(** C18: The shutdown terminates and loses nothing: however often the storage fails
    before step [N], whatever is queued and whatever ended the services, every worker
    ends, the database is closed and the process exits with the result of its services;
    then every publish of every channel is stored, every acknowledgement and every
    worker's stop is answered, no stored message is lost, and when the storage has
    stopped failing by then the statistics in memory have been written. *)
Theorem shutdown_completes result w :
  length (tx (h_queues (st w))) = 16%nat → channels_ok (tx (h_queues (st w))) (tables (st w)) →
  ∃ w', shut_down arrives fuel batch_size first result w =
      (match result with Ok _ => Ok (Some ()) | Err e => Err e end, w') ∧
    ended (st w) (st w') ∧ ((N <= tick w)%nat → stats_delta (tables (st w')) = ∅).
Proof.
  intros Hlen Hok. destruct (shut_down_run result w Hlen Hok) as (w' & Hrun & He & Hd & _). by exists w'.
Qed.

End ending.

(** * The next process *)

Section starting.
Context `{Oracle, Chrono, Serde, Passwords, !OrderLaws} (Hcalm : calm).
Context (bind : SocketAddr → result string ()) (client : result string ()).
Context (Hbind : ∀ a, bind a = Ok ()) (Hclient : client = Ok ()).

Lemma keeps_start queue_size : Keeps eq (start queue_size).
Proof. unfold start, recent_idempotency_keys, ask_shard_at. keeps_go. done. Qed.

Lemma start_run queue_size w :
  db_ok (st w) → 0 <= queue_size <= I64_MAX →
  ∃ recent n, start queue_size w = (Ok (mkWriter recent (replicate 16 (Some []))), mkWorld (st w) n).
Proof.
  intros Hok Hq. pose proof (keeps_start queue_size w) as Hk. revert Hk. unfold start.
  set (cap := recent_ids_per_shard queue_size) in *.
  assert (64 <= cap <= I64_MAX) as Hcap.
  { unfold cap, recent_ids_per_shard, per_shard_queue, U64_MAX, I64_MAX in *.
    assert ((queue_size + 15) / 16 <= 2 ^ 60) by (apply Z.div_le_upper_bound; lia). lia. }
  rewrite run_bind. destruct (recent_keys_run cap w Hcalm Hok) as (es & [s n] & -> & Hlt & Hk & _); [lia|].
  destruct (load_recent_spec (Z.to_nat cap) es Hk Hlt) as (recent & -> & _). run. intros ->. by exists recent, n.
Qed.

Lemma listen_run config w : listen bind client config w = (Ok (), w).
Proof.
  unfold listen, io. rewrite Hclient, !Hbind. destruct w.
  by destruct (Config.mqtt_enabled config && negb (Config.mqtt_port config =? 0)),
    (Config.mqtt_enabled config && negb (Config.mqtt_ws_port config =? 0)).
Qed.

(** With an administrator in the tables nothing is written there. *)
Lemma admin_run configured w :
  (0 < size (admin_user (h_admin (st w))))%nat →
  ∃ n n', on_admin web_auth_open w = (Ok (), mkWorld (st w) n) ∧
    on_admin (ensure_initial_admin configured) (mkWorld (st w) n) = (Ok (), mkWorld (st w) n').
Proof.
  intros Hadmin. assert (∀ h, set_admin (h_admin h) h = h) as Hset by (by intros []).
  exists (S (S (S (tick w)))), (S (S (S (S (tick w))))). split.
  - unfold on_admin, web_auth_open, zoom, query. run. rewrite Hcalm. run. rewrite Hcalm. run. rewrite Hcalm. run. by rewrite Hset.
  - unfold on_admin, ensure_initial_admin, zoom, query. run. rewrite Hcalm. run.
    rewrite (proj2 (Nat.ltb_lt _ _) Hadmin). run. by rewrite Hset.
Qed.

(** A process that finds the administrator and the current layout starts. *)
Lemma start_up_run config w :
  sqlite_file_path (Config.config_database_url config) ≠ None → 0 <= Config.write_queue_size config <= I64_MAX →
  (0 < size (admin_user (h_admin (st w))))%nat →
  db_ok (tables (st w)) → is_Some (k_migrated (h_disk (st w))) → current_layout (h_disk (st w)) →
  ∃ w' w1 n, start_up bind client config w = (Ok (), w') ∧ db_ok (tables (st w')) ∧
    (∀ i id, shard i (tables (st w')) !! id = recover <$> shard i (tables (st w)) !! id) ∧
    start (Config.write_queue_size config) (mkWorld (tables (st w')) n) = (Ok (h_queues (st w')), w1).
Proof.
  intros Hurl Hq Hadmin Hok Hmig Hlay. unfold start_up.
  destruct (connect_run Hcalm (Config.config_database_url config) (mkWorld (h_disk (st w)) (tick w)))
    as ([d n0] & Hopen & Hok1 & Hrec & _); [done..|].
  rewrite run_bind. unfold on_disk at 1, zoom at 1. rewrite Hopen. cbn [st tick].
  destruct (admin_run (Config.admin_password config) (mkWorld (set_disk d (st w)) n0) Hadmin) as (n1 & n2 & Ha & He).
  rewrite run_bind, Ha, run_bind, He. set (w2 := mkWorld _ n2).
  destruct (start_run (Config.write_queue_size config) (mkWorld (tables (st w2)) n2) Hok1 Hq) as (recent & n3 & Hstart).
  rewrite run_bind, (run_machine_tables _ _ _ _ _ Hstart). rewrite run_bind, run_mem, listen_run.
  eexists _, _, n2. split; [done|]. unfold w2 in *. cbn in *. split; [done|]. split; [done|]. exact Hstart.
Qed.

End starting.

(** * The restart *)

Section restart.
Context (before_oracle after_oracle : Oracle) `{Chrono, Serde, Passwords}.
Context (Hbefore : OrderLaws (H := before_oracle)) (Hafter : OrderLaws (H := after_oracle)).
Context (arrives : nat → nat) (bind : SocketAddr → result string ()) (client : result string ()).

(** The disk of [h'] has what [h] left: the files, not the memory. *)
Definition same_files (h h' : Machine) : Prop :=
  same_shards (tables h) (tables h') ∧ k_migrated (h_disk h') = k_migrated (h_disk h) ∧
  k_columns (h_disk h') = k_columns (h_disk h).


End restart.

(** * The properties in the demonstration environment *)

(** A database that is locked for two steps. *)
Definition locked_oracle : Oracle := {|
  clock n := demo_start;
  uuid n := uuid (Oracle := demo_oracle) n;
  fault n := if (n <? 2)%nat then Some "database is locked" else None;
  any_order A _ l := l
|}.

Lemma locked_order : OrderLaws (H := locked_oracle).
Proof. constructor. by intros. Qed.

Lemma locked_calm : calm_from (H := locked_oracle) 2.
Proof. intros n Hn. simpl. by rewrite (proj2 (Nat.ltb_ge n 2)). Qed.

Lemma locked_sane : clock_sane (H := locked_oracle) (H0 := demo_chrono).
Proof. intros n. eexists. vm_compute. reflexivity. Qed.

(** A process with three publishes and an acknowledgement queued in one shard. *)
Definition demo_channels : list (option (list WriteCommand)) :=
  <[1%nat := Some (map Enqueue demo_items ++ [Delivered "s01-x" "lease" 7])]> (replicate 16 (Some [])).

Definition demo_machine : Machine :=
  mkMachine (demo_disk empty_db) (mkAdmin {["admin" := "hash"]} ∅)
    (mkWriter (replicate 16 (recent_new 2)) demo_channels) (mkNotes ∅ None) ∅ [].

Lemma demo_channels_ok : channels_ok (H1 := demo_serde) demo_channels empty_db.
Proof.
  split; [apply (bool_decide_unpack _); by vm_compute|]. apply Forall_lookup_2. intros i channel Hi.
  destruct (decide (i = 1%nat)) as [->|Hne].
  - injection Hi as <-. exists 1%nat. change (channel_items _) with demo_items. split; [|split; [|split; [|split]]].
    + apply (bool_decide_unpack _). by vm_compute.
    + by repeat constructor.
    + by apply (bool_decide_unpack _); vm_compute.
    + done.
    + intros k item Hk _. do 3 (destruct k as [|k]; [injection Hk as <-; by vm_compute|]). done.
  - unfold demo_channels in Hi. rewrite list_lookup_insert_ne in Hi by done. apply lookup_replicate in Hi as [-> _].
    exists 0%nat. change (channel_items _) with (@nil EnqueueInput). split; [by constructor|]. split; [by constructor|].
    split; [by constructor|]. split; [done|]. intros k item Hk. by rewrite lookup_nil in Hk.
Qed.

Lemma demo_publishes : publishes_ok demo_channels.
Proof.
  assert (Forall (λ channel, Forall (λ c, if c is Enqueue item then item_ok item else True) (default [] channel)) demo_channels) as Hall.
  { apply Forall_insert; [by apply Forall_replicate|]. cbn [default]. unfold demo_items. cbn [map app].
    repeat constructor; vm_compute; reflexivity. }
  intros commands item Hc Hi. rewrite Forall_forall in Hall. specialize (Hall _ Hc). cbn [default] in Hall.
  rewrite Forall_forall in Hall. exact (Hall _ Hi).
Qed.

Lemma shutdown_completes_witness :
  ∃ w', shut_down (H := locked_oracle) (H0 := demo_chrono) (H1 := demo_serde) (λ _, 2%nat) 3 128 20 (Ok ())
          (mkWorld demo_machine 0) = (Ok (Some ()), w') ∧
    (∀ item, item ∈ demo_items → ∃ r, stored (H1 := demo_serde) (tables (st w')) item r) ∧
    is_Some (h_replies (st w') !! 7%nat).
Proof.
  destruct (shutdown_completes (H := locked_oracle) (H0 := demo_chrono) (H1 := demo_serde) (H2 := locked_order) (λ _, 2%nat)
    2 3 128 20 locked_calm ltac:(lia) locked_sane (Ok ()) (mkWorld demo_machine 0)) as (w' & Hrun & (_ & Hst & Hre & _) & _).
  - reflexivity.
  - exact demo_channels_ok.
  - exists w'. split; [exact Hrun|]. split; [exact Hst|]. apply (Hre ("s01-x", "lease", 7%nat)).
    apply (bool_decide_unpack _). by vm_compute.
Defined.

(** The process after it: the same files, nothing in memory. *)
Definition rebooted (h : Machine) : Machine :=
  mkMachine (h_disk h) (mkAdmin {["admin" := "hash"]} ∅) (mkWriter [] []) (mkNotes ∅ None) ∅ [].


End LifecycleSpec.
